(* ===== verification/_CoqProject ===== *)
-Q . S2P
Prelude.v
GoStd.v
Wire.v
Hash.v
ChunkStore.v
Prog.v
Seal.v
Pack.v
Dedup.v
Table.v
Blob.v
Split.v
Multivol.v
Manifest.v
PsIndex.v
GcRound.v
GcLoad.v
GcSafe.v
GcExample.v
Conc.v
Boundary.v
Cdc.v
Stream.v
StreamWrite.v
ProllyNode.v
Prolly.v
ProllyDiff.v
ProllyDraw.v
ProllyFlush.v
ProllyMerge.v
ProllyCanon.v
ProllyEditor.v
ProllyWalk.v
Auth.v
Model.v
Object.v
Namespace.v
Merge.v
MapObject.v
VcsCodec.v
Vcs.v
VcsHistory.v
VcsMerge.v
VcsAtomic.v
VcsAccess.v
VcsRefs.v
VcsPlan.v
VcsCommit.v
VcsInit.v
VcsSession.v
VcsWalk.v
VcsExample.v
Models.v
