(* ===== verification/Prelude.v ===== *)
(** * snapshot-core: a verification of its storage core

    snapshot-core keeps versioned trees of typed objects in a content-addressed
    chunk store. Bytes are cut into chunks named by their hash; ordered maps are
    prolly trees of chunks; a namespace is such a map from path to object; a
    commit names a namespace; branches and tags are entries of one more map,
    the refs map, and the store's one mutable cell, its root, names that map.
    Every change of a repository is one compare-and-set of the root.
    Underneath, the chunks of the store on disk are kept in packs, sealed frame
    by frame; index objects say which pack has which chunk; a sealed manifest,
    the blob store's root value, lists the index objects and what garbage
    collection has condemned; packs, index objects and manifest live on a blob
    store with a compare-and-set root of its own.

    ** Files, and the code each models (under src/core)

    - [Prelude]: bytes, Go's fixed-width integers as [Z] with the wrap-around
      written out ([u64], [i64]), results and errors, byte order, sorted lists
      and lookups in them.
    - [Wire] (wire/wire.go): the binary writer and the reader with its sticky
      error. [Hash] (hash/hash.go). [ChunkStore] (chunk/port.go,
      chunk/memstore): the store's contract as the class [ChunkStore] with the
      laws [ChunkStoreOk], and the in-memory store that has them.
    - [Prog]: a program over a chunk store is a tree of the calls it makes
      ([prog]); it runs on any store ([run]) and on the bare chunks and root
      ([exec]), and [run_view] is the refinement between the two. [Conc] runs a
      program beside other writers, who may store chunks and move the root
      between any two of its steps.
    - [Boundary] (boundary/boundary.go), [Cdc] (cdc/cdc.go: the serial cutter),
      [Stream] and [StreamWrite] (stream/stream.go: reading, walking and writing byte
      streams, the serial writer).
    - [ProllyNode], [Prolly], [ProllyDiff], [ProllyFlush], [ProllyWalk]
      (prolly/node.go, prolly.go, cursor.go, diff.go, flush.go, walk.go): the
      code; [ProllyDraw], [ProllyMerge], [ProllyCanon], [ProllyEditor]: the tree
      a bulk build draws, and that a flush ends in that tree.
    - [Auth] (auth/auth.go), [Model] (model/port.go), [Object]
      (object/object.go: references, paths, namespaces), [Namespace]: a namespace is a
      finite map; [Merge] (merge/merge.go): the three-way merge. [MapObject]
      (src/model/mapobject): what models that are one map share; [Models]
      (src/model/blob, src/model/tree): the models of files and of directory
      trees, instances of the port.
    - [VcsCodec] (vcs/encode.go, names.go), [Vcs], [VcsHistory], [VcsMerge]
      (vcs/vcs.go): every handler of a repository; [VcsWalk] (vcs/walk.go): what
      a repository is made of.
      [VcsAtomic], [VcsAccess], [VcsRefs], [VcsPlan], [VcsCommit], [VcsInit],
      [VcsSession]: what the handlers promise; [VcsExample]: a repository on
      which the theorems are applied.
    - [GoStd]: what the storage layer uses of Go's strings and io packages. [Seal] (seal/seal.go: key
      derivation and sealed values), [Pack] (pack/pack.go: the pack format, its
      writer and reader), [Dedup] (dedup/dedup.go: index objects and the index
      in memory), [Table] (dedup/table.go: the sorted table on disk, external
      merge sort included).
    - [Blob] (blob/port.go, helpers.go, journal/port.go, mem): the blob port as
      the class [BlobStore] with its laws [BlobStoreOk], and the backend in
      memory, which has them, with its journal. [Split] (blob/split): the root
      apart from the objects, with the copy of the root, as calls and as steps
      side by side. [Multivol] (blob/multivol): one store over several volumes.
      Both keep the port's laws over any stores that keep them.
    - [Manifest] (chunk/packstore/manifest.go), [PsIndex] (index objects of a
      pack store: loading, batching, locations), [GcRound]
      (chunk/packstore/gc.go: a round of a collection, whole); [GcLoad],
      [GcSafe]: what a round's index has and what the round keeps;
      [GcExample]: a small repository on which they are applied.

    State is explicit: an in-memory store is a record, an editor is the map it
    edits with its edits, a repository is its options, and its sessions are a
    map of counts handed to the handlers that use it.

    ** What the theorems show

    - Encodings: every format (varints, tree and index nodes, references,
      commits, tags, working sets, conflict records) has exactly one accepted
      encoding of each value, and the grammars of paths, names and principals
      are the documented ones.
    - Streams: cutting is that of a byte-at-a-time cutter, what is written reads
      back from any offset, and [Walk] names what a reader needs.
    - Prolly trees: a flush refines update of a finite map, its root is that of a
      bulk build of the contents whatever the history, what it records as changed
      is what [Diff] reports, and [Diff] is the difference of the contents.
    - Namespaces and merges: a namespace refines a finite map from path to
      object; a merge follows a decision table path by path; objects that are
      maps merge key by key, trees entry by entry, and a tree written is the tree
      read. The walks of the models name what their objects reach, which is what
      the walk of a repository asks of them.
    - Storage: sealed values open only in their place; packs, index objects, the
      table on disk and the manifest each refine a finite map or have exactly one
      accepted encoding; a round of a collection keeps every live chunk readable
      from a listed pack and deletes only what has been condemned for the grace
      window, on any blob store with the laws of the port, beside writers who add
      objects. Several volumes are one store, and a missing one refuses writes and
      listings and never makes an object look deleted; a split store's status is
      right about the copy of the last root reported as swapped in while swaps
      come one at a time, and an example shows that it is not when two are in
      flight. Bytes that are not a pack are reported as corrupt, or panic, where
      the trailer wraps around.
    - Repositories: handlers refine updates of a finite map of refs; beside any
      other writers each moves the root once or not at all, from the root whose
      map it edited; a retry means another writer got through; commits are higher
      than their parents and histories stay walkable; [Log] and [mergeBase]
      return what they promise and end; every path a change alters is asked for,
      a call refused what it asks for up front does nothing, and a branch is
      deleted unless a session has it checked out.

    ** Conventions, bounds and fuel

    A Go error is a constructor of [error] for each exported error value (and
    [EMsg] for the others, whose text stands for their call site), with
    [errors.Is] as equality; values returned beside an error are dropped.
    SHA-256 is a parameter (the class [Hasher]); theorems that need distinct
    names for distinct chunks say so of the chunks at hand ([collision_free]),
    and examples use a small hash of their own. A panic of the source (an index
    out of range, a nil dereference) is an error of the model, and the
    functional theorems exclude it. Loops that are not structural take fuel: the
    nodes of a level, the edits, the entries of the maps compared, the commits
    of the histories, 1,000 rounds of a swap; each theorem about such a loop
    gives fuel that is enough, or is about the function that fixes it. Node
    levels are below 64 and counts below 2^62, which the flush theorems assume
    of the contents. The standard library's heap is a queue whose least element
    is popped; sorting is [merge_sort]. The clock, sleeping and random jitter
    are parameters of a repository, contexts are not modelled, and a
    [chunk.RawWriter] stores what [Put] stores. In the storage layer AES-256-GCM
    and HKDF, zstd and float64 quotients are classes ([Aead], [Zstd], [Float64])
    with the laws the code relies on, each with an instance in the examples; the
    random bytes a call draws and the backend's clock are an argument or a
    stream (the class [Draws]) over the environment [env], which keeps the
    backend, the draws made and, as history, what was put;
    [novel] says of a run that a name it put had not been taken by other bytes.
    A file of the table is the bytes written to it, and a failing disk is not
    modelled there.

    ** Not modelled

    The parallel paths of core/cdc and core/stream (goroutines over the code
    modelled); the pack store's own writer (packstore.go, its cache, compaction
    and journal: state shared by the goroutines that finish and upload packs);
    the loop of core/gc that calls a round, and its clock probe; the backends on
    a file system and on S3, the read cache and key files, which are calls of the
    operating system and of libraries (and so what [Multivol] asks of the machine:
    creating volumes, their identity and their free space are arguments); the wiring of core/repo; core/dnx
    and the tools. *)

From Stdlib Require Export ZArith Lia.
From Stdlib Require Import Strings.String Strings.Byte.
From stdpp Require Export base list gmap countable option sorting.

Export String.StringSyntax.

#[export] Set Default Goal Selector "!".

Declare Scope snap_scope.
Delimit Scope snap_scope with snap.
#[global] Open Scope snap_scope.
#[global] Open Scope Z_scope.

(** ** Bytes

    A Go [byte] is [Byte.byte]; a [[]byte] or a Go [string] is a list of them.
    Indexing a nil slice is never modelled: nil and the empty slice differ only
    where the source tests for nil, and there an [option] is used. *)

Abbreviation byte := Byte.byte.
Abbreviation bytes := (list byte).

#[export] Instance byte_eq_dec : EqDecision byte := Byte.byte_eq_dec.

#[export] Program Instance byte_countable : Countable byte :=
  inj_countable Byte.to_N Byte.of_N _.
Next Obligation. intros b. apply Byte.of_to_N. Qed.

(** The unsigned value of a byte, and Go's truncating conversion [byte(v)]. *)
Definition bZ (b : byte) : Z := Z.of_N (Byte.to_N b).

Definition Zb (v : Z) : byte :=
  match Byte.of_N (Z.to_N (v mod 256)) with Some b => b | None => Byte.x00 end.

Lemma bZ_range b : 0 <= bZ b < 256.
Proof. unfold bZ. pose proof (Byte.to_N_bounded b). lia. Qed.

Lemma bZ_Zb v : bZ (Zb v) = v mod 256.
Proof.
  unfold Zb, bZ. pose proof (Z.mod_pos_bound v 256 ltac:(lia)) as Hr.
  destruct (Byte.of_N (Z.to_N (v mod 256))) as [b|] eqn:E.
  - apply Byte.to_of_N in E. rewrite E. lia.
  - apply Byte.of_N_None_iff in E. lia.
Qed.

Lemma bZ_Zb_small v : 0 <= v < 256 -> bZ (Zb v) = v.
Proof. intros. rewrite bZ_Zb. by apply Z.mod_small. Qed.

Lemma bZ_inj a b : bZ a = bZ b -> a = b.
Proof.
  unfold bZ. intros H%N2Z.inj.
  pose proof (Byte.of_to_N a) as Ha. pose proof (Byte.of_to_N b) as Hb.
  rewrite H in Ha. congruence.
Qed.

Lemma Zb_bZ b : Zb (bZ b) = b.
Proof. apply bZ_inj. apply bZ_Zb_small, bZ_range. Qed.

(** A Go string constant as bytes. *)
Definition str (s : string) : bytes := String.list_byte_of_string s.
Arguments str _%_string.

(** Lengths are Go [int]s. *)
Abbreviation zlen l := (Z.of_nat (length l)).

(** ** [bytes.Compare]: the lexicographic order of byte strings *)

Fixpoint bcompare (a b : bytes) : comparison :=
  match a, b with
  | [], [] => Eq
  | [], _ :: _ => Lt
  | _ :: _, [] => Gt
  | x :: a, y :: b =>
      match Z.compare (bZ x) (bZ y) with Eq => bcompare a b | c => c end
  end.

Definition bltb (a b : bytes) : bool := match bcompare a b with Lt => true | _ => false end.
Definition bleb (a b : bytes) : bool := match bcompare a b with Gt => false | _ => true end.
Definition blt (a b : bytes) : Prop := bcompare a b = Lt.
Definition ble (a b : bytes) : Prop := bcompare a b <> Gt.

Infix "<b" := blt (at level 70) : snap_scope.
Infix "<=b" := ble (at level 70) : snap_scope.

Lemma bcompare_refl a : bcompare a a = Eq.
Proof. induction a as [|x a IH]; simpl; [done|]. by rewrite Z.compare_refl. Qed.

Lemma bcompare_eq a b : bcompare a b = Eq <-> a = b.
Proof.
  split; [|intros ->; apply bcompare_refl].
  revert b. induction a as [|x a IH]; intros [|y b]; simpl; try done.
  destruct (Z.compare_spec (bZ x) (bZ y)) as [E| |]; try done.
  intros H. f_equal; [by apply bZ_inj|by apply IH].
Qed.

Lemma bcompare_antisym a b : bcompare b a = CompOpp (bcompare a b).
Proof.
  revert b. induction a as [|x a IH]; intros [|y b]; simpl; try done.
  rewrite Z.compare_antisym. destruct (Z.compare (bZ x) (bZ y)); simpl; auto.
Qed.

Lemma bcompare_gt a b : bcompare a b = Gt <-> b <b a.
Proof. unfold blt. rewrite (bcompare_antisym a b). destruct (bcompare a b); simpl; split; congruence. Qed.

Lemma blt_trans a b c : a <b b -> b <b c -> a <b c.
Proof.
  unfold blt. revert b c. induction a as [|x a IH]; intros [|y b] [|z c]; simpl; try done.
  destruct (Z.compare_spec (bZ x) (bZ y)), (Z.compare_spec (bZ y) (bZ z)),
    (Z.compare_spec (bZ x) (bZ z)); try done; try lia. apply IH.
Qed.

Lemma blt_irrefl a : ~ a <b a.
Proof. unfold blt. rewrite bcompare_refl. done. Qed.

#[export] Instance blt_strict : StrictOrder blt.
Proof. split; [intros a; apply blt_irrefl|intros a b c; apply blt_trans]. Qed.

#[export] Instance blt_dec a b : Decision (a <b b).
Proof. unfold blt. apply _. Defined.
#[export] Instance ble_dec a b : Decision (a <=b b).
Proof. unfold ble. apply _. Defined.

Lemma blt_trichotomy a b : a <b b \/ a = b \/ b <b a.
Proof.
  unfold blt. destruct (bcompare a b) eqn:E; [right; left; by apply bcompare_eq|by left|].
  right; right. by apply bcompare_gt.
Qed.

Lemma ble_lteq a b : a <=b b <-> a <b b \/ a = b.
Proof.
  unfold ble, blt. rewrite <-bcompare_eq. destruct (bcompare a b); split; intros; intuition congruence.
Qed.

Lemma ble_not_lt a b : a <=b b <-> ~ b <b a.
Proof. unfold ble. by rewrite bcompare_gt. Qed.

Lemma blt_not_le a b : a <b b <-> ~ b <=b a.
Proof. rewrite ble_not_lt. split; [tauto|]. intros H. destruct (decide (a <b b)); tauto. Qed.

Lemma blt_le a b : a <b b -> a <=b b.
Proof. rewrite ble_lteq. auto. Qed.

Lemma ble_refl a : a <=b a.
Proof. apply ble_lteq. auto. Qed.

Lemma ble_lt_trans a b c : a <=b b -> b <b c -> a <b c.
Proof. rewrite ble_lteq. intros [H| ->]; [by apply blt_trans|done]. Qed.

Lemma blt_le_trans a b c : a <b b -> b <=b c -> a <b c.
Proof. rewrite ble_lteq. intros H [H2| <-]; [by apply blt_trans with b|done]. Qed.

Lemma ble_trans a b c : a <=b b -> b <=b c -> a <=b c.
Proof.
  rewrite (ble_lteq a b). intros [H| ->] H2; [|done].
  by apply blt_le, blt_le_trans with b.
Qed.

Lemma blt_ne a b : a <b b -> a <> b.
Proof. intros H ->. by apply blt_irrefl in H. Qed.

Lemma bltb_spec a b : reflect (a <b b) (bltb a b).
Proof. unfold bltb, blt. destruct (bcompare a b); constructor; congruence. Qed.

Lemma bleb_spec a b : reflect (a <=b b) (bleb a b).
Proof. unfold bleb, ble. destruct (bcompare a b); constructor; congruence. Qed.

Lemma bltb_true a b : bltb a b = true <-> a <b b.
Proof. destruct (bltb_spec a b); intuition congruence. Qed.

Lemma bleb_true a b : bleb a b = true <-> a <=b b.
Proof. destruct (bleb_spec a b); intuition congruence. Qed.

Lemma bcompare_spec a b : CompareSpec (a = b) (a <b b) (b <b a) (bcompare a b).
Proof.
  destruct (bcompare a b) eqn:E; constructor.
  - by apply bcompare_eq.
  - done.
  - by apply bcompare_gt.
Qed.

(** [border] closes goals about the order of byte strings from the hypotheses. *)
Create HintDb border discriminated.
#[export] Hint Resolve blt_trans ble_trans ble_lt_trans blt_le_trans blt_le ble_refl : border.
Ltac border := solve [eauto 4 with border | exfalso; eapply blt_irrefl; eauto 4 with border].

(** ** Fixed-width integers *)

Definition two8 : Z := 256.
Definition two16 : Z := 65536.
Definition two32 : Z := 4294967296.
Definition two64 : Z := 18446744073709551616.

(** Go's wrap-around on [uint64] and [uint32]. *)
Definition u64 (v : Z) : Z := v mod two64.
Definition u32 (v : Z) : Z := v mod two32.
(** [int64(v)] of a [uint64]. *)
Definition i64 (v : Z) : Z := if v <? 9223372036854775808 then v else v - two64.

Lemma two64_pow : two64 = 2 ^ 64.
Proof. reflexivity. Qed.

Lemma u64_range v : 0 <= u64 v < two64.
Proof. apply Z.mod_pos_bound. reflexivity. Qed.

Lemma u64_small v : 0 <= v < two64 -> u64 v = v.
Proof. apply Z.mod_small. Qed.

Lemma i64_u64 v : -9223372036854775808 <= v < 9223372036854775808 -> i64 (u64 v) = v.
Proof.
  intros H. unfold i64, u64, two64 in *.
  destruct (Z.le_gt_cases 0 v).
  - rewrite Z.mod_small by lia. destruct (Z.ltb_spec v 9223372036854775808); lia.
  - rewrite <-(Z_mod_plus_full v 1), Z.mod_small by lia.
    destruct (Z.ltb_spec (v + 1 * 18446744073709551616) 9223372036854775808); lia.
Qed.

Lemma u64_i64 v : 0 <= v < two64 -> u64 (i64 v) = v.
Proof.
  intros H. unfold i64, u64, two64 in *. destruct (Z.ltb_spec v 9223372036854775808).
  - by apply Z.mod_small.
  - rewrite <-(Z_mod_plus_full _ 1), Z.mod_small by lia. lia.
Qed.

Lemma i64_range v : 0 <= v < two64 -> -9223372036854775808 <= i64 v < 9223372036854775808.
Proof. unfold i64, two64. intros. destruct (Z.ltb_spec v 9223372036854775808); lia. Qed.

(** ** Errors

    One constructor per error value the source names; an error built in place
    with [errors.New] is [EMsg] with a tag for its call site. An error that
    wraps a named one ([fmt.Errorf] with the [%w] verb) is that named one, the
    outermost where two are wrapped: it is what [errors.Is] finds. Texts are
    not modelled. *)
Inductive error :=
  (* core/wire *)
  | WireCorrupt | WireShort | WireTooLong | WireVarint | WireTrailing
  (* core/hash *)
  | HashInvalid
  (* core/chunk *)
  | ChunkNotFound | ChunkCorrupt | ChunkTooLarge | ChunkRootConflict | ChunkRootMissing
  | ChunkClosed | ChunkSessionLost
  (* core/auth *)
  | AuthDenied | AuthInvalidPrincipal
  (* core/model *)
  | ModelUnknown
  (* core/boundary, core/cdc *)
  | BoundaryGeometry | CdcGeometry
  (* core/stream *)
  | StreamTooLarge
  (* core/prolly *)
  | ProllyValueTooLarge | ProllyKeyTooLarge
  (* core/object *)
  | ObjectInvalidPath | ObjectNotWalkable
  (* core/merge *)
  | MergeTooManyConflicts
  (* core/vcs *)
  | VcsExists | VcsNoRepo | VcsConflict | VcsBranchExists | VcsBranchNotFound | VcsBranchInUse
  | VcsTagExists | VcsTagNotFound | VcsInvalidName | VcsInvalidLimit | VcsUnresolvedConflicts
  | VcsMergeState | VcsNoMerge | VcsConflictTooLarge
  (* core/pack, core/dedup *)
  | PackCorrupt | PackTooLarge | PackFull | PackDup | DedupCorrupt
  (* core/seal *)
  | SealAuth | SealCorrupt | SealDomain | SealKeyExhausted | SealDestroyed
  (* core/blob *)
  | BlobNotFound | BlobExists | BlobRootConflict | BlobInvalidName | BlobInvalidRange | BlobInvalidLimit
  | BlobSizeMismatch | BlobTooLarge | BlobEmptyRoot | BlobReadOnly | BlobDeleteForbidden | BlobNoRoot
  | BlobJournalBusy | BlobJournalClosed
  (* core/chunk/packstore *)
  | PackstoreManifest | PackstoreMoved | PackstoreJournalConflict | PackstoreCarry
  (* core/blob/split, core/blob/multivol *)
  | SplitOptions | SplitNoMirror | SplitRootPresent
  | MultivolMissing | MultivolMismatch | MultivolTooMany | MultivolNoSpace | MultivolNotAStore | MultivolCorrupt
  (* a run-time panic *)
  | GoPanic
  (* an error with no name of its own *)
  | EMsg (tag : string).

#[export] Instance error_eq_dec : EqDecision error.
Proof. intros x y. unfold Decision. decide equality. apply String.string_dec. Defined.

(** ** Results and the state-and-error monad

    A Go function returning [(A, error)] is a function into [res A]; one that
    also changes state [S] is in [M S A]: the state is kept on the error path,
    as it is in the source. *)
Inductive res (A : Type) := Ok (a : A) | Err (e : error).
Arguments Ok {A} a.
Arguments Err {A} e.

#[export] Instance res_eq_dec {A} `{EqDecision A} : EqDecision (res A).
Proof. intros x y. unfold Decision. decide equality; apply decide; apply _. Defined.

#[export] Instance res_ret : MRet res := @Ok.
#[export] Instance res_bind : MBind res :=
  fun A B f m => match m with Ok a => f a | Err e => Err e end.
#[export] Instance res_fmap : FMap res :=
  fun A B f m => match m with Ok a => Ok (f a) | Err e => Err e end.

Definition is_ok {A} (m : res A) : bool := match m with Ok _ => true | Err _ => false end.

Lemma is_Ok_inv {A} (r : res A) : is_ok r = true -> exists a, r = Ok a.
Proof. destruct r; [by eauto|discriminate]. Qed.

Definition M (S A : Type) : Type := S -> res A * S.

#[export] Instance M_ret {S} : MRet (M S) := fun A a s => (Ok a, s).
#[export] Instance M_bind {S} : MBind (M S) :=
  fun A B f m s => match m s with (Ok a, s') => f a s' | (Err e, s') => (Err e, s') end.

Definition fail {S A} (e : error) : M S A := fun s => (Err e, s).
Definition liftR {S A} (m : res A) : M S A := fun s => (m, s).
(** Read from the current state without changing it. *)
Definition asks {S A} (f : S -> res A) : M S A := fun s => (f s, s).

Lemma res_bind_Ok {A B} (f : A -> res B) m b :
  m ≫= f = Ok b <-> exists a, m = Ok a /\ f a = Ok b.
Proof. destruct m as [a|e]; simpl; split; [eauto|naive_solver|done|naive_solver]. Qed.

Lemma M_bind_Ok {S A B} (f : A -> M S B) (m : M S A) s b s' :
  (m ≫= f) s = (Ok b, s') <-> exists a s1, m s = (Ok a, s1) /\ f a s1 = (Ok b, s').
Proof.
  unfold mbind, M_bind. destruct (m s) as [[a|e] s1]; split; [eauto|naive_solver|done|naive_solver].
Qed.

(** Run a list of fallible steps in order, stopping at the first error. *)
Fixpoint res_each {A} (f : A -> res unit) (l : list A) : res unit :=
  match l with
  | [] => Ok tt
  | x :: l => match f x with Ok _ => res_each f l | Err e => Err e end
  end.

Lemma res_each_Ok {A} (f : A -> res unit) l :
  res_each f l = Ok tt <-> Forall (fun x => f x = Ok tt) l.
Proof.
  induction l as [|x l IH]; simpl.
  - split; [by constructor|done].
  - rewrite Forall_cons. destruct (f x) as [[]|e].
    + rewrite IH. naive_solver.
    + naive_solver.
Qed.

Fixpoint res_map {A B} (f : A -> res B) (l : list A) : res (list B) :=
  match l with
  | [] => Ok []
  | x :: l =>
      match f x with
      | Ok y => match res_map f l with Ok ys => Ok (y :: ys) | Err e => Err e end
      | Err e => Err e
      end
  end.

Lemma res_map_Ok {A B} (f : A -> res B) l ys :
  res_map f l = Ok ys <-> Forall2 (fun x y => f x = Ok y) l ys.
Proof.
  revert ys. induction l as [|x l IH]; intros ys; simpl.
  - split; [intros [= <-]; constructor|intros H; inversion H; done].
  - destruct (f x) as [y|e] eqn:E.
    + destruct (res_map f l) as [zs|e] eqn:E2; split.
      * intros [= <-]. constructor; [done|]. by apply IH.
      * intros H. inversion H as [|? y' ? ys' Hy Hys]; subst. apply IH in Hys. congruence.
      * done.
      * intros H. inversion H as [|? y' ? ys' Hy Hys]; subst. apply IH in Hys. congruence.
    + split; [done|]. intros H. inversion H; subst. congruence.
Qed.

Lemma res_map_ext {A B} (f g : A -> res B) l :
  (forall x, x ∈ l -> f x = g x) -> res_map f l = res_map g l.
Proof.
  induction l as [|x l IH]; intros H; [done|]. simpl. rewrite H, IH; [done| |by left].
  intros y Hy. apply H. by right.
Qed.

(** Split every [res] and boolean test of a hypothesis that the code returned
    a given value, dropping the branches that return another. *)
Ltac res_inv H :=
  repeat match type of H with
  | context [match ?x with _ => _ end] =>
      let E := fresh "E" in destruct x eqn:E; try discriminate H
  end.

(** ** 32-byte names

    [hash.Hash], [[32]byte] and the salts are lists of exactly 32 bytes; the
    length proof is a boolean equation, so equal bytes are equal names. *)
Record hash := mkHash { hbytes : bytes; hbytes_len : (length hbytes =? 32)%nat = true }.

Lemma hash_eq (h k : hash) : hbytes h = hbytes k -> h = k.
Proof.
  destruct h as [b p], k as [c q]; simpl. intros ->. f_equal. apply (proof_irrel p q).
Qed.

#[export] Instance hash_eq_dec : EqDecision hash.
Proof.
  intros h k. destruct (decide (hbytes h = hbytes k)) as [E|E].
  - left. by apply hash_eq.
  - right. congruence.
Defined.

Lemma hash_length (h : hash) : length (hbytes h) = 32%nat.
Proof. apply Nat.eqb_eq, hbytes_len. Qed.

(** [copy(h[:], b)] into a zero array: what [b] has, up to 32 bytes, and
    zeros after it. A failed [Reader.Fixed] returns nil, which leaves it zero. *)
Definition fit32 (b : bytes) : bytes := take 32 (b ++ replicate 32 Byte.x00).

Lemma fit32_len b : (length (fit32 b) =? 32)%nat = true.
Proof. unfold fit32. apply Nat.eqb_eq. rewrite length_take, length_app, length_replicate. lia. Qed.

Definition to_hash (b : bytes) : hash := mkHash (fit32 b) (fit32_len b).

Definition zero_hash : hash := to_hash [].

Lemma to_hash_exact b : length b = 32%nat -> hbytes (to_hash b) = b.
Proof. intros H. simpl. unfold fit32. rewrite take_app_le by lia. by rewrite take_ge by lia. Qed.

Lemma to_hash_hbytes h : to_hash (hbytes h) = h.
Proof. apply hash_eq. apply to_hash_exact, hash_length. Qed.

#[export] Program Instance hash_countable : Countable hash :=
  inj_countable' hbytes to_hash _.
Next Obligation. intros h. apply to_hash_hbytes. Qed.

#[export] Instance hash_inhabited : Inhabited hash := populate zero_hash.

(** ** Sorted key lists *)

(** Keys strictly increasing, through a key projection. *)
Definition ksorted {A} (key : A -> bytes) (l : list A) : Prop :=
  StronglySorted (fun x y => key x <b key y) l.

Lemma ksorted_cons {A} (key : A -> bytes) x l :
  ksorted key (x :: l) <-> Forall (fun y => key x <b key y) l /\ ksorted key l.
Proof. unfold ksorted. rewrite StronglySorted_cons. done. Qed.

Lemma ksorted_app {A} (key : A -> bytes) l1 l2 :
  ksorted key (l1 ++ l2) <->
  (forall x y, x ∈ l1 -> y ∈ l2 -> key x <b key y) /\ ksorted key l1 /\ ksorted key l2.
Proof.
  unfold ksorted. rewrite StronglySorted_app. done.
Qed.

Lemma ksorted_fmap {A B} (f : A -> B) (key : B -> bytes) l :
  ksorted key (f <$> l) <-> ksorted (fun x => key (f x)) l.
Proof.
  unfold ksorted. induction l as [|x l IH]; simpl.
  - split; constructor.
  - rewrite !StronglySorted_cons, IH, Forall_fmap. done.
Qed.

Lemma ksorted_NoDup {A} (key : A -> bytes) l : ksorted key l -> NoDup (key <$> l).
Proof.
  induction l as [|x l IH]; simpl; [constructor|].
  rewrite ksorted_cons. intros [Hx Hl]. apply NoDup_cons. split; [|by apply IH].
  rewrite list_elem_of_fmap. intros (y & E & Hy).
  rewrite Forall_forall in Hx. specialize (Hx y Hy). rewrite E in Hx. by apply blt_irrefl in Hx.
Qed.

(** The first element whose key is the one sought. *)
Definition klookup {A} (key : A -> bytes) (k : bytes) (l : list A) : option A :=
  list_find (fun x => key x = k) l ≫= fun p => Some p.2.

Lemma klookup_cons {A} (key : A -> bytes) k x l :
  klookup key k (x :: l) = if decide (key x = k) then Some x else klookup key k l.
Proof.
  unfold klookup. simpl. destruct (decide (key x = k)); [done|].
  by destruct (list_find _ l).
Qed.

Lemma klookup_elem {A} (key : A -> bytes) k l x :
  klookup key k l = Some x -> x ∈ l /\ key x = k.
Proof.
  induction l as [|y l IH]; [done|]. rewrite klookup_cons. case_decide.
  - intros [= <-]. split; [left|done].
  - intros H2. destruct (IH H2). split; [by right|done].
Qed.

Lemma klookup_None {A} (key : A -> bytes) k l :
  klookup key k l = None <-> Forall (fun x => key x <> k) l.
Proof.
  induction l as [|y l IH]; [split; [constructor|done]|].
  rewrite klookup_cons, Forall_cons, <-IH. case_decide; naive_solver.
Qed.

Lemma klookup_app {A} (key : A -> bytes) k l1 l2 :
  klookup key k (l1 ++ l2) =
  match klookup key k l1 with Some x => Some x | None => klookup key k l2 end.
Proof.
  induction l1 as [|y l IH]; [done|]. simpl. rewrite !klookup_cons. by case_decide.
Qed.

Lemma klookup_sorted {A} (key : A -> bytes) l x :
  ksorted key l -> x ∈ l -> klookup key (key x) l = Some x.
Proof.
  induction l as [|y l IH]; [set_solver|]. rewrite ksorted_cons, klookup_cons.
  intros [Hy Hl] Hx. apply elem_of_cons in Hx as [->|Hx]; [by rewrite decide_True|].
  rewrite decide_False; [by apply IH|].
  rewrite Forall_forall in Hy. specialize (Hy x Hx). intros E. rewrite E in Hy. by apply blt_irrefl in Hy.
Qed.

Lemma klookup_below {A} {key : A -> bytes} (l : list A) k : Forall (fun x => key x <b k) l -> klookup key k l = None.
Proof. intros H. apply klookup_None. eapply Forall_impl; [exact H|]. intros x Hx. by apply blt_ne. Qed.

Lemma klookup_above {A} {key : A -> bytes} k (l : list A) : Forall (fun x => k <b key x) l -> klookup key k l = None.
Proof. intros H. apply klookup_None. eapply Forall_impl; [exact H|]. cbn. intros x Hx E. subst k. by apply blt_irrefl in Hx. Qed.

(** A decoder's test that the element it has read comes after the last. *)
Definition notAfter {A} (key : A -> bytes) (acc : list A) (e : A) : bool :=
  match last acc with
  | Some p => match bcompare (key p) (key e) with Lt => false | _ => true end
  | None => false
  end.

Lemma notAfter_snoc {A} (key : A -> bytes) acc e : notAfter key acc e = false -> ksorted key acc -> ksorted key (acc ++ [e]).
Proof.
  unfold notAfter. intros Hlast Hs. apply ksorted_app. split_and!; [|done|by repeat constructor]. intros x y Hx ->%list_elem_of_singleton.
  destruct (last acc) as [p|] eqn:El; [|apply last_None in El as ->; by apply elem_of_nil in Hx].
  assert (key p <b key e) as Hp by (destruct (bcompare_spec (key p) (key e)); done).
  apply last_Some in El as [l' ->]. apply ksorted_app in Hs as (Hlt & _ & _). apply elem_of_app in Hx as [Hx|Hx].
  - eapply blt_trans; [|exact Hp]. apply (Hlt x p Hx). by left.
  - apply list_elem_of_singleton in Hx as ->. done.
Qed.

Lemma notAfter_sorted {A} (key : A -> bytes) acc e es : ksorted key (acc ++ e :: es) -> notAfter key acc e = false.
Proof.
  intros (Hlt & _ & _)%ksorted_app. unfold notAfter. destruct (last acc) as [p|] eqn:El; [|done]. apply last_Some in El as [l' ->].
  assert (key p <b key e) as Hp by (apply Hlt; [apply elem_of_app; right|]; by left). by rewrite Hp.
Qed.

(** Decide the integer tests of the goal that arithmetic settles. *)
Ltac zbool :=
  repeat match goal with
  | |- context [?a <? ?b] =>
      first [rewrite (proj2 (Z.ltb_lt a b)) by lia | rewrite (proj2 (Z.ltb_ge a b)) by lia]
  | |- context [?a <=? ?b] =>
      first [rewrite (proj2 (Z.leb_le a b)) by lia | rewrite (proj2 (Z.leb_gt a b)) by lia]
  | |- context [?a =? ?b] =>
      first [rewrite (proj2 (Z.eqb_eq a b)) by lia | rewrite (proj2 (Z.eqb_neq a b)) by lia]
  end; cbn [negb orb andb].

(** Split the guard of an early return: [H] says the code got past it. *)
Ltac guards H :=
  repeat match type of H with
  | (if ?c then Err _ else _) = Ok _ =>
      let E := fresh "G" in destruct c eqn:E; [discriminate H|]
  end;
  rewrite ?orb_false_iff, ?andb_false_iff, ?negb_false_iff, ?Z.ltb_ge, ?Z.leb_gt, ?Z.eqb_eq, ?Z.eqb_neq in *.

(** ** [sort.Search]

    Binary search for the least index in [0, n) at which [f] holds; [n] if
    there is none. Each round at least halves what is left, so [n] rounds are
    enough. *)
Fixpoint search_loop (fuel : nat) (f : nat -> bool) (i j : nat) : nat :=
  match fuel with
  | O => i
  | S fuel =>
      if (i <? j)%nat then
        let h := ((i + j) / 2)%nat in
        if f h then search_loop fuel f i h else search_loop fuel f (S h) j
      else i
  end.

Definition go_search (n : nat) (f : nat -> bool) : nat := search_loop n f 0 n.

Lemma search_loop_spec fuel f i j :
  (j - i <= fuel)%nat -> (i <= j)%nat ->
  (forall a b, (a <= b)%nat -> (b < j)%nat -> f a = true -> f b = true) ->
  let k := search_loop fuel f i j in
  (i <= k <= j)%nat /\ (forall a, (i <= a < k)%nat -> f a = false) /\ ((k < j)%nat -> f k = true).
Proof.
  revert i j. induction fuel as [|fuel IH]; intros i j Hf Hij Hm; cbn [search_loop]; cbv zeta.
  - split_and!; intros; lia.
  - destruct (Nat.ltb_spec i j) as [Hlt|]; [|split_and!; intros; lia].
    assert (i <= (i + j) / 2 < j)%nat as Hh.
    { split; [apply Nat.div_le_lower_bound; lia|apply Nat.Div0.div_lt_upper_bound; lia]. }
    set (h := ((i + j) / 2)%nat) in *. destruct (f h) eqn:Eh.
    + destruct (IH i h ltac:(lia) ltac:(lia)) as (H1 & H2 & H3).
      { intros a b Hab Hb. apply Hm; lia. }
      split_and!; [lia|lia|done|]. intros Hk.
      destruct (decide (search_loop fuel f i h < h)%nat); [by apply H3|].
      replace (search_loop fuel f i h) with h by lia. done.
    + destruct (IH (S h) j ltac:(lia) ltac:(lia)) as (H1 & H2 & H3); [done|].
      split_and!; [lia|lia| |done]. intros a Ha. destruct (decide (S h <= a)%nat); [apply H2; lia|].
      destruct (f a) eqn:Ea; [|done]. rewrite (Hm a h) in Eh; [done|lia|lia|done].
Qed.

Lemma go_search_spec n f :
  (forall a b, (a <= b)%nat -> (b < n)%nat -> f a = true -> f b = true) ->
  let k := go_search n f in
  (k <= n)%nat /\ (forall a, (a < k)%nat -> f a = false) /\ ((k < n)%nat -> f k = true).
Proof.
  intros Hm. destruct (search_loop_spec n f 0 n ltac:(lia) ltac:(lia) Hm) as (H1 & H2 & H3).
  simpl. split_and!; [unfold go_search; lia| |done]. intros a Ha. apply H2. unfold go_search in Ha. lia.
Qed.

(** Searching a list for the first element a monotone test accepts. *)
Definition list_search {A} (p : A -> bool) (l : list A) : nat :=
  go_search (length l) (fun i => match l !! i with Some x => p x | None => true end).

Lemma list_search_spec {A} (p : A -> bool) (l : list A) (R : A -> A -> Prop) :
  StronglySorted R l -> (forall x y, R x y -> p x = true -> p y = true) ->
  let k := list_search p l in
  (k <= length l)%nat /\ Forall (fun x => p x = false) (take k l) /\ Forall (fun x => p x = true) (drop k l).
Proof.
  intros Hs Hp.
  assert (forall a b x y, (a <= b)%nat -> l !! a = Some x -> l !! b = Some y -> p x = true -> p y = true) as Hmono.
  { clear -Hs Hp. induction Hs as [|z l Hs IH Hz]; intros a b x y Hab Ha Hb Hx; [done|].
    destruct a as [|a], b as [|b]; simpl in *; simplify_eq; [done| |lia|by apply (IH a b x y); [lia|..]].
    apply Hp with x; [|done]. rewrite Forall_forall in Hz. apply Hz. by eapply list_elem_of_lookup_2. }
  destruct (go_search_spec (length l) (fun i => match l !! i with Some x => p x | None => true end))
    as (H1 & H2 & H3).
  { intros a b Hab Hb. destruct (lookup_lt_is_Some_2 l b Hb) as [y Hy]. rewrite Hy.
    destruct (lookup_lt_is_Some_2 l a ltac:(lia)) as [x Hx]. rewrite Hx. by apply (Hmono a b x y). }
  fold (list_search p l) in *. split_and!; [done| |].
  - apply Forall_lookup. intros i x Hi. apply lookup_take_Some in Hi as [Hi Hik].
    specialize (H2 i Hik). by rewrite Hi in H2.
  - apply Forall_lookup. intros i x Hi. rewrite lookup_drop in Hi.
    assert (list_search p l < length l)%nat as Hlt by (apply lookup_lt_Some in Hi; lia).
    specialize (H3 Hlt). destruct (lookup_lt_is_Some_2 l _ Hlt) as [y Hy]. rewrite Hy in H3.
    by apply (Hmono (list_search p l) (list_search p l + i)%nat y x); [lia|..].
Qed.
