(* ===== verification/GoStd.v ===== *)
(** * The Go standard library: strings and readers

    What the packages use of [strings] and [io], beside what [Prelude] has. *)

From S2P Require Import Prelude.

(** ** strings *)

Definition slash : byte := Byte.x2f.
Definition dot : byte := Byte.x2e.

(** [strings.SplitSeq] at a one-byte separator. *)
Fixpoint SplitSeq (sep : byte) (s : bytes) : list bytes :=
  match s with
  | [] => [[]]
  | c :: s =>
      if bool_decide (c = sep) then [] :: SplitSeq sep s
      else match SplitSeq sep s with
           | x :: xs => (c :: x) :: xs
           | [] => [[c]]
           end
  end.

Fixpoint join (sep : byte) (segs : list bytes) : bytes :=
  match segs with
  | [] => []
  | [s] => s
  | s :: segs => s ++ sep :: join sep segs
  end.

Lemma SplitSeq_ne sep s : exists x xs, SplitSeq sep s = x :: xs.
Proof. destruct s; simpl; [by eauto|]. case_bool_decide; [by eauto|]. destruct (SplitSeq sep s); eauto. Qed.

Lemma join_cons sep x y xs : join sep (x :: y :: xs) = x ++ sep :: join sep (y :: xs).
Proof. done. Qed.

Lemma join_SplitSeq sep s : join sep (SplitSeq sep s) = s.
Proof.
  induction s as [|c s IH]; [done|]. simpl. destruct (SplitSeq_ne sep s) as (x & xs & E). rewrite E in *.
  case_bool_decide as Hc; [by rewrite join_cons, IH, Hc|]. destruct xs; cbn [join app] in *; by rewrite IH.
Qed.

Lemma SplitSeq_sep sep s : Forall (fun x => Forall (fun c => c <> sep) x) (SplitSeq sep s).
Proof.
  induction s as [|c s IH]; simpl; [by repeat constructor|]. case_bool_decide; [by constructor|].
  destruct (SplitSeq sep s) as [|x xs]; inversion IH; subst; repeat constructor; done.
Qed.

Lemma SplitSeq_one sep x : Forall (fun c => c <> sep) x -> SplitSeq sep x = [x].
Proof. induction 1 as [|c x Hc _ IH]; [done|]. simpl. by rewrite bool_decide_eq_false_2, IH. Qed.

Lemma SplitSeq_app sep x t : Forall (fun c => c <> sep) x -> SplitSeq sep (x ++ sep :: t) = x :: SplitSeq sep t.
Proof.
  induction 1 as [|c x Hc _ IH]; simpl; [by rewrite bool_decide_eq_true_2|]. by rewrite bool_decide_eq_false_2, IH.
Qed.

Lemma SplitSeq_join sep segs : segs <> [] -> Forall (fun x => Forall (fun c => c <> sep) x) segs ->
  SplitSeq sep (join sep segs) = segs.
Proof.
  intros Hne H. induction H as [|x segs Hx H IH]; [done|]. destruct segs as [|y segs].
  - simpl. by apply SplitSeq_one.
  - rewrite join_cons, SplitSeq_app by done. by rewrite IH.
Qed.

(** [strings.HasPrefix], [HasSuffix] and [Contains]. *)
Fixpoint HasPrefix (s p : bytes) : bool :=
  match p, s with
  | [], _ => true
  | _, [] => false
  | x :: p, y :: s => bool_decide (x = y) && HasPrefix s p
  end.

Definition HasSuffix (s p : bytes) : bool :=
  (length p <=? length s)%nat && bool_decide (drop (length s - length p) s = p).

Fixpoint Contains (s sub : bytes) : bool :=
  HasPrefix s sub || match s with [] => false | _ :: s => Contains s sub end.

Lemma HasPrefix_app p x : HasPrefix (p ++ x) p = true.
Proof. induction p as [|c p IH]; cbn; [by destruct x|]. by rewrite bool_decide_eq_true_2. Qed.

(** [TrimPrefix] of [strings] and [bytes]. *)
Definition TrimPrefix (s p : bytes) : bytes := if HasPrefix s p then drop (length p) s else s.

(** ** io.Reader

    An [io.Reader] is the sequence of answers it will give: each call takes the
    next one, or as much of it as the buffer holds (the error then comes with
    the last part). A reader with no answers left is at [EOF]. *)
Definition source := list (bytes * option error).
Definition EOF : error := EMsg "EOF".
Definition ErrNoProgress : error := EMsg "multiple Read calls return no data or error".

Definition readSource (cap : Z) (src : source) : (bytes * option error) * source :=
  match src with
  | [] => (([], Some EOF), [])
  | (b, e) :: src' =>
      if zlen b <=? cap then ((b, e), src')
      else ((take (Z.to_nat cap) b, None), (drop (Z.to_nat cap) b, e) :: src')
  end.

(** [io.ReadAll] of [io.LimitReader]. *)
Definition readLimited (n : Z) (b : bytes) : bytes := if zlen b <=? n then b else take (Z.to_nat n) b.

Lemma readLimited_all n b : zlen b <= n -> readLimited n b = b.
Proof. intros H. unfold readLimited. by rewrite (proj2 (Z.leb_le _ _) H). Qed.

(** Go's float64, of which the storage layer compares quotients. *)
Class Float64 := {
  f64 : Type; quot : Z -> Z -> f64; fltb : f64 -> f64 -> bool; feqb : f64 -> f64 -> bool; f0 : f64; f1 : f64; fhalf : f64 }.
