(* ===== verification/Wire.v ===== *)
(** * core/wire: the bounded writer and reader of every stored record

    [Writer] appends fields to a buffer; [Reader] takes them apart with a
    sticky error: after the first error every read returns a zero value.
    The Go standard library's little-endian and varint routines, which the
    package calls, are modelled here too.

    For every field there are three facts: what the writer appends (an
    [enc...] function), that the reader reads it back ([..._fwd]), and that
    whatever the reader accepts is exactly what the writer would have written
    ([..._bwd]). Every codec of the development is proved from these. *)

From S2P Require Import Prelude.

(** ** encoding/binary *)

(** Little-endian bytes of [v] at width [n] bytes. *)
Fixpoint le_enc (n : nat) (v : Z) : bytes :=
  match n with
  | O => []
  | S n => Zb v :: le_enc n (Z.shiftr v 8)
  end.

Fixpoint le_dec (b : bytes) : Z :=
  match b with
  | [] => 0
  | x :: b => Z.lor (bZ x) (Z.shiftl (le_dec b) 8)
  end.

(** [binary.AppendUvarint]: seven bits at a time, low first, the top bit of
    every byte but the last set. A [uint64] takes at most ten bytes, so nine
    rounds of the loop. *)
Fixpoint append_uvarint (fuel : nat) (v : Z) : bytes :=
  match fuel with
  | O => [Zb v]
  | S f => if 128 <=? v then Zb (Z.lor (v mod 256) 128) :: append_uvarint f (Z.shiftr v 7)
           else [Zb v]
  end.

(** [binary.Uvarint]: the value and the number of bytes read; 0 for a buffer
    that ends too soon, negative for a value over 64 bits. *)
Fixpoint go_uvarint (buf : bytes) (i : nat) (x s : Z) : Z * Z :=
  match buf with
  | [] => (0, 0)
  | b :: buf =>
      if (i =? 10)%nat then (0, - (Z.of_nat i + 1))
      else if bZ b <? 128 then
        if (i =? 9)%nat && (1 <? bZ b) then (0, - (Z.of_nat i + 1))
        else (Z.lor x (u64 (Z.shiftl (bZ b) s)), Z.of_nat i + 1)
      else go_uvarint buf (S i) (Z.lor x (u64 (Z.shiftl (Z.land (bZ b) 127) s))) (s + 7)
  end.

(** ** Writer *)

Abbreviation writer := bytes.

Definition encU8 (v : Z) : bytes := [Zb v].
Definition encU16 (v : Z) : bytes := le_enc 2 v.
Definition encU32 (v : Z) : bytes := le_enc 4 v.
Definition encU64 (v : Z) : bytes := le_enc 8 v.
Definition encUvarint (v : Z) : bytes := append_uvarint 9 v.
Definition encLenBytes (b : bytes) : bytes := encUvarint (zlen b) ++ b.

Definition wU8 (w : writer) (v : Z) : writer := w ++ encU8 v.
Definition wU16 (w : writer) (v : Z) : writer := w ++ encU16 v.
Definition wU32 (w : writer) (v : Z) : writer := w ++ encU32 v.
Definition wU64 (w : writer) (v : Z) : writer := w ++ encU64 v.
Definition wUvarint (w : writer) (v : Z) : writer := w ++ encUvarint v.
Definition wRaw (w : writer) (b : bytes) : writer := w ++ b.
Definition wLenBytes (w : writer) (b : bytes) : writer :=
  let w := wUvarint w (zlen b) in
  wRaw w b.

(** ** Reader *)

Record reader := mkReader { rb : bytes; roff : nat; rerr : option error }.

Definition NewReader (b : bytes) : reader := mkReader b 0 None.

Definition set_err (r : reader) (e : error) : reader := mkReader (rb r) (roff r) (Some e).

(** [Fixed] returns nil on an error: [None]. *)
Definition Fixed (n : Z) (r : reader) : option bytes * reader :=
  match rerr r with
  | Some _ => (None, r)
  | None =>
      if n <? 0 then (None, set_err r WireCorrupt)
      else if zlen (rb r) - Z.of_nat (roff r) <? n then (None, set_err r WireShort)
      else (Some (take (Z.to_nat n) (drop (roff r) (rb r))),
            mkReader (rb r) (roff r + Z.to_nat n) None)
  end.

Definition fixed_int (n : Z) (r : reader) : Z * reader :=
  match Fixed n r with
  | (Some b, r) => (le_dec b, r)
  | (None, r) => (0, r)
  end.

Definition U8 (r : reader) : Z * reader :=
  match Fixed 1 r with
  | (Some b, r) => (match b with x :: _ => bZ x | [] => 0 end, r)
  | (None, r) => (0, r)
  end.
Definition U16 (r : reader) : Z * reader := fixed_int 2 r.
Definition U32 (r : reader) : Z * reader := fixed_int 4 r.
Definition U64 (r : reader) : Z * reader := fixed_int 8 r.

Definition Uvarint (r : reader) : Z * reader :=
  match rerr r with
  | Some _ => (0, r)
  | None =>
      let (v, n) := go_uvarint (drop (roff r) (rb r)) 0 0 0 in
      if n =? 0 then (0, set_err r WireShort)
      else if n <? 0 then (0, set_err r WireVarint)
      else if (1 <? n) &&
              bool_decide (rb r !! (roff r + Z.to_nat n - 1)%nat = Some Byte.x00)
      then (0, set_err r WireVarint)
      else (v, mkReader (rb r) (roff r + Z.to_nat n) None)
  end.

(** [LenBytes] returns nil on an error too. *)
Definition LenBytes (max : Z) (r : reader) : option bytes * reader :=
  let (n, r) := Uvarint r in
  match rerr r with
  | Some _ => (None, r)
  | None => if u64 max <? n then (None, set_err r WireTooLong) else Fixed n r
  end.

Definition Remaining (r : reader) : Z := zlen (rb r) - Z.of_nat (roff r).

Definition Done (r : reader) : option error :=
  match rerr r with
  | Some e => Some e
  | None => if (roff r =? length (rb r))%nat then None else Some WireTrailing
  end.

(** The bytes of a slice a failed read left nil. *)
Definition nilb (o : option bytes) : bytes := default [] o.

(** ** Bit arithmetic *)

Lemma lor_shiftl_add a y k : 0 <= k -> 0 <= a < 2 ^ k -> Z.lor a (Z.shiftl y k) = a + y * 2 ^ k.
Proof.
  intros Hk Ha.
  assert (Z.land a (Z.shiftl y k) = 0) as L.
  { apply Z.bits_inj'. intros i Hi. rewrite Z.bits_0, Z.land_spec.
    destruct (Z.lt_ge_cases i k).
    - rewrite Z.shiftl_spec_low by lia. by rewrite andb_false_r.
    - destruct (decide (a = 0)) as [->|]; [by rewrite Z.bits_0|].
      rewrite Z.bits_above_log2; [done|lia|].
      apply Z.lt_le_trans with k; [|done]. apply Z.log2_lt_pow2; lia. }
  rewrite <-Z.shiftl_mul_pow2 by lia.
  pose proof (Z.add_lor_land a (Z.shiftl y k)). lia.
Qed.

Lemma length_le_enc n v : length (le_enc n v) = n.
Proof. revert v. induction n; intros v; simpl; auto. Qed.

Lemma le_dec_cons x b : le_dec (x :: b) = bZ x + 256 * le_dec b.
Proof.
  simpl. rewrite lor_shiftl_add; [|lia|apply bZ_range]. change (2 ^ 8) with 256. lia.
Qed.

Lemma le_dec_range b : 0 <= le_dec b < 256 ^ zlen b.
Proof.
  induction b as [|x b IH]; [done|]. rewrite le_dec_cons. simpl length.
  rewrite Nat2Z.inj_succ, Z.pow_succ_r by lia. pose proof (bZ_range x). lia.
Qed.

Lemma le_dec_enc n v : 0 <= v < 256 ^ Z.of_nat n -> le_dec (le_enc n v) = v.
Proof.
  revert v. induction n as [|n IH]; intros v Hv.
  - simpl in *. lia.
  - simpl le_enc. rewrite Nat2Z.inj_succ, Z.pow_succ_r in Hv by lia.
    rewrite le_dec_cons, bZ_Zb, IH; rewrite Z.shiftr_div_pow2 by lia; change (2 ^ 8) with 256.
    + pose proof (Z.div_mod v 256). lia.
    + split; [apply Z.div_pos; lia|]. apply Z.div_lt_upper_bound; lia.
Qed.

Lemma le_enc_dec b : le_enc (length b) (le_dec b) = b.
Proof.
  induction b as [|x b IH]; [done|]. rewrite le_dec_cons. simpl. f_equal.
  - apply bZ_inj. rewrite bZ_Zb. rewrite Z.mul_comm, Z_mod_plus_full.
    apply Z.mod_small, bZ_range.
  - rewrite Z.shiftr_div_pow2 by lia. change (2 ^ 8) with 256.
    rewrite Z.mul_comm, Z.div_add by lia. rewrite Z.div_small by apply bZ_range.
    rewrite Z.add_0_l. exact IH.
Qed.

(** ** Varints *)

(** The length of a varint is the number of seven-bit groups of its value. *)
Lemma length_append_uvarint f v :
  (length (append_uvarint f v) <= S f)%nat /\ (1 <= length (append_uvarint f v))%nat.
Proof.
  revert v. induction f as [|f IH]; intros v; simpl; [lia|].
  destruct (128 <=? v); simpl; [|lia]. destruct (IH (Z.shiftr v 7)). lia.
Qed.

Lemma uvarint_byte v : 128 <= v -> bZ (Zb (Z.lor (v mod 256) 128)) = v mod 128 + 128.
Proof.
  intros Hv. assert (Z.lor (v mod 256) 128 = v mod 128 + 128) as ->.
  { transitivity (Z.lor (v mod 128) (Z.shiftl 1 7)); [|rewrite lor_shiftl_add; [done|lia|]].
    - apply Z.bits_inj'. intros i Hi. rewrite !Z.lor_spec.
      change (Z.shiftl 1 7) with (2 ^ 7). change 128 with (2 ^ 7). change 256 with (2 ^ 8).
      rewrite Z.pow2_bits_eqb by lia. destruct (Z.eqb_spec 7 i) as [<-|Hne]; [by rewrite !orb_true_r|].
      rewrite !orb_false_r. destruct (Z.lt_ge_cases i 7).
      + by rewrite !Z.mod_pow2_bits_low by lia.
      + rewrite !Z.mod_pow2_bits_high by lia. done.
    - apply Z.mod_pos_bound. lia. }
  apply bZ_Zb_small. pose proof (Z.mod_pos_bound v 128). lia.
Qed.

Lemma land127 v : Z.land v 127 = v mod 128.
Proof. change 127 with (Z.ones 7). by rewrite Z.land_ones by lia. Qed.

Lemma lor_group x v i : 0 <= i -> 7 * i <= 64 -> 0 <= v < 2 ^ (64 - 7 * i) -> 0 <= x < 2 ^ (7 * i) ->
  Z.lor x (u64 (Z.shiftl v (7 * i))) = x + v * 2 ^ (7 * i).
Proof.
  intros Hi Hle Hv Hx. rewrite u64_small; [by apply lor_shiftl_add; [lia|]|].
  rewrite Z.shiftl_mul_pow2, two64_pow by lia. replace 64 with ((64 - 7 * i) + 7 * i) by lia.
  rewrite Z.pow_add_r by lia. nia.
Qed.

(** Reading back what [append_uvarint] wrote, from round [i] on. *)
Lemma go_uvarint_append f v rest i x :
  (f + i = 9)%nat -> 0 <= v < 2 ^ (64 - 7 * Z.of_nat i) -> 0 <= x < 2 ^ (7 * Z.of_nat i) ->
  go_uvarint (append_uvarint f v ++ rest) i x (7 * Z.of_nat i) =
  (x + v * 2 ^ (7 * Z.of_nat i), Z.of_nat (i + length (append_uvarint f v))).
Proof.
  revert v i x. induction f as [|f IH]; intros v i x Hf Hv Hx.
  - assert (i = 9%nat) as -> by lia. assert (0 <= v < 2) by (simpl in Hv; lia).
    cbn [append_uvarint app go_uvarint]. rewrite bZ_Zb_small by lia.
    rewrite (proj2 (Z.ltb_lt v 128)), (proj2 (Z.ltb_ge 1 v)) by lia. cbn [Nat.eqb andb].
    rewrite lor_group by lia. reflexivity.
  - simpl append_uvarint. destruct (Z.leb_spec 128 v) as [Hbig|Hsmall].
    + simpl app. cbn [go_uvarint]. rewrite uvarint_byte, (proj2 (Nat.eqb_neq i 10)) by lia.
      pose proof (Z.mod_pos_bound v 128). rewrite (proj2 (Z.ltb_ge (v mod 128 + 128) 128)) by lia.
      rewrite land127. rewrite (Z_mod_plus_full (v mod 128) 1 128 : (v mod 128 + 128) mod 128 = _).
      rewrite Z.mod_mod by lia.
      assert (i <= 8)%nat by lia.
      assert (128 <= 2 ^ (64 - 7 * Z.of_nat i)).
      { change 128 with (2 ^ 7). apply Z.pow_le_mono_r; lia. }
      rewrite lor_group by lia.
      replace (7 * Z.of_nat i + 7) with (7 * Z.of_nat (S i)) by lia.
      replace (x + v mod 128 * 2 ^ (7 * Z.of_nat i)) with
        (x + (v mod 128) * 2 ^ (7 * Z.of_nat i)) by lia.
      assert (2 ^ (7 * Z.of_nat (S i)) = 128 * 2 ^ (7 * Z.of_nat i)) as Hpow.
      { replace (7 * Z.of_nat (S i)) with (7 + 7 * Z.of_nat i) by lia.
        rewrite Z.pow_add_r by lia. done. }
      rewrite IH.
      * simpl length. f_equal; [|lia]. rewrite Hpow, Z.shiftr_div_pow2 by lia.
        change (2 ^ 7) with 128. pose proof (Z.div_mod v 128). nia.
      * lia.
      * rewrite Z.shiftr_div_pow2 by lia. split; [apply Z.div_pos; lia|].
        apply Z.div_lt_upper_bound; [lia|]. rewrite <-Z.pow_add_r by lia.
        replace (7 + (64 - 7 * Z.of_nat (S i))) with (64 - 7 * Z.of_nat i) by lia. lia.
      * rewrite Hpow. nia.
    + simpl. rewrite bZ_Zb_small by lia. rewrite (proj2 (Nat.eqb_neq i 10)) by lia.
      rewrite (proj2 (Z.ltb_lt v 128)) by lia. rewrite (proj2 (Nat.eqb_neq i 9)) by lia. simpl.
      rewrite lor_group by lia. f_equal. lia.
Qed.

Lemma append_uvarint_small f v : v < 128 -> append_uvarint f v = [Zb v].
Proof. intros. destruct f; simpl; [done|]. by rewrite (proj2 (Z.leb_gt 128 v)) by lia. Qed.

Lemma append_uvarint_last f v :
  1 <= v < 128 ^ Z.of_nat (S f) -> last (append_uvarint f v) <> Some Byte.x00.
Proof.
  assert (forall v, 1 <= v < 128 -> last [Zb v] <> Some Byte.x00) as Hone.
  { intros w Hw [= E]. apply (f_equal bZ) in E. rewrite bZ_Zb_small in E by lia. change (bZ Byte.x00) with 0 in E. lia. }
  revert v. induction f as [|f IH]; intros v Hv; [by apply Hone|]. cbn [append_uvarint].
  destruct (Z.leb_spec 128 v); [|apply Hone; lia].
  rewrite Z.shiftr_div_pow2 by lia. change (2 ^ 7) with 128.
  assert (last (append_uvarint f (v / 128)) <> Some Byte.x00) as Hl.
  { apply IH. rewrite (Nat2Z.inj_succ (S f)), Z.pow_succ_r in Hv by lia.
    split; [by apply Z.div_le_lower_bound; lia|by apply Z.div_lt_upper_bound; lia]. }
  destruct (length_append_uvarint f (v / 128)).
  by destruct (append_uvarint f (v / 128)); [simpl in *; lia|].
Qed.

(** A value [go_uvarint] accepts, whose last byte is not a zero group, is what
    [append_uvarint] writes for it: every value has one encoding. *)
Lemma go_uvarint_inv buf i x v n :
  (i <= 9)%nat -> 0 <= x < 2 ^ (7 * Z.of_nat i) ->
  go_uvarint buf i x (7 * Z.of_nat i) = (v, n) -> 0 < n ->
  exists grp rest w,
    buf = grp ++ rest /\ n = Z.of_nat (i + length grp) /\ (1 <= length grp)%nat /\
    0 <= w < 2 ^ (64 - 7 * Z.of_nat i) /\ v = x + w * 2 ^ (7 * Z.of_nat i) /\
    (last grp <> Some Byte.x00 -> 1 <= w) /\
    (last grp <> Some Byte.x00 \/ length grp = 1%nat -> grp = append_uvarint (9 - i) w).
Proof.
  revert i x. induction buf as [|b buf IH]; intros i x Hi Hx; cbn [go_uvarint]; [intros [= <- <-]; lia|].
  rewrite (proj2 (Nat.eqb_neq i 10)) by lia.
  pose proof (bZ_range b) as Hb.
  assert (128 <= 2 ^ (64 - 7 * Z.of_nat i) \/ i = 9%nat) as Hp.
  { destruct (decide (i = 9%nat)); [by right|left]. change 128 with (2 ^ 7). apply Z.pow_le_mono_r; lia. }
  destruct (Z.ltb_spec (bZ b) 128) as [Hlt|Hge].
  - destruct ((i =? 9)%nat && (1 <? bZ b)) eqn:Eo; [intros [= <- <-]; lia|].
    assert (bZ b < 2 ^ (64 - 7 * Z.of_nat i)) as Hb2.
    { destruct Hp as [Hp| ->]; [lia|]. rewrite Nat.eqb_refl in Eo. simpl in Eo.
      apply Z.ltb_ge in Eo. change (2 ^ (64 - 7 * Z.of_nat 9)) with 2. lia. }
    rewrite lor_group by lia. intros [= <- <-] _. exists [b], buf, (bZ b).
    split_and!; [done|simpl; lia|simpl; lia|lia|lia|done| |].
    + simpl. intros Hnz. assert (bZ b <> 0); [|lia]. intros E. apply Hnz. f_equal. by apply bZ_inj.
    + intros _. destruct (9 - i)%nat; simpl; [by rewrite Zb_bZ|].
      rewrite (proj2 (Z.leb_gt 128 (bZ b))) by lia. by rewrite Zb_bZ.
  - destruct (decide (i = 9%nat)) as [->|Hne].
    { destruct buf; simpl; intros [= <- <-]; lia. }
    destruct Hp as [Hp|]; [|lia].
    assert (2 ^ (7 * Z.of_nat (S i)) = 128 * 2 ^ (7 * Z.of_nat i)) as Hpow.
    { replace (7 * Z.of_nat (S i)) with (7 + 7 * Z.of_nat i) by lia. by rewrite Z.pow_add_r by lia. }
    assert (2 ^ (64 - 7 * Z.of_nat i) = 128 * 2 ^ (64 - 7 * Z.of_nat (S i))) as Hpow2.
    { replace (64 - 7 * Z.of_nat i) with (7 + (64 - 7 * Z.of_nat (S i))) by lia. by rewrite Z.pow_add_r by lia. }
    rewrite land127. pose proof (Z.mod_pos_bound (bZ b) 128).
    rewrite lor_group by lia. replace (7 * Z.of_nat i + 7) with (7 * Z.of_nat (S i)) by lia.
    intros Hg Hn.
    destruct (IH (S i) (x + bZ b mod 128 * 2 ^ (7 * Z.of_nat i)) ltac:(lia) ltac:(nia) Hg Hn)
      as (grp & rest & w & -> & -> & Hl & Hw & -> & Hw1 & Hgrp).
    exists (b :: grp), rest, (bZ b mod 128 + 128 * w).
    assert (last (b :: grp) = last grp) as Hlast by (destruct grp; simpl in *; [lia|done]).
    rewrite Hlast. simpl length. split_and!; [done|lia|lia|lia|lia|lia|intros Hz; specialize (Hw1 Hz); lia|].
    + intros [Hnz|]; [|lia]. specialize (Hw1 Hnz). rewrite Hgrp by auto.
      replace (9 - i)%nat with (S (9 - S i)) by lia. cbn [append_uvarint].
      rewrite (proj2 (Z.leb_le 128 _)) by lia. f_equal.
      * apply bZ_inj. rewrite uvarint_byte by lia. rewrite (Z.mul_comm 128), Z_mod_plus_full, Z.mod_mod by lia.
        rewrite Z.mod_eq by lia. pose proof (Z.div_le_lower_bound (bZ b) 128 1).
        pose proof (Z.div_lt_upper_bound (bZ b) 128 2). lia.
      * f_equal. rewrite Z.shiftr_div_pow2 by lia. change (2 ^ 7) with 128.
        rewrite (Z.mul_comm 128), Z.div_add by lia. rewrite Z.div_small; lia.
Qed.

#[global] Arguments append_uvarint : simpl never.
(** ** Reading at a position

    [at_ r s]: the reader has no error, and [s] is what it has left to read. *)
Definition at_ (r : reader) (s : bytes) : Prop :=
  rerr r = None /\ (roff r <= length (rb r))%nat /\ drop (roff r) (rb r) = s.

Lemma at_new b : at_ (NewReader b) b.
Proof. split_and!; simpl; [done|lia|done]. Qed.

Lemma at_advance r s n :
  at_ r s -> (n <= length s)%nat -> at_ (mkReader (rb r) (roff r + n) None) (drop n s).
Proof.
  intros (He & Ho & <-) Hn. rewrite length_drop in Hn. split_and!; simpl; [done|lia|].
  by rewrite drop_drop.
Qed.

Lemma at_length r s : at_ r s -> zlen (rb r) - Z.of_nat (roff r) = zlen s.
Proof. intros (He & Ho & <-). rewrite length_drop. lia. Qed.

(** What a read from [at_ r s] does: it either consumes [pre], or it leaves an
    error. The forward lemmas say when it consumes, the backward ones what. *)
Lemma Fixed_fwd r n b s :
  at_ r (b ++ s) -> zlen b = n -> exists r', Fixed n r = (Some b, r') /\ at_ r' s.
Proof.
  intros Ha <-. pose proof (at_length _ _ Ha) as Hl. rewrite length_app in Hl.
  pose proof (at_advance _ _ (length b) Ha ltac:(rewrite length_app; lia)) as Ha2.
  rewrite drop_app_length in Ha2. destruct Ha as (He & Ho & Hd).
  eexists. unfold Fixed. rewrite He, (proj2 (Z.ltb_ge (zlen b) 0)), (proj2 (Z.ltb_ge _ _)) by lia.
  rewrite Nat2Z.id, Hd, take_app_length. done.
Qed.

Lemma Fixed_bwd r n o r' s :
  Fixed n r = (o, r') -> rerr r' = None -> at_ r s ->
  exists b s', o = Some b /\ s = b ++ s' /\ zlen b = n /\ at_ r' s'.
Proof.
  intros H He' Ha. pose proof (at_length _ _ Ha) as Hl. pose proof Ha as (He & Ho & Hd).
  unfold Fixed in H. rewrite He in H. destruct (Z.ltb_spec n 0) as [|Hn]; [by simplify_eq|].
  destruct (Z.ltb_spec (zlen (rb r) - Z.of_nat (roff r)) n); [by simplify_eq|].
  injection H as <- <-. exists (take (Z.to_nat n) s), (drop (Z.to_nat n) s).
  rewrite Hd, take_drop, length_take. split_and!; [done|done|lia|].
  apply at_advance; [done|lia].
Qed.

Lemma Fixed_sticky r n o r' : Fixed n r = (o, r') -> rerr r' = None -> rerr r = None.
Proof. unfold Fixed. destruct (rerr r) eqn:E; [|done]. intros [= <- <-]. congruence. Qed.

Lemma Uvarint_fwd r v s :
  at_ r (encUvarint v ++ s) -> 0 <= v < two64 -> exists r', Uvarint r = (v, r') /\ at_ r' s.
Proof.
  intros Ha Hv. pose proof (at_advance _ _ (length (encUvarint v)) Ha ltac:(rewrite length_app; lia)) as Ha2.
  rewrite drop_app_length in Ha2. destruct Ha as (He & Ho & Hd).
  exists (mkReader (rb r) (roff r + length (encUvarint v)) None). split; [|done].
  unfold Uvarint. rewrite He, Hd. unfold encUvarint in *.
  rewrite (go_uvarint_append 9 v s 0 0 eq_refl Hv ltac:(simpl; lia) : go_uvarint _ 0 0 0 = _).
  destruct (length_append_uvarint 9 v) as [_ Hl].
  rewrite (proj2 (Z.eqb_neq _ 0)), (proj2 (Z.ltb_ge _ 0)) by lia.
  rewrite Nat2Z.id, Nat.add_0_l in *.
  rewrite (proj2 (andb_false_iff _ _)); [f_equal; lia|].
  destruct (Z.ltb_spec 1 (Z.of_nat (length (append_uvarint 9 v)))) as [Hgt|]; [right|by left].
  apply bool_decide_eq_false. rewrite <-Nat.add_sub_assoc, <-lookup_drop, Hd, lookup_app_l by lia.
  replace (length (append_uvarint 9 v) - 1)%nat with (pred (length (append_uvarint 9 v))) by lia.
  rewrite <-last_lookup. apply append_uvarint_last. unfold two64 in Hv.
  split; [|change (128 ^ Z.of_nat 10) with 1180591620717411303424; lia].
  destruct (Z.le_gt_cases 1 v); [done|]. rewrite append_uvarint_small in Hgt by lia. simpl in Hgt. lia.
Qed.

Lemma Uvarint_bwd r v r' s :
  Uvarint r = (v, r') -> rerr r' = None -> at_ r s ->
  exists s', s = encUvarint v ++ s' /\ 0 <= v < two64 /\ at_ r' s'.
Proof.
  intros H He' Ha. pose proof Ha as (He & Ho & Hd). unfold Uvarint in H. rewrite He, Hd in H.
  destruct (go_uvarint s 0 0 0) as [w n] eqn:Eg.
  destruct (Z.eqb_spec n 0); [by simplify_eq|]. destruct (Z.ltb_spec n 0); [by simplify_eq|].
  destruct (go_uvarint_inv s 0 0 w n ltac:(lia) ltac:(simpl; lia) Eg ltac:(lia))
    as (grp & rest & w' & -> & -> & Hl & Hw' & -> & _ & Hgrp).
  rewrite Nat.add_0_l, Nat2Z.id in H.
  destruct ((1 <? Z.of_nat (length grp)) && _) eqn:Ez; [by simplify_eq|].
  injection H as <- <-. change (0 + w' * 2 ^ (7 * Z.of_nat 0)) with (0 + w' * 1) in *.
  rewrite Z.mul_1_r, Z.add_0_l. change (64 - 7 * Z.of_nat 0) with 64 in Hw'.
  assert (grp = encUvarint w') as ->.
  { apply Hgrp. apply andb_false_iff in Ez as [Ez|Ez].
    - right. apply Z.ltb_ge in Ez. lia.
    - left. apply bool_decide_eq_false in Ez. intros Hz. apply Ez.
      rewrite <-Nat.add_sub_assoc, <-lookup_drop, Hd, lookup_app_l by lia.
      by rewrite Nat.sub_1_r, <-last_lookup. }
  exists rest. split_and!; [done|lia|rewrite two64_pow; lia|].
  pose proof (at_advance _ _ (length (encUvarint w')) Ha ltac:(rewrite length_app; lia)) as Ha2.
  by rewrite drop_app_length in Ha2.
Qed.

Lemma Uvarint_sticky r v r' : Uvarint r = (v, r') -> rerr r' = None -> rerr r = None.
Proof. unfold Uvarint. destruct (rerr r) eqn:E; [|done]. intros [= <- <-]. congruence. Qed.

(** ** The other fields, from [Fixed] and [Uvarint] *)

Lemma U8_fwd r v s : at_ r (encU8 v ++ s) -> 0 <= v < two8 -> exists r', U8 r = (v, r') /\ at_ r' s.
Proof.
  intros Ha Hv. destruct (Fixed_fwd r 1 (encU8 v) s Ha eq_refl) as (r' & E & Ha').
  exists r'. unfold U8. rewrite E. split; [|done]. unfold encU8. by rewrite bZ_Zb_small.
Qed.

Lemma U8_bwd r v r' s :
  U8 r = (v, r') -> rerr r' = None -> at_ r s ->
  exists s', s = encU8 v ++ s' /\ 0 <= v < two8 /\ at_ r' s'.
Proof.
  unfold U8. destruct (Fixed 1 r) as [o r1] eqn:E. intros H He Ha.
  assert (r1 = r') as -> by (destruct o; congruence).
  destruct (Fixed_bwd _ _ _ _ _ E He Ha) as (b & s' & -> & -> & Hb & Ha').
  destruct b as [|x [|]]; simpl in Hb; [lia| |lia]. injection H as <-.
  exists s'. unfold encU8. rewrite Zb_bZ. pose proof (bZ_range x). done.
Qed.

Lemma U8_sticky r v r' : U8 r = (v, r') -> rerr r' = None -> rerr r = None.
Proof.
  unfold U8. destruct (Fixed 1 r) as [o r1] eqn:E. intros H He. apply (Fixed_sticky _ _ _ _ E).
  destruct o; congruence.
Qed.

Section FixedInts.
Context (n : nat).

Lemma fixed_int_fwd r v s :
  at_ r (le_enc n v ++ s) -> 0 <= v < 256 ^ Z.of_nat n ->
  exists r', fixed_int (Z.of_nat n) r = (v, r') /\ at_ r' s.
Proof.
  intros Ha Hv. destruct (Fixed_fwd r (Z.of_nat n) (le_enc n v) s Ha) as (r' & E & Ha');
    [by rewrite length_le_enc|].
  exists r'. unfold fixed_int. rewrite E, le_dec_enc by done. done.
Qed.

Lemma fixed_int_bwd r v r' s :
  fixed_int (Z.of_nat n) r = (v, r') -> rerr r' = None -> at_ r s ->
  exists s', s = le_enc n v ++ s' /\ 0 <= v < 256 ^ Z.of_nat n /\ at_ r' s'.
Proof.
  unfold fixed_int. destruct (Fixed _ r) as [o r1] eqn:E. intros H He Ha.
  assert (r1 = r') as -> by (destruct o; congruence).
  destruct (Fixed_bwd _ _ _ _ _ E He Ha) as (b & s' & -> & -> & Hb & Ha').
  injection H as <-. apply Nat2Z.inj in Hb. subst n. exists s'.
  rewrite le_enc_dec. split_and!; [done|apply le_dec_range..|done].
Qed.

Lemma fixed_int_sticky r v r' :
  fixed_int (Z.of_nat n) r = (v, r') -> rerr r' = None -> rerr r = None.
Proof.
  unfold fixed_int. destruct (Fixed _ r) as [o r1] eqn:E. intros H He. apply (Fixed_sticky _ _ _ _ E).
  destruct o; congruence.
Qed.
End FixedInts.

Definition U16_fwd : forall r v s, at_ r (encU16 v ++ s) -> 0 <= v < two16 ->
  exists r', U16 r = (v, r') /\ at_ r' s := fixed_int_fwd 2.
Definition U32_fwd : forall r v s, at_ r (encU32 v ++ s) -> 0 <= v < two32 ->
  exists r', U32 r = (v, r') /\ at_ r' s := fixed_int_fwd 4.
Definition U64_fwd : forall r v s, at_ r (encU64 v ++ s) -> 0 <= v < two64 ->
  exists r', U64 r = (v, r') /\ at_ r' s := fixed_int_fwd 8.
Definition U16_bwd : forall r v r' s, U16 r = (v, r') -> rerr r' = None -> at_ r s ->
  exists s', s = encU16 v ++ s' /\ 0 <= v < two16 /\ at_ r' s' := fixed_int_bwd 2.
Definition U32_bwd : forall r v r' s, U32 r = (v, r') -> rerr r' = None -> at_ r s ->
  exists s', s = encU32 v ++ s' /\ 0 <= v < two32 /\ at_ r' s' := fixed_int_bwd 4.
Definition U64_bwd : forall r v r' s, U64 r = (v, r') -> rerr r' = None -> at_ r s ->
  exists s', s = encU64 v ++ s' /\ 0 <= v < two64 /\ at_ r' s' := fixed_int_bwd 8.
Definition U16_sticky : forall r v r', U16 r = (v, r') -> rerr r' = None -> rerr r = None := fixed_int_sticky 2.
Definition U32_sticky : forall r v r', U32 r = (v, r') -> rerr r' = None -> rerr r = None := fixed_int_sticky 4.
Definition U64_sticky : forall r v r', U64 r = (v, r') -> rerr r' = None -> rerr r = None := fixed_int_sticky 8.

Lemma LenBytes_fwd r max b s :
  at_ r (encLenBytes b ++ s) -> zlen b <= max -> max < two64 ->
  exists r', LenBytes max r = (Some b, r') /\ at_ r' s.
Proof.
  intros Ha Hb Hm. unfold encLenBytes in Ha. rewrite <-app_assoc in Ha.
  destruct (Uvarint_fwd r (zlen b) (b ++ s) Ha ltac:(lia)) as (r1 & E & Ha1).
  destruct (Fixed_fwd r1 (zlen b) b s Ha1 eq_refl) as (r' & E2 & Ha2).
  exists r'. unfold LenBytes. rewrite E. destruct Ha1 as (-> & _).
  rewrite u64_small, (proj2 (Z.ltb_ge max (zlen b))) by lia. done.
Qed.

Lemma LenBytes_bwd r max o r' s :
  LenBytes max r = (o, r') -> rerr r' = None -> at_ r s -> 0 <= max < two64 ->
  exists b s', o = Some b /\ s = encLenBytes b ++ s' /\ zlen b <= max /\ at_ r' s'.
Proof.
  unfold LenBytes. destruct (Uvarint r) as [n r1] eqn:E. intros H He Ha Hm.
  assert (rerr r1 = None) as He1.
  { destruct (rerr r1) eqn:E1; [|done]. injection H as <- <-. congruence. }
  rewrite He1, u64_small in H by done.
  destruct (Uvarint_bwd _ _ _ _ E He1 Ha) as (s1 & -> & Hn & Ha1).
  destruct (Z.ltb_spec max n); [by simplify_eq|].
  destruct (Fixed_bwd _ _ _ _ _ H He Ha1) as (b & s' & -> & -> & <- & Ha').
  exists b, s'. unfold encLenBytes. rewrite <-app_assoc. done.
Qed.

Lemma LenBytes_sticky r max o r' : LenBytes max r = (o, r') -> rerr r' = None -> rerr r = None.
Proof.
  unfold LenBytes. destruct (Uvarint r) as [n r1] eqn:E. intros H He.
  apply (Uvarint_sticky _ _ _ E). destruct (rerr r1) eqn:E1; [|done]. injection H as <- <-. congruence.
Qed.

(** A 32-byte name read with [copy(h[:], r.Fixed(32))]. *)
Definition readHash (r : reader) : hash * reader :=
  let (b, r) := Fixed 32 r in (to_hash (nilb b), r).

Lemma readHash_fwd r h s : at_ r (hbytes h ++ s) -> exists r', readHash r = (h, r') /\ at_ r' s.
Proof.
  intros Ha. destruct (Fixed_fwd r 32 (hbytes h) s Ha) as (r' & E & Ha'); [by rewrite hash_length|].
  exists r'. unfold readHash. rewrite E. simpl nilb. by rewrite to_hash_hbytes.
Qed.

Lemma readHash_bwd r h r' s :
  readHash r = (h, r') -> rerr r' = None -> at_ r s -> exists s', s = hbytes h ++ s' /\ at_ r' s'.
Proof.
  unfold readHash. destruct (Fixed 32 r) as [o r1] eqn:E. intros [= <- <-] He Ha.
  destruct (Fixed_bwd _ _ _ _ _ E He Ha) as (b & s' & -> & -> & Hb & Ha').
  exists s'. simpl nilb. rewrite to_hash_exact by lia. done.
Qed.

Lemma readHash_sticky r h r' : readHash r = (h, r') -> rerr r' = None -> rerr r = None.
Proof. unfold readHash. destruct (Fixed 32 r) as [o r1] eqn:E. intros [= <- <-]. eapply Fixed_sticky; eauto. Qed.

Lemma Done_None r : Done r = None <-> at_ r [].
Proof.
  unfold Done, at_. destruct (rerr r) eqn:E; [naive_solver|].
  destruct (Nat.eqb_spec (roff r) (length (rb r))) as [->|Hne]; split; try done.
  - intros _. split_and!; [done|lia|apply drop_all].
  - intros (_ & Hle & Hd). exfalso. apply (f_equal length) in Hd. rewrite length_drop in Hd. simpl in Hd. lia.
Qed.

Lemma Done_err r : Done r = None -> rerr r = None.
Proof. by intros (? & _)%Done_None. Qed.

Lemma at_err r s : at_ r s -> rerr r = None.
Proof. by intros (? & _). Qed.

Lemma at_new_nil b : at_ (NewReader b) (b ++ []).
Proof. rewrite app_nil_r. apply at_new. Qed.

(** ** Tactics for codecs

    [rd_fwd] runs the next read of the goal over the encoding the reader is
    at; [rd_back] takes a chain of reads that ended without an error and
    recovers, read by read, the encoding they consumed. *)

Ltac rd_solve := first [assumption | lia | unfold two8, two16, two32, two64; lia].
Ltac rd_side := first [rd_solve | idtac].

Ltac rd_take lem Ha :=
  let r' := fresh "r" in let E := fresh "E" in let Ha' := fresh "Ha" in
  destruct lem as (r' & E & Ha'); [rd_side ..|rewrite ?E; clear E; clear Ha; rename Ha' into Ha; cbv beta iota].

Ltac rd_fwd :=
  match goal with
  | Ha : at_ ?r (encU8 ?v ++ ?s) |- context [U8 ?r] => rd_take (U8_fwd r v s Ha) Ha
  | Ha : at_ ?r (encU16 ?v ++ ?s) |- context [U16 ?r] => rd_take (U16_fwd r v s Ha) Ha
  | Ha : at_ ?r (encU32 ?v ++ ?s) |- context [U32 ?r] => rd_take (U32_fwd r v s Ha) Ha
  | Ha : at_ ?r (encU64 ?v ++ ?s) |- context [U64 ?r] => rd_take (U64_fwd r v s Ha) Ha
  | Ha : at_ ?r (encUvarint ?v ++ ?s) |- context [Uvarint ?r] => rd_take (Uvarint_fwd r v s Ha) Ha
  | Ha : at_ ?r (hbytes ?h ++ ?s) |- context [readHash ?r] => rd_take (readHash_fwd r h s Ha) Ha
  | Ha : at_ ?r (encLenBytes ?b ++ ?s) |- context [LenBytes ?m ?r] =>
      rd_take (LenBytes_fwd r m b s Ha) Ha
  | Ha : at_ ?r (?b ++ ?s) |- context [Fixed ?n ?r] => rd_take (Fixed_fwd r n b s Ha) Ha
  end.

(** The reader a codec is in the middle of has no error. *)
Lemma at_no_err r s : at_ r s -> bool_decide (rerr r <> None) = false.
Proof. intros (-> & _). reflexivity. Qed.

Lemma no_err_inv r : bool_decide (rerr r <> None) = false -> rerr r = None.
Proof. by destruct (rerr r). Qed.

Lemma wLenBytes_enc w b : wLenBytes w b = w ++ encLenBytes b.
Proof. unfold wLenBytes, wUvarint, wRaw, encLenBytes. by rewrite <-app_assoc. Qed.

(** The bytes a sequence of writes appended. *)
Ltac wr_norm :=
  rewrite ?wLenBytes_enc; unfold wU8, wU16, wU32, wU64, wUvarint, wRaw; rewrite <-?app_assoc; cbn [app].

(** Name every read of a hypothesis. *)
Ltac rd_name H :=
  repeat match type of H with
  | context [let (_, _) := ?x in _] =>
      let v := fresh "v" in let r := fresh "r" in let E := fresh "E" in
      destruct x as [v r] eqn:E
  end.

Ltac rd_known r := match goal with _ : rerr r = None |- _ => idtac end.

Ltac rd_sticky1 lem E He r :=
  tryif rd_known r then fail
  else (let Hn := fresh "He" in pose proof (lem E He) as Hn).

Ltac rd_sticky :=
  repeat match goal with
  | E : U8 ?r = (?v, ?r'), He : rerr ?r' = None |- _ => rd_sticky1 (U8_sticky r v r') E He r
  | E : U16 ?r = (?v, ?r'), He : rerr ?r' = None |- _ => rd_sticky1 (U16_sticky r v r') E He r
  | E : U32 ?r = (?v, ?r'), He : rerr ?r' = None |- _ => rd_sticky1 (U32_sticky r v r') E He r
  | E : U64 ?r = (?v, ?r'), He : rerr ?r' = None |- _ => rd_sticky1 (U64_sticky r v r') E He r
  | E : Uvarint ?r = (?v, ?r'), He : rerr ?r' = None |- _ => rd_sticky1 (Uvarint_sticky r v r') E He r
  | E : readHash ?r = (?v, ?r'), He : rerr ?r' = None |- _ => rd_sticky1 (readHash_sticky r v r') E He r
  | E : LenBytes ?m ?r = (?v, ?r'), He : rerr ?r' = None |- _ => rd_sticky1 (LenBytes_sticky r m v r') E He r
  | E : Fixed ?n ?r = (?v, ?r'), He : rerr ?r' = None |- _ => rd_sticky1 (Fixed_sticky r n v r') E He r
  end.

Ltac rd_back :=
  rd_sticky;
  repeat match goal with
  | E : U8 ?r = (?v, ?r'), He : rerr ?r' = None, Ha : at_ ?r ?s |- _ =>
      let Ha' := fresh "Ha" in
      destruct (U8_bwd r v r' s E He Ha) as (? & -> & ? & Ha'); clear E Ha; rename Ha' into Ha
  | E : U16 ?r = (?v, ?r'), He : rerr ?r' = None, Ha : at_ ?r ?s |- _ =>
      let Ha' := fresh "Ha" in
      destruct (U16_bwd r v r' s E He Ha) as (? & -> & ? & Ha'); clear E Ha; rename Ha' into Ha
  | E : U32 ?r = (?v, ?r'), He : rerr ?r' = None, Ha : at_ ?r ?s |- _ =>
      let Ha' := fresh "Ha" in
      destruct (U32_bwd r v r' s E He Ha) as (? & -> & ? & Ha'); clear E Ha; rename Ha' into Ha
  | E : U64 ?r = (?v, ?r'), He : rerr ?r' = None, Ha : at_ ?r ?s |- _ =>
      let Ha' := fresh "Ha" in
      destruct (U64_bwd r v r' s E He Ha) as (? & -> & ? & Ha'); clear E Ha; rename Ha' into Ha
  | E : Uvarint ?r = (?v, ?r'), He : rerr ?r' = None, Ha : at_ ?r ?s |- _ =>
      let Ha' := fresh "Ha" in
      destruct (Uvarint_bwd r v r' s E He Ha) as (? & -> & ? & Ha'); clear E Ha; rename Ha' into Ha
  | E : readHash ?r = (?v, ?r'), He : rerr ?r' = None, Ha : at_ ?r ?s |- _ =>
      let Ha' := fresh "Ha" in
      destruct (readHash_bwd r v r' s E He Ha) as (? & -> & Ha'); clear E Ha; rename Ha' into Ha
  | E : LenBytes ?m ?r = (?v, ?r'), He : rerr ?r' = None, Ha : at_ ?r ?s |- _ =>
      let Ha' := fresh "Ha" in
      destruct (LenBytes_bwd r m v r' s E He Ha) as (? & ? & -> & -> & ? & Ha');
      [rd_solve|clear E Ha; rename Ha' into Ha]
  | E : Fixed ?n ?r = (?v, ?r'), He : rerr ?r' = None, Ha : at_ ?r ?s |- _ =>
      let Ha' := fresh "Ha" in
      destruct (Fixed_bwd r n v r' s E He Ha) as (? & ? & -> & -> & ? & Ha'); clear E Ha; rename Ha' into Ha
  end.

(** Two readers at the end, or at the same place, agree. *)
Lemma at_functional r s s' : at_ r s -> at_ r s' -> s = s'.
Proof. intros (_ & _ & <-) (_ & _ & <-). done. Qed.

(** Encoded lengths. *)
Lemma length_encUvarint v : (1 <= length (encUvarint v) <= 10)%nat.
Proof. unfold encUvarint. pose proof (length_append_uvarint 9 v). lia. Qed.

(** A varint is as long as the callers' size formula says. *)
Lemma length_append_uvarint_exact f v : 0 <= v < 128 ^ Z.of_nat (S f) ->
  zlen (append_uvarint f v) = (Z.log2 (Z.lor v 1) + 1 + 6) / 7.
Proof.
  assert (forall v, 0 <= v < 128 -> (Z.log2 (Z.lor v 1) + 1 + 6) / 7 = 1) as Hsmall.
  { intros w Hw. rewrite Z.log2_lor by lia. simpl (Z.log2 1).
    destruct (decide (w = 0)) as [->|]; [done|]. pose proof (Z.log2_nonneg w).
    assert (Z.log2 w < 7) by (apply Z.log2_lt_pow2; lia). rewrite Z.max_l by lia.
    symmetry. apply (Z.div_unique _ _ _ (Z.log2 w)); lia. }
  revert v. induction f as [|f IH]; intros v Hv; [rewrite Hsmall; [done|exact Hv]|]. 
  destruct (Z.leb_spec 128 v) as [Hb|Hb]; [|by rewrite Hsmall, append_uvarint_small by lia].
  unfold append_uvarint; fold append_uvarint. rewrite (proj2 (Z.leb_le _ _) Hb).
  rewrite Z.shiftr_div_pow2 by lia. change (2 ^ 7) with 128.
  assert (1 <= v / 128) by (apply Z.div_le_lower_bound; lia).
  cbn [length]. rewrite Nat2Z.inj_succ, IH; [|split; [lia|apply Z.div_lt_upper_bound; [lia|];
    rewrite <-Z.pow_succ_r, <-Nat2Z.inj_succ by lia; lia]].
  rewrite !Z.log2_lor by lia. simpl (Z.log2 1).
  assert (Z.log2 v = Z.log2 (v / 128) + 7) as ->.
  { change 128 with (2 ^ 7). rewrite <-Z.shiftr_div_pow2, Z.log2_shiftr by lia.
    assert (7 <= Z.log2 v) by (apply Z.log2_le_pow2; lia). lia. }
  rewrite !Z.max_l by (pose proof (Z.log2_nonneg (v / 128)); lia).
  replace (Z.log2 (v / 128) + 7 + 1 + 6) with (Z.log2 (v / 128) + 1 + 6 + 1 * 7) by lia.
  rewrite Z.div_add by lia. lia.
Qed.

Lemma length_encUvarint_exact v : 0 <= v < two64 ->
  zlen (encUvarint v) = (Z.log2 (Z.lor v 1) + 1 + 6) / 7.
Proof.
  intros Hv. apply length_append_uvarint_exact. unfold two64 in Hv.
  change (128 ^ Z.of_nat 10) with 1180591620717411303424. lia.
Qed.

Lemma length_encU8 v : length (encU8 v) = 1%nat.
Proof. done. Qed.

Lemma length_encU16 v : length (encU16 v) = 2%nat.
Proof. apply length_le_enc. Qed.

Lemma length_encU32 v : length (encU32 v) = 4%nat.
Proof. apply length_le_enc. Qed.

Lemma length_encU64 v : length (encU64 v) = 8%nat.
Proof. apply length_le_enc. Qed.

Lemma length_encLenBytes b :
  length (encLenBytes b) = (length (encUvarint (zlen b)) + length b)%nat.
Proof. unfold encLenBytes. apply length_app. Qed.

(** A varint and a length-prefixed string have one encoding each: reading a varint from any input succeeds
    exactly when the input starts with the bytes [AppendUvarint] writes for the value returned, a
    64-bit one, and leaves what follows; so overlong, overflowing and cut-off varints are all refused.
    The same holds of [LenBytes] under its limit. *)
Theorem one_encoding_each b :
  (forall v s, (exists r, Uvarint (NewReader b) = (v, r) /\ at_ r s) <-> b = encUvarint v ++ s /\ 0 <= v < two64) /\
  (forall max x s, (exists r, LenBytes max (NewReader b) = (Some x, r) /\ at_ r s) /\ 0 <= max < two64 <->
                   b = encLenBytes x ++ s /\ zlen x <= max < two64).
Proof.
  split.
  - intros v s. split.
    + intros (r & E & Ha). pose proof Ha as (He & _). destruct (Uvarint_bwd _ _ _ _ E He (at_new b)) as (s' & -> & Hv & Ha').
      by rewrite (at_functional _ _ _ Ha Ha').
    + intros [-> Hv]. apply Uvarint_fwd; [apply at_new|done].
  - intros max x s. split.
    + intros [(r & E & Ha) Hm]. pose proof Ha as (He & _).
      destruct (LenBytes_bwd _ _ _ _ _ E He (at_new b) Hm) as (y & s' & [= ->] & -> & Hy & Ha').
      rewrite (at_functional _ _ _ Ha Ha'). split; [done|lia].
    + intros [-> Hm]. split; [apply LenBytes_fwd; [apply at_new|lia..]|lia].
Qed.

Lemma le_dec_U32 v : 0 <= v < two32 -> le_dec (encU32 v) = v.
Proof. apply (le_dec_enc 4). Qed.

#[global] Opaque encU8 encU16 encU32 encU64 encUvarint encLenBytes.
