(* ===== verification/Hash.v ===== *)
(** * core/hash: chunk identity

    [Sum] is SHA-256 by way of core/dnx and the disknexus engine, which is not
    part of the repository: it is the operation of the class [Hasher], a
    parameter of everything that names chunks. Nothing is assumed of it; where
    a theorem needs two byte strings not to collide it says so.

    The rest of the package is modelled: the hexadecimal form [String] writes,
    and [Parse], which accepts that form and nothing else. *)

From S2P Require Import Prelude.

Class Hasher := Sum : bytes -> hash.

Definition IsZero (h : hash) : bool := bool_decide (h = zero_hash).

(** [bytes.Compare] of the two names. *)
Definition Compare (h o : hash) : comparison := bcompare (hbytes h) (hbytes o).

Lemma Compare_eq h o : Compare h o = Eq <-> h = o.
Proof.
  unfold Compare. rewrite bcompare_eq. split; [apply hash_eq|by intros ->].
Qed.

(** ** encoding/hex *)

Definition hex_digit (v : Z) : byte := if v <? 10 then Zb (48 + v) else Zb (87 + v).

Fixpoint hex_EncodeToString (b : bytes) : bytes :=
  match b with
  | [] => []
  | x :: b => hex_digit (Z.shiftr (bZ x) 4) :: hex_digit (Z.land (bZ x) 15) :: hex_EncodeToString b
  end.

(** The value of a hexadecimal digit of either case. *)
Definition from_hex (c : byte) : option Z :=
  let c := bZ c in
  if (48 <=? c) && (c <=? 57) then Some (c - 48)
  else if (97 <=? c) && (c <=? 102) then Some (c - 87)
  else if (65 <=? c) && (c <=? 70) then Some (c - 55)
  else None.

Fixpoint hex_Decode (s : bytes) : option bytes :=
  match s with
  | [] => Some []
  | [_] => None
  | x :: y :: s =>
      match from_hex x, from_hex y with
      | Some a, Some b => match hex_Decode s with
                          | Some r => Some (Zb (Z.lor (Z.shiftl a 4) b) :: r)
                          | None => None
                          end
      | _, _ => None
      end
  end.

Definition String_ (h : hash) : bytes := hex_EncodeToString (hbytes h).
Definition Short (h : hash) : bytes := hex_EncodeToString (take 6 (hbytes h)).

(** A character [Parse] allows: ['0'..'9'] or ['a'..'f']. *)
Definition lower_hex (c : byte) : bool :=
  negb (((bZ c <? 48) || (57 <? bZ c)) && ((bZ c <? 97) || (102 <? bZ c))).

Definition Parse (s : bytes) : res hash :=
  if negb (length s =? 64)%nat then Err HashInvalid
  else if negb (forallb lower_hex s) then Err HashInvalid
  else match hex_Decode s with
       | Some b => Ok (to_hash b)
       | None => Err HashInvalid
       end.

Definition FromBytes (b : bytes) : res hash :=
  if (length b =? 32)%nat then Ok (to_hash b) else Err HashInvalid.

(** ** The text form is a bijection *)

(** Facts about bytes, by checking all 256. *)
Definition all_bytes : list byte := Zb <$> seqZ 0 256.

Lemma byte_all (P : byte -> bool) : forallb P all_bytes = true -> forall b, P b = true.
Proof.
  intros H b. rewrite List.forallb_forall in H. apply H, list_elem_of_In.
  unfold all_bytes. rewrite <-(Zb_bZ b). apply list_elem_of_fmap_2, elem_of_seqZ.
  pose proof (bZ_range b). lia.
Qed.

(** Facts about four-bit values, by checking all of them. *)
Lemma nibble_all (P : Z -> bool) : forallb P (seqZ 0 16) = true -> forall v, 0 <= v < 16 -> P v = true.
Proof.
  intros H v Hv. rewrite List.forallb_forall in H. apply H.
  apply list_elem_of_In, elem_of_seqZ. lia.
Qed.

Lemma from_hex_digit v : 0 <= v < 16 ->
  from_hex (hex_digit v) = Some v /\ lower_hex (hex_digit v) = true.
Proof.
  intros Hv.
  pose proof (nibble_all (fun v => bool_decide (from_hex (hex_digit v) = Some v) && lower_hex (hex_digit v))
                eq_refl v Hv) as H.
  simpl in H. apply andb_prop in H as [H ?]. by apply bool_decide_eq_true in H.
Qed.

Lemma hex_digit_from c v : from_hex c = Some v -> lower_hex c = true -> 0 <= v < 16 /\ hex_digit v = c.
Proof.
  intros Hv Hl.
  pose proof (byte_all (fun c => negb (lower_hex c) ||
    match from_hex c with Some v => (0 <=? v) && (v <? 16) && bool_decide (hex_digit v = c) | None => true end)
    eq_refl c) as H.
  simpl in H. rewrite Hl, Hv in H. simpl in H.
  apply andb_prop in H as [[?%Z.leb_le ?%Z.ltb_lt]%andb_prop ?%bool_decide_eq_true]. done.
Qed.

Lemma nibbles x : Z.lor (Z.shiftl (Z.shiftr (bZ x) 4) 4) (Z.land (bZ x) 15) = bZ x /\
  0 <= Z.shiftr (bZ x) 4 < 16 /\ 0 <= Z.land (bZ x) 15 < 16.
Proof.
  pose proof (byte_all (fun x =>
    (Z.lor (Z.shiftl (Z.shiftr (bZ x) 4) 4) (Z.land (bZ x) 15) =? bZ x) &&
    ((0 <=? Z.shiftr (bZ x) 4) && (Z.shiftr (bZ x) 4 <? 16)) &&
    ((0 <=? Z.land (bZ x) 15) && (Z.land (bZ x) 15 <? 16))) eq_refl x) as H.
  simpl in H. rewrite !andb_true_iff, !Z.eqb_eq, !Z.leb_le, !Z.ltb_lt in H. tauto.
Qed.

Lemma of_nibbles a b : 0 <= a < 16 -> 0 <= b < 16 ->
  Z.shiftr (bZ (Zb (Z.lor (Z.shiftl a 4) b))) 4 = a /\ Z.land (bZ (Zb (Z.lor (Z.shiftl a 4) b))) 15 = b.
Proof.
  intros Ha Hb.
  pose proof (nibble_all (fun a => forallb (fun b =>
    (Z.shiftr (bZ (Zb (Z.lor (Z.shiftl a 4) b))) 4 =? a) &&
    (Z.land (bZ (Zb (Z.lor (Z.shiftl a 4) b))) 15 =? b)) (seqZ 0 16)) eq_refl a Ha) as H.
  pose proof (nibble_all _ H b Hb) as H2. simpl in H2.
  apply andb_prop in H2 as [?%Z.eqb_eq ?%Z.eqb_eq]. done.
Qed.

Lemma hex_Decode_Encode b : hex_Decode (hex_EncodeToString b) = Some b.
Proof.
  induction b as [|x b IH]; [done|]. simpl. destruct (nibbles x) as (E & Ha & Hb).
  destruct (from_hex_digit _ Ha) as [-> _]. destruct (from_hex_digit _ Hb) as [-> _].
  rewrite IH, E. by rewrite Zb_bZ.
Qed.

Lemma length_hex b : length (hex_EncodeToString b) = (2 * length b)%nat.
Proof. induction b; simpl; lia. Qed.

Lemma lower_hex_encode b : forallb lower_hex (hex_EncodeToString b) = true.
Proof.
  induction b as [|x b IH]; [done|]. simpl. destruct (nibbles x) as (_ & Ha & Hb).
  destruct (from_hex_digit _ Ha) as [_ ->]. destruct (from_hex_digit _ Hb) as [_ ->]. by rewrite IH.
Qed.

Lemma hex_Encode_Decode n s b :
  (length s <= n)%nat -> forallb lower_hex s = true -> hex_Decode s = Some b ->
  hex_EncodeToString b = s /\ length s = (2 * length b)%nat.
Proof.
  revert s b. induction n as [|n IH]; intros [|x [|y s]] b Hn; simpl in *; try (intros; by simplify_eq); [lia|].
  destruct (lower_hex x) eqn:Lx; [|done]. destruct (lower_hex y) eqn:Ly; [|done].
  destruct (from_hex x) as [a|] eqn:Ex; [|done]. destruct (from_hex y) as [c|] eqn:Ey; [|done].
  destruct (hex_Decode s) as [r|] eqn:Er; [|done]. simpl. intros Ls [= <-].
  destruct (hex_digit_from _ _ Ex Lx) as [Ha Hx]. destruct (hex_digit_from _ _ Ey Ly) as [Hc Hy].
  destruct (of_nibbles a c Ha Hc) as [E1 E2]. simpl. rewrite E1, E2, Hx, Hy.
  destruct (IH s r ltac:(lia) Ls Er) as [-> Hl]. split; [done|]. lia.
Qed.

(** [Parse] inverts [String]: parsing the text of a name gives the name
    back, and any text [Parse] accepts is the text of the name it returns. So
    uppercase, prefixes, whitespace and every other length are refused, and no
    two texts name one chunk. *)
Theorem parse_string_bijection (s : bytes) (h : hash) :
  Parse (String_ h) = Ok h /\ (Parse s = Ok h <-> s = String_ h).
Proof.
  assert (Parse (String_ h) = Ok h) as Hf.
  { unfold Parse, String_. rewrite length_hex, hash_length. simpl negb.
    rewrite lower_hex_encode, hex_Decode_Encode. simpl. by rewrite to_hash_hbytes. }
  split; [done|]. split; [|by intros ->].
  unfold Parse. destruct (Nat.eqb_spec (length s) 64) as [Hl|]; [|done]. simpl.
  destruct (forallb lower_hex s) eqn:L; [|done]. simpl. destruct (hex_Decode s) as [b|] eqn:D; [|done].
  intros [= <-]. destruct (hex_Encode_Decode _ s b (le_n _) L D) as [E Hb].
  unfold String_. rewrite to_hash_exact by lia. done.
Qed.
