(* ===== verification/ChunkStore.v ===== *)
(** * core/chunk and core/chunk/memstore: the chunk store

    [ChunkStore S] is the port (chunk.Store) over a store state [S]: reading
    does not change what a store holds, so [cs_get], [cs_has] and [cs_root]
    take the state and return a result; [cs_put] and [cs_cas] are steps.
    [ChunkStoreOk] is what the port's documentation promises to the layers
    above, in terms of a view: the chunks a store holds, by name. Everything
    above the port (prolly, object, vcs) is proved from [ChunkStoreOk].

    [Memstore] is the package memstore, which "defines the contract"; the
    section ends with the instance that discharges it. *)

From S2P Require Import Prelude Hash.

Definition MaxChunkSize : Z := 1048576.

Class ChunkStore (S : Type) := {
  cs_get : S -> hash -> res bytes;
  cs_has : S -> list hash -> res (gmap hash bool);
  cs_put : bytes -> M S hash;
  cs_root : S -> res hash;
  cs_cas : hash -> hash -> M S unit;
}.

(** A reader is what a chunk.Reader offers: a chunk's bytes by name. *)
Abbreviation creader := (hash -> res bytes).

Class ChunkStoreOk `{Hasher} (S : Type) `{ChunkStore S} := {
  (** The store can be used: open, and nothing in it altered. *)
  cs_ok : S -> Prop;
  cs_view : S -> gmap hash bytes;
  cs_rootof : S -> hash;
  cs_view_sum s h b : cs_ok s -> cs_view s !! h = Some b -> Sum b = h;
  cs_get_Some s h b : cs_ok s -> cs_view s !! h = Some b -> cs_get s h = Ok b;
  cs_get_None s h : cs_ok s -> cs_view s !! h = None -> cs_get s h = Err ChunkNotFound;
  cs_put_ok s b : cs_ok s -> zlen b <= MaxChunkSize ->
    exists s', cs_put b s = (Ok (Sum b), s') /\ cs_ok s' /\ cs_rootof s' = cs_rootof s /\
      cs_view s' = match cs_view s !! Sum b with
                   | Some _ => cs_view s
                   | None => <[Sum b := b]> (cs_view s)
                   end;
  cs_put_big s b : cs_ok s -> MaxChunkSize < zlen b -> cs_put b s = (Err ChunkTooLarge, s);
  cs_root_get s : cs_ok s -> cs_root s = Ok (cs_rootof s);
  cs_cas_ok s e n : cs_ok s -> is_Some (cs_view s !! n) -> n <> zero_hash -> cs_rootof s = e ->
    exists s', cs_cas e n s = (Ok tt, s') /\ cs_ok s' /\ cs_view s' = cs_view s /\ cs_rootof s' = n;
  cs_cas_conflict s e n : cs_ok s -> is_Some (cs_view s !! n) -> n <> zero_hash -> cs_rootof s <> e ->
    cs_cas e n s = (Err ChunkRootConflict, s);
  cs_cas_missing s e n : cs_ok s -> cs_view s !! n = None \/ n = zero_hash ->
    cs_cas e n s = (Err ChunkRootMissing, s);
}.

(** ** memstore *)

Module Memstore.
Section Memstore.
Context `{Hasher}.

Record Store := mkStore { chunks : gmap hash bytes; root : hash; closed : bool }.

Definition New : Store := mkStore ∅ zero_hash false.

(** Flip a byte of a stored chunk, as silent corruption would. *)
Definition Tamper (h : hash) (s : Store) : bool * Store :=
  match chunks s !! h with
  | Some b =>
      if (length b =? 0)%nat then (false, s)
      else let i := (length b / 2)%nat in
           match b !! i with
           | Some x => (true, mkStore (<[h := <[i := Zb (Z.lxor (bZ x) 1)]> b]> (chunks s)) (root s) (closed s))
           | None => (false, s)
           end
  | None => (false, s)
  end.

Definition Put (data : bytes) : M Store hash := fun s =>
  if MaxChunkSize <? zlen data then (Err ChunkTooLarge, s)
  else
    let h := Sum data in
    if closed s then (Err ChunkClosed, s)
    else match chunks s !! h with
         | Some _ => (Ok h, s)
         | None => (Ok h, mkStore (<[h := data]> (chunks s)) (root s) (closed s))
         end.

Definition Get (s : Store) (h : hash) : res bytes :=
  if closed s then Err ChunkClosed
  else match chunks s !! h with
       | None => Err ChunkNotFound
       | Some b => if bool_decide (Sum b = h) then Ok b else Err ChunkCorrupt
       end.

Definition Has (s : Store) (hs : list hash) : res (gmap hash bool) :=
  if closed s then Err ChunkClosed
  else Ok (foldl (fun out h => <[h := bool_decide (is_Some (chunks s !! h))]> out) ∅ hs).

Definition Root (s : Store) : res hash := if closed s then Err ChunkClosed else Ok (root s).

Definition CompareAndSetRoot (expected next : hash) : M Store unit := fun s =>
  if closed s then (Err ChunkClosed, s)
  else if bool_decide (chunks s !! next = None) || IsZero next then (Err ChunkRootMissing, s)
  else if bool_decide (root s <> expected) then (Err ChunkRootConflict, s)
  else (Ok tt, mkStore (chunks s) next (closed s)).

Definition Stats (s : Store) : res Z :=
  if closed s then Err ChunkClosed else Ok (Z.of_nat (size (chunks s))).

Definition Close (s : Store) : res unit * Store := (Ok tt, mkStore (chunks s) (root s) true).

#[global] Instance port : ChunkStore Store := {|
  cs_get := Get; cs_has := Has; cs_put := Put; cs_root := Root; cs_cas := CompareAndSetRoot |}.

(** Every chunk hashes to its name; true of any store no one tampered with. *)
Definition intact (s : Store) : Prop := map_Forall (fun h b => Sum b = h) (chunks s).

Definition usable (s : Store) : Prop := closed s = false /\ intact s.

Lemma New_usable : usable New.
Proof. split; [done|]. apply map_Forall_empty. Qed.

Lemma Put_usable b s r s' : usable s -> Put b s = (r, s') -> usable s'.
Proof.
  intros [Hc Hi]. unfold Put. repeat case_match; intros [= <- <-]; try done.
  split; [done|]. simpl. apply map_Forall_insert_2; done.
Qed.

Lemma CompareAndSetRoot_usable e n s r s' : usable s -> CompareAndSetRoot e n s = (r, s') -> usable s'.
Proof. intros [Hc Hi]. unfold CompareAndSetRoot. repeat case_match; intros [= <- <-]; done. Qed.

Lemma get_stored s h b : usable s -> chunks s !! h = Some b -> Get s h = Ok b.
Proof. intros [Hc Hi] Hb. unfold Get. rewrite Hc, Hb. by rewrite bool_decide_true by (by apply Hi). Qed.

Lemma get_absent s h : usable s -> chunks s !! h = None -> Get s h = Err ChunkNotFound.
Proof. intros [Hc Hi] Hb. unfold Get. by rewrite Hc, Hb. Qed.

Lemma put_stores s b : usable s -> zlen b <= MaxChunkSize ->
  exists s', Put b s = (Ok (Sum b), s') /\ usable s' /\ root s' = root s /\
    chunks s' = match chunks s !! Sum b with Some _ => chunks s | None => <[Sum b := b]> (chunks s) end.
Proof.
  intros Hs Hb. destruct (Put b s) as [r s'] eqn:E. pose proof (Put_usable _ _ _ _ Hs E) as Hs'.
  destruct Hs as [Hc Hi]. exists s'. unfold Put in E.
  rewrite (proj2 (Z.ltb_ge _ _)), Hc in E by lia. case_match; injection E as <- <-; done.
Qed.

Lemma put_refuses s b : MaxChunkSize < zlen b -> Put b s = (Err ChunkTooLarge, s).
Proof. intros Hb. unfold Put. by rewrite (proj2 (Z.ltb_lt _ _)) by lia. Qed.

Lemma cas_swaps s e n : usable s -> is_Some (chunks s !! n) -> n <> zero_hash -> root s = e ->
  exists s', CompareAndSetRoot e n s = (Ok tt, s') /\ usable s' /\ chunks s' = chunks s /\ root s' = n.
Proof.
  intros [Hc Hi] [b Hb] Hn <-. unfold CompareAndSetRoot, IsZero.
  rewrite Hc, Hb, !bool_decide_false by naive_solver. eexists. split; [done|]. by split_and!.
Qed.

Lemma cas_loses s e n : usable s -> is_Some (chunks s !! n) -> n <> zero_hash -> root s <> e ->
  CompareAndSetRoot e n s = (Err ChunkRootConflict, s).
Proof.
  intros [Hc Hi] [b Hb] Hn He. unfold CompareAndSetRoot, IsZero.
  rewrite Hc, Hb, !bool_decide_false, bool_decide_true by naive_solver. done.
Qed.

Lemma cas_refuses s e n : usable s -> chunks s !! n = None \/ n = zero_hash ->
  CompareAndSetRoot e n s = (Err ChunkRootMissing, s).
Proof.
  intros [Hc Hi] Hn. unfold CompareAndSetRoot, IsZero. rewrite Hc.
  destruct Hn as [Hn| ->]; [by rewrite bool_decide_true|].
  by rewrite (bool_decide_true (zero_hash = _)), orb_true_r.
Qed.

Lemma root_reads s : usable s -> Root s = Ok (root s).
Proof. intros [Hc Hi]. unfold Root. by rewrite Hc. Qed.

(** memstore, the store that defines the port's contract, meets it. *)
#[global] Instance port_ok : ChunkStoreOk Store := {|
  cs_ok := usable; cs_view := chunks; cs_rootof := root;
  cs_view_sum s h b (Hs : usable s) := proj2 Hs h b;
  cs_get_Some := get_stored; cs_get_None := get_absent;
  cs_put_ok := put_stores; cs_put_big s b _ := put_refuses s b;
  cs_root_get := root_reads;
  cs_cas_ok := cas_swaps; cs_cas_conflict := cas_loses; cs_cas_missing := cas_refuses |}.

(** Silent corruption never reaches a reader: after [Tamper] alters a stored chunk [b] to
    [b'], a different byte string, reading the chunk by its name is [ErrCorrupt] as long as the two
    do not hash alike; every other chunk still reads as it did. *)
Theorem tamper_is_detected s h s' :
  usable s -> Tamper h s = (true, s') ->
  exists b b', chunks s !! h = Some b /\ chunks s' !! h = Some b' /\ b' <> b /\
    (Sum b' <> Sum b -> Get s' h = Err ChunkCorrupt) /\
    (forall k, k <> h -> Get s' k = Get s k).
Proof.
  intros [Hc Hi]. unfold Tamper. destruct (chunks s !! h) as [b|] eqn:Hb; [|done].
  destruct (length b =? 0)%nat; [done|]. destruct (b !! (length b / 2)%nat) as [x|] eqn:Hx; [|done].
  intros [= <-]. exists b. eexists. unfold Get; simpl. rewrite Hc, lookup_insert_eq. split_and!; [done|done| | |].
  - intros E. apply (f_equal (.!! (length b / 2)%nat)) in E.
    rewrite Hx, list_lookup_insert_eq in E by (by eapply lookup_lt_Some). injection E as E.
    apply (f_equal bZ) in E. revert E. clear.
    pose proof (byte_all (fun x => negb (bZ (Zb (Z.lxor (bZ x) 1)) =? bZ x)) eq_refl x) as H.
    simpl in H. apply negb_true_iff, Z.eqb_neq in H. congruence.
  - intros Hs. by rewrite bool_decide_false by (rewrite <-(Hi h b Hb); done).
  - intros k Hk. by rewrite lookup_insert_ne by done.
Qed.

(** Put then Get: storing at most 1 MiB succeeds with the bytes' own hash
    as name; if nothing was stored under that name the bytes then read back,
    and if something was, the store is unchanged (the put is idempotent). No
    other name reads differently and the root does not move. A larger chunk is
    refused and nothing changes. *)
Theorem put_then_get s b :
  usable s ->
  (zlen b <= MaxChunkSize -> exists s', Put b s = (Ok (Sum b), s') /\ usable s' /\ Root s' = Root s /\
     (chunks s !! Sum b = None -> Get s' (Sum b) = Ok b) /\
     (is_Some (chunks s !! Sum b) -> s' = s) /\
     (forall k, k <> Sum b -> Get s' k = Get s k)) /\
  (MaxChunkSize < zlen b -> Put b s = (Err ChunkTooLarge, s)).
Proof.
  intros Hs. split; [|apply put_refuses]. intros Hb.
  destruct (put_stores s b Hs Hb) as (s' & E & Hs' & Hr & Hch). exists s'.
  pose proof Hs as [Hc _]. pose proof Hs' as [Hc' _].
  split_and!; [done|done| | | |].
  - by rewrite !root_reads, Hr.
  - intros Hn. rewrite Hn in Hch. apply get_stored; [done|]. by rewrite Hch, lookup_insert_eq.
  - intros [b' Hb']. unfold Put in E. rewrite (proj2 (Z.ltb_ge _ _)), Hc, Hb' in E by lia. by injection E.
  - intros k Hk. unfold Get. rewrite Hc, Hc', Hch. destruct (chunks s !! Sum b); [done|].
    by rewrite lookup_insert_ne by done.
Qed.

(** The root swap is a compare-and-set: it succeeds exactly when the new root
    names a stored chunk and the expected root is the current one, and then
    only the root changes; in every other case, and on a closed store, nothing
    changes at all and the error says which guard refused. *)
Theorem root_swap_is_atomic s e n :
  let '(r, s') := CompareAndSetRoot e n s in
  match r with
  | Ok _ => closed s = false /\ is_Some (chunks s !! n) /\ n <> zero_hash /\ root s = e /\
            s' = mkStore (chunks s) n false
  | Err x => s' = s /\
      (x = ChunkClosed /\ closed s = true \/
       x = ChunkRootMissing /\ (chunks s !! n = None \/ n = zero_hash) \/
       x = ChunkRootConflict /\ root s <> e)
  end.
Proof.
  unfold CompareAndSetRoot, IsZero. destruct (closed s) eqn:Hc; [by auto|].
  case_bool_decide as H1; simpl; [by auto 6|]. case_bool_decide as H2; [by auto 6|].
  case_bool_decide as H3; [by auto 6|]. rewrite <-not_eq_None_Some.
  split_and!; done.
Qed.

End Memstore.
End Memstore.

(** ** A concrete hash function

    For evaluating the model on concrete inputs: a polynomial of the bytes,
    modulo 2^64, stretched to 32 bytes. It stands for SHA-256 in examples only. *)
Definition toy_step (v : Z) : Z := Z.land (v * 1103515245 + 12345) (2 ^ 64 - 1).

Definition toy_sum : bytes -> hash := fun b =>
  to_hash ((fix go (n : nat) (v : Z) : bytes :=
              match n with O => [] | S n => Zb (Z.shiftr v 40) :: go n (toy_step v) end) 32%nat
             (toy_step (foldl (fun acc x => Z.land (acc * 257 + bZ x + 1) (2 ^ 64 - 1)) 7 b))).

Definition toy_hasher : Hasher := toy_sum.

#[local] Existing Instance toy_hasher.

Lemma put_then_get_witness :
  let b := str "chunk" in
  exists s', Memstore.Put b Memstore.New = (Ok (Sum b), s') /\ Memstore.Get s' (Sum b) = Ok b.
Proof.
  intros b. destruct (Memstore.put_then_get Memstore.New b Memstore.New_usable) as [Hput _].
  destruct Hput as (s' & Hp & _ & _ & Hg & _); [discriminate|].
  exists s'. split; [exact Hp|]. apply Hg. reflexivity.
Defined.

Lemma tamper_is_detected_witness :
  let b := str "chunk" in
  let s := (Memstore.Put b Memstore.New).2 in
  let s' := (Memstore.Tamper (Sum b) s).2 in
  Memstore.Get s' (Sum b) = Err ChunkCorrupt.
Proof.
  intros b s s'.
  destruct (Memstore.tamper_is_detected s (Sum b) s') as (b0 & b1 & H0 & H1 & Hne & Hcor & _).
  - split; [reflexivity|]. apply map_Forall_singleton. reflexivity.
  - vm_compute. reflexivity.
  - apply Hcor.
    assert (Some b1 = Some (str "chtnk")) as [= ->] by (rewrite <-H1; vm_compute; reflexivity).
    assert (Some b0 = Some b) as [= ->] by (rewrite <-H0; vm_compute; reflexivity).
    vm_compute. discriminate.
Defined.
