(* ===== verification/Prog.v ===== *)
(** * Programs over a chunk store

    Code that stores chunks or moves a root is modelled as a program: a tree of
    the store calls it makes, each continued by what the store answers. The
    same program runs against any implementation of the port ([run]). [exec]
    runs it on the chunks and the root a store holds and nothing else, and
    [run_view] is the refinement: every store that keeps the port's contract
    gives the answers [exec] gives. [stored] is the answer of a program that
    only stores, with the chunks it stores. *)

From Stdlib Require Import FunctionalExtensionality.
From S2P Require Import Prelude Hash ChunkStore.

(** [ReadOp] is a computation that only reads, on the store as it is then. *)
Inductive prog (A : Type) : Type :=
| Ret (r : res A)
| ReadOp (B : Type) (f : creader -> res B) (k : res B -> prog A)
| PutOp (b : bytes) (k : res hash -> prog A)
| RootOp (k : res hash -> prog A)
| CasOp (expected next : hash) (k : res unit -> prog A).
Arguments Ret {A} r.
Arguments ReadOp {A B} f k.
Arguments PutOp {A} b k.
Arguments RootOp {A} k.
Arguments CasOp {A} expected next k.

(** Run [p] and hand its result, an error too, to [f]. *)
Fixpoint try_ {A B} (p : prog A) (f : res A -> prog B) : prog B :=
  match p with
  | Ret r => f r
  | ReadOp g k => ReadOp g (fun r => try_ (k r) f)
  | PutOp b k => PutOp b (fun r => try_ (k r) f)
  | RootOp k => RootOp (fun r => try_ (k r) f)
  | CasOp e n k => CasOp e n (fun r => try_ (k r) f)
  end.

#[export] Instance prog_ret : MRet prog := fun A a => Ret (Ok a).
#[export] Instance prog_bind : MBind prog := fun A B f p =>
  try_ p (fun r => match r with Ok a => f a | Err e => Ret (Err e) end).

Definition pGet (h : hash) : prog bytes := ReadOp (fun rd => rd h) Ret.
Definition pRead {A} (f : creader -> res A) : prog A := ReadOp f Ret.
Definition pPut (b : bytes) : prog hash := PutOp b Ret.
Definition pRoot : prog hash := RootOp Ret.
Definition pCas (expected next : hash) : prog unit := CasOp expected next Ret.
Definition pFail {A} (e : error) : prog A := Ret (Err e).
Definition pLift {A} (r : res A) : prog A := Ret r.

Fixpoint run {A S} `{ChunkStore S} (p : prog A) : M S A := fun s =>
  match p with
  | Ret r => (r, s)
  | ReadOp f k => run (k (f (cs_get s))) s
  | PutOp b k => let '(r, s) := cs_put b s in run (k r) s
  | RootOp k => run (k (cs_root s)) s
  | CasOp e n k => let '(r, s) := cs_cas e n s in run (k r) s
  end.

(** ** The abstract store: the chunks by name, and the root *)

Abbreviation view := (gmap hash bytes).

Definition vget (v : view) : creader := fun h =>
  match v !! h with Some b => Ok b | None => Err ChunkNotFound end.

Definition vput `{Hasher} (v : view) (b : bytes) : view :=
  match v !! Sum b with Some _ => v | None => <[Sum b := b]> v end.

Definition vcas (v : view) (rt e n : hash) : res unit * hash :=
  if bool_decide (v !! n = None) || IsZero n then (Err ChunkRootMissing, rt)
  else if bool_decide (rt <> e) then (Err ChunkRootConflict, rt)
  else (Ok tt, n).

Fixpoint exec {A} `{Hasher} (v : view) (rt : hash) (p : prog A) : res A * view * hash :=
  match p with
  | Ret r => (r, v, rt)
  | ReadOp f k => exec v rt (k (f (vget v)))
  | PutOp b k =>
      if MaxChunkSize <? zlen b then exec v rt (k (Err ChunkTooLarge))
      else exec (vput v b) rt (k (Ok (Sum b)))
  | RootOp k => exec v rt (k (Ok rt))
  | CasOp e n k => let '(r, rt) := vcas v rt e n in exec v rt (k r)
  end.

(** ** Refinement: any store that keeps the contract runs as the abstract one *)

Section Running.
Context `{HH : Hasher} {S : Type} `{!ChunkStore S} `{!ChunkStoreOk S}.

Lemma get_view s : cs_ok s -> cs_get s = vget (cs_view s).
Proof.
  intros Hs. apply functional_extensionality. intros h. unfold vget. destruct (cs_view s !! h) eqn:E.
  - by apply cs_get_Some.
  - by apply cs_get_None.
Qed.

Lemma cas_view e n s : cs_ok s ->
  exists s', cs_cas e n s = ((vcas (cs_view s) (cs_rootof s) e n).1, s') /\ cs_ok s' /\ cs_view s' = cs_view s /\
    cs_rootof s' = (vcas (cs_view s) (cs_rootof s) e n).2.
Proof.
  intros Hs. unfold vcas, IsZero. destruct (decide (cs_view s !! n = None \/ n = zero_hash)) as [Hn|Hn].
  - exists s. rewrite cs_cas_missing by done.
    assert (bool_decide (cs_view s !! n = None) || bool_decide (n = zero_hash) = true) as ->; [|by split_and!].
    rewrite orb_true_iff, !bool_decide_eq_true. done.
  - assert (bool_decide (cs_view s !! n = None) || bool_decide (n = zero_hash) = false) as ->.
    { rewrite orb_false_iff, !bool_decide_eq_false. tauto. }
    assert (is_Some (cs_view s !! n) /\ n <> zero_hash) as [H1 H2].
    { split; [apply not_eq_None_Some; tauto|tauto]. }
    case_bool_decide as Hr.
    + exists s. by rewrite cs_cas_conflict.
    + by apply cs_cas_ok.
Qed.

Lemma run_view {A} (p : prog A) : forall s, cs_ok s ->
  exists s', run p s = ((exec (cs_view s) (cs_rootof s) p).1.1, s') /\ cs_ok s' /\
    cs_view s' = (exec (cs_view s) (cs_rootof s) p).1.2 /\ cs_rootof s' = (exec (cs_view s) (cs_rootof s) p).2.
Proof.
  induction p as [r|B f k IH|b k IH|k IH|e n k IH]; intros s Hs; simpl.
  - by exists s.
  - rewrite <-get_view by done. auto.
  - destruct (Z.ltb_spec MaxChunkSize (zlen b)).
    + rewrite cs_put_big by done. auto.
    + destruct (cs_put_ok s b Hs ltac:(lia)) as (s1 & -> & Hs1 & <- & Hv). fold (vput (cs_view s) b) in Hv. rewrite <-Hv. auto.
  - rewrite cs_root_get by done. auto.
  - destruct (cas_view e n s Hs) as (s1 & -> & Hs1 & <- & Hr).
    destruct (vcas (cs_view s1) (cs_rootof s) e n) as [r rt]. simpl in *. subst rt. auto.
Qed.
End Running.

(** ** Readers that hold more *)

Definition more (rd rd' : creader) : Prop := forall h b, rd h = Ok b -> rd' h = Ok b.

Lemma more_view (v v' : view) : v ⊆ v' -> more (vget v) (vget v').
Proof.
  intros Hv h b. unfold vget. destruct (v !! h) as [x|] eqn:E; [|done]. intros [= <-]. by rewrite (lookup_weaken _ _ _ _ E Hv).
Qed.

(** ** Programs that only read *)

(** The answer of a program that only reads. *)
Fixpoint interp {A} (rd : creader) (p : prog A) : res A :=
  match p with
  | Ret r => r
  | ReadOp f k => interp rd (k (f rd))
  | _ => Err (EMsg "a read changes nothing")
  end.

Fixpoint reads_only {A} (p : prog A) : Prop :=
  match p with
  | Ret _ => True
  | ReadOp _ k => forall r, reads_only (k r)
  | _ => False
  end.

Lemma interp_try {A B} rd (p : prog A) (f : res A -> prog B) :
  reads_only p -> interp rd (try_ p f) = interp rd (f (interp rd p)).
Proof. induction p; simpl; try done. intros Hp. auto. Qed.

Lemma reads_try {A B} (p : prog A) (f : res A -> prog B) :
  reads_only p -> (forall r, reads_only (f r)) -> reads_only (try_ p f).
Proof. induction p; simpl; auto; try done. Qed.

Lemma reads_bind {A B} (p : prog A) (f : A -> prog B) :
  reads_only p -> (forall a, reads_only (f a)) -> reads_only (p ≫= f).
Proof. intros Hp Hf. apply reads_try; [done|]. by intros [a|e]; simpl. Qed.

Lemma interp_bind {A B} rd (p : prog A) (f : A -> prog B) :
  reads_only p ->
  interp rd (p ≫= f) = match interp rd p with Ok a => interp rd (f a) | Err e => Err e end.
Proof. intros Hp. unfold mbind, prog_bind. rewrite interp_try by done. by destruct (interp rd p). Qed.

(** ** Sequencing of [exec] *)

Lemma exec_try {A B} `{Hasher} (p : prog A) (f : res A -> prog B) : forall v rt,
  exec v rt (try_ p f) = let '(r, v, rt) := exec v rt p in exec v rt (f r).
Proof.
  induction p as [r|C g k IH|b k IH|k IH|e n k IH]; intros v rt; simpl; auto.
  - by destruct (_ <? _).
  - destruct (vcas v rt e n). auto.
Qed.

Lemma exec_bind {A B} `{Hasher} (p : prog A) (f : A -> prog B) v rt :
  exec v rt (p ≫= f) =
  match exec v rt p with (Ok a, v, rt) => exec v rt (f a) | (Err e, v, rt) => (Err e, v, rt) end.
Proof. unfold mbind, prog_bind. rewrite exec_try. by destruct (exec v rt p) as [[[a|e] v'] rt']. Qed.

Lemma exec_reads {A} `{Hasher} (p : prog A) v rt : reads_only p -> exec v rt p = (interp (vget v) p, v, rt).
Proof. induction p; simpl; try done. auto. Qed.

Lemma exec_put `{Hasher} v rt b : zlen b <= MaxChunkSize -> exec v rt (pPut b) = (Ok (Sum b), vput v b, rt).
Proof. intros Hb. simpl. by rewrite (proj2 (Z.ltb_ge _ _)) by lia. Qed.

(** A store only ever gains chunks. *)
Lemma vput_grows `{Hasher} v b : v ⊆ vput v b.
Proof. unfold vput. destruct (v !! Sum b) eqn:E; [done|]. by apply insert_subseteq. Qed.

Lemma exec_grows {A} `{Hasher} (p : prog A) : forall v rt, v ⊆ (exec v rt p).1.2.
Proof.
  induction p as [r|C g k IH|b k IH|k IH|e n k IH]; intros v rt; simpl; auto.
  - destruct (_ <? _); [apply IH|]. etrans; [apply vput_grows|apply IH].
  - destruct (vcas v rt e n). apply IH.
Qed.

(** ** Programs that only store *)

(** The answer and the chunks stored; [None] for a program that reads. *)
Fixpoint stored {A} `{Hasher} (p : prog A) : option (res A * list bytes) :=
  match p with
  | Ret r => Some (r, [])
  | PutOp b k =>
      if MaxChunkSize <? zlen b then stored (k (Err ChunkTooLarge))
      else match stored (k (Ok (Sum b))) with
           | Some (r, log) => Some (r, b :: log)
           | None => None
           end
  | _ => None
  end.

Fixpoint puts_only {A} (p : prog A) : Prop :=
  match p with
  | Ret _ => True
  | PutOp _ k => forall r, puts_only (k r)
  | _ => False
  end.

Lemma puts_bind {A B} (p : prog A) (f : A -> prog B) :
  puts_only p -> (forall a, puts_only (f a)) -> puts_only (p ≫= f).
Proof.
  intros Hp Hf. unfold mbind, prog_bind. induction p as [[a|e]|C g k IH|b k IH|k IH|e n k IH]; simpl in *; auto; done.
Qed.

Section Stored.
Context `{Hasher}.

Lemma stored_try {A B} (p : prog A) (f : res A -> prog B) :
  stored (try_ p f) =
  match stored p with
  | Some (r, log) => match stored (f r) with Some (r', log') => Some (r', log ++ log') | None => None end
  | None => None
  end.
Proof.
  induction p as [r|C g k IH|b k IH|k IH|e n k IH]; simpl; try done.
  - by destruct (stored (f r)) as [[]|].
  - destruct (_ <? _); [by rewrite IH|]. rewrite IH. destruct (stored (k _)) as [[r log]|]; [|done].
    by destruct (stored (f r)) as [[]|].
Qed.

Lemma stored_bind {A B} (p : prog A) (f : A -> prog B) r log :
  stored p = Some (r, log) ->
  stored (p ≫= f) =
  match r with
  | Ok a => match stored (f a) with Some (r', log') => Some (r', log ++ log') | None => None end
  | Err e => Some (Err e, log)
  end.
Proof.
  intros Hp. unfold mbind, prog_bind. rewrite stored_try, Hp. destruct r; simpl; [done|]. by rewrite app_nil_r.
Qed.

Lemma stored_bind_inv {A B} (p : prog A) (f : A -> prog B) r log :
  stored (p ≫= f) = Some (r, log) ->
  exists r1 log1, stored p = Some (r1, log1) /\
    match r1 with
    | Ok a => exists log2, stored (f a) = Some (r, log2) /\ log = log1 ++ log2
    | Err e => r = Err e /\ log = log1
    end.
Proof.
  destruct (stored p) as [[r1 log1]|] eqn:E.
  - rewrite (stored_bind _ _ _ _ E). intros Hx. exists r1, log1. split; [done|].
    destruct r1 as [a|e]; [|by injection Hx as <- <-].
    destruct (stored (f a)) as [[r' log']|]; [|done]. injection Hx as <- <-. by exists log'.
  - unfold mbind, prog_bind. rewrite stored_try, E. done.
Qed.

Lemma stored_puts {A} (p : prog A) : puts_only p -> exists r log, stored p = Some (r, log).
Proof.
  induction p as [r0|C g k IH|b k IH|k IH|e n k IH]; simpl; try done; [by eauto|]. intros Hp.
  destruct (_ <? _); [by apply IH|]. destruct (IH (Ok (Sum b)) (Hp _)) as (r & log & ->). eauto.
Qed.

Lemma stored_bind_ext {A B} (p : prog A) (f g : A -> prog B) :
  (forall a, stored (f a) = stored (g a)) -> stored (p ≫= f) = stored (p ≫= g).
Proof.
  intros Hfg. unfold mbind, prog_bind. rewrite !stored_try. destruct (stored p) as [[[a|] log]|]; try done.
  by rewrite Hfg.
Qed.

Lemma stored_bind_assoc {A B C} (p : prog A) (f : A -> prog B) (g : B -> prog C) :
  stored ((p ≫= f) ≫= g) = stored (p ≫= fun a => f a ≫= g).
Proof.
  unfold mbind, prog_bind. rewrite !stored_try. destruct (stored p) as [[[a|] log]|]; try done; simpl.
  - rewrite stored_try. destruct (stored (f a)) as [[r log1]|]; [|done].
    destruct (stored _) as [[? ?]|]; [|done]. by rewrite app_assoc.
  - by rewrite app_nil_r.
Qed.

Lemma stored_put b : zlen b <= MaxChunkSize -> stored (pPut b) = Some (Ok (Sum b), [b]).
Proof. intros Hb. simpl. by rewrite (proj2 (Z.ltb_ge _ _)) by lia. Qed.

(** *** What a store holds after a program that only stores *)

Fixpoint with_log (m : view) (log : list bytes) : view :=
  match log with
  | [] => m
  | b :: log => with_log (vput m b) log
  end.

(** No chunk of [log] is named like a different chunk of the log or of [m]. *)
Definition collision_free (m : view) (log : list bytes) : Prop :=
  (forall b c, b ∈ log -> c ∈ log -> Sum b = Sum c -> b = c) /\
  (forall b c, b ∈ log -> m !! Sum b = Some c -> b = c).

Lemma with_log_lookup m log h b :
  collision_free m log -> with_log m log !! h = Some b <-> m !! h = Some b \/ (b ∈ log /\ Sum b = h).
Proof.
  revert m. induction log as [|a log IH]; intros m [H1 H2]; simpl; [set_solver|]. unfold vput.
  assert (forall b, b ∈ a :: log -> m !! Sum a = None -> (<[Sum a := a]> m) !! Sum b = Some b \/
                    Sum b <> Sum a) as Hin.
  { intros x Hx Hn. destruct (decide (Sum x = Sum a)) as [E|]; [|by right]. left.
    assert (x = a) as -> by (apply H1; set_solver). by rewrite lookup_insert_eq. }
  rewrite IH.
  - destruct (m !! Sum a) as [c|] eqn:E.
    + assert (a = c) as <- by (eapply H2; [set_solver|done]). rewrite elem_of_cons. naive_solver.
    + rewrite lookup_insert_Some, elem_of_cons. split.
      * intros [[[<- ->]|[Hne Hm]]|[Hb Hs]]; [right; auto|by left|right; auto].
      * intros [Hm|[[->|Hb] Hs]]; [|by left; left|by right].
        left. right. split; [|done]. intros E2. congruence.
  - split; [intros; apply H1; set_solver|]. intros x y Hx. destruct (m !! Sum a) as [c|] eqn:E.
    { intros Hy. eapply H2; [set_solver|done]. }
    rewrite lookup_insert_Some. intros [[Es ->]|[_ Hm]]; [apply H1; set_solver|eapply H2; [set_solver|done]].
Qed.

Lemma stored_exec {A} (p : prog A) : forall v rt r log,
  stored p = Some (r, log) -> exec v rt p = (r, with_log v log, rt).
Proof.
  induction p as [r0|C g k IH|b k IH|k IH|e n k IH]; intros v rt r log; simpl; try done.
  - by intros [= <- <-].
  - destruct (_ <? _); [by apply IH|]. destruct (stored (k (Ok (Sum b)))) as [[r1 log1]|] eqn:E; [|done].
    intros [= <- <-]. simpl. by apply IH.
Qed.
End Stored.

(** After the run every chunk stored reads back, and so does what was there. *)
Lemma stored_run_reads `{HH : Hasher} {S : Type} `{!ChunkStore S} `{!ChunkStoreOk S} {A} (p : prog A) s r log :
  stored p = Some (r, log) -> cs_ok s -> collision_free (cs_view s) log ->
  exists s', run p s = (r, s') /\ cs_ok s' /\ cs_rootof s' = cs_rootof s /\
    (forall b, b ∈ log -> cs_get s' (Sum b) = Ok b) /\
    (forall h b, cs_view s !! h = Some b -> cs_get s' h = Ok b).
Proof.
  intros He Hs Hc. destruct (run_view p s Hs) as (s' & Er & Hs' & Hv & Hro).
  rewrite (stored_exec p (cs_view s) (cs_rootof s) r log He) in Er, Hv, Hro. simpl in *.
  exists s'. split_and!; try done; intros; apply cs_get_Some; try done; rewrite Hv; apply with_log_lookup; auto.
Qed.
