(* ===== verification/Seal.v ===== *)
(** * core/seal: keys, and sealing bound to a place

    Every stored object has its own key, derived from the master key, a random
    salt and what the object is (its domain); what a key seals is bound to a
    context. AES-256-GCM comes from the disknexus engine by way of core/dnx and
    HKDF-SHA-256 from a cryptographic library: they are the operations of the
    class [Aead], a parameter of everything that seals. Random draws (nonces,
    salts) are arguments.

    Passphrases and key wrapping (keyfile.go, x25519.go) are not modelled. *)

From S2P Require Import Prelude.

(** [EncryptWithAAD key nonce plaintext aad], [DecryptWithAAD key sealed aad]
    and [hkdf_Key secret salt info]. *)
Class Aead := {
  EncryptWithAAD : bytes -> bytes -> bytes -> bytes -> bytes;
  DecryptWithAAD : bytes -> bytes -> bytes -> option bytes;
  hkdf_Key : bytes -> bytes -> bytes -> bytes;
}.

Definition NonceSize : Z := 12.
Definition Overhead : Z := 28.

(** What sealing promises: what was sealed opens, and is the nonce, the
    ciphertext and the tag, so 28 bytes longer. *)
Class AeadOk `{Aead} : Prop := {
  open_sealed k n p a : zlen n = NonceSize -> DecryptWithAAD k (EncryptWithAAD k n p a) a = Some p;
  sealed_length k n p a : zlen n = NonceSize -> zlen (EncryptWithAAD k n p a) = zlen p + Overhead;
}.

(** A forgery: what was sealed with some associated data opens with other data. *)
Definition forged `{Aead} (k sealed a : bytes) : Prop := exists a' q, a' <> a /\ DecryptWithAAD k sealed a' = Some q.

(** ** Domains *)

Abbreviation Domain := Z (only parsing).
Definition Chunk : Domain := 1.
Definition PackIndex : Domain := 2.
Definition Index : Domain := 3.
Definition Refs : Domain := 4.
Definition Config : Domain := 5.
Definition Journal : Domain := 6.

Definition tags : list bytes :=
  [[]; str "vdb/chunk/v1"; str "vdb/pack-index/v1"; str "vdb/index/v1"; str "vdb/refs/v1"; str "vdb/config/v1"; str "vdb/journal/v1"].

Definition Tag (d : Domain) : bytes :=
  if (d =? 0) || (zlen tags <=? d) then [] else default [] (tags !! Z.to_nat d).

(** ** Keyrings and keys *)

Record Keyring := mkKeyring { master : bytes; kid : bytes; kr_destroyed : bool }.

(** [RepoID] and [Salt] are byte arrays. *)
Abbreviation RepoID := bytes (only parsing).
Abbreviation Salt := hash (only parsing).

Definition MaxSealsPerKey : Z := 2 ^ 20.

Record Key := mkKey { aead : bytes; ktag : bytes; seals : Z; limit : Z; destroyed : bool }.

Section Sealing.
Context `{Aead}.

Definition KeyringFromBytes (b : bytes) : res Keyring :=
  if negb (zlen b =? 32) then Err SealCorrupt
  else Ok (mkKeyring b (hkdf_Key b [] (str "snapshot-core/key-id/v1")) false).

Definition kr_Destroy (k : Keyring) : Keyring := mkKeyring (replicate (length (master k)) Byte.x00) (kid k) true.

(** The [info] a key is derived with. *)
Definition keyInfo (tag repo : bytes) : bytes := str "snapshot-core/object-key/v1" ++ [Byte.x00] ++ tag ++ [Byte.x00] ++ repo.

(** [Keyring.Key] *)
Definition deriveKey (k : Keyring) (d : Domain) (repo : RepoID) (salt : Salt) : res Key :=
  let tag := Tag d in
  if bool_decide (tag = []) then Err SealDomain
  else if kr_destroyed k then Err SealDestroyed
  else Ok (mkKey (hkdf_Key (master k) (hbytes salt) (keyInfo tag repo)) tag 0 MaxSealsPerKey false).

Definition aad (k : Key) (context : bytes) : bytes := ktag k ++ [Byte.x00] ++ context.

(** [Key.Seal]: the count of seals is the key's state, and [nonce] the random
    draw; [AEAD.Seal] refuses empty associated data, which [aad] never is. *)
Definition Seal (nonce context plaintext : bytes) : M Key bytes := fun k =>
  if destroyed k then (Err SealDestroyed, k)
  else if limit k <=? seals k then (Err SealKeyExhausted, k)
  else
    let k := mkKey (aead k) (ktag k) (seals k + 1) (limit k) (destroyed k) in
    (Ok (EncryptWithAAD (aead k) nonce plaintext (aad k context)), k).

Definition Open (k : Key) (context sealed : bytes) : res bytes :=
  if destroyed k then Err SealDestroyed
  else match DecryptWithAAD (aead k) sealed (aad k context) with
       | None => Err SealAuth
       | Some pt => Ok pt
       end.

Definition Destroy (k : Key) : Key :=
  if destroyed k then k else mkKey (replicate (length (aead k)) Byte.x00) (ktag k) (seals k) (limit k) true.
End Sealing.

(** ** What is sealed opens *)

(** Two handles of one key: the count of seals is each handle's own. *)
Definition same_key (k k' : Key) : Prop := aead k' = aead k /\ ktag k' = ktag k /\ destroyed k = false /\ destroyed k' = false.

Section Facts.
Context `{AeadOk}.

Lemma derived_same kr d repo salt k k' : deriveKey kr d repo salt = Ok k -> deriveKey kr d repo salt = Ok k' -> k = k'.
Proof. congruence. Qed.

Lemma Seal_ok nonce ctx p k k' sealed : zlen nonce = NonceSize -> Seal nonce ctx p k = (Ok sealed, k') ->
  same_key k k' /\ seals k' = seals k + 1 /\ limit k' = limit k /\ seals k < limit k /\ zlen sealed = zlen p + Overhead /\
  forall k2, same_key k k2 -> Open k2 ctx sealed = Ok p.
Proof.
  unfold Seal. intros Hn. destruct (destroyed k) eqn:Ed; [done|]. destruct (Z.leb_spec (limit k) (seals k)); [done|]. intros [= <- <-].
  unfold same_key. cbn. split_and!; try done. - by apply sealed_length.
  - intros k2 (Ha & Ht & _ & Hd). unfold Open. rewrite Hd. unfold aad. cbn. rewrite Ha, Ht. by rewrite open_sealed.
Qed.

Lemma Seal_err nonce ctx p k e k' : Seal nonce ctx p k = (Err e, k') -> k' = k.
Proof. unfold Seal. destruct (destroyed k); [by intros [= _ <-]|]. destruct (limit k <=? seals k); [by intros [= _ <-]|done]. Qed.

Lemma Seal_total nonce ctx p k : destroyed k = false -> seals k < limit k -> exists sealed k', Seal nonce ctx p k = (Ok sealed, k').
Proof. intros Hd Hl. unfold Seal. rewrite Hd, (proj2 (Z.leb_gt _ _)) by lia. eauto. Qed.

End Facts.

(** ** Domains and contexts do not run together *)

Lemma tag_valid d : Tag d <> [] -> 1 <= d <= 6.
Proof.
  unfold Tag. destruct (Z.eqb_spec d 0); [done|]. destruct (Z.leb_spec (zlen tags) d) as [|Hd]; [done|]. cbn in Hd.
  destruct (Z.lt_ge_cases d 0); [|lia]. destruct d; [lia|lia|]. done.
Qed.

(** Facts about domains, by checking all six. *)
Lemma domain_all (P : Z -> Prop) : P 1 -> P 2 -> P 3 -> P 4 -> P 5 -> P 6 -> forall d, 1 <= d <= 6 -> P d.
Proof.
  intros. assert (d = 1 \/ d = 2 \/ d = 3 \/ d = 4 \/ d = 5 \/ d = 6) as Hd by lia.
  destruct Hd as [->|[->|[->|[->|[->| ->]]]]]; done.
Qed.

Lemma tag_no_nul d : Byte.x00 ∉ Tag d.
Proof.
  destruct (decide (Tag d = [])) as [->|Hd]; [by intros ?%elem_of_nil|]. apply tag_valid in Hd. revert d Hd.
  apply (domain_all (fun d => Byte.x00 ∉ Tag d)); apply (bool_decide_unpack _); vm_compute; reflexivity.
Qed.

Lemma tag_inj d d' : Tag d <> [] -> Tag d = Tag d' -> d = d'.
Proof.
  intros Hd E. assert (Tag d' <> []) as Hd' by congruence. apply tag_valid in Hd, Hd'. revert E.
  apply (domain_all (fun d => Tag d = Tag d' -> d = d')); [..|done];
    apply (domain_all (fun d' => Tag _ = Tag d' -> _ = d')); try done; vm_compute; discriminate.
Qed.

(** Two strings with no NUL, each followed by one. *)
Lemma nul_split (a b c d : bytes) : Byte.x00 ∉ a -> Byte.x00 ∉ b -> a ++ [Byte.x00] ++ c = b ++ [Byte.x00] ++ d -> a = b /\ c = d.
Proof.
  revert b. induction a as [|x a IH]; intros [|y b] Ha Hb E; cbn in E.
  - by injection E.
  - injection E as <- _. set_solver.
  - injection E as -> _. set_solver.
  - injection E as -> E. destruct (IH b) as [-> ->]; [set_solver|set_solver|exact E|done].
Qed.

Lemma keyInfo_inj d d2 repo repo2 : Tag d <> [] -> keyInfo (Tag d2) repo2 = keyInfo (Tag d) repo -> d2 = d /\ repo2 = repo.
Proof.
  intros Hd E. unfold keyInfo in E. apply app_inv_head in E. injection E as E.
  destruct (nul_split (Tag d2) (Tag d) repo2 repo) as [E1 E2]; [apply tag_no_nul..|exact E|]. by apply eq_sym, tag_inj in E1.
Qed.

Lemma derived `{Aead} kr d repo salt k : deriveKey kr d repo salt = Ok k ->
  Tag d <> [] /\ ktag k = Tag d /\ destroyed k = false /\ aead k = hkdf_Key (master kr) (hbytes salt) (keyInfo (Tag d) repo).
Proof. unfold deriveKey. case_bool_decide; [done|]. destruct (kr_destroyed kr); [done|]. by intros [= <-]. Qed.

(** Two derivations from different inputs with the same key. *)
Definition key_collision `{Aead} (a b : bytes * bytes * bytes) : Prop :=
  a <> b /\ hkdf_Key a.1.1 a.1.2 a.2 = hkdf_Key b.1.1 b.1.2 b.2.

(** C19. A sealed value opens only in its place: the master key, the domain, the
    repository, the salt and the context it was sealed with. There it opens
    to what was sealed. If it ever opened in a place that differs in any of
    the five, then the AEAD was forged (it opened under the key it was sealed
    under with other associated data), or HKDF gave one key for two different
    inputs, or the AEAD opened it under a key that is not the one it was
    sealed under: no two places have the same key inputs and associated data. *)
Theorem sealed_value_opens_only_in_its_place `{AeadOk} kr d repo salt k nonce ctx p sealed k' :
  deriveKey kr d repo salt = Ok k -> zlen nonce = NonceSize -> Seal nonce ctx p k = (Ok sealed, k') ->
  (forall k2, deriveKey kr d repo salt = Ok k2 -> Open k2 ctx sealed = Ok p) /\
  (forall kr2 d2 repo2 salt2 ctx2 k2 q, deriveKey kr2 d2 repo2 salt2 = Ok k2 ->
     (master kr2, d2, repo2, salt2, ctx2) <> (master kr, d, repo, salt, ctx) -> Open k2 ctx2 sealed = Ok q ->
     forged (aead k) sealed (aad k ctx) \/
     key_collision (master kr, hbytes salt, keyInfo (Tag d) repo) (master kr2, hbytes salt2, keyInfo (Tag d2) repo2) \/
     (aead k2 <> aead k /\ DecryptWithAAD (aead k2) sealed (aad k2 ctx2) = Some q)) /\
  (forall k2 d2 ctx2, ktag k2 = Tag d2 -> aead k2 = aead k -> (d2, ctx2) <> (d, ctx) -> is_ok (Open k2 ctx2 sealed) = true -> forged (aead k) sealed (aad k ctx)) /\
  (forall d2 repo2, keyInfo (Tag d2) repo2 = keyInfo (Tag d) repo -> d2 = d /\ repo2 = repo).
Proof.
  intros Hk Hn Hs. destruct (derived _ _ _ _ _ Hk) as (Hd & Ht & Hf & Ha).
  assert (forall k2 d2 ctx2, ktag k2 = Tag d2 -> aead k2 = aead k -> (d2, ctx2) <> (d, ctx) -> is_ok (Open k2 ctx2 sealed) = true ->
    forged (aead k) sealed (aad k ctx)) as Hforge.
  { intros k2 d2 ctx2 Ht2 Ha2 Hne. unfold Open. destruct (destroyed k2); [done|]. rewrite Ha2.
    destruct (DecryptWithAAD (aead k) sealed (aad k2 ctx2)) as [q|] eqn:E; [|done]. intros _. exists (aad k2 ctx2), q. split; [|done].
    unfold aad. rewrite Ht, Ht2. intros E2. apply Hne.
    destruct (nul_split (Tag d2) (Tag d) ctx2 ctx) as [E1 E3]; [apply tag_no_nul..|exact E2|]. apply eq_sym, tag_inj in E1; [|done]. congruence. }
  split_and!; [| |exact Hforge|by intros; apply keyInfo_inj].
  - intros k2 Hk2. assert (k2 = k) as -> by congruence. destruct (Seal_ok _ _ _ _ _ _ Hn Hs) as (_ & _ & _ & _ & _ & Ho).
    apply Ho. by split_and!.
  - intros kr2 d2 repo2 salt2 ctx2 k2 q Hk2 Hne Ho. destruct (derived _ _ _ _ _ Hk2) as (Hd2 & Ht2 & Hf2 & Ha2).
    destruct (decide (aead k2 = aead k)) as [E|E].
    + destruct (decide ((d2, ctx2) = (d, ctx))) as [[= -> ->]|Hx]; [right; left|left; by eapply (Hforge k2 d2 ctx2); [..|by rewrite Ho]].
      split; [|cbn [fst snd]; congruence]. intros [[Em Es]%pair_equal_spec Ei]%pair_equal_spec. apply eq_sym, keyInfo_inj in Ei as [_ Ei]; [|done]. apply hash_eq in Es. congruence.
    + right. right. split; [done|]. unfold Open in Ho. rewrite Hf2 in Ho. destruct (DecryptWithAAD _ _ _); [by injection Ho as ->|done].
Qed.

(** ** The seal budget *)

(** Any sequence of seals, with what each answers. *)
Fixpoint sealAll `{Aead} (l : list (bytes * bytes * bytes)) (k : Key) : list (res bytes) * Key :=
  match l with
  | [] => ([], k)
  | (n, c, p) :: l => let '(r, k) := Seal n c p k in let '(rs, k) := sealAll l k in (r :: rs, k)
  end.

Lemma seal_budget `{Aead} l : forall k, 0 <= seals k <= limit k ->
  Z.of_nat (length (filter (fun r => is_ok r = true) (sealAll l k).1)) = Z.min (if destroyed k then 0 else limit k - seals k) (zlen l).
Proof.
  induction l as [|[[n c] p] l IH]; intros k Hk; cbn [sealAll]; [cbn; destruct (destroyed k); lia|].
  unfold Seal. destruct (destroyed k) eqn:Ed; [|destruct (Z.leb_spec (limit k) (seals k))].
  1,2: specialize (IH k Hk); rewrite Ed in IH; destruct (sealAll l k) as [rs k2]; cbn [fst] in *;
    rewrite filter_cons_False by done; cbn [length]; lia.
  set (k1 := mkKey _ _ _ _ _). specialize (IH k1 ltac:(cbn; lia)). cbn [destroyed k1 limit seals] in IH. rewrite ?Ed in IH.
  destruct (sealAll l k1) as [rs k2]. cbn [fst] in *. rewrite filter_cons_True by done. cbn [length]. lia.
Qed.

(** ** An AEAD for examples

    The nonce, the plaintext in clear and the start of the associated data. *)

Definition toy_tag (a : bytes) : bytes := take 16 (a ++ replicate 16 Byte.x00).

#[export] Instance toy_aead : Aead := {|
  EncryptWithAAD := fun k n p a => n ++ p ++ toy_tag a;
  DecryptWithAAD := fun k s a =>
    if (zlen s <? Overhead) || negb (bool_decide (drop (length s - 16) s = toy_tag a)) then None
    else Some (take (length s - 28) (drop 12 s));
  hkdf_Key := fun secret salt info => take 32 (secret ++ salt ++ info) |}.

Lemma toy_tag_length a : length (toy_tag a) = 16%nat.
Proof. unfold toy_tag. rewrite length_take, length_app, length_replicate. lia. Qed.

#[export] Instance toy_aead_ok : AeadOk.
Proof.
  split; intros k n p a Hn; cbn [DecryptWithAAD EncryptWithAAD toy_aead]; unfold NonceSize, Overhead in *.
  - pose proof (toy_tag_length a) as Ht. rewrite !length_app, Ht. unfold Overhead.
    rewrite (proj2 (Z.ltb_ge _ _)) by lia. cbn [orb].
    replace (length n + (length p + 16) - 16)%nat with (length (n ++ p)) by (rewrite length_app; lia).
    rewrite app_assoc, drop_app_length, bool_decide_eq_true_2 by done. cbn [negb]. f_equal. rewrite <-app_assoc.
    replace (length n + (length p + 16) - 28)%nat with (length p) by lia.
    rewrite drop_app_length' by lia. apply take_app_length.
  - rewrite !length_app, toy_tag_length. lia.
Qed.

Definition exKeyring : Keyring := mkKeyring (replicate 32 (Zb 7)) [] false.
Definition exRepoID : RepoID := replicate 16 (Zb 9).
Definition exNonce : bytes := replicate 12 (Zb 5).

Lemma sealed_value_opens_only_in_its_place_witness :
  exists k sealed k', deriveKey exKeyring Chunk exRepoID zero_hash = Ok k /\ Seal exNonce (str "here") (str "text") k = (Ok sealed, k') /\
    Open k (str "here") sealed = Ok (str "text").
Proof.
  eexists _, _, _. split; [reflexivity|]. split; [reflexivity|].
  refine (proj1 (sealed_value_opens_only_in_its_place exKeyring Chunk exRepoID zero_hash _ exNonce (str "here") (str "text") _ _ _ _ _) _ _); reflexivity.
Defined.
