(* ===== verification/Pack.v ===== *)
(** * core/pack: many chunks in one immutable object

    A pack is a header with a salt, a sealed frame per chunk, a sealed index of
    where each frame is, and a trailer. [Writer] builds one in memory; [ReadInfo]
    takes one apart; [OpenFrame] reads a chunk from its frame.

    The compressor is github.com/klauspost/compress/zstd: the class [Zstd], a
    parameter. The writer's buffer is its contents: [grow] only moves them to a
    larger one. [sha256.Sum256], which names a pack, is the function chunks are
    named with. *)

From S2P Require Import Prelude Wire Hash ChunkStore Seal.

(** [EncodeAll], and [DecodeAll] of a decoder that refuses to produce more than
    [MaxChunkSize] bytes. *)
Class Zstd := { EncodeAll : bytes -> bytes; DecodeAll : bytes -> option bytes }.

Definition MaxChunkSize : Z := 2 ^ 20.
Definition MaxChunksPerPack : Z := 2 ^ 16.
Definition MaxPackSize : Z := 2 ^ 30.
Definition HeaderSize : Z := 40.
Definition TrailerSize : Z := 16.
Definition sealOverhead : Z := 28.
Definition FrameOverhead : Z := sealOverhead.
Definition CodecRaw : Z := 0.
Definition CodecZstd : Z := 1.
Definition RawBelow : Z := 256.
Definition maxEntryLen : Z := 32 + 3 * 5 + 1.
Definition version : Z := 1.
Definition headerMagic : bytes := str "SCPK".
Definition trailerMagic : bytes := str "SCPE".
Definition indexMagic : bytes := str "SCPI".

Class ZstdOk `{Zstd} : Prop :=
  decode_encoded data : zlen data <= MaxChunkSize -> DecodeAll (EncodeAll data) = Some data.

(** The offsets and lengths are [uint32]s. *)
Record Entry := mkEntry { EHash : hash; Offset : Z; StoredLen : Z; RawLen : Z; Codec : Z }.

#[export] Instance Entry_eq_dec : EqDecision Entry.
Proof. solve_decision. Defined.

Record Info := mkInfo { IName : bytes; ISalt : Salt; ISize : Z; IEntries : list Entry }.

#[export] Instance Info_eq_dec : EqDecision Info.
Proof. solve_decision. Defined.

Record Built := mkBuilt { BName : bytes; BBytes : bytes; BInfo : Info }.

(** [b[lo:hi]]; every slice here ends at or before the length, or panics. *)
Definition go_slice (b : bytes) (lo hi : Z) : res bytes :=
  if (0 <=? lo) && (lo <=? hi) && (hi <=? zlen b) then Ok (take (Z.to_nat (hi - lo)) (drop (Z.to_nat lo) b)) else Err GoPanic.

(** ** Keys *)

Record Keys := mkKeys { kchunk : Key; kindex : Key }.

Record Writer := mkWriter {
  wkeys : Keys; wsalt : Salt; wmaxSize : Z; wbuf : bytes; wentries : gmap hash Entry; worder : list hash; wfinished : bool }.

(** The order of [sort.Slice] by hash, and by offset. *)
Definition hash_le (a b : Entry) : Prop := hbytes (EHash a) <=b hbytes (EHash b).
Definition offset_le (a b : Entry) : Prop := Offset a <= Offset b.

#[export] Instance hash_le_dec a b : Decision (hash_le a b).
Proof. unfold hash_le. apply _. Defined.
#[export] Instance offset_le_dec a b : Decision (offset_le a b).
Proof. unfold offset_le. apply _. Defined.

Section Packs.
Context `{HH : Hasher} `{HA : Aead} `{HZ : Zstd}.

Definition Name (b : bytes) : bytes :=
  let h := hex_EncodeToString (hbytes (Sum b)) in
  str "packs/" ++ take 2 h ++ str "/" ++ h.

Definition DeriveKeys (kr : Keyring) (repo : RepoID) (salt : Salt) : res Keys :=
  chunk ← deriveKey kr Chunk repo salt;
  index ← deriveKey kr PackIndex repo salt;
  Ok (mkKeys chunk index).

Definition header (salt : Salt) : bytes :=
  let w := wRaw [] headerMagic in
  let w := wU16 w version in
  let w := wU16 w 0 in
  wRaw w (hbytes salt).

(** [salt] is the random draw. [expect] sizes the buffer and nothing else. *)
Definition NewWriterSized (salt : Salt) (kr : Keyring) (repo : RepoID) (maxSize expect : Z) : res Writer :=
  if (maxSize <? HeaderSize + TrailerSize) || (MaxPackSize <? maxSize) then Err (EMsg "pack: size limit")
  else
    keys ← DeriveKeys kr repo salt;
    Ok (mkWriter keys salt maxSize (header salt) ∅ [] false).

Definition NewWriter (salt : Salt) (kr : Keyring) (repo : RepoID) (maxSize : Z) : res Writer :=
  NewWriterSized salt kr repo maxSize maxSize.

(** The loop of [uvarintLen]; a [uint64] takes at most nine rounds. *)
Fixpoint uvarintLoop (fuel : nat) (v n : Z) : Z :=
  match fuel with
  | O => n
  | S fuel => if 128 <=? v then uvarintLoop fuel (Z.shiftr v 7) (n + 1) else n
  end.
Definition uvarintLen (v : Z) : Z := uvarintLoop 9 v 1.

Definition entryLen (e : Entry) : Z := 32 + uvarintLen (Offset e) + uvarintLen (StoredLen e) + uvarintLen (RawLen e) + 1.

Definition SealedIndexLen (entries : list Entry) : Z :=
  foldl (fun n e => u64 (n + entryLen e)) (zlen indexMagic + 2 + uvarintLen (zlen entries) + sealOverhead) entries.

Definition indexBound (n : Z) : Z := zlen indexMagic + 2 + 5 + n * maxEntryLen + sealOverhead.

Definition Count (w : Writer) : Z := Z.of_nat (size (wentries w)).

Definition Compress (data : bytes) : bytes * Z :=
  if zlen data <? RawBelow then (data, CodecRaw)
  else
    let z := EncodeAll data in
    if zlen z <? zlen data then (z, CodecZstd) else (data, CodecRaw).

Definition AddSealed (h : hash) (rawLen : Z) (sealed : bytes) (codec : Z) : M Writer unit := fun w =>
  if wfinished w then (Err (EMsg "pack: writer is finished"), w)
  else if MaxChunkSize <? rawLen then (Err PackTooLarge, w)
  else if MaxChunksPerPack <=? Count w then (Err PackFull, w)
  else if bool_decide (is_Some (wentries w !! h)) then (Err PackDup, w)
  else if (0 <? Count w) && (wmaxSize w <? zlen (wbuf w) + zlen sealed + indexBound (Count w + 1) + TrailerSize) then (Err PackFull, w)
  else
    let e := mkEntry h (u32 (zlen (wbuf w))) (u32 (zlen sealed)) (u32 rawLen) codec in
    (Ok tt, mkWriter (wkeys w) (wsalt w) (wmaxSize w) (wbuf w ++ sealed) (<[h := e]> (wentries w)) (worder w ++ [h]) (wfinished w)).

(** [Writer.Seal]: [nonce] is the random draw. *)
Definition wSeal (nonce : bytes) (h : hash) (payload : bytes) : M Writer bytes := fun w =>
  let '(r, k) := Seal nonce (hbytes h) payload (kchunk (wkeys w)) in
  (r, mkWriter (mkKeys k (kindex (wkeys w))) (wsalt w) (wmaxSize w) (wbuf w) (wentries w) (worder w) (wfinished w)).

Definition AddCompressed (nonce : bytes) (h : hash) (rawLen : Z) (payload : bytes) (codec : Z) : M Writer unit := fun w =>
  if wfinished w || (MaxChunkSize <? rawLen) || (MaxChunksPerPack <=? Count w) then AddSealed h rawLen [] codec w
  else (sealed ← wSeal nonce h payload; AddSealed h rawLen sealed codec) w.

Definition Add (nonce : bytes) (h : hash) (data : bytes) : M Writer unit := fun w =>
  if wfinished w || (MaxChunkSize <? zlen data) || (MaxChunksPerPack <=? Count w) then AddCompressed nonce h (zlen data) [] CodecRaw w
  else let '(payload, codec) := Compress data in AddCompressed nonce h (zlen data) payload codec w.

Definition Size (w : Writer) : Z := zlen (wbuf w) + indexBound (Count w) + TrailerSize.

Definition Has (w : Writer) (h : hash) : bool := bool_decide (is_Some (wentries w !! h)).

(** ** Reading a frame *)

Definition OpenFrame (keys : Keys) (e : Entry) (sealed : bytes) : res bytes :=
  if negb (zlen sealed =? StoredLen e) then Err PackCorrupt
  else
    match Open (kchunk keys) (hbytes (EHash e)) sealed with
    | Err _ => Err PackCorrupt
    | Ok payload =>
        data ← (if Codec e =? CodecRaw then Ok payload
                else if Codec e =? CodecZstd then
                  if MaxChunkSize <? RawLen e then Err PackCorrupt
                  else match DecodeAll payload with Some d => Ok d | None => Err PackCorrupt end
                else Err PackCorrupt);
        if negb (zlen data =? RawLen e) then Err PackCorrupt
        else if negb (bool_decide (Sum data = EHash e)) then Err PackCorrupt
        else Ok data
    end.

(** The frame of [e] in a pack's bytes. *)
Definition frameOf (b : bytes) (e : Entry) : res bytes := go_slice b (Offset e) (u32 (Offset e + StoredLen e)).

(** [Writer.Get] *)
Definition wGet (w : Writer) (h : hash) : option (res bytes) :=
  match wentries w !! h with
  | None => None
  | Some e => Some (sealed ← frameOf (wbuf w) e; OpenFrame (wkeys w) e sealed)
  end.

(** [FramesSince]: the frames added after the first [n], in order. *)
Definition FramesSince (w : Writer) (n : nat) : list (Entry * res bytes) :=
  omap (fun h => (fun e => (e, frameOf (wbuf w) e)) <$> wentries w !! h) (drop n (worder w)).

(** ** The index *)

Definition encodeIndex (entries : list Entry) : bytes :=
  let w := wRaw [] indexMagic in
  let w := wU16 w version in
  let w := wUvarint w (zlen entries) in
  foldl (fun w e =>
    let w := wRaw w (hbytes (EHash e)) in
    let w := wUvarint w (Offset e) in
    let w := wUvarint w (StoredLen e) in
    let w := wUvarint w (RawLen e) in
    wU8 w (Codec e)) w entries.

(** The entries loop: [entries] are those decoded so far. *)
Fixpoint decodeEntries (n : nat) (indexOffset : Z) (entries : list Entry) (r : reader) : res (list Entry * reader) :=
  match n with
  | O => Ok (entries, r)
  | S n =>
      let '(h, r) := readHash r in
      let '(off, r) := Uvarint r in
      let '(stored, r) := Uvarint r in
      let '(raw, r) := Uvarint r in
      let '(codec, r) := U8 r in
      if bool_decide (rerr r <> None) then Err PackCorrupt
      else if (stored <? sealOverhead) || (indexOffset <? off) then Err PackCorrupt
      else if MaxChunkSize <? raw then Err PackCorrupt
      else if (codec =? CodecRaw) && negb (stored =? raw + sealOverhead) then Err PackCorrupt
      else if (codec =? CodecZstd) && (raw <=? stored - sealOverhead) then Err PackCorrupt
      else if negb (codec =? CodecRaw) && negb (codec =? CodecZstd) then Err PackCorrupt
      else if match last entries with
              | Some p => match Compare (EHash p) h with Lt => false | _ => true end
              | None => false
              end then Err PackCorrupt
      else decodeEntries n indexOffset (entries ++ [mkEntry h (u32 off) (u32 stored) (u32 raw) codec]) r
  end.

(** Frames in offset order: where the last ends, [None] if one starts before
    the one before it ends. *)
Fixpoint framesEnd (end_ : Z) (l : list Entry) : option Z :=
  match l with
  | [] => Some end_
  | e :: l => if Offset e <? end_ then None else framesEnd (Offset e + StoredLen e) l
  end.

Definition decodeIndex (b : bytes) (indexOffset : Z) : res (list Entry) :=
  let r := NewReader b in
  let '(magic, r) := Fixed 4 r in
  let '(v, r) := U16 r in
  let '(n, r) := Uvarint r in
  if bool_decide (rerr r <> None) || negb (bool_decide (nilb magic = indexMagic)) || negb (v =? version) || (MaxChunksPerPack <? n)
  then Err PackCorrupt
  else
    match decodeEntries (Z.to_nat n) indexOffset [] r with
    | Err e => Err e
    | Ok (entries, r) =>
        if bool_decide (Done r <> None) then Err PackCorrupt
        else
          match framesEnd HeaderSize (merge_sort offset_le entries) with
          | None => Err PackCorrupt
          | Some end_ => if indexOffset <? end_ then Err PackCorrupt else Ok entries
          end
    end.

(** ** A whole pack *)

Definition Finish (nonce : bytes) : M Writer Built := fun w =>
  if wfinished w then (Err (EMsg "pack: writer is finished"), w)
  else
    let w := mkWriter (wkeys w) (wsalt w) (wmaxSize w) (wbuf w) (wentries w) (worder w) true in
    let entries := merge_sort hash_le (map_to_list (wentries w)).*2 in
    let '(r, k) := Seal nonce (take (Z.to_nat HeaderSize) (wbuf w)) (encodeIndex entries) (kindex (wkeys w)) in
    let w := mkWriter (mkKeys (kchunk (wkeys w)) k) (wsalt w) (wmaxSize w) (wbuf w) (wentries w) (worder w) true in
    match r with
    | Err e => (Err e, w)
    | Ok sealed =>
        let b := wbuf w ++ sealed ++ encU64 (zlen (wbuf w)) ++ encU32 (u32 (zlen sealed)) ++ trailerMagic in
        (Ok (mkBuilt (Name b) b (mkInfo (Name b) (wsalt w) (zlen b) entries)), w)
    end.

Definition ReadInfo (name b : bytes) (kr : Keyring) (repo : RepoID) : res Info :=
  if zlen b <? HeaderSize + TrailerSize then Err PackCorrupt
  else if negb (bool_decide (Name b = name)) then Err PackCorrupt
  else
    let h := NewReader (take (Z.to_nat HeaderSize) b) in
    let '(magic, h) := Fixed 4 h in
    let '(v, h) := U16 h in
    let '(flags, h) := U16 h in
    let '(salt, h) := readHash h in
    if bool_decide (Done h <> None) || negb (bool_decide (nilb magic = headerMagic)) || negb (v =? version) || negb (flags =? 0) then Err PackCorrupt
    else
      let t := NewReader (drop (length b - Z.to_nat TrailerSize) b) in
      let '(indexOffset, t) := U64 t in
      let '(indexLen, t) := U32 t in
      let '(tmagic, t) := Fixed 4 t in
      if bool_decide (Done t <> None) || negb (bool_decide (nilb tmagic = trailerMagic)) || (indexOffset <? HeaderSize)
         || negb (u64 (indexOffset + indexLen + TrailerSize) =? zlen b) then Err PackCorrupt
      else
        keys ← DeriveKeys kr repo salt;
        sealed ← go_slice b indexOffset (u64 (indexOffset + indexLen));
        match Open (kindex keys) (take (Z.to_nat HeaderSize) b) sealed with
        | Err _ => Err PackCorrupt
        | Ok plain =>
            entries ← decodeIndex plain indexOffset;
            Ok (mkInfo name salt (zlen b) entries)
        end.
End Packs.

(** ** The index codec *)

Definition ends (e : Entry) : Z := Offset e + StoredLen e.

(** The lengths of a frame agree with its codec. *)
Definition lengths_ok (e : Entry) : Prop :=
  0 <= RawLen e <= MaxChunkSize /\ sealOverhead <= StoredLen e /\
  ((Codec e = CodecRaw /\ StoredLen e = RawLen e + sealOverhead) \/ (Codec e = CodecZstd /\ StoredLen e < RawLen e + sealOverhead)).

(** Frames lie between the header and [limit] and no two overlap. *)
Definition frames_apart (limit : Z) (es : list Entry) : Prop :=
  (forall e, e ∈ es -> HeaderSize <= Offset e /\ ends e <= limit) /\
  forall a b, a ∈ es -> b ∈ es -> a <> b -> ends a <= Offset b \/ ends b <= Offset a.

Definition index_ok (limit : Z) (es : list Entry) : Prop :=
  zlen es <= MaxChunksPerPack /\ ksorted (fun e => hbytes (EHash e)) es /\ Forall lengths_ok es /\ frames_apart limit es /\ HeaderSize <= limit.

Definition encIndexEntry (e : Entry) : bytes :=
  hbytes (EHash e) ++ encUvarint (Offset e) ++ encUvarint (StoredLen e) ++ encUvarint (RawLen e) ++ encU8 (Codec e).

Lemma encodeEntries_enc es : forall w, foldl (fun w e =>
    wU8 (wUvarint (wUvarint (wUvarint (wRaw w (hbytes (EHash e))) (Offset e)) (StoredLen e)) (RawLen e)) (Codec e)) w es =
  w ++ flat_map encIndexEntry es.
Proof.
  induction es as [|e es IH]; intros w; cbn [foldl flat_map]; [by rewrite app_nil_r|]. rewrite IH. unfold encIndexEntry. wr_norm. by rewrite <-?app_assoc.
Qed.

Lemma packIndex_enc es : encodeIndex es = indexMagic ++ encU16 version ++ encUvarint (zlen es) ++ flat_map encIndexEntry es.
Proof. unfold encodeIndex. rewrite encodeEntries_enc. wr_norm. done. Qed.

#[export] Instance offset_le_total : Total offset_le.
Proof. intros a b. unfold offset_le. lia. Qed.
#[export] Instance offset_le_trans : Transitive offset_le.
Proof. intros a b c. unfold offset_le. lia. Qed.
#[export] Instance hash_le_total : Total hash_le.
Proof. intros a b. unfold hash_le. destruct (blt_trichotomy (hbytes (EHash a)) (hbytes (EHash b))) as [?|[->|?]]; [left|left|right]; border. Qed.
#[export] Instance hash_le_trans : Transitive hash_le.
Proof. intros a b c. unfold hash_le. border. Qed.

(** One frame after another. *)
Definition after (a b : Entry) : Prop := ends a <= Offset b.

Lemma sorted_pair {A} (R : A -> A -> Prop) l : StronglySorted R l -> forall a b, a ∈ l -> b ∈ l -> a <> b -> R a b \/ R b a.
Proof.
  induction 1 as [|x l Hl IH Hx]; [by intros a b ?%elem_of_nil|]. rewrite Forall_forall in Hx.
  intros a b [->|Ha]%elem_of_cons [->|Hb]%elem_of_cons Hne; [done|by auto|by auto|by auto].
Qed.

Lemma framesEnd_some l : forall h e, framesEnd h l = Some e -> Forall (fun x => 0 <= StoredLen x) l ->
  h <= e /\ Forall (fun x => h <= Offset x /\ ends x <= e) l /\ StronglySorted after l.
Proof.
  induction l as [|x l IH]; intros h e; cbn [framesEnd]; [intros [= ->] _; split_and!; [lia|constructor|constructor]|].
  destruct (Z.ltb_spec (Offset x) h) as [|Hx]; [done|]. intros He [Hs Hp]%Forall_cons. fold (ends x) in He.
  destruct (IH _ _ He Hp) as (H1 & H2 & H3). assert (Offset x <= ends x) by (unfold ends; lia). split_and!; [lia| |].
  - constructor; [lia|]. eapply Forall_impl; [exact H2|]. cbn. lia.
  - constructor; [done|]. eapply Forall_impl; [exact H2|]. cbn. unfold after. lia.
Qed.

Lemma framesEnd_laid l : StronglySorted after l -> forall h, Forall (fun x => h <= Offset x) l ->
  exists e, framesEnd h l = Some e /\ (e = h \/ exists x, x ∈ l /\ e = ends x).
Proof.
  induction 1 as [|x l Hl IH Hx]; intros h Hh; cbn [framesEnd]; [by eauto|]. apply Forall_cons in Hh as [Hhx Hh].
  rewrite (proj2 (Z.ltb_ge _ _)) by lia. fold (ends x). destruct (IH (ends x)) as (e & -> & He).
  - eapply Forall_impl; [exact Hx|]. done.
  - exists e. split; [done|]. right. destruct He as [->|(y & Hy & ->)]; [exists x|exists y]; set_solver.
Qed.

(** The check of [decodeIndex] is that frames are apart. *)
Lemma framesEnd_apart limit es : Forall lengths_ok es -> NoDup es -> HeaderSize <= limit ->
  (exists e, framesEnd HeaderSize (merge_sort offset_le es) = Some e /\ e <= limit) <-> frames_apart limit es.
Proof.
  intros Hl Hd Hlim. pose proof (merge_sort_Permutation offset_le es) as Hp. assert (Forall (fun x => 28 <= StoredLen x) es) as Hpos.
  { eapply Forall_impl; [exact Hl|]. intros x (_ & ? & _). unfold sealOverhead in *. lia. }
  split.
  - intros (e & He & Hle). apply framesEnd_some in He as (_ & Hb & Hs); [|rewrite Hp; eapply Forall_impl; [exact Hpos|]; cbn; lia].
    rewrite Forall_forall in Hb. split.
    + intros x Hx. rewrite <-Hp in Hx. apply Hb in Hx. lia.
    + intros a b Ha Hb' Hne. rewrite <-Hp in Ha, Hb'. by destruct (sorted_pair _ _ Hs a b Ha Hb' Hne); [left|right].
  - intros [Hin Hap]. assert (StronglySorted after (merge_sort offset_le es)) as Hs.
    { pose proof (StronglySorted_merge_sort offset_le es) as Hss. assert (NoDup (merge_sort offset_le es)) as Hnd by (by rewrite Hp).
      assert (forall x, x ∈ merge_sort offset_le es -> x ∈ es) as Hel by (intros x; by rewrite Hp). clear Hp.
      induction Hss as [|x l Hss IH Hx]; [constructor|]. apply NoDup_cons in Hnd as [Hxl Hnd]. constructor; [apply IH; set_solver|].
      rewrite Forall_forall in Hx |- *. intros y Hy. specialize (Hx y Hy). unfold offset_le in Hx. rewrite Forall_forall in Hpos.
      assert (x <> y) as Hne by set_solver. destruct (Hap x y) as [?|H2]; [set_solver..|done|done|]. unfold ends in H2.
      specialize (Hpos y ltac:(set_solver)). lia. }
    destruct (framesEnd_laid _ Hs HeaderSize) as (e & He & Hcase).
    + rewrite Hp. apply Forall_forall. intros x Hx. by apply Hin.
    + exists e. split; [done|]. destruct Hcase as [->|(x & Hx & ->)]; [done|]. rewrite Hp in Hx. by apply Hin.
Qed.

(** The check of both decoders that hashes increase. *)
Lemma snoc_sorted acc e :
  (match last acc with Some p => match Compare (EHash p) (EHash e) with Lt => false | _ => true end | None => false end) = false ->
  ksorted (fun e => hbytes (EHash e)) acc -> ksorted (fun e => hbytes (EHash e)) (acc ++ [e]).
Proof. apply (notAfter_snoc (fun e => hbytes (EHash e))). Qed.

Lemma last_sorted acc e es : ksorted (fun e => hbytes (EHash e)) (acc ++ e :: es) ->
  (match last acc with Some p => match Compare (EHash p) (EHash e) with Lt => false | _ => true end | None => false end) = false.
Proof. apply (notAfter_sorted (fun e => hbytes (EHash e))). Qed.

Lemma decodeEntries_bwd n limit : limit < two32 -> forall acc r es r' s,
  decodeEntries n limit acc r = Ok (es, r') -> at_ r s -> ksorted (fun e => hbytes (EHash e)) acc ->
  exists es0 s', es = acc ++ es0 /\ length es0 = n /\ s = flat_map encIndexEntry es0 ++ s' /\ at_ r' s' /\
    Forall lengths_ok es0 /\ Forall (fun e => 0 <= Offset e) es0 /\ ksorted (fun e => hbytes (EHash e)) es.
Proof.
  intros Hlim. induction n as [|n IH]; intros acc r es r' s Hd Ha Hs; cbn [decodeEntries] in Hd.
  - injection Hd as <- <-. exists [], s. rewrite app_nil_r. by split_and!.
  - rd_name Hd. destruct (bool_decide (rerr r4 <> None)) eqn:E5; [done|]. apply no_err_inv in E5.
    destruct (Z.ltb_spec v1 sealOverhead) as [|H1]; [done|]. destruct (Z.ltb_spec limit v0) as [|H2]; [done|]. cbn [orb] in Hd.
    destruct (Z.ltb_spec MaxChunkSize v2) as [|H3]; [done|].
    destruct ((v3 =? CodecRaw) && negb (v1 =? v2 + sealOverhead)) eqn:H4; [done|].
    destruct ((v3 =? CodecZstd) && (v2 <=? v1 - sealOverhead)) eqn:H5; [done|].
    destruct (negb (v3 =? CodecRaw) && negb (v3 =? CodecZstd)) eqn:H6; [done|].
    destruct (match last acc with Some p => _ | None => false end) eqn:H7; [done|]. rd_back.
    set (e := mkEntry v v0 v1 v2 v3). unfold CodecRaw, CodecZstd, MaxChunkSize, sealOverhead in *.
    assert (lengths_ok e) as Hent.
    { unfold lengths_ok, MaxChunkSize, sealOverhead, CodecRaw, CodecZstd, e. cbn. split; [lia|]. split; [lia|].
      revert H4 H5 H6. destruct (Z.eqb_spec v3 0), (Z.eqb_spec v3 1), (Z.eqb_spec v1 (v2 + 28)), (Z.leb_spec v2 (v1 - 28)); cbn; try discriminate; lia. }
    assert (u32 v0 = v0 /\ u32 v1 = v1 /\ u32 v2 = v2) as (U0 & U1 & U2).
    { destruct Hent as (Hr & Hst & Hc). cbn in *. unfold u32, two32, MaxChunkSize, sealOverhead in *. rewrite !Z.mod_small by lia. done. }
    rewrite U0, U1, U2 in Hd. fold e in Hd. destruct (IH _ _ _ _ _ Hd Ha) as (es0 & s' & -> & Hlen & -> & Ha' & Hf & Ho & Hss).
    { by apply (snoc_sorted acc e). }
    exists (e :: es0), s'. rewrite <-app_assoc in *. cbn [app] in *. split_and!; try done.
    + cbn. lia.
    + cbn [flat_map]. unfold encIndexEntry at 2. cbn. by rewrite <-!app_assoc.
    + by constructor.
    + constructor; [cbn; lia|done].
Qed.

Lemma decodeEntries_fwd limit es : Forall lengths_ok es -> Forall (fun e => 0 <= Offset e <= limit) es -> limit < two32 ->
  forall acc r s, ksorted (fun e => hbytes (EHash e)) (acc ++ es) -> at_ r (flat_map encIndexEntry es ++ s) ->
  exists r', decodeEntries (length es) limit acc r = Ok (acc ++ es, r') /\ at_ r' s.
Proof.
  intros Hl Ho Hlim. induction es as [|e es IH]; intros acc r s Hs Ha; cbn [decodeEntries length flat_map].
  - exists r. rewrite app_nil_r. done.
  - apply Forall_cons in Hl as [(Hr & Hst & Hc) Hl]. apply Forall_cons in Ho as [Hoe Ho]. cbn [flat_map] in Ha. unfold encIndexEntry in Ha at 1.
    rewrite <-!app_assoc in Ha. unfold MaxChunkSize, sealOverhead, CodecRaw, CodecZstd, two32 in *.
    do 5 rd_fwd. rewrite (at_no_err _ _ Ha). zbool.
    assert (u32 (Offset e) = Offset e /\ u32 (StoredLen e) = StoredLen e /\ u32 (RawLen e) = RawLen e) as (-> & -> & ->)
      by (unfold u32, two32; rewrite !Z.mod_small by lia; done).
    assert ((Codec e =? 0) && negb (StoredLen e =? RawLen e + 28) = false /\ (Codec e =? 1) && (RawLen e <=? StoredLen e - 28) = false /\
      negb (Codec e =? 0) && negb (Codec e =? 1) = false) as (-> & -> & ->).
    { destruct Hc as [[-> ->]|[-> ?]]; split_and!; cbn; try done; [by rewrite Z.eqb_refl|]. by rewrite (proj2 (Z.leb_gt _ _)) by lia. }
    rewrite (last_sorted acc e es Hs).
    assert (mkEntry (EHash e) (Offset e) (StoredLen e) (RawLen e) (Codec e) = e) as -> by (by destruct e).
    destruct (IH Hl Ho (acc ++ [e]) r4 s) as (r' & E & Ha'); [by rewrite <-app_assoc|exact Ha|].
    exists r'. by rewrite E, <-app_assoc.
Qed.

Lemma Forall_ends limit es : Forall lengths_ok es -> frames_apart limit es -> Forall (fun e => 0 <= Offset e <= limit) es.
Proof.
  intros Hl [Hin _]. rewrite Forall_forall in *. intros e He. destruct (Hl e He) as (_ & Hs & _). destruct (Hin e He) as [H1 H2].
  unfold HeaderSize, ends, sealOverhead in *. lia.
Qed.

Lemma hsorted_NoDup es : ksorted (fun e => hbytes (EHash e)) es -> NoDup es.
Proof. intros Hs%ksorted_NoDup. by apply NoDup_fmap_1 in Hs. Qed.

Lemma packIndex_bwd b limit es : HeaderSize <= limit < two32 -> decodeIndex b limit = Ok es -> b = encodeIndex es /\ index_ok limit es.
Proof.
  intros [Hh Hlim]. unfold decodeIndex. intros Hd. rd_name Hd. pose proof (at_new b) as Ha.
  destruct (bool_decide (rerr r1 <> None)) eqn:E2; [done|]. apply no_err_inv in E2. cbn [orb] in Hd.
  destruct (bool_decide (nilb v = indexMagic)) eqn:Em; [|done]. apply bool_decide_eq_true in Em. cbn [negb orb] in Hd.
  destruct (Z.eqb_spec v0 version) as [->|]; [|done]. destruct (Z.ltb_spec MaxChunksPerPack v1) as [|Hn]; [done|]. cbn [negb orb] in Hd.
  destruct (decodeEntries (Z.to_nat v1) limit [] r1) as [[es1 r2]|] eqn:E3; [|done].
  destruct (bool_decide (Done r2 <> None)) eqn:E4; [done|]. apply bool_decide_eq_false, dec_stable, Done_None in E4.
  destruct (framesEnd HeaderSize (merge_sort offset_le es1)) as [e|] eqn:E5; [|done]. destruct (Z.ltb_spec limit e) as [|He]; [done|]. injection Hd as ->.
  rd_back. destruct (decodeEntries_bwd _ _ Hlim _ _ _ _ _ E3 Ha) as (es0 & s' & -> & Hl & -> & Ha' & Hf & Ho & Hs); [constructor|].
  pose proof (at_functional _ _ _ E4 Ha') as <-. cbn [app nilb default] in *. subst. rewrite packIndex_enc, app_nil_r.
  replace (zlen es0) with v1 by lia. change (id x) with x in Em. split; [by rewrite Em|]. split_and!; [lia|done|done| |done].
  apply framesEnd_apart; [done|by apply hsorted_NoDup|done|by eauto].
Qed.

Lemma packIndex_fwd limit es : limit < two32 -> index_ok limit es -> decodeIndex (encodeIndex es) limit = Ok es.
Proof.
  intros Hlim (Hn & Hs & Hl & Hap & Hh). unfold decodeIndex. pose proof (at_new_nil (encodeIndex es)) as Ha. rewrite packIndex_enc in Ha at 2.
  rewrite <-!app_assoc in Ha. unfold MaxChunksPerPack, version in *. change (2 ^ 16) with 65536 in *.
  assert (zlen indexMagic = 4) as Hmg by reflexivity. do 3 rd_fwd. rewrite (at_no_err _ _ Ha). cbn [nilb default]. rewrite bool_decide_eq_true_2 by done. zbool.
  pose proof (Forall_ends _ _ Hl Hap) as Ho. rewrite Nat2Z.id.
  destruct (decodeEntries_fwd limit es Hl Ho Hlim [] _ _ Hs Ha) as (r' & -> & Ha'). cbn [app].
  rewrite (proj2 (Done_None r') Ha'). rewrite bool_decide_eq_false_2 by (intros Hx; by apply Hx).
  apply framesEnd_apart in Hap as (e & -> & He); [|done|by apply hsorted_NoDup|done]. by rewrite (proj2 (Z.ltb_ge _ _)) by lia.
Qed.

(** The pack index codec: within a pack whose index starts under 4 GiB,
    decoding accepts exactly the encodings of lists of at most 65,536 entries
    with strictly increasing hashes, lengths that agree with their codecs, and
    frames that lie between the header and the index without overlapping. *)
Theorem pack_index_codec b limit es : HeaderSize <= limit < two32 ->
  decodeIndex b limit = Ok es <-> b = encodeIndex es /\ index_ok limit es.
Proof. intros Hl. split; [by apply packIndex_bwd|]. intros [-> Hok]. apply packIndex_fwd; [lia|done]. Qed.

(** ** A writer holds a map from hash to chunk *)

(** Frames one after another from [off]. *)
Fixpoint laid (off : Z) (fs : list (Entry * bytes)) : Prop :=
  match fs with
  | [] => True
  | (e, s) :: fs => Offset e = off /\ StoredLen e = zlen s /\ laid (off + zlen s) fs
  end.

Definition frameBytes (fs : list (Entry * bytes)) : bytes := concat fs.*2.

Lemma frameBytes_cons e s fs : frameBytes ((e, s) :: fs) = s ++ frameBytes fs.
Proof. done. Qed.

Lemma frameBytes_app fs fs' : frameBytes (fs ++ fs') = frameBytes fs ++ frameBytes fs'.
Proof. unfold frameBytes. by rewrite fmap_app, concat_app. Qed.

Lemma laid_app fs : forall off fs', laid off (fs ++ fs') <-> laid off fs /\ laid (off + zlen (frameBytes fs)) fs'.
Proof.
  induction fs as [|[e s] fs IH]; intros off fs'; cbn [app laid]; [rewrite Z.add_0_r; tauto|].
  rewrite IH, frameBytes_cons, length_app, Nat2Z.inj_add, Z.add_assoc. tauto.
Qed.

Lemma laid_within fs : forall off e s, laid off fs -> (e, s) ∈ fs -> off <= Offset e /\ ends e <= off + zlen (frameBytes fs).
Proof.
  induction fs as [|[x t] fs IH]; intros off e s; [by intros _ ?%elem_of_nil|]. cbn [laid]. intros (Ho & Hs & Hl).
  rewrite frameBytes_cons, length_app, Nat2Z.inj_add. unfold ends. intros [[= -> ->]|Hi]%elem_of_cons; [lia|].
  destruct (IH _ _ _ Hl Hi). unfold ends in *. lia.
Qed.

Lemma laid_sorted fs : forall off, laid off fs -> StronglySorted after fs.*1.
Proof.
  induction fs as [|[x t] fs IH]; intros off; [constructor|]. cbn [laid]. intros (Ho & Hs & Hl). cbn. constructor; [by eapply IH|].
  apply Forall_forall. intros y ([y' s] & -> & Hy)%list_elem_of_fmap. destruct (laid_within _ _ _ _ Hl Hy) as [H1 _]. unfold after, ends. cbn. lia.
Qed.

Lemma go_slice_app (pre s post : bytes) lo hi : lo = zlen pre -> hi = lo + zlen s -> go_slice (pre ++ s ++ post) lo hi = Ok s.
Proof.
  intros -> ->. unfold go_slice. rewrite !length_app. zbool. replace (Z.to_nat (zlen pre + zlen s - zlen pre)) with (length s) by lia.
  by rewrite Nat2Z.id, drop_app_length, take_app_length.
Qed.

Lemma laid_slice fs : forall pre post e s, laid (zlen pre) fs -> (e, s) ∈ fs ->
  go_slice (pre ++ frameBytes fs ++ post) (Offset e) (ends e) = Ok s.
Proof.
  induction fs as [|[x t] fs IH]; intros pre post e s; [by intros _ ?%elem_of_nil|]. cbn [laid]. intros (Ho & Hs & Hl) Hi.
  rewrite frameBytes_cons, <-app_assoc. apply elem_of_cons in Hi as [Hi|Hi].
  - injection Hi as -> ->. apply go_slice_app; [done|]. unfold ends. lia.
  - rewrite app_assoc. apply IH; [|done]. by rewrite length_app, Nat2Z.inj_add.
Qed.

#[global] Arguments header : simpl never.

Section Writing.
Context {HH : Hasher} {HA : Aead} {HAO : @AeadOk HA} {HZ : Zstd} {HZO : @ZstdOk HZ}.
Context (kr : Keyring) (repo : RepoID).

Lemma OpenFrame_same ks ks' e s : same_key (kchunk ks) (kchunk ks') -> OpenFrame ks' e s = OpenFrame ks e s.
Proof. intros (Ha & Ht & Hd & Hd'). unfold OpenFrame, Open, aad. by rewrite Ha, Ht, Hd, Hd'. Qed.

Definition entryMap (fs : list (Entry * bytes)) : gmap hash Entry := list_to_map ((fun f => (EHash f.1, f.1)) <$> fs).

(** A frame of [σ]: its lengths agree, and it opens to the chunk. *)
Definition frame_ok (ks : Keys) (σ : gmap hash bytes) (f : Entry * bytes) : Prop :=
  lengths_ok f.1 /\ exists data, σ !! EHash f.1 = Some data /\ OpenFrame ks f.1 f.2 = Ok data.

Record held (w : Writer) (σ : gmap hash bytes) (ks : Keys) (fs : list (Entry * bytes)) : Prop := {
  h_open : wfinished w = false;
  h_derive : DeriveKeys kr repo (wsalt w) = Ok ks;
  h_chunk : same_key (kchunk ks) (kchunk (wkeys w));
  h_index : kindex (wkeys w) = kindex ks;
  h_buf : wbuf w = header (wsalt w) ++ frameBytes fs;
  h_laid : laid HeaderSize fs;
  h_order : worder w = (fun f => EHash f.1) <$> fs;
  h_entries : wentries w = entryMap fs;
  h_nodup : NoDup (worder w);
  h_frames : Forall (frame_ok ks σ) fs;
  h_dom h : is_Some (σ !! h) -> h ∈ worder w;
  h_count : zlen fs <= MaxChunksPerPack;
  h_max : HeaderSize + TrailerSize <= wmaxSize w <= MaxPackSize;
  h_one : zlen fs <= 1 -> zlen (wbuf w) <= HeaderSize + MaxChunkSize + sealOverhead;
  h_many : 1 < zlen fs -> Pack.Size w <= wmaxSize w;
}.

Definition holds (w : Writer) (σ : gmap hash bytes) : Prop := exists ks fs, held w σ ks fs.

Lemma derived_keys salt ks : DeriveKeys kr repo salt = Ok ks ->
  destroyed (kchunk ks) = false /\ destroyed (kindex ks) = false /\ seals (kindex ks) = 0 /\ limit (kindex ks) = MaxSealsPerKey.
Proof. unfold DeriveKeys, deriveKey. cbn. destruct (kr_destroyed kr); [done|]. by intros [= <-]. Qed.

Lemma header_length salt : zlen (header salt) = HeaderSize.
Proof. unfold header. wr_norm. rewrite !length_app, !length_encU16, hash_length. done. Qed.

Lemma NewWriter_ok salt maxSize expect w : NewWriterSized salt kr repo maxSize expect = Ok w -> holds w ∅.
Proof.
  unfold NewWriterSized. destruct (Z.ltb_spec maxSize (HeaderSize + TrailerSize)); [done|]. destruct (Z.ltb_spec MaxPackSize maxSize); [done|]. cbn [orb].
  destruct (DeriveKeys kr repo salt) as [ks|] eqn:Ek; [|done]. intros [= <-]. exists ks, []. destruct (derived_keys _ _ Ek) as (Hd & _).
  split; cbn; try done.
  - by rewrite app_nil_r.
  - constructor.
  - intros h [x Hx]. by rewrite lookup_empty in Hx.
  - intros _. rewrite header_length. done.
Qed.

Lemma held_keys fs : (entryMap fs : gmap hash Entry) = list_to_map ((fun f => (EHash f.1, f.1)) <$> fs).
Proof. done. Qed.

Lemma entryMap_lookup fs h e : NoDup ((fun f => EHash f.1) <$> fs) -> entryMap fs !! h = Some e <-> exists s, (e, s) ∈ fs /\ EHash e = h.
Proof.
  intros Hd. unfold entryMap. rewrite <-elem_of_list_to_map by (by rewrite <-list_fmap_compose). rewrite list_elem_of_fmap. split.
  - intros ([e' s] & [= -> ->] & Hi). eauto.
  - intros (s & Hi & <-). by exists (e, s).
Qed.

Lemma entryMap_size fs : NoDup ((fun f => EHash f.1) <$> fs) -> size (entryMap fs) = length fs.
Proof.
  intros Hd. unfold entryMap. rewrite <-size_dom, dom_list_to_map_L. rewrite <-list_fmap_compose. unfold compose. cbn.
  rewrite size_list_to_set by done. by rewrite length_fmap.
Qed.

Lemma held_count w σ ks fs : held w σ ks fs -> Count w = zlen fs.
Proof. intros H. unfold Count. rewrite (h_entries _ _ _ _ H), entryMap_size; [done|]. rewrite <-(h_order _ _ _ _ H). apply H. Qed.

Lemma held_has w σ ks fs h : held w σ ks fs -> Pack.Has w h = bool_decide (is_Some (σ !! h)).
Proof.
  intros H. unfold Pack.Has. apply bool_decide_ext. rewrite (h_entries _ _ _ _ H). pose proof (h_nodup _ _ _ _ H) as Hd. rewrite (h_order _ _ _ _ H) in Hd. split.
  - intros [e (s & Hi & <-)%entryMap_lookup]; [|done]. pose proof (h_frames _ _ _ _ H) as Hf. rewrite Forall_forall in Hf.
    destruct (Hf _ Hi) as (_ & d & Hσ & _). by eexists.
  - intros Hσ%(h_dom _ _ _ _ H). rewrite (h_order _ _ _ _ H), list_elem_of_fmap in Hσ. destruct Hσ as ([e s] & -> & Hi). exists e.
    apply entryMap_lookup; [done|]. eauto.
Qed.

Lemma Compress_ok data payload codec : zlen data <= MaxChunkSize -> Compress data = (payload, codec) ->
  (codec = CodecRaw /\ payload = data) \/ (codec = CodecZstd /\ zlen payload < zlen data /\ DecodeAll payload = Some data).
Proof.
  unfold Compress. intros Hl. destruct (zlen data <? RawBelow); [intros [= <- <-]; by left|].
  destruct (Z.ltb_spec (zlen (EncodeAll data)) (zlen data)); intros [= <- <-]; [right|by left]. split_and!; [done|done|by apply decode_encoded].
Qed.

(** What [Writer.Seal] leaves of a writer: the frames are as they were. *)
Lemma wSeal_held nonce h payload w r w' σ ks fs : wSeal nonce h payload w = (r, w') -> held w σ ks fs -> zlen nonce = NonceSize ->
  held w' σ ks fs /\ wbuf w' = wbuf w /\ wentries w' = wentries w /\ wfinished w' = wfinished w /\ wmaxSize w' = wmaxSize w /\
  forall sealed, r = Ok sealed -> zlen sealed = zlen payload + Overhead /\ Open (kchunk ks) (hbytes h) sealed = Ok payload.
Proof.
  unfold wSeal. destruct (Seal nonce (hbytes h) payload (kchunk (wkeys w))) as [r0 k] eqn:Es. intros [= <- <-] H Hn.
  pose proof (h_chunk _ _ _ _ H) as Hc. assert (same_key (kchunk ks) k /\ forall sealed, r0 = Ok sealed ->
    zlen sealed = zlen payload + Overhead /\ Open (kchunk ks) (hbytes h) sealed = Ok payload) as [Hk Hok].
  { destruct r0 as [sealed|e].
    - destruct (Seal_ok _ _ _ _ _ _ Hn Es) as (Hs & _ & _ & _ & Hl & Ho). destruct Hc as (C1 & C2 & C3 & C4), Hs as (S1 & S2 & S3 & S4).
      split; [unfold same_key; split_and!; congruence|]. intros x [= <-]. split; [done|]. apply Ho. unfold same_key. by split_and!.
    - apply Seal_err in Es as ->. done. }
  split_and!; try done. destruct H. split; try done.
Qed.

Lemma indexBound_pos n : 0 <= n -> 0 < indexBound n.
Proof. intros. unfold indexBound, maxEntryLen, sealOverhead. change (zlen indexMagic) with 4. lia. Qed.

Lemma held_small w σ ks fs : held w σ ks fs -> zlen (wbuf w) <= MaxPackSize.
Proof.
  intros H. destruct (h_max _ _ _ _ H) as [_ Hm]. pose proof (held_count _ _ _ _ H) as Hc.
  destruct (Z.le_gt_cases (zlen fs) 1) as [H1|H1].
  - pose proof (h_one _ _ _ _ H H1). unfold HeaderSize, MaxChunkSize, sealOverhead, MaxPackSize in *. lia.
  - pose proof (h_many _ _ _ _ H H1) as Hs. unfold Pack.Size, TrailerSize in Hs. pose proof (indexBound_pos (Count w)). lia.
Qed.

Lemma AddSealed_err h rawLen sealed codec w e w' : AddSealed h rawLen sealed codec w = (Err e, w') -> w' = w.
Proof.
  unfold AddSealed. destruct (wfinished w); [by intros [= _ <-]|]. destruct (_ <? _); [by intros [= _ <-]|].
  destruct (_ <=? _); [by intros [= _ <-]|]. case_bool_decide; [by intros [= _ <-]|]. destruct (_ && _); [by intros [= _ <-]|done].
Qed.

Lemma frame_ok_more ks σ h data f : σ !! h = None -> frame_ok ks σ f -> frame_ok ks (<[h := data]> σ) f.
Proof. intros Hn (Hl & d & Hd & Ho). split; [done|]. exists d. split; [|done]. rewrite lookup_insert_ne; [done|]. congruence. Qed.

Lemma AddSealed_held h data sealed codec w w' σ ks fs : held w σ ks fs ->
  (forall off, let e := mkEntry h off (zlen sealed) (zlen data) codec in lengths_ok e /\ OpenFrame ks e sealed = Ok data) ->
  AddSealed h (zlen data) sealed codec w = (Ok tt, w') ->
  σ !! h = None /\ exists e, held w' (<[h := data]> σ) ks (fs ++ [(e, sealed)]).
Proof.
  intros H Hfr. pose proof (held_count _ _ _ _ H) as Hc. pose proof (held_has w σ ks fs h H) as Hhas. pose proof (held_small _ _ _ _ H) as Hsm.
  unfold AddSealed. rewrite (h_open _ _ _ _ H). destruct (Z.ltb_spec MaxChunkSize (zlen data)) as [|Hd]; [done|].
  destruct (Z.leb_spec MaxChunksPerPack (Count w)) as [|Hcount]; [done|].
  unfold Pack.Has in Hhas. destruct (bool_decide (is_Some (wentries w !! h))) eqn:Eh; [done|]. symmetry in Hhas.
  apply bool_decide_eq_false in Hhas. apply eq_None_not_Some in Hhas.
  destruct ((0 <? Count w) && _) eqn:Efull; [done|]. intros [= <-]. split; [done|].
  destruct (Hfr (zlen (wbuf w))) as [Hlen Hopen]. set (e := mkEntry h (zlen (wbuf w)) (zlen sealed) (zlen data) codec) in *.
  assert (mkEntry h (u32 (zlen (wbuf w))) (u32 (zlen sealed)) (u32 (zlen data)) codec = e) as ->.
  { destruct Hlen as (Hr & Hst & Hcd). cbn in Hr, Hst, Hcd. unfold u32, e, two32, MaxChunkSize, MaxPackSize, sealOverhead in *. rewrite !Z.mod_small by lia. done. }
  assert (zlen sealed <= MaxChunkSize + sealOverhead) as Hsl by (destruct Hlen as (Hr & Hst & Hcd); cbn in *; lia).
  pose proof (h_buf _ _ _ _ H) as Hb. pose proof (h_order _ _ _ _ H) as Ho. pose proof (header_length (wsalt w)) as Hhl.
  assert (h ∉ worder w) as Hnew.
  { intros Hi. apply bool_decide_eq_false in Eh. apply Eh. rewrite Ho, list_elem_of_fmap in Hi. destruct Hi as ([x s] & -> & Hi). exists x.
    rewrite (h_entries _ _ _ _ H). apply entryMap_lookup; [rewrite <-Ho; apply H|eauto]. }
  exists e. split; cbn [wfinished wsalt wkeys wbuf worder wentries wmaxSize]; [reflexivity|by apply H|by apply H|by apply H| | | | | | | | |by apply H| |].
  - rewrite Hb, frameBytes_app, <-app_assoc. unfold frameBytes at 3. cbn. by rewrite app_nil_r.
  - apply laid_app. split; [apply H|]. cbn. split_and!; try done. rewrite Hb, length_app. lia.
  - rewrite Ho, fmap_app. done.
  - rewrite (h_entries _ _ _ _ H). unfold entryMap. rewrite fmap_app. cbn [fmap list_fmap fst snd EHash e].
    rewrite list_to_map_snoc; [done|]. rewrite <-list_fmap_compose. rewrite Ho in Hnew. exact Hnew.
  - apply NoDup_app. split_and!; [apply H| |apply NoDup_singleton]. intros x Hx ->%list_elem_of_singleton. done.
  - apply Forall_app. split.
    + eapply Forall_impl; [apply H|]. intros f. by apply frame_ok_more.
    + constructor; [|done]. split; [done|]. exists data. split; [apply lookup_insert_eq|done].
  - intros x. rewrite lookup_insert. case_decide as Hx; [intros _; subst; set_solver|]. intros Hi%(h_dom _ _ _ _ H). set_solver.
  - rewrite length_app. cbn. lia.
  - rewrite length_app. cbn. intros H1. assert (fs = []) as -> by (destruct fs; [done|cbn in H1; lia]).
    rewrite Hb. unfold frameBytes. cbn. rewrite app_nil_r, length_app. lia.
  - rewrite length_app. cbn [length]. intros H1. rewrite Hc in Efull. rewrite (proj2 (Z.ltb_lt 0 (zlen fs))) in Efull by lia. cbn in Efull.
    apply Z.ltb_ge in Efull. unfold Pack.Size, Count. cbn [wentries wbuf].
    rewrite map_size_insert_None by (apply bool_decide_eq_false, eq_None_not_Some in Eh; done).
    unfold Count in Hc. rewrite length_app. replace (Z.of_nat (S (size (wentries w)))) with (zlen fs + 1) by lia. lia.
Qed.

(** Adding a chunk under its own hash. *)
Lemma Add_held nonce data w r w' σ : holds w σ -> zlen nonce = NonceSize -> Add nonce (Sum data) data w = (r, w') ->
  match r with
  | Ok _ => holds w' (<[Sum data := data]> σ) /\ σ !! Sum data = None
  | Err _ => holds w' σ
  end.
Proof.
  intros (ks & fs & H) Hn. unfold Add. destruct (wfinished w || (MaxChunkSize <? zlen data) || (MaxChunksPerPack <=? Count w)) eqn:Eg.
  - unfold AddCompressed. rewrite Eg. unfold AddSealed. rewrite (h_open _ _ _ _ H) in *. cbn [orb] in Eg.
    destruct (MaxChunkSize <? zlen data); [intros [= <- <-]; by exists ks, fs|]. destruct (MaxChunksPerPack <=? Count w); [|done].
    intros [= <- <-]. by exists ks, fs.
  - destruct (Compress data) as [payload codec] eqn:Ec. unfold AddCompressed. rewrite Eg. apply orb_false_iff in Eg as [[_ Hd%Z.ltb_ge]%orb_false_iff _].
    unfold mbind, M_bind. destruct (wSeal nonce (Sum data) payload w) as [[sealed|e] w1] eqn:Es.
    + destruct (wSeal_held _ _ _ _ _ _ _ _ _ Es H Hn) as (H1 & _ & _ & _ & _ & Hs). destruct (Hs sealed eq_refl) as [Hl Ho].
      destruct (AddSealed (Sum data) (zlen data) sealed codec w1) as [[[]|e] w2] eqn:Ea.
      * intros [= <- <-]. destruct (AddSealed_held (Sum data) data sealed codec w1 w2 σ ks fs H1) as (Hnone & e & H2); [|exact Ea|split; [by eexists _, _|done]].
        intros off e. unfold lengths_ok, OpenFrame, e, Overhead, MaxChunkSize, sealOverhead in *. cbn [EHash Offset StoredLen RawLen Codec].
        rewrite Z.eqb_refl. cbn [negb]. rewrite Ho. pose proof (Compress_ok data payload codec Hd Ec) as Hco.
        unfold CodecRaw, CodecZstd in *. destruct Hco as [[-> ->]|(-> & Hsh & Hdec)].
        -- split; [lia|]. cbn. by rewrite Z.eqb_refl, bool_decide_eq_true_2.
        -- split; [lia|]. cbn. rewrite Hdec. rewrite (proj2 (Z.ltb_ge _ _)) by lia. cbn. by rewrite Z.eqb_refl, bool_decide_eq_true_2.
      * intros [= <- <-]. apply AddSealed_err in Ea as ->. by exists ks, fs.
    + intros [= <- <-]. destruct (wSeal_held _ _ _ _ _ _ _ _ _ Es H Hn) as (H1 & _). by exists ks, fs.
Qed.

Lemma held_frame w σ ks fs post e s : held w σ ks fs -> (e, s) ∈ fs -> frameOf (wbuf w ++ post) e = Ok s.
Proof.
  intros H Hi. unfold frameOf. rewrite (h_buf _ _ _ _ H), <-app_assoc. pose proof (h_laid _ _ _ _ H) as Hl. rewrite <-(header_length (wsalt w)) in Hl.
  assert (u32 (Offset e + StoredLen e) = ends e) as ->; [|by apply laid_slice].
  pose proof (held_small _ _ _ _ H) as Hs. rewrite (h_buf _ _ _ _ H), length_app in Hs. destruct (laid_within _ _ _ _ Hl Hi) as [H1 H2].
  pose proof (h_frames _ _ _ _ H) as Hf. rewrite Forall_forall in Hf. destruct (Hf _ Hi) as [(_ & Hst & _) _]. cbn in Hst.
  unfold u32, ends, two32, MaxPackSize, sealOverhead in *. apply Z.mod_small. lia.
Qed.

(** [Writer.Get] reads the map. *)
Lemma wGet_held w σ h : holds w σ -> wGet w h = Ok <$> σ !! h.
Proof.
  intros (ks & fs & H). pose proof (held_has w σ ks fs h H) as Hh. unfold Pack.Has, wGet in *. destruct (wentries w !! h) as [e|] eqn:Ee.
  - rewrite (h_entries _ _ _ _ H) in Ee. apply entryMap_lookup in Ee as (s & Hi & <-); [|rewrite <-(h_order _ _ _ _ H); apply H].
    pose proof (h_frames _ _ _ _ H) as Hf. rewrite Forall_forall in Hf. destruct (Hf _ Hi) as (_ & d & Hd & Ho). cbn [fst] in Hd. rewrite Hd. cbn. f_equal.
    pose proof (held_frame _ _ _ _ [] _ _ H Hi) as Hs. rewrite app_nil_r in Hs. rewrite Hs. cbn.
    rewrite (OpenFrame_same ks) by apply H. exact Ho.
  - rewrite bool_decide_eq_false_2 in Hh by (by intros [? ?]). symmetry in Hh. apply bool_decide_eq_false, eq_None_not_Some in Hh. by rewrite Hh.
Qed.

(** ** The size of the index *)

Lemma encUvarint_5 v : 0 <= v < two32 -> zlen (encUvarint v) <= 5.
Proof.
  intros Hv. rewrite length_encUvarint_exact by (unfold two64, two32 in *; lia). rewrite Z.log2_lor by lia. cbn [Z.log2].
  assert (Z.log2 v < 32). { destruct (decide (v = 0)) as [->|]; [done|]. apply Z.log2_lt_pow2; [lia|]. exact (proj2 Hv). }
  apply Z.lt_succ_r, Z.div_lt_upper_bound; lia.
Qed.

Lemma encIndexEntry_max limit e : limit < two32 -> lengths_ok e -> 0 <= Offset e <= limit -> zlen (encIndexEntry e) <= maxEntryLen.
Proof.
  intros Hlim (Hr & Hs & Hc) Ho. unfold encIndexEntry, maxEntryLen. rewrite !length_app, hash_length, length_encU8.
  unfold MaxChunkSize, sealOverhead in *.
  pose proof (encUvarint_5 (Offset e) ltac:(lia)). pose proof (encUvarint_5 (StoredLen e) ltac:(unfold two32; lia)).
  pose proof (encUvarint_5 (RawLen e) ltac:(unfold two32; lia)). lia.
Qed.

Lemma encodeIndex_max limit es : limit < two32 -> Forall lengths_ok es -> Forall (fun e => 0 <= Offset e <= limit) es -> zlen es < two32 ->
  zlen (encodeIndex es) + sealOverhead <= indexBound (zlen es).
Proof.
  intros Hlim Hl Ho Hn. rewrite packIndex_enc, !length_app, length_encU16. unfold indexBound. pose proof (encUvarint_5 (zlen es) ltac:(lia)).
  assert (zlen (flat_map encIndexEntry es) <= zlen es * maxEntryLen); [|lia]. clear Hn H.
  induction es as [|e es IH]; [done|]. apply Forall_cons in Hl as [Hle Hl], Ho as [Hoe Ho]. cbn [flat_map length].
  rewrite length_app. pose proof (encIndexEntry_max limit e Hlim Hle Hoe). specialize (IH Hl Ho). lia.
Qed.

(** ** Finishing *)

Lemma sorted_strict l : StronglySorted hash_le l -> NoDup (EHash <$> l) -> ksorted (fun e => hbytes (EHash e)) l.
Proof.
  induction 1 as [|x l Hl IH Hx]; [constructor|]. cbn. intros [Hn Hd]%NoDup_cons. apply ksorted_cons. split; [|by apply IH].
  rewrite Forall_forall in Hx |- *. intros y Hy. specialize (Hx y Hy). unfold hash_le in Hx. apply ble_lteq in Hx as [?|E]; [done|].
  exfalso. apply Hn. apply hash_eq in E. rewrite E. by apply list_elem_of_fmap_2.
Qed.

Definition indexOf (w : Writer) : list Entry := merge_sort hash_le (map_to_list (wentries w)).*2.

Lemma indexOf_elem w σ ks fs e : held w σ ks fs -> e ∈ indexOf w <-> exists s, (e, s) ∈ fs.
Proof.
  intros H. unfold indexOf. rewrite (merge_sort_Permutation hash_le), list_elem_of_fmap. pose proof (h_nodup _ _ _ _ H) as Hd. rewrite (h_order _ _ _ _ H) in Hd. split.
  - intros ([h e'] & -> & Hi%elem_of_map_to_list). rewrite (h_entries _ _ _ _ H) in Hi. apply entryMap_lookup in Hi as (s & Hi & _); eauto.
  - intros (s & Hi). exists (EHash e, e). split; [done|]. apply elem_of_map_to_list. rewrite (h_entries _ _ _ _ H). apply entryMap_lookup; eauto.
Qed.

Lemma indexOf_length w σ ks fs : held w σ ks fs -> zlen (indexOf w) = zlen fs.
Proof.
  intros H. unfold indexOf. rewrite (Permutation_length (merge_sort_Permutation hash_le _)), length_fmap, length_map_to_list.
  apply (held_count _ _ _ _ H).
Qed.

Lemma indexOf_ok w σ ks fs : held w σ ks fs -> index_ok (zlen (wbuf w)) (indexOf w).
Proof.
  intros H. pose proof (h_frames _ _ _ _ H) as Hf. rewrite Forall_forall in Hf. pose proof (h_laid _ _ _ _ H) as Hl.
  pose proof (header_length (wsalt w)) as Hh. split_and!.
  - rewrite (indexOf_length _ _ _ _ H). apply H.
  - apply sorted_strict; [apply StronglySorted_merge_sort; apply _|]. unfold indexOf. rewrite (merge_sort_Permutation hash_le).
    assert (EHash <$> (map_to_list (wentries w)).*2 = (map_to_list (wentries w)).*1) as ->; [|apply NoDup_fst_map_to_list].
    rewrite <-!list_fmap_compose. apply list_fmap_ext. intros i [h e] Hi. cbn. apply list_elem_of_lookup_2, elem_of_map_to_list in Hi.
    rewrite (h_entries _ _ _ _ H) in Hi. apply entryMap_lookup in Hi as (s & _ & <-); [done|]. rewrite <-(h_order _ _ _ _ H). apply H.
  - apply Forall_forall. intros e (s & Hi)%(indexOf_elem _ _ _ _ _ H). by destruct (Hf _ Hi).
  - split.
    + intros e (s & Hi)%(indexOf_elem _ _ _ _ _ H). rewrite (h_buf _ _ _ _ H), length_app. pose proof (laid_within _ _ _ _ Hl Hi). lia.
    + intros a b (s & Ha)%(indexOf_elem _ _ _ _ _ H) (t & Hb)%(indexOf_elem _ _ _ _ _ H) Hne.
      eapply (sorted_pair after fs.*1); [by eapply laid_sorted| | |done]; apply list_elem_of_fmap; by eexists (_, _).
  - rewrite (h_buf _ _ _ _ H), length_app. lia.
Qed.

Lemma header_enc salt : header salt = headerMagic ++ encU16 version ++ encU16 0 ++ hbytes salt ++ [].
Proof. unfold header. wr_norm. by rewrite app_nil_r. Qed.

(** What [ReadInfo] makes of bytes with this header, index and trailer. *)
Lemma ReadInfo_parts salt ks frames sealed plain es b : DeriveKeys kr repo salt = Ok ks ->
  b = header salt ++ frames ++ sealed ++ encU64 (HeaderSize + zlen frames) ++ encU32 (zlen sealed) ++ trailerMagic ->
  HeaderSize + zlen frames < two32 -> zlen sealed < two32 -> Open (kindex ks) (header salt) sealed = Ok plain ->
  decodeIndex plain (HeaderSize + zlen frames) = Ok es ->
  ReadInfo (Name b) b kr repo = Ok (mkInfo (Name b) salt (zlen b) es).
Proof.
  intros Hk Hb Hf Hs Ho Hd. pose proof (header_length salt) as Hh.
  assert (zlen b = HeaderSize + zlen frames + zlen sealed + TrailerSize) as Hlen.
  { rewrite Hb, !length_app, length_encU64, length_encU32. unfold TrailerSize. change (length trailerMagic) with 4%nat. lia. }
  unfold ReadInfo. unfold HeaderSize, TrailerSize, two32 in *.
  rewrite (proj2 (Z.ltb_ge _ _)) by lia. rewrite bool_decide_eq_true_2 by done. cbn [negb].
  assert (take (Z.to_nat 40) b = header salt) as Etake by (rewrite Hb, take_app_length' by lia; done). rewrite Etake.
  pose proof (at_new (header salt)) as Ha. rewrite header_enc in Ha at 2. assert (zlen headerMagic = 4) by reflexivity.
  unfold version in *. do 4 rd_fwd. rewrite (proj2 (Done_None _) Ha). cbn [nilb default].
  rewrite bool_decide_eq_false_2 by (intros Hx; by apply Hx). rewrite bool_decide_eq_true_2 by done. cbn [negb orb Z.eqb].
  assert (drop (length b - Z.to_nat 16) b = encU64 (40 + zlen frames) ++ encU32 (zlen sealed) ++ trailerMagic) as ->.
  { rewrite Hb. rewrite !app_assoc, <-(app_assoc _ _ trailerMagic), <-(app_assoc _ (encU64 _)).
    rewrite drop_app_length'; [done|]. rewrite !length_app, length_encU64, length_encU32. change (length trailerMagic) with 4%nat. lia. }
  pose proof (at_new (encU64 (40 + zlen frames) ++ encU32 (zlen sealed) ++ trailerMagic)) as Ht. rewrite <-(app_nil_r trailerMagic) in Ht at 2.
  assert (zlen trailerMagic = 4) by reflexivity. do 3 rd_fwd. rewrite (proj2 (Done_None _) Ht). cbn [nilb default].
  rewrite bool_decide_eq_false_2 by (intros Hx; by apply Hx). rewrite bool_decide_eq_true_2 by done. cbn [negb orb].
  rewrite (proj2 (Z.ltb_ge _ _)) by lia. cbn [orb]. rewrite (u64_small (40 + zlen frames + zlen sealed + 16)) by (unfold two64; lia).
  rewrite (proj2 (Z.eqb_eq _ _)) by lia. cbn [negb]. rewrite Hk. cbn [mbind res_bind].
  rewrite (u64_small (40 + zlen frames + zlen sealed)) by (unfold two64; lia).
  assert (go_slice b (40 + zlen frames) (40 + zlen frames + zlen sealed) = Ok sealed) as ->.
  { rewrite Hb, app_assoc. apply go_slice_app; [rewrite length_app; lia|done]. }
  cbn [mbind res_bind]. rewrite Ho, Hd. done.
Qed.

Lemma Finish_held nonce w σ ks fs : held w σ ks fs -> zlen nonce = NonceSize ->
  exists b w', Finish nonce w = (Ok b, w') /\ wfinished w' = true /\ BName b = Name (BBytes b) /\ IEntries (BInfo b) = indexOf w /\ ISalt (BInfo b) = wsalt w /\
    ReadInfo (BName b) (BBytes b) kr repo = Ok (BInfo b) /\ (exists post, BBytes b = wbuf w ++ post) /\
    zlen (BBytes b) <= Pack.Size w /\ IName (BInfo b) = BName b /\ ISize (BInfo b) = zlen (BBytes b) /\
    zlen (BBytes b) = zlen (wbuf w) + (zlen (encodeIndex (indexOf w)) + sealOverhead) + TrailerSize.
Proof.
  intros H Hn. unfold Finish. rewrite (h_open _ _ _ _ H). cbn [wbuf wkeys wentries wsalt]. fold (indexOf w).
  pose proof (indexOf_ok _ _ _ _ H) as Hok. pose proof (held_small _ _ _ _ H) as Hsm. pose proof (indexOf_length _ _ _ _ H) as Hil.
  destruct (derived_keys _ _ (h_derive _ _ _ _ H)) as (_ & Hd & Hs0 & Hlim). rewrite (h_index _ _ _ _ H).
  assert (take (Z.to_nat HeaderSize) (wbuf w) = header (wsalt w)) as ->.
  { rewrite (h_buf _ _ _ _ H), take_app_length'; [done|]. pose proof (header_length (wsalt w)). lia. }
  destruct (Seal_total nonce (header (wsalt w)) (encodeIndex (indexOf w)) (kindex ks) Hd) as (sealed & k & Es).
  { rewrite Hs0, Hlim. done. }
  rewrite Es. destruct (Seal_ok _ _ _ _ _ _ Hn Es) as (_ & _ & _ & _ & Hl & Ho).
  assert (zlen sealed <= indexBound (Count w)) as Hsl.
  { rewrite Hl, (held_count _ _ _ _ H), <-Hil. pose proof Hok as (Hc & _ & Hlen & Hap & _). unfold Overhead, MaxPackSize, MaxChunksPerPack in *.
    pose proof (encodeIndex_max (zlen (wbuf w)) (indexOf w) ltac:(unfold two32; lia) Hlen (Forall_ends _ _ Hlen Hap) ltac:(unfold two32; lia)).
    unfold sealOverhead in *. lia. }
  assert (zlen sealed < two32) as Hs32.
  { pose proof (h_count _ _ _ _ H). rewrite (held_count _ _ _ _ H) in Hsl. unfold indexBound, maxEntryLen, MaxChunksPerPack, sealOverhead, two32 in *.
    change (zlen indexMagic) with 4 in Hsl. lia. }
  assert (u32 (zlen sealed) = zlen sealed) as -> by (apply Z.mod_small; lia).
  eexists _, _. split; [reflexivity|]. cbn [wfinished BName BBytes BInfo IEntries ISalt IName ISize]. split_and!; [done..| |by eexists| |done|done|].
  - assert (zlen (wbuf w) = HeaderSize + zlen (frameBytes fs)) as Hb.
    { pose proof (header_length (wsalt w)). rewrite (h_buf _ _ _ _ H), length_app. lia. }
    rewrite Hb. eapply (ReadInfo_parts _ _ (frameBytes fs) sealed); [apply H| | |done| |].
    + rewrite (h_buf _ _ _ _ H), <-app_assoc. done.
    + rewrite <-Hb. unfold MaxPackSize, two32 in *. lia.
    + apply Ho. unfold same_key. done.
    + rewrite <-Hb. apply packIndex_fwd; [unfold MaxPackSize, two32 in *; lia|done].
  - rewrite !length_app, length_encU64, length_encU32. unfold Pack.Size, TrailerSize. change (length trailerMagic) with 4%nat. lia.
  - rewrite !length_app, length_encU64, length_encU32. unfold TrailerSize, sealOverhead, Overhead in *. change (length trailerMagic) with 4%nat. lia.
Qed.

(** C15. A pack refines a finite map from hash to chunk. A new writer holds the
    empty map; adding a chunk under its hash extends the map or, refused,
    leaves it; [Get] reads it. Finishing always succeeds: the bytes parse back
    to the entries the writer reports, with the pack's keys every chunk of the
    map is read from its frame alone, exactly the map's hashes are listed, and
    a pack of more than one chunk is within its size limit. *)
Theorem pack_refines_a_map :
  (forall salt maxSize expect w, NewWriterSized salt kr repo maxSize expect = Ok w -> holds w ∅) /\
  (forall nonce data w r w' σ, holds w σ -> zlen nonce = NonceSize -> Add nonce (Sum data) data w = (r, w') ->
    match r with Ok _ => holds w' (<[Sum data := data]> σ) /\ σ !! Sum data = None | Err _ => holds w' σ end) /\
  (forall w σ h, holds w σ -> wGet w h = Ok <$> σ !! h) /\
  (forall nonce w σ, holds w σ -> zlen nonce = NonceSize ->
    exists b w' ks, Finish nonce w = (Ok b, w') /\ ReadInfo (BName b) (BBytes b) kr repo = Ok (BInfo b) /\
      DeriveKeys kr repo (ISalt (BInfo b)) = Ok ks /\
      (forall h data, σ !! h = Some data -> exists e frame, e ∈ IEntries (BInfo b) /\ EHash e = h /\
        frameOf (BBytes b) e = Ok frame /\ OpenFrame ks e frame = Ok data) /\
      (forall e, e ∈ IEntries (BInfo b) -> is_Some (σ !! EHash e)) /\
      (1 < Count w -> zlen (BBytes b) <= wmaxSize w)).
Proof.
  split; [exact NewWriter_ok|]. split; [intros nonce data w r w' σ; apply Add_held|]. split; [exact wGet_held|].
  intros nonce w σ (ks & fs & H) Hn. destruct (Finish_held nonce w σ ks fs H Hn) as (b & w' & Hf & _ & _ & He & Hsalt & Hr & (post & Hb) & Hsz & _).
  pose proof (h_frames _ _ _ _ H) as Hfr. rewrite Forall_forall in Hfr.
  exists b, w', ks. split_and!; [done|done|rewrite Hsalt; apply H| | |].
  - intros h data Hd. pose proof (h_dom _ _ _ _ H h ltac:(eauto)) as Hi. rewrite (h_order _ _ _ _ H) in Hi.
    apply list_elem_of_fmap in Hi as ([e s] & -> & Hi). cbn [fst] in *. exists e, s. rewrite He, Hb. split_and!; [|done|by eapply held_frame|].
    + apply (indexOf_elem _ _ _ _ _ H). eauto.
    + destruct (Hfr _ Hi) as (_ & d & Hd' & Ho). cbn in *. congruence.
  - intros e. rewrite He. intros (s & Hi)%(indexOf_elem _ _ _ _ _ H). destruct (Hfr _ Hi) as (_ & d & Hd & _). by eexists.
  - intros Hc. rewrite (held_count _ _ _ _ H) in Hc. pose proof (h_many _ _ _ _ H Hc). lia.
Qed.
End Writing.

(** ** Packs that do not read *)

Section Malformed.
Context `{Hasher} `{Aead} (kr : Keyring) (repo : RepoID).

(** Bytes with a header and a trailer that [ReadInfo] accepts: the magics, an
    index that starts behind the header and, in 64 bits, ends at the trailer. *)
Definition laid_out (b : bytes) (salt : Salt) (off n : Z) : Prop :=
  (exists mid, b = header salt ++ mid ++ encU64 off ++ encU32 n ++ trailerMagic) /\
  HeaderSize <= off < two64 /\ 0 <= n < two32 /\ u64 (off + n + TrailerSize) = zlen b.

(** What is made of the index then. *)
Definition readIndex (b : bytes) (salt : Salt) (off n : Z) : res Info :=
  keys ← DeriveKeys kr repo salt;
  sealed ← go_slice b off (u64 (off + n));
  match Open (kindex keys) (take (Z.to_nat HeaderSize) b) sealed with
  | Err _ => Err PackCorrupt
  | Ok plain =>
      entries ← decodeIndex plain off;
      Ok (mkInfo (Name b) salt (zlen b) entries)
  end.

Lemma trailer_length off n : length (encU64 off ++ encU32 n ++ trailerMagic) = 16%nat.
Proof. by rewrite !length_app, length_encU64, length_encU32. Qed.

Lemma laid_out_length b salt off n : laid_out b salt off n -> HeaderSize + TrailerSize <= zlen b.
Proof.
  intros ((mid & ->) & _). pose proof (header_length salt) as Hh. rewrite length_app, (length_app mid), trailer_length. unfold TrailerSize. lia.
Qed.

Lemma ReadInfo_laid_out b salt off n : laid_out b salt off n -> ReadInfo (Name b) b kr repo = readIndex b salt off n.
Proof.
  intros Hl. pose proof (laid_out_length _ _ _ _ Hl) as Hlen. destruct Hl as ((mid & Eb) & Hoff & Hn & Hsum).
  pose proof (header_length salt) as Hh. unfold ReadInfo.
  rewrite (proj2 (Z.ltb_ge _ _)) by lia. rewrite bool_decide_eq_true_2 by done. cbn [negb].
  assert (take (Z.to_nat HeaderSize) b = header salt) as Et by (rewrite Eb; unfold HeaderSize in *; rewrite take_app_length' by lia; done).
  rewrite Et at 1.
  pose proof (at_new (header salt)) as Ha. rewrite header_enc in Ha at 2. assert (zlen headerMagic = 4) by reflexivity.
  unfold version in *. do 4 rd_fwd. rewrite (proj2 (Done_None _) Ha). cbn [nilb default].
  rewrite bool_decide_eq_false_2 by (intros Hx; by apply Hx). rewrite bool_decide_eq_true_2 by done. cbn [negb orb Z.eqb].
  assert (drop (length b - Z.to_nat TrailerSize) b = encU64 off ++ encU32 n ++ trailerMagic) as ->.
  { rewrite Eb, (app_assoc (header salt)). rewrite drop_app_length'; [done|]. rewrite length_app, trailer_length. unfold TrailerSize. lia. }
  pose proof (at_new (encU64 off ++ encU32 n ++ trailerMagic)) as Ht. rewrite <-(app_nil_r trailerMagic) in Ht at 2.
  assert (zlen trailerMagic = 4) by reflexivity. unfold HeaderSize, two32, two64 in *. do 3 rd_fwd. rewrite (proj2 (Done_None _) Ht). cbn [nilb default].
  rewrite bool_decide_eq_false_2 by (intros Hx; by apply Hx). rewrite bool_decide_eq_true_2 by done. cbn [negb orb].
  rewrite (proj2 (Z.ltb_ge off _)), (proj2 (Z.eqb_eq _ _) Hsum) by lia. cbn [orb negb]. unfold readIndex, HeaderSize. by rewrite Et.
Qed.

(** A pack with none is reported as corrupt. *)
Lemma ReadInfo_accepts name b r : ReadInfo name b kr repo = r -> r <> Err PackCorrupt -> name = Name b /\ exists salt off n, laid_out b salt off n.
Proof.
  unfold ReadInfo. destruct (Z.ltb_spec (zlen b) (HeaderSize + TrailerSize)) as [|Hlen]; [congruence|].
  case_bool_decide as Hname; cbn [negb]; [|congruence]. intros E Hr. split; [done|].
  pose proof (at_new (take (Z.to_nat HeaderSize) b)) as Ha. pose proof (at_new (drop (length b - Z.to_nat TrailerSize) b)) as Ht.
  remember (NewReader (take (Z.to_nat HeaderSize) b)) as rh eqn:Erh. remember (NewReader (drop (length b - Z.to_nat TrailerSize) b)) as rt eqn:Ert.
  remember (take (Z.to_nat HeaderSize) b) as hb eqn:Ehb. remember (drop (length b - Z.to_nat TrailerSize) b) as tb eqn:Etb. clear Erh Ert.
  destruct (Fixed 4 rh) as [magic r1] eqn:E1. destruct (U16 r1) as [v r2] eqn:E2. destruct (U16 r2) as [flags r3] eqn:E3. destruct (readHash r3) as [salt r4] eqn:E4.
  destruct (bool_decide (Done r4 <> None)) eqn:Hd; [cbn in E; congruence|]. apply bool_decide_eq_false, dec_stable in Hd. pose proof (Done_err _ Hd) as He4.
  destruct (bool_decide (nilb magic = headerMagic)) eqn:Hm; [|cbn in E; congruence]. apply bool_decide_eq_true in Hm.
  destruct (Z.eqb_spec v version) as [->|]; [|cbn in E; congruence]. destruct (Z.eqb_spec flags 0) as [->|]; [|cbn in E; congruence]. cbn [orb negb] in E.
  destruct (U64 rt) as [off r5] eqn:E5. destruct (U32 r5) as [n r6] eqn:E6. destruct (Fixed 4 r6) as [tmagic r7] eqn:E7.
  destruct (bool_decide (Done r7 <> None)) eqn:Hd7; [cbn in E; congruence|]. apply bool_decide_eq_false, dec_stable in Hd7. pose proof (Done_err _ Hd7) as He7.
  destruct (bool_decide (nilb tmagic = trailerMagic)) eqn:Htm; [|cbn in E; congruence]. apply bool_decide_eq_true in Htm.
  destruct (Z.ltb_spec off HeaderSize); [cbn in E; congruence|]. destruct (Z.eqb_spec (u64 (off + n + TrailerSize)) (zlen b)) as [Hsum|]; [|cbn in E; congruence]. clear E.
  rd_back. simpl nilb in Hm, Htm. subst x x0. apply Done_None in Hd as (_ & _ & Hd), Hd7 as (_ & _ & Hd7).
  destruct Ha as (_ & _ & Ha), Ht as (_ & _ & Ht). assert (x3 = []) as -> by congruence. assert (x1 = []) as -> by congruence.
  exists salt, off, n. split_and!; [|lia..|done]. unfold HeaderSize, TrailerSize in *.
  exists (take (length b - 56) (drop 40 b)). rewrite header_enc, Ehb. rewrite <-(app_nil_r trailerMagic), Etb.
  rewrite <-(take_drop 40 b) at 1. f_equal. rewrite <-(take_drop (length b - 56) (drop 40 b)) at 1. f_equal. rewrite drop_drop. f_equal. lia.
Qed.

Lemma decodeEntries_err k off : forall acc r e, decodeEntries k off acc r = Err e -> e = PackCorrupt.
Proof.
  induction k as [|k IH]; intros acc r e; cbn [decodeEntries]; [done|].
  destruct (readHash r) as [h r1], (Uvarint r1) as [o r2], (Uvarint r2) as [st r3], (Uvarint r3) as [raw r4], (U8 r4) as [c r5].
  repeat (destruct (_ : bool); [by intros [= <-]|]). apply IH.
Qed.

Lemma decodeIndex_err b off e : decodeIndex b off = Err e -> e = PackCorrupt.
Proof.
  unfold decodeIndex. destruct (Fixed 4 _) as [m r1], (U16 r1) as [v r2], (Uvarint r2) as [n r3]. destruct (_ || _); [by intros [= <-]|].
  destruct (decodeEntries _ _ _ _) as [[es r4]|e'] eqn:E; [|intros [= <-]; by eapply decodeEntries_err].
  destruct (bool_decide _); [by intros [= <-]|]. destruct (framesEnd _ _) as [x|]; [|by intros [= <-]]. destruct (_ <? _); by intros [= <-].
Qed.

Lemma DeriveKeys_cases salt : if kr_destroyed kr then DeriveKeys kr repo salt = Err SealDestroyed else exists ks, DeriveKeys kr repo salt = Ok ks.
Proof. unfold DeriveKeys, deriveKey. cbn. destruct (kr_destroyed kr); [done|]. cbn. eauto. Qed.

Lemma u64_wrapped x : two64 <= x < 2 * two64 -> u64 x = x - two64.
Proof. intros Hx. unfold u64. rewrite <-(Z_mod_plus_full x (-1)), Z.mod_small by lia. lia. Qed.

(** The sum is in 64 bits: it is the length, or one turn more. *)
Lemma readIndex_cases b salt off n : laid_out b salt off n -> zlen b < 2 ^ 63 ->
  if kr_destroyed kr then readIndex b salt off n = Err SealDestroyed
  else (off + n + TrailerSize = zlen b + two64 /\ readIndex b salt off n = Err GoPanic) \/
       (off + n + TrailerSize = zlen b /\ forall e, readIndex b salt off n = Err e -> e = PackCorrupt).
Proof.
  intros Hl Hb. pose proof (laid_out_length _ _ _ _ Hl) as Hlen. destruct Hl as (_ & Hoff & Hn & Hsum). unfold readIndex.
  pose proof (DeriveKeys_cases salt) as Hk. destruct (kr_destroyed kr); [by rewrite Hk|]. destruct Hk as [ks ->]. cbn [mbind res_bind].
  unfold go_slice, HeaderSize, TrailerSize in *. assert (two64 = 2 ^ 64 /\ two32 = 2 ^ 32) as [H64 H32] by done.
  destruct (Z.lt_ge_cases (off + n + 16) two64) as [Hlt|Hge]; [right|left].
  - rewrite u64_small in Hsum by lia. split; [done|]. rewrite (u64_small (off + n)) by lia.
    rewrite !(proj2 (Z.leb_le _ _)) by lia. cbn [andb mbind res_bind]. destruct (Open _ _ _) as [plain|]; [|by intros ? [= <-]].
    destruct (decodeIndex plain off) as [es|e'] eqn:E; [done|]. intros ? [= <-]. by eapply decodeIndex_err.
  - rewrite u64_wrapped in Hsum by lia. split; [lia|]. rewrite u64_wrapped by lia.
    rewrite (proj2 (Z.leb_gt off _)) by lia. by rewrite andb_false_r.
Qed.

(** C39. What [ReadInfo] says of bytes that are not a pack. It panics, with keys it
    can derive, exactly on the bytes whose header and trailer are in order and
    whose trailer wraps around: the check that the index ends at the trailer
    is made in 64 bits, and an offset that passes it only that way is past the
    end of what is sliced. On any other bytes it does not read, the error is
    [ErrCorrupt], or that the keyring is destroyed. *)
Theorem a_wrapped_index_offset_panics name b : zlen b < 2 ^ 63 ->
  (ReadInfo name b kr repo = Err GoPanic <-> name = Name b /\ kr_destroyed kr = false /\
     exists salt mid off n, b = header salt ++ mid ++ encU64 off ++ encU32 n ++ trailerMagic /\
       HeaderSize <= off < two64 /\ 0 <= n < two32 /\ off + n + TrailerSize = zlen b + two64) /\
  (forall e, ReadInfo name b kr repo = Err e -> e = PackCorrupt \/ e = GoPanic \/ (e = SealDestroyed /\ kr_destroyed kr = true)).
Proof.
  intros Hb. split; [split|].
  - intros E. destruct (ReadInfo_accepts _ _ _ E) as (-> & salt & off & n & Hl); [done|]. rewrite (ReadInfo_laid_out _ _ _ _ Hl) in E.
    pose proof (readIndex_cases _ _ _ _ Hl Hb) as Hx. destruct (kr_destroyed kr); [congruence|]. split_and!; [done|done|].
    destruct Hl as ((mid & Hm) & Hoff & Hn & _). exists salt, mid, off, n. split_and!; [done|lia..|]. destruct Hx as [[Hx _]|[_ Hx]]; [done|by apply Hx in E].
  - intros (-> & Hk & salt & mid & off & n & Eb & Hoff & Hn & Hw). assert (laid_out b salt off n) as Hl.
    { split_and!; try lia; [by exists mid|]. assert (two64 = 2 ^ 64) by done. rewrite Hw, u64_wrapped by lia. lia. }
    rewrite (ReadInfo_laid_out _ _ _ _ Hl). pose proof (readIndex_cases _ _ _ _ Hl Hb) as Hx. rewrite Hk in Hx.
    destruct Hx as [[_ Hx]|[Hx _]]; [done|]. unfold two64 in Hw. lia.
  - intros e E. destruct (decide (e = PackCorrupt)) as [|Hne]; [by left|]. right.
    destruct (ReadInfo_accepts _ _ _ E) as (-> & salt & off & n & Hl); [congruence|]. rewrite (ReadInfo_laid_out _ _ _ _ Hl) in E.
    pose proof (readIndex_cases _ _ _ _ Hl Hb) as Hx. destruct (kr_destroyed kr); [right; split; congruence|].
    destruct Hx as [[_ Hx]|[_ Hx]]; [left; congruence|by apply Hx in E].
Qed.
End Malformed.

(** ** An example *)

Section Example.
#[local] Existing Instance toy_hasher.

(** A compressor that never makes anything shorter. *)
#[local] Instance toy_zstd : Zstd := {| EncodeAll := fun d => d; DecodeAll := Some |}.
#[local] Instance toy_zstd_ok : ZstdOk.
Proof. done. Qed.

Lemma pack_refines_a_map_witness :
  exists w b w', holds exKeyring exRepoID w {[Sum (str "one") := str "one"]} /\ wGet w (Sum (str "one")) = Some (Ok (str "one")) /\
    Finish exNonce w = (Ok b, w') /\ ReadInfo (BName b) (BBytes b) exKeyring exRepoID = Ok (BInfo b) /\
    (exists e, e ∈ IEntries (BInfo b) /\ EHash e = Sum (str "one")).
Proof.
  destruct (pack_refines_a_map exKeyring exRepoID) as (Hnew & Hadd & Hget & Hfin).
  destruct (NewWriterSized zero_hash exKeyring exRepoID 1000 0) as [w0|] eqn:E0; [|exfalso; vm_compute in E0; discriminate].
  destruct (Add exNonce (Sum (str "one")) (str "one") w0) as [r w] eqn:E1.
  assert (r = Ok tt) as ->.
  { vm_compute in E0. injection E0 as <-. apply (f_equal fst) in E1. vm_compute in E1. exact (eq_sym E1). }
  destruct (Hadd exNonce (str "one") w0 (Ok tt) w ∅ (Hnew _ _ _ _ E0) eq_refl E1) as [Hw _]. rewrite insert_empty in Hw.
  destruct (Hfin exNonce w _ Hw eq_refl) as (b & w' & ks & Hf & Hr & _ & Hall & Hdom & _).
  exists w, b, w'. split; [exact Hw|]. split; [rewrite (Hget w _ _ Hw), lookup_singleton_eq; reflexivity|]. split; [exact Hf|]. split; [exact Hr|].
  destruct (Hall (Sum (str "one")) (str "one") (lookup_singleton_eq _ _)) as (e & frame & He & Hh & _). exists e. split; [exact He|exact Hh].
Defined.

Lemma pack_index_codec_witness :
  exists es, decodeIndex (encodeIndex es) 100 = Ok es /\ es = [mkEntry zero_hash 40 29 1 CodecRaw].
Proof.
  exists [mkEntry zero_hash 40 29 1 CodecRaw]. split; [|reflexivity].
  apply (pack_index_codec (encodeIndex [mkEntry zero_hash 40 29 1 CodecRaw]) 100 [mkEntry zero_hash 40 29 1 CodecRaw]); [vm_compute; split; congruence|].
  split; [reflexivity|]. split; [vm_compute; discriminate|]. split; [repeat constructor|]. split; [|split].
  - repeat constructor; vm_compute; congruence.
  - split; [intros e ->%list_elem_of_singleton; vm_compute; split; discriminate|].
    intros a b ->%list_elem_of_singleton ->%list_elem_of_singleton Hne. destruct (Hne eq_refl).
  - vm_compute. discriminate.
Defined.

(** A header, no frames and a trailer whose index starts at [2^64 - 1] and is
    41 bytes long: the sum with the trailer's size wraps to the pack's length. *)
Definition wrappedPack (salt : Salt) : bytes := header salt ++ encU64 (two64 - 1) ++ encU32 41 ++ trailerMagic.

Lemma a_wrapped_index_offset_panics_witness :
  ReadInfo (Name (wrappedPack zero_hash)) (wrappedPack zero_hash) exKeyring exRepoID = Err GoPanic.
Proof.
  apply (a_wrapped_index_offset_panics exKeyring exRepoID (Name (wrappedPack zero_hash)) (wrappedPack zero_hash)); [reflexivity|].
  split; [reflexivity|]. split; [reflexivity|]. exists zero_hash, [], (two64 - 1), 41. repeat split; vm_compute; congruence.
Defined.
End Example.
