(* ===== verification/Dedup.v ===== *)
(** * core/dedup: where chunks are

    An index object lists packs and where each keeps its chunks; [Index] is the
    map from hash to location a store builds from the objects its manifest
    lists. The objects' format, their sealing and the map are modelled; the
    table on disk is in [Table]. *)

From S2P Require Import Prelude Wire Hash ChunkStore Seal Pack.

Definition MaxPacksPerObject : Z := 2 ^ 16.
Definition MaxObjectSize : Z := 64 * 2 ^ 20.
Definition objectMagic : bytes := str "SCIX".
Definition plainMagic : bytes := str "SCIP".
Definition version : Z := 1.
Definition headerSize : Z := 4 + 2 + 32.

(** ** Pack names *)

Definition PackName (sum : hash) : bytes :=
  let h := hex_EncodeToString (hbytes sum) in
  str "packs/" ++ take 2 h ++ str "/" ++ h.

Definition PackSum (name : bytes) : res hash :=
  if negb (zlen name =? zlen (str "packs/xx/") + 64) then Err DedupCorrupt
  else match hex_Decode (drop (length (str "packs/xx/")) name) with
       | None => Err DedupCorrupt
       | Some b =>
           if negb (zlen b =? 32) then Err DedupCorrupt
           else if negb (bool_decide (PackName (to_hash b) = name)) then Err DedupCorrupt
           else Ok (to_hash b)
       end.

(** ** Index objects *)

Definition rec_le (a b : hash * Info) : Prop := hbytes a.1 <=b hbytes b.1.

#[export] Instance rec_le_dec a b : Decision (rec_le a b).
Proof. unfold rec_le. apply _. Defined.

Definition encodeRecord (w : writer) (rec : hash * Info) : writer :=
  let '(sum, p) := rec in
  let w := wRaw w (hbytes sum) in
  let w := wRaw w (hbytes (ISalt p)) in
  let w := wUvarint w (u64 (ISize p)) in
  let w := wUvarint w (zlen (IEntries p)) in
  foldl (fun w e =>
    let w := wRaw w (hbytes (EHash e)) in
    let w := wUvarint w (Offset e) in
    let w := wUvarint w (StoredLen e) in
    let w := wUvarint w (RawLen e) in
    wU8 w (Codec e)) w (IEntries p).

Definition encodePlain (packs : list Info) : res bytes :=
  recs ← res_map (fun p => sum ← PackSum (IName p); Ok (sum, p)) packs;
  let recs := merge_sort rec_le recs in
  let w := wRaw [] plainMagic in
  let w := wU16 w version in
  let w := wUvarint w (zlen recs) in
  Ok (foldl encodeRecord w recs).

Definition frameLengthsAgree (codec stored raw : Z) : bool :=
  if codec =? CodecRaw then stored =? raw + FrameOverhead
  else if codec =? CodecZstd then (FrameOverhead <=? stored) && (stored <? raw + FrameOverhead)
  else true.

(** [size - TrailerSize] is at least the header's size where this is called. *)
Definition framesFit (entries : list Entry) (size : Z) : bool :=
  let index := SealedIndexLen entries in
  if size - TrailerSize <? index then false
  else
    let indexOffset := size - TrailerSize - index in
    match framesEnd HeaderSize (merge_sort offset_le entries) with
    | None => false
    | Some end_ => end_ <=? indexOffset
    end.

Fixpoint decodeRecEntries (n : nat) (framesEnd : Z) (entries : list Entry) (r : reader) : res (list Entry * reader) :=
  match n with
  | O => Ok (entries, r)
  | S n =>
      let '(h, r) := readHash r in
      let '(off, r) := Uvarint r in
      let '(stored, r) := Uvarint r in
      let '(raw, r) := Uvarint r in
      let '(codec, r) := U8 r in
      if bool_decide (rerr r <> None) || (framesEnd <? off) || (framesEnd - off <? stored) || (MaxChunkSize <? raw)
         || negb (frameLengthsAgree codec stored raw) || (negb (codec =? CodecRaw) && negb (codec =? CodecZstd))
         || match last entries with
            | Some p => match Compare (EHash p) h with Lt => false | _ => true end
            | None => false
            end then Err DedupCorrupt
      else decodeRecEntries n framesEnd (entries ++ [mkEntry h (u32 off) (u32 stored) (u32 raw) codec]) r
  end.

(** The packs loop: [prev] is the sum of the pack before, [None] at the first. *)
Fixpoint decodeRecords (n : nat) (prev : option hash) (packs : list Info) (r : reader) : res (list Info * reader) :=
  match n with
  | O => Ok (packs, r)
  | S n =>
      let '(sum, r) := readHash r in
      let '(salt, r) := readHash r in
      let '(size, r) := Uvarint r in
      let '(count, r) := Uvarint r in
      if bool_decide (rerr r <> None) || (size <? HeaderSize + TrailerSize) || (MaxPackSize <? size) || (MaxChunksPerPack <? count)
         || match prev with
            | Some p => match bcompare (hbytes p) (hbytes sum) with Lt => false | _ => true end
            | None => false
            end then Err DedupCorrupt
      else
        match decodeRecEntries (Z.to_nat count) (size - TrailerSize) [] r with
        | Err e => Err e
        | Ok (entries, r) =>
            if negb (framesFit entries size) then Err DedupCorrupt
            else decodeRecords n (Some sum) (packs ++ [mkInfo (PackName sum) salt size entries]) r
        end
  end.

Definition decodePlain (b : bytes) : res (list Info) :=
  let r := NewReader b in
  let '(magic, r) := Fixed 4 r in
  let '(v, r) := U16 r in
  let '(n, r) := Uvarint r in
  if bool_decide (rerr r <> None) || negb (bool_decide (nilb magic = plainMagic)) || negb (v =? version) || (MaxPacksPerObject <? n)
  then Err DedupCorrupt
  else
    match decodeRecords (Z.to_nat n) None [] r with
    | Err e => Err e
    | Ok (packs, r) => if bool_decide (Done r <> None) then Err DedupCorrupt else Ok packs
    end.

Section Objects.
Context {HH : Hasher} {HA : Aead}.

Definition objectHeader (salt : Salt) : bytes :=
  let w := wRaw [] objectMagic in
  let w := wU16 w version in
  wRaw w (hbytes salt).

Definition objectName (blob : bytes) : bytes := str "index/" ++ hex_EncodeToString (hbytes (Sum blob)).

(** [salt] and [nonce] are the random draws. *)
Definition EncodeObject (salt : Salt) (nonce : bytes) (kr : Keyring) (repo : RepoID) (packs : list Info) : res (bytes * bytes) :=
  if MaxPacksPerObject <? zlen packs then Err (EMsg "dedup: packs in one object")
  else
    plain ← encodePlain packs;
    key ← deriveKey kr Index repo salt;
    let w := objectHeader salt in
    sealed ← (Seal nonce w plain key).1;
    let blob := wRaw w sealed in
    if MaxObjectSize <? zlen blob then Err (EMsg "dedup: index object too large")
    else Ok (objectName blob, blob).

Definition DecodeObject (kr : Keyring) (repo : RepoID) (name blob : bytes) : res (list Info) :=
  if negb (bool_decide (name = objectName blob)) then Err DedupCorrupt
  else if (zlen blob <? headerSize) || (MaxObjectSize <? zlen blob) then Err DedupCorrupt
  else
    let h := NewReader (take (Z.to_nat headerSize) blob) in
    let '(magic, h) := Fixed 4 h in
    let '(v, h) := U16 h in
    let '(salt, h) := readHash h in
    if bool_decide (Done h <> None) || negb (bool_decide (nilb magic = objectMagic)) || negb (v =? version) then Err DedupCorrupt
    else
      key ← deriveKey kr Index repo salt;
      match Open key (take (Z.to_nat headerSize) blob) (drop (Z.to_nat headerSize) blob) with
      | Err _ => Err DedupCorrupt
      | Ok plain => decodePlain plain
      end.
End Objects.

(** ** The index in memory *)

Record PackRef := mkPackRef { PRName : bytes; PRSalt : Salt; PRSize : Z }.
Record Location := mkLocation { LPack : PackRef; LEntry : Entry }.
Record loc := mkLoc { lpack : nat; loffset : Z; lstored : Z; lraw : Z; lcodec : Z }.
Record Idx := mkIdx { packs : list PackRef; byName : gmap bytes nat; chunks : gmap hash loc }.

Definition New : Idx := mkIdx [] ∅ ∅.

Definition addEntry (pi : nat) (m : gmap hash loc) (e : Entry) : gmap hash loc :=
  match m !! EHash e with
  | Some _ => m
  | None => <[EHash e := mkLoc pi (Offset e) (StoredLen e) (RawLen e) (Codec e)]> m
  end.

(** [Index.Add]; a store has far fewer than [2^31] packs. *)
Definition Add (x : Idx) (info : Info) : Idx :=
  let '(pi, ps, names) :=
    match byName x !! IName info with
    | Some pi => (pi, packs x, byName x)
    | None => (length (packs x), packs x ++ [mkPackRef (IName info) (ISalt info) (ISize info)], <[IName info := length (packs x)]> (byName x))
    end in
  mkIdx ps names (foldl (addEntry pi) (chunks x) (IEntries info)).

Definition HasPack (x : Idx) (name : bytes) : bool := bool_decide (is_Some (byName x !! name)).

(** Indexing past the packs would panic. *)
Definition Lookup (x : Idx) (h : hash) : option (res Location) :=
  match chunks x !! h with
  | None => None
  | Some l =>
      match packs x !! lpack l with
      | None => Some (Err GoPanic)
      | Some p => Some (Ok (mkLocation p (mkEntry h (loffset l) (lstored l) (lraw l) (lcodec l))))
      end
  end.

Definition Has (x : Idx) (h : hash) : bool := bool_decide (is_Some (chunks x !! h)).

Definition Len (x : Idx) : Z := Z.of_nat (size (chunks x)).

Definition Packs (x : Idx) : list PackRef := packs x.

(** ** Pack names are in bijection with hashes *)

Lemma PackName_length s : zlen (PackName s) = 73.
Proof. unfold PackName. rewrite !length_app, length_take, length_hex, hash_length. done. Qed.

Lemma PackSum_name s : PackSum (PackName s) = Ok s.
Proof.
  unfold PackSum. rewrite PackName_length. change (zlen (str "packs/xx/") + 64) with 73. cbn [negb Z.eqb].
  assert (drop (length (str "packs/xx/")) (PackName s) = hex_EncodeToString (hbytes s)) as ->.
  { unfold PackName. rewrite !app_assoc. apply drop_app_length'. rewrite !length_app, length_take, length_hex, hash_length. done. }
  rewrite hex_Decode_Encode. rewrite hash_length, to_hash_hbytes. cbn [negb]. by rewrite bool_decide_eq_true_2.
Qed.

Lemma PackSum_inv n s : PackSum n = Ok s -> n = PackName s.
Proof.
  unfold PackSum. destruct (negb _); [done|]. destruct (hex_Decode _) as [b|]; [|done]. destruct (negb (zlen b =? 32)); [done|].
  case_bool_decide as E; [|done]. intros [= <-]. done.
Qed.

Lemma PackName_inj s t : PackName s = PackName t -> s = t.
Proof. intros E. assert (PackSum (PackName s) = PackSum (PackName t)) as E2 by congruence. rewrite !PackSum_name in E2. congruence. Qed.

(** A pack is named by the hash of its bytes. *)
Lemma Name_is_PackName `{Hasher} b : Pack.Name b = PackName (Sum b).
Proof. done. Qed.

(** ** The object codec *)

(** The length the index of a pack's entries takes, as the writer encodes it. *)
Lemma uvarintLoop_length f : forall v n, uvarintLoop f v n = n - 1 + zlen (append_uvarint f v).
Proof.
  induction f as [|f IH]; intros v n; unfold uvarintLoop, append_uvarint; fold uvarintLoop append_uvarint; [cbn; lia|].
  destruct (128 <=? v); [|cbn; lia]. rewrite IH. cbn [length]. lia.
Qed.

#[local] Transparent encUvarint.
Lemma uvarintLen_length v : uvarintLen v = zlen (encUvarint v).
Proof. unfold uvarintLen, encUvarint. rewrite uvarintLoop_length. lia. Qed.
#[local] Opaque encUvarint.

Lemma entryLen_length e : entryLen e = zlen (encIndexEntry e).
Proof. unfold entryLen, encIndexEntry. rewrite !uvarintLen_length, !length_app, hash_length, length_encU8. lia. Qed.

Lemma SealedIndexLen_length es : zlen (encodeIndex es) + sealOverhead < two64 -> SealedIndexLen es = zlen (encodeIndex es) + sealOverhead.
Proof.
  unfold SealedIndexLen. rewrite packIndex_enc, !length_app, length_encU16, uvarintLen_length. change (zlen indexMagic) with 4.
  change (length indexMagic) with 4%nat. generalize (zlen es). intros n.
  set (a := 4 + 2 + zlen (encUvarint n) + sealOverhead). intros Hlt.
  assert (forall es a, 0 <= a -> a + zlen (flat_map encIndexEntry es) < two64 ->
    foldl (fun n e => u64 (n + entryLen e)) a es = a + zlen (flat_map encIndexEntry es)) as Hf.
  { clear. induction es as [|e es IH]; intros a Ha Hl; cbn [foldl flat_map] in *; [cbn; lia|].
    rewrite length_app in *. rewrite entryLen_length, u64_small, IH by lia. lia. }
  rewrite Hf; unfold a, sealOverhead in *; lia.
Qed.

(** A pack's record: its sizes are in range, and its frames fit under an index
    of the entries recorded. *)
Definition info_ok (p : Info) : Prop :=
  HeaderSize + TrailerSize <= ISize p <= MaxPackSize /\ index_ok (ISize p - TrailerSize - SealedIndexLen (IEntries p)) (IEntries p) /\
  0 <= SealedIndexLen (IEntries p).

Lemma SealedIndexLen_pos es : 0 <= SealedIndexLen es.
Proof.
  unfold SealedIndexLen. assert (0 <= zlen indexMagic + 2 + uvarintLen (zlen es) + sealOverhead) as H0.
  { rewrite uvarintLen_length. unfold sealOverhead. lia. }
  revert H0. generalize (zlen indexMagic + 2 + uvarintLen (zlen es) + sealOverhead). induction es as [|e es IH]; intros a Ha; cbn [foldl]; [done|].
  apply IH. apply u64_range.
Qed.

Lemma framesFit_ok es size : Forall lengths_ok es -> NoDup es ->
  framesFit es size = true <-> frames_apart (size - TrailerSize - SealedIndexLen es) es /\ HeaderSize <= size - TrailerSize - SealedIndexLen es.
Proof.
  intros Hl Hd. unfold framesFit. split.
  - destruct (Z.ltb_spec (size - TrailerSize) (SealedIndexLen es)); [done|].
    destruct (framesEnd HeaderSize (merge_sort offset_le es)) as [e|] eqn:E; [|done]. intros He%Z.leb_le.
    assert (HeaderSize <= e).
    { apply framesEnd_some in E as (? & _); [done|]. rewrite (merge_sort_Permutation offset_le). eapply Forall_impl; [exact Hl|].
      intros x (_ & Hs & _). unfold sealOverhead in Hs. lia. }
    split; [|lia]. apply framesEnd_apart; [done|done|lia|eauto].
  - intros [Hap Hh]. rewrite (proj2 (Z.ltb_ge _ _)) by (unfold HeaderSize in Hh; lia).
    apply framesEnd_apart in Hap as (e & -> & He); [by apply Z.leb_le|done..].
Qed.

Lemma agree_lengths codec stored raw : 0 <= raw <= MaxChunkSize -> 
  frameLengthsAgree codec stored raw = true /\ (codec = CodecRaw \/ codec = CodecZstd) <->
  forall h off, lengths_ok (mkEntry h off stored raw codec).
Proof.
  intros Hr. unfold frameLengthsAgree, lengths_ok, FrameOverhead, CodecRaw, CodecZstd, sealOverhead. cbn. split.
  - intros [Ha [->| ->]] h off; cbn in Ha; [apply Z.eqb_eq in Ha|apply andb_true_iff in Ha as [?%Z.leb_le ?%Z.ltb_lt]]; lia.
  - intros Hl. destruct (Hl zero_hash 0) as (_ & Hs & [[-> ->]|[-> Hlt]]); cbn; [split; [apply Z.eqb_refl|by left]|]. split; [|by right].
    apply andb_true_iff. rewrite Z.leb_le, Z.ltb_lt. lia.
Qed.

Lemma decodeRecEntries_bwd n limit : limit < two32 -> forall acc r es r' s,
  decodeRecEntries n limit acc r = Ok (es, r') -> at_ r s -> ksorted (fun e => hbytes (EHash e)) acc ->
  exists es0 s', es = acc ++ es0 /\ length es0 = n /\ s = flat_map encIndexEntry es0 ++ s' /\ at_ r' s' /\
    Forall lengths_ok es0 /\ ksorted (fun e => hbytes (EHash e)) es.
Proof.
  intros Hlim. induction n as [|n IH]; intros acc r es r' s Hd Ha Hs; cbn [decodeRecEntries] in Hd.
  - injection Hd as <- <-. exists [], s. rewrite app_nil_r. by split_and!.
  - rd_name Hd. destruct (bool_decide (rerr r4 <> None)) eqn:E5; [done|]. apply no_err_inv in E5. cbn [orb] in Hd.
    destruct (Z.ltb_spec limit v0) as [|H2]; [done|]. destruct (Z.ltb_spec (limit - v0) v1) as [|H3]; [done|]. cbn [orb] in Hd.
    destruct (Z.ltb_spec MaxChunkSize v2) as [|H4]; [done|]. cbn [orb] in Hd.
    destruct (frameLengthsAgree v3 v1 v2) eqn:H5; [|done]. cbn [negb orb] in Hd.
    destruct (negb (v3 =? CodecRaw) && negb (v3 =? CodecZstd)) eqn:H6; [done|]. cbn [orb] in Hd.
    destruct (match last acc with Some p => _ | None => false end) eqn:H7; [done|]. rd_back.
    set (e := mkEntry v v0 v1 v2 v3). assert (lengths_ok e) as Hent.
    { apply agree_lengths; [lia|]. split; [done|]. apply andb_false_iff in H6 as [H6|H6]; [left|right]; apply negb_false_iff, Z.eqb_eq in H6; done. }
    assert (u32 v0 = v0 /\ u32 v1 = v1 /\ u32 v2 = v2) as (U0 & U1 & U2).
    { unfold u32, two32, MaxChunkSize in *. rewrite !Z.mod_small by lia. done. }
    rewrite U0, U1, U2 in Hd. fold e in Hd. destruct (IH _ _ _ _ _ Hd Ha) as (es0 & s' & -> & Hlen & -> & Ha' & Hf & Hss).
    { by apply (snoc_sorted acc e). }
    exists (e :: es0), s'. rewrite <-app_assoc in *. cbn [app] in *. split_and!; try done.
    + cbn. lia.
    + cbn [flat_map]. unfold encIndexEntry at 2. cbn. by rewrite <-!app_assoc.
    + by constructor.
Qed.

Lemma decodeRecEntries_fwd limit es : Forall lengths_ok es -> Forall (fun e => 0 <= Offset e /\ ends e <= limit) es -> limit < two32 ->
  forall acc r s, ksorted (fun e => hbytes (EHash e)) (acc ++ es) -> at_ r (flat_map encIndexEntry es ++ s) ->
  exists r', decodeRecEntries (length es) limit acc r = Ok (acc ++ es, r') /\ at_ r' s.
Proof.
  intros Hl Ho Hlim. induction es as [|e es IH]; intros acc r s Hs Ha; cbn [decodeRecEntries length flat_map].
  - exists r. rewrite app_nil_r. done.
  - apply Forall_cons in Hl as [Hle Hl]. apply Forall_cons in Ho as [Hoe Ho]. cbn [flat_map] in Ha. unfold encIndexEntry in Ha at 1.
    rewrite <-!app_assoc in Ha. pose proof Hle as (Hr & Hst & Hc).
    assert (frameLengthsAgree (Codec e) (StoredLen e) (RawLen e) = true /\ (Codec e = CodecRaw \/ Codec e = CodecZstd)) as [Hag Hco].
    { apply agree_lengths; [done|]. intros h off. exact Hle. }
    unfold MaxChunkSize, sealOverhead, two32, ends in *. assert (0 <= Codec e < two8) by (destruct Hco as [->| ->]; done).
    do 5 rd_fwd. rewrite (at_no_err _ _ Ha), Hag. zbool.
    assert (negb (Codec e =? CodecRaw) && negb (Codec e =? CodecZstd) = false) as -> by (destruct Hco as [->| ->]; done). cbn [orb].
    assert (u32 (Offset e) = Offset e /\ u32 (StoredLen e) = StoredLen e /\ u32 (RawLen e) = RawLen e) as (-> & -> & ->)
      by (unfold u32, two32; rewrite !Z.mod_small by lia; done).
    rewrite (last_sorted acc e es Hs).
    assert (mkEntry (EHash e) (Offset e) (StoredLen e) (RawLen e) (Codec e) = e) as -> by (by destruct e).
    destruct (IH Hl Ho (acc ++ [e]) r4 s) as (r' & E & Ha'); [by rewrite <-app_assoc|exact Ha|].
    exists r'. by rewrite E, <-app_assoc.
Qed.

Definition encRecord (rec : hash * Info) : bytes :=
  hbytes rec.1 ++ hbytes (ISalt rec.2) ++ encUvarint (ISize rec.2) ++ encUvarint (zlen (IEntries rec.2)) ++ flat_map encIndexEntry (IEntries rec.2).

(** A record as a decoder hands it out. *)
Definition rec_ok (rec : hash * Info) : Prop := IName rec.2 = PackName rec.1 /\ info_ok rec.2.

Lemma encodeRecord_enc w rec : info_ok rec.2 -> encodeRecord w rec = w ++ encRecord rec.
Proof.
  destruct rec as [sum p]. cbn [snd]. intros [Hs _]. unfold encodeRecord. rewrite encodeEntries_enc. unfold encRecord. cbn [fst snd]. wr_norm.
  rewrite u64_small; [done|]. unfold HeaderSize, TrailerSize, MaxPackSize, two64 in *. lia.
Qed.

Lemma encodeRecords_enc recs : Forall (fun r => info_ok r.2) recs -> forall w, foldl encodeRecord w recs = w ++ flat_map encRecord recs.
Proof.
  induction recs as [|rec recs IH]; intros Hr w; cbn [foldl flat_map]; [by rewrite app_nil_r|]. apply Forall_cons in Hr as [H1 H2].
  rewrite encodeRecord_enc, IH, <-app_assoc by done. done.
Qed.

(** Sums increase from [prev] on. *)
Definition sums_from (prev : option hash) (recs : list (hash * Info)) : Prop :=
  ksorted (fun r : hash * Info => hbytes r.1) recs /\ forall p, prev = Some p -> Forall (fun r => hbytes p <b hbytes r.1) recs.

Lemma decodeRecords_bwd n : forall prev acc r ps r' s, decodeRecords n prev acc r = Ok (ps, r') -> at_ r s ->
  exists recs s', ps = acc ++ recs.*2 /\ length recs = n /\ s = flat_map encRecord recs ++ s' /\ at_ r' s' /\ Forall rec_ok recs /\ sums_from prev recs.
Proof.
  induction n as [|n IH]; intros prev acc r ps r' s Hd Ha; cbn [decodeRecords] in Hd.
  - injection Hd as <- <-. exists [], s. cbn. rewrite app_nil_r. split_and!; try done. by split; [constructor|].
  - rd_name Hd. destruct (bool_decide (rerr r3 <> None)) eqn:E5; [done|]. apply no_err_inv in E5. cbn [orb] in Hd.
    destruct (Z.ltb_spec v1 (HeaderSize + TrailerSize)) as [|H1]; [done|]. destruct (Z.ltb_spec MaxPackSize v1) as [|H2]; [done|]. cbn [orb] in Hd.
    destruct (Z.ltb_spec MaxChunksPerPack v2) as [|H3]; [done|]. cbn [orb] in Hd.
    destruct (match prev with Some p => _ | None => false end) eqn:H4; [done|].
    destruct (decodeRecEntries (Z.to_nat v2) (v1 - TrailerSize) [] r3) as [[es r5]|] eqn:Ee; [|done].
    destruct (framesFit es v1) eqn:Ef; [|done]. cbn [negb] in Hd. rd_back.
    destruct (decodeRecEntries_bwd _ (v1 - TrailerSize) ltac:(unfold MaxPackSize, TrailerSize, two32 in *; lia) _ _ _ _ _ Ee Ha) as (es0 & s' & -> & Hl & -> & Ha' & Hlen & Hs);
      [constructor|]. cbn [app] in *.
    destruct (IH _ _ _ _ _ _ Hd Ha') as (recs & s'' & -> & Hn & -> & Ha'' & Hok & Hks & Hpk).
    apply framesFit_ok in Ef as [Hap Hh]; [|done|by apply hsorted_NoDup].
    set (p := mkInfo (PackName v) v0 v1 es0) in *. exists ((v, p) :: recs), s''. split_and!.
    + rewrite <-app_assoc. done.
    + cbn. lia.
    + cbn [flat_map]. unfold encRecord at 2. cbn [fst snd p ISalt ISize IEntries]. rewrite <-!app_assoc. replace (zlen es0) with v2 by lia. done.
    + done.
    + constructor; [|done]. split; [done|]. cbn [snd p]. split; [done|]. split; [|apply SealedIndexLen_pos]. split_and!; try done. cbn. lia.
    + split; [apply ksorted_cons; split; [by apply Hpk|done]|]. intros q ->. constructor.
      * cbn. destruct (bcompare_spec (hbytes q) (hbytes v)); done.
      * eapply Forall_impl; [by apply Hpk|]. intros x Hx. cbn in *. eapply blt_trans; [|exact Hx]. destruct (bcompare_spec (hbytes q) (hbytes v)); done.
Qed.

Lemma decodeRecords_fwd recs : Forall rec_ok recs -> forall prev acc r s, sums_from prev recs -> at_ r (flat_map encRecord recs ++ s) ->
  exists r', decodeRecords (length recs) prev acc r = Ok (acc ++ recs.*2, r') /\ at_ r' s.
Proof.
  induction recs as [|[sum p] recs IH]; intros Hok prev acc r s [Hks Hpk] Ha; cbn [decodeRecords length].
  - exists r. by rewrite app_nil_r.
  - apply Forall_cons in Hok as [(Hname & Hsize & (Hc & Hs & Hl & Hap & Hh) & _) Hok]. cbn [flat_map] in Ha. unfold encRecord in Ha at 1. cbn [fst snd] in *.
    rewrite <-!app_assoc in Ha. unfold HeaderSize, TrailerSize, MaxPackSize, MaxChunksPerPack in *.
    do 4 rd_fwd. rewrite (at_no_err _ _ Ha). zbool.
    assert (match prev with Some q => match bcompare (hbytes q) (hbytes sum) with Lt => false | _ => true end | None => false end = false) as ->.
    { destruct prev as [q|]; [|done]. specialize (Hpk q eq_refl). apply Forall_cons in Hpk as [Hq _]. cbn in Hq. by rewrite Hq. }
    pose proof (SealedIndexLen_pos (IEntries p)). rewrite Nat2Z.id.
    destruct (decodeRecEntries_fwd (ISize p - 16) (IEntries p) Hl) with (acc := @nil Entry) (r := r3) (s := flat_map encRecord recs ++ s) as (r5 & E & Ha5);
      [|unfold two32; lia|done|exact Ha|].
    { apply Forall_forall. intros e He. destruct (proj1 Hap e He). unfold HeaderSize in *. lia. }
    cbn [app] in E. rewrite E. rewrite (proj2 (framesFit_ok (IEntries p) (ISize p) Hl (hsorted_NoDup _ Hs))) by done. cbn [negb].
    apply ksorted_cons in Hks as [Hlt Hks]. destruct (IH Hok (Some sum) (acc ++ [mkInfo (PackName sum) (ISalt p) (ISize p) (IEntries p)]) r5 s) as (r' & E' & Ha').
    + split; [done|]. intros q [= <-]. done.
    + done.
    + exists r'. rewrite E', <-app_assoc. cbn [app fmap list_fmap snd]. rewrite <-Hname. by destruct p.
Qed.

(** The records of packs whose names are pack names. *)
Lemma records_ok recs : Forall (fun r => IName r.2 = PackName r.1) recs ->
  res_map (fun p => sum ← PackSum (IName p); Ok (sum, p)) recs.*2 = Ok recs.
Proof.
  induction recs as [|[sum p] recs IH]; intros Hr; cbn [fmap list_fmap res_map snd]; [done|]. apply Forall_cons in Hr as [Hn Hr]. cbn [fst snd] in Hn.
  rewrite Hn, PackSum_name. cbn [mbind res_bind]. by rewrite (IH Hr).
Qed.

Lemma records_of ps : Forall (fun p => exists sum, IName p = PackName sum) ps -> exists recs, recs.*2 = ps /\ Forall (fun r => IName r.2 = PackName r.1) recs.
Proof.
  induction 1 as [|p ps [sum Hs] _ (recs & <- & Hr)]; [by exists []|]. exists ((sum, p) :: recs). split; [done|]. by constructor.
Qed.

#[export] Instance rec_le_total : Total rec_le.
Proof. intros a b. unfold rec_le. destruct (blt_trichotomy (hbytes a.1) (hbytes b.1)) as [?|[->|?]]; [left|left|right]; border. Qed.
#[export] Instance rec_le_trans : Transitive rec_le.
Proof. intros a b c. unfold rec_le. border. Qed.

Lemma sort_sums recs : NoDup recs.*1 -> sums_from None (merge_sort rec_le recs).
Proof.
  intros Hd. split; [|done]. pose proof (StronglySorted_merge_sort rec_le recs) as Hs. rewrite <-(merge_sort_Permutation rec_le) in Hd.
  induction Hs as [|x l Hl IH Hx]; [constructor|]. cbn in Hd. apply NoDup_cons in Hd as [Hn Hd]. apply ksorted_cons. split; [|by apply IH].
  rewrite Forall_forall in Hx |- *. intros y Hy. specialize (Hx y Hy). unfold rec_le in Hx. apply ble_lteq in Hx as [?|E]; [done|].
  exfalso. apply Hn. apply hash_eq in E. rewrite E. by apply list_elem_of_fmap_2.
Qed.

Lemma sorted_is_sorted recs : ksorted (fun r : hash * Info => hbytes r.1) recs -> merge_sort rec_le recs = recs.
Proof.
  intros Hk. apply (StronglySorted_unique_strong rec_le).
  - intros x y Hx Hy H1 H2. rewrite (merge_sort_Permutation rec_le) in Hx. destruct (decide (x = y)) as [|Hne]; [done|]. exfalso.
    unfold rec_le in *. destruct (sorted_pair _ _ Hk x y Hx Hy Hne) as [H|H]; [apply ble_not_lt in H2|apply ble_not_lt in H1]; done.
  - apply StronglySorted_merge_sort; apply _.
  - induction Hk as [|x l Hl IH Hx]; constructor; [done|]. eapply Forall_impl; [exact Hx|]. intros y. apply blt_le.
  - apply merge_sort_Permutation.
Qed.

(** Packs an index object can list: at most 65,536, distinct, each recorded as
    it can be read back. *)
Definition object_ok (ps : list Info) : Prop :=
  zlen ps <= MaxPacksPerObject /\ NoDup (IName <$> ps) /\ Forall (fun p => (exists sum, IName p = PackName sum) /\ info_ok p) ps.

Definition encPlain (recs : list (hash * Info)) : bytes := plainMagic ++ encU16 version ++ encUvarint (zlen recs) ++ flat_map encRecord recs.

Lemma decodePlain_fwd recs : zlen recs <= MaxPacksPerObject -> Forall rec_ok recs -> sums_from None recs -> decodePlain (encPlain recs) = Ok recs.*2.
Proof.
  intros Hn Hok Hs. unfold decodePlain. pose proof (at_new_nil (encPlain recs)) as Ha. unfold encPlain in Ha at 2. rewrite <-!app_assoc in Ha.
  unfold MaxPacksPerObject, version in *. assert (zlen plainMagic = 4) by reflexivity. do 3 rd_fwd. rewrite (at_no_err _ _ Ha). cbn [nilb default].
  rewrite bool_decide_eq_true_2 by done. zbool. rewrite Nat2Z.id. destruct (decodeRecords_fwd recs Hok None [] _ _ Hs Ha) as (r' & -> & Ha').
  rewrite (proj2 (Done_None r') Ha'). by rewrite bool_decide_eq_false_2 by (intros Hx; by apply Hx).
Qed.

Lemma decodePlain_bwd b ps : decodePlain b = Ok ps ->
  exists recs, ps = recs.*2 /\ b = encPlain recs /\ zlen recs <= MaxPacksPerObject /\ Forall rec_ok recs /\ sums_from None recs.
Proof.
  unfold decodePlain. intros Hd. rd_name Hd. pose proof (at_new b) as Ha.
  destruct (bool_decide (rerr r1 <> None)) eqn:E2; [done|]. apply no_err_inv in E2. cbn [orb] in Hd.
  destruct (bool_decide (nilb v = plainMagic)) eqn:Em; [|done]. apply bool_decide_eq_true in Em. cbn [negb orb] in Hd.
  destruct (Z.eqb_spec v0 version) as [->|]; [|done]. destruct (Z.ltb_spec MaxPacksPerObject v1) as [|Hn]; [done|]. cbn [negb orb] in Hd.
  destruct (decodeRecords (Z.to_nat v1) None [] r1) as [[ps1 r2]|] eqn:E3; [|done].
  destruct (bool_decide (Done r2 <> None)) eqn:E4; [done|]. apply bool_decide_eq_false, dec_stable, Done_None in E4. injection Hd as ->.
  rd_back. destruct (decodeRecords_bwd _ _ _ _ _ _ _ E3 Ha) as (recs & s' & -> & Hl & -> & Ha' & Hok & Hs).
  pose proof (at_functional _ _ _ E4 Ha') as <-. exists recs. split; [done|]. change (nilb (Some x)) with x in Em. rewrite app_nil_r. unfold encPlain.
  replace (zlen recs) with v1 by lia. rewrite Em. by split_and!.
Qed.

(** What [encodePlain] writes: the records in the order of their sums. *)
Lemma encodePlain_ok recs : Forall rec_ok recs -> encodePlain recs.*2 = Ok (encPlain (merge_sort rec_le recs)).
Proof.
  intros Hr. unfold encodePlain. rewrite records_ok by (eapply Forall_impl; [exact Hr|]; by intros x [? _]). cbn [mbind res_bind].
  f_equal. rewrite encodeRecords_enc.
  - unfold encPlain. wr_norm. done.
  - rewrite (merge_sort_Permutation rec_le). eapply Forall_impl; [exact Hr|]. by intros x [_ ?].
Qed.

Lemma decodePlain_encodePlain b ps : decodePlain b = Ok ps -> encodePlain ps = Ok b /\ object_ok ps.
Proof.
  intros (recs & -> & -> & Hn & Hok & Hs)%decodePlain_bwd. rewrite encodePlain_ok, sorted_is_sorted by (done || apply Hs). split; [done|].
  split_and!.
  - by rewrite length_fmap.
  - destruct Hs as [Hs _]. apply ksorted_NoDup in Hs. rewrite <-list_fmap_compose.
    assert ((IName ∘ snd <$> recs) = (PackName ∘ fst <$> recs)) as ->.
    { apply list_fmap_ext. intros i r Hi. apply (Forall_lookup_1 _ _ _ _ Hok Hi). }
    rewrite list_fmap_compose. apply NoDup_fmap_2; [intros ? ?; apply PackName_inj|].
    by apply (NoDup_fmap_1 hbytes); rewrite <-list_fmap_compose.
  - apply Forall_fmap. eapply Forall_impl; [exact Hok|]. intros r [Hr1 Hr2]. split; [by eexists|done].
Qed.

Lemma encodePlain_decodePlain ps : object_ok ps -> exists b ps', encodePlain ps = Ok b /\ decodePlain b = Ok ps' /\ ps' ≡ₚ ps.
Proof.
  intros (Hn & Hd & Hf). destruct (records_of ps) as (recs & <- & Hr); [eapply Forall_impl; [exact Hf|]; by intros p [? _]|].
  assert (Forall rec_ok recs) as Hok.
  { rewrite Forall_fmap in Hf. rewrite Forall_forall in *. intros r Hi. split; [by apply Hr|]. apply (Hf r Hi). }
  assert (NoDup recs.*1) as Hd1.
  { assert (IName <$> recs.*2 = PackName <$> recs.*1) as E; [|rewrite E in Hd; by apply NoDup_fmap_1 in Hd].
    rewrite <-!list_fmap_compose. apply list_fmap_ext. intros i r Hi. apply (Forall_lookup_1 _ _ _ _ Hr Hi). }
  exists (encPlain (merge_sort rec_le recs)), (merge_sort rec_le recs).*2. split_and!; [by apply encodePlain_ok| |].
  - apply decodePlain_fwd; [|by rewrite (merge_sort_Permutation rec_le)|by apply sort_sums].
    rewrite (Permutation_length (merge_sort_Permutation rec_le recs)). by rewrite length_fmap in Hn.
  - by rewrite (merge_sort_Permutation rec_le).
Qed.

(** The index-object codec. Decoding accepts exactly what encoding writes
    of packs in the order of their sums, every one of them a pack whose frames
    and index fit in its size; and any list of distinct such packs is read
    back, sorted by sum. *)
Theorem index_object_codec :
  (forall b ps, decodePlain b = Ok ps -> encodePlain ps = Ok b /\ object_ok ps) /\
  (forall ps, object_ok ps -> exists b ps', encodePlain ps = Ok b /\ decodePlain b = Ok ps' /\ ps' ≡ₚ ps).
Proof. split; [exact decodePlain_encodePlain|exact encodePlain_decodePlain]. Qed.

(** ** The index finds what packs list, the first of each chunk *)

Definition refOf (p : Info) : PackRef := mkPackRef (IName p) (ISalt p) (ISize p).

(** The first entry of a chunk, and the first pack that has one. *)
Definition entryOf (h : hash) (es : list Entry) : option Entry := List.find (fun e => bool_decide (EHash e = h)) es.

Fixpoint firstLoc (infos : list Info) (h : hash) : option Location :=
  match infos with
  | [] => None
  | p :: infos => match entryOf h (IEntries p) with Some e => Some (mkLocation (refOf p) e) | None => firstLoc infos h end
  end.

(** Packs of one name are one pack. *)
Definition consistent (infos : list Info) : Prop := forall p q, p ∈ infos -> q ∈ infos -> IName p = IName q -> refOf p = refOf q.

(** The index [x] of packs [infos]. *)
Definition indexes (x : Idx) (infos : list Info) : Prop :=
  (forall n i, byName x !! n = Some i -> exists p, p ∈ infos /\ IName p = n /\ packs x !! i = Some (refOf p)) /\
  (forall p, p ∈ infos -> is_Some (byName x !! IName p)) /\
  forall h, match firstLoc infos h with
            | None => chunks x !! h = None
            | Some l => exists c, chunks x !! h = Some c /\ packs x !! lpack c = Some (LPack l) /\
                LEntry l = mkEntry h (loffset c) (lstored c) (lraw c) (lcodec c)
            end.

Lemma New_indexes : indexes New [].
Proof.
  split_and!; [|by intros p ?%elem_of_nil|intros h; apply lookup_empty].
  intros n i Hi. unfold New in Hi. cbn [byName] in Hi. by rewrite lookup_empty in Hi.
Qed.

Lemma entryOf_hash h es e : entryOf h es = Some e -> e ∈ es /\ EHash e = h.
Proof. intros [H1 H2]%List.find_some. apply bool_decide_eq_true in H2. split; [by apply list_elem_of_In|done]. Qed.

Lemma addEntries_lookup pi es : forall m h, foldl (addEntry pi) m es !! h =
  match m !! h with
  | Some c => Some c
  | None => (fun e => mkLoc pi (Offset e) (StoredLen e) (RawLen e) (Codec e)) <$> entryOf h es
  end.
Proof.
  induction es as [|e es IH]; intros m h; cbn [foldl entryOf List.find]; [by destruct (m !! h)|]. rewrite IH. fold (entryOf h es).
  unfold addEntry. destruct (m !! EHash e) as [c|] eqn:E.
  - case_bool_decide as Hh; [|done]. subst h. by rewrite E.
  - case_bool_decide as Hh; [subst h; by rewrite lookup_insert_eq, E|]. by rewrite lookup_insert_ne by done.
Qed.

Lemma firstLoc_app infos p h : firstLoc (infos ++ [p]) h = match firstLoc infos h with Some l => Some l | None => (fun e => mkLocation (refOf p) e) <$> entryOf h (IEntries p) end.
Proof. induction infos as [|q infos IH]; cbn [app firstLoc]; [by destruct (entryOf h (IEntries p))|]. by destruct (entryOf h (IEntries q)). Qed.

Lemma Add_indexes x infos p : indexes x infos -> consistent (infos ++ [p]) -> indexes (Add x p) (infos ++ [p]).
Proof.
  intros (Hn & Hp & Hc) Hcons. unfold Add.
  assert (exists pi ps names, (match byName x !! IName p with Some pi => (pi, packs x, byName x)
    | None => (length (packs x), packs x ++ [mkPackRef (IName p) (ISalt p) (ISize p)], <[IName p := length (packs x)]> (byName x)) end) = (pi, ps, names) /\
    ps !! pi = Some (refOf p) /\ (forall i r, packs x !! i = Some r -> ps !! i = Some r) /\ names !! IName p = Some pi /\
    (forall n, n <> IName p -> names !! n = byName x !! n)) as (pi & ps & names & -> & Hpi & Hmore & Hname & Hother).
  { destruct (byName x !! IName p) as [i|] eqn:E.
    - exists i, (packs x), (byName x). split_and!; try done. destruct (Hn _ _ E) as (q & Hq & Hqn & ->). f_equal. apply Hcons; [set_solver..|done].
    - eexists _, _, _. split; [done|]. split_and!.
      + by rewrite lookup_app_r, Nat.sub_diag by lia.
      + intros i r Hi. by apply lookup_app_l_Some.
      + apply lookup_insert_eq.
      + intros n Hne. by rewrite lookup_insert_ne. }
  unfold indexes. cbn [byName packs chunks]. split_and!.
  - intros n i Hi. destruct (decide (n = IName p)) as [->|Hne].
    + exists p. split_and!; [set_solver|done|congruence].
    + rewrite Hother in Hi by done. destruct (Hn _ _ Hi) as (q & Hq & <- & Hr). exists q. split_and!; [set_solver|done|by apply Hmore].
  - intros q [Hq|Hq]%elem_of_app; [|apply list_elem_of_singleton in Hq as ->; by eexists]. destruct (decide (IName q = IName p)) as [->|Hne]; [by eexists|].
    rewrite Hother by done. by apply Hp.
  - intros h. rewrite firstLoc_app, addEntries_lookup. specialize (Hc h). destruct (firstLoc infos h) as [l|].
    + destruct Hc as (c & -> & Hl & He). exists c. split_and!; [done|by apply Hmore|done].
    + rewrite Hc. destruct (entryOf h (IEntries p)) as [e|] eqn:Ee; [|done]. cbn. eexists. split; [done|]. cbn. split; [done|].
      apply entryOf_hash in Ee as [_ <-]. by destruct e.
Qed.

Lemma foldl_indexes infos : consistent infos -> indexes (foldl Add New infos) infos.
Proof.
  induction infos as [|p infos IH] using rev_ind; intros Hc; [apply New_indexes|]. rewrite foldl_app. cbn. apply Add_indexes; [|done].
  apply IH. intros a b Ha Hb. apply Hc; set_solver.
Qed.

Lemma indexes_Lookup x infos h : indexes x infos -> Lookup x h = Ok <$> firstLoc infos h /\ Has x h = bool_decide (is_Some (firstLoc infos h)).
Proof.
  intros (_ & _ & Hc). specialize (Hc h). unfold Lookup, Has. destruct (firstLoc infos h) as [l|].
  - destruct Hc as (c & -> & -> & He). split; [|by apply bool_decide_ext]. cbn. do 2 f_equal. destruct l. cbn in *. by rewrite <-He.
  - rewrite Hc. split; [done|]. by apply bool_decide_ext.
Qed.

Lemma firstLoc_spec infos h :
  match firstLoc infos h with
  | Some l => exists p, p ∈ infos /\ LPack l = refOf p /\ LEntry l ∈ IEntries p /\ EHash (LEntry l) = h
  | None => forall p e, p ∈ infos -> e ∈ IEntries p -> EHash e <> h
  end.
Proof.
  induction infos as [|p infos IH]; cbn [firstLoc]; [by intros p e ?%elem_of_nil|]. destruct (entryOf h (IEntries p)) as [e|] eqn:Ee.
  - apply entryOf_hash in Ee as [He Hh]. exists p. cbn. split_and!; [by left|done..].
  - destruct (firstLoc infos h) as [l|].
    + destruct IH as (q & Hq & ?). exists q. split; [by right|done].
    + intros q e [->|Hq]%elem_of_cons He; [|by eapply IH]. intros Hh. apply list_elem_of_In in He.
      pose proof (List.find_none _ _ Ee e He) as Hn. cbn in Hn. by apply bool_decide_eq_false in Hn.
Qed.

(** ** From the packs written to the chunks read *)

Section EndToEnd.
Context {HH : Hasher} {HA : Aead} {AO : AeadOk} {HZ : Zstd} {ZO : ZstdOk} (kr : Keyring) (repo : RepoID).

(** A pack finished from a writer that holds the chunks [σ]. *)
Definition finished (f : gmap hash bytes * Built) : Prop :=
  exists nonce w w', holds kr repo w f.1 /\ zlen nonce = NonceSize /\ Finish nonce w = (Ok f.2, w').

(** Reading a chunk as a reader does: the frame at its place in the pack, opened
    with the keys of the pack's salt. *)
Definition readAt (b : bytes) (l : Location) : res bytes :=
  ks ← DeriveKeys kr repo (PRSalt (LPack l));
  frame ← frameOf b (LEntry l);
  OpenFrame ks (LEntry l) frame.

Lemma finished_ok f : finished f -> info_ok (BInfo f.2) /\ IName (BInfo f.2) = BName f.2 /\ BName f.2 = PackName (Sum (BBytes f.2)) /\
  (forall h, is_Some (f.1 !! h) -> exists e, e ∈ IEntries (BInfo f.2) /\ EHash e = h) /\
  (forall e, e ∈ IEntries (BInfo f.2) -> exists data, f.1 !! EHash e = Some data /\ readAt (BBytes f.2) (mkLocation (refOf (BInfo f.2)) e) = Ok data).
Proof.
  intros (nonce & w & w' & (ks & fs & H) & Hn & Hf). destruct (Finish_held kr repo nonce w f.1 ks fs H Hn) as (b & w2 & Hf' & _ & Hname & He & Hsalt & _ & (post & Hb) & Hsz & Hin & His & Hlen).
  rewrite Hf in Hf'. injection Hf' as Eb <-. rewrite Eb. pose proof (indexOf_ok _ _ _ _ _ _ H) as Hok. pose proof (held_small _ _ _ _ _ _ H) as Hsm.
  pose proof (h_frames _ _ _ _ _ _ H) as Hfr. rewrite Forall_forall in Hfr.
  assert (zlen (BBytes b) <= MaxPackSize) as Hmax.
  { destruct (Z.le_gt_cases (zlen fs) 1) as [H1|H1].
    - pose proof (h_one _ _ _ _ _ _ H H1) as Hone. unfold Pack.Size in Hsz. rewrite (held_count _ _ _ _ _ _ H) in Hsz. unfold indexBound, maxEntryLen in Hsz.
      change (zlen indexMagic) with 4 in Hsz. unfold HeaderSize, MaxChunkSize, sealOverhead, TrailerSize, MaxPackSize in *. lia.
    - pose proof (h_many _ _ _ _ _ _ H H1). destruct (h_max _ _ _ _ _ _ H). lia. }
  assert (SealedIndexLen (indexOf w) = zlen (encodeIndex (indexOf w)) + sealOverhead) as Hsi.
  { apply SealedIndexLen_length. unfold MaxPackSize, TrailerSize, two64 in *. lia. }
  pose proof (header_length (wsalt w)) as Hh. pose proof (h_buf _ _ _ _ _ _ H) as Hbuf. apply (f_equal length) in Hbuf. rewrite length_app in Hbuf.
  split_and!; [|done|done| |].
  - split; [|split; [|apply SealedIndexLen_pos]].
    + rewrite His. unfold MaxPackSize, HeaderSize, TrailerSize, sealOverhead in *. lia.
    + rewrite He, His, Hlen, Hsi. replace (_ - _ - _) with (zlen (wbuf w)) by lia. exact Hok.
  - intros h Hh'%(h_dom _ _ _ _ _ _ H). rewrite (h_order _ _ _ _ _ _ H) in Hh'. apply list_elem_of_fmap in Hh' as ([e s] & -> & Hi). exists e. rewrite He.
    split; [|done]. apply (indexOf_elem _ _ _ _ _ _ _ H). eauto.
  - intros e. rewrite He. intros (s & Hi)%(indexOf_elem _ _ _ _ _ _ _ H). destruct (Hfr _ Hi) as (_ & d & Hd & Ho). exists d. split; [done|].
    unfold readAt, refOf. cbn [LPack LEntry PRSalt]. rewrite Hsalt, (h_derive _ _ _ _ _ _ H), Hb. cbn [mbind res_bind].
    rewrite (held_frame _ _ _ _ _ _ _ _ _ H Hi). exact Ho.
Qed.

Lemma objectHeader_enc salt : objectHeader salt = objectMagic ++ encU16 version ++ hbytes salt ++ [].
Proof. unfold objectHeader. wr_norm. rewrite app_nil_r. by rewrite <-?app_assoc. Qed.

(** An index object, sealed and opened. *)
Lemma DecodeObject_Encode salt nonce ps name blob : object_ok ps -> zlen nonce = NonceSize -> EncodeObject salt nonce kr repo ps = Ok (name, blob) ->
  exists ps', DecodeObject kr repo name blob = Ok ps' /\ ps' ≡ₚ ps.
Proof.
  intros Hok Hn. unfold EncodeObject. destruct (_ <? _); [done|]. destruct (encodePlain_decodePlain ps Hok) as (b & ps' & -> & Hd & Hp). cbn [mbind res_bind].
  destruct (deriveKey kr Index repo salt) as [k|] eqn:Ek; [|done]. cbn [mbind res_bind].
  destruct (Seal nonce (objectHeader salt) b k) as [[sealed|] k'] eqn:Es; [|done]. cbn [fst mbind res_bind].
  remember (wRaw (objectHeader salt) sealed) as bl eqn:Ebl. destruct (MaxObjectSize <? _) eqn:Em; [done|]. intros [= <- <-]. subst bl. exists ps'. split; [|done]. unfold DecodeObject.
  destruct (Seal_ok _ _ _ _ _ _ Hn Es) as (Hk & _ & _ & _ & Hl & Ho).
  assert (zlen (objectHeader salt) = headerSize) as Hh by (unfold objectHeader; wr_norm; rewrite !length_app, length_encU16, hash_length; done).
  rewrite bool_decide_eq_true_2 by done. cbn [negb]. unfold wRaw in *. rewrite Em. rewrite length_app, (proj2 (Z.ltb_ge _ headerSize)) by lia. cbn [orb].
  rewrite take_app_length', drop_app_length' by lia. pose proof (at_new (objectHeader salt)) as Ha. rewrite objectHeader_enc in Ha at 2. assert (zlen objectMagic = 4) by reflexivity. unfold version in *. do 3 rd_fwd. rewrite (proj2 (Done_None _) Ha). cbn [nilb default].
  rewrite bool_decide_eq_false_2 by (intros Hx; by apply Hx). rewrite bool_decide_eq_true_2 by done. cbn [negb orb Z.eqb Pos.eqb]. rewrite Ek. cbn [mbind res_bind].
  rewrite Ho; [done|]. destruct Hk as (_ & _ & Hk & _). by split_and!.
Qed.
(** C14. Nothing written is lost or misplaced. Packs finished from writers that
    hold chunks, their records sealed into an index object, and the index
    loaded from it: the object opens, the index has exactly the chunks the
    packs were given, and the location it gives for one names a pack whose
    bytes at that location open to the chunk itself. *)
Theorem located_chunks_read_back salt nonce fs name blob :
  Forall finished fs -> NoDup (BName <$> fs.*2) -> zlen fs <= MaxPacksPerObject -> zlen nonce = NonceSize ->
  EncodeObject salt nonce kr repo (BInfo <$> fs.*2) = Ok (name, blob) ->
  exists infos, DecodeObject kr repo name blob = Ok infos /\
    forall h, let x := foldl Add New infos in
      (Has x h = true <-> exists f, f ∈ fs /\ is_Some (f.1 !! h)) /\
      (Has x h = true -> exists l f data, Lookup x h = Some (Ok l) /\ f ∈ fs /\ PRName (LPack l) = BName f.2 /\
        f.1 !! h = Some data /\ readAt (BBytes f.2) l = Ok data).
Proof.
  intros Hf Hd Hl Hn He. rewrite Forall_forall in Hf.
  assert (forall f, f ∈ fs -> info_ok (BInfo f.2) /\ IName (BInfo f.2) = BName f.2 /\ BName f.2 = PackName (Sum (BBytes f.2))) as Hinfo.
  { intros f Hi. destruct (finished_ok f (Hf f Hi)) as (? & ? & ? & _). done. }
  assert (IName <$> (BInfo <$> fs.*2) = BName <$> fs.*2) as Hnames.
  { rewrite <-!list_fmap_compose. apply list_fmap_ext. intros i f Hi. apply Hinfo. by eapply list_elem_of_lookup_2. }
  destruct (DecodeObject_Encode salt nonce (BInfo <$> fs.*2) name blob) as (infos & Hdec & Hp); [|done|done|].
  { split_and!; [by rewrite !length_fmap|by rewrite Hnames|]. apply Forall_forall. intros p (b & -> & (f & -> & Hi)%list_elem_of_fmap)%list_elem_of_fmap.
    destruct (Hinfo f Hi) as (Hio & Hin & Hbn). split; [|done]. eexists. by rewrite Hin. }
  exists infos. split; [done|]. intros h x.
  assert (forall p, p ∈ infos <-> exists f, f ∈ fs /\ p = BInfo f.2) as Hin.
  { intros p. rewrite Hp, list_elem_of_fmap. split.
    - intros (b & -> & (f & -> & Hi)%list_elem_of_fmap). eauto.
    - intros (f & Hi & ->). exists f.2. split; [done|]. by apply list_elem_of_fmap_2. }
  assert (consistent infos) as Hcons.
  { assert (NoDup (IName <$> infos)) as Hnd by (by rewrite Hp, Hnames). intros p q [i Hi]%list_elem_of_lookup_1 [j Hj]%list_elem_of_lookup_1 E.
    enough (i = j) by congruence. apply (NoDup_lookup _ i j (IName p) Hnd); rewrite list_lookup_fmap; [by rewrite Hi|by rewrite Hj, E]. }
  destruct (indexes_Lookup x infos h (foldl_indexes infos Hcons)) as [HL HH']. rewrite HL, HH'. pose proof (firstLoc_spec infos h) as Hs.
  destruct (firstLoc infos h) as [l|].
  - rewrite bool_decide_eq_true_2 by (by eexists). destruct Hs as (p & (f & Hi & ->)%Hin & Hpk & Hel & <-).
    destruct (finished_ok f (Hf f Hi)) as (_ & Hnm & _ & _ & Hrd). destruct (Hrd _ Hel) as (data & Hdt & Hr). split.
    + split; [|done]. intros _. exists f. split; [done|by eexists].
    + intros _. exists l, f, data. split_and!; try done; [by rewrite Hpk|]. rewrite <-Hpk in Hr. by destruct l.
  - rewrite bool_decide_eq_false_2 by (by intros [? ?]). split; [|done]. split; [done|]. intros (f & Hi & Hh). exfalso.
    destruct (finished_ok f (Hf f Hi)) as (_ & _ & _ & Hdm & _). destruct (Hdm h Hh) as (e & Hel & Heh). eapply Hs; [apply Hin; eauto|done..].
Qed.
End EndToEnd.

(** ** An example *)

Section Example.
#[local] Existing Instance toy_hasher.
#[local] Instance plain_zstd : Zstd := {| EncodeAll := fun d => d; DecodeAll := Some |}.
#[local] Instance plain_zstd_ok : ZstdOk.
Proof. done. Qed.

Lemma located_chunks_read_back_witness :
  exists infos name blob, DecodeObject exKeyring exRepoID name blob = Ok infos /\ Has (foldl Add New infos) (Sum (str "one")) = true.
Proof.
  destruct (NewWriterSized zero_hash exKeyring exRepoID 1000 0) as [w0|] eqn:E0; [|exfalso; vm_compute in E0; discriminate].
  pose proof (NewWriter_ok exKeyring exRepoID _ _ _ _ E0) as H0. destruct (Pack.Add exNonce (Sum (str "one")) (str "one") w0) as [r w] eqn:E1.
  assert (r = Ok tt) as ->.
  { vm_compute in E0. injection E0 as <-. apply (f_equal fst) in E1. vm_compute in E1. exact (eq_sym E1). }
  destruct (Add_held exKeyring exRepoID exNonce (str "one") w0 (Ok tt) w ∅ H0 eq_refl E1) as [Hw _]. rewrite insert_empty in Hw.
  destruct (Finish exNonce w) as [[b|] w'] eqn:E2; [|exfalso; vm_compute in E0; injection E0 as <-; vm_compute in E1; injection E1 as <-; vm_compute in E2; discriminate].
  destruct (EncodeObject zero_hash exNonce exKeyring exRepoID [BInfo b]) as [[name blob]|] eqn:E3;
    [|exfalso; vm_compute in E0; injection E0 as <-; vm_compute in E1; injection E1 as <-; vm_compute in E2; injection E2 as <- <-; vm_compute in E3; discriminate].
  destruct (located_chunks_read_back exKeyring exRepoID zero_hash exNonce [({[Sum (str "one") := str "one"]}, b)] name blob) as (infos & Hd & Hx).
  - constructor; [|constructor]. exists exNonce, w, w'. split; [exact Hw|]. split; [reflexivity|exact E2].
  - apply NoDup_singleton.
  - vm_compute. discriminate.
  - reflexivity.
  - exact E3.
  - exists infos, name, blob. split; [exact Hd|]. apply (Hx (Sum (str "one"))). eexists. split; [apply list_elem_of_singleton; reflexivity|]. cbn [fst].
    rewrite lookup_singleton_eq. eexists. reflexivity.
Defined.
End Example.
