(* ===== verification/Table.v ===== *)
(** * core/dedup: the table on disk

    [Builder] sorts records a run at a time, spills the runs and merges them;
    [Table] answers lookups from the merged file with two range reads. The
    temporary files are values holding their bytes, and reading or writing one
    does not fail. *)

From S2P Require Import Prelude GoStd Wire Hash.

Definition tableMagic : bytes := str "SCTB".
Definition tableVersion : Z := 1.
Definition tableHeader : Z := 32.
Definition sampleEvery : Z := 256.
Definition MaxValueLen : Z := 255.
Definition defaultRunSize : Z := 2 ^ 19.
Definition mergeFanIn : nat := 32.

(** ** Building *)

(** [brec] is the size of a record, [runs] the spilled files. *)
Record Builder := mkBuilder { valueLen : Z; brec : Z; runSize : Z; bbuf : bytes; bn : Z; runs : list bytes }.

Definition NewBuilder (valueLen : Z) : res Builder :=
  if (valueLen <? 0) || (MaxValueLen <? valueLen) then Err (EMsg "dedup: table value length")
  else Ok (mkBuilder valueLen (32 + valueLen) defaultRunSize [] 0 []).

(** [b[off : off+n]], for ranges within [b]. *)
Definition sub (b : bytes) (off n : Z) : bytes := take (Z.to_nat n) (drop (Z.to_nat off) b).

(** The key of the [i]th record of a run in memory. *)
Definition keyAt (b : Builder) (i : Z) : bytes := sub (bbuf b) (i * brec b) 32.

(** [SortStableFunc] by key of indices in increasing order: of equal keys the
    smaller index stays first. *)
Definition idx_le (b : Builder) (i j : Z) : Prop := keyAt b i <b keyAt b j \/ (keyAt b i = keyAt b j /\ i <= j).

#[export] Instance idx_le_dec b i j : Decision (idx_le b i j).
Proof. unfold idx_le. apply _. Defined.

(** Indices are [int32]; a run has fewer than [2^31] records. *)
Definition spill (b : Builder) : Builder :=
  if bn b =? 0 then b
  else
    let idx := merge_sort (idx_le b) (Z.of_nat <$> seq 0 (Z.to_nat (bn b))) in
    let w := foldl (fun w i => w ++ sub (bbuf b) (i * brec b) (brec b)) [] idx in
    mkBuilder (valueLen b) (brec b) (runSize b) [] 0 (runs b ++ [w]).

Definition Add (h : hash) (value : bytes) : M Builder unit := fun b =>
  if negb (zlen value =? valueLen b) then (Err (EMsg "dedup: table value"), b)
  else
    let b := mkBuilder (valueLen b) (brec b) (runSize b) ((bbuf b ++ hbytes h) ++ value) (bn b + 1) (runs b) in
    if runSize b <=? bn b then (Ok tt, spill b) else (Ok tt, b).

(** *** Merging runs *)

(** A run being merged: its number, the bytes not yet read, its current record. *)
Record run := mkRun { ri : nat; rr : bytes; rrec : bytes }.

(** [run.next]: [io.ReadFull] of a record, false at the end of the file. *)
Definition run_next (rec : Z) (r : run) : res (option run) :=
  if bool_decide (rr r = []) then Ok None
  else if zlen (rr r) <? rec then Err (EMsg "dedup: reading a spilled run")
  else Ok (Some (mkRun (ri r) (drop (Z.to_nat rec) (rr r)) (take (Z.to_nat rec) (rr r)))).

Definition Less (a b : run) : bool :=
  match bcompare (take 32 (rrec a)) (take 32 (rrec b)) with
  | Lt => true
  | Eq => (ri a <? ri b)%nat
  | Gt => false
  end.

(** The heap of runs: its first element, the least, and the others. *)
Fixpoint heapTop (heads : list run) : option (run * list run) :=
  match heads with
  | [] => None
  | r :: heads =>
      match heapTop heads with
      | None => Some (r, [])
      | Some (m, rest) => if Less m r then Some (m, r :: rest) else Some (r, heads)
      end
  end.

Fixpoint openRuns (rec : Z) (i : nat) (runs : list bytes) : res (list run) :=
  match runs with
  | [] => Ok []
  | p :: runs =>
      ok ← run_next rec (mkRun i p []);
      heads ← openRuns rec (S i) runs;
      Ok (match ok with Some r => r :: heads | None => heads end)
  end.

(** What a merge has written: the key last written, the number of records, the
    records and the samples. *)
Record merged := mkMerged { mlast : option bytes; mcount : Z; mout : bytes; msamples : bytes }.

Definition mergeStep (sampled : bool) (r : run) (m : merged) : merged :=
  let k := take 32 (rrec r) in
  if bool_decide (mlast m = Some k) then m
  else mkMerged (Some k) (mcount m + 1) (mout m ++ rrec r)
         (if sampled && (mcount m mod sampleEvery =? 0) then msamples m ++ k else msamples m).

Fixpoint mergeLoop (fuel : nat) (rec : Z) (sampled : bool) (heads : list run) (m : merged) : res merged :=
  match heapTop heads with
  | None => Ok m
  | Some (r, rest) =>
      match fuel with
      | O => Err (EMsg "fuel")
      | S fuel =>
          let m := mergeStep sampled r m in
          ok ← run_next rec r;
          mergeLoop fuel rec sampled (match ok with Some r => r :: rest | None => rest end) m
      end
  end.

(** A round reads a record, so the bytes of the runs are fuel enough. *)
Definition merge (rec : Z) (runs : list bytes) (sampled : bool) : res merged :=
  heads ← openRuns rec 0 runs;
  mergeLoop (length (concat runs)) rec sampled heads (mkMerged None 0 [] []).

(** One pass over too many runs: each group of [mergeFanIn] becomes a run. *)
Fixpoint mergeGroups (fuel : nat) (rec : Z) (runs : list bytes) : res (list bytes) :=
  match fuel, runs with
  | _, [] => Ok []
  | O, _ => Err (EMsg "fuel")
  | S fuel, _ =>
      m ← merge rec (take mergeFanIn runs) false;
      next ← mergeGroups fuel rec (drop mergeFanIn runs);
      Ok (mout m :: next)
  end.

Fixpoint reduceRuns (fuel : nat) (rec : Z) (runs : list bytes) : res (list bytes) :=
  if (length runs <=? mergeFanIn)%nat then Ok runs
  else match fuel with
       | O => Err (EMsg "fuel")
       | S fuel => next ← mergeGroups (length runs) rec runs; reduceRuns fuel rec next
       end.

(** ** Tables *)

Record Table := mkTable { tfile : bytes; tvalueLen : Z; trec : Z; tcount : Z; tsamples : Z; l1 : list bytes }.

Definition sampleOff (count rec j : Z) : Z := tableHeader + count * rec + j * 32.
Definition recordOff (rec i : Z) : Z := tableHeader + i * rec.

(** [ReadAt] of [n] bytes: an error when the file ends before them. *)
Definition ReadAt (f : bytes) (off n : Z) : res bytes :=
  if zlen f <? off + n then Err EOF else Ok (sub f off n).

(** The first-level samples: every [sampleEvery]th. *)
Definition loadL1 (f : bytes) (count rec samples : Z) : res (list bytes) :=
  res_map (fun i => ReadAt f (sampleOff count rec (Z.of_nat i * sampleEvery)) 32)
    (seq 0 (Z.to_nat ((samples + sampleEvery - 1) / sampleEvery))).

Definition openTable (f : bytes) : res Table :=
  let size := zlen f in
  if size <? tableHeader then Err DedupCorrupt
  else
    let hdr := sub f 0 tableHeader in
    let valueLen := le_dec (sub hdr 6 2) in
    let count := le_dec (sub hdr 8 8) in
    if negb (bool_decide (sub hdr 0 4 = tableMagic)) then Err DedupCorrupt
    else if negb (le_dec (sub hdr 4 2) =? tableVersion) then Err DedupCorrupt
    else if MaxValueLen <? valueLen then Err DedupCorrupt
    else if negb (le_dec (sub hdr 16 4) =? sampleEvery) then Err DedupCorrupt
    else if negb (bool_decide (drop 20 hdr = replicate 12 Byte.x00)) then Err DedupCorrupt
    else
      let rec := 32 + valueLen in
      if (size - tableHeader) / rec <? count then Err DedupCorrupt
      else
        let samples := (count + sampleEvery - 1) / sampleEvery in
        if negb (tableHeader + count * rec + samples * 32 =? size) then Err DedupCorrupt
        else
          l1 ← loadL1 f count rec samples;
          Ok (mkTable f valueLen rec count samples l1).

Definition tableHdr (valueLen count : Z) : bytes :=
  tableMagic ++ encU16 tableVersion ++ encU16 valueLen ++ encU64 count ++ encU32 sampleEvery ++ replicate 12 Byte.x00.

(** [Builder.finish]: spill, merge down to [mergeFanIn] runs, write the table. *)
Definition finish (b : Builder) : res Table :=
  let b := spill b in
  runs ← reduceRuns (length (runs b)) (brec b) (runs b);
  m ← merge (brec b) runs true;
  openTable (tableHdr (valueLen b) (mcount m) ++ mout m ++ msamples m).

Definition Abort (b : Builder) : Builder := mkBuilder (valueLen b) (brec b) (runSize b) [] (bn b) [].

Definition Finish : M Builder Table := fun b => (finish b, Abort (spill b)).

(** [t.l1[i]], [keys[i*32:(i+1)*32]] and [recs[i*rec:i*rec+32]] over [h]. *)
Definition above (h : hash) (k : bytes) : bool := match bcompare k (hbytes h) with Gt => true | _ => false end.
Definition atOrAbove (h : hash) (k : bytes) : bool := match bcompare k (hbytes h) with Lt => false | _ => true end.

Definition Lookup (t : Table) (h : hash) : res (option bytes) :=
  if tcount t =? 0 then Ok None
  else
    let i1 := Z.of_nat (list_search (above h) (l1 t)) - 1 in
    if i1 <? 0 then Ok None
    else
      let from := i1 * sampleEvery in
      let n := Z.min sampleEvery (tsamples t - from) in
      keys ← ReadAt (tfile t) (sampleOff (tcount t) (trec t) from) (n * 32);
      let j := Z.of_nat (go_search (Z.to_nat n) (fun i => above h (sub keys (Z.of_nat i * 32) 32))) - 1 in
      if j <? 0 then Ok None
      else
        let block := from + j in
        let first := block * sampleEvery in
        let n := Z.min sampleEvery (tcount t - first) in
        recs ← ReadAt (tfile t) (recordOff (trec t) first) (n * trec t);
        let k := go_search (Z.to_nat n) (fun i => atOrAbove h (sub recs (Z.of_nat i * trec t) 32)) in
        if (Z.of_nat k =? n) || negb (bool_decide (sub recs (Z.of_nat k * trec t) 32 = hbytes h)) then Ok None
        else Ok (Some (sub recs (Z.of_nat k * trec t + 32) (trec t - 32))).

Definition Has (t : Table) (h : hash) : res bool := v ← Lookup t h; Ok (bool_decide (is_Some v)).

Definition Len (t : Table) : Z := tcount t.

(** A sequential read: the bytes not yet read, the records left. *)
Record Cursor := mkCursor { cr : bytes; cleft : Z; crec : Z }.

Definition newCursor (t : Table) : Cursor := mkCursor (sub (tfile t) tableHeader (tcount t * trec t)) (tcount t) (trec t).

Definition Next (c : Cursor) : res (option (hash * bytes) * Cursor) :=
  if cleft c =? 0 then Ok (None, c)
  else if zlen (cr c) <? crec c then Err EOF
  else
    let rec := take (Z.to_nat (crec c)) (cr c) in
    Ok (Some (to_hash (take 32 rec), drop 32 rec), mkCursor (drop (Z.to_nat (crec c)) (cr c)) (cleft c - 1) (crec c)).

(** ** Records in a file *)

Definition rkey (x : bytes) : bytes := take 32 x.

(** Records of one size, at least a key long. *)
Definition sized (rec : Z) (l : list bytes) : Prop := 32 <= rec /\ Forall (fun x => zlen x = rec) l.

Lemma sized_concat rec l : sized rec l -> zlen (concat l) = zlen l * rec.
Proof.
  intros [Hr Hl]. induction Hl as [|x l Hx _ IH]; cbn [concat length]; [lia|]. rewrite length_app. lia.
Qed.

Lemma sized_app rec l1 l2 : sized rec (l1 ++ l2) <-> sized rec l1 /\ sized rec l2.
Proof. unfold sized. rewrite Forall_app. naive_solver. Qed.

Lemma sized_perm rec l1 l2 : l1 ≡ₚ l2 -> sized rec l1 -> sized rec l2.
Proof. intros Hp [Hr Hl]. split; [done|]. by rewrite <-Hp. Qed.

Lemma sized_cons rec x l : sized rec (x :: l) <-> 32 <= rec /\ zlen x = rec /\ sized rec l.
Proof. unfold sized. rewrite Forall_cons. naive_solver. Qed.

(** A range of whole records of a file. *)
Lemma sub_concat rec l i n : sized rec l -> 0 <= i -> 0 <= n -> i + n <= zlen l ->
  sub (concat l) (i * rec) (n * rec) = concat (take (Z.to_nat n) (drop (Z.to_nat i) l)).
Proof.
  intros Hs Hi Hn Hl. rewrite <-(take_drop (Z.to_nat i) l) at 1. rewrite concat_app.
  pose proof Hs as [Hr _]. rewrite <-(take_drop (Z.to_nat i) l) in Hs. apply sized_app in Hs as [H1 H2].
  unfold sub. rewrite drop_app_length'.
  - rewrite <-(take_drop (Z.to_nat n) (drop _ l)) in H2 |- * at 1. apply sized_app in H2 as [H2 _]. rewrite concat_app, take_app_length'; [done|].
    apply sized_concat in H2. rewrite length_take, length_drop, Nat.min_l, Z2Nat.id in H2 by lia. lia.
  - apply sized_concat in H1. rewrite length_take, Nat.min_l, Z2Nat.id in H1 by lia. lia.
Qed.

Lemma sub_record rec l i x : sized rec l -> 0 <= i -> l !! Z.to_nat i = Some x -> sub (concat l) (i * rec) rec = x.
Proof.
  intros Hs Hi Hx. pose proof (lookup_lt_Some _ _ _ Hx). pose proof (sub_concat rec l i 1 Hs Hi ltac:(lia) ltac:(lia)) as E. rewrite Z.mul_1_l in E. rewrite E.
  rewrite (drop_S _ _ _ Hx). cbn. apply app_nil_r.
Qed.

Lemma sub_within b off m o n : 0 <= off -> 0 <= o -> 0 <= n -> o + n <= m -> sub (sub b off m) o n = sub b (off + o) n.
Proof.
  intros. unfold sub. rewrite skipn_firstn_comm, take_take, drop_drop. f_equal; [lia|]. f_equal. lia.
Qed.

Lemma sub_key rec l i x : sized rec l -> 0 <= i -> l !! Z.to_nat i = Some x -> sub (concat l) (i * rec) 32 = rkey x.
Proof.
  intros Hs Hi Hx. pose proof Hs as [Hr _]. rewrite <-(sub_record rec l i x Hs Hi Hx). unfold rkey, sub. rewrite take_take. f_equal. lia.
Qed.

(** ** Runs *)

(** Keys never decrease. *)
Definition rsorted (l : list bytes) : Prop := StronglySorted (fun x y => rkey x <=b rkey y) l.

Lemma klookup_filter (k : bytes) (l : list bytes) : klookup rkey k l = head (filter (fun x => rkey x = k) l).
Proof. induction l as [|x l IH]; [done|]. rewrite klookup_cons, filter_cons. case_decide; done. Qed.

Lemma concat_foldl {A} (f : A -> bytes) l : forall w, foldl (fun w i => w ++ f i) w l = w ++ concat (f <$> l).
Proof. induction l as [|x l IH]; intros w; cbn; [by rewrite app_nil_r|]. by rewrite IH, <-app_assoc. Qed.

Lemma keyAt_nth b l (i : nat) : sized (brec b) l -> bbuf b = concat l -> (i < length l)%nat -> keyAt b (Z.of_nat i) = rkey (l !!! i).
Proof.
  intros Hs Hb Hi. unfold keyAt. rewrite Hb. apply sub_key; [done|lia|]. rewrite Nat2Z.id. by apply list_lookup_lookup_total_lt.
Qed.

#[export] Instance idx_le_total b : Total (idx_le b).
Proof. intros i j. unfold idx_le. destruct (blt_trichotomy (keyAt b i) (keyAt b j)) as [?|[?|?]]; [by left; left| |by right; left]. destruct (Z.le_ge_cases i j); [left|right]; right; by split. Qed.
#[export] Instance idx_le_trans b : Transitive (idx_le b).
Proof.
  intros i j k. unfold idx_le. intros [H1|[E1 H1]] [H2|[E2 H2]]; rewrite ?E1, ?E2 in *; [left; by eapply blt_trans|by left; rewrite <-?E2 in *|by left|].
  right. split; [done|lia].
Qed.

Lemma filter_map_fmap {A B} (f : A -> B) (P : B -> Prop) `{forall x, Decision (P x)} (l : list A) :
  filter P (f <$> l) = f <$> filter (fun x => P (f x)) l.
Proof. induction l as [|x l IH]; [done|]. rewrite fmap_cons, !filter_cons. case_decide; [rewrite fmap_cons|]; by rewrite IH. Qed.

Lemma StronglySorted_filter {A} (R : A -> A -> Prop) (P : A -> Prop) `{forall x, Decision (P x)} l :
  StronglySorted R l -> StronglySorted R (filter P l).
Proof.
  induction 1 as [|x l Hl IH Hx]; [constructor|]. rewrite filter_cons. case_decide; [|done]. constructor; [done|].
  rewrite Forall_forall in *. intros y [_ Hy]%list_elem_of_filter. by apply Hx.
Qed.

Lemma seq_sorted_le o n : StronglySorted Z.le (Z.of_nat <$> seq o n).
Proof.
  revert o. induction n as [|n IH]; intros o; cbn; constructor; [apply IH|]. rewrite Forall_fmap. apply Forall_forall. intros x Hx%elem_of_seq. cbn. lia.
Qed.

(** The run spilled: the records in the order of their keys, those of one key
    in the order they were added. *)
Lemma spill_run b l : sized (brec b) l -> bbuf b = concat l -> bn b = zlen l -> l <> [] ->
  exists s, spill b = mkBuilder (valueLen b) (brec b) (runSize b) [] 0 (runs b ++ [concat s]) /\
    s ≡ₚ l /\ rsorted s /\ forall k, klookup rkey k s = klookup rkey k l.
Proof.
  intros Hs Hb Hn Hne. unfold spill. assert (zlen l <> 0) by (by destruct l). rewrite Hn, (proj2 (Z.eqb_neq _ _)) by done. rewrite Nat2Z.id.
  set (all := Z.of_nat <$> seq 0 (length l)). set (idx := merge_sort (idx_le b) all). set (f := fun i : Z => l !!! Z.to_nat i).
  assert (idx ≡ₚ all) as Hp by apply merge_sort_Permutation.
  assert (forall i, i ∈ idx -> 0 <= i /\ (Z.to_nat i < length l)%nat) as Hrange.
  { intros i. rewrite Hp. unfold all. rewrite list_elem_of_fmap. intros (j & -> & Hj%elem_of_seq). lia. }
  assert (forall i, i ∈ idx -> keyAt b i = rkey (f i)) as Hkey.
  { intros i Hi. destruct (Hrange i Hi). rewrite <-(Z2Nat.id i) at 1 by lia. by apply keyAt_nth. }
  assert (f <$> all = l) as Hall.
  { apply list_eq. intros i. unfold all. rewrite <-list_fmap_compose, list_lookup_fmap. destruct (decide (i < length l)%nat) as [Hi|Hi].
    - rewrite lookup_seq_lt by done. cbn. unfold f. rewrite Nat2Z.id. by rewrite list_lookup_lookup_total_lt.
    - rewrite lookup_seq_ge by lia. symmetry. apply lookup_ge_None_2. lia. }
  exists (f <$> idx). split; [|split_and!].
  - do 3 f_equal. rewrite concat_foldl. cbn. f_equal. apply list_fmap_ext. intros j i Hi. apply list_elem_of_lookup_2 in Hi. destruct (Hrange i Hi).
    rewrite Hb. apply sub_record; [done..|]. unfold f. by apply list_lookup_lookup_total_lt.
  - by rewrite Hp, Hall.
  - pose proof (StronglySorted_merge_sort (idx_le b) all) as Hss. fold idx in Hss. unfold rsorted. clear Hp. induction Hss as [|i idx' Hidx IH Hi]; [constructor|].
    cbn. constructor; [apply IH; intros; [apply Hrange|apply Hkey]; by right|]. rewrite Forall_fmap. rewrite Forall_forall in *. intros j Hj. cbn.
    rewrite <-!Hkey by (by left || by right). destruct (Hi j Hj) as [?|[-> ?]]; [by apply blt_le|apply ble_refl].
  - intros k. rewrite !klookup_filter, <-Hall at 1. f_equal. rewrite !filter_map_fmap. f_equal.
    apply (StronglySorted_unique Z.le).
    + pose proof (StronglySorted_merge_sort (idx_le b) all) as Hss. fold idx in Hss. clear Hp. induction Hss as [|i idx' Hidx IH Hi]; [constructor|].
      rewrite filter_cons. case_decide as Hk; [|apply IH; intros; [apply Hrange|apply Hkey]; by right].
      constructor; [apply IH; intros; [apply Hrange|apply Hkey]; by right|]. rewrite Forall_forall in *. intros j [Hkj Hj]%list_elem_of_filter.
      destruct (Hi j Hj) as [Hlt|[_ ?]]; [|done]. rewrite !Hkey in Hlt by (by left || by right). rewrite Hk, Hkj in Hlt. by apply blt_irrefl in Hlt.
    + apply StronglySorted_filter, seq_sorted_le.
    + by rewrite Hp.
Qed.

(** A record, and adding many. *)
Definition recOf (kv : hash * bytes) : bytes := hbytes kv.1 ++ kv.2.

Fixpoint addAll (kvs : list (hash * bytes)) : M Builder unit :=
  match kvs with
  | [] => mret tt
  | (h, v) :: kvs => Add h v ;; addAll kvs
  end.

Lemma rkey_recOf kv : rkey (recOf kv) = hbytes kv.1.
Proof. unfold rkey, recOf. apply take_app_length'. symmetry; apply hash_length. Qed.

(** [b] holds the records [l] added to it: sorted runs and what is in memory. *)
Record built (b : Builder) (rs : list (list bytes)) (cur l : list bytes) : Prop := {
  b_size : brec b = 32 + valueLen b /\ 0 <= valueLen b <= MaxValueLen;
  b_runSize : 0 < runSize b;
  b_buf : bbuf b = concat cur;
  b_n : bn b = zlen cur;
  b_runs : runs b = @concat byte <$> rs;
  b_sized : sized (brec b) (concat rs ++ cur);
  b_sorted : Forall rsorted rs;
  b_same k : klookup rkey k (concat rs ++ cur) = klookup rkey k l;
  b_length : length (concat rs ++ cur) = length l;
}.

Lemma spill_built b rs cur l : built b rs cur l -> exists rs', built (spill b) rs' [] l.
Proof.
  intros H. destruct (decide (cur = [])) as [->|Hne].
  - exists rs. unfold spill. rewrite (b_n _ _ _ _ H). done.
  - pose proof (b_sized _ _ _ _ H) as Hs. apply sized_app in Hs as [Hs1 Hs2].
    destruct (spill_run b cur) as (s & -> & Hp & Hsrt & Hk); [done|apply H|apply H|done|]. exists (rs ++ [s]).
    assert (concat (rs ++ [s]) ++ [] = concat rs ++ s) as E by (rewrite concat_app; cbn; by rewrite !app_nil_r).
    split; cbn [brec valueLen runSize bbuf bn runs]; [apply H|apply H|done|done| | | | |].
    + rewrite (b_runs _ _ _ _ H), fmap_app. done.
    + rewrite E. apply sized_app. split; [done|]. by eapply sized_perm; [symmetry|].
    + apply Forall_app. split; [apply H|by constructor].
    + intros k. rewrite E, klookup_app, Hk, <-klookup_app. apply H.
    + rewrite E, <-(b_length _ _ _ _ H), !length_app. by rewrite Hp.
Qed.

Lemma Add_built b rs cur l h v : built b rs cur l -> zlen v = valueLen b ->
  exists b' rs' cur', Add h v b = (Ok tt, b') /\ built b' rs' cur' (l ++ [recOf (h, v)]) /\ valueLen b' = valueLen b.
Proof.
  intros H Hv. unfold Add. rewrite Hv, Z.eqb_refl. cbn [negb brec valueLen runSize bbuf bn runs].
  set (b1 := mkBuilder _ _ _ _ _ _).
  assert (built b1 rs (cur ++ [recOf (h, v)]) (l ++ [recOf (h, v)])) as H1.
  { split; cbn [brec valueLen runSize bbuf bn runs b1]; [apply H|apply H| | |apply H| |apply H| |].
    - rewrite (b_buf _ _ _ _ H), concat_app. cbn. by rewrite app_nil_r, <-app_assoc.
    - rewrite (b_n _ _ _ _ H), length_app. cbn. lia.
    - rewrite app_assoc. apply sized_app. split; [apply H|]. pose proof (b_size _ _ _ _ H) as [E Hl]. split; [lia|]. constructor; [|done].
      unfold recOf. cbn [fst snd]. rewrite length_app, hash_length. lia.
    - intros k. rewrite app_assoc, !(klookup_app _ _ _ [recOf (h, v)]), (b_same _ _ _ _ H). done.
    - rewrite app_assoc, !(length_app _ [recOf (h, v)]), (b_length _ _ _ _ H). done. }
  destruct (_ <=? _).
  - destruct (spill_built _ _ _ _ H1) as (rs' & H2). eexists _, _, _. split; [done|]. split; [done|].
    unfold spill. destruct (_ =? _); done.
  - eexists _, _, _. by split.
Qed.

Lemma addAll_built kvs : forall b rs cur l, built b rs cur l -> Forall (fun kv => zlen kv.2 = valueLen b) kvs ->
  exists b' rs' cur', addAll kvs b = (Ok tt, b') /\ built b' rs' cur' (l ++ (recOf <$> kvs)) /\ valueLen b' = valueLen b.
Proof.
  induction kvs as [|[h v] kvs IH]; intros b rs cur l H Hv; cbn [addAll].
  - exists b, rs, cur. by rewrite app_nil_r.
  - apply Forall_cons in Hv as [Hv Hvs]. destruct (Add_built b rs cur l h v H Hv) as (b1 & rs1 & cur1 & E & H1 & Ev).
    unfold mbind, M_bind. rewrite E. destruct (IH b1 rs1 cur1 _ H1) as (b2 & rs2 & cur2 & E2 & H2 & Ev2); [by rewrite Ev|].
    exists b2, rs2, cur2. rewrite <-app_assoc in H2. split_and!; [done|done|congruence].
Qed.

(** ** Merging *)

(** The heads of runs [R], numbered from [o]. *)
Fixpoint headsOf (o : nat) (R : list (list bytes)) : list run :=
  match R with
  | [] => []
  | [] :: R => headsOf (S o) R
  | (x :: l) :: R => mkRun o (concat l) x :: headsOf (S o) R
  end.

Lemma headsOf_app R1 R2 : forall o, headsOf o (R1 ++ R2) = headsOf o R1 ++ headsOf (o + length R1) R2.
Proof.
  induction R1 as [|[|x l] R1 IH]; intros o; cbn [app headsOf length]; [by rewrite Nat.add_0_r| |]; rewrite IH; [|cbn; f_equal]; do 2 f_equal; lia.
Qed.

Lemma headsOf_elem R r : forall o, r ∈ headsOf o R -> exists R1 x l R2, R = R1 ++ (x :: l) :: R2 /\ r = mkRun (o + length R1) (concat l) x.
Proof.
  induction R as [|[|x l] R IH]; intros o; cbn [headsOf]; [by intros ?%elem_of_nil| |].
  - intros (R1 & y & l & R2 & -> & ->)%IH. exists ([] :: R1), y, l, R2. split; [done|]. f_equal. cbn. lia.
  - intros [->|Hr]%elem_of_cons; [exists [], x, l, R; split; [done|]; f_equal; cbn; lia|]. apply IH in Hr as (R1 & y & l' & R2 & -> & ->).
    exists ((x :: l) :: R1), y, l', R2. split; [done|]. f_equal. cbn. lia.
Qed.

Lemma run_next_ok rec i l z : sized rec l -> run_next rec (mkRun i (concat l) z) = Ok (match l with [] => None | x :: l => Some (mkRun i (concat l) x) end).
Proof.
  intros Hs. unfold run_next. cbn [rr ri]. destruct l as [|x l]; [done|]. apply sized_cons in Hs as (Hr & Hx & _). cbn [concat].
  rewrite bool_decide_eq_false_2 by (intros [E _]%app_eq_nil; subst x; cbn in Hx; lia). rewrite length_app, (proj2 (Z.ltb_ge _ _)) by lia.
  rewrite drop_app_length', take_app_length' by lia. done.
Qed.

Lemma openRuns_ok rec R : sized rec (concat R) -> forall o, openRuns rec o (@concat byte <$> R) = Ok (headsOf o R).
Proof.
  induction R as [|l R IH]; intros Hs o; [done|]. cbn [concat] in Hs. apply sized_app in Hs as [Hl Hs]. cbn [fmap list_fmap openRuns].
  rewrite run_next_ok by done. cbn [mbind res_bind]. rewrite (IH Hs). by destruct l.
Qed.

Lemma Less_false a b : Less a b = false <-> rkey (rrec b) <b rkey (rrec a) \/ (rkey (rrec b) = rkey (rrec a) /\ (ri b <= ri a)%nat).
Proof.
  unfold Less. fold (rkey (rrec a)) (rkey (rrec b)). destruct (bcompare_spec (rkey (rrec a)) (rkey (rrec b))) as [E|E|E].
  - rewrite Nat.ltb_ge, E. split; [by right|]. intros [H|[_ H]]; [by apply blt_irrefl in H|done].
  - split; [done|]. intros [H|[H _]]; [exfalso; border|]. rewrite H in E. by apply blt_irrefl in E.
  - split; [by left|done].
Qed.

Lemma run_Less_trans a b c : Less a b = false -> Less b c = false -> Less a c = false.
Proof.
  rewrite !Less_false. intros [H1|[E1 H1]] [H2|[E2 H2]]; [left; by eapply blt_trans|left; by rewrite E2|left; by rewrite <-E1|].
  right. split; [congruence|lia].
Qed.

Lemma heapTop_spec heads :
  match heapTop heads with
  | None => heads = []
  | Some (m, rest) => heads ≡ₚ m :: rest /\ Forall (fun r => Less r m = false) rest
  end.
Proof.
  induction heads as [|r heads IH]; cbn [heapTop]; [done|]. destruct (heapTop heads) as [[m rest]|]; [|subst heads; by split].
  destruct IH as [Hp Hf]. destruct (Less m r) eqn:E.
  - split; [rewrite Hp; apply Permutation_swap|]. constructor; [|done]. destruct (Less r m) eqn:E2; [|done]. exfalso.
    unfold Less in E, E2. rewrite bcompare_antisym in E2. destruct (bcompare _ _); cbn in E2; [|done|done].
    apply Nat.ltb_lt in E, E2. lia.
  - split; [done|]. rewrite Hp. constructor; [done|]. eapply Forall_impl; [exact Hf|]. intros x Hx. by apply (run_Less_trans x m r).
Qed.

(** The keys of the records a sample is taken of, numbered from [i]. *)
Fixpoint sampleKeys (i : Z) (l : list bytes) : list bytes :=
  match l with
  | [] => []
  | x :: l => (if i mod sampleEvery =? 0 then [rkey x] else []) ++ sampleKeys (i + 1) l
  end.

Lemma sampleKeys_snoc l x : forall i, sampleKeys i (l ++ [x]) = sampleKeys i l ++ (if (i + zlen l) mod sampleEvery =? 0 then [rkey x] else []).
Proof.
  induction l as [|y l IH]; intros i; cbn [app sampleKeys length].
  - rewrite Z.add_0_r. apply app_nil_r.
  - rewrite IH, <-app_assoc. do 3 f_equal. replace (i + 1 + zlen l) with (i + Z.of_nat (S (length l))) by lia. done.
Qed.

(** What has been written is [out]. *)
Record wrote (sampled : bool) (m : merged) (out : list bytes) : Prop := {
  w_last : mlast m = rkey <$> last out;
  w_count : mcount m = zlen out;
  w_out : mout m = concat out;
  w_samples : sampled = true -> msamples m = concat (sampleKeys 0 out);
  w_sorted : ksorted rkey out;
}.

Lemma mergeStep_wrote sampled r m out : wrote sampled m out -> (forall o, o ∈ out -> rkey o <=b rkey (rrec r)) ->
  if decide (mlast m = Some (rkey (rrec r))) then mergeStep sampled r m = m /\ klookup rkey (rkey (rrec r)) out <> None
  else wrote sampled (mergeStep sampled r m) (out ++ [rrec r]) /\ klookup rkey (rkey (rrec r)) out = None.
Proof.
  intros H Hle. unfold mergeStep. fold (rkey (rrec r)). case_decide as Hl.
  - rewrite bool_decide_eq_true_2 by done. split; [done|]. rewrite (w_last _ _ _ H) in Hl. destruct (last out) as [o|] eqn:El; [|done].
    apply last_Some in El as (pre & ->). cbn in Hl. injection Hl as Hl. rewrite klookup_app. destruct (klookup _ _ pre); [done|]. rewrite klookup_cons.
    by rewrite decide_True.
  - rewrite bool_decide_eq_false_2 by done.
    assert (forall o, o ∈ out -> rkey o <b rkey (rrec r)) as Hlt.
    { destruct (last out) as [z|] eqn:El; [|apply last_None in El as ->; by intros o ?%elem_of_nil].
      rewrite (w_last _ _ _ H), El in Hl. pose proof (w_sorted _ _ _ H) as Hs. apply last_Some in El as (pre & ->).
      assert (rkey z <b rkey (rrec r)) as Hz.
      { specialize (Hle z ltac:(set_solver)). apply ble_lteq in Hle as [?|E]; [done|]. exfalso. apply Hl. cbn. by f_equal. }
      apply ksorted_app in Hs as (Hpre & _). intros o [Ho| ->%list_elem_of_singleton]%elem_of_app; [|done].
      eapply blt_trans; [apply (Hpre o z); [done|by left]|done]. }
    split.
    + split; cbn [mlast mcount mout msamples].
      * by rewrite last_snoc.
      * rewrite (w_count _ _ _ H), length_app. cbn. lia.
      * rewrite (w_out _ _ _ H), concat_app. cbn. by rewrite app_nil_r.
      * intros ->. rewrite sampleKeys_snoc, concat_app, (w_count _ _ _ H), (w_samples _ _ _ H) by done. cbn [andb Z.add].
        destruct (_ =? 0); cbn; [by rewrite app_nil_r|by rewrite app_nil_r].
      * apply ksorted_app. split_and!; [|apply H|apply ksorted_cons; split; [constructor|constructor]].
        intros x y Hx ->%list_elem_of_singleton. by apply Hlt.
    + apply klookup_None. apply Forall_forall. intros o Ho E. specialize (Hlt o Ho). rewrite E in Hlt. by apply blt_irrefl in Hlt.
Qed.

(** Taking the least record [x] out of the runs. *)
Lemma least_first o R1 x l R2 : Forall rsorted (R1 ++ (x :: l) :: R2) ->
  Forall (fun r => Less r (mkRun (o + length R1) (concat l) x) = false) (headsOf o R1 ++ headsOf (o + S (length R1)) R2) ->
  (forall y, y ∈ concat (R1 ++ (x :: l) :: R2) -> rkey x <=b rkey y) /\ klookup rkey (rkey x) (concat R1) = None.
Proof.
  intros Hs Hf. apply Forall_app in Hs as [Hs1 Hs2]. apply Forall_cons in Hs2 as [Hx Hs2]. apply Forall_app in Hf as [Hf1 Hf2].
  assert (forall R o', Forall rsorted R -> Forall (fun r => Less r (mkRun (o + length R1) (concat l) x) = false) (headsOf o' R) ->
    forall y, y ∈ concat R -> exists z i rest, mkRun i rest z ∈ headsOf o' R /\ rkey z <=b rkey y /\ (o' <= i < o' + length R)%nat) as Hheads.
  { clear. induction R as [|[|z l'] R IH]; intros o' Hs Hf y; cbn [concat headsOf length]; [by intros ?%elem_of_nil| |].
    - apply Forall_cons in Hs as [_ Hs]. cbn [app]. intros (z & i & rest & Hz & Hle & Hi)%(IH (S o') Hs Hf). exists z, i, rest. split_and!; [done|done|lia|lia].
    - apply Forall_cons in Hs as [Hl Hs]. cbn [headsOf] in Hf. apply Forall_cons in Hf as [_ Hf]. intros [Hy|Hy]%elem_of_app.
      + exists z, o', (concat l'). split_and!; [by left| |lia|lia]. apply StronglySorted_inv in Hl as [_ Hl]. rewrite Forall_forall in Hl.
        apply elem_of_cons in Hy as [->|Hy]; [apply ble_refl|by apply Hl].
      + apply (IH (S o') Hs Hf) in Hy as (w & i & rest & Hw & Hle & Hi). exists w, i, rest. split_and!; [by right|done|lia|lia]. }
  assert (forall y, y ∈ concat R1 -> rkey x <b rkey y) as H1.
  { intros y Hy. destruct (Hheads R1 o Hs1 Hf1 y Hy) as (z & i & rest & Hz & Hle & Hi). rewrite Forall_forall in Hf1. specialize (Hf1 _ Hz).
    apply Less_false in Hf1 as [Hlt|[_ Hi']]; cbn [rrec ri] in *; [by eapply blt_le_trans|lia]. }
  split.
  - intros y. rewrite concat_app, elem_of_app. cbn [concat]. rewrite elem_of_app. intros [Hy|[Hy|Hy]].
    + apply blt_le. by apply H1.
    + apply StronglySorted_inv in Hx as [_ Hx]. rewrite Forall_forall in Hx. apply elem_of_cons in Hy as [->|Hy]; [apply ble_refl|by apply Hx].
    + destruct (Hheads R2 _ Hs2 Hf2 y Hy) as (z & i & rest & Hz & Hle & Hi). rewrite Forall_forall in Hf2. specialize (Hf2 _ Hz).
      apply Less_false in Hf2 as [Hlt|[E _]]; cbn [rrec ri] in *; [apply blt_le; by eapply blt_le_trans|by rewrite E].
  - apply klookup_None, Forall_forall. intros y Hy E. specialize (H1 y Hy). rewrite E in H1. by apply blt_irrefl in H1.
Qed.

Lemma klookup_skip k (a : list bytes) x b : rkey x <> k -> klookup rkey k (a ++ x :: b) = klookup rkey k (a ++ b).
Proof. intros Hk. rewrite !klookup_app, klookup_cons. by rewrite decide_False. Qed.

(** The merge of runs [R] after [out] has been written. *)
Lemma mergeLoop_ok rec sampled fuel : forall R heads m out, heads ≡ₚ headsOf 0 R -> sized rec (out ++ concat R) -> Forall rsorted R ->
  wrote sampled m out -> (forall o y, o ∈ out -> y ∈ concat R -> rkey o <=b rkey y) -> (length (concat R) <= fuel)%nat ->
  exists m' out', mergeLoop fuel rec sampled heads m = Ok m' /\ wrote sampled m' out' /\ sized rec out' /\
    (forall k, klookup rkey k out' = klookup rkey k (out ++ concat R)) /\ (length out' <= length out + length (concat R))%nat.
Proof.
  induction fuel as [|fuel IH]; intros R heads m out Hp Hsz Hs Hw Hle Hfuel; unfold mergeLoop; fold mergeLoop; pose proof (heapTop_spec heads) as Ht;
    destruct (heapTop heads) as [[r rest]|].
  2,4: subst heads; apply Permutation_nil_l in Hp; assert (concat R = []) as E
    by (clear -Hp; revert Hp; generalize 0%nat; induction R as [|[|] R IHR]; intros n Hp; [done|by apply (IHR (S n))|done]);
    exists m, out; rewrite E, app_nil_r in *; split_and!; try done; lia.
  - destruct Ht as [Ht _]. rewrite Hp in Ht. assert (r ∈ headsOf 0 R) as Hr by (rewrite Ht; by left).
    apply headsOf_elem in Hr as (R1 & x & l & R2 & -> & _). rewrite concat_app in Hfuel. cbn in Hfuel. rewrite !length_app in Hfuel. cbn in Hfuel. lia.
  - destruct Ht as [Ht Hless]. assert (r ∈ headsOf 0 R) as Hr by (rewrite <-Hp, Ht; by left).
    apply headsOf_elem in Hr as (R1 & x & l & R2 & -> & ->). cbn [Nat.add] in *.
    assert (headsOf 0 (R1 ++ (x :: l) :: R2) = headsOf 0 R1 ++ mkRun (length R1) (concat l) x :: headsOf (S (length R1)) R2) as EH by (by rewrite headsOf_app).
    assert (rest ≡ₚ headsOf 0 R1 ++ headsOf (S (length R1)) R2) as Hrest.
    { rewrite EH, Ht in Hp. by apply Permutation_cons_app_inv in Hp. }
    rewrite Hrest in Hless. destruct (least_first 0 R1 x l R2 Hs Hless) as [Hmin Hnone].
    assert (concat (R1 ++ (x :: l) :: R2) = concat R1 ++ x :: concat (l :: R2)) as EC by (by rewrite concat_app).
    assert (concat (R1 ++ l :: R2) = concat R1 ++ concat (l :: R2)) as EC' by (by rewrite concat_app).
    pose proof (mergeStep_wrote sampled (mkRun (length R1) (concat l) x) m out Hw) as Hstep. cbn [rrec] in Hstep.
    specialize (Hstep ltac:(intros o Ho; apply Hle; [done|rewrite EC; set_solver])).
    set (m1 := mergeStep sampled (mkRun (length R1) (concat l) x) m) in *.
    assert (sized rec l) as Hszl.
    { rewrite EC in Hsz. apply sized_app in Hsz as [_ Hsz]. apply sized_app in Hsz as [_ Hsz]. apply sized_cons in Hsz as (_ & _ & Hsz). cbn [concat] in Hsz. by apply sized_app in Hsz as [? _]. }
    rewrite run_next_ok by done. cbn [mbind res_bind].
    assert (exists out1, wrote sampled m1 out1 /\ (forall o, o ∈ out1 -> o ∈ out \/ o = x) /\ (length out1 <= S (length out))%nat /\ sized rec out1 /\
      forall k, klookup rkey k (out1 ++ concat R1 ++ concat (l :: R2)) = klookup rkey k (out ++ concat R1 ++ x :: concat (l :: R2))) as (out1 & Hw1 & Hel & Hlen & Hsz1 & Hk).
    { apply sized_app in Hsz as [Hszo Hsz]. rewrite EC in Hsz. apply sized_app in Hsz as [_ Hsz]. apply sized_cons in Hsz as (Hr32 & Hx32 & _).
      case_decide as Hlast; destruct Hstep as [H1 H2].
      - exists out. rewrite H1. split_and!; [done|by left|lia|done|]. intros k. rewrite !(klookup_app _ _ out). destruct (klookup rkey k out) eqn:Ek; [done|].
        symmetry. apply klookup_skip. congruence.
      - exists (out ++ [x]). split_and!; [done|set_solver|rewrite length_app; cbn; lia|apply sized_app; split; [done|by apply sized_cons]|].
        intros k. rewrite <-app_assoc. cbn [app]. rewrite !(klookup_app _ _ out). destruct (klookup rkey k out) eqn:Ek; [done|].
        destruct (decide (rkey x = k)) as [<-|Hne]; [|rewrite (klookup_skip k (concat R1) x) by done; rewrite klookup_cons, decide_False by done; done].
        rewrite klookup_cons, decide_True by done. by rewrite klookup_app, Hnone, klookup_cons, decide_True. }
    destruct (IH (R1 ++ l :: R2) (match l with [] => rest | y :: l' => mkRun (length R1) (concat l') y :: rest end) m1 out1) as (m' & out' & E & Hw' & Hsz' & Hk' & Hl').
    + rewrite headsOf_app. destruct l as [|y l']; cbn [headsOf Nat.add]; [done|]. rewrite Hrest. apply Permutation_middle.
    + apply sized_app. split; [done|]. rewrite EC in Hsz. apply sized_app in Hsz as [_ Hsz]. rewrite EC'. apply sized_app in Hsz as [H1 H2]. apply sized_app.
      split; [done|]. by apply sized_cons in H2 as (_ & _ & H2).
    + apply Forall_app in Hs as [? Hs]. apply Forall_cons in Hs as [Hxl ?]. apply Forall_app. split; [done|]. apply StronglySorted_inv in Hxl as [? _]. by constructor.
    + done.
    + intros o y Ho Hy. assert (y ∈ concat (R1 ++ (x :: l) :: R2)) as Hy' by (rewrite EC; rewrite EC' in Hy; set_solver).
      destruct (Hel o Ho) as [Ho'| ->]; [by apply Hle|by apply Hmin].
    + rewrite EC, length_app in Hfuel. rewrite EC', length_app. cbn [length] in Hfuel. lia.
    + exists m', out'. split_and!; [by destruct l|done|done| |].
      * intros k. by rewrite Hk', EC', Hk, EC.
      * rewrite EC', !length_app in Hl'. rewrite EC, !length_app. cbn [length]. lia.
Qed.

Lemma concat_concat (R : list (list bytes)) : concat (@concat byte <$> R) = concat (concat R).
Proof. induction R as [|l R IH]; [done|]. cbn. by rewrite IH, concat_app. Qed.

(** Runs of records that hold what [l] does. *)
Record runsOf (rec : Z) (R : list (list bytes)) (l : list bytes) : Prop := {
  r_sized : sized rec (concat R);
  r_sorted : Forall rsorted R;
  r_same k : klookup rkey k (concat R) = klookup rkey k l;
  r_length : (length (concat R) <= length l)%nat;
}.

Lemma ksorted_rsorted l : ksorted rkey l -> rsorted l.
Proof. induction 1 as [|x l Hl IH Hx]; constructor; [done|]. eapply Forall_impl; [exact Hx|]. intros y. apply blt_le. Qed.

Lemma merge_ok rec R l sampled : runsOf rec R l -> exists m out, merge rec (@concat byte <$> R) sampled = Ok m /\ wrote sampled m out /\ runsOf rec [out] l.
Proof.
  intros [Hs Hsrt Hk Hl]. unfold merge. rewrite openRuns_ok by done. cbn [mbind res_bind].
  destruct (mergeLoop_ok rec sampled (length (concat (@concat byte <$> R))) R (headsOf 0 R) (mkMerged None 0 [] []) []) as (m & out & E & Hw & Hsz & Hk' & Hl').
  - done.
  - done.
  - done.
  - split; try done. constructor.
  - by intros o y ?%elem_of_nil.
  - rewrite concat_concat. apply Nat2Z.inj_le. rewrite (sized_concat rec) by done. destruct Hs as [Hr _]. nia.
  - exists m, out. split_and!; [done|done|]. assert (concat [out] = out) as Ec by (cbn; apply app_nil_r). split; rewrite ?Ec.
    + done.
    + constructor; [|done]. apply ksorted_rsorted, Hw.
    + intros k. rewrite Hk'. apply Hk.
    + cbn in Hl'. lia.
Qed.

Lemma runsOf_app rec R1 R2 l1 l2 : runsOf rec R1 l1 -> runsOf rec R2 l2 -> runsOf rec (R1 ++ R2) (l1 ++ l2).
Proof.
  intros [Hs1 Ho1 Hk1 Hl1] [Hs2 Ho2 Hk2 Hl2]. split; rewrite ?concat_app.
  - by apply sized_app.
  - by apply Forall_app.
  - intros k. by rewrite !klookup_app, Hk1, Hk2.
  - rewrite !length_app. lia.
Qed.

Lemma runsOf_trans rec R1 R2 l : runsOf rec R1 (concat R2) -> runsOf rec R2 l -> runsOf rec R1 l.
Proof. intros [H1 H2 H3 H4] [_ _ H7 H8]. split; [done|done| |lia]. intros k. by rewrite H3. Qed.

Lemma runsOf_refl rec R : sized rec (concat R) -> Forall rsorted R -> runsOf rec R (concat R).
Proof. by split. Qed.

Lemma mergeGroups_ok rec fuel : forall R, (length R <= fuel)%nat -> sized rec (concat R) -> Forall rsorted R ->
  exists R', mergeGroups fuel rec (@concat byte <$> R) = Ok (@concat byte <$> R') /\ runsOf rec R' (concat R) /\ (length R' * mergeFanIn <= length R + (mergeFanIn - 1))%nat.
Proof.
  induction fuel as [|fuel IH]; intros R Hf Hs Ho.
  - destruct R; [|cbn in Hf; lia]. exists []. split_and!; [done|by apply runsOf_refl|cbn; lia].
  - destruct R as [|l R]; [exists []; split_and!; [done|by apply runsOf_refl|cbn; lia]|].
    cbn [fmap list_fmap mergeGroups]. change (concat l :: (@concat byte <$> R)) with (@concat byte <$> (l :: R)). set (RR := l :: R) in *.
    rewrite <-fmap_take, <-fmap_drop. rewrite <-(take_drop mergeFanIn RR) in Hs, Ho. rewrite concat_app in Hs. apply sized_app in Hs as [Hs1 Hs2]. apply Forall_app in Ho as [Ho1 Ho2].
    destruct (merge_ok rec (take mergeFanIn RR) _ false (runsOf_refl _ _ Hs1 Ho1)) as (m & out & -> & Hw & Hr). cbn [mbind res_bind].
    destruct (IH (drop mergeFanIn RR)) as (R' & -> & Hr' & Hl'); [|done|done|]. { rewrite length_drop. unfold mergeFanIn. cbn [length RR] in *. lia. }
    exists (out :: R'). cbn [mbind res_bind fmap list_fmap]. split_and!.
    + by rewrite (w_out _ _ _ Hw).
    + rewrite <-(take_drop mergeFanIn RR) at 1. rewrite concat_app. by apply (runsOf_app _ [out]).
    + cbn [length]. rewrite length_drop in Hl'. unfold RR, mergeFanIn in *. cbn [length] in *. lia.
Qed.

Lemma reduceRuns_ok rec l fuel : forall R, (length R <= fuel)%nat -> runsOf rec R l ->
  exists R', reduceRuns fuel rec (@concat byte <$> R) = Ok (@concat byte <$> R') /\ runsOf rec R' l.
Proof.
  induction fuel as [|fuel IH]; intros R Hf Hr; unfold reduceRuns; fold reduceRuns; rewrite length_fmap; destruct (Nat.leb_spec (length R) mergeFanIn) as [Hle|Hgt].
  1,3: by exists R.
  - unfold mergeFanIn in Hgt. lia.
  - destruct (mergeGroups_ok rec (length R) R) as (R' & -> & Hr' & Hl'); [done|apply Hr|apply Hr|]. cbn [mbind res_bind].
    apply IH; [unfold mergeFanIn in *; lia|]. by eapply runsOf_trans.
Qed.

(** The file a build writes: the records, sorted, and their samples. *)
Definition tableOf (vl : Z) (out : list bytes) : bytes := tableHdr vl (zlen out) ++ concat out ++ concat (sampleKeys 0 out).

Lemma finish_file b rs cur l : built b rs cur l -> exists out, finish b = openTable (tableOf (valueLen b) out) /\ ksorted rkey out /\
  sized (brec b) out /\ (forall k, klookup rkey k out = klookup rkey k l) /\ (length out <= length l)%nat.
Proof.
  intros H. destruct (spill_built b rs cur l H) as (rs' & H'). assert (valueLen (spill b) = valueLen b /\ brec (spill b) = brec b) as [Ev Er] by (unfold spill; by destruct (_ =? _)).
  unfold finish. rewrite Ev, Er, (b_runs _ _ _ _ H'), length_fmap. pose proof (b_sized _ _ _ _ H') as Hs. pose proof (b_same _ _ _ _ H') as Hk.
  pose proof (b_length _ _ _ _ H') as Hl. rewrite app_nil_r in Hs, Hl.
  destruct (reduceRuns_ok (brec b) l (length rs') rs') as (R & -> & Hr); [done| |].
  { split; [by rewrite <-Er|apply H'| |lia]. intros k. by rewrite <-Hk, app_nil_r. }
  cbn [mbind res_bind]. destruct (merge_ok (brec b) R l true Hr) as (m & out & -> & Hw & [Hs' _ Hk' Hl']). cbn [mbind res_bind].
  exists out. unfold tableOf. rewrite (w_count _ _ _ Hw), (w_out _ _ _ Hw), (w_samples _ _ _ Hw) by done. cbn [concat] in *. rewrite app_nil_r in *.
  split_and!; [done|apply Hw|done| |done]. exact Hk'.
Qed.

(** ** Opening a table *)

Lemma sub_app_r a b o n : 0 <= o -> sub (a ++ b) (zlen a + o) n = sub b o n.
Proof. intros Ho. unfold sub. rewrite drop_app_ge by lia. do 2 f_equal. lia. Qed.

Lemma sub_app_l a b o n : 0 <= o -> 0 <= n -> o + n <= zlen a -> sub (a ++ b) o n = sub a o n.
Proof. intros Ho Hn Hl. unfold sub. rewrite drop_app_le by lia. apply take_app_le. rewrite length_drop. lia. Qed.

Lemma sampleKeys_length l : forall i, 0 <= i -> zlen (sampleKeys i l) = (i + zlen l + sampleEvery - 1) / sampleEvery - (i + sampleEvery - 1) / sampleEvery.
Proof.
  unfold sampleEvery. induction l as [|x l IH]; intros i Hi; cbn [sampleKeys length]; [rewrite Z.add_0_r; lia|].
  rewrite length_app, Nat2Z.inj_add, IH by lia. unfold sampleEvery. destruct (Z.eqb_spec (i mod 256) 0); cbn [length]; Z.to_euclidean_division_equations; lia.
Qed.

Lemma sampleKeys_lookup l : forall i (j : nat), 0 <= i -> sampleKeys i l !! j = rkey <$> l !! (Z.to_nat ((- i) mod sampleEvery) + 256 * j)%nat.
Proof.
  unfold sampleEvery. induction l as [|x l IH]; intros i j Hi; cbn [sampleKeys]; [done|]. unfold sampleEvery. destruct (Z.eqb_spec (i mod 256) 0) as [E|E]; cbn [app].
  - assert ((- i) mod 256 = 0 /\ (- (i + 1)) mod 256 = 255) as [-> E2] by (Z.to_euclidean_division_equations; lia).
    destruct j as [|j]; [done|]. cbn [lookup list_lookup]. rewrite IH by lia. rewrite E2.
    replace (Z.to_nat 0 + 256 * S j)%nat with (S (Z.to_nat 255 + 256 * j)) by lia. done.
  - assert (0 < (- i) mod 256 /\ (- (i + 1)) mod 256 = (- i) mod 256 - 1) as [H1 E2] by (Z.to_euclidean_division_equations; lia).
    rewrite IH by lia. rewrite E2. replace (Z.to_nat ((- i) mod 256) + 256 * j)%nat with (S (Z.to_nat ((- i) mod 256 - 1) + 256 * j)) by lia. done.
Qed.

Lemma sample_at l j : sampleKeys 0 l !! j = rkey <$> l !! (256 * j)%nat.
Proof. rewrite sampleKeys_lookup by done. done. Qed.

Lemma sampleKeys_sized rec l : sized rec l -> forall i, sized 32 (sampleKeys i l).
Proof.
  intros [Hr Hl]. induction Hl as [|x l Hx _ IH]; intros i; cbn [sampleKeys]; [by split|]. apply sized_app. split; [|apply IH].
  destruct (_ =? _); [|by split]. apply sized_cons. split_and!; [done| |by split]. unfold rkey. rewrite length_take. lia.
Qed.

Section Open.
Context (vl : Z) (out : list bytes) (Hvl : 0 <= vl <= MaxValueLen) (Hsz : sized (32 + vl) out).
Let smp := sampleKeys 0 out.
Let f := tableOf vl out.

Lemma hdr_length c : zlen (tableHdr vl c) = tableHeader.
Proof. reflexivity. Qed.

Lemma file_length : zlen f = tableHeader + zlen out * (32 + vl) + zlen smp * 32.
Proof.
  unfold f, tableOf. rewrite !length_app. pose proof (hdr_length (zlen out)). pose proof (sized_concat _ _ Hsz). pose proof (sized_concat _ _ (sampleKeys_sized _ _ Hsz 0)).
  unfold smp. lia.
Qed.

Lemma samples_count : zlen smp = (zlen out + sampleEvery - 1) / sampleEvery.
Proof. unfold smp. rewrite sampleKeys_length by done. change ((0 + sampleEvery - 1) / sampleEvery) with 0. rewrite Z.add_0_l. lia. Qed.

Lemma read_records i n : 0 <= i -> 0 <= n -> i + n <= zlen out ->
  ReadAt f (recordOff (32 + vl) i) (n * (32 + vl)) = Ok (concat (take (Z.to_nat n) (drop (Z.to_nat i) out))).
Proof.
  intros Hi Hn Hl. unfold ReadAt, recordOff. rewrite file_length. rewrite (proj2 (Z.ltb_ge _ _)) by nia. f_equal.
  rewrite <-(sub_concat (32 + vl)) by done. unfold f, tableOf. rewrite <-(hdr_length (zlen out)), sub_app_r by nia.
  apply sub_app_l; [nia|nia|]. rewrite (sized_concat _ _ Hsz). nia.
Qed.

Lemma read_samples j n : 0 <= j -> 0 <= n -> j + n <= zlen smp ->
  ReadAt f (sampleOff (zlen out) (32 + vl) j) (n * 32) = Ok (concat (take (Z.to_nat n) (drop (Z.to_nat j) smp))).
Proof.
  intros Hj Hn Hl. unfold ReadAt, sampleOff. rewrite file_length. rewrite (proj2 (Z.ltb_ge _ _)) by lia. f_equal.
  rewrite <-(sub_concat 32) by (done || apply (sampleKeys_sized _ _ Hsz)). unfold f, tableOf. rewrite app_assoc.
  pose proof (hdr_length (zlen out)). pose proof (sized_concat _ _ Hsz).
  replace (tableHeader + zlen out * (32 + vl) + j * 32) with (zlen (tableHdr vl (zlen out) ++ concat out) + j * 32) by (rewrite length_app; lia).
  apply sub_app_r. lia.
Qed.

Lemma openTable_ok : zlen out < two64 -> exists t, openTable f = Ok t /\ tfile t = f /\ tcount t = zlen out /\ trec t = 32 + vl /\ tsamples t = zlen smp /\
  forall i, l1 t !! i = smp !! (256 * i)%nat.
Proof.
  intros Hlen. unfold openTable. pose proof file_length as Hf. pose proof samples_count as Hc. rewrite (proj2 (Z.ltb_ge _ _)) by nia.
  assert (sub f 0 tableHeader = tableHdr vl (zlen out)) as ->.
  { unfold f, tableOf, sub. cbn [Z.to_nat drop]. apply take_app_length'. pose proof (hdr_length (zlen out)). lia. }
  change (sub (tableHdr vl (zlen out)) 6 2) with (le_enc 2 vl). change (sub (tableHdr vl (zlen out)) 8 8) with (le_enc 8 (zlen out)).
  change (sub (tableHdr vl (zlen out)) 0 4) with tableMagic. change (sub (tableHdr vl (zlen out)) 4 2) with (le_enc 2 tableVersion).
  change (sub (tableHdr vl (zlen out)) 16 4) with (le_enc 4 sampleEvery). change (drop 20 (tableHdr vl (zlen out))) with (replicate 12 Byte.x00).
  unfold MaxValueLen, two64 in *. rewrite !le_dec_enc by (unfold tableVersion, sampleEvery; lia).
  rewrite !bool_decide_eq_true_2 by done. rewrite !Z.eqb_refl. cbn [negb]. rewrite (proj2 (Z.ltb_ge 255 vl)) by lia.
  rewrite (proj2 (Z.ltb_ge _ (zlen out))) by (apply Z.div_le_lower_bound; nia). rewrite <-Hc, Hf, Z.eqb_refl. cbn [negb].
  destruct (loadL1 f (zlen out) (32 + vl) (zlen smp)) as [ls|e] eqn:El.
  - cbn [mbind res_bind]. eexists. split; [done|]. cbn [l1 tfile tcount trec tsamples]. split_and!; try done. intros i. unfold loadL1 in El. apply res_map_Ok in El.
    pose proof (Forall2_length _ _ _ El) as Hl. rewrite length_seq in Hl. destruct (decide (i < length ls)%nat) as [Hi|Hi].
    + destruct (lookup_lt_is_Some_2 ls i Hi) as [x Hx]. rewrite Hx. destruct (Forall2_lookup_r _ _ _ _ _ El Hx) as (i' & Hi' & Hr).
      rewrite lookup_seq_lt in Hi' by lia. injection Hi' as <-. cbn [Nat.add] in Hr. unfold sampleEvery in *.
      pose proof (read_samples (Z.of_nat i * 256) 1 ltac:(lia) ltac:(lia)) as Hrd. rewrite Z.mul_1_l in Hrd.
      rewrite Hrd in Hr by (Z.to_euclidean_division_equations; lia). injection Hr as <-.
      destruct (lookup_lt_is_Some_2 smp (256 * i) ltac:(Z.to_euclidean_division_equations; lia)) as [s Hs]. rewrite Hs. f_equal.
      replace (Z.to_nat (Z.of_nat i * 256)) with (256 * i)%nat by lia. rewrite (drop_S _ _ _ Hs). cbn. apply app_nil_r.
    + rewrite !lookup_ge_None_2; [done| |lia]. unfold sampleEvery in *. Z.to_euclidean_division_equations. lia.
  - exfalso. unfold loadL1 in El. assert (exists l, res_map (fun i => ReadAt f (sampleOff (zlen out) (32 + vl) (Z.of_nat i * sampleEvery)) 32)
      (seq 0 (Z.to_nat ((zlen smp + sampleEvery - 1) / sampleEvery))) = Ok l) as [l E]; [|congruence].
    assert (forall n o, Z.of_nat (o + n) <= (zlen smp + sampleEvery - 1) / sampleEvery ->
      exists l, res_map (fun i => ReadAt f (sampleOff (zlen out) (32 + vl) (Z.of_nat i * sampleEvery)) 32) (seq o n) = Ok l) as Hall.
    { induction n as [|n IH]; intros o Ho; [by exists []|]. cbn [seq res_map]. pose proof (read_samples (Z.of_nat o * sampleEvery) 1) as Hr. rewrite Z.mul_1_l in Hr.
      unfold sampleEvery in *. rewrite Hr by (Z.to_euclidean_division_equations; lia). destruct (IH (S o)) as [l ->]; [lia|]. by eexists. }
    apply Hall. unfold sampleEvery. Z.to_euclidean_division_equations. lia.
Qed.
End Open.

(** ** Looking up *)

Lemma search_loop_ext fuel (f g : nat -> bool) : forall i j, (forall a, (a < j)%nat -> f a = g a) -> search_loop fuel f i j = search_loop fuel g i j.
Proof.
  induction fuel as [|fuel IH]; intros i j Hfg; [done|]. cbn [search_loop]. destruct (Nat.ltb_spec i j); [|done].
  assert ((i + j) / 2 < j)%nat by (apply Nat.Div0.div_lt_upper_bound; lia). rewrite <-Hfg by done. destruct (f _); apply IH; intros; apply Hfg; lia.
Qed.

(** Searching the keys of whole records read from a file. *)
Lemma search_records rec (p : bytes -> bool) l n : sized rec l -> Z.to_nat n = length l -> 
  go_search (Z.to_nat n) (fun i => p (sub (concat l) (Z.of_nat i * rec) 32)) = list_search (fun x => p (rkey x)) l.
Proof.
  intros Hs Hn. unfold list_search. rewrite Hn. apply search_loop_ext. intros i Hi. destruct (lookup_lt_is_Some_2 l i Hi) as [x Hx]. rewrite Hx.
  f_equal. apply sub_key; [done|lia|]. by rewrite Nat2Z.id.
Qed.

Lemma rkey_key (x : bytes) : zlen x = 32 -> rkey x = x.
Proof. intros. unfold rkey. apply take_ge. lia. Qed.

Lemma above_spec h k : above h k = true <-> hbytes h <b k.
Proof. unfold above. destruct (bcompare_spec k (hbytes h)) as [->|H|H]; split; try done; intros H2; exfalso; [by apply blt_irrefl in H2|border]. Qed.

Lemma above_false h k : above h k = false <-> k <=b hbytes h.
Proof. rewrite ble_not_lt, <-above_spec. by destruct (above h k). Qed.

Lemma atOrAbove_spec h k : atOrAbove h k = false <-> k <b hbytes h.
Proof. unfold atOrAbove. destruct (bcompare_spec k (hbytes h)) as [->|H|H]; split; try done; intros H2; exfalso; [by apply blt_irrefl in H2|border]. Qed.

Lemma ksorted_lookup {A} (key : A -> bytes) l : ksorted key l <-> forall i j x y, (i < j)%nat -> l !! i = Some x -> l !! j = Some y -> key x <b key y.
Proof.
  induction l as [|z l IH]; [split; [intros; done|constructor]|]. rewrite ksorted_cons, IH. split.
  - intros [Hz Hl] [|i] [|j] x y Hij Hx Hy; cbn in *; [lia| |lia|by apply (Hl i j); [lia|..]].
    injection Hx as ->. rewrite Forall_forall in Hz. apply Hz. by eapply list_elem_of_lookup_2.
  - intros H. split; [|intros i j x y Hij Hx Hy; apply (H (S i) (S j)); [lia|done..]]. apply Forall_lookup. intros i y Hy. apply (H 0%nat (S i)); [lia|done..].
Qed.

Lemma ksorted_le {A} (key : A -> bytes) l i j x y : ksorted key l -> (i <= j)%nat -> l !! i = Some x -> l !! j = Some y -> key x <=b key y.
Proof.
  intros Hs Hij Hx Hy. destruct (decide (i = j)) as [->|]; [simplify_eq; apply ble_refl|]. apply blt_le. rewrite ksorted_lookup in Hs. apply (Hs i j); [lia|done..].
Qed.

(** The last element a monotone test refuses is before every one it accepts. *)
Lemma search_last {A} (key : A -> bytes) h l : ksorted key l ->
  let p := list_search (fun x => above h (key x)) l in
  (p <= length l)%nat /\ (forall i x, (i < p)%nat -> l !! i = Some x -> key x <=b hbytes h) /\ (forall i x, (p <= i)%nat -> l !! i = Some x -> hbytes h <b key x).
Proof.
  intros Hs p. destruct (list_search_spec (fun x => above h (key x)) l _ Hs) as (H1 & H2 & H3).
  { intros x y Hxy. rewrite !above_spec. intros. by eapply blt_trans. }
  fold p in H1, H2, H3. split_and!; [done| |].
  - intros i x Hi Hx. apply above_false. rewrite Forall_lookup in H2. apply (H2 i). by rewrite lookup_take_lt.
  - intros i x Hi Hx. apply above_spec. rewrite Forall_lookup in H3. apply (H3 (i - p)%nat). rewrite lookup_drop. by replace (p + (i - p))%nat with i by lia.
Qed.

Lemma klookup_outside h (out : list bytes) p : (forall i x, out !! i = Some x -> (i < p)%nat -> rkey x <b hbytes h) ->
  (forall i x, out !! i = Some x -> (p <= i)%nat -> hbytes h <b rkey x) -> klookup rkey (hbytes h) out = None.
Proof.
  intros H1 H2. apply klookup_None, Forall_lookup. intros i x Hx E. destruct (decide (i < p)%nat) as [Hi|Hi].
  - specialize (H1 i x Hx Hi). rewrite E in H1. by apply blt_irrefl in H1.
  - specialize (H2 i x Hx ltac:(lia)). rewrite E in H2. by apply blt_irrefl in H2.
Qed.

(** A key is in the block of the last sample at or under it: search that block. *)
Lemma block_search rec out h (first n : nat) s : sized rec out -> ksorted rkey out -> out !! first = Some s -> rkey s <=b hbytes h ->
  (n = Nat.min 256 (length out - first))%nat -> (forall x, out !! (first + 256)%nat = Some x -> hbytes h <b rkey x) ->
  let l := take n (drop first out) in
  let k := list_search (fun x => atOrAbove h (rkey x)) l in
  (if (Z.of_nat k =? Z.of_nat n) || negb (bool_decide (sub (concat l) (Z.of_nat k * rec) 32 = hbytes h)) then @None bytes
   else Some (sub (concat l) (Z.of_nat k * rec + 32) (rec - 32))) = drop 32 <$> klookup rkey (hbytes h) out.
Proof.
  intros Hsz Hs Hf Hfh Hn Hnext l k. pose proof (lookup_lt_Some _ _ _ Hf) as Hfl.
  assert (length l = n) as Hl by (unfold l; rewrite length_take, length_drop; lia).
  assert (forall i, (i < n)%nat -> l !! i = out !! (first + i)%nat) as Hli by (intros i Hi; unfold l; rewrite lookup_take_lt, lookup_drop by done; done).
  assert (sized rec l) as Hszl.
  { destruct Hsz as [Hr Hsz]. split; [done|]. unfold l. apply Forall_take. by apply Forall_drop. }
  assert (ksorted rkey l) as Hsl.
  { rewrite ksorted_lookup in Hs |- *. intros i j x y Hij Hx Hy. pose proof (lookup_lt_Some _ _ _ Hy). rewrite Hl in *.
    rewrite Hli in Hx, Hy by lia. apply (Hs (first + i)%nat (first + j)%nat); [lia|done..]. }
  destruct (list_search_spec (fun x => atOrAbove h (rkey x)) l _ Hsl) as (H1 & H2 & H3).
  { intros x y Hxy Hx. destruct (atOrAbove h (rkey y)) eqn:E; [done|]. apply atOrAbove_spec in E. rewrite <-Hx. symmetry. apply atOrAbove_spec. by eapply blt_trans. }
  fold k in H1, H2, H3. rewrite Hl in H1.
  assert (forall i x, out !! i = Some x -> (i < first + k)%nat -> rkey x <b hbytes h) as Hlow.
  { intros i x Hx Hi. destruct (decide (i < first)%nat) as [Hif|Hif].
    - eapply blt_le_trans; [|exact Hfh]. rewrite ksorted_lookup in Hs. by apply (Hs i first).
    - apply atOrAbove_spec. rewrite Forall_lookup in H2. apply (H2 (i - first)%nat). rewrite lookup_take_lt, Hli by lia. by replace (first + (i - first))%nat with i by lia. }
  assert (forall i x, out !! i = Some x -> (first + n <= i)%nat -> hbytes h <b rkey x) as Hhigh.
  { intros i x Hx Hi. pose proof (lookup_lt_Some _ _ _ Hx). assert (n = 256%nat) as -> by lia.
    destruct (lookup_lt_is_Some_2 out (first + 256) ltac:(lia)) as [z Hz]. eapply blt_le_trans; [by apply Hnext|]. by apply (ksorted_le rkey out (first + 256) i). }
  destruct (decide (k = n)) as [Ekn|Hkn].
  - rewrite (proj2 (Z.eqb_eq _ _)) by lia. cbn [orb]. rewrite (klookup_outside h out (first + n)); [done| |done].
    intros i x Hx Hi. apply (Hlow i x Hx). lia.
  - rewrite (proj2 (Z.eqb_neq _ _)) by lia. cbn [orb]. destruct (lookup_lt_is_Some_2 l k ltac:(lia)) as [x Hx].
    rewrite (sub_key rec l (Z.of_nat k) x) by (done || lia || by rewrite Nat2Z.id). pose proof Hx as Hxo. rewrite Hli in Hxo by lia.
    case_bool_decide as Hxh; cbn [negb].
    + rewrite <-Hxh, (klookup_sorted rkey out x Hs) by (by eapply list_elem_of_lookup_2). cbn. f_equal.
      pose proof Hszl as [Hr Hall]. rewrite Forall_lookup in Hall. pose proof (Hall k x Hx) as Hxl.
      pose proof (sub_record rec l (Z.of_nat k) x Hszl ltac:(lia) ltac:(by rewrite Nat2Z.id)) as Es. rewrite <-Es.
      unfold sub. rewrite skipn_firstn_comm, drop_drop. f_equal; [lia|]. f_equal. lia.
    + rewrite (klookup_outside h out (first + k)); [done|done|]. intros i y Hy Hi.
      assert (hbytes h <b rkey x) as Hhx.
      { rewrite Forall_lookup in H3. assert (atOrAbove h (rkey x) = true) as Ha by (apply (H3 0%nat); rewrite lookup_drop, Nat.add_0_r; done).
        destruct (blt_trichotomy (hbytes h) (rkey x)) as [?|[E|E]]; [done|congruence|]. apply atOrAbove_spec in E. congruence. }
      eapply blt_le_trans; [exact Hhx|]. by apply (ksorted_le rkey out (first + k) i).
Qed.

Section Lookup.
Context (vl : Z) (out : list bytes) (Hvl : 0 <= vl <= MaxValueLen) (Hsz : sized (32 + vl) out) (Hs : ksorted rkey out).
Let smp := sampleKeys 0 out.

Lemma samples_sorted : ksorted rkey smp.
Proof.
  apply ksorted_lookup. intros i j x y Hij Hx Hy. pose proof (sampleKeys_sized _ _ Hsz 0) as [_ H32]. fold smp in H32. rewrite Forall_lookup in H32.
  rewrite !rkey_key by (by eapply H32). unfold smp in *. rewrite sample_at in Hx, Hy. apply fmap_Some in Hx as (u & Hu & ->), Hy as (v & Hv & ->).
  rewrite ksorted_lookup in Hs. apply (Hs (256 * i)%nat (256 * j)%nat); [lia|done..].
Qed.

Lemma sample_key i s : smp !! i = Some s -> rkey s = s.
Proof. intros Hx. pose proof (sampleKeys_sized _ _ Hsz 0) as [_ H32]. fold smp in H32. rewrite Forall_lookup in H32. apply rkey_key. by eapply H32. Qed.

(** The sample the two searches find: the last at or under the key. *)
Lemma Lookup_ok t h : tfile t = tableOf vl out -> tcount t = zlen out -> trec t = 32 + vl -> tsamples t = zlen smp ->
  (forall i, l1 t !! i = smp !! (256 * i)%nat) -> Lookup t h = Ok (drop 32 <$> klookup rkey (hbytes h) out).
Proof.
  intros Ef Ec Er Es El1. unfold Lookup. rewrite Ef, Ec, Er, Es. destruct (Z.eqb_spec (zlen out) 0) as [E0|Hne]; [by destruct out|].
  pose proof (samples_count out) as Hns. fold smp in Hns. unfold sampleEvery in *.
  assert (list_search (above h) (l1 t) = list_search (fun x => above h (rkey x)) (l1 t)) as Esr.
  { apply search_loop_ext. intros i _. destruct (l1 t !! i) as [x|] eqn:Ex; [|done]. rewrite El1 in Ex. by rewrite (sample_key _ _ Ex). }
  assert (ksorted rkey (l1 t)) as Hl1.
  { apply ksorted_lookup. intros i j x y Hij. rewrite !El1. pose proof samples_sorted as Hss. rewrite ksorted_lookup in Hss. apply Hss. lia. }
  rewrite Esr. destruct (search_last rkey h (l1 t) Hl1) as (Hp1 & Hlo1 & Hhi1). set (p1 := list_search (fun x => above h (rkey x)) (l1 t)) in *. clearbody p1.
  destruct (decide (p1 = 0)%nat) as [->|Hp10].
  { rewrite (proj2 (Z.ltb_lt _ _)) by lia. rewrite (klookup_outside h out 0); [done|intros; lia|]. intros i x Hx _.
    destruct (lookup_lt_is_Some_2 out 0 ltac:(lia)) as [z Hz]. assert (l1 t !! 0%nat = Some (rkey z)) as Hl0.
    { rewrite El1. unfold smp. rewrite sample_at. by rewrite Nat.mul_0_r, Hz. }
    specialize (Hhi1 0%nat _ ltac:(lia) Hl0). rewrite (sample_key 0 (rkey z)) in Hhi1 by (rewrite El1, Nat.mul_0_r in Hl0; exact Hl0).
    eapply blt_le_trans; [exact Hhi1|]. by apply (ksorted_le rkey out 0 i); [|lia|..]. }
  rewrite (proj2 (Z.ltb_ge _ _)) by lia. destruct (lookup_lt_is_Some_2 (l1 t) (p1 - 1) ltac:(lia)) as [s1 Hs1]. rewrite El1 in Hs1.
  pose proof (lookup_lt_Some _ _ _ Hs1) as Hfl. set (from := (256 * (p1 - 1))%nat) in *.
  assert ((Z.of_nat p1 - 1) * 256 = Z.of_nat from) as -> by lia. set (n1 := Z.min 256 (zlen smp - Z.of_nat from)).
  rewrite (read_samples vl out Hsz) by (fold smp; lia). cbn [mbind res_bind]. fold smp. rewrite Nat2Z.id. set (bl := take (Z.to_nat n1) (drop from smp)).
  assert (length bl = Z.to_nat n1) as Hbl by (unfold bl; rewrite length_take, length_drop; lia).
  assert (forall i, (i < length bl)%nat -> bl !! i = smp !! (from + i)%nat) as Hbi by (intros i Hi; unfold bl; rewrite lookup_take_lt, lookup_drop by lia; done).
  rewrite (search_records 32 (above h) bl n1) by (done || (split; [done|]; unfold bl; apply Forall_take, Forall_drop, (sampleKeys_sized _ _ Hsz 0))).
  assert (ksorted rkey bl) as Hblk.
  { pose proof samples_sorted as Hss. rewrite ksorted_lookup in Hss |- *. intros i j x y Hij Hx Hy. pose proof (lookup_lt_Some _ _ _ Hx). pose proof (lookup_lt_Some _ _ _ Hy).
    rewrite Hbi in Hx, Hy by done. apply (Hss (from + i)%nat (from + j)%nat); [lia|done..]. }
  destruct (search_last rkey h bl Hblk) as (Hp2 & Hlo2 & Hhi2). set (p2 := list_search (fun x => above h (rkey x)) bl) in *. clearbody p2.
  assert (p2 <> 0)%nat as Hp20.
  { intros ->. assert (bl !! 0%nat = Some s1) as Hb0 by (rewrite Hbi, Nat.add_0_r by lia; done). specialize (Hhi2 0%nat s1 ltac:(lia) Hb0).
    specialize (Hlo1 (p1 - 1)%nat s1 ltac:(lia) ltac:(by rewrite El1)). apply ble_not_lt in Hlo1. done. }
  rewrite (proj2 (Z.ltb_ge _ _)) by lia. set (b := (from + (p2 - 1))%nat). assert (Z.of_nat from + (Z.of_nat p2 - 1) = Z.of_nat b) as -> by lia.
  destruct (lookup_lt_is_Some_2 bl (p2 - 1) ltac:(lia)) as [s2 Hs2]. specialize (Hlo2 (p2 - 1)%nat s2 ltac:(lia) Hs2). rewrite Hbi in Hs2 by lia. fold b in Hs2.
  assert (forall s, smp !! S b = Some s -> hbytes h <b rkey s) as Hnext.
  { intros s Hsb. pose proof (lookup_lt_Some _ _ _ Hsb). destruct (decide (p2 < length bl)%nat) as [Hlt|Hge].
    - apply (Hhi2 p2); [lia|]. rewrite Hbi by done. by replace (from + p2)%nat with (S b) by lia.
    - apply (Hhi1 p1); [lia|]. rewrite El1. by replace (256 * p1)%nat with (S b) by lia. }
  rewrite (sample_key _ _ Hs2) in Hlo2. unfold smp in Hs2. rewrite sample_at in Hs2. apply fmap_Some in Hs2 as (x2 & Hx2 & ->).
  pose proof (lookup_lt_Some _ _ _ Hx2) as Hb2. set (first := (256 * b)%nat) in *. assert (Z.of_nat b * 256 = Z.of_nat first) as -> by lia.
  set (n := Nat.min 256 (length out - first)). assert (Z.min 256 (zlen out - Z.of_nat first) = Z.of_nat n) as -> by lia.
  rewrite (read_records vl out Hvl Hsz) by (unfold n; lia). cbn [mbind res_bind]. rewrite !Nat2Z.id. set (l := take n (drop first out)).
  pose proof (search_records (32 + vl) (atOrAbove h) l (Z.of_nat n)) as Hsrch. rewrite Nat2Z.id in Hsrch. rewrite Hsrch.
  - pose proof (block_search (32 + vl) out h first n x2 Hsz Hs Hx2 Hlo2 eq_refl) as Hb. cbv zeta in Hb. fold l in Hb. rewrite <-Hb; [by destruct (_ || _)|].
    intros x Hx. assert (smp !! S b = Some (rkey x)) as Hsx.
    { unfold smp. rewrite sample_at. replace (256 * S b)%nat with (first + 256)%nat by lia. by rewrite Hx. }
    specialize (Hnext _ Hsx). by rewrite (sample_key _ _ Hsx) in Hnext.
  - destruct Hsz as [Hr Hall]. split; [done|]. unfold l. by apply Forall_take, Forall_drop.
  - unfold l. rewrite length_take, length_drop. lia.
Qed.
End Lookup.

(** ** Reading in order *)

Fixpoint readAll (fuel : nat) (c : Cursor) : res (list (hash * bytes)) :=
  match fuel with
  | O => Err (EMsg "fuel")
  | S fuel =>
      '(kv, c) ← Next c;
      match kv with
      | None => Ok []
      | Some kv => l ← readAll fuel c; Ok (kv :: l)
      end
  end.

Definition kvOf (x : bytes) : hash * bytes := (to_hash (take 32 x), drop 32 x).

Lemma readAll_S fuel c :
  readAll (S fuel) c = ('(kv, c) ← Next c; match kv with None => Ok [] | Some kv => l ← readAll fuel c; Ok (kv :: l) end).
Proof. reflexivity. Qed.

Lemma readAll_ok rec out : sized rec out -> readAll (S (length out)) (mkCursor (concat out) (zlen out) rec) = Ok (kvOf <$> out).
Proof.
  induction out as [|x out IH]; intros Hs; [done|]. apply sized_cons in Hs as (Hr & Hx & Hs). cbn [length]. rewrite readAll_S. unfold Next. cbn [cleft cr crec concat].
  rewrite (proj2 (Z.eqb_neq _ _)) by lia. rewrite length_app, (proj2 (Z.ltb_ge _ _)) by lia. cbn [mbind res_bind].
  rewrite take_app_length', drop_app_length' by lia. replace (Z.of_nat (S (length out)) - 1) with (zlen out) by lia. rewrite IH by done. done.
Qed.

Lemma recOf_kvOf rec x : 32 <= rec -> zlen x = rec -> recOf (kvOf x) = x.
Proof.
  intros Hr Hx. unfold recOf, kvOf. cbn [fst snd]. rewrite to_hash_exact; [apply take_drop|]. rewrite length_take. lia.
Qed.

(** The key of a binding. *)
Definition kvkey (kv : hash * bytes) : bytes := hbytes kv.1.

Lemma klookup_recOf k l : klookup rkey k (recOf <$> l) = recOf <$> klookup kvkey k l.
Proof.
  induction l as [|kv l IH]; [done|]. cbn [fmap list_fmap]. rewrite !klookup_cons, rkey_recOf. fold (kvkey kv). by case_decide.
Qed.

Lemma recOf_inj kv kv' : recOf kv = recOf kv' -> kv = kv'.
Proof.
  intros E. unfold recOf in E. apply app_inj_1 in E as [E1 E2]; [|by rewrite !hash_length]. destruct kv, kv'. cbn in *. f_equal; [by apply hash_eq|done].
Qed.

Definition withRunSize (rs : Z) (b : Builder) : Builder := mkBuilder (valueLen b) (brec b) rs (bbuf b) (bn b) (runs b).

Lemma build_table vl rs kvs b0 :
  NewBuilder vl = Ok b0 -> 0 < rs < 2 ^ 31 -> Forall (fun kv => zlen kv.2 = vl) kvs -> zlen kvs < two64 ->
  exists b t b' l, addAll kvs (withRunSize rs b0) = (Ok tt, b) /\ Finish b = (Ok t, b') /\
    (forall h, Lookup t h = Ok (snd <$> klookup kvkey (hbytes h) kvs)) /\
    readAll (S (length l)) (newCursor t) = Ok l /\ Len t = zlen l /\ ksorted kvkey l /\ (forall k, klookup kvkey k l = klookup kvkey k kvs).
Proof.
  intros Hb Hrs Hv Hlen. unfold NewBuilder in Hb. destruct (Z.ltb_spec vl 0); [done|]. destruct (Z.ltb_spec MaxValueLen vl); [done|]. injection Hb as <-.
  destruct (addAll_built kvs (withRunSize rs (mkBuilder vl (32 + vl) defaultRunSize [] 0 [])) [] [] []) as (b & rs' & cur & Ea & Hb & Evl).
  { split; try done; cbn; [lia..|]. split; [lia|constructor]. }
  { done. }
  cbn [app valueLen withRunSize] in *. destruct (b_size _ _ _ _ Hb) as [Er Hvl]. rewrite Evl in Er, Hvl.
  destruct (finish_file b rs' cur _ Hb) as (out & Ef & Hs & Hsz & Hk & Hl). rewrite Er in Hsz. rewrite Evl in Ef. rewrite length_fmap in Hl.
  destruct (openTable_ok vl out Hvl Hsz ltac:(lia)) as (t & Et & Htf & Htc & Htr & Hts & Hl1).
  assert (out = recOf <$> (kvOf <$> out)) as Eout.
  { rewrite <-list_fmap_compose. rewrite <-(list_fmap_id out) at 1. apply list_fmap_ext. intros i x Hx. destruct Hsz as [H32 Hall]. rewrite Forall_lookup in Hall.
    symmetry. apply (recOf_kvOf (32 + vl)); [done|by eapply Hall]. }
  exists b, t, (Abort (spill b)), (kvOf <$> out). split_and!.
  - exact Ea.
  - unfold Finish. by rewrite Ef, Et.
  - intros h. rewrite (Lookup_ok vl out Hvl Hsz Hs t h Htf Htc Htr Hts Hl1), Hk, klookup_recOf. f_equal. destruct (klookup kvkey _ kvs) as [kv|] eqn:E; [|done].
    cbn. f_equal. unfold recOf. rewrite drop_app_length'; [done|]. by rewrite hash_length.
  - unfold newCursor. rewrite Htf, Htc, Htr, length_fmap. rewrite <-(readAll_ok (32 + vl) out Hsz). do 2 f_equal. unfold tableOf.
    pose proof (sized_concat _ _ Hsz) as Hc. pose proof (sub_app_r (tableHdr vl (zlen out)) (concat out ++ concat (sampleKeys 0 out)) 0 (zlen out * (32 + vl)) ltac:(done)) as Esub.
    rewrite hdr_length, Z.add_0_r in Esub. rewrite Esub. unfold sub. cbn [Z.to_nat drop]. apply take_app_length'. lia.
  - unfold Len. by rewrite Htc, length_fmap.
  - rewrite Eout in Hs. pose proof (proj1 (ksorted_fmap recOf rkey _) Hs) as Hs'. rewrite !ksorted_lookup in Hs' |- *. intros i j x y Hij Hx Hy.
    specialize (Hs' i j x y Hij Hx Hy). cbn beta in Hs'. by rewrite !rkey_recOf in Hs'.
  - intros k. specialize (Hk k). rewrite Eout, !klookup_recOf in Hk. destruct (klookup kvkey k (kvOf <$> out)), (klookup kvkey k kvs); cbn in Hk; try done.
    injection Hk as Hk. f_equal. by apply recOf_inj.
Qed.

(** C34. The table on disk is a finite map that keeps the first value of a key.
    Whatever the order of the records, the size of a run and so the number of
    runs spilled and merged, building succeeds, and the table's lookup by two
    levels of samples returns for every key the value first added under it,
    nothing for others; a cursor reads the keys in increasing order, each once. *)
Theorem table_holds_the_first_values vl rs kvs b0 :
  NewBuilder vl = Ok b0 -> 0 < rs < 2 ^ 31 -> Forall (fun kv => zlen kv.2 = vl) kvs -> zlen kvs < two64 ->
  exists b t b' l, addAll kvs (withRunSize rs b0) = (Ok tt, b) /\ Finish b = (Ok t, b') /\
    (forall h, Lookup t h = Ok (snd <$> klookup kvkey (hbytes h) kvs)) /\
    readAll (S (length l)) (newCursor t) = Ok l /\ Len t = zlen l /\ ksorted kvkey l /\ (forall k, klookup kvkey k l = klookup kvkey k kvs).
Proof. exact (build_table vl rs kvs b0). Qed.

Lemma table_holds_the_first_values_witness :
  exists b t b', addAll [(zero_hash, [Byte.x01]); (zero_hash, [Byte.x02])] (withRunSize 1 (mkBuilder 1 33 defaultRunSize [] 0 [])) = (Ok tt, b) /\
    length (runs b) = 2%nat /\ Finish b = (Ok t, b') /\ Lookup t zero_hash = Ok (Some [Byte.x01]).
Proof.
  destruct (table_holds_the_first_values 1 1 [(zero_hash, [Byte.x01]); (zero_hash, [Byte.x02])] (mkBuilder 1 33 defaultRunSize [] 0 []))
    as (b & t & b' & l & Ea & Ef & Hl & _); [reflexivity|lia|repeat constructor|vm_compute; reflexivity|].
  exists b, t, b'. split; [exact Ea|]. split; [vm_compute in Ea; injection Ea as <-; reflexivity|]. split; [exact Ef|exact (Hl zero_hash)].
Defined.
