(* ===== verification/Blob.v ===== *)
(** * core/blob: the backend port and the store in memory

    A backend keeps immutable objects by name and swaps one root pointer. The
    port's checks ([port.go], [helpers.go]) are functions every backend calls;
    [Mem] is the store in memory, which defines the contract; the class
    [BlobStore] is the port and [BlobStoreOk] what a client may rely on. *)

From S2P Require Import Prelude GoStd Hash.

Definition MaxNameLen : Z := 512.
Definition MaxSegmentLen : Z := 128.
Definition MaxDepth : Z := 8.
Definition MaxListPage : Z := 1000.
Definition MaxObjectSize : Z := 5 * 2 ^ 30.
Definition MaxRootSize : Z := 4 * 2 ^ 20.

(** Times are unix nanoseconds; a version is an opaque string. *)
Record Info := mkInfo { Name : bytes; Size : Z; ModTime : Z }.
Abbreviation Version := bytes (only parsing).
Definition NoVersion : Version := [].
Record Root := mkRoot { Value : bytes; RVersion : Version }.

(** ** Names *)

Definition nameByte (c : byte) : bool :=
  let v := bZ c in
  ((97 <=? v) && (v <=? 122)) || ((48 <=? v) && (v <=? 57)) || (v =? 46) || (v =? 95) || (v =? 45).

Definition validSegment (seg : bytes) : res unit :=
  if (zlen seg =? 0) || (MaxSegmentLen <? zlen seg) then Err BlobInvalidName
  else if bool_decide (head seg = Some dot) then Err BlobInvalidName
  else if negb (forallb nameByte seg) then Err BlobInvalidName
  else Ok tt.

Definition ValidName (name : bytes) : res unit :=
  if (zlen name =? 0) || (MaxNameLen <? zlen name) then Err BlobInvalidName
  else
    let segs := SplitSeq slash name in
    if MaxDepth <? zlen segs then Err BlobInvalidName else res_each validSegment segs.

(** [strings.TrimSuffix] of one byte. *)
Definition TrimSuffix1 (c : byte) (s : bytes) : bytes := if HasSuffix s [c] then take (length s - 1) s else s.

Definition ValidPrefix (prefix : bytes) : res unit :=
  if bool_decide (prefix = []) then Ok tt else ValidName (TrimSuffix1 slash prefix).

(** ** The rules every backend applies *)

Definition CheckPut (name : bytes) (size : Z) : res unit :=
  _ ← ValidName name;
  if size <? 0 then Err BlobSizeMismatch
  else if MaxObjectSize <? size then Err BlobTooLarge
  else Ok tt.

(** [io.CopyN]: what is copied, the error of the reads if it is not [EOF], and
    what is left of the reader. *)
Fixpoint copyN (n : Z) (src : source) : bytes * option error * source :=
  if n <=? 0 then ([], None, src)
  else match src with
       | [] => ([], None, [])
       | (b, e) :: src' =>
           if zlen b <=? n then
             match e with
             | Some e => (b, if bool_decide (e = EOF) then None else Some e, src')
             | None => let '(d, err, rest) := copyN (n - zlen b) src' in (b ++ d, err, rest)
             end
           else (take (Z.to_nat n) b, None, (drop (Z.to_nat n) b, e) :: src')
       end.

(** [io.ReadFull] of one byte: whether one came, and the error otherwise. *)
Fixpoint readOne (src : source) : bool * error :=
  match src with
  | [] => (false, EOF)
  | (b, e) :: src =>
      if bool_decide (b <> []) then (true, EOF)
      else match e with Some e => (false, e) | None => readOne src end
  end.

Definition ErrUnexpectedEOF : error := EMsg "unexpected EOF".

Definition CopyExact (src : source) (size : Z) : res bytes :=
  let '(d, err, rest) := copyN size src in
  if zlen d =? size then
    let '(more, err) := readOne rest in
    if more then Err BlobSizeMismatch
    else if negb (bool_decide (err = EOF)) && negb (bool_decide (err = ErrUnexpectedEOF)) then Err err
    else Ok d
  else match err with None => Err BlobSizeMismatch | Some e => Err e end.

(** [blob.Range]: where to start and how many bytes to serve. *)
Definition Range (off n size : Z) : res (Z * Z) :=
  if (off <? 0) || (n <? -1) || (size <? off) then Err BlobInvalidRange
  else
    let length := size - off in
    Ok (off, if (0 <=? n) && (n <? length) then n else length).

Definition CheckList (prefix : bytes) (limit : Z) : res unit :=
  _ ← ValidPrefix prefix;
  if (limit <? 1) || (MaxListPage <? limit) then Err BlobInvalidLimit else Ok tt.

Definition CheckRootValue (next : bytes) : res unit :=
  if zlen next =? 0 then Err BlobEmptyRoot
  else if MaxRootSize <? zlen next then Err BlobTooLarge
  else Ok tt.

(** [NewVersion] of sixteen random bytes. *)
Definition NewVersion (rand : bytes) : Version := hex_EncodeToString rand.

(** ** The port *)

(** [Put] is given the time and [SwapRoot] the random bytes it draws. *)
Class BlobStore (S : Type) := {
  bPut : Z -> bytes -> source -> Z -> M S unit;
  bGet : bytes -> Z -> Z -> M S bytes;
  bStat : bytes -> M S Info;
  bList : bytes -> bytes -> Z -> M S (list Info);
  bDelete : bytes -> M S unit;
  bRoot : M S Root;
  bSwapRoot : bytes -> Version -> bytes -> M S Version;
}.

(** [NoDelete] *)
Record noDelete (S : Type) := mkNoDelete { inner : S }.
Arguments mkNoDelete {S} inner.
Arguments inner {S} n.

Definition lift {S A} (m : M S A) : M (noDelete S) A := fun n => let '(r, s) := m (inner n) in (r, mkNoDelete s).

#[export] Instance NoDelete {S} `{BlobStore S} : BlobStore (noDelete S) := {|
  bPut now name src size := lift (bPut now name src size);
  bGet name off n := lift (bGet name off n);
  bStat name := lift (bStat name);
  bList prefix after limit := lift (bList prefix after limit);
  bDelete _ := fail BlobDeleteForbidden;
  bRoot := lift bRoot;
  bSwapRoot rand expected next := lift (bSwapRoot rand expected next);
|}.

(** A step on the state, as an action. *)
Definition act {S A} (f : S -> res A * S) : M S A := f.

(** ** The store in memory *)

Module Mem.

Record object := mkObject { data : bytes; mod_ : Z }.

(** [root] and [mirror] are empty where the source has nil. *)
Record Store := mkStore {
  objects : gmap bytes object; root : bytes; version : Version; mirror : bytes;
  jsegs : list bytes; jopen : bool; jholds : Z }.

Definition New : Store := mkStore ∅ [] NoVersion [] [] false 0.

Definition withObjects (m : gmap bytes object) (s : Store) : Store := mkStore m (root s) (version s) (mirror s) (jsegs s) (jopen s) (jholds s).
Definition withJournal (segs : list bytes) (open : bool) (holds : Z) (s : Store) : Store :=
  mkStore (objects s) (root s) (version s) (mirror s) segs open holds.

Definition Put (now : Z) (name : bytes) (r : source) (size : Z) : M Store unit :=
  liftR (CheckPut name size) ;;
  buf ← liftR (CopyExact r size);
  act (fun s => match objects s !! name with
                | Some _ => (Err BlobExists, s)
                | None => (Ok tt, withObjects (<[name := mkObject buf now]> (objects s)) s)
                end).

Definition Get (name : bytes) (off n : Z) : M Store bytes :=
  liftR (ValidName name) ;;
  asks (fun s => match objects s !! name with
                 | None => Err BlobNotFound
                 | Some o =>
                     '(start, length) ← Range off n (zlen (data o));
                     Ok (take (Z.to_nat length) (drop (Z.to_nat start) (data o)))
                 end).

Definition Stat (name : bytes) : M Store Info :=
  liftR (ValidName name) ;;
  asks (fun s => match objects s !! name with
                 | None => Err BlobNotFound
                 | Some o => Ok (mkInfo name (zlen (data o)) (mod_ o))
                 end).

Definition name_le (a b : Info) : Prop := Name a <=b Name b.

#[export] Instance name_le_dec a b : Decision (name_le a b).
Proof. unfold name_le. apply _. Defined.

Definition infoOf (p : bytes * object) : Info := mkInfo p.1 (zlen (data p.2)) (mod_ p.2).

Definition List (prefix after : bytes) (limit : Z) : M Store (list Info) :=
  liftR (CheckList prefix limit) ;;
  asks (fun s =>
    let infos := List.filter (fun i => HasPrefix (Name i) prefix && bltb after (Name i)) (infoOf <$> map_to_list (objects s)) in
    let infos := merge_sort name_le infos in
    Ok (if limit <? zlen infos then take (Z.to_nat limit) infos else infos)).

Definition Delete (name : bytes) : M Store unit :=
  liftR (ValidName name) ;;
  act (fun s => (Ok tt, withObjects (delete name (objects s)) s)).

Definition Root : M Store Blob.Root := asks (fun s => Ok (mkRoot (root s) (version s))).

Definition SwapRoot (rand : bytes) (expected : Version) (next : bytes) : M Store Version :=
  liftR (CheckRootValue next) ;;
  let v := NewVersion rand in
  act (fun s => if negb (bool_decide (version s = expected)) then (Err BlobRootConflict, s)
                else (Ok v, mkStore (objects s) next v (mirror s) (jsegs s) (jopen s) (jholds s))).

Definition WriteMirror (value : bytes) : M Store unit :=
  liftR (CheckRootValue value) ;;
  act (fun s => (Ok tt, mkStore (objects s) (root s) (version s) value (jsegs s) (jopen s) (jholds s))).

Definition ReadMirror : M Store bytes := asks (fun s => Ok (mirror s)).

#[export] Instance store : BlobStore Store := {|
  bPut := Put; bGet := Get; bStat := Stat; bList := List; bDelete := Delete; bRoot := Root; bSwapRoot := SwapRoot |}.

(** *** The journal *)

(** An open journal: whether it has been closed. *)
Record journal := mkJournal { closed : bool }.

Definition journalLocked (s : Store) : bytes := concat (jsegs s).

Definition OpenJournal : M Store journal := fun s =>
  if jopen s || (0 <? jholds s) then (Err BlobJournalBusy, s)
  else (Ok (mkJournal false), withJournal (jsegs s) true (jholds s) s).

(** The release is [ReleaseJournal], which the caller's [sync.Once] runs once. *)
Definition HoldJournal : M Store Z := fun s =>
  if jopen s then (Err BlobJournalBusy, s)
  else (Ok (zlen (journalLocked s)), withJournal (jsegs s) (jopen s) (jholds s + 1) s).

Definition ReleaseJournal : M Store unit := fun s => (Ok tt, withJournal (jsegs s) (jopen s) (jholds s - 1) s).

(** The methods of an open journal [j]. *)
Definition opened {A} (j : journal) (m : M Store A) : M Store A := if closed j then fail BlobJournalClosed else m.

Definition jRead (j : journal) (limit : Z) : M Store bytes :=
  opened j (asks (fun s => if limit <? zlen (journalLocked s) then Err BlobTooLarge else Ok (journalLocked s))).

Definition jAppend (j : journal) (b : bytes) : M Store unit :=
  opened j (fun s =>
    let segs := match jsegs s with [] => [[]] | segs => segs end in
    let last := (length segs - 1)%nat in
    (Ok tt, withJournal (alter (fun seg => seg ++ b) last segs) (jopen s) (jholds s) s)).

Definition jReset (j : journal) : M Store unit := opened j (fun s => (Ok tt, withJournal [] (jopen s) (jholds s) s)).

Definition jClose (j : journal) : M Store journal := fun s =>
  if closed j then (Ok j, s) else (Ok (mkJournal true), withJournal (jsegs s) false (jholds s) s).

Definition jWrite (j : journal) (b : bytes) : M Store unit := jAppend j b.

Definition jSync (j : journal) : M Store unit := opened j (mret tt).

Definition jRotate (j : journal) : M Store unit := opened j (fun s => (Ok tt, withJournal (jsegs s ++ [[]]) (jopen s) (jholds s) s)).

Definition jDrop (j : journal) : M Store unit :=
  opened j (fun s =>
    let n := length (jsegs s) in
    (Ok tt, withJournal (if (1 <? n)%nat then drop (n - 1) (jsegs s) else jsegs s) (jopen s) (jholds s) s)).

Definition JournalByDefault : bool := false.

End Mem.

(** ** What a client may rely on

    A backend may fail in ways of its own (a network, a disk): an error that is
    not one of the port's leaves open whether the call took effect. *)
Class BlobStoreOk (S : Type) `{BlobStore S} := {
  (** The complete objects, with the time each was stored, and the root. *)
  blobs : S -> gmap bytes (bytes * Z);
  broot : S -> Root;
  (** The order of listings. *)
  name_lt : bytes -> bytes -> Prop;
  name_lt_trans a b c : name_lt a b -> name_lt b c -> name_lt a c;
  name_lt_irrefl a : ~ name_lt a a;
  name_lt_total a b : name_lt a b \/ a = b \/ name_lt b a;
  name_lt_nil a : a <> [] -> name_lt [] a;
  put_law now name src size s r s' : bPut now name src size s = (r, s') ->
    broot s' = broot s /\
    match r with
    | Ok _ => exists b t, CheckPut name size = Ok tt /\ CopyExact src size = Ok b /\ blobs s !! name = None /\ blobs s' = <[name := (b, t)]> (blobs s)
    | Err e => (e = BlobExists -> CopyExact src size <> Err BlobExists -> is_Some (blobs s !! name)) /\
        (blobs s' = blobs s \/ exists b t, e <> BlobExists /\ CopyExact src size = Ok b /\ blobs s !! name = None /\ blobs s' = <[name := (b, t)]> (blobs s))
    end;
  get_law name off n s r s' : bGet name off n s = (r, s') ->
    blobs s' = blobs s /\ broot s' = broot s /\
    match r with
    | Ok d => exists b t start len, blobs s !! name = Some (b, t) /\ Range off n (zlen b) = Ok (start, len) /\ d = take (Z.to_nat len) (drop (Z.to_nat start) b)
    | Err e => e = BlobNotFound -> blobs s !! name = None
    end;
  stat_law name s r s' : bStat name s = (r, s') ->
    blobs s' = blobs s /\ broot s' = broot s /\
    match r with
    | Ok i => exists b t, blobs s !! name = Some (b, t) /\ i = mkInfo name (zlen b) t
    | Err e => e = BlobNotFound -> blobs s !! name = None
    end;
  list_law prefix after limit s r s' : bList prefix after limit s = (r, s') ->
    blobs s' = blobs s /\ broot s' = broot s /\
    forall infos, r = Ok infos ->
      StronglySorted name_lt (Name <$> infos) /\ zlen infos <= limit /\
      (forall i, i ∈ infos -> exists b t, blobs s !! Name i = Some (b, t) /\ i = mkInfo (Name i) (zlen b) t /\ HasPrefix (Name i) prefix = true /\ name_lt after (Name i)) /\
      (forall name, is_Some (blobs s !! name) -> HasPrefix name prefix = true -> name_lt after name ->
        name ∈ (Name <$> infos) \/ (zlen infos = limit /\ forall i, i ∈ infos -> name_lt (Name i) name));
  delete_law name s r s' : bDelete name s = (r, s') ->
    broot s' = broot s /\ match r with Ok _ => blobs s' = delete name (blobs s) | Err _ => blobs s' = blobs s \/ blobs s' = delete name (blobs s) end;
  root_law s r s' : bRoot s = (r, s') -> blobs s' = blobs s /\ broot s' = broot s /\ forall x, r = Ok x -> x = broot s;
  swap_law rand expected next s r s' : bSwapRoot rand expected next s = (r, s') ->
    blobs s' = blobs s /\
    match r with
    | Ok v => RVersion (broot s) = expected /\ broot s' = mkRoot next v
    | Err e => (e = BlobRootConflict -> RVersion (broot s) <> expected) /\
        (broot s' = broot s \/ (e <> BlobRootConflict /\ RVersion (broot s) = expected /\ exists v, broot s' = mkRoot next v))
    end;
}.

(** A refused check leaves the state. *)
Lemma bind_liftR {S A B} (x : res A) (f : A -> M S B) s :
  (liftR x ≫= f) s = match x with Ok a => f a s | Err e => (Err e, s) end.
Proof. unfold mbind, M_bind, liftR. by destruct x. Qed.

Lemma ValidName_err n e : ValidName n = Err e -> e = BlobInvalidName.
Proof.
  unfold ValidName. destruct (_ || _); [by intros [= <-]|]. destruct (_ <? _); [by intros [= <-]|]. generalize (SplitSeq slash n). intros segs.
  induction segs as [|x segs IH]; cbn [res_each]; [done|]. destruct (validSegment x) as [[]|e'] eqn:E; [done|]. intros [= <-]. unfold validSegment in E.
  destruct (_ || _); [by injection E as <-|]. case_bool_decide; [by injection E as <-|]. by destruct (negb _); [injection E as <-|].
Qed.

Lemma CheckPut_err n size e : CheckPut n size = Err e -> e = BlobInvalidName \/ e = BlobSizeMismatch \/ e = BlobTooLarge.
Proof.
  unfold CheckPut. destruct (ValidName n) as [[]|x] eqn:E; cbn; [|intros [= <-]; left; by eapply ValidName_err].
  destruct (size <? 0); [intros [= <-]; by right; left|]. destruct (_ <? _); [intros [= <-]; by right; right|done].
Qed.

Module MemOk.
Import Mem.

#[export] Instance name_le_total : Total name_le.
Proof. intros a b. unfold name_le. destruct (blt_trichotomy (Name a) (Name b)) as [?|[->|?]]; [left|left|right]; border. Qed.
#[export] Instance name_le_trans : Transitive name_le.
Proof. intros a b c. unfold name_le. border. Qed.

(** The names a listing of [s] is cut from. *)
Definition listed (prefix after : bytes) (s : Store) : list Info :=
  List.filter (fun i => HasPrefix (Name i) prefix && bltb after (Name i)) (infoOf <$> map_to_list (objects s)).

Lemma listed_elem prefix after s i :
  i ∈ listed prefix after s <-> (exists o, objects s !! Name i = Some o /\ i = infoOf (Name i, o)) /\ HasPrefix (Name i) prefix = true /\ after <b Name i.
Proof.
  unfold listed. rewrite list_elem_of_In, filter_In, <-list_elem_of_In, andb_true_iff, bltb_true, list_elem_of_fmap. split.
  - intros (([n o] & -> & Hm%elem_of_map_to_list) & ? & ?). split; [|done]. by exists o.
  - intros ((o & Hm & E) & ? & ?). split; [|done]. exists (Name i, o). split; [done|]. by apply elem_of_map_to_list.
Qed.

(** Sorting by distinct names. *)
Lemma sorted_names l : NoDup (Name <$> l) -> StronglySorted blt (Name <$> merge_sort name_le l).
Proof.
  intros Hd. rewrite <-(merge_sort_Permutation name_le l) in Hd. pose proof (StronglySorted_merge_sort name_le l) as Hs.
  induction Hs as [|x xs Hl IH Hx]; [constructor|].
  cbn [fmap list_fmap] in *. apply NoDup_cons in Hd as [Hn Hd]. constructor; [by apply IH|]. rewrite Forall_fmap. rewrite Forall_forall in *. intros y Hy. cbn.
  specialize (Hx y Hy). unfold name_le in Hx. apply ble_lteq in Hx as [?|E]; [done|]. exfalso. apply Hn. rewrite E. by apply list_elem_of_fmap_2.
Qed.

Lemma listed_sorted prefix after s : StronglySorted blt (Name <$> merge_sort name_le (listed prefix after s)).
Proof.
  apply sorted_names. unfold listed. assert (NoDup (Name <$> (infoOf <$> map_to_list (objects s)))) as H1.
  { rewrite <-list_fmap_compose. change (Name ∘ infoOf) with (@fst bytes object). apply NoDup_fst_map_to_list. }
  revert H1. generalize (infoOf <$> map_to_list (objects s)). intros l. induction l as [|x l IH]; [done|]. cbn [fmap list_fmap List.filter].
  intros [Hx Hl]%NoDup_cons. destruct (_ && _); [|by apply IH]. cbn [fmap list_fmap]. apply NoDup_cons. split; [|by apply IH].
  intros Hi. apply Hx. apply list_elem_of_fmap in Hi as (y & -> & Hy). apply list_elem_of_fmap. exists y. split; [done|].
  apply list_elem_of_In in Hy. apply filter_In in Hy as [Hy _]. by apply list_elem_of_In.
Qed.

Definition objs (s : Store) : gmap bytes (bytes * Z) := (fun o => (data o, mod_ o)) <$> objects s.

Lemma mem_put_ok now name src size s r s' : Put now name src size s = (r, s') ->
  mkRoot (root s') (version s') = mkRoot (root s) (version s) /\
  match r with
  | Ok _ => exists b t, CheckPut name size = Ok tt /\ CopyExact src size = Ok b /\ objs s !! name = None /\ objs s' = <[name := (b, t)]> (objs s)
  | Err e => (e = BlobExists -> CopyExact src size <> Err BlobExists -> is_Some (objs s !! name)) /\ s' = s
  end.
Proof.
  unfold Put. rewrite bind_liftR. destruct (CheckPut name size) as [[]|e] eqn:Ec.
  2: { intros [= <- <-]. split; [done|]. split; [|done]. intros ->. by apply CheckPut_err in Ec as [?|[?|?]]. }
  rewrite bind_liftR. destruct (CopyExact src size) as [b|e] eqn:Eb; [|intros [= <- <-]; split; [done|]; split; [|done]; by intros ->]. unfold act.
  destruct (objects s !! name) as [o|] eqn:Eo; intros [= <- <-]; (split; [done|]).
  - split; [|done]. intros _ _. unfold objs. rewrite lookup_fmap, Eo. by eexists.
  - exists b, now. split_and!; [done|done|unfold objs; by rewrite lookup_fmap, Eo|]. unfold objs. cbn. by rewrite fmap_insert.
Qed.

Lemma get_ok name off n s r s' : Get name off n s = (r, s') -> s' = s /\
  match r with
  | Ok d => exists b t start len, objs s !! name = Some (b, t) /\ Range off n (zlen b) = Ok (start, len) /\ d = take (Z.to_nat len) (drop (Z.to_nat start) b)
  | Err e => e = BlobNotFound -> objs s !! name = None
  end.
Proof.
  unfold Get. rewrite bind_liftR. destruct (ValidName name) as [[]|e] eqn:Ev; [|intros [= <- <-]; split; [done|]; intros ->; by apply ValidName_err in Ev].
  unfold asks, objs. rewrite lookup_fmap. intros [= <- <-]. split; [done|]. destruct (objects s !! name) as [o|]; [|done]. unfold Range.
  destruct (_ || _) eqn:Er; [done|]. cbn. eexists _, _, _, _. split; [done|]. by rewrite Er.
Qed.

Lemma list_ok prefix after limit s r s' : List prefix after limit s = (r, s') -> s' = s /\ forall infos, r = Ok infos ->
  StronglySorted blt (Name <$> infos) /\ zlen infos <= limit /\
  (forall i, i ∈ infos -> exists b t, objs s !! Name i = Some (b, t) /\ i = mkInfo (Name i) (zlen b) t /\ HasPrefix (Name i) prefix = true /\ after <b Name i) /\
  (forall name, is_Some (objs s !! name) -> HasPrefix name prefix = true -> after <b name ->
    name ∈ (Name <$> infos) \/ (zlen infos = limit /\ forall i, i ∈ infos -> Name i <b name)).
Proof.
  unfold List. rewrite bind_liftR. destruct (CheckList prefix limit) as [[]|e] eqn:Ec; [|by intros [= <- <-]].
  unfold asks. fold (listed prefix after s). intros [= <- <-]. split; [done|]. intros infos [= <-].
  set (l := merge_sort name_le (listed prefix after s)). pose proof (listed_sorted prefix after s) as Hs. fold l in Hs.
  assert (1 <= limit) as H1.
  { unfold CheckList in Ec. destruct (ValidPrefix prefix); [|done]. cbn in Ec. destruct (_ || _) eqn:E; [done|]. apply orb_false_iff in E as [E%Z.ltb_ge _]. lia. }
  set (l' := if limit <? zlen l then take (Z.to_nat limit) l else l). assert (exists post, l = l' ++ post /\ zlen l' <= limit /\ (post <> [] -> zlen l' = limit)) as (post & El & Hl & Hp).
  { unfold l'. destruct (Z.ltb_spec limit (zlen l)); [|exists []; by rewrite app_nil_r]. exists (drop (Z.to_nat limit) l). rewrite take_drop, length_take. split_and!; [done|lia|lia]. }
  clearbody l'. assert (forall i, i ∈ l -> exists b t, objs s !! Name i = Some (b, t) /\ i = mkInfo (Name i) (zlen b) t /\ HasPrefix (Name i) prefix = true /\ after <b Name i) as Hel.
  { intros i Hi. unfold l in Hi. rewrite (merge_sort_Permutation name_le) in Hi. apply listed_elem in Hi as ((o & Ho & E) & ? & ?).
    exists (data o), (mod_ o). unfold objs. rewrite lookup_fmap, Ho. split_and!; [done| |done|done]. by rewrite E at 1. }
  rewrite El, fmap_app in Hs. apply StronglySorted_app in Hs as (Hcross & Hs1 & _). split_and!; [done|done| |].
  - intros i Hi. apply Hel. rewrite El. set_solver.
  - intros name [[b t] Hb] Hpre Haft. assert (exists o, objects s !! name = Some o) as [o Ho].
    { unfold objs in Hb. rewrite lookup_fmap in Hb. destruct (objects s !! name) as [o|]; [by exists o|done]. }
    assert (infoOf (name, o) ∈ l) as Hi.
    { unfold l. rewrite (merge_sort_Permutation name_le). apply listed_elem. split_and!; [|done|done]. by exists o. }
    rewrite El in Hi. apply elem_of_app in Hi as [Hi|Hi]; [left; apply list_elem_of_fmap; by exists (infoOf (name, o))|].
    right. split; [apply Hp; intros ->; by apply elem_of_nil in Hi|]. intros i Hi'. apply (Hcross (Name i) (Name (infoOf (name, o)))); by apply list_elem_of_fmap_2.
Qed.

(** The store in memory keeps the contract. *)
#[export] Instance mem_ok : BlobStoreOk Store.
Proof.
  refine {| blobs := objs; broot s := mkRoot (root s) (version s); name_lt := blt |}.
  - exact blt_trans.
  - exact blt_irrefl.
  - exact blt_trichotomy.
  - intros [|x a] Hne; [by destruct Hne|reflexivity].
  - intros now name src size s r s' E. apply mem_put_ok in E as [E H]. split; [done|]. destruct r; [done|]. destruct H as [H ->]. split; [done|by left].
  - intros name off n s r s' E. apply get_ok in E as [-> H]. by split_and!.
  - intros name s r s'. cbn. unfold Stat. rewrite bind_liftR. destruct (ValidName name) as [[]|e] eqn:Ev.
    2: { intros [= <- <-]. split_and!; [done|done|]. intros ->. by apply ValidName_err in Ev. }
    unfold asks, objs. rewrite lookup_fmap. intros [= <- <-]. split_and!; [done|done|]. destruct (objects s !! name) as [o|]; [|done]. eexists _, _. by split.
  - intros prefix after limit s r s' E. apply list_ok in E as [-> H]. by split_and!.
  - intros name s r s'. cbn. unfold Delete. rewrite bind_liftR. destruct (ValidName name) as [[]|e]; [|intros [= <- <-]; split; [done|by left]].
    intros [= <- <-]. split; [done|]. unfold objs. cbn. by rewrite fmap_delete.
  - intros s r s'. cbn. intros [= <- <-]. split_and!; [done|done|]. by intros x [= <-].
  - intros rand expected next s r s'. cbn. unfold SwapRoot. rewrite bind_liftR. destruct (CheckRootValue next) as [[]|e] eqn:Ec.
    2: { intros [= <- <-]. split; [done|]. split; [|by left]. intros ->. unfold CheckRootValue in Ec. destruct (_ =? _); [done|]. by destruct (_ <? _). }
    unfold act. case_bool_decide as Hv; cbn [negb]; intros [= <- <-]; (split; [done|]); [done|]. split; [|by left]. intros _. exact Hv.
Defined.
End MemOk.

(** A store that refuses deletion keeps the contract too. *)
#[export] Instance NoDelete_ok {S} `{B : BlobStore S} {O : BlobStoreOk S} : BlobStoreOk (noDelete S).
Proof.
  refine {| blobs n := blobs (inner n); broot n := broot (inner n); name_lt := name_lt |};
    try apply O; [| | | |intros name s r s' [= <- <-]; split; [done|by left]| |]; cbn; unfold lift.
  - intros now name src size [s] r s'. cbn. destruct (bPut now name src size s) as [r0 s1] eqn:E. intros [= <- <-]. by apply put_law in E.
  - intros name off n [s] r s'. cbn. destruct (bGet name off n s) as [r0 s1] eqn:E. intros [= <- <-]. by apply get_law in E.
  - intros name [s] r s'. cbn. destruct (bStat name s) as [r0 s1] eqn:E. intros [= <- <-]. by apply stat_law in E.
  - intros prefix after limit [s] r s'. cbn. destruct (bList prefix after limit s) as [r0 s1] eqn:E. intros [= <- <-]. by apply list_law in E.
  - intros [s] r s'. cbn. destruct (bRoot s) as [r0 s1] eqn:E. intros [= <- <-]. by apply root_law in E.
  - intros rand expected next [s] r s'. cbn. destruct (bSwapRoot rand expected next s) as [r0 s1] eqn:E. intros [= <- <-]. by apply swap_law in E.
Defined.

(** ** The journal *)

Module MemJournal.
Import Mem.

(** What a writer does with an open journal. *)
Inductive jop := JAppend (b : bytes) | JWrite (b : bytes) | JSync | JRotate | JDrop | JReset.

Definition jrun (j : journal) (o : jop) : M Store unit :=
  match o with
  | JAppend b => jAppend j b
  | JWrite b => jWrite j b
  | JSync => jSync j
  | JRotate => jRotate j
  | JDrop => jDrop j
  | JReset => jReset j
  end.

Fixpoint jruns (j : journal) (os : list jop) : M Store unit :=
  match os with [] => mret tt | o :: os => jrun j o ;; jruns j os end.

(** A log: the bytes before the last rotation, and those after. *)
Record log := mkLog { before : bytes; current : bytes }.

Definition logStep (l : log) (o : jop) : log :=
  match o with
  | JAppend b | JWrite b => mkLog (before l) (current l ++ b)
  | JSync => l
  | JRotate => mkLog (before l ++ current l) []
  | JDrop => mkLog [] (current l)
  | JReset => mkLog [] []
  end.

(** The segments of a log, the current one last; none before the first write. *)
Definition segsOf (segs : list bytes) (l : log) : Prop :=
  (segs = [] /\ l = mkLog [] []) \/ exists pre cur, segs = pre ++ [cur] /\ l = mkLog (concat pre) cur.

Lemma jrun_log j o s l : closed j = false -> segsOf (jsegs s) l ->
  exists segs, jrun j o s = (Ok tt, withJournal segs (jopen s) (jholds s) s) /\ segsOf segs (logStep l o).
Proof.
  intros Hj Hs. destruct s as [ob rt vr mi segs op ho]. cbn [jsegs] in Hs.
  assert (forall b, exists segs', jAppend j b (mkStore ob rt vr mi segs op ho) = (Ok tt, mkStore ob rt vr mi segs' op ho) /\ segsOf segs' (mkLog (before l) (current l ++ b))) as Happ.
  { intros b. unfold jAppend, opened. rewrite Hj. unfold withJournal. cbn [jsegs jopen jholds objects root version mirror]. eexists. split; [done|].
    destruct Hs as [[-> ->]|(pre & cur & -> & ->)].
    - right. by exists [], b.
    - right. exists pre, (cur ++ b). split; [|done]. destruct (pre ++ [cur]) as [|y ys] eqn:E; [by destruct pre|]. rewrite <-E.
      replace (length (pre ++ [cur]) - 1)%nat with (length pre + 0)%nat by (rewrite length_app; cbn; lia). by rewrite alter_app_r. }
  destruct o as [b|b| | | |]; cbn [jrun logStep].
  - destruct (Happ b) as (segs' & -> & H). by exists segs'.
  - destruct (Happ b) as (segs' & E & H). exists segs'. unfold jWrite. by rewrite E.
  - exists segs. unfold jSync, opened. by rewrite Hj.
  - eexists. unfold jRotate, opened. rewrite Hj. split; [done|]. right. cbn [jsegs]. destruct Hs as [[-> ->]|(pre & cur & -> & ->)].
    + by exists [], [].
    + exists (pre ++ [cur]), []. split; [done|]. cbn. rewrite concat_app. cbn. by rewrite app_nil_r.
  - eexists. unfold jDrop, opened. rewrite Hj. split; [done|]. cbn [jsegs]. destruct Hs as [[-> ->]|(pre & cur & -> & ->)]; [by left|].
    right. exists [], cur. split; [|done]. destruct (Nat.ltb_spec 1 (length (pre ++ [cur]))) as [Hlt|Hge].
    + rewrite drop_app_length'; [done|]. rewrite length_app. cbn. lia.
    + rewrite length_app in Hge. cbn in Hge. assert (pre = []) as -> by (destruct pre; [done|cbn in Hge; lia]). done.
  - eexists. unfold jReset, opened. rewrite Hj. split; [done|]. by left.
Qed.

Lemma jruns_log j os : closed j = false -> forall s l, segsOf (jsegs s) l ->
  exists segs, jruns j os s = (Ok tt, withJournal segs (jopen s) (jholds s) s) /\ segsOf segs (foldl logStep l os).
Proof.
  intros Hj. induction os as [|o os IH]; intros s l Hs; cbn [jruns foldl].
  - exists (jsegs s). split; [by destruct s|done].
  - destruct (jrun_log j o s l Hj Hs) as (segs & E & Hs'). unfold mbind, M_bind. rewrite E.
    destruct (IH (withJournal segs (jopen s) (jholds s) s) _ Hs') as (segs' & E' & Hs''). exists segs'. split; [|done]. rewrite E'. done.
Qed.

(** The writers of a store's journal and those holding it. *)
Inductive jstep : Store * nat * nat -> Store * nat * nat -> Prop :=
  | js_open s s' j w h : OpenJournal s = (Ok j, s') -> jstep (s, w, h) (s', S w, h)
  | js_close s s' j j' w h : closed j = false -> jClose j s = (Ok j', s') -> jstep (s, S w, h) (s', w, h)
  | js_hold s s' n w h : HoldJournal s = (Ok n, s') -> jstep (s, w, h) (s', w, S h)
  | js_release s s' w h : ReleaseJournal s = (Ok tt, s') -> jstep (s, w, S h) (s', w, h)
  | js_run s s' j o w h : jrun j o s = (Ok tt, s') -> jstep (s, S w, h) (s', S w, h).

Lemma jrun_flags j o s s' r : jrun j o s = (r, s') -> jopen s' = jopen s /\ jholds s' = jholds s.
Proof. destruct o; cbn; unfold jWrite, jAppend, jSync, jRotate, jDrop, jReset, opened; destruct (closed j); by intros [= <- <-]. Qed.

Definition jinv (st : Store * nat * nat) : Prop :=
  let '(s, w, h) := st in jopen s = bool_decide (w = 1%nat) /\ (w <= 1)%nat /\ jholds s = Z.of_nat h /\ (w = 1%nat -> h = 0%nat).

Lemma jstep_inv st st' : jstep st st' -> jinv st -> jinv st'.
Proof.
  destruct 1 as [s s' j w h E|s s' j j' w h Hj E|s s' n w h E|s s' w h E|s s' j o w h E]; intros (Ho & Hw & Hh & Hx); cbn [jinv].
  - unfold OpenJournal in E. destruct (jopen s) eqn:Eo; [done|]. destruct (Z.ltb_spec 0 (jholds s)); [done|]. injection E as <- <-. cbn.
    symmetry in Ho. apply bool_decide_eq_false in Ho. assert (w = 0%nat) as -> by lia. split_and!; [done|lia|done|lia].
  - assert (w = 0%nat) as -> by lia. unfold jClose in E. rewrite Hj in E. injection E as <- <-. cbn. split_and!; [done|lia|done|lia].
  - unfold HoldJournal in E. destruct (jopen s) eqn:Eo; [done|]. injection E as <- <-. cbn. symmetry in Ho. apply bool_decide_eq_false in Ho.
    split_and!; [by rewrite bool_decide_eq_false_2|lia|lia|lia].
  - injection E as <-. cbn. split_and!; [done|done|lia|lia].
  - apply jrun_flags in E as [-> ->]. by split_and!.
Qed.

(** The journal in memory is the log of one writer. Whatever writers do,
    at most one has it open and none while it is held; and what a writer that
    has it open reads after any calls is the log those calls make: appended
    bytes in order, without what [Drop] removed before the last rotation and
    what [Reset] emptied. No call touches the objects or the root. *)
Theorem journal_is_one_writers_log :
  (forall s w h, rtc jstep (New, 0%nat, 0%nat) (s, w, h) -> (w <= 1)%nat /\ (w = 1%nat -> h = 0%nat) /\ jopen s = bool_decide (w = 1%nat) /\ jholds s = Z.of_nat h) /\
  (forall j os s l limit, closed j = false -> segsOf (jsegs s) l ->
    exists s', jruns j os s = (Ok tt, s') /\ objects s' = objects s /\ root s' = root s /\ version s' = version s /\
      let l' := foldl logStep l os in
      segsOf (jsegs s') l' /\ jRead j limit s' = (if limit <? zlen (before l' ++ current l') then Err BlobTooLarge else Ok (before l' ++ current l'), s')).
Proof.
  split.
  - intros s w h Hr. assert (jinv (s, w, h)) as (H1 & H2 & H3 & H4); [|done].
    assert (forall st st', rtc jstep st st' -> jinv st -> jinv st') as Hall by (induction 1; [done|]; intros; apply IHrtc; by eapply jstep_inv).
    apply (Hall _ _ Hr). cbn. split_and!; [done|lia|done|done].
  - intros j os s l limit Hj Hs. destruct (jruns_log j os Hj s l Hs) as (segs & E & Hs'). eexists. split; [exact E|]. split_and!; [done..|]. cbn zeta. split; [exact Hs'|].
    unfold jRead, opened. rewrite Hj. unfold asks, journalLocked, withJournal. cbn [jsegs].
    assert (concat segs = before (foldl logStep l os) ++ current (foldl logStep l os)) as ->; [|done].
    destruct Hs' as [[-> ->]|(pre & cur & -> & ->)]; [done|]. rewrite concat_app. cbn. by rewrite app_nil_r.
Qed.
End MemJournal.
