(* ===== verification/Split.v ===== *)
(** * core/blob/split: the root apart from the objects

    A store over two: the objects of one and the root of another. A copy of the
    root is kept on the objects store, within the swap, by a writer beside it,
    or not at all. The store keeps the contract of the port; while swaps come one
    at a time, a status that says mirrored means the copy is the root of the
    last swap reported, which [Recover] then brings back; two swaps at once can
    leave an older copy under such a status. *)

From S2P Require Import Prelude GoStd Hash Blob.

Definition MirrorWait : Z := 0.
Definition MirrorBackground : Z := 1.
Definition MirrorPeriodic : Z := 2.
Definition MirrorOff : Z := 3.

Record Mirror := mkMirror { Mode : Z; Every : Z }.

(** [Mirrorer]: what an objects store that can hold the copy offers. *)
Class Mirrorer (Ob : Type) := { WriteMirror : bytes -> M Ob unit; ReadMirror : M Ob bytes }.

#[local] Existing Instance Mem.store.
#[local] Existing Instance MemOk.mem_ok.

#[export] Instance mem_mirrorer : Mirrorer Mem.Store := {| WriteMirror := Mem.WriteMirror; ReadMirror := Mem.ReadMirror |}.

Record Options (Ob Ro : Type) := mkOptions { Objects : option Ob; Roots : option Ro; OMirror : Mirror }.
Arguments mkOptions {Ob Ro}.
Arguments Objects {Ob Ro}.
Arguments Roots {Ob Ro}.
Arguments OMirror {Ob Ro}.

Record Status := mkStatus { Mirrored : bool; LastWrite : option Z; LastError : option error }.

(** One copy is tried for 30 seconds; delays are in nanoseconds. *)
Definition waitAttempts : nat := 3.
Definition minBackoff : Z := 10 * 10 ^ 6.
Definition maxBackoff : Z := 10 ^ 9.

(** [Store]. [hasMirror] is whether the copy is kept ([mirror] is not nil),
    [wake] whether the channel of one place holds a token, [closing] whether
    [Close] has begun; [now] is what [time.Now] says next. A nil [pending] is
    [None], as are the zero time and no error. *)
Record Store (Ob Ro : Type) := mkStore {
  objects : Ob;
  roots : Ro;
  mmode : Mirror;
  hasMirror : bool;
  pending : option bytes;
  mirrored : bool;
  lastWrite : option Z;
  lastErr : option error;
  wake : bool;
  closing : bool;
  now : Z;
}.
Arguments mkStore {Ob Ro}.
Arguments objects {Ob Ro}.
Arguments roots {Ob Ro}.
Arguments mmode {Ob Ro}.
Arguments hasMirror {Ob Ro}.
Arguments pending {Ob Ro}.
Arguments mirrored {Ob Ro}.
Arguments lastWrite {Ob Ro}.
Arguments lastErr {Ob Ro}.
Arguments wake {Ob Ro}.
Arguments closing {Ob Ro}.
Arguments now {Ob Ro}.

Section Split.
Context {Ob Ro : Type} `{BO : BlobStore Ob} `{BR : BlobStore Ro} `{MO : Mirrorer Ob}.
Abbreviation St := (Store Ob Ro).

Definition withObjects (o : Ob) (s : St) : St :=
  mkStore o (roots s) (mmode s) (hasMirror s) (pending s) (mirrored s) (lastWrite s) (lastErr s) (wake s) (closing s) (now s).
Definition withRoots (r : Ro) (s : St) : St :=
  mkStore (objects s) r (mmode s) (hasMirror s) (pending s) (mirrored s) (lastWrite s) (lastErr s) (wake s) (closing s) (now s).
Definition withCopy (p : option bytes) (m : bool) (s : St) : St :=
  mkStore (objects s) (roots s) (mmode s) (hasMirror s) p m (lastWrite s) (lastErr s) (wake s) (closing s) (now s).
Definition withLast (w : option Z) (e : option error) (s : St) : St :=
  mkStore (objects s) (roots s) (mmode s) (hasMirror s) (pending s) (mirrored s) w e (wake s) (closing s) (now s).
Definition withWake (b : bool) (s : St) : St :=
  mkStore (objects s) (roots s) (mmode s) (hasMirror s) (pending s) (mirrored s) (lastWrite s) (lastErr s) b (closing s) (now s).
Definition withClosing (s : St) : St :=
  mkStore (objects s) (roots s) (mmode s) (hasMirror s) (pending s) (mirrored s) (lastWrite s) (lastErr s) (wake s) true (now s).

Definition onObjects {A} (m : M Ob A) : M St A := fun s => let '(r, o) := m (objects s) in (r, withObjects o s).
Definition onRoots {A} (m : M Ro A) : M St A := fun s => let '(r, x) := m (roots s) in (r, withRoots x s).

(** [New]; [asserted] is whether the objects store is a [Mirrorer]. The writer
    it starts in two of the modes is [writerTurn], turn after turn. *)
Definition New (o : Options Ob Ro) (asserted : bool) (t : Z) : res St :=
  match Objects o, Roots o with
  | Some ob, Some ro =>
      let mode := Mode (OMirror o) in
      if (mode <? MirrorWait) || (MirrorOff <? mode) then Err SplitOptions
      else if (mode =? MirrorPeriodic) && (Every (OMirror o) <=? 0) then Err SplitOptions
      else
        let on := negb (mode =? MirrorOff) in
        if on && negb asserted then Err SplitOptions
        else Ok (mkStore ob ro (OMirror o) on None true None None false false t)
  | _, _ => Err SplitOptions
  end.

(** ** The copy *)

(** [copy] once the write has returned: under the lock. *)
Definition recorded (value : bytes) (r : res unit) : M St unit := fun s =>
  match r with
  | Err e => (Err e, withLast (lastWrite s) (Some e) s)
  | Ok _ =>
      let s := withLast (Some (now s)) None s in
      (Ok tt, if bool_decide (default [] (pending s) = value) then withCopy None true s else s)
  end.

Definition copy (value : bytes) : M St unit := fun s =>
  let '(r, s) := onObjects (WriteMirror value) s in recorded value r s.

Definition take_ (s : St) : option bytes := pending s.

(** The attempts of a swap that waits for its copy. *)
Fixpoint copies (attempts : nat) (value : bytes) : M St unit := fun s =>
  match attempts with
  | O => (Ok tt, s)
  | S n => match copy value s with (Ok _, s) => (Ok tt, s) | (Err _, s) => copies n value s end
  end.

(** A swap that landed, under the lock. *)
Definition noted (next : bytes) (s : St) : St := withCopy (Some next) false s.

(** What a swap that landed does then, as the mode says. *)
Definition kept (next : bytes) : M St unit := fun s =>
  if Mode (mmode s) =? MirrorWait then copies waitAttempts next s
  else if Mode (mmode s) =? MirrorBackground then (Ok tt, withWake true s)
  else (Ok tt, s).

Definition SwapRoot (rand : bytes) (expected : Version) (next : bytes) : M St Version := fun s =>
  match onRoots (bSwapRoot rand expected next) s with
  | (Err e, s) => (Err e, s)
  | (Ok v, s) =>
      if negb (hasMirror s) then (Ok v, s)
      else let '(_, s) := kept next (noted next s) in (Ok v, s)
  end.

#[export] Instance split_store : BlobStore St := {|
  bPut now name src size := onObjects (bPut now name src size);
  bGet name off n := onObjects (bGet name off n);
  bStat name := onObjects (bStat name);
  bList prefix after limit := onObjects (bList prefix after limit);
  bDelete name := onObjects (bDelete name);
  bRoot := onRoots bRoot;
  bSwapRoot := SwapRoot;
|}.

(** ** The writer *)

(** What a turn of the writer ends in: waiting for a swap, for the next tick or
    for a delay, or in the next turn. *)
Inductive turn := WaitWake | WaitTick | WaitDelay (d : Z) | Again.

(** A turn of [writer], with the delay after its next failure. *)
Definition writerTurn (ticker : bool) (backoff : Z) (s : St) : turn * Z * St :=
  match take_ s with
  | None => (if ticker then WaitTick else WaitWake, backoff, s)
  | Some v =>
      match copy v s with
      | (Ok _, s) => (Again, minBackoff, s)
      | (Err _, s) => (WaitDelay backoff, Z.min (backoff * 2) maxBackoff, s)
      end
  end.

Definition MirrorStatus (s : St) : Status := mkStatus (mirrored s || negb (hasMirror s)) (lastWrite s) (lastErr s).

(** The attempts of [Close]. *)
Fixpoint flushing (attempts : nat) (err : option error) : M St unit := fun s =>
  let result := match err with Some e => Err e | None => Ok tt end in
  match attempts with
  | O => (result, s)
  | S n =>
      match take_ s with
      | None => (result, s)
      | Some v => match copy v s with (Ok _, s) => (Ok tt, s) | (Err e, s) => flushing n (Some e) s end
      end
  end.

(** [Close], its writer stopped; a second call does nothing. *)
Definition Close : M St unit := fun s =>
  if closing s then (Ok tt, s)
  else
    let s := withClosing s in
    if negb (hasMirror s) then (Ok tt, s) else flushing waitAttempts None s.
End Split.

Definition Recover {Ob Ro} `{Mirrorer Ob} `{BlobStore Ro} (rand : bytes) : M (Ob * Ro) unit := fun '(o, r) =>
  match bRoot r with
  | (Err e, r) => (Err e, (o, r))
  | (Ok x, r) =>
      if negb (bool_decide (RVersion x = NoVersion)) then (Err SplitRootPresent, (o, r))
      else
        match ReadMirror o with
        | (Err e, o) => (Err e, (o, r))
        | (Ok value, o) =>
            if zlen value =? 0 then (Err SplitNoMirror, (o, r))
            else
              match bSwapRoot rand NoVersion value r with
              | (Err e, r) => (Err e, (o, r))
              | (Ok _, r) => (Ok tt, (o, r))
              end
        end
  end.

(** ** What the copy promises *)

(** The copy lies outside the object namespace: no call of the port moves it,
    and writing it moves no object. *)
Class MirrorerOk (Ob : Type) `{BlobStoreOk Ob} `{Mirrorer Ob} := {
  mirrorOf : Ob -> bytes;
  write_law v s r s' : WriteMirror v s = (r, s') ->
    blobs s' = blobs s /\ match r with Ok _ => mirrorOf s' = v | Err _ => mirrorOf s' = mirrorOf s \/ mirrorOf s' = v end;
  read_law s r s' : ReadMirror s = (r, s') -> blobs s' = blobs s /\ mirrorOf s' = mirrorOf s /\ forall b, r = Ok b -> b = mirrorOf s;
  put_mirror now name src size s : mirrorOf (bPut now name src size s).2 = mirrorOf s;
  delete_mirror name s : mirrorOf (bDelete name s).2 = mirrorOf s;
}.

#[export] Instance mem_mirrorer_ok : MirrorerOk Mem.Store.
Proof.
  refine {| mirrorOf := Mem.mirror |}.
  - intros v s r s'. cbn. unfold Mem.WriteMirror. rewrite bind_liftR. destruct (CheckRootValue v); intros [= <- <-]; [done|by split; [|left]].
  - intros s r s'. cbn. intros [= <- <-]. split_and!; [done|done|]. by intros b [= <-].
  - intros now name src size s. cbn. unfold Mem.Put. rewrite bind_liftR. destruct (CheckPut name size); [|done]. rewrite bind_liftR.
    destruct (CopyExact src size); [|done]. unfold act. by destruct (Mem.objects s !! name).
  - intros name s. cbn. unfold Mem.Delete. rewrite bind_liftR. by destruct (ValidName name).
Defined.

Section Promises.
Context {Ob Ro : Type} `{BO : BlobStore Ob} {OO : BlobStoreOk Ob} `{BR : BlobStore Ro} {OR : BlobStoreOk Ro} {MO : Mirrorer Ob} {OM : MirrorerOk Ob}.
Abbreviation St := (Store Ob Ro).

Lemma copy_frame v (s s' : St) r : copy v s = (r, s') -> blobs (objects s') = blobs (objects s) /\ roots s' = roots s.
Proof.
  unfold copy, onObjects. destruct (WriteMirror v (objects s)) as [r0 o] eqn:E. apply write_law in E as [Hb _]. unfold recorded.
  destruct r0; [case_bool_decide|]; by intros [= <- <-].
Qed.

Lemma copies_frame n v (s s' : St) r : copies n v s = (r, s') -> blobs (objects s') = blobs (objects s) /\ roots s' = roots s.
Proof.
  revert s. induction n as [|n IH]; intros s; cbn [copies]; [by intros [= <- <-]|]. destruct (copy v s) as [[[]|e] s1] eqn:E; apply copy_frame in E as [E1 E2].
  - by intros [= <- <-].
  - intros [H1 H2]%IH. by rewrite H1, H2.
Qed.

Lemma kept_frame v (s s' : St) r : kept v s = (r, s') -> blobs (objects s') = blobs (objects s) /\ roots s' = roots s.
Proof. unfold kept. destruct (_ =? _); [apply copies_frame|]. destruct (_ =? _); by intros [= <- <-]. Qed.

(** The split store keeps the contract of the port. *)
#[export] Instance split_ok : BlobStoreOk St.
Proof.
  refine {| blobs s := blobs (objects s); broot s := broot (roots s); name_lt := name_lt (S := Ob) |}; try apply OO; cbn; unfold onObjects, onRoots.
  - intros t name src size s r s'. destruct (bPut t name src size (objects s)) as [r0 o] eqn:E. intros [= <- <-]. split; [done|]. by apply put_law in E as [_ E].
  - intros name off n s r s'. destruct (bGet name off n (objects s)) as [r0 o] eqn:E. intros [= <- <-]. apply get_law in E. by destruct E as (? & _ & ?).
  - intros name s r s'. destruct (bStat name (objects s)) as [r0 o] eqn:E. intros [= <- <-]. apply stat_law in E. by destruct E as (? & _ & ?).
  - intros prefix after limit s r s'. destruct (bList prefix after limit (objects s)) as [r0 o] eqn:E. intros [= <- <-]. apply list_law in E. by destruct E as (? & _ & ?).
  - intros name s r s'. destruct (bDelete name (objects s)) as [r0 o] eqn:E. intros [= <- <-]. split; [done|]. by apply delete_law in E as [_ E].
  - intros s r s'. destruct (bRoot (roots s)) as [r0 x] eqn:E. intros [= <- <-]. apply root_law in E. by destruct E as (_ & ? & ?).
  - intros rand expected next s r s'. unfold SwapRoot, onRoots. destruct (bSwapRoot rand expected next (roots s)) as [[v|e] x] eqn:E; apply swap_law in E as [_ E].
    + destruct (hasMirror _); cbn [negb]; [|by intros [= <- <-]]. destruct (kept next _) as [r1 s1] eqn:Ek. apply kept_frame in Ek as [Hb Hr]. intros [= <- <-]. by rewrite Hb, Hr.
    + by intros [= <- <-].
Defined.

(** ** Calls side by side

    A swap that landed takes the lock, writes its copy and records it, each in
    a step of its own; the writer, where there is one, takes the newest root,
    writes it and records it. Other calls come between. *)
Inductive call := Landed (next : bytes) | Copying (next : bytes) (left : nat) | Wrote (next : bytes) (left : nat) (r : res unit).
Inductive wcall := WIdle | WTook (v : bytes) | WWrote (v : bytes) (r : res unit).

Definition conf : Type := St * list call * wcall.

(** Whether a writer runs. *)
Definition writes (s : St) : bool := (Mode (mmode s) =? MirrorBackground) || (Mode (mmode s) =? MirrorPeriodic).

Definition afterNote (next : bytes) (s : St) : list call := if Mode (mmode s) =? MirrorWait then [Copying next waitAttempts] else [].

Definition wakened (s : St) : St := if Mode (mmode s) =? MirrorBackground then withWake true s else s.

Inductive step : conf -> conf -> Prop :=
  | s_swap rand expected next v s s' cs w : onRoots (bSwapRoot rand expected next) s = (Ok v, s') -> hasMirror s = true ->
      step (s, cs, w) (s', Landed next :: cs, w)
  | s_refused rand expected next e s s' cs w : onRoots (bSwapRoot rand expected next) s = (Err e, s') ->
      step (s, cs, w) (s', cs, w)
  | s_put t name src size s cs w : step (s, cs, w) ((bPut t name src size s).2, cs, w)
  | s_delete name s cs w : step (s, cs, w) ((bDelete name s).2, cs, w)
  | s_note next s a b w : step (s, a ++ Landed next :: b, w) (wakened (noted next s), a ++ afterNote next s ++ b, w)
  | s_write next n r s s' a b w : onObjects (WriteMirror next) s = (r, s') ->
      step (s, a ++ Copying next (S n) :: b, w) (s', a ++ Wrote next n r :: b, w)
  | s_copied next n u r s s' a b w : recorded next (Ok u) s = (r, s') -> step (s, a ++ Wrote next n (Ok u) :: b, w) (s', a ++ b, w)
  | s_failed next n e r s s' a b w : recorded next (Err e) s = (r, s') -> step (s, a ++ Wrote next n (Err e) :: b, w) (s', a ++ Copying next n :: b, w)
  | s_enough next s a b w : step (s, a ++ Copying next 0 :: b, w) (s, a ++ b, w)
  | s_take v s cs : writes s = true -> take_ s = Some v -> step (s, cs, WIdle) (s, cs, WTook v)
  | s_wwrite v r s s' cs : onObjects (WriteMirror v) s = (r, s') -> step (s, cs, WTook v) (s', cs, WWrote v r)
  | s_wrecord v r r' s s' cs : recorded v r s = (r', s') -> step (s, cs, WWrote v r) (s', cs, WIdle)
  | s_clock t s cs w : step (s, cs, w) (mkStore (objects s) (roots s) (mmode s) (hasMirror s) (pending s) (mirrored s) (lastWrite s) (lastErr s) (wake s) (closing s) t, cs, w).

(** The root's value. *)
Definition newest (s : St) : bytes := Value (broot (roots s)).

(** One swap at a time, beside the value of the last one the root store said had
    landed (before any, what the copy was). *)
Definition heard (cs : list call) (g : bytes) : bytes := match cs with [Landed next] => next | _ => g end.
Definition serial (c c' : conf * bytes) : Prop :=
  step c.1 c'.1 /\ (length c'.1.1.2 <= 1)%nat /\ c'.2 = heard c'.1.1.2 c.2.

(** The same where the root moves by no swap but one that is said to have landed:
    none that failed landed all the same. *)
Definition told (c c' : conf * bytes) : Prop :=
  serial c c' /\ (newest c'.1.1.1 = newest c.1.1.1 \/ c'.1.1.2 = [Landed (newest c'.1.1.1)]).

(** With one swap at a time: where the copy of the last root heard of is. *)
Definition inv (c : conf * bytes) : Prop :=
  let '(s, cs, w, g) := c in
  hasMirror s = true /\ closing s = false /\
  (writes s = true \/ w = WIdle) /\ (mirrored s = false <-> pending s <> None) /\
  (w <> WIdle -> mirrored s = false) /\ (forall v u, w = WWrote v (Ok u) -> mirrorOf (objects s) = v) /\
  match cs with
  | [] => if mirrored s then mirrorOf (objects s) = g else pending s = Some g
  | [Landed next] => g = next
  | [Copying next _] => writes s = false /\ g = next /\ pending s = Some next
  | [Wrote next _ r] => writes s = false /\ g = next /\ pending s = Some next /\ (is_ok r = true -> mirrorOf (objects s) = next)
  | _ => False
  end.

(** A step on one of at most one calls is a step on the only one. *)
Lemma only {A} (a b : list A) (x : A) : (length (a ++ x :: b) <= 1)%nat -> a = [] /\ b = [].
Proof. rewrite length_app. cbn. destruct a, b; cbn; intros; split; try done; lia. Qed.

Lemma inv_length s cs w g : inv (s, cs, w, g) -> (length cs <= 1)%nat.
Proof. cbn. intros (_ & _ & _ & _ & _ & _ & H). destruct cs as [|[] []]; cbn; try lia; done. Qed.

Lemma inv_heard s cs w g : inv (s, cs, w, g) -> heard cs g = g.
Proof. cbn. intros (_ & _ & _ & _ & _ & _ & H). destruct cs as [|[] []]; cbn; try done. Qed.

(** Writing and recording a copy. *)
Lemma wrote_ok v (s s' : St) r : onObjects (WriteMirror v) s = (r, s') ->
  exists o, s' = withObjects o s /\ (is_ok r = true -> mirrorOf o = v).
Proof.
  unfold onObjects. destruct (WriteMirror v (objects s)) as [r0 o] eqn:E. intros [= <- <-]. exists o. split; [done|].
  apply write_law in E as [_ E]. by destruct r0.
Qed.

Lemma swapped_ok rand expected next (s s' : St) r : onRoots (bSwapRoot rand expected next) s = (r, s') ->
  exists x, s' = withRoots x s /\ (is_ok r = true -> Value (broot x) = next).
Proof.
  unfold onRoots. destruct (bSwapRoot rand expected next (roots s)) as [r0 x] eqn:E. intros [= <- <-]. exists x. split; [done|].
  apply swap_law in E as [_ E]. destruct r0; [|done]. destruct E as [_ ->]. done.
Qed.

Lemma objects_ok {A} (m : M Ob A) (s : St) : exists o, (onObjects m s).2 = withObjects o s /\ o = (m (objects s)).2.
Proof. unfold onObjects. destruct (m (objects s)) as [r o]. by exists o. Qed.

Ltac slot := try first [done | by split | by split; [|intros []] | by subst | by right | by left].
Ltac calls H := let Ha := fresh in let Hb := fresh in pose proof (inv_length _ _ _ _ H) as Ha; apply only in Ha as [-> ->]; cbn [app] in *.

(** A step with at most one swap in flight keeps the invariant. *)
Lemma serial_inv c c' : serial c c' -> inv c -> inv c'.
Proof.
  destruct c as [c g], c' as [c' g']. intros (Hst & Hlen & Hg) Hi. cbn [fst snd] in Hst, Hlen, Hg. subst g'.
  destruct Hst as [rand ex next v s s' cs w E Hm|rand ex next e s s' cs w E|t name src size s cs w|name s cs w|next s a b w|next n r s s' a b w E
    |next n u r s s' a b w E|next n e r s s' a b w E|next s a b w|v s cs Hw Hp|v r s s' cs E|v r r' s s' cs E|t s cs w]; cbn [fst snd] in Hlen |- *.
  - destruct cs; [|cbn in Hlen; lia]. apply swapped_ok in E as (x & -> & Hx). cbn in *. unfold newest. cbn. destruct Hi as (?&?&?&?&?&?&?). split_and!; slot.
  - rewrite (inv_heard _ _ _ _ Hi). apply swapped_ok in E as (x & -> & _). exact Hi.
  - rewrite (inv_heard _ _ _ _ Hi). cbn [bPut split_store]. destruct (objects_ok (bPut t name src size) s) as (o & -> & Eo). pose proof (put_mirror t name src size (objects s)) as Hm. rewrite <-Eo in Hm.
    cbn in *. unfold newest in *. cbn in *. rewrite Hm. exact Hi.
  - rewrite (inv_heard _ _ _ _ Hi). cbn [bDelete split_store]. destruct (objects_ok (bDelete name) s) as (o & -> & Eo). pose proof (delete_mirror name (objects s)) as Hm. rewrite <-Eo in Hm.
    cbn in *. unfold newest in *. cbn in *. rewrite Hm. exact Hi.
  - calls Hi. rewrite app_nil_r. destruct s as [o x m h p mi lw le wk cl t]. unfold afterNote, wakened, noted. cbn in Hi |- *. destruct Hi as (H1&H2&H3&H4&H5&H6&H7).
    unfold writes, newest in *. cbn in *. destruct (Mode m =? MirrorBackground) eqn:Eb; [|destruct (Mode m =? MirrorWait) eqn:Ew].
    + apply Z.eqb_eq in Eb. rewrite !Eb. cbn. rewrite !Eb. cbn. split_and!; slot.
    + apply Z.eqb_eq in Ew. rewrite ?Ew. cbn. rewrite ?Ew. cbn. split_and!; slot. right. destruct H3 as [H3|]; [by rewrite Ew in H3|done].
    + cbn in *. rewrite ?Eb, ?Ew. cbn. rewrite ?Eb, ?Ew. split_and!; slot.
  - calls Hi. apply wrote_ok in E as (o & -> & Ho). cbn in *. destruct Hi as (H1&H2&H3&H4&H5&H6&H7&H8&H9). unfold writes, newest in *. cbn in *. rewrite H7 in H3.
    destruct H3 as [| ->]; [done|]. split_and!; slot.
  - calls Hi. destruct Hi as (H1&H2&H3&H4&H5&H6&H7&H8&H9&H10). unfold recorded in E. cbn in E. rewrite H9 in E. cbn in E. rewrite bool_decide_eq_true_2 in E by done.
    injection E as <- <-. unfold writes, newest in *. cbn in *. rewrite H7 in H3. destruct H3 as [| ->]; [done|]. split_and!; slot. by rewrite H10.
  - calls Hi. injection E as <- <-. cbn in *. destruct Hi as (H1&H2&H3&H4&H5&H6&H7&H8&H9&H10). by split_and!.
  - calls Hi. cbn in *. destruct Hi as (H1&H2&H3&H4&H5&H6&H7&H8&H9). split_and!; slot. rewrite (proj2 H4) by by rewrite H9. by rewrite H8.
  - rewrite (inv_heard _ _ _ _ Hi). cbn in *. unfold take_ in Hp. destruct Hi as (H1&H2&H3&H4&H5&H6&H7). split_and!; slot. intros _. apply H4. by rewrite Hp.
  - rewrite (inv_heard _ _ _ _ Hi). apply wrote_ok in E as (o & -> & Ho). cbn in *. destruct Hi as (H1&H2&H3&H4&H5&H6&H7). assert (mirrored s = false) as Hf by by apply H5.
    assert (writes s = true) as Hw by by destruct H3. unfold writes, newest in *. cbn in *. rewrite Hf in *. split_and!; slot.
    + intros v' u [= -> ->]. by apply Ho.
    + destruct cs as [|[] []]; try done; by rewrite Hw in H7; destruct H7.
  - rewrite (inv_heard _ _ _ _ Hi). cbn in Hi. destruct Hi as (H1&H2&H3&H4&H5&H6&H7). assert (mirrored s = false) as Hf by by apply H5. assert (writes s = true) as Hw by by destruct H3.
    destruct (pending s) as [p|] eqn:Hp; [|by apply H4 in Hf]. unfold recorded in E. destruct r as [u|e]; cbn in E.
    + specialize (H6 v u eq_refl). rewrite Hp in E. cbn in E. case_bool_decide as Hv; injection E as <- <-; cbn; unfold writes, newest in *; cbn in *.
      * split_and!; slot. rewrite Hf in H7. destruct cs as [|[] []]; try done; [injection H7 as <-; congruence|by rewrite Hw in H7; destruct H7..].
      * rewrite Hf, Hp in *. split_and!; slot.
    + injection E as <- <-. cbn; unfold writes, newest in *; cbn in *. rewrite Hf, Hp in *. split_and!; slot.
  - by rewrite (inv_heard _ _ _ _ Hi).
Qed.

Lemma serial_star c c' : rtc serial c c' -> inv c -> inv c'.
Proof. induction 1; [done|]. intros Hi. apply IHrtc. by eapply serial_inv. Qed.

(** *** A call of [SwapRoot] with no other beside it is such steps *)

Lemma copies_serial n next (s s' : St) r w g : copies n next s = (r, s') -> rtc serial (s, [Copying next n], w, g) (s', [], w, g).
Proof.
  revert s. induction n as [|n IH]; intros s; cbn [copies]; [intros [= <- <-]; apply rtc_once; split_and!; [by apply (s_enough next s [] [])|cbn; lia|done]|].
  unfold copy. destruct (onObjects (WriteMirror next) s) as [r0 s1] eqn:E. destruct (recorded next r0 s1) as [r1 s2] eqn:Er. intros Hc.
  apply (rtc_l _ _ (s1, [Wrote next n r0], w, g)); [split_and!; [by apply (s_write next n r0 s s1 [] [])|cbn; lia|done]|].
  destruct r0 as [u|e].
  - assert (r1 = Ok tt) as -> by by injection Er. injection Hc as <- <-. apply rtc_once.
    split_and!; [by eapply (s_copied next n u _ s1 s2 [] [])|cbn; lia|done].
  - assert (r1 = Err e) as -> by by injection Er. apply (rtc_l _ _ (s2, [Copying next n], w, g)); [|by apply IH].
    split_and!; [by eapply (s_failed next n e _ s1 s2 [] [])|cbn; lia|done].
Qed.

Lemma SwapRoot_serial rand expected next v (s s' : St) w g : hasMirror s = true -> SwapRoot rand expected next s = (Ok v, s') ->
  rtc serial (s, [], w, g) (s', [], w, next).
Proof.
  intros Hm. unfold SwapRoot. destruct (onRoots (bSwapRoot rand expected next) s) as [[v'|e] s1] eqn:E; [|done].
  pose proof (swapped_ok _ _ _ _ _ _ E) as (x & Hs1 & _). assert (hasMirror s1 = true) as -> by by subst. cbn [negb].
  destruct (kept next (noted next s1)) as [r s2] eqn:Ek. intros [= <- <-].
  apply (rtc_l _ _ (s1, [Landed next], w, next)); [split_and!; [by eapply s_swap|cbn; lia|done]|].
  apply (rtc_l _ _ (wakened (noted next s1), afterNote next s1, w, next)).
  { split_and!; [|cbn; unfold afterNote; destruct (_ =? _); cbn; lia|cbn; unfold afterNote; by destruct (_ =? _)].
    pose proof (s_note next s1 [] [] w) as H. by rewrite app_nil_r in H. }
  unfold kept in Ek. cbn [mmode noted withCopy] in Ek. unfold afterNote, wakened. cbn [mmode noted withCopy].
  destruct (Mode (mmode s1) =? MirrorWait) eqn:Ew.
  - apply Z.eqb_eq in Ew. rewrite Ew. cbn. by eapply copies_serial.
  - destruct (Mode (mmode s1) =? MirrorBackground) eqn:Eb; by injection Ek as <- <-.
Qed.

(** What a swap reported as landed swapped in is the root then. *)
Lemma SwapRoot_newest rand expected next v (s s' : St) : SwapRoot rand expected next s = (Ok v, s') -> newest s' = next.
Proof.
  unfold SwapRoot. destruct (onRoots (bSwapRoot rand expected next) s) as [[v'|e] s1] eqn:E; [|done].
  apply swapped_ok in E as (x & -> & Hx). unfold newest. destruct (negb _); [intros [= _ <-]; by apply Hx|].
  destruct (kept next _) as [r s2] eqn:Ek. apply kept_frame in Ek as [_ Hr]. intros [= _ <-]. rewrite Hr. by apply Hx.
Qed.

(** A swap noted as landed has just done so, or had before. *)
Lemma landed_step c c' next : step c c' -> (length c.1.2 <= 1)%nat -> c'.1.2 = [Landed next] -> newest c'.1.1 = next \/ c.1.2 = [Landed next].
Proof.
  destruct 1 as [rand ex nx v s s' cs w E Hm|rand ex nx e s s' cs w E|t name src size s cs w|name s cs w|nx s a b w|nx n r s s' a b w E
    |nx n u r s s' a b w E|nx n e r s s' a b w E|nx s a b w|v s cs Hw Hp|v r s s' cs E|v r r' s s' cs E|t s cs w]; cbn [fst snd]; intros Hl Hc; auto.
  - injection Hc as -> ->. left. apply swapped_ok in E as (x & -> & Hx). by apply Hx.
  - apply only in Hl as [-> ->]. revert Hc. cbn. unfold afterNote. by destruct (_ =? _).
  - by apply only in Hl as [-> ->].
  - by apply only in Hl as [-> ->].
  - by apply only in Hl as [-> ->].
  - by apply only in Hl as [-> ->].
Qed.

(** Told of every swap, the last root heard of is the root. *)
Lemma told_newest c c' : told c c' -> inv c -> newest c.1.1.1 = c.2 -> newest c'.1.1.1 = c'.2.
Proof.
  destruct c as [[[s cs] w] g], c' as [[[s' cs'] w'] g']. intros [(Hst & Hlen & Hg) Ht] Hi Hn. cbn [fst snd] in *.
  pose proof (inv_length _ _ _ _ Hi) as Hl. pose proof (inv_heard _ _ _ _ Hi) as Hh. destruct Ht as [Ht| ->]; [|by rewrite Hg].
  destruct cs' as [|[next|next n|next n r] []]; cbn in Hg; try by rewrite Hg, Ht.
  destruct (landed_step _ _ next Hst Hl eq_refl) as [Hx|Hx]; cbn in Hx; [by rewrite Hg|]. rewrite Hx in Hh. cbn in Hh. by rewrite Ht, Hn, Hg.
Qed.

Lemma told_star c c' : rtc told c c' -> inv c -> newest c.1.1.1 = c.2 -> newest c'.1.1.1 = c'.2.
Proof.
  induction 1 as [|c1 c2 c3 Hs _ IH]; [done|]. intros Hi Hn. apply IH; [|by eapply told_newest]. eapply serial_inv; [apply Hs|done].
Qed.

(** *** Closing and recovering *)

Lemma flushing_ok n e v (s s' : St) : pending s = Some v -> n <> 0%nat \/ e <> None -> flushing n e s = (Ok tt, s') ->
  mirrored s' = true /\ mirrorOf (objects s') = v /\ roots s' = roots s.
Proof.
  revert e s. induction n as [|n IH]; intros e s Hp Hn; cbn [flushing]; [by destruct e; destruct Hn|]. unfold take_. rewrite Hp. unfold copy.
  destruct (onObjects (WriteMirror v) s) as [r s1] eqn:E. apply wrote_ok in E as (o & -> & Ho). destruct r as [u|x]; cbn [recorded].
  - cbn [pending withLast withObjects]. rewrite Hp. cbn [default]. rewrite bool_decide_eq_true_2 by done. intros [= <-]. cbn. split_and!; [done|by apply Ho|done].
  - intros Hf. apply IH in Hf; [|done|by right]. exact Hf.
Qed.

(** What [Recover] ends in, for a root store without a root. *)
Definition recovers (rand : bytes) (o : Ob) (value : bytes) : Prop := forall (r0 : Ro) res o' r', RVersion (broot r0) = NoVersion ->
  Recover rand (o, r0) = (res, (o', r')) ->
  match res with
  | Ok _ => Value (broot r') = value
  | Err e => (bRoot r0).1 = Err e \/ (ReadMirror o).1 = Err e \/ (value = [] /\ e = SplitNoMirror) \/ (exists r1, broot r1 = broot r0 /\ (bSwapRoot rand NoVersion value r1).1 = Err e)
  end.

Lemma Recover_ok rand o : recovers rand o (mirrorOf o).
Proof.
  intros r0 res o' r' Hv. unfold Recover. destruct (bRoot r0) as [[x|e] r1] eqn:Er; [|intros [= <- _ _]; by left].
  apply root_law in Er as (_ & Hr & Hx). rewrite (Hx x eq_refl), Hv, bool_decide_eq_true_2 by done. cbn [negb].
  destruct (ReadMirror o) as [[b|e] o1] eqn:Eo; [|intros [= <- _ _]; by right; left]. apply read_law in Eo as (_ & _ & Hb). rewrite (Hb b eq_refl).
  destruct (zlen (mirrorOf o) =? 0) eqn:Ez.
  - intros [= <- _ _]. right. right. left. split; [|done]. apply Z.eqb_eq in Ez. destruct (mirrorOf o); [done|]. cbn in Ez. lia.
  - destruct (bSwapRoot rand NoVersion (mirrorOf o) r1) as [[v|e] r2] eqn:Es; intros [= <- _ <-].
    + apply swap_law in Es as [_ [_ ->]]. done.
    + right. right. right. exists r1. split; [done|]. by rewrite Es.
Qed.

(** [Close] of a store with no swap in flight. *)
Lemma Close_ok (s s' : St) g : inv (s, [], WIdle, g) -> Close s = (Ok tt, s') ->
  mirrored s' = true /\ mirrorOf (objects s') = g /\ roots s' = roots s.
Proof.
  intros (H1 & H2 & _ & H4 & _ & _ & H7) Hc. unfold Close in Hc. rewrite H2 in Hc. cbn [hasMirror withClosing] in Hc. rewrite H1 in Hc. cbn [negb] in Hc.
  destruct (mirrored s) eqn:Em.
  - assert (pending s = None) as Hp by (destruct (pending s); [|done]; exfalso; by assert (true = false) by by apply H4).
    cbn [flushing waitAttempts] in Hc. unfold take_ in Hc. cbn [pending withClosing] in Hc. rewrite Hp in Hc. injection Hc as <-. cbn. by rewrite Em.
  - apply (flushing_ok _ _ g) in Hc as (Hm & Ho & Hro); [|done|by left]. by rewrite Hm.
Qed.

Lemma status_ok (s : St) g : inv (s, [], WIdle, g) ->
  if Mirrored (MirrorStatus s) then mirrorOf (objects s) = g /\ (forall rand, recovers rand (objects s) g) else pending s = Some g.
Proof.
  intros (H1 & _ & _ & _ & _ & _ & H7). unfold MirrorStatus. rewrite H1. cbn [Mirrored negb]. rewrite orb_false_r.
  destruct (mirrored s); [|done]. split; [done|]. intros rand. rewrite <-H7. apply Recover_ok.
Qed.

Lemma New_inv o t (s0 : St) : New o true t = Ok s0 -> Mode (OMirror o) <> MirrorOff -> inv (s0, [], WIdle, mirrorOf (objects s0)).
Proof.
  unfold New. intros Hn Hmode. destruct (Objects o) as [ob|], (Roots o) as [ro|]; try done. destruct (_ || _); [done|]. destruct (_ && _); [done|].
  rewrite andb_false_r in Hn. injection Hn as <-. cbn in *. apply Z.eqb_neq in Hmode. rewrite Hmode. split_and!; slot.
Qed.

(** C18. The copy of the root. From a new split store, in any mode that keeps a copy,
    after any calls in which one swap is in flight at a time (each swap's
    landing, note, copies and records are steps of their own, and the writer,
    where there is one, takes, writes and records between them), let [g] be
    the value of the last swap the root store reported as landed, or what the
    copy was when the store was made. If the status says mirrored the copy is
    [g], so that [Recover] onto a store without a root ends with [g] or with
    an error one of the two stores gave; if it does not, [Close] writes [g],
    and succeeds only once that has landed. A swap that succeeds makes [g] its
    value and the root's. And [g] stays the root's value, from a point where
    it was, as long as no swap that failed landed all the same: a swap that
    failed is noted nowhere. *)
Theorem copy_is_the_newest_root o t (s0 s : St) g :
  New o true t = Ok s0 -> Mode (OMirror o) <> MirrorOff -> rtc serial (s0, [], WIdle, mirrorOf (objects s0)) (s, [], WIdle, g) ->
  (if Mirrored (MirrorStatus s) then mirrorOf (objects s) = g /\ (forall rand, recovers rand (objects s) g) else pending s = Some g) /\
  (forall s', Close s = (Ok tt, s') -> Mirrored (MirrorStatus s') = true /\ mirrorOf (objects s') = g /\ roots s' = roots s) /\
  (forall rand expected next v s', SwapRoot rand expected next s = (Ok v, s') -> newest s' = next /\
     if Mirrored (MirrorStatus s') then mirrorOf (objects s') = next else pending s' = Some next) /\
  (forall c, rtc serial (s0, [], WIdle, mirrorOf (objects s0)) c -> newest c.1.1.1 = c.2 -> rtc told c (s, [], WIdle, g) -> newest s = g).
Proof.
  intros Hn Hmode Hr. pose proof (New_inv _ _ _ Hn Hmode) as H0. pose proof (serial_star _ _ Hr H0) as Hi. split_and!.
  - exact (status_ok _ _ Hi).
  - intros s' Hc. destruct (Close_ok _ _ _ Hi Hc) as (H1 & H2 & H3). unfold MirrorStatus. by rewrite H1.
  - intros rand expected next v s' Hs. split; [by eapply SwapRoot_newest|].
    pose proof (serial_star _ _ (SwapRoot_serial _ _ _ _ _ _ WIdle g (proj1 Hi) Hs) Hi) as Hi'.
    pose proof (status_ok _ _ Hi') as Hx. destruct (Mirrored _); [apply Hx|exact Hx].
  - intros c Hc Hg Ht. exact (told_star _ _ Ht (serial_star _ _ Hc H0) Hg).
Qed.
End Promises.

(** ** Two stores in memory *)

Section Example.
Abbreviation St := (Store Mem.Store Mem.Store).

Definition exOptions : Options Mem.Store Mem.Store := mkOptions (Some Mem.New) (Some Mem.New) (mkMirror MirrorWait 0).
Definition ex0 : St := mkStore Mem.New Mem.New (mkMirror MirrorWait 0) true None true None None false false 7.
Definition rand1 : bytes := replicate 16 (Zb 1).
Definition rand2 : bytes := replicate 16 (Zb 2).
Definition one : bytes := str "root one".
Definition two : bytes := str "root two".

(** One swap after the other. *)
Definition exOne : St := (SwapRoot rand1 NoVersion one ex0).2.
Definition exTwo : St := (SwapRoot rand2 (NewVersion rand1) two exOne).2.

Lemma ex_serial : rtc serial (ex0, [], WIdle, []) (exTwo, [], WIdle, two).
Proof.
  transitivity (exOne, [] : list call, WIdle, one).
  - by apply (SwapRoot_serial rand1 NoVersion one (NewVersion rand1)); [|vm_compute].
  - by apply (SwapRoot_serial rand2 (NewVersion rand1) two (NewVersion rand2)); [vm_compute|vm_compute].
Qed.

Lemma copy_is_the_newest_root_witness :
  mirrorOf (objects exTwo) = two /\ newest exTwo = two /\ forall s', Close exTwo = (Ok tt, s') -> mirrorOf (objects s') = two.
Proof.
  destruct (copy_is_the_newest_root exOptions 7 ex0 exTwo two) as (H1 & H2 & _ & H4); [reflexivity|discriminate|exact ex_serial|].
  split; [vm_compute in H1; apply H1|]. split; [|intros s' Hc; by apply H2 in Hc as (_ & -> & _)].
  apply (H4 (exTwo, [], WIdle, two) ex_serial); [vm_compute; reflexivity|apply rtc_refl].
Defined.

(** Two swaps in flight: the second's copy lands first. *)
Definition ex1 : St := (onRoots (bSwapRoot rand1 NoVersion one) ex0).2.
Definition ex2 : St := noted one ex1.
Definition ex3 : St := (onRoots (bSwapRoot rand2 (NewVersion rand1) two) ex2).2.
Definition ex4 : St := noted two ex3.
Definition ex5 : St := (onObjects (WriteMirror two) ex4).2.
Definition ex6 : St := (recorded two (Ok tt) ex5).2.
Definition ex7 : St := (onObjects (WriteMirror one) ex6).2.
Definition ex8 : St := (recorded one (Ok tt) ex7).2.

Lemma ex_run : rtc step (ex0, [], WIdle) (ex8, [], WIdle).
Proof.
  apply (rtc_l _ _ (ex1, [Landed one], WIdle)); [by eapply (s_swap rand1 NoVersion one)|].
  apply (rtc_l _ _ (ex2, [Copying one 3], WIdle)); [exact (s_note one ex1 [] [] WIdle)|].
  apply (rtc_l _ _ (ex3, [Landed two; Copying one 3], WIdle)); [by eapply (s_swap rand2 (NewVersion rand1) two)|].
  apply (rtc_l _ _ (ex4, [Copying two 3; Copying one 3], WIdle)); [exact (s_note two ex3 [] [Copying one 3] WIdle)|].
  apply (rtc_l _ _ (ex5, [Wrote two 2 (Ok tt); Copying one 3], WIdle)); [by apply (s_write two 2 (Ok tt) ex4 ex5 [] [Copying one 3])|].
  apply (rtc_l _ _ (ex6, [Copying one 3], WIdle)); [by apply (s_copied two 2 tt (Ok tt) ex5 ex6 [] [Copying one 3])|].
  apply (rtc_l _ _ (ex7, [Wrote one 2 (Ok tt)], WIdle)); [by apply (s_write one 2 (Ok tt) ex6 ex7 [] [])|].
  apply rtc_once. by apply (s_copied one 2 tt (Ok tt) ex7 ex8 [] []).
Qed.

(** C37. Two swaps of one store at once can take the copy back. There is a run in
    which both land, the copy of the second is written and recorded, and then
    that of the first is written over it: no call is in flight, both returned
    without an error, the status says the newest root is mirrored, [Close]
    writes nothing, and a store recovered from the copy has the older root. *)
Theorem two_swaps_leave_an_older_copy : exists s : St,
  rtc step (ex0, [], WIdle) (s, [], WIdle) /\ MirrorStatus s = mkStatus true (Some 7) None /\
  newest s = two /\ mirrorOf (objects s) = one /\ mirrorOf (objects (Close s).2) = one /\
  Value (broot ((Recover rand1 (objects s, Mem.New)).2).2) = one.
Proof. exists ex8. split; [exact ex_run|]. by vm_compute. Qed.
End Example.
