(* ===== verification/Multivol.v ===== *)
(** * core/blob/multivol: one store over several volumes

    Every volume is a store of its own with a marker; an object lives on the
    volume rendezvous hashing of its name picks, the root on the first. A volume
    that is missing or is another one now makes the store read-only. The store
    keeps the contract of the port while no object lies on two volumes, which
    its own calls keep; a missing volume never makes an object look deleted. *)

From S2P Require Import Prelude GoStd Wire Hash Blob.
From S2P Require ChunkStore.

Definition MaxVolumes : Z := 64.
Definition mapMagic : bytes := str "SCMV".
Definition mapV1 : Z := 1.
Definition maxPath : Z := 4096.

(** ** The volume map *)

Record mapEntry := mkMapEntry { eid : bytes; epath : bytes }.

Section Map.
Context `{Hasher}.

Fixpoint encodeEntries (es : list mapEntry) (w : bytes) : res bytes :=
  match es with
  | [] => Ok w
  | e :: es =>
      match hex_Decode (eid e) with
      | Some id => if negb (zlen id =? 16) then Err (EMsg "multivol: volume id") else encodeEntries es (wLenBytes (wRaw w id) (epath e))
      | None => Err (EMsg "multivol: volume id")
      end
  end.

Definition encodeMap (es : list mapEntry) : res bytes :=
  w ← encodeEntries es (wU16 (wU16 (wRaw [] mapMagic) mapV1) (zlen es mod 2 ^ 16));
  Ok (wRaw w (hbytes (Sum w))).

Fixpoint decodeEntries (n : nat) (r : reader) : list mapEntry * reader :=
  match n with
  | O => ([], r)
  | S n =>
      let '(id, r) := Fixed 16 r in
      let '(path, r) := LenBytes maxPath r in
      let '(es, r) := decodeEntries n r in
      (mkMapEntry (hex_EncodeToString (nilb id)) (nilb path) :: es, r)
  end.

Definition decodeMap (b : bytes) : res (list mapEntry) :=
  if zlen b <? 32 then Err MultivolCorrupt
  else
    let body := take (length b - 32) b in
    let sum := drop (length b - 32) b in
    if negb (bool_decide (sum = hbytes (Sum body))) then Err MultivolCorrupt
    else
      let '(magic, r) := Fixed 4 (NewReader body) in
      let '(version, r) := U16 r in
      let '(n, r) := U16 r in
      if negb (bool_decide (nilb magic = mapMagic)) || negb (version =? mapV1) || (n =? 0) || (MaxVolumes <? n) then Err MultivolCorrupt
      else
        let '(es, r) := decodeEntries (Z.to_nat n) r in
        match Done r with Some _ => Err MultivolCorrupt | None => Ok es end.

(** ** Placement *)

(** The first eight bytes of a digest, big-endian. *)
Definition be64 (h : hash) : Z := foldl (fun v x => 256 * v + bZ x) 0 (take 8 (hbytes h)).

Definition score (id name : bytes) : Z := be64 (Sum (id ++ [Zb 0] ++ name)).

(** [rank]'s order: by score, best first; a stable sort of increasing indices
    leaves equal scores in the order of the indices. *)
Definition better (scores : list Z) (i j : nat) : Prop :=
  let a := default 0 (scores !! i) in let b := default 0 (scores !! j) in b < a \/ (a = b /\ (i <= j)%nat).

#[export] Instance better_dec scores i j : Decision (better scores i j).
Proof. unfold better. apply _. Defined.

Definition rank (ids : list bytes) (name : bytes) : list nat :=
  merge_sort (better (map (fun id => score id name) ids)) (seq 0 (length ids)).

(** [Place]; an index out of range is a panic, as for no volumes. *)
Definition Place (names ids : list bytes) : res (list nat) :=
  res_map (fun n => match rank ids n with i :: _ => Ok i | [] => Err GoPanic end) names.
End Map.

(** ** The store *)

(** [volume]. [isOpen] is whether its store is not nil; [disk] is what it holds,
    whether it can be reached or not. *)
Record volume (L : Type) := mkVolume { vid : bytes; vpath : bytes; isOpen : bool; disk : L; dev : Z; ino : Z }.
Arguments mkVolume {L}.
Arguments vid {L}.
Arguments vpath {L}.
Arguments isOpen {L}.
Arguments disk {L}.
Arguments dev {L}.
Arguments ino {L}.

(** What the machine says of a path: [fsutil.Identity] and the free-space probe. *)
Record machine := mkMachine { Identity : bytes -> res (Z * Z); freeSpace : bytes -> res (Z * Z) }.

Record Store `{Float64} (L : Type) := mkStore {
  primary : bytes;
  Floor : f64;
  vols : list (volume L);
  readOnly : bool;
  fs : machine;
}.
Arguments mkStore {_ L}.
Arguments primary {_ L}.
Arguments Floor {_ L}.
Arguments vols {_ L}.
Arguments readOnly {_ L}.
Arguments fs {_ L}.

Section Store.
Context `{Hasher} `{Float64} {L : Type} `{BlobStore L}.
Abbreviation St := (Store L).

(** [filepath.Join] of a clean path and the volume's directory. *)
Definition volDir (path : bytes) : bytes := path ++ str "/vol".

Definition withVols (vs : list (volume L)) (s : St) : St := mkStore (primary s) (Floor s) vs (readOnly s) (fs s).
Definition withReadOnly (s : St) : St := mkStore (primary s) (Floor s) (vols s) true (fs s).

Definition setDisk (d : L) (v : volume L) : volume L := mkVolume (vid v) (vpath v) (isOpen v) d (dev v) (ino v).
Definition lose (v : volume L) : volume L := mkVolume (vid v) (vpath v) false (disk v) (dev v) (ino v).

(** A call of the store of volume [i]; a nil one panics. *)
Definition onVol {A} (i : nat) (m : M L A) : M St A := fun s =>
  match vols s !! i with
  | Some v => if isOpen v then let '(r, d) := m (disk v) in (r, withVols (<[i := setDisk d v]> (vols s)) s) else (Err GoPanic, s)
  | None => (Err GoPanic, s)
  end.

Definition ReadOnly (s : St) : bool := readOnly s.
Definition VolumeIDs (s : St) : list bytes := map vid (vols s).
Definition ranked (name : bytes) (s : St) : list nat := rank (VolumeIDs s) name.

Definition verifyLocked (i : nat) : M St unit := fun s =>
  match vols s !! i with
  | None => (Err GoPanic, s)
  | Some v =>
      if negb (isOpen v) then (Err MultivolMissing, s)
      else
        let same := match Identity (fs s) (volDir (vpath v)) with Ok (d, n) => (d =? dev v) && (n =? ino v) | Err _ => false end in
        if same then (Ok tt, s) else (Err MultivolMissing, withReadOnly (withVols (<[i := lose v]> (vols s)) s))
  end.

(** The loop of [verifyAllLocked]: the first error. *)
Fixpoint verifyEach (js : list nat) (first : option error) (s : St) : option error * St :=
  match js with
  | [] => (first, s)
  | i :: js =>
      match verifyLocked i s with
      | (Ok _, s) => verifyEach js first s
      | (Err e, s) => verifyEach js (Some (default e first)) s
      end
  end.

Definition verifyAllLocked : M St unit := fun s =>
  let '(first, s) := verifyEach (seq 0 (length (vols s))) None s in
  match first with
  | Some e => (Err e, s)
  | None => if readOnly s then (Err MultivolMissing, s) else (Ok tt, s)
  end.

Definition snapshot : M St unit := verifyAllLocked.

Definition DefaultFloor : f64 := quot 5 100.
Definition floor (s : St) : f64 := if fltb f0 (Floor s) then Floor s else DefaultFloor.

Definition hasRoom (i : nat) (s : St) : bool :=
  match vols s !! i with
  | None => false
  | Some v =>
      match freeSpace (fs s) (volDir (vpath v)) with
      | Err _ => false
      | Ok (free, total) => if total =? 0 then false else let q := quot free total in fltb (floor s) q || feqb q (floor s)
      end
  end.

(** ** Writing *)

(** The first loop of [Put]: the name is on no volume. *)
Fixpoint absent (name : bytes) (js : list nat) : M St unit := fun s =>
  match js with
  | [] => (Ok tt, s)
  | i :: js =>
      match onVol i (bStat name) s with
      | (Ok _, s) => (Err BlobExists, s)
      | (Err e, s) => if bool_decide (e = BlobNotFound) then absent name js s else (Err e, s)
      end
  end.

(** The second: the first volume with room takes it. *)
Fixpoint placed (now : Z) (name : bytes) (src : source) (size : Z) (js : list nat) : M St unit := fun s =>
  match js with
  | [] => (Err MultivolNoSpace, s)
  | i :: js => if hasRoom i s then onVol i (bPut now name src size) s else placed now name src size js s
  end.

Definition Put (now : Z) (name : bytes) (src : source) (size : Z) : M St unit :=
  liftR (CheckPut name size) ;;
  snapshot ;;
  act (fun s => let js := ranked name s in (absent name js ;; placed now name src size js) s).

Fixpoint deleteEach (name : bytes) (js : list nat) : M St unit :=
  match js with [] => mret tt | i :: js => onVol i (bDelete name) ;; deleteEach name js end.

Definition Delete (name : bytes) : M St unit :=
  liftR (ValidName name) ;;
  snapshot ;;
  act (fun s => deleteEach name (seq 0 (length (vols s))) s).

(** ** Reading *)

(** The loop of [find] under the lock: the volumes present, and whether one is missing. *)
Fixpoint present (js : list nat) (s : St) : list nat * bool * St :=
  match js with
  | [] => ([], false, s)
  | i :: js =>
      match verifyLocked i s with
      | (Ok _, s) => let '(ps, m, s) := present js s in (i :: ps, m, s)
      | (Err _, s) => let '(ps, _, s) := present js s in (ps, true, s)
      end
  end.

Fixpoint tryEach {A} (js : list nat) (missing : bool) (f : M L A) : M St A := fun s =>
  match js with
  | [] => (Err (if missing then MultivolMissing else BlobNotFound), s)
  | i :: js =>
      match onVol i f s with
      | (Err e, s) => if bool_decide (e = BlobNotFound) then tryEach js missing f s else (Err e, s)
      | (Ok a, s) => (Ok a, s)
      end
  end.

Definition find {A} (name : bytes) (f : M L A) : M St A :=
  liftR (ValidName name) ;;
  act (fun s => let '(ps, missing, s) := present (ranked name s) s in tryEach ps missing f s).

Definition Get (name : bytes) (off n : Z) : M St bytes := find name (bGet name off n).
Definition Stat (name : bytes) : M St Info := find name (bStat name).

(** The names not seen yet. *)
Fixpoint unseen (infos : list Info) (seen : list bytes) : list Info :=
  match infos with
  | [] => []
  | i :: infos => if bool_decide (Name i ∈ seen) then unseen infos seen else i :: unseen infos (Name i :: seen)
  end.

Fixpoint pages (prefix after : bytes) (limit : Z) (js : list nat) (all : list Info) : M St (list Info) :=
  match js with
  | [] => mret all
  | i :: js => infos ← onVol i (bList prefix after limit); pages prefix after limit js (all ++ unseen infos (map Name all))
  end.

Definition List (prefix after : bytes) (limit : Z) : M St (list Info) :=
  liftR (CheckList prefix limit) ;;
  snapshot ;;
  act (fun s => (all ← pages prefix after limit (seq 0 (length (vols s))) [];
                 mret (take (Z.to_nat limit) (merge_sort Mem.name_le all))) s).

(** ** The root *)

Definition primaryStore : M St unit := verifyLocked 0.

Definition Root : M St Blob.Root := primaryStore ;; onVol 0 bRoot.

Definition SwapRoot (rand : bytes) (expected : Version) (next : bytes) : M St Version :=
  liftR (CheckRootValue next) ;;
  snapshot ;;
  onVol 0 (bSwapRoot rand expected next).

#[export] Instance multivol : BlobStore St := {|
  bPut := Put; bGet := Get; bStat := Stat; bList := List; bDelete := Delete; bRoot := Root; bSwapRoot := SwapRoot |}.

(** ** Opening and growing *)

(** [Open] of what the map file holds ([None] for no file); [open] is
    [local.Open] with the store's marker ([None] for no store there), and [gone]
    what is on a volume that is not there. *)
Fixpoint openVolumes (m : machine) (open : bytes -> res (option (L * bytes))) (gone : bytes -> L) (i : nat) (es : list mapEntry) : res (list (volume L) * bool) :=
  match es with
  | [] => Ok ([], false)
  | e :: es =>
      match open (volDir (epath e)) with
      | Err x => Err x
      | Ok None =>
          if (i =? 0)%nat then Err MultivolNotAStore
          else '(vs, _) ← openVolumes m open gone (S i) es; Ok (mkVolume (eid e) (epath e) false (gone (epath e)) 0 0 :: vs, true)
      | Ok (Some (st, id)) =>
          if negb (bool_decide (id = eid e)) then Err MultivolMismatch
          else
            '(d, n) ← Identity m (volDir (epath e));
            '(vs, ro) ← openVolumes m open gone (S i) es;
            Ok (mkVolume (eid e) (epath e) true st d n :: vs, ro)
      end
  end.

Definition Open (m : machine) (open : bytes -> res (option (L * bytes))) (gone : bytes -> L) (file : res (option bytes)) (abs : bytes) (fl : f64) : res St :=
  b ← file;
  match b with
  | None => Err MultivolNotAStore
  | Some b =>
      es ← decodeMap b;
      '(vs, ro) ← openVolumes m open gone 0 es;
      Ok (mkStore abs fl vs ro m)
  end.

(** [AddVolume]: [made] is what [createVolume] of the path gave, [written] what
    writing the new map file gave. *)
Definition AddVolume (made : res (volume L)) (written : bytes -> res unit) : M St unit :=
  verifyAllLocked ;;
  act (fun s =>
    if MaxVolumes <=? zlen (vols s) then (Err MultivolTooMany, s)
    else match made with
         | Err e => (Err e, s)
         | Ok v =>
             let vs := vols s ++ [v] in
             match b ← encodeMap (map (fun v => mkMapEntry (vid v) (vpath v)) vs); written b with
             | Err e => (Err e, s)
             | Ok _ => (Ok tt, withVols vs s)
             end
         end).
End Store.

(** ** What the volumes hold together *)

(** What the store relies on of its volumes, beside the port's laws: they list
    in ascending byte order, and looking an object up never fails as if it
    existed. *)
Class Volume (L : Type) `{BlobStoreOk L} := {
  vol_lt a b : name_lt a b <-> blt a b;
  stat_err name s s' : bStat name s <> (Err BlobExists, s');
}.

Section Volumes.
Context {L : Type} `{BO : BlobStore L} {OO : BlobStoreOk L}.

Definition holds (ds : list L) : gmap bytes (bytes * Z) := foldr (fun d m => blobs d ∪ m) ∅ ds.

(** No object is on two volumes. *)
Definition apart (ds : list L) : Prop := forall i j d d' n, ds !! i = Some d -> ds !! j = Some d' -> i <> j ->
  is_Some (blobs d !! n) -> blobs d' !! n = None.

Definition rootOn (ds : list L) : Blob.Root := match ds with d :: _ => broot d | [] => mkRoot [] NoVersion end.

Lemma holds_None ds n : holds ds !! n = None <-> forall i d, ds !! i = Some d -> blobs d !! n = None.
Proof.
  induction ds as [|d ds IH]; cbn; [split; [by intros _ [|i] d|by rewrite lookup_empty]|]. rewrite lookup_union_None, IH. split.
  - intros [H1 H2] [|i] x Hx; [by injection Hx as <-|by eapply H2].
  - intros Hx. split; [by apply (Hx 0%nat)|]. intros i x Hi. by apply (Hx (S i)).
Qed.

Lemma holds_in ds n x : holds ds !! n = Some x -> exists i d, ds !! i = Some d /\ blobs d !! n = Some x.
Proof.
  induction ds as [|d ds IH]; cbn; [by rewrite lookup_empty|]. rewrite lookup_union_Some_raw. intros [Hd|[_ Hd]]; [by exists 0%nat, d|].
  destruct (IH Hd) as (i & y & Hi & Hy). by exists (S i), y.
Qed.

Lemma holds_at ds i d n x : apart ds -> ds !! i = Some d -> blobs d !! n = Some x -> holds ds !! n = Some x.
Proof.
  intros Ha Hi Hx. destruct (holds ds !! n) as [y|] eqn:E; [|by rewrite (proj1 (holds_None _ _) E _ _ Hi) in Hx].
  apply holds_in in E as (j & d' & Hj & Hy). destruct (decide (i = j)) as [->|Hne]; [congruence|]. specialize (Ha i j d d' n Hi Hj Hne). rewrite Hx, Hy in Ha. by discriminate Ha.
Qed.

(** Two lists of volumes that hold the same wherever they are looked at. *)
Lemma holds_ext ds ds' : apart ds -> apart ds' -> (forall n x, (exists i d, ds !! i = Some d /\ blobs d !! n = Some x) <-> (exists i d, ds' !! i = Some d /\ blobs d !! n = Some x)) ->
  holds ds = holds ds'.
Proof.
  intros Ha Ha' Hx. apply map_eq. intros n. apply option_eq. intros x. split; intros E%holds_in; apply Hx in E as (i & d & Hi & Hd); by eapply holds_at.
Qed.

(** A volume whose objects are among those it had, or new to the store. *)
Lemma apart_insert ds i d d' : apart ds -> ds !! i = Some d ->
  (forall n, is_Some (blobs d' !! n) -> is_Some (blobs d !! n) \/ holds ds !! n = None) -> apart (<[i := d']> ds).
Proof.
  intros Ha Hi Hn a b x y n. rewrite !list_lookup_insert_Some. intros [(<- & <- & _)|[Ea Hx]] [(Eb & <- & _)|[Eb Hy]] Hne Hs; try done.
  - destruct (Hn n Hs) as [Hs'|Hs']; [by eapply (Ha i b)|]. by eapply holds_None.
  - destruct (blobs d' !! n) eqn:Ed; [|done]. destruct (Hn n) as [Hs'|Hs']; [by rewrite Ed|subst b; by rewrite (Ha a i x d n Hx Hi Hne Hs) in Hs'; destruct Hs'|].
    by rewrite (proj1 (holds_None _ _) Hs' _ _ Hx) in Hs; destruct Hs.
  - by eapply (Ha a b).
Qed.

Lemma holds_same ds i d d' : apart ds -> ds !! i = Some d -> blobs d' = blobs d -> apart (<[i := d']> ds) /\ holds (<[i := d']> ds) = holds ds.
Proof.
  intros Ha Hi Hd. assert (apart (<[i := d']> ds)) as Ha' by (eapply apart_insert; [done|done|]; rewrite Hd; by left). split; [done|].
  apply holds_ext; [done|done|]. pose proof (lookup_lt_Some _ _ _ Hi). intros n x. split; intros (j & y & Hj & Hy).
  - apply list_lookup_insert_Some in Hj as [(<- & <- & _)|[Hne Hj]]; [exists i, d; by rewrite <-Hd|by exists j, y].
  - destruct (decide (j = i)) as [->|Hne]; [exists i, d'; rewrite list_lookup_insert_eq by done; split; [done|]; rewrite Hd; congruence|exists j, y; by rewrite list_lookup_insert_ne].
Qed.

Lemma holds_put ds i d d' n x : apart ds -> ds !! i = Some d -> holds ds !! n = None -> blobs d' = <[n := x]> (blobs d) ->
  apart (<[i := d']> ds) /\ holds (<[i := d']> ds) = <[n := x]> (holds ds).
Proof.
  intros Ha Hi Hn Hd. pose proof (lookup_lt_Some _ _ _ Hi) as Hlt.
  assert (apart (<[i := d']> ds)) as Ha'.
  { eapply apart_insert; [done|done|]. intros k. rewrite Hd, lookup_insert_is_Some'. intros [<-|]; [by right|by left]. }
  split; [done|]. apply map_eq. intros k. apply option_eq. intros y. destruct (decide (k = n)) as [->|Hne].
  - rewrite lookup_insert_eq. split; [|intros [= <-]; eapply (holds_at _ i d'); [done|by apply list_lookup_insert_eq|by rewrite Hd, lookup_insert_eq]].
    intros (j & z & Hj & Hz)%holds_in. apply list_lookup_insert_Some in Hj as [(<- & <- & _)|[_ Hj]]; [by rewrite Hd, lookup_insert_eq in Hz|].
    by rewrite (proj1 (holds_None _ _) Hn _ _ Hj) in Hz.
  - rewrite lookup_insert_ne by done. split.
    + intros (j & z & Hj & Hz)%holds_in. apply list_lookup_insert_Some in Hj as [(<- & <- & _)|[_ Hj]]; [|by eapply holds_at].
      rewrite Hd, lookup_insert_ne in Hz by done. by eapply holds_at.
    + intros (j & z & Hj & Hz)%holds_in. destruct (decide (j = i)) as [->|Hji].
      * eapply (holds_at _ i d'); [done|by apply list_lookup_insert_eq|]. rewrite Hd, lookup_insert_ne by done. congruence.
      * eapply (holds_at _ j z); [done|by rewrite list_lookup_insert_ne|done].
Qed.

Lemma apart_tail d ds : apart (d :: ds) -> apart ds /\ forall n, is_Some (blobs d !! n) -> holds ds !! n = None.
Proof.
  intros Ha. split.
  - intros i j x y n Hi Hj Hne. apply (Ha (S i) (S j)); [done|done|congruence].
  - intros n Hn. apply holds_None. intros i x Hi. by apply (Ha 0%nat (S i) d x).
Qed.

(** Volumes some of which have lost one object. *)
Lemma holds_trimmed ds ds' n : Forall2 (fun d d' => blobs d' = blobs d \/ blobs d' = delete n (blobs d)) ds ds' -> apart ds ->
  holds ds' = holds ds \/ holds ds' = delete n (holds ds).
Proof.
  induction 1 as [|d d' ds ds' Hd _ IH]; [by left|]. intros [Ha Hx]%apart_tail. destruct (IH Ha) as [E|E], Hd as [Ed|Ed]; unfold holds in *; cbn in *; rewrite E, Ed; [by left|..].
  - destruct (blobs d !! n) eqn:En; [right|left; by rewrite delete_id]. rewrite delete_union. f_equal. symmetry. apply delete_id. by apply Hx.
  - destruct (blobs d !! n) eqn:En; [left; f_equal; apply delete_id; by apply Hx|right]. rewrite delete_union. f_equal. symmetry. by apply delete_id.
  - right. by rewrite delete_union.
Qed.

Lemma apart_trimmed ds ds' n : Forall2 (fun d d' => blobs d' = blobs d \/ blobs d' = delete n (blobs d)) ds ds' -> apart ds -> apart ds'.
Proof.
  intros Ht Ha i j d d' k Hi Hj Hne Hs. destruct (Forall2_lookup_r _ _ _ _ _ Ht Hi) as (x & Hx & Ex), (Forall2_lookup_r _ _ _ _ _ Ht Hj) as (y & Hy & Ey).
  assert (is_Some (blobs x !! k)) as Hs' by (destruct Ex as [E|E]; rewrite E in Hs; [done|by apply lookup_delete_is_Some in Hs as [_ Hs]]).
  pose proof (Ha i j x y k Hx Hy Hne Hs'). destruct Ey as [-> | ->]; [done|]. destruct (decide (n = k)) as [->|]; [apply lookup_delete_eq|by rewrite lookup_delete_ne].
Qed.

Lemma rootOn_insert ds i d d' : ds !! i = Some d -> broot d' = broot d -> rootOn (<[i := d']> ds) = rootOn ds.
Proof. destruct ds, i; cbn; [done|done|by intros [= ->]|done]. Qed.
End Volumes.

(** ** The calls on the volumes *)

Section Laws.
Context `{HH : Hasher} `{FF : Float64} {L : Type} `{BO : BlobStore L} {OO : BlobStoreOk L} {OV : Volume L}.
Abbreviation St := (Store L).

Definition disks (s : St) : list L := disk <$> vols s.

Lemma disks_lose s i v : vols s !! i = Some v -> disks (withVols (<[i := lose v]> (vols s)) s) = disks s.
Proof.
  intros Hi. unfold disks. cbn. rewrite list_fmap_insert. cbn. apply list_insert_id. by rewrite list_lookup_fmap, Hi.
Qed.

Lemma onVol_disks {A} i (m : M L A) s r s' : onVol i m s = (r, s') ->
  (exists d d', disks s !! i = Some d /\ m d = (r, d') /\ disks s' = <[i := d']> (disks s)) \/ (r = Err GoPanic /\ s' = s).
Proof.
  unfold onVol. destruct (vols s !! i) as [v|] eqn:Ei; [|intros [= <- <-]; by right]. destruct (isOpen v); [|intros [= <- <-]; by right].
  destruct (m (disk v)) as [r0 d] eqn:Em. intros [= <- <-]. left. exists (disk v), d. unfold disks. cbn. rewrite list_lookup_fmap, Ei, list_fmap_insert. by cbn.
Qed.

Lemma verifyLocked_disks i s r s' : verifyLocked i s = (r, s') -> disks s' = disks s /\ (forall e, r = Err e -> e = MultivolMissing \/ e = GoPanic).
Proof.
  unfold verifyLocked. destruct (vols s !! i) as [v|] eqn:Ei; [|intros [= <- <-]; split; [done|]; intros e [= <-]; by right].
  destruct (negb (isOpen v)); [intros [= <- <-]; split; [done|]; intros e [= <-]; by left|].
  destruct (match _ with Ok _ => _ | Err _ => _ end); intros [= <- <-]; [done|]. split; [|intros e [= <-]; by left]. by apply disks_lose.
Qed.

Lemma verifyEach_disks js first s first' s' : verifyEach js first s = (first', s') -> (forall e, first = Some e -> e = MultivolMissing \/ e = GoPanic) ->
  disks s' = disks s /\ (forall e, first' = Some e -> e = MultivolMissing \/ e = GoPanic).
Proof.
  revert first s. induction js as [|i js IH]; intros first s; cbn [verifyEach]; [by intros [= <- <-]|].
  destruct (verifyLocked i s) as [[u|e] s1] eqn:E; apply verifyLocked_disks in E as [<- He]; intros Hx Hf; (apply IH in Hx; [exact Hx|]); [done|].
  intros e' [= <-]. destruct first as [e0|]; cbn; [by apply Hf|by apply He].
Qed.

Lemma snapshot_disks s r s' : snapshot s = (r, s') -> disks s' = disks s /\ (forall e, r = Err e -> e = MultivolMissing \/ e = GoPanic).
Proof.
  unfold snapshot, verifyAllLocked. destruct (verifyEach _ None s) as [[e|] s1] eqn:E; apply verifyEach_disks in E as [Hd He]; try done.
  - intros [= <- <-]. split; [done|]. intros e' [= <-]. by apply He.
  - destruct (readOnly s1); intros [= <- <-]; (split; [done|]); [intros e [= <-]; by left|done].
Qed.

Lemma rank_elem ids name i : i ∈ rank ids name <-> (i < length ids)%nat.
Proof. unfold rank. rewrite (merge_sort_Permutation _ _), elem_of_seq. lia. Qed.

Lemma ranked_elem name s i : i ∈ ranked name s <-> (i < length (disks s))%nat.
Proof. unfold ranked, VolumeIDs, disks. rewrite rank_elem, length_map, length_fmap. done. Qed.

(** A state after calls that change no object and no root. *)
Definition unmoved (s s' : St) : Prop := Forall2 (fun d d' => blobs d' = blobs d /\ broot d' = broot d) (disks s) (disks s').

Lemma unmoved_disks s s' : disks s' = disks s -> unmoved s s'.
Proof. unfold unmoved. intros ->. apply Forall2_same_length_lookup_2; [done|]. intros i x y Hx Hy. by simplify_eq. Qed.

Lemma unmoved_trans s1 s2 s3 : unmoved s1 s2 -> unmoved s2 s3 -> unmoved s1 s3.
Proof. unfold unmoved. generalize (disks s1), (disks s2), (disks s3). intros l1 l2 l3 H. revert l3. induction H as [|? ? ? ? [E1 E2]]; intros l3; inversion 1 as [|? ? ? ? [E3 E4]]; subst; constructor; [|by auto]. by rewrite E3, E4. Qed.

Lemma unmoved_at s s' i d' : unmoved s s' -> disks s' !! i = Some d' -> exists d, disks s !! i = Some d /\ blobs d' = blobs d.
Proof. intros Hu Hi. eapply Forall2_lookup_r in Hu as (d & Hd & H1 & _); [|exact Hi]. by exists d. Qed.

Lemma unmoved_holds s s' : unmoved s s' -> holds (disks s') = holds (disks s) /\ rootOn (disks s') = rootOn (disks s) /\ length (disks s') = length (disks s).
Proof.
  intros Hu. split_and!; [|by destruct Hu as [|d d' l l' [_ Hr]]|symmetry; by eapply Forall2_length]. induction Hu as [|d d' l l' [Hd _] _ IH]; [done|]. unfold holds in *. cbn. by rewrite Hd, IH.
Qed.

Lemma unmoved_apart s s' : unmoved s s' -> apart (disks s) -> apart (disks s').
Proof.
  intros Hu Ha i j d d' n Hi Hj Hne Hs. destruct (unmoved_at _ _ _ _ Hu Hi) as (x & Hx & Ex), (unmoved_at _ _ _ _ Hu Hj) as (y & Hy & Ey).
  rewrite Ey. rewrite Ex in Hs. by eapply (Ha i j).
Qed.

Lemma onVol_unmoved {A} i (m : M L A) s r s' : onVol i m s = (r, s') ->
  (forall d d', m d = (r, d') -> blobs d' = blobs d /\ broot d' = broot d) -> unmoved s s'.
Proof.
  intros E Hm. apply onVol_disks in E as [(d & d' & Hi & Ed & Hs)|[_ ->]]; [|by apply unmoved_disks]. apply Hm in Ed as [Hb Hr].
  unfold unmoved. rewrite Hs. apply Forall2_same_length_lookup_2; [by rewrite length_insert|]. intros k x y Hx Hy.
  apply list_lookup_insert_Some in Hy as [(<- & <- & _)|[_ Hy]]; [by replace x with d by congruence|by replace y with x by congruence].
Qed.

(** *** Writing *)

Lemma stat_unmoved name i s r s' : onVol i (bStat name) s = (r, s') -> unmoved s s'.
Proof. intros E. eapply onVol_unmoved; [exact E|]. intros d d' Ed%stat_law. by destruct Ed as (? & ? & _). Qed.

Lemma absent_ok name js s r s' : apart (disks s) -> absent name js s = (r, s') ->
  unmoved s s' /\ match r with
                  | Ok _ => forall i d, i ∈ js -> disks s' !! i = Some d -> blobs d !! name = None
                  | Err e => e = BlobExists -> is_Some (holds (disks s) !! name)
                  end.
Proof.
  revert s. induction js as [|i js IH]; intros s Ha; cbn [absent]; [intros [= <- <-]; split; [by apply unmoved_disks|]; by intros i d ?%not_elem_of_nil|].
  destruct (onVol i (bStat name) s) as [r0 s1] eqn:E. pose proof (stat_unmoved _ _ _ _ _ E) as Hu.
  apply onVol_disks in E as [(d & d' & Hi & Ed & Hs)|[-> ->]]; [|cbn; intros [= <- <-]; by split].
  destruct r0 as [inf|e].
  - intros [= <- <-]. split; [done|]. intros _. apply stat_law in Ed as (_ & _ & b & t & Hb & _). rewrite (holds_at _ i d name (b, t)); by eauto.
  - case_bool_decide as Hx.
    + apply stat_law in Ed as (Hb & _ & He). specialize (He Hx). intros Hr. apply IH in Hr as [Hu' Hr]; [|by eapply unmoved_apart]. split; [by eapply unmoved_trans|].
      destruct r as [u|e'].
      * intros j x [-> |Hj]%elem_of_cons Hx'; [|by eapply Hr]. destruct (unmoved_at _ _ _ _ (unmoved_trans _ _ _ Hu Hu') Hx') as (y & Hy & ->). congruence.
      * intros He'. destruct (unmoved_holds _ _ Hu) as [<- _]. by apply Hr.
    + intros [= <- <-]. split; [done|]. intros ->. by eapply stat_err in Ed.
Qed.

(** What the laws of the port say of a put on the volumes together. *)
Definition put_spec (name : bytes) (src : source) (size : Z) (s : St) (r : res unit) (s' : St) : Prop :=
  apart (disks s') /\ rootOn (disks s') = rootOn (disks s) /\
  match r with
  | Ok _ => exists b t, CheckPut name size = Ok tt /\ CopyExact src size = Ok b /\ holds (disks s) !! name = None /\ holds (disks s') = <[name := (b, t)]> (holds (disks s))
  | Err e => (e = BlobExists -> CopyExact src size <> Err BlobExists -> is_Some (holds (disks s) !! name)) /\
      (holds (disks s') = holds (disks s) \/ exists b t, e <> BlobExists /\ CopyExact src size = Ok b /\ holds (disks s) !! name = None /\ holds (disks s') = <[name := (b, t)]> (holds (disks s)))
  end.

Lemma put_refused name src size s e s' : apart (disks s) -> unmoved s s' -> e <> BlobExists -> put_spec name src size s (Err e) s'.
Proof. intros Ha Hu He. destruct (unmoved_holds _ _ Hu) as (H1 & H2 & _). split_and!; [by eapply unmoved_apart|done|done|by left]. Qed.

Lemma placed_ok now name src size js s r s' : apart (disks s) -> holds (disks s) !! name = None ->
  placed now name src size js s = (r, s') -> put_spec name src size s r s'.
Proof.
  intros Ha Hn. induction js as [|i js IH]; cbn [placed]; [intros [= <- <-]; apply put_refused; [done|by apply unmoved_disks|done]|].
  destruct (hasRoom i s); [|done]. intros E. apply onVol_disks in E as [(d & d' & Hi & Ed & Hs)|[-> ->]]; [|by apply put_refused; [|apply unmoved_disks|]].
  apply put_law in Ed as [Hr Hp]. pose proof (proj1 (holds_None _ _) Hn _ _ Hi) as Hd. unfold put_spec. rewrite Hs, (rootOn_insert _ _ _ _ Hi Hr).
  assert (forall b t, blobs d' = <[name := (b, t)]> (blobs d) -> apart (<[i := d']> (disks s)) /\ holds (<[i := d']> (disks s)) = <[name := (b, t)]> (holds (disks s))) as Hput by (intros; by eapply holds_put).
  destruct r as [u|e].
  - destruct Hp as (b & t & H1 & H2 & H3 & H4). destruct (Hput _ _ H4). split_and!; [done|done|]. by exists b, t.
  - destruct Hp as [He [Hb|(b & t & H1 & H2 & H3 & H4)]].
    + destruct (holds_same _ _ _ _ Ha Hi Hb) as [H1 H2]. split_and!; [done|done| |by left]. intros Hx Hc. rewrite Hd in He. by destruct (He Hx Hc).
    + destruct (Hput _ _ H4). split_and!; [done|done|done|]. right. by exists b, t.
Qed.

Lemma vols_Put_ok now name src size s r s' : apart (disks s) -> Put now name src size s = (r, s') -> put_spec name src size s r s'.
Proof.
  intros Ha. unfold Put. rewrite bind_liftR. destruct (CheckPut name size) as [u|e] eqn:Ec.
  2: { intros [= <- <-]. apply put_refused; [done|by apply unmoved_disks|]. intros ->. by apply CheckPut_err in Ec as [?|[?|?]]. }
  unfold mbind, M_bind. destruct (snapshot s) as [[u1|e] s1] eqn:Es; apply snapshot_disks in Es as [Hd He].
  2: { intros [= <- <-]. apply put_refused; [done|by apply unmoved_disks|]. intros ->. by destruct (He _ eq_refl). }
  unfold act. rewrite <-Hd in Ha. destruct (absent name (ranked name s1) s1) as [[u2|e] s2] eqn:E; apply absent_ok in E as [Hu Hn]; try done;
    destruct (unmoved_holds _ _ Hu) as (Hh & Hr & Hl); rewrite Hd in Hh, Hr.
  - intros Hp. apply placed_ok in Hp; [|by eapply unmoved_apart|apply holds_None; intros i d Hi; eapply Hn; [apply ranked_elem; rewrite <-Hl; by eapply lookup_lt_Some|done]].
    unfold put_spec in *. by rewrite Hh, Hr in Hp.
  - intros [= <- <-]. unfold put_spec. rewrite Hh, Hr, <-Hd. split_and!; [by eapply unmoved_apart|done| |by left]. intros Hx _. by apply Hn.
Qed.

(** *** Deleting *)

Definition trimmed (name : bytes) (s s' : St) : Prop :=
  Forall2 (fun d d' => (blobs d' = blobs d \/ blobs d' = delete name (blobs d)) /\ broot d' = broot d) (disks s) (disks s').

Lemma unmoved_trimmed name s s' : unmoved s s' -> trimmed name s s'.
Proof. intros Hu. eapply Forall2_impl; [exact Hu|]. intros d d' [-> ->]. by split; [left|]. Qed.

Lemma trimmed_trans name s1 s2 s3 : trimmed name s1 s2 -> trimmed name s2 s3 -> trimmed name s1 s3.
Proof.
  unfold trimmed. generalize (disks s1), (disks s2), (disks s3). intros l1 l2 l3 H. revert l3. induction H as [|? ? ? ? [E1 E2]]; intros l3; inversion 1 as [|? ? ? ? [E3 E4]]; subst; constructor; [|by auto].
  rewrite E4, E2. split; [|done]. destruct E1 as [E1|E1], E3 as [E3|E3]; rewrite E3, E1; [by left|by right..|right; by rewrite delete_delete_eq].
Qed.

Lemma onVol_trimmed name i s r s' : onVol i (bDelete name) s = (r, s') -> trimmed name s s' /\
  (is_ok r = true -> forall d', disks s' !! i = Some d' -> blobs d' !! name = None).
Proof.
  intros [(d & d' & Hi & Ed & Hs)|[-> ->]]%onVol_disks; [|split; [by apply unmoved_trimmed, unmoved_disks|done]].
  apply delete_law in Ed as [Hr Hb]. unfold trimmed. rewrite Hs. split.
  - apply Forall2_same_length_lookup_2; [by rewrite length_insert|]. intros k x y Hx Hy.
    apply list_lookup_insert_Some in Hy as [(<- & <- & _)|[_ Hy]]; [replace x with d by congruence|replace y with x by congruence; by split; [left|]].
    split; [|done]. destruct r; [by right|done].
  - intros Hok y Hy. destruct r as [u|]; [|done]. apply list_lookup_insert_Some in Hy as [(_ & <- & _)|[? _]]; [|done]. rewrite Hb. apply lookup_delete_eq.
Qed.

Lemma trimmed_gone name s s' i d' : trimmed name s s' -> disks s' !! i = Some d' -> (forall d, disks s !! i = Some d -> blobs d !! name = None) -> blobs d' !! name = None.
Proof.
  intros Ht Hi Hn. eapply Forall2_lookup_r in Ht as (d & Hd & [E|E] & _); [| |exact Hi]; rewrite E; [by apply Hn|by apply lookup_delete_eq].
Qed.

Lemma deleteEach_ok name js s r s' : deleteEach name js s = (r, s') -> trimmed name s s' /\
  (is_ok r = true -> forall i d', i ∈ js -> disks s' !! i = Some d' -> blobs d' !! name = None).
Proof.
  revert s. induction js as [|i js IH]; intros s; cbn [deleteEach].
  - intros [= <- <-]. split; [by apply unmoved_trimmed, unmoved_disks|]. by intros _ i d' ?%not_elem_of_nil.
  - unfold mbind, M_bind. destruct (onVol i (bDelete name) s) as [[u|e] s1] eqn:E; apply onVol_trimmed in E as [Ht Hg].
    + intros [Ht' Hg']%IH. split; [by eapply trimmed_trans|]. intros Hok j d' [-> |Hj]%elem_of_cons Hd'; [|by eapply Hg']. eapply trimmed_gone; [exact Ht'|exact Hd'|by apply Hg].
    + by intros [= <- <-].
Qed.

Lemma vols_Delete_ok name s r s' : apart (disks s) -> Delete name s = (r, s') ->
  apart (disks s') /\ rootOn (disks s') = rootOn (disks s) /\
  match r with Ok _ => holds (disks s') = delete name (holds (disks s)) | Err _ => holds (disks s') = holds (disks s) \/ holds (disks s') = delete name (holds (disks s)) end.
Proof.
  intros Ha. unfold Delete. rewrite bind_liftR. destruct (ValidName name); [|intros [= <- <-]; split_and!; by try left].
  unfold mbind, M_bind. destruct (snapshot s) as [[u1|e] s1] eqn:Es; apply snapshot_disks in Es as [Hd _]; [|intros [= <- <-]; rewrite Hd; split_and!; by try left].
  unfold act. intros [Ht Hg]%deleteEach_ok. unfold trimmed in Ht. rewrite Hd in Ht.
  assert (Forall2 (fun d d' => blobs d' = blobs d \/ blobs d' = delete name (blobs d)) (disks s) (disks s')) as Ht' by (eapply Forall2_impl; [exact Ht|]; naive_solver).
  split_and!; [by eapply apart_trimmed|by destruct Ht as [|d d' l l' [_ Hr]]|]. pose proof (holds_trimmed _ _ _ Ht' Ha) as [E|E]; [|destruct r; [done|by right]].
  destruct r as [u|]; [|by left]. rewrite E. symmetry. apply delete_id. rewrite <-E. apply holds_None. intros i d Hi. eapply Hg; [done| |exact Hi].
  apply elem_of_seq. split; [lia|]. apply lookup_lt_Some in Hi. rewrite <-(Forall2_length _ _ _ Ht), <-Hd in Hi. unfold disks in Hi. rewrite length_fmap in Hi. lia.
Qed.

(** *** Reading *)

Lemma present_ok js s ps m s' : present js s = (ps, m, s') -> disks s' = disks s /\ (forall i, i ∈ ps -> i ∈ js) /\ (m = false -> ps = js).
Proof.
  revert s ps m s'. induction js as [|i js IH]; intros s ps m s'; cbn [present]; [by intros [= <- <- <-]|].
  destruct (verifyLocked i s) as [[u|e] s1] eqn:E; apply verifyLocked_disks in E as [<- _]; destruct (present js s1) as [[ps1 m1] s2] eqn:Ep; apply IH in Ep as (Hd & Hin & Hm); intros [= <- <- <-];
    (split; [done|]); split; [| | |done].
  - intros j [-> |Hj]%elem_of_cons; [by left|right; by apply Hin].
  - intros ->. by rewrite Hm.
  - intros j Hj. right. by apply Hin.
Qed.

(** A read [f] of one volume that answers as [P] says of what the volume holds. *)
Lemma tryEach_ok {A} (f : M L A) (P : gmap bytes (bytes * Z) -> res A -> Prop) :
  (forall d r d', f d = (r, d') -> blobs d' = blobs d /\ broot d' = broot d /\ P (blobs d) r) ->
  forall ps m s r s', tryEach ps m f s = (r, s') ->
  unmoved s s' /\ (forall a, r = Ok a -> exists i d, disks s !! i = Some d /\ P (blobs d) (Ok a)) /\
  (r = Err BlobNotFound -> m = false /\ forall i d, i ∈ ps -> disks s !! i = Some d -> P (blobs d) (Err BlobNotFound)).
Proof.
  intros Hf. induction ps as [|i ps IH]; intros m s r s'; cbn [tryEach].
  - intros [= <- <-]. split_and!; [by apply unmoved_disks|done|]. destruct m; [done|]. intros _. split; [done|]. by intros i d ?%not_elem_of_nil.
  - destruct (onVol i f s) as [r0 s1] eqn:E. assert (unmoved s s1) as Hu by (eapply onVol_unmoved; [exact E|]; intros d d' Ed; by destruct (Hf _ _ _ Ed) as (? & ? & _)).
    apply onVol_disks in E as [(d & d' & Hi & Ed & _)|[-> ->]]; [|cbn; by intros [= <- <-]]. apply Hf in Ed as (_ & _ & HP).
    destruct r0 as [a|e]; [intros [= <- <-]; split_and!; [done| |done]; intros a' [= <-]; by exists i, d|].
    case_bool_decide as He; [|by intros [= <- <-]; split_and!; [| |intros [= ->]]]. subst e. intros (Hu' & H1 & H2)%IH. split_and!; [by eapply unmoved_trans| |].
    + intros a Ha. destruct (H1 a Ha) as (j & x & Hj & Hx). destruct (unmoved_at _ _ _ _ Hu Hj) as (y & Hy & E). exists j, y. by rewrite <-E.
    + intros Hr. destruct (H2 Hr) as [Hm Hall]. split; [done|]. intros j x [-> |Hj]%elem_of_cons Hx; [by replace x with d by congruence|].
      assert (exists y, disks s1 !! j = Some y /\ blobs y = blobs x) as (y & Hy & <-); [|by eapply Hall].
      eapply Forall2_lookup_l in Hu as (y & Hy & E & _); [by exists y|exact Hx].
Qed.

Lemma find_ok {A} (f : M L A) (P : gmap bytes (bytes * Z) -> res A -> Prop) name s r s' :
  (forall d r d', f d = (r, d') -> blobs d' = blobs d /\ broot d' = broot d /\ P (blobs d) r) -> find name f s = (r, s') ->
  unmoved s s' /\ (forall a, r = Ok a -> exists i d, disks s !! i = Some d /\ P (blobs d) (Ok a)) /\
  (r = Err BlobNotFound -> forall i d, disks s !! i = Some d -> P (blobs d) (Err BlobNotFound)).
Proof.
  intros Hf. unfold find. rewrite bind_liftR. destruct (ValidName name) as [u|e] eqn:Ev.
  2: { apply ValidName_err in Ev as ->. intros [= <- <-]. split_and!; [by apply unmoved_disks|done|done]. }
  unfold act. destruct (present (ranked name s) s) as [[ps m] s1] eqn:Ep. apply present_ok in Ep as (Hd & Hin & Hm). intros (Hu & H1 & H2)%(tryEach_ok f P Hf).
  unfold unmoved in *. rewrite Hd in *. split_and!; [done|done|]. intros Hr i d Hi. destruct (H2 Hr) as [Hmf Hall]. eapply Hall; [|exact Hi]. rewrite (Hm Hmf). apply ranked_elem. by eapply lookup_lt_Some.
Qed.

(** *** Listing *)

Lemma unseen_elem infos seen i : i ∈ unseen infos seen -> i ∈ infos /\ Name i ∉ seen.
Proof.
  revert seen. induction infos as [|x infos IH]; intros seen; cbn [unseen]; [by intros ?%not_elem_of_nil|]. case_bool_decide as Hx.
  - intros [H1 H2]%IH. split; [by right|done].
  - intros [-> |[H1 H2]%IH]%elem_of_cons; [by split; [left|]|]. split; [by right|]. intros Hs. apply H2. by right.
Qed.

Lemma unseen_covers infos seen n : n ∈ map Name infos -> n ∈ seen \/ n ∈ map Name (unseen infos seen).
Proof.
  revert seen. induction infos as [|x infos IH]; intros seen; cbn [unseen map]; [by intros ?%not_elem_of_nil|]. intros [-> |Hn]%elem_of_cons; case_bool_decide as Hx.
  - by left.
  - right. by left.
  - by apply IH.
  - destruct (IH (Name x :: seen) Hn) as [[-> |?]%elem_of_cons|?]; [right; by left|by left|right; by right].
Qed.

Lemma unseen_nodup infos seen : NoDup seen -> NoDup (seen ++ map Name (unseen infos seen)).
Proof.
  revert seen. induction infos as [|x infos IH]; intros seen Hs; cbn [unseen map]; [by rewrite app_nil_r|]. case_bool_decide as Hx; [by apply IH|]. cbn [map].
  rewrite <-Permutation_middle. apply (IH (Name x :: seen)). by constructor.
Qed.

(** What a volume's page says of what the volume holds. *)
Definition pageOf (prefix after : bytes) (limit : Z) (m : gmap bytes (bytes * Z)) (infos : list Info) : Prop :=
  StronglySorted blt (Name <$> infos) /\ zlen infos <= limit /\
  (forall i, i ∈ infos -> exists b t, m !! Name i = Some (b, t) /\ i = mkInfo (Name i) (zlen b) t /\ HasPrefix (Name i) prefix = true /\ blt after (Name i)) /\
  (forall name, is_Some (m !! name) -> HasPrefix name prefix = true -> blt after name ->
    name ∈ (Name <$> infos) \/ (zlen infos = limit /\ forall i, i ∈ infos -> blt (Name i) name)).

Lemma list_page prefix after limit d infos d' : bList prefix after limit d = (Ok infos, d') -> pageOf prefix after limit (blobs d) infos.
Proof.
  intros (_ & _ & Hl)%list_law. destruct (Hl infos eq_refl) as (H1 & H2 & H3 & H4). split_and!; [|done| |].
  - revert H1. generalize (Name <$> infos). induction 1 as [|x l Hl' IH Hx]; constructor; [done|]. eapply Forall_impl; [exact Hx|]. intros y. apply vol_lt.
  - intros i Hi. destruct (H3 i Hi) as (b & t & ? & ? & ? & ?). exists b, t. split_and!; try done. by apply vol_lt.
  - intros n Hn Hp Ha. destruct (H4 n Hn Hp) as [?|[? Hlt]]; [by apply vol_lt|by left|right]. split; [done|]. intros i Hi. by apply vol_lt, Hlt.
Qed.

(** The pages gathered: from the volumes' pages, each name once, none left out. *)
Lemma pages_ok prefix after limit js : forall s all r s', pages prefix after limit js all s = (r, s') ->
  unmoved s s' /\ forall out, r = Ok out ->
    (NoDup (map Name all) -> NoDup (map Name out)) /\ (forall n, n ∈ map Name all -> n ∈ map Name out) /\
    (forall i, i ∈ out -> i ∈ all \/ exists j d infos, disks s !! j = Some d /\ pageOf prefix after limit (blobs d) infos /\ i ∈ infos) /\
    (forall j d, j ∈ js -> disks s !! j = Some d -> exists infos, pageOf prefix after limit (blobs d) infos /\ forall n, n ∈ map Name infos -> n ∈ map Name out).
Proof.
  induction js as [|j js IH]; intros s all r s'; cbn [pages].
  - intros [= <- <-]. split; [by apply unmoved_disks|]. intros out [= <-]. split_and!; [done|done|by left|by intros j d ?%not_elem_of_nil].
  - unfold mbind, M_bind. destruct (onVol j (bList prefix after limit) s) as [r0 s1] eqn:E.
    assert (unmoved s s1) as Hu by (eapply onVol_unmoved; [exact E|]; intros d d' Ed%list_law; by destruct Ed as (? & ? & _)).
    apply onVol_disks in E as [(d & d' & Hj & Ed & _)|[-> ->]]; [|by intros [= <- <-]]. destruct r0 as [infos|e]; [|by intros [= <- <-]].
    apply list_page in Ed. intros [Hu' Hout]%IH. split; [by eapply unmoved_trans|]. intros out Hr. destruct (Hout out Hr) as (Hnd & Hall & Hfrom & Hcov).
    rewrite map_app in Hnd, Hall. split_and!.
    + intros Hd. by apply Hnd, unseen_nodup.
    + intros n Hn. apply Hall, elem_of_app. by left.
    + intros i Hi. destruct (Hfrom i Hi) as [[?|[? _]%unseen_elem]%elem_of_app|(k & x & inf & Hk & Hp & Hin)]; [by left|right; by exists j, d, infos|].
      destruct (unmoved_at _ _ _ _ Hu Hk) as (y & Hy & E). right. exists k, y, inf. by rewrite <-E.
    + intros k x [-> |Hk]%elem_of_cons Hx.
      * exists infos. replace x with d by congruence. split; [done|]. intros n Hn. apply Hall, elem_of_app. by apply unseen_covers.
      * eapply Forall2_lookup_l in Hu as (y & Hy & E & _); [|exact Hx]. rewrite <-E. by eapply Hcov.
Qed.

(** The first names of a sorted list are below any name above enough of them. *)
Lemma first_below (l : list bytes) (k : nat) ps n : StronglySorted blt l -> NoDup ps -> length ps = k -> (forall p, p ∈ ps -> p ∈ l /\ blt p n) ->
  length (take k l) = k /\ forall x, x ∈ take k l -> blt x n.
Proof.
  intros Hs Hnd Hlen Hp. assert (NoDup l) as Hl.
  { clear -Hs. induction Hs as [|x l _ IH Hx]; constructor; [|done]. intros Hin. rewrite Forall_forall in Hx. by apply (blt_irrefl x), Hx. }
  assert (k <= length l)%nat as Hk by (rewrite <-Hlen; apply submseteq_length, NoDup_submseteq; [done|]; intros p Hin; by apply Hp). rewrite length_take. split; [lia|].
  intros x Hx. destruct (blt_trichotomy x n) as [?|Hge]; [done|exfalso]. rewrite <-(take_drop k l) in Hs. apply StronglySorted_app in Hs as (Hc & _ & _).
  assert (forall p, p ∈ ps -> p ∈ take k l /\ p <> x) as Hin.
  { intros p Hpp. destruct (Hp p Hpp) as [Hpl Hpn]. assert (blt p x) as Hpx by (destruct Hge as [-> |Hge]; [done|by eapply blt_trans]).
    split; [|by intros ->; apply (blt_irrefl x)]. rewrite <-(take_drop k l) in Hpl. apply elem_of_app in Hpl as [?|Hd]; [done|].
    specialize (Hc x p Hx Hd). exfalso. by apply (blt_irrefl x); eapply blt_trans. }
  assert (length (x :: ps) <= length (take k l))%nat as Hle.
  { apply submseteq_length, NoDup_submseteq; [constructor; [|done]; intros H; by apply Hin in H as [_ ?]|]. intros p [-> |Hpp]%elem_of_cons; [done|by apply Hin]. }
  rewrite length_take in Hle. cbn in Hle. lia.
Qed.

Lemma elem_Name infos n : n ∈ map Name infos <-> n ∈ (Name <$> infos).
Proof. done. Qed.

Lemma List_ok prefix after limit s r s' : apart (disks s) -> List prefix after limit s = (r, s') ->
  unmoved s s' /\ forall infos, r = Ok infos -> pageOf prefix after limit (holds (disks s)) infos.
Proof.
  intros Ha. unfold List. rewrite bind_liftR. destruct (CheckList prefix limit) as [u|e] eqn:Ec; [|intros [= <- <-]; split; [by apply unmoved_disks|done]].
  unfold mbind, M_bind. destruct (snapshot s) as [[u1|e] s1] eqn:Es; apply snapshot_disks in Es as [Hd _]; [|intros [= <- <-]; split; [by apply unmoved_disks|done]].
  unfold act. destruct (pages prefix after limit _ [] s1) as [[all|e] s2] eqn:Ep; apply pages_ok in Ep as [Hu Hout]; intros [= <- <-]; unfold unmoved in *; rewrite Hd in *; (split; [done|]); [|done].
  intros infos [= <-]. destruct (Hout all eq_refl) as (Hnd & _ & Hfrom & Hcov). clear Hout. specialize (Hnd ltac:(constructor)).
  pose proof (MemOk.sorted_names all Hnd) as Hs. set (l := merge_sort Mem.name_le all) in *. assert (l ≡ₚ all) as Hl by apply merge_sort_Permutation.
  assert (0 <= limit) as Hlim. { unfold CheckList in Ec. destruct (ValidPrefix prefix); [|done]. cbn [mbind res_bind] in Ec. destruct (_ || _) eqn:E; [done|]. apply orb_false_iff in E as [E _]. apply Z.ltb_ge in E. lia. }
  assert (StronglySorted blt (take (Z.to_nat limit) (Name <$> l) ++ drop (Z.to_nat limit) (Name <$> l))) as Hs2 by by rewrite take_drop.
  apply StronglySorted_app in Hs2 as (Hc & Hs2 & _). unfold pageOf. rewrite fmap_take. split_and!; [done| | |].
  - enough (length (take (Z.to_nat limit) l) <= Z.to_nat limit)%nat by lia. rewrite length_take. lia.
  - intros i Hi. assert (i ∈ all) as Hi' by (rewrite <-Hl; by eapply subseteq_take). destruct (Hfrom i Hi') as [?%not_elem_of_nil|(j & d & inf & Hj & (_ & _ & Hp & _) & Hin)]; [done|].
    destruct (Hp i Hin) as (b & t & Hb & ? & ? & ?). exists b, t. split_and!; try done. by eapply holds_at.
  - intros n [x Hx] Hpre Haft. apply holds_in in Hx as (j & d & Hj & Hx). destruct (Hcov j d) as (inf & (Hps & _ & _ & Hp) & Hin); [|done|].
    { apply elem_of_seq. split; [lia|]. apply lookup_lt_Some in Hj. unfold disks in Hj. assert (length (vols s1) = length (vols s)) as -> by (rewrite <-(length_fmap disk (vols s1)); change (disk <$> vols s1) with (disks s1); rewrite Hd; apply length_fmap).
      rewrite length_fmap in Hj. lia. }
    destruct (Hp n) as [Hn|[Hfull Hlt]]; [by rewrite Hx|done|done| |].
    + apply elem_Name, Hin in Hn. assert (n ∈ (Name <$> l)) as Hnl by by rewrite Hl. rewrite <-(take_drop (Z.to_nat limit) (Name <$> l)) in Hnl. apply elem_of_app in Hnl as [?|Hdrop]; [by left|right]. split.
      * enough (length (take (Z.to_nat limit) l) = Z.to_nat limit) by lia. rewrite length_take. apply list_elem_of_lookup in Hdrop as [k Hk%lookup_lt_Some]. rewrite length_drop, length_fmap in Hk. lia.
      * intros i Hi. apply Hc; [|done]. rewrite <-fmap_take. by apply list_elem_of_fmap_2.
    + right. assert (NoDup (Name <$> inf)) as Hnd2 by (clear -Hps; induction Hps as [|y ys _ IH Hy]; constructor; [|done]; intros Hin; rewrite Forall_forall in Hy; by apply (blt_irrefl y), Hy).
      destruct (first_below (Name <$> l) (Z.to_nat limit) (Name <$> inf) n) as [H1 H2]; [done|done|rewrite length_fmap; lia| |].
      * intros p0 Hp0. split; [rewrite Hl; by apply Hin|]. apply list_elem_of_fmap in Hp0 as (i & -> & Hi). by apply Hlt.
      * rewrite length_take, length_fmap in H1. split; [enough (length (take (Z.to_nat limit) l) = Z.to_nat limit) by lia; rewrite length_take; lia|]. intros i Hi. apply H2. rewrite <-fmap_take. by apply list_elem_of_fmap_2.
Qed.

(** *** The root *)

Lemma Root_ok s r s' : Root s = (r, s') -> unmoved s s' /\ forall x, r = Ok x -> x = rootOn (disks s).
Proof.
  unfold Root, primaryStore, mbind, M_bind. destruct (verifyLocked 0 s) as [[u|e] s1] eqn:E; apply verifyLocked_disks in E as [Hd _]; [|intros [= <- <-]; split; [by apply unmoved_disks|done]].
  intros E. assert (unmoved s1 s') as Hu by (eapply onVol_unmoved; [exact E|]; intros d d' Ed%root_law; by destruct Ed as (? & ? & _)).
  unfold unmoved in *. rewrite Hd in *. split; [done|]. apply onVol_disks in E as [(d & d' & Hj & Ed & _)|[-> _]]; [|done]. apply root_law in Ed as (_ & _ & Hx). rewrite Hd in Hj.
  intros x Hr. rewrite (Hx x Hr). destruct (disks s); [done|]. by injection Hj as ->.
Qed.

Lemma SwapRoot_ok rand expected next s r s' : apart (disks s) -> SwapRoot rand expected next s = (r, s') ->
  apart (disks s') /\ holds (disks s') = holds (disks s) /\
  match r with
  | Ok v => RVersion (rootOn (disks s)) = expected /\ rootOn (disks s') = mkRoot next v
  | Err e => (e = BlobRootConflict -> RVersion (rootOn (disks s)) <> expected) /\
      (rootOn (disks s') = rootOn (disks s) \/ (e <> BlobRootConflict /\ RVersion (rootOn (disks s)) = expected /\ exists v, rootOn (disks s') = mkRoot next v))
  end.
Proof.
  intros Ha. unfold SwapRoot. rewrite bind_liftR. destruct (CheckRootValue next) as [u|e] eqn:Ec.
  2: { intros [= <- <-]. split_and!; [done|done| |by left]. intros ->. unfold CheckRootValue in Ec. destruct (_ =? _); [done|]. by destruct (_ <? _). }
  unfold mbind, M_bind. destruct (snapshot s) as [[u1|e] s1] eqn:Es; apply snapshot_disks in Es as [Hd He].
  2: { intros [= <- <-]. rewrite Hd. split_and!; [done|done| |by left]. intros ->. by destruct (He _ eq_refl). }
  rewrite <-Hd. intros [(d & d' & Hj & Ed & Hs)|[-> ->]]%onVol_disks; [|rewrite Hd; split_and!; [done|done|done|by left]].
  apply swap_law in Ed as [Hb Hr]. rewrite <-Hd in Ha. destruct (holds_same _ _ _ _ Ha Hj Hb) as [H1 H2]. rewrite Hs. split_and!; [done|done|].
  destruct (disks s1) as [|x ds]; [done|]. injection Hj as ->. exact Hr.
Qed.

(** ** The store keeps the contract of the port *)

(** A store no object of which is on two volumes. *)
Definition sound : Type := { s : St | apart (disks s) }.

Definition stays {A} (m : M St A) : Prop := forall s, apart (disks s) -> apart (disks (m s).2).

Definition within {A} (m : M St A) (H : stays m) : M sound A := fun s => ((m (proj1_sig s)).1, exist _ (m (proj1_sig s)).2 (H _ (proj2_sig s))).

Lemma unmoved_stays {A} (m : M St A) : (forall s, apart (disks s) -> unmoved s (m s).2) -> stays m.
Proof. intros Hm s Ha. eapply unmoved_apart; [by apply Hm|done]. Qed.

Lemma Put_stays now name src size : stays (Put now name src size).
Proof. intros s Ha. destruct (Put now name src size s) as [r s'] eqn:E. by apply vols_Put_ok in E as [? _]. Qed.
Lemma Delete_stays name : stays (Delete name).
Proof. intros s Ha. destruct (Delete name s) as [r s'] eqn:E. by apply vols_Delete_ok in E as [? _]. Qed.
Lemma SwapRoot_stays rand expected next : stays (SwapRoot rand expected next).
Proof. intros s Ha. destruct (SwapRoot rand expected next s) as [r s'] eqn:E. by apply SwapRoot_ok in E as [? _]. Qed.
Lemma Root_stays : stays Root.
Proof. apply unmoved_stays. intros s Ha. destruct (Root s) as [r s'] eqn:E. by apply Root_ok in E as [? _]. Qed.
Lemma List_stays prefix after limit : stays (List prefix after limit).
Proof. apply unmoved_stays. intros s Ha. destruct (List prefix after limit s) as [r s'] eqn:E. by apply List_ok in E as [? _]. Qed.

(** What [Get] and [Stat] say of what a volume holds. *)
Definition got (name : bytes) (off n : Z) (m : gmap bytes (bytes * Z)) (r : res bytes) : Prop :=
  match r with
  | Ok d => exists b t start len, m !! name = Some (b, t) /\ Range off n (zlen b) = Ok (start, len) /\ d = take (Z.to_nat len) (drop (Z.to_nat start) b)
  | Err e => e = BlobNotFound -> m !! name = None
  end.
Definition statted (name : bytes) (m : gmap bytes (bytes * Z)) (r : res Info) : Prop :=
  match r with
  | Ok i => exists b t, m !! name = Some (b, t) /\ i = mkInfo name (zlen b) t
  | Err e => e = BlobNotFound -> m !! name = None
  end.

Lemma vols_Get_ok name off n s r s' : apart (disks s) -> Get name off n s = (r, s') -> unmoved s s' /\ got name off n (holds (disks s)) r.
Proof.
  intros Ha E. apply (find_ok _ (got name off n)) in E as (Hu & H1 & H2); [|intros d x d' Ed; by apply get_law in Ed]. split; [done|]. destruct r as [d|e]; cbn.
  - destruct (H1 d eq_refl) as (i & x & Hi & b & t & start & len & Hb & ? & ?). exists b, t, start, len. split_and!; try done. by eapply holds_at.
  - intros ->. apply holds_None. intros i d Hi. by apply (H2 eq_refl i d Hi).
Qed.

Lemma Stat_ok name s r s' : apart (disks s) -> Stat name s = (r, s') -> unmoved s s' /\ statted name (holds (disks s)) r.
Proof.
  intros Ha E. apply (find_ok _ (statted name)) in E as (Hu & H1 & H2); [|intros d x d' Ed; by apply stat_law in Ed]. split; [done|]. destruct r as [d|e]; cbn.
  - destruct (H1 d eq_refl) as (i & x & Hi & b & t & Hb & ?). exists b, t. split; [|done]. by eapply holds_at.
  - intros ->. apply holds_None. intros i d Hi. by apply (H2 eq_refl i d Hi).
Qed.

Lemma Get_stays name off n : stays (Get name off n).
Proof. apply unmoved_stays. intros s Ha. destruct (Get name off n s) as [r s'] eqn:E. by apply vols_Get_ok in E as [? _]. Qed.
Lemma Stat_stays name : stays (Stat name).
Proof. apply unmoved_stays. intros s Ha. destruct (Stat name s) as [r s'] eqn:E. by apply Stat_ok in E as [? _]. Qed.

#[export] Instance sound_store : BlobStore sound := {|
  bPut now name src size := within (Put now name src size) (Put_stays now name src size);
  bGet name off n := within (Get name off n) (Get_stays name off n);
  bStat name := within (Stat name) (Stat_stays name);
  bList prefix after limit := within (List prefix after limit) (List_stays prefix after limit);
  bDelete name := within (Delete name) (Delete_stays name);
  bRoot := within Root Root_stays;
  bSwapRoot rand expected next := within (SwapRoot rand expected next) (SwapRoot_stays rand expected next);
|}.

Lemma within_inv {A} (m : M St A) H (s : sound) r s' : within m H s = (r, s') -> m (proj1_sig s) = (r, proj1_sig s').
Proof. unfold within. intros [= <- <-]. cbn. by destruct (m (proj1_sig s)). Qed.

#[export] Instance sound_ok : BlobStoreOk sound.
Proof.
  refine {| blobs s := holds (disks (proj1_sig s)); broot s := rootOn (disks (proj1_sig s)); name_lt := blt |}.
  - exact blt_trans.
  - exact blt_irrefl.
  - exact blt_trichotomy.
  - intros [|x a] Hne; [by destruct Hne|reflexivity].
  - intros now name src size s r s' E%within_inv. apply vols_Put_ok in E as (_ & ? & ?); [done|]. exact (proj2_sig s).
  - intros name off n s r s' E%within_inv. apply vols_Get_ok in E as [(? & ? & _)%unmoved_holds ?]; [done|]. exact (proj2_sig s).
  - intros name s r s' E%within_inv. apply Stat_ok in E as [(? & ? & _)%unmoved_holds ?]; [done|]. exact (proj2_sig s).
  - intros prefix after limit s r s' E%within_inv. apply List_ok in E as [(? & ? & _)%unmoved_holds ?]; [done|]. exact (proj2_sig s).
  - intros name s r s' E%within_inv. apply vols_Delete_ok in E as (_ & ? & ?); [done|]. exact (proj2_sig s).
  - intros s r s' E%within_inv. apply Root_ok in E as [(? & ? & _)%unmoved_holds ?]. done.
  - intros rand expected next s r s' E%within_inv. apply SwapRoot_ok in E as (_ & ? & ?); [done|]. exact (proj2_sig s).
Defined.

(** C16. Several volumes are one store. While no object is on two volumes, every
    call does to the objects of all volumes together, and to the root on the
    first, what the port says: a put adds the object if the name was on no
    volume and its bytes are the size declared, and a failed one changed nothing
    or added it whole; a read gives the range of the object's bytes, and says
    it is not there only if it is on no volume; a listing is one sorted page of
    all volumes, full or complete; a delete removes it; a swap takes only the
    version it expects. Every call leaves no object on two volumes. *)
Theorem several_volumes_are_one_store s : apart (disks s) ->
  (forall now name src size r s', Put now name src size s = (r, s') -> put_spec name src size s r s') /\
  (forall name off n r s', Get name off n s = (r, s') -> unmoved s s' /\ got name off n (holds (disks s)) r) /\
  (forall name r s', Stat name s = (r, s') -> unmoved s s' /\ statted name (holds (disks s)) r) /\
  (forall prefix after limit r s', List prefix after limit s = (r, s') ->
    unmoved s s' /\ forall infos, r = Ok infos -> pageOf prefix after limit (holds (disks s)) infos) /\
  (forall name r s', Delete name s = (r, s') -> apart (disks s') /\ rootOn (disks s') = rootOn (disks s) /\
    match r with Ok _ => holds (disks s') = delete name (holds (disks s)) | Err _ => holds (disks s') = holds (disks s) \/ holds (disks s') = delete name (holds (disks s)) end) /\
  (forall r s', Root s = (r, s') -> unmoved s s' /\ forall x, r = Ok x -> x = rootOn (disks s)) /\
  (forall rand expected next r s', SwapRoot rand expected next s = (r, s') -> apart (disks s') /\ holds (disks s') = holds (disks s) /\
    match r with
    | Ok v => RVersion (rootOn (disks s)) = expected /\ rootOn (disks s') = mkRoot next v
    | Err e => (e = BlobRootConflict -> RVersion (rootOn (disks s)) <> expected) /\
        (rootOn (disks s') = rootOn (disks s) \/ (e <> BlobRootConflict /\ RVersion (rootOn (disks s)) = expected /\ exists v, rootOn (disks s') = mkRoot next v))
    end).
Proof.
  intros Ha. split_and!; intros.
  - by eapply vols_Put_ok.
  - by eapply vols_Get_ok.
  - by eapply Stat_ok.
  - by eapply List_ok.
  - by eapply vols_Delete_ok.
  - by eapply Root_ok.
  - by eapply SwapRoot_ok.
Qed.

(** ** A volume that is missing *)

(** The volume is the one that was opened. *)
Definition there (m : machine) (v : volume L) : bool :=
  isOpen v && match Identity m (volDir (vpath v)) with Ok (d, n) => (d =? dev v) && (n =? ino v) | Err _ => false end.

Definition lostOne (s : St) : Prop := exists i v, vols s !! i = Some v /\ there (fs s) v = false.

Lemma verifyLocked_there i s v : vols s !! i = Some v -> exists s', verifyLocked i s = (if there (fs s) v then Ok tt else Err MultivolMissing, s') /\
  fs s' = fs s /\ length (vols s') = length (vols s) /\
  (there (fs s) v = true -> s' = s) /\ forall j w, vols s !! j = Some w -> exists w', vols s' !! j = Some w' /\ (there (fs s) w = false -> there (fs s) w' = false).
Proof.
  intros Hi. unfold verifyLocked, there. rewrite Hi. destruct (isOpen v) eqn:Eo; cbn [negb andb]; [|exists s; split_and!; eauto].
  destruct (match Identity (fs s) (volDir (vpath v)) with Ok _ => _ | Err _ => _ end) eqn:Es; [exists s; split_and!; eauto|].
  eexists. split; [done|]. cbn. split_and!; [done|apply length_insert|done|]. intros j w Hj. destruct (decide (j = i)) as [->|Hne].
  - rewrite list_lookup_insert_eq by by eapply lookup_lt_Some. by eexists.
  - rewrite list_lookup_insert_ne by done. by exists w.
Qed.

Lemma verifyEach_lost js : forall s first, (forall j, j ∈ js -> (j < length (vols s))%nat) -> (first = None \/ first = Some MultivolMissing) ->
  (first = Some MultivolMissing \/ exists i v, i ∈ js /\ vols s !! i = Some v /\ there (fs s) v = false) ->
  (verifyEach js first s).1 = Some MultivolMissing.
Proof.
  induction js as [|i js IH]; intros s first Hin Hf Hl; cbn [verifyEach].
  - destruct Hl as [-> |(i & v & ?%not_elem_of_nil & _)]; done.
  - destruct (lookup_lt_is_Some_2 (vols s) i (Hin i ltac:(by left))) as [v Hv]. destruct (verifyLocked_there i s v Hv) as (s1 & -> & Hfs & Hlen & Hsame & Hkeep).
    assert (forall j, j ∈ js -> (j < length (vols s1))%nat) as Hin' by (intros j Hj; rewrite Hlen; apply Hin; by right).
    destruct (there (fs s) v) eqn:Et.
    + apply IH; [done|done|]. rewrite (Hsame eq_refl). destruct Hl as [?|(j & w & [-> |Hj]%elem_of_cons & Hw & Hlost)]; [by left|congruence|right; by exists j, w].
    + apply IH; [done| |]; destruct Hf as [-> | ->]; cbn; by auto.
Qed.

Lemma snapshot_lost s : lostOne s -> (snapshot s).1 = Err MultivolMissing.
Proof.
  intros (i & v & Hi & Hl). unfold snapshot, verifyAllLocked. pose proof (verifyEach_lost (seq 0 (length (vols s))) s None) as H.
  destruct (verifyEach _ None s) as [first s1]. cbn in H. rewrite H; [done| |by left|right; exists i, v; split_and!; try done].
  - intros j Hj%elem_of_seq. lia.
  - apply elem_of_seq. apply lookup_lt_Some in Hi. lia.
Qed.

(** After the checks a call begins with, a lost volume ends it. *)
Lemma snapshot_refuses {A} (c : res unit) (m : M St A) s : lostOne s -> c = Ok tt ->
  ((liftR c ;; (snapshot ;; m)) s).1 = Err MultivolMissing /\ disks ((liftR c ;; (snapshot ;; m)) s).2 = disks s.
Proof.
  intros Hl ->. rewrite bind_liftR. unfold mbind, M_bind. pose proof (snapshot_lost s Hl) as He. destruct (snapshot s) as [r s1] eqn:E. cbn in He. subst r.
  by apply snapshot_disks in E as [Hd _].
Qed.

Lemma present_lost js : forall s, (forall j, j ∈ js -> (j < length (vols s))%nat) -> (exists i v, i ∈ js /\ vols s !! i = Some v /\ there (fs s) v = false) ->
  (present js s).1.2 = true.
Proof.
  induction js as [|i js IH]; intros s Hin (k & w & Hk & Hw & Hl); cbn [present]; [by apply not_elem_of_nil in Hk|].
  destruct (lookup_lt_is_Some_2 (vols s) i (Hin i ltac:(by left))) as [v Hv]. destruct (verifyLocked_there i s v Hv) as (s1 & -> & Hfs & Hlen & Hsame & Hkeep).
  destruct (there (fs s) v) eqn:Et; [|by destruct (present js s1) as [[? ?] ?]].
  rewrite (Hsame eq_refl). specialize (IH s). destruct (present js s) as [[ps m] s2]. cbn in *. apply IH; [intros j Hj; apply Hin; by right|].
  apply elem_of_cons in Hk as [-> |Hk]; [congruence|by exists k, w].
Qed.

Lemma find_lost {A} (f : M L A) name s : lostOne s -> (find name f s).1 <> Err BlobNotFound.
Proof.
  intros (i & v & Hi & Hl). unfold find. rewrite bind_liftR. destruct (ValidName name) as [u|e] eqn:Ev; [|apply ValidName_err in Ev as ->; done].
  unfold act. pose proof (present_lost (ranked name s) s) as Hp. destruct (present (ranked name s) s) as [[ps m] s1] eqn:Ep. cbn in Hp. rewrite Hp.
  - clear. revert s1. induction ps as [|i ps IH]; intros s1; cbn [tryEach]; [done|]. destruct (onVol i f s1) as [[a|e] s2]; [done|]. case_bool_decide; [apply IH|]. cbn. congruence.
  - intros j Hj%ranked_elem. unfold disks in Hj. by rewrite length_fmap in Hj.
  - exists i, v. split_and!; [|done|done]. apply ranked_elem. unfold disks. rewrite length_fmap. by eapply lookup_lt_Some.
Qed.

(** C17. A missing volume loses nothing. When a volume cannot be reached, or what is
    mounted there is not the volume that was opened, every call that writes or
    lists is refused with ErrVolumeMissing and changes no volume, whatever it
    was asked, and no read says an object does not exist, wherever it is: a
    collector is never shown a listing without the volume's packs. *)
Theorem missing_volumes_refuse s : lostOne s ->
  (forall now name src size, CheckPut name size = Ok tt -> (Put now name src size s).1 = Err MultivolMissing /\ disks (Put now name src size s).2 = disks s) /\
  (forall name, ValidName name = Ok tt -> (Delete name s).1 = Err MultivolMissing /\ disks (Delete name s).2 = disks s) /\
  (forall prefix after limit, CheckList prefix limit = Ok tt -> (List prefix after limit s).1 = Err MultivolMissing /\ disks (List prefix after limit s).2 = disks s) /\
  (forall rand expected next, CheckRootValue next = Ok tt -> (SwapRoot rand expected next s).1 = Err MultivolMissing /\ disks (SwapRoot rand expected next s).2 = disks s) /\
  (forall name off n, (Get name off n s).1 <> Err BlobNotFound) /\ (forall name, (Stat name s).1 <> Err BlobNotFound).
Proof.
  intros Hl. split_and!; intros; first [by apply snapshot_refuses | by apply find_lost].
Qed.
End Laws.

(** ** Placement *)

Section Placement.
Context `{HH : Hasher}.

#[local] Instance better_total scores : Total (better scores).
Proof. intros i j. unfold better. destruct (Z.lt_trichotomy (default 0 (scores !! i)) (default 0 (scores !! j))) as [?|[?|?]]; lia. Qed.
#[local] Instance better_trans scores : Transitive (better scores).
Proof. intros i j k. unfold better. lia. Qed.

Lemma better_antisym scores i j : better scores i j -> better scores j i -> i = j.
Proof. unfold better. lia. Qed.

(** The first of a ranking is better than every other. *)
Lemma rank_best ids name i rest j : rank ids name = i :: rest -> (j < length ids)%nat -> better (map (fun id => score id name) ids) i j.
Proof.
  intros Hr Hj. assert (j ∈ rank ids name) as Hin by by apply rank_elem. unfold rank in *.
  pose proof (StronglySorted_merge_sort (better (map (fun id => score id name) ids)) (seq 0 (length ids))) as Hs. rewrite Hr in *.
  apply StronglySorted_cons in Hs as [Hall _]. apply elem_of_cons in Hin as [-> |Hin]; [unfold better; lia|]. rewrite Forall_forall in Hall. by apply Hall.
Qed.

Lemma rank_head ids name : ids <> [] -> exists i rest, rank ids name = i :: rest /\ (i < length ids)%nat.
Proof.
  intros Hne. assert (length (rank ids name) = length ids) as Hl by (unfold rank; by rewrite (merge_sort_Permutation _ _), length_seq).
  destruct (rank ids name) as [|i rest] eqn:E; [by destruct ids|]. exists i, rest. split; [done|]. apply (rank_elem ids name). rewrite E. by left.
Qed.

Lemma better_app ids id name i j : (i < length ids)%nat -> (j < length ids)%nat ->
  better (map (fun id => score id name) (ids ++ [id])) i j -> better (map (fun id => score id name) ids) i j.
Proof. intros Hi Hj. unfold better. by rewrite map_app, !lookup_app_l by by rewrite length_map. Qed.

(** C20. Adding a volume moves no object but to it: of any names, each is placed
    among the volumes with one more where it was placed before, or on the new
    one. *)
Theorem a_new_volume_only_takes names ids id : ids <> [] -> exists is1 is2, Place names ids = Ok is1 /\ Place names (ids ++ [id]) = Ok is2 /\
  Forall2 (fun i i' => (i < length ids)%nat /\ (i' = i \/ i' = length ids)) is1 is2.
Proof.
  intros Hne. induction names as [|n names (is1 & is2 & H1 & H2 & H3)]; [by exists [], []|]. unfold Place in *. cbn [res_map].
  destruct (rank_head ids n Hne) as (i & r & Er & Hi), (rank_head (ids ++ [id]) n) as (i' & r' & Er' & Hi'); [by destruct ids|]. rewrite Er, Er', H1, H2.
  exists (i :: is1), (i' :: is2). split_and!; [done|done|]. constructor; [|done]. split; [done|]. rewrite length_app in Hi'. cbn in Hi'.
  destruct (decide (i' = length ids)) as [|Hx]; [by right|left]. assert (i' < length ids)%nat as Hlt by lia.
  eapply better_antisym; [|by eapply rank_best]. apply (better_app ids id n i' i Hlt Hi). eapply rank_best; [exact Er'|]. rewrite length_app. lia.
Qed.

(** ** The map file *)

Definition entry_ok (e : mapEntry) : Prop := (exists x, length x = 16%nat /\ eid e = hex_EncodeToString x) /\ zlen (epath e) <= maxPath.

Definition encEntry (e : mapEntry) : bytes := default [] (hex_Decode (eid e)) ++ encLenBytes (epath e).

Lemma mapEntries_enc es w : Forall entry_ok es -> encodeEntries es w = Ok (w ++ concat (map encEntry es)).
Proof.
  revert w. induction es as [|e es IH]; intros w; cbn [encodeEntries map concat]; [by rewrite app_nil_r|]. intros [((x & Hx & Ee) & Hp) Hes]%Forall_cons.
  unfold encEntry at 1. rewrite Ee, hex_Decode_Encode. cbn [default]. rewrite Hx. cbn [negb Z.eqb Z.of_nat Pos.of_succ_nat Pos.eqb Pos.succ]. rewrite IH by done. rewrite wLenBytes_enc. unfold wRaw. by rewrite <-!app_assoc.
Qed.

Lemma mapEntries_fwd es r s : Forall entry_ok es -> at_ r (concat (map encEntry es) ++ s) -> exists r', decodeEntries (length es) r = (es, r') /\ at_ r' s.
Proof.
  revert r. induction es as [|e es IH]; intros r; cbn [length decodeEntries map concat]; [by eexists|]. intros [((x & Hx & Ee) & Hp) Hes]%Forall_cons Hr.
  unfold encEntry at 1 in Hr. rewrite Ee, hex_Decode_Encode in Hr. cbn [default] in Hr. rewrite <-!app_assoc in Hr.
  destruct (Fixed_fwd r 16 x _ Hr) as (r1 & E1 & H1); [by rewrite Hx|]. rewrite E1.
  destruct (LenBytes_fwd r1 maxPath (epath e) _ H1) as (r2 & E2 & H2); [done|done|]. rewrite E2.
  destruct (IH r2 Hes H2) as (r3 & E3 & H3). rewrite E3. exists r3. split; [|done]. unfold nilb. cbn. rewrite <-Ee. by destruct e.
Qed.

Lemma decodeEntries_sticky n r es r' : decodeEntries n r = (es, r') -> rerr r' = None -> rerr r = None.
Proof.
  revert r es r'. induction n as [|n IH]; intros r es r'; cbn [decodeEntries]; [by intros [= <- <-]|]. destruct (Fixed 16 r) as [id r1] eqn:E1, (LenBytes maxPath r1) as [pa r2] eqn:E2, (decodeEntries n r2) as [es' r3] eqn:E3.
  intros [= <- <-] He. by eapply Fixed_sticky, LenBytes_sticky, IH.
Qed.

Lemma mapEntries_bwd n r es r' s : decodeEntries n r = (es, r') -> rerr r' = None -> at_ r s ->
  exists s', s = concat (map encEntry es) ++ s' /\ Forall entry_ok es /\ length es = n /\ at_ r' s'.
Proof.
  revert r es r' s. induction n as [|n IH]; intros r es r' s; cbn [decodeEntries]; [intros [= <- <-] _ Ha; by exists s|].
  destruct (Fixed 16 r) as [id r1] eqn:E1, (LenBytes maxPath r1) as [pa r2] eqn:E2, (decodeEntries n r2) as [es' r3] eqn:E3. intros [= <- <-] He Ha.
  pose proof (decodeEntries_sticky _ _ _ _ E3 He) as He2. pose proof (LenBytes_sticky _ _ _ _ E2 He2) as He1.
  destruct (Fixed_bwd _ _ _ _ _ E1 He1 Ha) as (x & s1 & -> & -> & Hx & Ha1). destruct (LenBytes_bwd _ _ _ _ _ E2 He2 Ha1) as (b & s2 & -> & -> & Hb & Ha2); [done|].
  destruct (IH _ _ _ _ E3 He Ha2) as (s3 & -> & Hes & Hl & Ha3). exists s3. cbn [map concat nilb default]. unfold encEntry at 2. cbn [eid epath]. rewrite hex_Decode_Encode. cbn [default].
  split_and!; [by rewrite <-!app_assoc| |cbn; by rewrite Hl|done]. constructor; [|done]. split; [exists x; split; [lia|done]|done].
Qed.

(** The body of a map file. *)
Definition encBody (es : list mapEntry) : bytes := mapMagic ++ encU16 mapV1 ++ encU16 (zlen es) ++ concat (map encEntry es).

Definition map_ok (es : list mapEntry) : Prop := es <> [] /\ zlen es <= MaxVolumes /\ Forall entry_ok es.

Lemma encodeMap_enc es : map_ok es -> encodeMap es = Ok (encBody es ++ hbytes (Sum (encBody es))).
Proof.
  intros (_ & Hl & Hes). unfold encodeMap. rewrite mapEntries_enc by done. cbn [mbind res_bind]. unfold wU16, wRaw. rewrite Z.mod_small by (unfold MaxVolumes in Hl; lia).
  unfold encBody. by rewrite <-!app_assoc.
Qed.

(** The volume map has one file. [decodeMap] accepts exactly what [encodeMap]
    writes of a map of 1 to 64 volumes whose ids are sixteen bytes in lower-case
    hex and whose paths are at most 4096 bytes, and gives back its entries. *)
Theorem volume_map_codec b es : decodeMap b = Ok es <-> map_ok es /\ encodeMap es = Ok b.
Proof.
  split.
  - unfold decodeMap. destruct (Z.ltb_spec (zlen b) 32) as [|Hb]; [done|]. case_bool_decide as Hsum; cbn [negb]; [|done].
    set (body := take (length b - 32) b) in *. destruct (Fixed 4 (NewReader body)) as [magic r1] eqn:E1, (U16 r1) as [version r2] eqn:E2, (U16 r2) as [n r3] eqn:E3.
    destruct (negb (bool_decide (nilb magic = mapMagic)) || negb (version =? mapV1) || (n =? 0) || (MaxVolumes <? n)) eqn:Eg; [done|].
    rewrite !orb_false_iff, !negb_false_iff, bool_decide_eq_true, Z.eqb_eq, Z.eqb_neq, Z.ltb_ge in Eg. destruct Eg as (((Hm & Hv) & Hn0) & Hn).
    destruct (decodeEntries (Z.to_nat n) r3) as [es' r4] eqn:E4. destruct (Done r4) eqn:Ed; [done|]. intros [= <-].
    pose proof (Done_err _ Ed) as He4. pose proof (decodeEntries_sticky _ _ _ _ E4 He4) as He3. pose proof (U16_sticky _ _ _ E3 He3) as He2. pose proof (U16_sticky _ _ _ E2 He2) as He1.
    destruct (Fixed_bwd _ _ _ _ _ E1 He1 (at_new body)) as (x & s1 & -> & Eb & _ & A1). destruct (U16_bwd _ _ _ _ E2 He2 A1) as (s2 & -> & _ & A2).
    destruct (U16_bwd _ _ _ _ E3 He3 A2) as (s3 & -> & Hr & A3). destruct (mapEntries_bwd _ _ _ _ _ E4 He4 A3) as (s4 & -> & Hes & Hl & A4).
    apply Done_None in Ed. pose proof (at_functional _ _ _ A4 Ed) as ->. rewrite app_nil_r in Eb. change (x = mapMagic) in Hm. subst x version.
    assert (n = zlen es') as -> by lia. assert (map_ok es') as Hok by (split_and!; [by intros ->|lia|done]). split; [done|].
    rewrite encodeMap_enc by done. change (encBody es') with (mapMagic ++ encU16 mapV1 ++ encU16 (zlen es') ++ concat (map encEntry es')). rewrite <-Eb, <-Hsum. unfold body. by rewrite take_drop.
  - intros [Hok He]. pose proof Hok as (Hne & Hl & Hes). rewrite encodeMap_enc in He by done. assert (b = encBody es ++ hbytes (Sum (encBody es))) as -> by congruence. clear He. unfold decodeMap. rewrite length_app, hash_length.
    destruct (Z.ltb_spec (Z.of_nat (length (encBody es) + 32)) 32); [lia|]. replace (length (encBody es) + 32 - 32)%nat with (length (encBody es)) by lia.
    rewrite take_app_length, drop_app_length, bool_decide_eq_true_2 by done. cbn [negb].
    destruct (Fixed_fwd (NewReader (encBody es)) 4 mapMagic _ (at_new _)) as (r1 & -> & A1); [done|]. destruct (U16_fwd r1 mapV1 _ A1) as (r2 & -> & A2); [done|].
    assert (0 < zlen es) as Hpos by (destruct es; [done|cbn; lia]). unfold MaxVolumes in Hl.
    destruct (U16_fwd r2 (zlen es) _ A2) as (r3 & -> & A3); [unfold two16; lia|]. change (nilb (Some mapMagic)) with mapMagic. rewrite bool_decide_eq_true_2 by done. cbn [negb orb]. rewrite Z.eqb_refl. cbn [negb orb].
    rewrite (proj2 (Z.eqb_neq _ _)) by lia. cbn [orb]. rewrite (proj2 (Z.ltb_ge _ _)) by (unfold MaxVolumes; lia). rewrite Nat2Z.id. rewrite <-(app_nil_r (concat _)) in A3.
    destruct (mapEntries_fwd es r3 [] Hes A3) as (r4 & -> & A4). apply Done_None in A4. by rewrite A4.
Qed.
End Placement.

(** ** Two volumes in memory *)

Section Example.
#[local] Existing Instance ChunkStore.toy_hasher.
#[local] Existing Instance Mem.store.
#[local] Existing Instance MemOk.mem_ok.
#[local] Instance exFloat : Float64 := {|
  f64 := Z * Z; quot a b := (a, b); fltb a b := a.1 * b.2 <? b.1 * a.2; feqb a b := a.1 * b.2 =? b.1 * a.2;
  f0 := (0, 1); f1 := (1, 1); fhalf := (1, 2) |}.

#[export] Instance mem_volume : Volume Mem.Store.
Proof.
  split; [done|]. intros name s s'. cbn. unfold Mem.Stat. rewrite bind_liftR. destruct (ValidName name) as [u|e] eqn:E; [|apply ValidName_err in E as ->; congruence].
  unfold asks. by destruct (Mem.objects s !! name).
Qed.

Definition exMachine (dev : Z) : machine := mkMachine (fun p => if bool_decide (p = str "/b/vol") then Ok (dev, 2) else Ok (1, 1)) (fun _ => Ok (50, 100)).
Definition exVolume (c : bytes) (dev ino : Z) : volume Mem.Store := mkVolume c (str "/" ++ c) true Mem.New dev ino.
Definition exStore (mounted : Z) : Store Mem.Store := mkStore (str "/a") (0, 1) [exVolume (str "a") 1 1; exVolume (str "b") 1 2] false (exMachine mounted).
Definition exName : bytes := str "packs/x".
Definition exData : bytes := str "data".

Lemma exStore_apart m : apart (disks (exStore m)).
Proof. intros [|[|i]] [|[|j]] d d' n; cbn; intros; simplify_eq; unfold MemOk.objs; cbn; by rewrite fmap_empty, lookup_empty. Qed.

(** A put, and what the store holds then. *)
Definition exPut : Store Mem.Store := (Put 5 exName [(exData, None)] 4 (exStore 1)).2.

Lemma several_volumes_are_one_store_witness : (exists t, holds (disks exPut) = <[exName := (exData, t)]> (holds (disks (exStore 1)))) /\ (Get exName 1 2 exPut).1 = Ok (str "at").
Proof.
  destruct (several_volumes_are_one_store (exStore 1) (exStore_apart 1)) as (Hput & _). specialize (Hput 5 exName [(exData, None)] 4 (Ok tt) exPut eq_refl) as (_ & _ & b & t & _ & Hc & _ & Hh).
  split; [|by vm_compute]. exists t. rewrite Hh. vm_compute in Hc. by injection Hc as <-.
Defined.

Lemma missing_volumes_refuse_witness : (List (str "packs/") [] 10 (exStore 7)).1 = Err MultivolMissing /\ (Stat exName (exStore 7)).1 <> Err BlobNotFound.
Proof.
  destruct (missing_volumes_refuse (exStore 7)) as (_ & _ & Hl & _ & _ & Hs); [exists 1%nat, (exVolume (str "b") 1 2); by vm_compute|]. split; [by apply Hl|apply Hs].
Defined.

Lemma a_new_volume_only_takes_witness : exists is1 is2, Place [exName; str "packs/y"] [str "a"; str "b"] = Ok is1 /\ Place [exName; str "packs/y"] [str "a"; str "b"; str "c"] = Ok is2 /\
  Forall2 (fun i i' => (i < 2)%nat /\ (i' = i \/ i' = 2%nat)) is1 is2.
Proof. exact (a_new_volume_only_takes [exName; str "packs/y"] [str "a"; str "b"] (str "c") ltac:(discriminate)). Defined.
End Example.
