(* ===== verification/Manifest.v ===== *)
(** * core/chunk/packstore: the manifest

    The blob store's root value: the root chunk, the index objects that locate
    the chunks it reaches, the collection's generation and the objects it has
    condemned; sealed under the Refs domain. *)

From S2P Require Import Prelude GoStd Wire Hash Seal.

(** Condemned kinds. *)
Definition condemnedPack : Z := 1.
Definition condemnedIndex : Z := 2.
Definition deletedPack : Z := 3.
Definition deletedIndex : Z := 4.
Definition repackedPack : Z := 5.

(** [at_ns] is in unix nanoseconds, 64 bits and signed. *)
Record condemned := mkCondemned { kind : Z; sum : hash; at_ns : Z }.
Record manifest := mkManifest { seq : Z; gcGen : Z; mroot : hash; indexes : list hash; condemneds : list condemned }.

Definition manifestMagic : bytes := str "SCMF".
Definition plainMagic : bytes := str "SCMP".
Definition manifestV1 : Z := 1.
Definition headerLen : Z := 4 + 2 + 32.
Definition maxIndexes : Z := 100000.
Definition maxCondemned : Z := 100000.

Definition zeroManifest : manifest := mkManifest 0 0 zero_hash [] [].

Definition indexName (s : hash) : bytes := str "index/" ++ hex_EncodeToString (hbytes s).

Definition indexSum (name : bytes) : res hash :=
  match hex_Decode (TrimPrefix name (str "index/")) with
  | None => Err (EMsg "packstore: index object name")
  | Some b =>
      if negb (zlen b =? 32) || negb (bool_decide (indexName (to_hash b) = name)) then Err (EMsg "packstore: index object name")
      else Ok (to_hash b)
  end.

Definition sum_le (a b : hash) : Prop := hbytes a <=b hbytes b.

#[export] Instance sum_le_dec a b : Decision (sum_le a b).
Proof. unfold sum_le. apply _. Defined.

Definition encodeCondemned (w : writer) (c : condemned) : writer :=
  let w := wU8 w (kind c) in
  let w := wRaw w (hbytes (sum c)) in
  wU64 w (u64 (at_ns c)).

Definition encodePlain (m : manifest) : bytes :=
  let idx := merge_sort sum_le (indexes m) in
  let w := wRaw [] plainMagic in
  let w := wU16 w manifestV1 in
  let w := wU64 w (seq m) in
  let w := wU64 w (gcGen m) in
  let w := wRaw w (hbytes (mroot m)) in
  let w := wUvarint w (zlen idx) in
  let w := foldl (fun w s => wRaw w (hbytes s)) w idx in
  let w := wUvarint w (zlen (condemneds m)) in
  foldl encodeCondemned w (condemneds m).

Fixpoint decodeIndexes (n : nat) (acc : list hash) (r : reader) : res (list hash * reader) :=
  match n with
  | O => Ok (acc, r)
  | S n =>
      let '(s, r) := readHash r in
      if bool_decide (rerr r <> None) || match last acc with
                                          | Some p => match bcompare (hbytes p) (hbytes s) with Lt => false | _ => true end
                                          | None => false
                                          end then Err PackstoreManifest
      else decodeIndexes n (acc ++ [s]) r
  end.

Fixpoint decodeCondemneds (n : nat) (acc : list condemned) (r : reader) : res (list condemned * reader) :=
  match n with
  | O => Ok (acc, r)
  | S n =>
      let '(k, r) := U8 r in
      let '(s, r) := readHash r in
      let '(t, r) := U64 r in
      if bool_decide (rerr r <> None) || (k <? condemnedPack) || (repackedPack <? k) then Err PackstoreManifest
      else decodeCondemneds n (acc ++ [mkCondemned k s (i64 t)]) r
  end.

Definition decodePlain (b : bytes) : res manifest :=
  let r := NewReader b in
  let '(magic, r) := Fixed 4 r in
  let '(v, r) := U16 r in
  let '(sq, r) := U64 r in
  let '(gen, r) := U64 r in
  let '(root, r) := readHash r in
  let '(n, r) := Uvarint r in
  if bool_decide (rerr r <> None) || negb (bool_decide (nilb magic = plainMagic)) || negb (v =? manifestV1) || (maxIndexes <? n)
  then Err PackstoreManifest
  else
    '(idx, r) ← decodeIndexes (Z.to_nat n) [] r;
    let '(c, r) := Uvarint r in
    if bool_decide (rerr r <> None) || (maxCondemned <? c) then Err PackstoreManifest
    else
      '(cs, r) ← decodeCondemneds (Z.to_nat c) [] r;
      if bool_decide (Done r <> None) then Err PackstoreManifest
      else Ok (mkManifest sq gen root idx cs).

Section Sealed.
Context {HA : Aead}.

Definition manifestHeader (salt : Salt) : bytes :=
  let w := wRaw [] manifestMagic in
  let w := wU16 w manifestV1 in
  wRaw w (hbytes salt).

(** [salt] and [nonce] are the random draws. *)
Definition seal (salt : Salt) (nonce : bytes) (kr : Keyring) (repo : RepoID) (m : manifest) : res bytes :=
  key ← deriveKey kr Refs repo salt;
  let w := manifestHeader salt in
  sealed ← (Seal nonce w (encodePlain m) key).1;
  Ok (wRaw w sealed).

Definition openManifest (b : bytes) (kr : Keyring) (repo : RepoID) : res manifest :=
  if zlen b <? headerLen then Err PackstoreManifest
  else
    let h := NewReader (take (Z.to_nat headerLen) b) in
    let '(magic, h) := Fixed 4 h in
    let '(v, h) := U16 h in
    let '(salt, h) := readHash h in
    if bool_decide (Done h <> None) || negb (bool_decide (nilb magic = manifestMagic)) || negb (v =? manifestV1) then Err PackstoreManifest
    else
      key ← deriveKey kr Refs repo salt;
      match Open key (take (Z.to_nat headerLen) b) (drop (Z.to_nat headerLen) b) with
      | Err _ => Err PackstoreManifest
      | Ok plain => decodePlain plain
      end.
End Sealed.

(** ** Names *)

Lemma indexSum_name s : indexSum (indexName s) = Ok s.
Proof.
  unfold indexSum, indexName, TrimPrefix. rewrite HasPrefix_app, drop_app_length, hex_Decode_Encode, hash_length, to_hash_hbytes. cbn [negb orb Z.eqb Pos.eqb Z.of_nat]. by rewrite bool_decide_eq_true_2.
Qed.

Lemma indexSum_inv n s : indexSum n = Ok s -> n = indexName s.
Proof. unfold indexSum. destruct (hex_Decode _); [|done]. destruct (_ || _) eqn:E; [done|]. intros [= <-]. apply orb_false_iff in E as [_ E]. by apply negb_false_iff, bool_decide_eq_true in E. Qed.

Lemma indexName_inj s t : indexName s = indexName t -> s = t.
Proof. intros E. assert (indexSum (indexName s) = indexSum (indexName t)) as E2 by congruence. rewrite !indexSum_name in E2. congruence. Qed.

(** ** The codec *)

#[export] Instance sum_le_total : Total sum_le.
Proof. intros a b. unfold sum_le. destruct (blt_trichotomy (hbytes a) (hbytes b)) as [?|[->|?]]; [left|left|right]; border. Qed.
#[export] Instance sum_le_trans : Transitive sum_le.
Proof. intros a b c. unfold sum_le. border. Qed.
#[export] Instance sum_le_antisym : AntiSymm eq sum_le.
Proof.
  intros a b H1 H2. apply hash_eq. unfold sum_le in *. apply ble_lteq in H1 as [H1|H1]; [|done]. apply ble_not_lt in H2. done.
Qed.

Definition condemned_ok (c : condemned) : Prop :=
  condemnedPack <= kind c <= repackedPack /\ -9223372036854775808 <= at_ns c < 9223372036854775808.

(** A manifest a decoder hands out. *)
Definition manifest_ok (m : manifest) : Prop :=
  0 <= seq m < two64 /\ 0 <= gcGen m < two64 /\ zlen (indexes m) <= maxIndexes /\ ksorted hbytes (indexes m) /\
  zlen (condemneds m) <= maxCondemned /\ Forall condemned_ok (condemneds m).

Definition encCondemned (c : condemned) : bytes := encU8 (kind c) ++ hbytes (sum c) ++ encU64 (u64 (at_ns c)).

Definition encManifest (m : manifest) (idx : list hash) : bytes :=
  plainMagic ++ encU16 manifestV1 ++ encU64 (seq m) ++ encU64 (gcGen m) ++ hbytes (mroot m) ++ encUvarint (zlen idx) ++
  flat_map hbytes idx ++ encUvarint (zlen (condemneds m)) ++ flat_map encCondemned (condemneds m).

Lemma foldl_flat {A} (f : bytes -> A -> bytes) (g : A -> bytes) l : (forall w x, f w x = w ++ g x) -> forall w, foldl f w l = w ++ flat_map g l.
Proof. intros Hf. induction l as [|x l IH]; intros w; cbn [foldl flat_map]; [by rewrite app_nil_r|]. by rewrite IH, Hf, <-app_assoc. Qed.

Lemma encodePlain_enc m : encodePlain m = encManifest m (merge_sort sum_le (indexes m)).
Proof.
  unfold encodePlain. rewrite (foldl_flat _ encCondemned) by (intros w c; unfold encodeCondemned, encCondemned; wr_norm; done).
  rewrite (foldl_flat _ hbytes) by (intros w c; wr_norm; done). unfold encManifest. wr_norm. done.
Qed.

Lemma decodeIndexes_fwd l : forall acc r s, ksorted hbytes (acc ++ l) -> at_ r (flat_map hbytes l ++ s) ->
  exists r', decodeIndexes (length l) acc r = Ok (acc ++ l, r') /\ at_ r' s.
Proof.
  induction l as [|x l IH]; intros acc r s Hs Ha; cbn [length decodeIndexes flat_map] in *; [exists r; by rewrite app_nil_r|].
  rewrite <-app_assoc in Ha. rd_fwd. rewrite (at_no_err _ _ Ha). fold (notAfter hbytes acc x). rewrite (notAfter_sorted _ _ _ _ Hs). cbn [orb].
  destruct (IH (acc ++ [x]) r0 s) as (r' & E & Ha'); [by rewrite <-app_assoc|exact Ha|]. exists r'. by rewrite E, <-app_assoc.
Qed.

Lemma decodeIndexes_bwd n : forall acc r l r' s, decodeIndexes n acc r = Ok (l, r') -> at_ r s -> ksorted hbytes acc ->
  exists l0 s', l = acc ++ l0 /\ length l0 = n /\ s = flat_map hbytes l0 ++ s' /\ at_ r' s' /\ ksorted hbytes l.
Proof.
  induction n as [|n IH]; intros acc r l r' s Hd Ha Hs; cbn [decodeIndexes] in Hd.
  - injection Hd as <- <-. exists [], s. by rewrite app_nil_r.
  - rd_name Hd. fold (notAfter hbytes acc v) in Hd. destruct (bool_decide (rerr r0 <> None)) eqn:E5; [done|]. apply no_err_inv in E5. cbn [orb] in Hd.
    destruct (notAfter hbytes acc v) eqn:En; [done|]. rd_back. destruct (IH _ _ _ _ _ Hd Ha) as (l0 & s' & -> & Hl & -> & Ha' & Hs').
    { by apply notAfter_snoc. }
    exists (v :: l0), s'. rewrite <-app_assoc in *. split_and!; [done|cbn; lia| |done|done]. cbn [flat_map]. by rewrite <-app_assoc.
Qed.

Lemma decodeCondemneds_fwd l : Forall condemned_ok l -> forall acc r s, at_ r (flat_map encCondemned l ++ s) ->
  exists r', decodeCondemneds (length l) acc r = Ok (acc ++ l, r') /\ at_ r' s.
Proof.
  induction 1 as [|c l [Hk Ht] Hl IH]; intros acc r s Ha; cbn [length decodeCondemneds flat_map] in *; [exists r; by rewrite app_nil_r|].
  unfold encCondemned in Ha at 1. rewrite <-!app_assoc in Ha. unfold condemnedPack, repackedPack in *. pose proof (u64_range (at_ns c)) as Hu.
  do 3 rd_fwd. rewrite (at_no_err _ _ Ha). zbool. rewrite i64_u64 by done. destruct (IH (acc ++ [c]) _ s Ha) as (r' & E & Ha'). exists r'.
  rewrite <-app_assoc in E. assert (mkCondemned (kind c) (sum c) (at_ns c) = c) as -> by (by destruct c). by rewrite E.
Qed.

Lemma decodeCondemneds_bwd n : forall acc r l r' s, decodeCondemneds n acc r = Ok (l, r') -> at_ r s ->
  exists l0 s', l = acc ++ l0 /\ length l0 = n /\ s = flat_map encCondemned l0 ++ s' /\ at_ r' s' /\ Forall condemned_ok l0.
Proof.
  induction n as [|n IH]; intros acc r l r' s Hd Ha; cbn [decodeCondemneds] in Hd.
  - injection Hd as <- <-. exists [], s. by rewrite app_nil_r.
  - rd_name Hd. destruct (bool_decide (rerr r2 <> None)) eqn:E5; [done|]. apply no_err_inv in E5. cbn [orb] in Hd.
    destruct (Z.ltb_spec v condemnedPack) as [|H1]; [done|]. destruct (Z.ltb_spec repackedPack v) as [|H2]; [done|]. cbn [orb] in Hd. rd_back.
    destruct (IH _ _ _ _ _ Hd Ha) as (l0 & s' & -> & Hl & -> & Ha' & Hf). exists (mkCondemned v v0 (i64 v1) :: l0), s'. rewrite <-app_assoc in *.
    split_and!; [done|cbn; lia| |done|constructor; [split; [done|by apply i64_range]|done]]. cbn [flat_map]. unfold encCondemned at 2. cbn [kind sum at_ns].
    rewrite u64_i64 by done. by rewrite <-!app_assoc.
Qed.

Lemma manifestPlain_fwd m : manifest_ok m -> decodePlain (encManifest m (indexes m)) = Ok m.
Proof.
  intros (Hsq & Hgen & Hn & Hs & Hc & Hcs). unfold decodePlain. pose proof (at_new_nil (encManifest m (indexes m))) as Ha. unfold encManifest in Ha at 2. rewrite <-!app_assoc in Ha.
  unfold maxIndexes, maxCondemned, manifestV1 in *. assert (zlen plainMagic = 4) by reflexivity. do 6 rd_fwd. rewrite (at_no_err _ _ Ha). cbn [nilb default].
  rewrite bool_decide_eq_true_2 by done. zbool. rewrite Nat2Z.id.
  destruct (decodeIndexes_fwd (indexes m) [] _ _ Hs Ha) as (r' & -> & Ha'). cbn [mbind res_bind app]. clear Ha. rd_fwd. rewrite (at_no_err _ _ Ha'). zbool.
  rewrite Nat2Z.id. destruct (decodeCondemneds_fwd (condemneds m) Hcs [] _ _ Ha') as (rz & -> & Ha2). cbn [mbind res_bind app].
  rewrite (proj2 (Done_None rz) Ha2). rewrite bool_decide_eq_false_2 by (intros Hx; by apply Hx). by destruct m.
Qed.

Lemma manifestPlain_bwd b m : decodePlain b = Ok m -> b = encManifest m (indexes m) /\ manifest_ok m.
Proof.
  unfold decodePlain. intros Hd. rd_name Hd. pose proof (at_new b) as Ha.
  destruct (bool_decide (rerr r4 <> None)) eqn:E5; [done|]. apply no_err_inv in E5. cbn [orb] in Hd.
  destruct (bool_decide (nilb v = plainMagic)) eqn:Em; [|done]. apply bool_decide_eq_true in Em. cbn [negb orb] in Hd.
  destruct (Z.eqb_spec v0 manifestV1) as [->|]; [|done]. destruct (Z.ltb_spec maxIndexes v4) as [|Hn]; [done|]. cbn [negb orb] in Hd.
  destruct (decodeIndexes (Z.to_nat v4) [] r4) as [[idx r5]|] eqn:Ei; [|done]. cbn [mbind res_bind] in Hd. rd_name Hd.
  destruct (bool_decide (rerr r6 <> None)) eqn:E7; [done|]. apply no_err_inv in E7. cbn [orb] in Hd.
  destruct (Z.ltb_spec maxCondemned v0) as [|Hc]; [done|].
  destruct (decodeCondemneds (Z.to_nat v0) [] r6) as [[cs r7]|] eqn:Ec; [|done]. cbn [mbind res_bind] in Hd.
  destruct (bool_decide (Done r7 <> None)) eqn:E8; [done|]. apply bool_decide_eq_false, dec_stable, Done_None in E8. injection Hd as <-.
  rd_back. destruct (decodeIndexes_bwd _ _ _ _ _ _ Ei Ha ltac:(constructor)) as (l0 & s' & -> & Hl & -> & Ha' & Hs). rename Ha' into Ha5. rd_back.
  destruct (decodeCondemneds_bwd _ _ _ _ _ _ Ec Ha5) as (c0 & s2 & -> & Hlc & -> & Ha' & Hcs). pose proof (at_functional _ _ _ E8 Ha') as <-.
  change (nilb (Some x)) with x in Em. subst x. cbn [app]. split.
  - unfold encManifest. cbn [seq gcGen mroot indexes condemneds]. rewrite app_nil_r. replace (zlen l0) with v4 by lia. by replace (zlen c0) with v0 by lia.
  - unfold manifest_ok. cbn [seq gcGen mroot indexes condemneds]. split_and!; try done; lia.
Qed.

(** The manifest as it is written: its index objects in order. *)
Definition canon (m : manifest) : manifest := mkManifest (seq m) (gcGen m) (mroot m) (merge_sort sum_le (indexes m)) (condemneds m).

Lemma sort_sorted l : ksorted hbytes l -> merge_sort sum_le l = l.
Proof.
  intros Hk. apply (StronglySorted_unique sum_le); [apply StronglySorted_merge_sort; apply _| |apply merge_sort_Permutation].
  induction Hk as [|x l Hl IH Hx]; constructor; [done|]. eapply Forall_impl; [exact Hx|]. intros y. apply blt_le.
Qed.

Lemma encodePlain_canon m : encodePlain m = encManifest (canon m) (indexes (canon m)).
Proof. rewrite encodePlain_enc. by unfold encManifest, canon. Qed.

Lemma canon_ok m : manifest_ok m -> canon m = m.
Proof. intros (_ & _ & _ & Hs & _). unfold canon. rewrite sort_sorted by done. by destruct m. Qed.

(** What is over the limits is written all the same, and not read. *)
Lemma too_many_condemned m : 0 <= seq m < two64 -> 0 <= gcGen m < two64 -> ksorted hbytes (indexes (canon m)) -> zlen (indexes m) <= maxIndexes ->
  maxCondemned < zlen (condemneds m) < two64 -> decodePlain (encodePlain m) = Err PackstoreManifest.
Proof.
  intros Hsq Hgen Hs Hn Hc. rewrite encodePlain_canon. set (idx := indexes (canon m)) in *.
  assert (zlen idx = zlen (indexes m)) as Hl by (unfold idx, canon; cbn [indexes]; by rewrite (Permutation_length (merge_sort_Permutation sum_le _))).
  unfold decodePlain. pose proof (at_new_nil (encManifest (canon m) idx)) as Ha. unfold encManifest in Ha at 2. rewrite <-!app_assoc in Ha. unfold canon in Ha at 2 3 4 5 6. cbn [seq gcGen mroot condemneds] in Ha.
  unfold maxIndexes, maxCondemned, manifestV1 in *. assert (zlen plainMagic = 4) by reflexivity. do 6 rd_fwd. rewrite (at_no_err _ _ Ha). cbn [nilb default].
  rewrite bool_decide_eq_true_2 by done. zbool. rewrite Nat2Z.id.
  destruct (decodeIndexes_fwd idx [] _ _ Hs Ha) as (r' & -> & Ha'). cbn [mbind res_bind app]. clear Ha. rd_fwd. rewrite (at_no_err _ _ Ha'). by zbool.
Qed.

Section Opening.
Context {HA : Aead} {AO : AeadOk}.

Lemma manifestHeader_enc salt : manifestHeader salt = manifestMagic ++ encU16 manifestV1 ++ hbytes salt ++ [].
Proof. unfold manifestHeader. wr_norm. rewrite app_nil_r. by rewrite <-?app_assoc. Qed.

(** What is opened is what was sealed. *)
Lemma openManifest_seal salt nonce kr repo m b : zlen nonce = NonceSize -> seal salt nonce kr repo m = Ok b -> openManifest b kr repo = decodePlain (encodePlain m).
Proof.
  intros Hn. unfold seal. destruct (deriveKey kr Refs repo salt) as [k|] eqn:Ek; [|done]. cbn [mbind res_bind].
  destruct (Seal nonce (manifestHeader salt) (encodePlain m) k) as [[sealed|] k'] eqn:Es; [|done]. cbn [fst mbind res_bind].
  remember (wRaw (manifestHeader salt) sealed) as bl eqn:Ebl. intros [= <-]. subst bl. destruct (Seal_ok _ _ _ _ _ _ Hn Es) as (Hk & _ & _ & _ & Hl & Ho).
  unfold openManifest. assert (zlen (manifestHeader salt) = headerLen) as Hh by (unfold manifestHeader; wr_norm; rewrite !length_app, length_encU16, hash_length; done).
  unfold wRaw. rewrite length_app, (proj2 (Z.ltb_ge _ headerLen)) by lia. rewrite take_app_length', drop_app_length' by lia.
  pose proof (at_new (manifestHeader salt)) as Ha. rewrite manifestHeader_enc in Ha at 2. assert (zlen manifestMagic = 4) by reflexivity. unfold manifestV1 in *.
  do 3 rd_fwd. rewrite (proj2 (Done_None _) Ha). cbn [nilb default].
  rewrite bool_decide_eq_false_2 by (intros Hx; by apply Hx). rewrite bool_decide_eq_true_2 by done. cbn [negb orb Z.eqb Pos.eqb]. rewrite Ek. cbn [mbind res_bind].
  rewrite Ho; [done|]. destruct Hk as (_ & _ & Hk & _). by split_and!.
Qed.

Lemma manifest_roundtrip salt nonce kr repo m b : zlen nonce = NonceSize -> manifest_ok (canon m) -> seal salt nonce kr repo m = Ok b -> openManifest b kr repo = Ok (canon m).
Proof. intros Hn Hok Hs. rewrite (openManifest_seal _ _ _ _ _ _ Hn Hs), encodePlain_canon. by apply manifestPlain_fwd. Qed.

(** The manifest codec. Decoding accepts exactly what encoding writes of
    manifests within their limits, index objects in increasing order; and a
    manifest sealed for a repository opens there to itself. *)
Theorem manifest_codec :
  (forall b m, decodePlain b = Ok m <-> encodePlain m = b /\ manifest_ok m) /\
  (forall salt nonce kr repo m b, zlen nonce = NonceSize -> manifest_ok (canon m) -> seal salt nonce kr repo m = Ok b -> openManifest b kr repo = Ok (canon m)).
Proof.
  split; [|exact manifest_roundtrip]. intros b m. split.
  - intros Hd. apply manifestPlain_bwd in Hd as [-> Hok]. split; [|done]. by rewrite encodePlain_canon, (canon_ok m Hok).
  - intros [<- Hok]. rewrite encodePlain_canon, (canon_ok m Hok). by apply manifestPlain_fwd.
Qed.
End Opening.

Lemma manifest_codec_witness : exists b, decodePlain b = Ok (mkManifest 1 0 zero_hash [zero_hash] [mkCondemned repackedPack zero_hash (-1)]).
Proof.
  exists (encodePlain (mkManifest 1 0 zero_hash [zero_hash] [mkCondemned repackedPack zero_hash (-1)])).
  apply (proj1 (@manifest_codec toy_aead toy_aead_ok)). split; [reflexivity|]. unfold manifest_ok. cbn [seq gcGen indexes condemneds length].
  unfold two64, maxIndexes, maxCondemned. split; [lia|]. split; [lia|]. split; [lia|]. split; [repeat constructor|]. split; [lia|].
  constructor; [|constructor]. unfold condemned_ok, condemnedPack, repackedPack. cbn [kind at_ns]. lia.
Defined.
