(* ===== verification/PsIndex.v ===== *)
(** * core/chunk/packstore: index objects of a store

    Loading the index objects a manifest lists, and [indexWriter], which batches
    packs into new ones. Everything runs on a blob store and a supply of random
    draws. *)

From S2P Require Import Prelude GoStd Wire Hash ChunkStore Blob Table Seal Manifest Pack Dedup.

Definition maxIndexObject : Z := 8 * 2 ^ 20.

(** The options a round and a store share: keys, repository, pack size. *)
Record Options := mkOptions { Keys_ : Keyring; Repo : RepoID; PackSize : Z }.

Definition DefaultPackSize : Z := 32 * 2 ^ 20.

(** The backend's state and the number of random draws made; [puts] records,
    for the theorems alone, the objects stored and the bytes they were given. *)
Record env (B : Type) := mkEnv { bst : B; draws : nat; puts : list (bytes * bytes) }.
Arguments mkEnv {B} bst draws puts.
Arguments bst {B} e.
Arguments draws {B} e.
Arguments puts {B} e.

(** The [i]th draw: a salt and a nonce, and what the backend's clock says. *)
Class Draws := { rand : nat -> Salt * bytes; backendClock : nat -> Z; nonce_size i : zlen (rand i).2 = NonceSize }.

(** [bytes.NewReader] *)
Definition bytesReader (b : bytes) : source := [(b, None)].

Section Index.
Context {HH : Hasher} {HA : Aead} {HZ : Zstd} {B : Type} {HB : BlobStore B} {HD : Draws}.

Definition onBlobs {A} (m : M B A) : M (env B) A := fun e => let '(r, b) := m (bst e) in (r, mkEnv b (draws e) (puts e)).
Definition draw : M (env B) (Salt * bytes) := fun e => (Ok (rand (draws e)), mkEnv (bst e) (S (draws e)) (puts e)).
Definition clock : M (env B) Z := fun e => (Ok (backendClock (draws e)), mkEnv (bst e) (S (draws e)) (puts e)).

(** [Blobs.Put] of bytes in memory. *)
Definition putBytes (name b : bytes) : M (env B) unit :=
  now ← clock;
  onBlobs (bPut now name (bytesReader b) (zlen b)).

(** Storing an object of which the same bytes may be stored already. *)
Definition putOnce (name b : bytes) : M (env B) unit := fun e =>
  let '(r, e') := putBytes name b e in
  let e' := mkEnv (bst e') (draws e') ((name, b) :: puts e') in
  match r with
  | Err x => if bool_decide (x = BlobExists) then (Ok tt, e') else (Err x, e')
  | Ok _ => (Ok tt, e')
  end.

(** [loadIndex], at most one byte over the limit of an object read. *)
Definition loadIndex (o : Options) (s : hash) : M (env B) (list Info) :=
  let name := indexName s in
  b ← onBlobs (bGet name 0 (-1));
  let b := readLimited (Dedup.MaxObjectSize + 1) b in
  liftR (match DecodeObject (Keys_ o) (Repo o) name b with Err _ => Err ChunkCorrupt | Ok infos => Ok infos end).

(** ** Locations in a table *)

(** The packs of a table, by number. *)
Record packRef := mkPRef { prsum : hash; prsalt : Salt; prsize : Z }.
Record spilled := mkSpilled { table : Table; sppacks : list packRef; splisted : gset hash }.

Definition locLen : Z := 17.

Definition encodeLoc (pi : Z) (e : Entry) : bytes :=
  encU32 (u32 pi) ++ encU32 (Offset e) ++ encU32 (StoredLen e) ++ encU32 (RawLen e) ++ encU8 (Codec e).

Definition locPack (v : bytes) : Z := le_dec (sub v 0 4).

Definition spLookup (sp : spilled) (h : hash) : res (option Location) :=
  v ← Table.Lookup (table sp) h;
  match v with
  | None => Ok None
  | Some v =>
      if negb (zlen v =? locLen) then Err ChunkCorrupt
      else match sppacks sp !! Z.to_nat (locPack v) with
           | None => Err ChunkCorrupt
           | Some p => Ok (Some (mkLocation (mkPackRef (PackName (prsum p)) (prsalt p) (prsize p))
               (mkEntry h (le_dec (sub v 4 4)) (le_dec (sub v 8 4)) (le_dec (sub v 12 4)) (le_dec (sub v 16 1)))))
           end
  end.

Definition spHas (sp : spilled) (h : hash) : res bool := Table.Has (table sp) h.
Definition spLen (sp : spilled) : Z := Table.Len (table sp).

(** ** Writing index objects *)

(** [estimate] bounds a pack's share of an index object. *)
Definition estimate (p : Info) : Z := 128 + 64 * zlen (IEntries p).

Record indexObject := mkIndexObject { osum : hash; opacks : list bytes; oest : Z }.
Record indexWriter := mkIndexWriter { batch : list Info; wsize : Z; sums : list hash; written : list indexObject; session : Z }.

Definition newIndexWriter (session : Z) : indexWriter := mkIndexWriter [] 0 [] [] session.

Definition flush (o : Options) (w : indexWriter) : M (env B) indexWriter :=
  if bool_decide (batch w = []) then mret w
  else
    '(salt, nonce) ← draw;
    '(name, b) ← liftR (EncodeObject salt nonce (Keys_ o) (Repo o) (batch w));
    putOnce name b ;;
    s ← liftR (indexSum name);
    mret (mkIndexWriter [] 0 (sums w ++ [s]) (written w ++ [mkIndexObject s (IName <$> batch w) (wsize w)]) (session w)).

Definition iwAdd (o : Options) (w : indexWriter) (info : Info) : M (env B) indexWriter :=
  w ← (if (0 <? zlen (batch w)) && ((MaxPacksPerObject <=? zlen (batch w)) || (maxIndexObject <? wsize w + estimate info))
       then flush o w else mret w);
  mret (mkIndexWriter (batch w ++ [info]) (wsize w + estimate info) (sums w) (written w) (session w)).

Definition iwFinish (o : Options) (w : indexWriter) : M (env B) (list hash * indexWriter) :=
  w ← flush o w;
  let s := merge_sort sum_le (sums w) in
  mret (s, mkIndexWriter (batch w) (wsize w) s (written w) (session w)).

(** [w.add] of packs in order. *)
Fixpoint iwAddAll (o : Options) (w : indexWriter) (infos : list Info) : M (env B) indexWriter :=
  match infos with
  | [] => mret w
  | info :: infos => w ← iwAdd o w info; iwAddAll o w infos
  end.

Definition condemnedPacks (m : manifest) : gset bytes :=
  foldl (fun out c => if (kind c =? condemnedPack) || (kind c =? repackedPack) then {[PackName (sum c)]} ∪ out else out) ∅ (condemneds m).

(** [mergeIndexes]: the sums of both lists, each once. *)
Definition mergeIndexes (have add : list hash) : list hash :=
  (foldl (fun '(seen, out) s => if bool_decide (s ∈ (seen : gset hash)) then (seen, out) else ({[s]} ∪ seen, out ++ [s])) (∅, []) (have ++ add)).2.

Definition containsSum (ss : list hash) (s : hash) : bool := existsb (fun x => bool_decide (x = s)) ss.

(** ** What the blob store holds after *)

Context {HBO : BlobStoreOk B} {AO : AeadOk}.

(** [e'] has everything [e] has, the same root, and perhaps more objects. *)
Definition grows (e e' : env B) : Prop :=
  blobs (bst e) ⊆ blobs (bst e') /\ broot (bst e') = broot (bst e) /\ puts e `suffix_of` puts e'.

#[export] Instance grows_preorder : PreOrder grows.
Proof. split; [intros a; by split_and!|]. intros a b c (H1 & H2 & H3) (H4 & H5 & H6). split_and!; [by etrans|congruence|by etrans]. Qed.

(** Every object put is stored with the bytes it was given: a put that found its
    name taken, and names are hashes, found those bytes. *)
Definition faithful (e : env B) : Prop := Forall (fun p => exists t, blobs (bst e) !! p.1 = Some (p.2, t)) (puts e).

Lemma faithful_put e n b : faithful e -> (n, b) ∈ puts e -> exists t, blobs (bst e) !! n = Some (b, t).
Proof. unfold faithful. rewrite Forall_forall. intros H Hi. apply (H _ Hi). Qed.

Lemma grows_puts e e' p : grows e e' -> p ∈ puts e -> p ∈ puts e'.
Proof. intros (_ & _ & [l ->]) Hp. set_solver. Qed.

Lemma grows_blob e e' n x : grows e e' -> blobs (bst e) !! n = Some x -> blobs (bst e') !! n = Some x.
Proof. intros (H & _) Hx. by eapply lookup_weaken. Qed.

Lemma CopyExact_bytes b : CopyExact (bytesReader b) (zlen b) = Ok b.
Proof.
  unfold CopyExact, bytesReader. destruct (decide (b = [])) as [->|Hb]; [done|]. cbn [copyN]. assert (0 < zlen b) by (destruct b; cbn in *; lia || done).
  rewrite (proj2 (Z.leb_gt _ _)) by lia. rewrite (proj2 (Z.leb_le _ _)) by lia. rewrite Z.sub_diag. cbn. rewrite app_nil_r, Z.eqb_refl. done.
Qed.

Lemma onBlobs_inv {A} (m : M B A) e r e' : onBlobs m e = (r, e') -> exists b, m (bst e) = (r, b) /\ e' = mkEnv b (draws e) (puts e).
Proof. unfold onBlobs. destruct (m (bst e)) as [r' b]. intros [= <- <-]. eauto. Qed.

Lemma putOnce_ok name b e r e' : putOnce name b e = (r, e') -> grows e e' /\ (name, b) ∈ puts e' /\ (forall n x t, blobs (bst e') !! n = Some (x, t) -> blobs (bst e) !! n = Some (x, t) \/ n = name).
Proof.
  unfold putOnce, putBytes, clock. unfold mbind, M_bind. cbn [bst draws puts]. destruct (onBlobs _ _) as [r0 e0] eqn:E.
  apply onBlobs_inv in E as (s & E & ->). cbn [bst draws puts] in *. apply put_law in E as [Hr Hb].
  assert (forall e1, bst e1 = s -> puts e1 = (name, b) :: puts e -> grows e e1 /\ (name, b) ∈ puts e1 /\
    (forall n x t, blobs (bst e1) !! n = Some (x, t) -> blobs (bst e) !! n = Some (x, t) \/ n = name)) as Hall.
  { intros e1 <- Hp. assert ((blobs (bst e1) = blobs (bst e)) \/ exists x t, blobs (bst e) !! name = None /\ blobs (bst e1) = <[name := (x, t)]> (blobs (bst e))) as Hcases.
    { destruct r0 as [[]|x]; [right; destruct Hb as (y & t & _ & _ & Hn & Hi); by exists y, t|]. destruct Hb as [_ [Hb|(y & t & _ & _ & Hn & Hi)]]; [by left|right; by exists y, t]. }
    split; [split_and!; [|done|rewrite Hp; by exists [(name, b)]]|split; [rewrite Hp; by left|]].
    - destruct Hcases as [->|(y & t & Hn & ->)]; [done|by apply insert_subseteq].
    - intros n y t Hn. destruct Hcases as [Hc|(z & t' & Hn' & Hc)]; rewrite Hc in Hn; [by left|]. apply lookup_insert_Some in Hn as [[-> _]|[_ Hn]]; [by right|by left]. }
  destruct r0 as [[]|x]; [|case_bool_decide]; intros [= <- <-]; by apply Hall.
Qed.

Lemma putOnce_puts name b e r e' : putOnce name b e = (r, e') -> puts e' = (name, b) :: puts e.
Proof.
  unfold putOnce, putBytes, clock. unfold mbind, M_bind. destruct (onBlobs _ _) as [r0 e0] eqn:E. apply onBlobs_inv in E as (s & _ & ->).
  destruct r0 as [[]|x]; [|case_bool_decide]; by intros [= _ <-].
Qed.

Context (o : Options).

(** The index object [s] is stored and lists [infos]. *)
Definition holdsIndex (e : env B) (s : hash) (infos : list Info) : Prop :=
  exists b t, blobs (bst e) !! indexName s = Some (b, t) /\
    DecodeObject (Keys_ o) (Repo o) (indexName s) (readLimited (Dedup.MaxObjectSize + 1) b) = Ok infos.

Lemma holdsIndex_grows e e' s infos : grows e e' -> holdsIndex e s infos -> holdsIndex e' s infos.
Proof. intros Hg (b & t & Hb & Hd). exists b, t. split; [by eapply grows_blob|done]. Qed.

Lemma holdsIndex_fun e s i1 i2 : holdsIndex e s i1 -> holdsIndex e s i2 -> i1 = i2.
Proof. intros (b & t & Hb & Hd) (b' & t' & Hb' & Hd'). rewrite Hb in Hb'. injection Hb' as <- <-. congruence. Qed.

(** What an index object lists, packs with names of their own. *)
Lemma DecodeObject_ok kr repo name b infos : DecodeObject kr repo name b = Ok infos -> object_ok infos.
Proof.
  unfold DecodeObject. destruct (negb _); [done|]. destruct (_ || _); [done|]. destruct (Fixed 4 _) as [? ?]. destruct (U16 _) as [? ?]. destruct (readHash _) as [salt ?].
  destruct (_ || _); [done|]. destruct (deriveKey kr Index repo salt) as [k|]; [|done]. cbn [mbind res_bind]. destruct (Open k _ _); [|done]. by intros [_ ?]%decodePlain_encodePlain.
Qed.

Lemma holdsIndex_ok e s infos : holdsIndex e s infos -> object_ok infos.
Proof. intros (b & t & _ & Hd). by eapply DecodeObject_ok. Qed.

Lemma loadIndex_ok s e r e' : loadIndex o s e = (r, e') -> blobs (bst e') = blobs (bst e) /\ grows e e' /\ puts e' = puts e /\ forall infos, r = Ok infos -> holdsIndex e s infos.
Proof.
  unfold loadIndex. unfold mbind, M_bind. destruct (onBlobs _ e) as [r0 e0] eqn:E. apply onBlobs_inv in E as (b & E & ->). apply get_law in E as (Hb & Hr & Hd).
  assert (forall r1, r = r1 -> e' = mkEnv b (draws e) (puts e) -> (forall infos, r1 = Ok infos -> holdsIndex e s infos) ->
    blobs (bst e') = blobs (bst e) /\ grows e e' /\ puts e' = puts e /\ forall infos, r = Ok infos -> holdsIndex e s infos) as Hdone.
  { intros r1 -> -> H. cbn [bst puts]. rewrite Hb. split_and!; [done| |done|done]. unfold grows. cbn [bst puts]. rewrite Hb. by split_and!. }
  destruct r0 as [d|x]; [|intros [= <- <-]; by eapply Hdone]. unfold liftR. intros [= <- <-]. eapply Hdone; [done|done|]. intros infos Hi.
  destruct Hd as (x & t & start & len & Hx & Hrg & ->). exists x, t. split; [done|]. unfold Range in Hrg. destruct (_ || _); [done|]. change ((0 <=? -1) && (-1 <? zlen x - 0)) with false in Hrg. injection Hrg as <- <-.
  rewrite Z.sub_0_r, Nat2Z.id, drop_0, firstn_all in Hi. destruct (DecodeObject (Keys_ o) _ _ (readLimited _ x)) in Hi |- *; congruence.
Qed.

(** ** What an index writer writes *)

(** The index object [s] was put and lists [infos]. *)
Definition putIndex (e : env B) (s : hash) (infos : list Info) : Prop :=
  exists b, (indexName s, b) ∈ puts e /\ zlen b <= Dedup.MaxObjectSize /\ DecodeObject (Keys_ o) (Repo o) (indexName s) b = Ok infos.

Lemma putIndex_grows e e' s infos : grows e e' -> putIndex e s infos -> putIndex e' s infos.
Proof. intros Hg (b & Hb & Hd). exists b. split; [by eapply grows_puts|done]. Qed.

Lemma putIndex_holds e s infos : faithful e -> putIndex e s infos -> holdsIndex e s infos.
Proof.
  intros Hf (b & Hb & Hl & Hd). destruct (faithful_put e _ _ Hf Hb) as [t Ht]. exists b, t. split; [done|]. by rewrite readLimited_all by lia.
Qed.

(** Packs that can be listed together. *)
Definition infos_ok (infos : list Info) : Prop :=
  NoDup (IName <$> infos) /\ Forall (fun p => (exists s, IName p = PackName s) /\ info_ok p) infos.

Lemma infos_ok_perm l1 l2 : l1 ≡ₚ l2 -> infos_ok l1 -> infos_ok l2.
Proof. unfold infos_ok. intros Hp. by rewrite Hp. Qed.

Lemma infos_ok_app l1 l2 : infos_ok (l1 ++ l2) -> infos_ok l1 /\ infos_ok l2.
Proof. unfold infos_ok. rewrite fmap_app, NoDup_app, Forall_app. naive_solver. Qed.

Lemma EncodeObject_name salt nonce kr repo ps name b : EncodeObject salt nonce kr repo ps = Ok (name, b) -> name = objectName b /\ zlen b <= Dedup.MaxObjectSize.
Proof.
  unfold EncodeObject. destruct (_ <? _); [done|]. destruct (encodePlain ps); [|done]. cbn [mbind res_bind]. destruct (deriveKey _ _ _ _); [|done]. cbn [mbind res_bind].
  destruct (Seal nonce _ _ _) as [[sealed|] ?]; [|done]. cbn [fst mbind res_bind]. remember (wRaw (objectHeader salt) sealed) as bl.
  destruct (Z.ltb_spec Dedup.MaxObjectSize (zlen bl)); [done|]. by intros [= <- <-].
Qed.

(** A writer that has been given [infos]. *)
Record winv (e : env B) (w : indexWriter) (zs : list (hash * list Info)) (infos : list Info) : Prop := {
  wi_sums : zs.*1 = sums w;
  wi_put : Forall (fun z => putIndex e z.1 z.2) zs;
  wi_all : concat zs.*2 ++ batch w ≡ₚ infos;
  wi_batch : zlen (batch w) <= MaxPacksPerObject;
  wi_written : Forall2 (fun obj z => osum obj = z.1 /\ opacks obj ≡ₚ IName <$> z.2) (written w) zs;
}.

Lemma new_winv e n : winv e (newIndexWriter n) [] [].
Proof. by split. Qed.

Lemma winv_grows e e' w zs infos : grows e e' -> winv e w zs infos -> winv e' w zs infos.
Proof. intros Hg [? ? ? ? ?]. split; try done. eapply Forall_impl; [done|]. intros z. by apply putIndex_grows. Qed.

Lemma iwFlush_ok w e w' e' zs infos : flush o w e = (Ok w', e') -> winv e w zs infos -> infos_ok infos ->
  grows e e' /\ batch w' = [] /\ session w' = session w /\ exists zs', winv e' w' zs' infos.
Proof.
  intros Hf Hw Hok. unfold flush in Hf. case_bool_decide as Hb.
  { injection Hf as <- <-. split_and!; [done|done|done|]. by exists zs. }
  unfold draw in Hf. unfold mbind, M_bind in Hf. cbn in Hf. destruct (rand (draws e)) as [salt nonce] eqn:Er. cbn in Hf.
  pose proof (nonce_size (draws e)) as Hn. rewrite Er in Hn. cbn in Hn.
  destruct (EncodeObject salt nonce (Keys_ o) (Repo o) (batch w)) as [[name b]|x] eqn:Ee; [|done]. cbn in Hf.
  destruct (putOnce name b _) as [[u|x] e1] eqn:Ep; [|done]. apply putOnce_ok in Ep as (Hg & Hin & _). unfold liftR in Hf.
  destruct (EncodeObject_name _ _ _ _ _ _ _ Ee) as [-> Hlen]. change (objectName b) with (indexName (Sum b)) in *. rewrite indexSum_name in Hf. injection Hf as <- <-.
  pose proof Hok as Hok'. eapply infos_ok_perm in Hok'; [|symmetry; apply Hw]. apply infos_ok_app in Hok' as [_ [Hd Hall]].
  destruct (DecodeObject_Encode (Keys_ o) (Repo o) salt nonce (batch w) (indexName (Sum b)) b) as (ps & Hdec & Hps); [split_and!; [apply Hw|done|done]|done|done|].
  assert (grows e e1) as Hg' by (etrans; [|exact Hg]; by split_and!). split_and!; [done|done|done|]. exists (zs ++ [(Sum b, ps)]). split; cbn [sums batch written].
  - rewrite fmap_app, (wi_sums _ _ _ _ Hw). done.
  - apply Forall_app. split; [eapply Forall_impl; [apply Hw|]; intros z; by apply putIndex_grows|]. constructor; [|done]. exists b. by split_and!.
  - rewrite fmap_app, concat_app. cbn. rewrite !app_nil_r, Hps. apply Hw.
  - done.
  - apply Forall2_app; [apply Hw|]. constructor; [|done]. cbn. by rewrite Hps.
Qed.

Lemma iwAdd_ok w info e w' e' zs infos : iwAdd o w info e = (Ok w', e') -> winv e w zs infos -> infos_ok (infos ++ [info]) ->
  grows e e' /\ session w' = session w /\ exists zs', winv e' w' zs' (infos ++ [info]).
Proof.
  intros Ha Hw Hok. pose proof (proj1 (infos_ok_app _ _ Hok)) as Hok1. unfold iwAdd in Ha. apply M_bind_Ok in Ha as (w1 & e1 & H1 & H2). injection H2 as <- <-.
  assert (grows e e1 /\ session w1 = session w /\ exists zs', winv e1 w1 zs' infos /\ zlen (batch w1) < MaxPacksPerObject) as (Hg & Hse & zs' & Hw1 & Hlt).
  { destruct (_ && _) eqn:Ec.
    - destruct (iwFlush_ok _ _ _ _ _ _ H1 Hw Hok1) as (Hg & Hb & Hse & zs' & Hw1). split_and!; [done|done|]. exists zs'. split; [done|]. by rewrite Hb.
    - injection H1 as <- <-. split_and!; [done|done|]. exists zs. split; [done|]. apply andb_false_iff in Ec as [Ec|Ec].
      + apply Z.ltb_ge in Ec. unfold MaxPacksPerObject. lia.
      + apply orb_false_iff in Ec as [Ec%Z.leb_gt _]. done. }
  split_and!; [done|done|]. exists zs'. split; cbn [sums batch written]; [apply Hw1|apply Hw1| | |apply Hw1].
  - rewrite app_assoc. apply Permutation_app; [apply Hw1|done].
  - rewrite length_app. cbn. lia.
Qed.

Lemma iwAddAll_ok infos : forall w e w' e' zs done, iwAddAll o w infos e = (Ok w', e') -> winv e w zs done -> infos_ok (done ++ infos) ->
  grows e e' /\ session w' = session w /\ exists zs', winv e' w' zs' (done ++ infos).
Proof.
  induction infos as [|info infos IH]; intros w e w' e' zs dn Ha Hw Hok; cbn [iwAddAll] in Ha.
  - injection Ha as <- <-. split_and!; [done|done|]. exists zs. by rewrite app_nil_r.
  - apply M_bind_Ok in Ha as (w1 & e1 & H1 & H2). change (dn ++ info :: infos) with (dn ++ [info] ++ infos) in Hok. rewrite app_assoc in Hok.
    destruct (iwAdd_ok _ _ _ _ _ _ _ H1 Hw (proj1 (infos_ok_app _ _ Hok))) as (Hg & Hse & zs' & Hw1).
    destruct (IH _ _ _ _ _ _ H2 Hw1 Hok) as (Hg2 & Hse2 & zs2 & Hw2). split_and!; [by etrans|congruence|]. exists zs2. by rewrite <-app_assoc in Hw2.
Qed.

(** The index objects of a manifest and the packs they list, in order. *)
Definition listsPacks (e : env B) (idx : list hash) (infos : list Info) : Prop := exists gs, Forall2 (holdsIndex e) idx gs /\ infos = concat gs.

Lemma concat_perm {A} (l1 l2 : list (list A)) : l1 ≡ₚ l2 -> concat l1 ≡ₚ concat l2.
Proof. induction 1 as [|x l1 l2 _ IH|x y l|l1 l2 l3 _ IH1 _ IH2]; cbn; [done|by rewrite IH|by rewrite !app_assoc, (Permutation_app_comm x)|by etrans]. Qed.

Lemma listsPacks_put e zs ss : faithful e -> Forall (fun z => putIndex e z.1 z.2) zs -> ss ≡ₚ zs.*1 -> exists infos, infos ≡ₚ concat zs.*2 /\ listsPacks e ss infos.
Proof.
  intros Hf Hput Hp. apply Permutation_map_inv in Hp as (zs2 & -> & Hp). exists (concat zs2.*2). split; [apply concat_perm; by rewrite Hp|].
  exists zs2.*2. split; [|done]. rewrite Hp in Hput. clear -Hf Hput HBO. induction Hput as [|z zs2 Hz _ IH]; cbn; constructor; [by apply putIndex_holds|done].
Qed.

Lemma iwFinish_ok w e ss w' e' zs infos : iwFinish o w e = (Ok (ss, w'), e') -> winv e w zs infos -> infos_ok infos ->
  grows e e' /\ StronglySorted sum_le ss /\ session w' = session w /\
  exists zs', ss ≡ₚ zs'.*1 /\ Forall (fun z => putIndex e' z.1 z.2) zs' /\ concat zs'.*2 ≡ₚ infos /\
    Forall2 (fun obj z => osum obj = z.1 /\ opacks obj ≡ₚ IName <$> z.2) (written w') zs'.
Proof.
  intros Hf Hw Hok. unfold iwFinish in Hf. apply M_bind_Ok in Hf as (w1 & e1 & H1 & H2). injection H2 as <- <- <-.
  destruct (iwFlush_ok _ _ _ _ _ _ H1 Hw Hok) as (Hg & Hb & Hse & zs1 & Hw1). split; [done|]. split; [apply StronglySorted_merge_sort; apply _|]. split; [done|].
  exists zs1. split_and!; [rewrite (wi_sums _ _ _ _ Hw1); apply merge_sort_Permutation|apply Hw1| |apply Hw1].
  pose proof (wi_all _ _ _ _ Hw1) as Hall. by rewrite Hb, app_nil_r in Hall.
Qed.
End Index.
