(* ===== verification/GcRound.v ===== *)
(** * core/chunk/packstore: a collection's round

    [Begin] reads a manifest and the packs its index objects list; [Apply]
    decides against a set of live chunks which packs to condemn, reprieve,
    repack and expire, writes the new index objects and swaps the manifest. *)

From S2P Require Import Prelude GoStd Wire Hash ChunkStore Blob Table Seal Manifest Pack Dedup PsIndex.

Definition DefaultBudget : Z := 2 ^ 30.
(** [time.Hour] in nanoseconds. *)
Definition recheckAfter : Z := 3600 * 10 ^ 9.

(** 64-bit subtraction of times. *)
Definition sub64 (a b : Z) : Z := i64 (u64 (a - b)).

(** The set of chunks marked: [lEach] is the order [Each] visits them in. *)
Record Live := mkLive { lHas : hash -> res bool; lLen : Z; lEach : res (list hash) }.

Record packSummary := mkPackSummary { psname : bytes; pssalt : Salt; pssize : Z; psentries : Z; psobject : hash }.

Record Outcome := mkOutcome {
  oCondemned : Z; oReprieved : Z; oExpired : list bytes; oNamed : gset bytes; oOrphans : list bytes; oRepacked : Z; oCopied : Z }.

Definition noOutcome : Outcome := mkOutcome 0 0 [] ∅ [] 0 0.

Section Round.
Context {HH : Hasher} {HA : Aead} {HZ : Zstd} {FL : Float64} {B : Type} {HB : BlobStore B} {HD : Draws}.
Context (o : Options).

Record Repack := mkRepack { MaxLive : f64; Budget : Z; Off : bool }.

Record Round := mkRound { rman : manifest; rver : Version; rpacks : list packSummary; rindex : option spilled; rorphans : list bytes; rrepack : Repack }.

Definition SetRepack (r : Round) (p : Repack) : Round := mkRound (rman r) (rver r) (rpacks r) (rindex r) (rorphans r) p.
Definition Orphans (r : Round) (names : list bytes) : Round := mkRound (rman r) (rver r) (rpacks r) (rindex r) names (rrepack r).
Definition RoundRoot (r : Round) : hash := mroot (rman r).
Definition RoundClose (r : Round) : Round := mkRound (rman r) (rver r) (rpacks r) None (rorphans r) (rrepack r).

Definition resolved (p : Repack) : res Repack :=
  let p := mkRepack (if feqb (MaxLive p) f0 then fhalf else MaxLive p) (if Budget p =? 0 then DefaultBudget else Budget p) (Off p) in
  if fltb (MaxLive p) f0 || fltb f1 (MaxLive p) || (Budget p <? 0) then Err (EMsg "packstore: repack policy") else Ok p.

(** ** Begin *)

(** The packs indexed so far: the table being built, summaries, references and
    the names seen. *)
Record loading := mkLoading { lb : Builder; lpacks : list packSummary; lrefs : list packRef; lseen : gset bytes }.

Definition loadAdd (l : loading) (object : hash) (info : Info) : res loading :=
  s ← PackSum (IName info);
  let pi := zlen (lpacks l) in
  let '(r, b) := addAll ((fun e => (EHash e, encodeLoc pi e)) <$> IEntries info) (lb l) in
  _ ← r;
  Ok (mkLoading b (lpacks l ++ [mkPackSummary (IName info) (ISalt info) (ISize info) (zlen (IEntries info)) object])
        (lrefs l ++ [mkPRef s (ISalt info) (ISize info)]) ({[IName info]} ∪ lseen l)).

(** An object in the first pass: its packs in service, and whether it lists
    others. *)
Fixpoint loadService (cond : gset bytes) (object : hash) (infos : list Info) (l : loading) (listsCondemned : bool) : res (loading * bool) :=
  match infos with
  | [] => Ok (l, listsCondemned)
  | info :: infos =>
      if bool_decide (IName info ∈ lseen l) then loadService cond object infos l listsCondemned
      else if bool_decide (IName info ∈ cond) then loadService cond object infos l true
      else l ← loadAdd l object info; loadService cond object infos l listsCondemned
  end.

Fixpoint loadRest (object : hash) (infos : list Info) (l : loading) : res loading :=
  match infos with
  | [] => Ok l
  | info :: infos =>
      if bool_decide (IName info ∈ lseen l) then loadRest object infos l
      else l ← loadAdd l object info; loadRest object infos l
  end.

Fixpoint loadFirst (cond : gset bytes) (idx : list hash) (l : loading) (later : list hash) : M (env B) (loading * list hash) :=
  match idx with
  | [] => mret (l, later)
  | s :: idx =>
      infos ← loadIndex o s;
      '(l, listsCondemned) ← liftR (loadService cond s infos l false);
      loadFirst cond idx l (if listsCondemned : bool then later ++ [s] else later)
  end.

Fixpoint loadLater (idx : list hash) (l : loading) : M (env B) loading :=
  match idx with
  | [] => mret l
  | s :: idx =>
      infos ← loadIndex o s;
      l ← liftR (loadRest s infos l);
      loadLater idx l
  end.

Definition load (man : manifest) : M (env B) (list packSummary * spilled) :=
  b ← liftR (NewBuilder locLen);
  '(l, later) ← loadFirst (condemnedPacks man) (Manifest.indexes man) (mkLoading b [] [] ∅) [];
  l ← loadLater later l;
  let '(r, _) := Table.Finish (lb l) in
  t ← liftR r;
  mret (lpacks l, mkSpilled t (lrefs l) ∅).

(** [zero] is the policy a round starts with. *)
Definition Begin (zero : Repack) : M (env B) Round :=
  root ← onBlobs bRoot;
  if bool_decide (RVersion root = NoVersion) then mret (mkRound zeroManifest NoVersion [] None [] zero)
  else
    man ← liftR (openManifest (Value root) (Keys_ o) (Repo o));
    '(packs, index) ← load man;
    mret (mkRound man (RVersion root) packs (Some index) [] zero).

(** ** Which packs have live chunks *)

(** The record the cursor is at, and the cursor past it. *)
Abbreviation place := (option (hash * bytes) * Cursor)%type.

Definition advance (p : place) : res place := Next p.2.

(** Records before [l] are passed over. *)
Fixpoint joinSkip (fuel : nat) (l : hash) (p : place) : res place :=
  match p.1 with
  | Some (h, _) =>
      match Compare h l with
      | Lt => match fuel with O => Err (EMsg "fuel") | S fuel => p ← advance p; joinSkip fuel l p end
      | _ => Ok p
      end
  | None => Ok p
  end.

Definition countPack (n : nat) (v : bytes) (st : list Z * list Z) : res (list Z * list Z) :=
  if negb (zlen v =? locLen) then Err ChunkCorrupt
  else
    let pi := locPack v in
    if Z.of_nat n <=? pi then Err ChunkCorrupt
    else Ok (alter (fun c => c + 1) (Z.to_nat pi) st.1, alter (fun c => c + le_dec (sub v 8 4)) (Z.to_nat pi) st.2).

Fixpoint joinEach (n : nat) (live : list hash) (p : place) (st : list Z * list Z) : res (list Z * list Z) :=
  match live with
  | [] => Ok st
  | l :: live =>
      p ← joinSkip (Z.to_nat (cleft p.2) + 1) l p;
      match p.1 with
      | Some (h, v) =>
          if bool_decide (h = l) then
            st ← countPack n v st;
            p ← advance p;
            joinEach n live p st
          else joinEach n live p st
      | None => joinEach n live p st
      end
  end.

Definition join (r : Round) (live : Live) : res (list Z * list Z) :=
  let n := length (rpacks r) in
  let zeros := (replicate n 0, replicate n 0) in
  match rindex r with
  | None => Ok zeros
  | Some sp =>
      p ← Next (newCursor (table sp));
      ls ← lEach live;
      joinEach n ls p zeros
  end.

Definition creditedTo (r : Round) (h : hash) (pi : nat) : res bool :=
  match rindex r with
  | None => Err GoPanic
  | Some sp =>
      v ← Table.Lookup (table sp) h;
      match v with
      | None => Ok false
      | Some v => if negb (zlen v =? locLen) then Err ChunkCorrupt else Ok (locPack v =? u32 (Z.of_nat pi))
      end
  end.

(** ** What the condemned list says *)

Definition orphanName (c : condemned) : bytes := if kind c =? deletedPack then PackName (sum c) else indexName (sum c).

Definition deletion (name : bytes) (at_ : Z) : option condemned :=
  match PackSum name with
  | Ok s => Some (mkCondemned deletedPack s at_)
  | Err _ => match indexSum name with
             | Ok s => Some (mkCondemned deletedIndex s at_)
             | Err _ => None
             end
  end.

Definition expired (at_ grace : Z) (c : condemned) : bool := grace <=? sub64 at_ (at_ns c).

Record listed := mkListed {
  dpacks : gmap bytes condemned; drepacked : gmap bytes condemned; dnext : list condemned; drecorded : gset bytes; dlapsed : Z; dexpired : list bytes }.

Definition readCondemned (at_ grace : Z) (d : listed) (c : condemned) : listed :=
  if kind c =? condemnedPack then mkListed (<[PackName (sum c) := c]> (dpacks d)) (drepacked d) (dnext d) (drecorded d) (dlapsed d) (dexpired d)
  else if kind c =? repackedPack then mkListed (dpacks d) (<[PackName (sum c) := c]> (drepacked d)) (dnext d) (drecorded d) (dlapsed d) (dexpired d)
  else if (kind c =? deletedPack) || (kind c =? deletedIndex) then
    if i64 (u64 (grace + recheckAfter)) <=? sub64 at_ (at_ns c) then mkListed (dpacks d) (drepacked d) (dnext d) (drecorded d) (dlapsed d + 1) (dexpired d)
    else mkListed (dpacks d) (drepacked d) (dnext d ++ [c]) ({[orphanName c]} ∪ drecorded d) (dlapsed d) (dexpired d)
  else if expired at_ grace c then mkListed (dpacks d) (drepacked d) (dnext d) (drecorded d) (dlapsed d) (dexpired d ++ [indexName (sum c)])
  else mkListed (dpacks d) (drepacked d) (dnext d ++ [c]) (drecorded d) (dlapsed d) (dexpired d).

Definition readCondemneds (at_ grace : Z) (man : manifest) : listed :=
  foldl (readCondemned at_ grace) (mkListed ∅ ∅ [] ∅ 0 []) (condemneds man).

(** ** What becomes of each pack *)

Record candidate := mkCandidate { ci : nat; cshare : f64; clive : Z }.

Record decided := mkDecided {
  xkeep : gset bytes; xcands : list candidate; xgone : Z; xnext : list condemned; xexpired : list bytes; xreprieved : Z; xcondemned : Z }.

Definition decidePack (at_ grace : Z) (policy : Repack) (packs repacked : gmap bytes condemned) (counts frames : list Z) (i : nat) (p : packSummary) (x : decided) : res decided :=
  let keep := {[psname p]} ∪ xkeep x in
  match repacked !! psname p with
  | Some c =>
      if expired at_ grace c then Ok (mkDecided (xkeep x) (xcands x) (xgone x + 1) (xnext x) (xexpired x ++ [psname p]) (xreprieved x) (xcondemned x))
      else Ok (mkDecided keep (xcands x) (xgone x) (xnext x ++ [c]) (xexpired x) (xreprieved x) (xcondemned x))
  | None =>
      let was := packs !! psname p in
      let live := default 0 (counts !! i) in
      let bytes := default 0 (frames !! i) in
      if 0 <? live then
        let share := quot bytes (pssize p) in
        let cands := if negb (Off policy) && (live <? psentries p) && fltb share (MaxLive policy) then xcands x ++ [mkCandidate i share bytes] else xcands x in
        Ok (mkDecided keep cands (xgone x) (xnext x) (xexpired x) (match was with Some _ => xreprieved x + 1 | None => xreprieved x end) (xcondemned x))
      else match was with
           | Some c =>
               if expired at_ grace c then Ok (mkDecided (xkeep x) (xcands x) (xgone x + 1) (xnext x) (xexpired x ++ [psname p]) (xreprieved x) (xcondemned x))
               else Ok (mkDecided keep (xcands x) (xgone x) (xnext x ++ [c]) (xexpired x) (xreprieved x) (xcondemned x))
           | None =>
               if zlen (xnext x) <? maxCondemned / 2 then
                 s ← PackSum (psname p);
                 Ok (mkDecided keep (xcands x) (xgone x) (xnext x ++ [mkCondemned condemnedPack s at_]) (xexpired x) (xreprieved x) (xcondemned x + 1))
               else Ok (mkDecided keep (xcands x) (xgone x) (xnext x) (xexpired x) (xreprieved x) (xcondemned x))
           end
  end.

Fixpoint decidePacks (at_ grace : Z) (policy : Repack) (packs repacked : gmap bytes condemned) (counts frames : list Z) (i : nat) (ps : list packSummary) (x : decided) : res decided :=
  match ps with
  | [] => Ok x
  | p :: ps =>
      x ← decidePack at_ grace policy packs repacked counts frames i p x;
      decidePacks at_ grace policy packs repacked counts frames (S i) ps x
  end.

(** ** Repacking *)

Definition packInfo (p : packSummary) : M (env B) Info :=
  infos ← loadIndex o (psobject p);
  liftR (match List.find (fun info => bool_decide (IName info = psname p)) infos with
         | Some info => Ok info
         | None => Err ChunkCorrupt
         end).

(** A pack being streamed: the bytes not yet read, its size and how far it is. *)
Record packBody := mkPackBody { pbr : bytes; pbsize : Z; pbat : Z }.

Definition bodyFrame (e : Entry) (b : packBody) : res (bytes * packBody) :=
  let off := Offset e in
  let end_ := Offset e + StoredLen e in
  if (off <? pbat b) || (pbsize b <? end_) then Err ChunkCorrupt
  else
    let rest := drop (Z.to_nat (off - pbat b)) (pbr b) in
    if zlen (pbr b) <? off - pbat b then Err ChunkCorrupt
    else if zlen rest <? StoredLen e then Err ChunkCorrupt
    else Ok (take (Z.to_nat (StoredLen e)) rest, mkPackBody (drop (Z.to_nat (StoredLen e)) rest) (pbsize b) end_).

Definition bodyFinish (b : packBody) : res unit :=
  let n := Z.min (zlen (pbr b)) (pbsize b - pbat b + 1) in
  if negb (pbat b + n =? pbsize b) then Err ChunkCorrupt else Ok tt.

(** The writer live chunks are copied to, the packs finished so far, and the
    bytes of frames copied. *)
Record copying := mkCopying { cw : option Writer; cfresh : list Info; ccopied : Z }.

Definition copySize : Z := if PackSize o =? 0 then DefaultPackSize else PackSize o.

(** [expect], the buffer's first capacity, is what is left to copy. *)
Definition newCopyWriter (toCopy : Z) (c : copying) : M (env B) Writer :=
  '(salt, _) ← draw;
  liftR (NewWriterSized salt (Keys_ o) (Repo o) copySize (Z.min copySize (toCopy - ccopied c))).

Definition copyFinish (c : copying) : M (env B) copying :=
  match cw c with
  | None => mret c
  | Some w =>
      if Count w =? 0 then mret c
      else
        '(_, nonce) ← draw;
        b ← liftR (Pack.Finish nonce w).1;
        putOnce (BName b) (BBytes b) ;;
        mret (mkCopying None (cfresh c ++ [BInfo b]) (ccopied c))
  end.

(** [w.Add] *)
Definition copyAdd (e : Entry) (data : bytes) (w : Writer) : M (env B) (res unit * Writer) :=
  '(_, nonce) ← draw;
  mret (Pack.Add nonce (EHash e) data w).

Definition copyFrame (toCopy : Z) (keys : Keys) (e : Entry) (st : copying * packBody) : M (env B) (copying * packBody) :=
  let '(c, body) := st in
  '(frame, body) ← liftR (bodyFrame e body);
  data ← liftR (match OpenFrame keys e frame with Err _ => Err ChunkCorrupt | Ok d => Ok d end);
  w ← (match cw c with None => newCopyWriter toCopy c | Some w => mret w end);
  '(r, w) ← copyAdd e data w;
  '(r, w, fresh) ← (match r with
    | Err x =>
        if bool_decide (x = PackFull) then
          c' ← copyFinish (mkCopying (Some w) (cfresh c) (ccopied c));
          w ← newCopyWriter toCopy c';
          '(r, w) ← copyAdd e data w;
          mret (r, w, cfresh c')
        else mret (r, w, cfresh c)
    | Ok _ => mret (r, w, cfresh c)
    end);
  _ ← liftR r;
  mret (mkCopying (Some w) fresh (ccopied c + StoredLen e), body).

Fixpoint copyFrames (toCopy : Z) (keys : Keys) (es : list Entry) (st : copying * packBody) : M (env B) (copying * packBody) :=
  match es with
  | [] => mret st
  | e :: es => st ← copyFrame toCopy keys e st; copyFrames toCopy keys es st
  end.

(** The entries of a pack that are live and credited to it. *)
Fixpoint creditedLive (r : Round) (live : Live) (pi : nat) (es : list Entry) : res (list Entry) :=
  match es with
  | [] => Ok []
  | e :: es =>
      credited ← creditedTo r (EHash e) pi;
      if negb credited then creditedLive r live pi es
      else
        ok ← lHas live (EHash e);
        frames ← creditedLive r live pi es;
        Ok (if ok : bool then e :: frames else frames)
  end.

Definition copyPack (r : Round) (live : Live) (toCopy : Z) (cand : candidate) (c : copying) : M (env B) copying :=
  p ← liftR (match rpacks r !! ci cand with Some p => Ok p | None => Err GoPanic end);
  info ← packInfo p;
  frames ← liftR (creditedLive r live (ci cand) (IEntries info));
  let frames := merge_sort offset_le frames in
  keys ← liftR (DeriveKeys (Keys_ o) (Repo o) (ISalt info));
  b ← onBlobs (bGet (IName info) 0 (-1));
  '(c, body) ← copyFrames toCopy keys frames (c, mkPackBody b (ISize info) 0);
  _ ← liftR (bodyFinish body);
  mret c.

(** Candidates until the budget is spent; how many were repacked. *)
Fixpoint copyPacks (r : Round) (live : Live) (budget toCopy : Z) (cands : list candidate) (c : copying) (n : Z) : M (env B) (copying * Z) :=
  match cands with
  | [] => mret (c, n)
  | cand :: cands =>
      if budget <=? ccopied c then mret (c, n)
      else
        c ← copyPack r live toCopy cand c;
        copyPacks r live budget toCopy cands c (n + 1)
  end.

(** Emptiest first, then by name. *)
Definition candName (r : Round) (c : candidate) : bytes := default [] (psname <$> rpacks r !! ci c).
Definition candLess (r : Round) (a b : candidate) : bool :=
  if negb (feqb (cshare a) (cshare b)) then fltb (cshare a) (cshare b) else bltb (candName r a) (candName r b).
Definition cand_le (r : Round) (a b : candidate) : Prop := candLess r b a = false.

#[export] Instance cand_le_dec r a b : Decision (cand_le r a b).
Proof. unfold cand_le. apply _. Defined.

(** The candidates sorted, the fresh packs, the packs repacked, the bytes copied. *)
Definition copyLive (r : Round) (live : Live) (budget : Z) (cands : list candidate) : M (env B) (list candidate * list Info * Z * Z) :=
  let cands := merge_sort (cand_le r) cands in
  let toCopy := foldl (fun n c => n + clive c) 0 cands in
  '(c, n) ← copyPacks r live budget toCopy cands (mkCopying None [] 0) 0;
  c ← copyFinish c;
  mret (cands, cfresh c, n, ccopied c).

(** ** The new index objects *)

Fixpoint keptInfos (keep written : gset bytes) (infos : list Info) : list Info * gset bytes :=
  match infos with
  | [] => ([], written)
  | info :: infos =>
      if bool_decide (IName info ∈ keep) && negb (bool_decide (IName info ∈ written))
      then let '(l, written) := keptInfos keep ({[IName info]} ∪ written) infos in (info :: l, written)
      else keptInfos keep written infos
  end.

Fixpoint writeKept (keep written : gset bytes) (idx : list hash) (w : indexWriter) : M (env B) indexWriter :=
  match idx with
  | [] => mret w
  | s :: idx =>
      infos ← loadIndex o s;
      let '(kept, written) := keptInfos keep written infos in
      w ← iwAddAll o w kept;
      writeKept keep written idx w
  end.

Definition writeIndexes (man : manifest) (keep : gset bytes) (fresh : list Info) : M (env B) (list hash) :=
  w ← writeKept keep ∅ (Manifest.indexes man) (newIndexWriter 0);
  w ← iwAddAll o w fresh;
  '(ss, _) ← iwFinish o w;
  mret ss.

(** ** Apply *)

(** The records of what was repacked. *)
Fixpoint repackRecords (r : Round) (at_ : Z) (cands : list candidate) : res (list condemned) :=
  match cands with
  | [] => Ok []
  | c :: cands =>
      p ← (match rpacks r !! ci c with Some p => Ok p | None => Err GoPanic end);
      s ← PackSum (psname p);
      l ← repackRecords r at_ cands;
      Ok (mkCondemned repackedPack s at_ :: l)
  end.

(** Orphans not named and not expiring: the records added, what is deleted. *)
Fixpoint takeOrphans (at_ : Z) (named expiring : gset bytes) (names : list bytes) (next : list condemned) (recorded : gset bytes) (added : Z) (out : list bytes) : list condemned * Z * list bytes :=
  match names with
  | [] => (next, added, out)
  | name :: names =>
      if bool_decide (name ∈ named) || bool_decide (name ∈ expiring) then takeOrphans at_ named expiring names next recorded added out
      else match deletion name at_ with
           | Some c =>
               if bool_decide (name ∈ recorded) then takeOrphans at_ named expiring names next recorded added (out ++ [name])
               else if maxCondemned <=? zlen next then (next, added, out)
               else takeOrphans at_ named expiring names (next ++ [c]) ({[name]} ∪ recorded) (added + 1) (out ++ [name])
           | None => takeOrphans at_ named expiring names next recorded added (out ++ [name])
           end
  end.

(** The index objects after a round, rewritten when packs left or were repacked;
    the objects replaced are condemned. *)
Definition newIndexes (man : manifest) (now : Z) (changed : bool) (keep : gset bytes) (fresh : list Info) (next : list condemned) : M (env B) (list hash * Z * list condemned) :=
  if changed then
    ss ← writeIndexes man keep fresh;
    let old := List.filter (fun s => negb (containsSum ss s)) (Manifest.indexes man) in
    mret (ss, u64 (gcGen man + 1), next ++ ((fun s => mkCondemned condemnedIndex s now) <$> old))
  else mret (Manifest.indexes man, gcGen man, next).

Definition namedBy (keep : gset bytes) (fresh : list Info) (idx : list hash) (next : list condemned) : gset bytes :=
  keep ∪ list_to_set (IName <$> fresh) ∪ list_to_set (indexName <$> idx)
  ∪ list_to_set ((fun c => indexName (sum c)) <$> List.filter (fun c => kind c =? condemnedIndex) next).

(** Sealing and swapping the manifest in, if its version is still [ver]. *)
Definition swapManifest (ver : Version) (m : manifest) : M (env B) unit :=
  '(salt, nonce) ← draw;
  sealed ← liftR (seal salt nonce (Keys_ o) (Repo o) m);
  '(v, _) ← draw;
  act (fun e =>
    let '(x, e') := onBlobs (bSwapRoot (take 16 (hbytes v)) ver sealed) e in
    (match x with
     | Ok _ => Ok tt
     | Err x => Err (if bool_decide (x = BlobRootConflict) then PackstoreMoved else x)
     end, e')).

(** [now] and [grace] are in nanoseconds. *)
Definition Apply (r : Round) (live : Live) (now grace : Z) : M (env B) Outcome :=
  if bool_decide (rver r = NoVersion) then mret (mkOutcome 0 0 [] ∅ (rorphans r) 0 0)
  else
    ok ← liftR (lHas live (mroot (rman r)));
    if negb ok then fail (EMsg "packstore: the root is not in the live set")
    else
      policy ← liftR (resolved (rrepack r));
      '(counts, frames) ← liftR (join r live);
      let d := readCondemneds now grace (rman r) in
      x ← liftR (decidePacks now grace policy (dpacks d) (drepacked d) counts frames 0 (rpacks r) (mkDecided ∅ [] 0 (dnext d) (dexpired d) 0 0));
      '(cands, fresh, repacked, copied) ← copyLive r live (Budget policy) (xcands x);
      recs ← liftR (repackRecords r now (take (Z.to_nat repacked) cands));
      '(idx, gen, next) ← newIndexes (rman r) now ((0 <? xgone x) || (0 <? repacked)) (xkeep x) fresh (xnext x ++ recs);
      let named := namedBy (xkeep x) fresh idx next in
      let '(next, added, orphans) := takeOrphans now named (list_to_set (xexpired x)) (rorphans r) next (drecorded d) 0 [] in
      let out := mkOutcome (xcondemned x) (xreprieved x) (xexpired x) named orphans repacked copied in
      if (xcondemned x =? 0) && (xreprieved x =? 0) && (zlen (xexpired x) =? 0) && (added =? 0) && (dlapsed d =? 0) && (repacked =? 0) then mret out
      else
        swapManifest (rver r) (mkManifest (u64 (seq (rman r) + 1)) gen (mroot (rman r)) idx next) ;;
        mret out.
End Round.
