(* ===== verification/GcLoad.v ===== *)
(** * core/chunk/packstore: what a round knows of its packs

    The order in which [load] numbers the packs, the table it builds of their
    chunks, and [join], which counts each pack's live chunks in one pass over
    the table and the live set. *)

From S2P Require Import Prelude GoStd Wire Hash ChunkStore Blob Table Seal Manifest Pack Dedup PsIndex GcRound.

Section Load.
Context {HH : Hasher} {HA : Aead} {B : Type} {HB : BlobStore B} {HBO : BlobStoreOk B} {AO : AeadOk} (o : Options).

(** ** The packs in the order a round numbers them *)

(** Each with the index object that lists it. *)
Abbreviation order := (list (Info * hash)).

Definition names (ord : order) : list bytes := (fun x => IName x.1) <$> ord.

Definition summaryOf (x : Info * hash) : packSummary := mkPackSummary (IName x.1) (ISalt x.1) (ISize x.1) (zlen (IEntries x.1)) x.2.

(** The records of the packs' entries, the first pack numbered [i]. *)
Fixpoint locs (i : nat) (ord : order) : list (hash * bytes) :=
  match ord with
  | [] => []
  | x :: ord => ((fun e => (EHash e, encodeLoc (Z.of_nat i) e)) <$> IEntries x.1) ++ locs (S i) ord
  end.

Lemma locs_app a : forall i b, locs i (a ++ b) = locs i a ++ locs (i + length a) b.
Proof. induction a as [|x a IH]; intros i b; cbn [locs app length]; [by rewrite Nat.add_0_r|]. rewrite IH, <-app_assoc. do 3 f_equal. lia. Qed.

(** The pack a chunk is credited to, the first that has it, and its entry there. *)
Fixpoint creditOf (i : nat) (ord : order) (h : hash) : option (nat * Entry) :=
  match ord with
  | [] => None
  | x :: ord => match entryOf h (IEntries x.1) with Some e => Some (i, e) | None => creditOf (S i) ord h end
  end.

Lemma creditOf_Some ord h : forall i j e, creditOf i ord h = Some (j, e) ->
  (i <= j)%nat /\ exists x, ord !! (j - i)%nat = Some x /\ e ∈ IEntries x.1 /\ EHash e = h /\
    forall k y e', (k < j - i)%nat -> ord !! k = Some y -> e' ∈ IEntries y.1 -> EHash e' <> h.
Proof.
  induction ord as [|x ord IH]; intros i j e; cbn [creditOf]; [done|]. destruct (entryOf h (IEntries x.1)) as [e'|] eqn:E.
  - intros [= <- <-]. apply entryOf_hash in E as [He Hh]. split; [lia|]. exists x. rewrite Nat.sub_diag. split_and!; [done..|]. intros k; lia.
  - intros (Hle & y & Hy & He & Hh & Hb)%IH. split; [lia|]. exists y. replace (j - i)%nat with (S (j - S i)) by lia. split_and!; [done..|].
    intros [|k] z e'; cbn.
    + intros _ [= ->] Hi Hn. apply list_elem_of_In in Hi. pose proof (List.find_none _ _ E e' Hi) as Hf. cbn in Hf. by apply bool_decide_eq_false in Hf.
    + intros Hk. apply Hb. lia.
Qed.

Lemma creditOf_None ord h : forall i, creditOf i ord h = None -> forall x e, x ∈ ord -> e ∈ IEntries x.1 -> EHash e <> h.
Proof.
  induction ord as [|x ord IH]; intros i; cbn [creditOf]; [by intros _ ? ? ?%elem_of_nil|]. destruct (entryOf h (IEntries x.1)) as [e'|] eqn:E; [done|].
  intros Hc y e [->|Hy]%elem_of_cons He Hh; [|by eapply IH]. apply list_elem_of_In in He. pose proof (List.find_none _ _ E e He) as Hf. cbn in Hf. by apply bool_decide_eq_false in Hf.
Qed.

Lemma encodeLoc_length i e : zlen (encodeLoc i e) = locLen.
Proof. unfold encodeLoc. rewrite !length_app, !length_encU32, length_encU8. done. Qed.

Lemma klookup_entries i h es : snd <$> klookup kvkey (hbytes h) ((fun e => (EHash e, encodeLoc i e)) <$> es) = encodeLoc i <$> entryOf h es.
Proof.
  induction es as [|e es IH]; [done|]. cbn [fmap list_fmap]. rewrite klookup_cons. unfold kvkey at 1. cbn [fst]. unfold entryOf. cbn [List.find]. case_decide as Hd; case_bool_decide as Hb.
  - done.
  - by destruct Hb; apply hash_eq.
  - by destruct Hd; rewrite Hb.
  - exact IH.
Qed.

Lemma klookup_locs ord h : forall i, snd <$> klookup kvkey (hbytes h) (locs i ord) = (fun c => encodeLoc (Z.of_nat c.1) c.2) <$> creditOf i ord h.
Proof.
  induction ord as [|x ord IH]; intros i; [done|]. cbn [locs creditOf]. rewrite klookup_app. pose proof (klookup_entries (Z.of_nat i) h (IEntries x.1)) as He.
  destruct (klookup kvkey (hbytes h) ((fun e => _) <$> IEntries x.1)), (entryOf h (IEntries x.1)); cbn in He |- *; done || apply IH.
Qed.

(** ** Loading *)

Lemma addAll_app l1 : forall l2 b b1, addAll l1 b = (Ok tt, b1) -> addAll (l1 ++ l2) b = addAll l2 b1.
Proof.
  induction l1 as [|[h v] l1 IH]; intros l2 b b1; cbn [addAll app]; [by intros [= <-]|]. intros (u & b2 & E & E2)%M_bind_Ok.
  unfold mbind at 1, M_bind at 1. rewrite E. by apply IH.
Qed.

Record loaded (b0 : Builder) (l : loading) (ord : order) : Prop := {
  ld_add : addAll (locs 0 ord) b0 = (Ok tt, lb l);
  ld_packs : lpacks l = summaryOf <$> ord;
  ld_seen n : n ∈ lseen l <-> n ∈ names ord;
  ld_nodup : NoDup (names ord);
}.

Lemma loadAdd_loaded b0 l ord s info l' : loaded b0 l ord -> IName info ∉ lseen l -> loadAdd l s info = Ok l' -> loaded b0 l' (ord ++ [(info, s)]).
Proof.
  intros Hl Hn. unfold loadAdd. destruct (PackSum (IName info)) as [ps|]; [|done]. cbn [mbind res_bind].
  destruct (addAll _ (lb l)) as [[u|] b] eqn:Ea; [|done]. destruct u. cbn [mbind res_bind]. intros [= <-]. split; cbn [lb lpacks lseen].
  - rewrite locs_app. rewrite (addAll_app _ _ _ _ (ld_add _ _ _ Hl)). cbn [locs]. rewrite app_nil_r, Nat.add_0_l. cbn [fst]. rewrite (ld_packs _ _ _ Hl), length_fmap in Ea. exact Ea.
  - by rewrite (ld_packs _ _ _ Hl), fmap_app.
  - intros n. unfold names. rewrite fmap_app, elem_of_app, elem_of_union, elem_of_singleton. rewrite (ld_seen _ _ _ Hl). cbn. rewrite list_elem_of_singleton. unfold names. tauto.
  - unfold names. rewrite fmap_app. apply NoDup_app. split_and!; [apply Hl| |apply NoDup_singleton]. intros n Hi ->%list_elem_of_singleton. by apply Hn, (ld_seen _ _ _ Hl).
Qed.

(** The first pass adds packs in service; what it passes over is condemned and
    makes the object one of the second pass. *)
Lemma loadService_loaded b0 cond s infos : forall l ord f l' f', loaded b0 l ord -> loadService cond s infos l f = Ok (l', f') ->
  exists new, loaded b0 l' (ord ++ new) /\ (forall x, x ∈ new -> x.2 = s /\ x.1 ∈ infos /\ IName x.1 ∉ cond) /\
    (f = true -> f' = true) /\ (forall p, p ∈ infos -> IName p ∈ names (ord ++ new) \/ (IName p ∈ cond /\ f' = true)).
Proof.
  induction infos as [|info infos IH]; intros l ord f l' f' Hl; cbn [loadService].
  { intros [= <- <-]. exists []. rewrite app_nil_r. split_and!; [done|by intros x ?%elem_of_nil|done|by intros p ?%elem_of_nil]. }
  case_bool_decide as Hs; [|case_bool_decide as Hc].
  - intros (new & Hl' & Hnew & Hf & Hall)%(IH _ _ _ _ _ Hl). exists new. split_and!; [done| |done|].
    + intros x Hx. destruct (Hnew x Hx) as (? & ? & ?). split_and!; [done|by right|done].
    + intros p [->|Hp]%elem_of_cons; [|by apply Hall]. left. apply (ld_seen _ _ _ Hl) in Hs. unfold names. rewrite fmap_app. set_solver.
  - intros (new & Hl' & Hnew & Hf & Hall)%(IH _ _ _ _ _ Hl). exists new. split_and!; [done| |by intros; apply Hf|].
    + intros x Hx. destruct (Hnew x Hx) as (? & ? & ?). split_and!; [done|by right|done].
    + intros p [->|Hp]%elem_of_cons; [|by apply Hall]. right. by split; [|apply Hf].
  - intros (l1 & E & E2)%res_bind_Ok. pose proof (loadAdd_loaded _ _ _ _ _ _ Hl Hs E) as Hl1.
    destruct (IH _ _ _ _ _ Hl1 E2) as (new & Hl' & Hnew & Hf & Hall). exists ((info, s) :: new). change (ord ++ (info, s) :: new) with (ord ++ [(info, s)] ++ new). rewrite app_assoc. split_and!; [done| |done|].
    + intros x [->|Hx]%elem_of_cons; [split_and!; [done|by left|done]|]. destruct (Hnew x Hx) as (? & ? & ?). split_and!; [done|by right|done].
    + intros p [->|Hp]%elem_of_cons; [|by apply Hall]. left. unfold names. rewrite !fmap_app. cbn. set_solver.
Qed.

Lemma loadRest_loaded b0 s infos : forall l ord l', loaded b0 l ord -> loadRest s infos l = Ok l' ->
  exists new, loaded b0 l' (ord ++ new) /\ (forall x, x ∈ new -> x.2 = s /\ x.1 ∈ infos) /\ (forall p, p ∈ infos -> IName p ∈ names (ord ++ new)).
Proof.
  induction infos as [|info infos IH]; intros l ord l' Hl; cbn [loadRest].
  { intros [= <-]. exists []. rewrite app_nil_r. split_and!; [done|by intros x ?%elem_of_nil|by intros p ?%elem_of_nil]. }
  case_bool_decide as Hs.
  - intros (new & Hl' & Hnew & Hall)%(IH _ _ _ Hl). exists new. split_and!; [done| |].
    + intros x Hx. destruct (Hnew x Hx) as (? & ?). split; [done|by right].
    + intros p [->|Hp]%elem_of_cons; [|by apply Hall]. apply (ld_seen _ _ _ Hl) in Hs. unfold names. rewrite fmap_app. set_solver.
  - intros (l1 & E & E2)%res_bind_Ok. pose proof (loadAdd_loaded _ _ _ _ _ _ Hl Hs E) as Hl1.
    destruct (IH _ _ _ Hl1 E2) as (new & Hl' & Hnew & Hall). exists ((info, s) :: new). change (ord ++ (info, s) :: new) with (ord ++ [(info, s)] ++ new). rewrite app_assoc. split_and!; [done| |].
    + intros x [->|Hx]%elem_of_cons; [split; [done|by left]|]. destruct (Hnew x Hx) as (? & ?). split; [done|by right].
    + intros p [->|Hp]%elem_of_cons; [|by apply Hall]. unfold names. rewrite !fmap_app. cbn. set_solver.
Qed.

(** Nothing but reads happened between [e] and [e']. *)
Definition quiet (e e' : env B) : Prop := blobs (bst e') = blobs (bst e) /\ grows e e' /\ puts e' = puts e.

#[export] Instance quiet_preorder : PreOrder quiet.
Proof. split; [intros a; by split_and!|]. intros a b c (H1 & H2 & H3) (H4 & H5 & H6). split_and!; [congruence|by etrans|congruence]. Qed.

Lemma quiet_holds e e' s g : quiet e e' -> holdsIndex o e' s g -> holdsIndex o e s g.
Proof. intros (Hb & _) (b & t & Hl & Hd). exists b, t. by rewrite <-Hb. Qed.

(** A pack listed by one of the objects [idx]. *)
Definition listedIn (e : env B) (idx : list hash) (p : Info) (s : hash) : Prop := exists g, s ∈ idx /\ holdsIndex o e s g /\ p ∈ g.

Lemma loadFirst_ok b0 cond idx : forall l ord later e l' later' e', loaded b0 l ord -> (forall x, x ∈ ord -> IName x.1 ∉ cond) ->
  loadFirst o cond idx l later e = (Ok (l', later'), e') ->
  quiet e e' /\ exists new, loaded b0 l' (ord ++ new) /\ (forall x, x ∈ new -> listedIn e idx x.1 x.2 /\ IName x.1 ∉ cond) /\
    (forall s, s ∈ later -> s ∈ later') /\ (forall s, s ∈ later' -> s ∈ later \/ s ∈ idx) /\
    (forall p s, listedIn e idx p s -> IName p ∈ names (ord ++ new) \/ (IName p ∈ cond /\ s ∈ later')).
Proof.
  induction idx as [|s idx IH]; intros l ord later e l' later' e' Hl Hc; cbn [loadFirst].
  { intros [= <- <- <-]. split; [done|]. exists []. rewrite app_nil_r. split_and!; [done|by intros x ?%elem_of_nil|done|by left|]. intros p s (g & ?%elem_of_nil & _). done. }
  intros (infos & e1 & E1 & E)%M_bind_Ok. apply loadIndex_ok in E1 as (Hb & Hg & Hp & Hh). specialize (Hh infos eq_refl). assert (quiet e e1) as Hq by by split_and!.
  apply M_bind_Ok in E as ([l1 f] & e2 & E2 & E). unfold liftR in E2. injection E2 as E2 <-.
  destruct (loadService_loaded _ _ _ _ _ _ _ _ _ Hl E2) as (new1 & Hl1 & Hn1 & _ & Ha1).
  destruct (IH _ (ord ++ new1) _ _ _ _ _ Hl1 ltac:(intros x [?|?%Hn1]%elem_of_app; naive_solver) E) as (Hq2 & new2 & Hl2 & Hn2 & Hlater & Hlater' & Ha2).
  split; [by etrans|]. exists (new1 ++ new2). rewrite app_assoc. split_and!; [done| | | |].
  - intros x [(Hx & Hi & ?)%Hn1|((g & Hs & Hg' & Hi) & ?)%Hn2]%elem_of_app; (split; [|done]).
    + exists infos. rewrite Hx. split_and!; [by left|done|done].
    + exists g. split_and!; [by right|by eapply quiet_holds|done].
  - intros s' Hs'. apply Hlater. destruct f; set_solver.
  - intros s' [Hs'|Hs']%Hlater'; [|right; by right]. destruct f; set_solver.
  - intros p s' (g & Hs & Hg' & Hi). apply elem_of_cons in Hs as [->|Hs].
    + rewrite (holdsIndex_fun _ _ _ _ _ Hg' Hh) in Hi. destruct (Ha1 p Hi) as [Hx|[Hx ->]]; [left; unfold names in *; rewrite fmap_app; set_solver|right]. split; [done|]. apply Hlater. set_solver.
    + apply Ha2. exists g. split_and!; [done|by eapply holdsIndex_grows|done].
Qed.

Lemma loadLater_ok b0 idx : forall l ord e l' e', loaded b0 l ord -> loadLater o idx l e = (Ok l', e') ->
  quiet e e' /\ exists new, loaded b0 l' (ord ++ new) /\ (forall x, x ∈ new -> listedIn e idx x.1 x.2) /\ (forall p s, listedIn e idx p s -> IName p ∈ names (ord ++ new)).
Proof.
  induction idx as [|s idx IH]; intros l ord e l' e' Hl; cbn [loadLater].
  { intros [= <- <-]. split; [done|]. exists []. rewrite app_nil_r. split_and!; [done|by intros x ?%elem_of_nil|]. intros p s (g & ?%elem_of_nil & _). done. }
  intros (infos & e1 & E1 & E)%M_bind_Ok. apply loadIndex_ok in E1 as (Hb & Hg & Hp & Hh). specialize (Hh infos eq_refl). assert (quiet e e1) as Hq by by split_and!.
  apply M_bind_Ok in E as (l1 & e2 & E2 & E). unfold liftR in E2. injection E2 as E2 <-.
  destruct (loadRest_loaded _ _ _ _ _ _ Hl E2) as (new1 & Hl1 & Hn1 & Ha1).
  destruct (IH _ (ord ++ new1) _ _ _ Hl1 E) as (Hq2 & new2 & Hl2 & Hn2 & Ha2).
  split; [by etrans|]. exists (new1 ++ new2). rewrite app_assoc. split_and!; [done| |].
  - intros x [(Hx & Hi)%Hn1|(g & Hs & Hg' & Hi)%Hn2]%elem_of_app.
    + exists infos. rewrite Hx. split_and!; [by left|done|done].
    + exists g. split_and!; [by right|by eapply quiet_holds|done].
  - intros p s' (g & Hs & Hg' & Hi). apply elem_of_cons in Hs as [->|Hs].
    + rewrite (holdsIndex_fun _ _ _ _ _ Hg' Hh) in Hi. specialize (Ha1 p Hi). unfold names in *. rewrite fmap_app. set_solver.
    + apply (Ha2 p s'). exists g. split_and!; [done|by eapply holdsIndex_grows|done].
Qed.

(** The order of a round's packs: each listed pack once, those in service before
    the condemned and repacked. *)
Record orders (e : env B) (man : manifest) (ord : order) : Prop := {
  or_nodup : NoDup (names ord);
  or_from x : x ∈ ord -> listedIn e (Manifest.indexes man) x.1 x.2;
  or_all p s : listedIn e (Manifest.indexes man) p s -> IName p ∈ names ord;
  or_service : exists a b, ord = a ++ b /\ (forall x, x ∈ a -> IName x.1 ∉ condemnedPacks man) /\ (forall x, x ∈ b -> IName x.1 ∈ condemnedPacks man);
}.

(** What the round's table says of a chunk: where it is in the pack it is
    credited to; read in order, each chunk once. *)
Record tabled (t : Table) (ord : order) : Prop := {
  tb_lookup h : Table.Lookup t h = Ok ((fun c => encodeLoc (Z.of_nat c.1) c.2) <$> creditOf 0 ord h);
  tb_read : exists l, readAll (S (length l)) (newCursor t) = Ok l /\ ksorted kvkey l /\ forall h, snd <$> klookup kvkey (hbytes h) l = (fun c => encodeLoc (Z.of_nat c.1) c.2) <$> creditOf 0 ord h;
}.

Lemma locs_values ord : forall i, Forall (fun kv => zlen kv.2 = locLen) (locs i ord).
Proof.
  induction ord as [|x ord IH]; intros i; cbn [locs]; [done|]. apply Forall_app. split; [|done]. apply Forall_fmap, Forall_true. intros e. apply encodeLoc_length.
Qed.

Lemma locs_length ord : Forall (fun x => info_ok x.1) ord -> forall i, zlen (locs i ord) <= zlen ord * MaxChunksPerPack.
Proof.
  induction 1 as [|x ord (_ & (Hc & _) & _) _ IH]; intros i; cbn [locs length]; [done|]. rewrite length_app, length_fmap. specialize (IH (S i)). lia.
Qed.

Lemma listedIn_ok e idx p s : listedIn e idx p s -> info_ok p /\ exists x, IName p = PackName x.
Proof.
  intros (g & _ & Hg & Hi). destruct (holdsIndex_ok _ _ _ _ Hg) as (_ & _ & Hall). rewrite Forall_forall in Hall. destruct (Hall p Hi). done.
Qed.

Lemma listedIn_quiet e e' idx p s : quiet e e' -> listedIn e' idx p s -> listedIn e idx p s.
Proof. intros Hq (g & Hs & Hg & Hi). exists g. split_and!; [done|by eapply quiet_holds|done]. Qed.

Lemma listedIn_grows e e' idx p s : grows e e' -> listedIn e idx p s -> listedIn e' idx p s.
Proof. intros Hq (g & Hs & Hg & Hi). exists g. split_and!; [done|by eapply holdsIndex_grows|done]. Qed.

Lemma load_ok man e packs sp e' : load o man e = (Ok (packs, sp), e') -> 
  quiet e e' /\ exists ord, orders e man ord /\ packs = summaryOf <$> ord /\ (zlen ord < two32 -> tabled (table sp) ord).
Proof.
  unfold load. intros (b0 & e0 & E0 & E)%M_bind_Ok. unfold liftR in E0. apply pair_equal_spec in E0 as [E0 <-].
  apply M_bind_Ok in E as ([l later] & e1 & E1 & E).
  assert (loaded b0 (mkLoading b0 [] [] ∅) []) as Hl0 by (split; [done|done|set_solver|constructor]).
  destruct (loadFirst_ok _ _ _ _ _ _ _ _ _ _ Hl0 ltac:(by intros x ?%elem_of_nil) E1) as (Hq1 & a & Hl1 & Ha & _ & Hlat & Hall1).
  cbn [app] in *. apply M_bind_Ok in E as (l2 & e2 & E2 & E). destruct (loadLater_ok b0 _ _ _ _ _ _ Hl1 E2) as (Hq2 & b & Hl2 & Hb & Hall2).
  destruct (Table.Finish (lb l2)) as [rt bt] eqn:Ef. apply M_bind_Ok in E as (t & e3 & E3 & E). unfold liftR in E3. injection E3 as E3 <-. injection E as <- <- <-.
  split; [by etrans|]. exists (a ++ b). assert (forall x, x ∈ a ++ b -> listedIn e (Manifest.indexes man) x.1 x.2) as Hfrom.
  { intros x [(Hx & _)%Ha|(g & Hs & Hg & Hi)%Hb]%elem_of_app; [done|]. exists g. split_and!; [|by eapply quiet_holds|done]. destruct (Hlat _ Hs) as [?%elem_of_nil|?]; done. }
  split_and!; [|apply Hl2|].
  - split; [apply Hl2|done| |].
    + intros p s Hp. destruct (Hall1 p s Hp) as [Hx|[Hc Hs]]; [unfold names in *; rewrite fmap_app; set_solver|]. apply (Hall2 p s).
      destruct Hp as (g & _ & Hg & Hi). exists g. split_and!; [done|by eapply holdsIndex_grows; [apply Hq1|]|done].
    + exists a, b. split_and!; [done|apply Ha|]. intros x Hx. pose proof (Hfrom x ltac:(set_solver)) as Hlx. destruct (Hall1 _ _ Hlx) as [Hn|[Hc _]]; [|done]. exfalso.
      pose proof (ld_nodup _ _ _ Hl2) as Hnd. unfold names in Hnd, Hn. rewrite fmap_app in Hnd. apply NoDup_app in Hnd as (_ & Hd & _). apply (Hd _ Hn). apply list_elem_of_fmap. by exists x.
  - intros Hlen. destruct (build_table locLen defaultRunSize (locs 0 (a ++ b)) b0 E0) as (b1 & t' & b' & kvs & Ea & Ef' & Hlk & Hrd & _ & Hks & Hkl); [done|apply locs_values| |].
    { assert (Forall (fun x => info_ok x.1) (a ++ b)) as Hok by (apply Forall_forall; intros x Hx; by destruct (listedIn_ok _ _ _ _ (Hfrom x Hx))).
      pose proof (locs_length _ Hok 0). unfold MaxChunksPerPack, two32, two64 in *. lia. }
    assert (withRunSize defaultRunSize b0 = b0) as Ew by (unfold NewBuilder in E0; destruct (_ || _); [done|by injection E0 as <-]). rewrite Ew in Ea.
    pose proof (ld_add _ _ _ Hl2) as Ea'. rewrite Ea in Ea'. injection Ea' as ->. rewrite Ef in Ef'. injection Ef' as -> _. injection E3 as ->. cbn [table].
    split; [intros h; by rewrite Hlk, klookup_locs|]. exists kvs. split_and!; [done|done|]. intros h. by rewrite Hkl, klookup_locs.
Qed.

(** A pack of the order that is in service comes before one that is not. *)
Lemma orders_service e man ord i j x y : orders e man ord -> ord !! i = Some x -> ord !! j = Some y ->
  IName x.1 ∉ condemnedPacks man -> IName y.1 ∈ condemnedPacks man -> (i < j)%nat.
Proof.
  intros Ho Hi Hj Hx Hy. destruct (or_service _ _ _ Ho) as (a & b & -> & Ha & Hb). destruct (decide (i < length a)%nat) as [H|H].
  - destruct (decide (j < length a)%nat) as [H2|H2]; [|lia]. rewrite lookup_app_l in Hj by done. destruct (Ha y); [by eapply list_elem_of_lookup_2|done].
  - rewrite lookup_app_r in Hi by lia. destruct Hx. apply Hb. by eapply list_elem_of_lookup_2.
Qed.

(** ** Counting live chunks *)

(** What a live chunk adds to the counts, by looking it up. *)
Definition credit (ord : order) (st : list Z * list Z) (h : hash) : list Z * list Z :=
  match creditOf 0 ord h with
  | None => st
  | Some (i, e) => (alter (fun c => c + 1) i st.1, alter (fun c => c + StoredLen e) i st.2)
  end.

Lemma sub_encodeLoc (a b c : bytes) off n : zlen a = off -> zlen b = n -> sub (a ++ b ++ c) off n = b.
Proof. intros <- <-. unfold sub. by rewrite !Nat2Z.id, drop_app_length, take_app_length. Qed.

Lemma locPack_encodeLoc i e : 0 <= i < two32 -> locPack (encodeLoc i e) = i.
Proof.
  intros Hi. unfold locPack, encodeLoc. rewrite <-(app_nil_l (encU32 _ ++ _)), sub_encodeLoc; [|done|by rewrite length_encU32].
  unfold u32. rewrite Z.mod_small by done. by apply le_dec_U32.
Qed.

Lemma stored_encodeLoc i e : 0 <= StoredLen e < two32 -> le_dec (sub (encodeLoc i e) 8 4) = StoredLen e.
Proof.
  intros Hi. unfold encodeLoc. rewrite (app_assoc (encU32 _) (encU32 _)), sub_encodeLoc; [by apply le_dec_U32|by rewrite length_app, !length_encU32|by rewrite length_encU32].
Qed.

Lemma countPack_loc n i e st : 0 <= Z.of_nat i < two32 -> (i < n)%nat -> 0 <= StoredLen e < two32 ->
  countPack n (encodeLoc (Z.of_nat i) e) st = Ok (alter (fun c => c + 1) i st.1, alter (fun c => c + StoredLen e) i st.2).
Proof.
  intros Hi Hn He. unfold countPack. rewrite encodeLoc_length. cbn [negb]. rewrite Z.eqb_refl. cbn [negb]. rewrite locPack_encodeLoc by done.
  rewrite (proj2 (Z.leb_gt _ _)) by lia. rewrite stored_encodeLoc by done. by rewrite Nat2Z.id.
Qed.

(** The cursor is at the records [l]. *)
Definition atRecords (p : option (hash * bytes) * Cursor) (l : list (hash * bytes)) : Prop :=
  match l with
  | [] => p.1 = None
  | kv :: l => p.1 = Some kv /\ readAll (S (length l)) p.2 = Ok l /\ cleft p.2 = zlen l
  end.

Lemma readAll_left l : forall c, readAll (S (length l)) c = Ok l -> cleft c = zlen l.
Proof.
  induction l as [|kv l IH]; intros c; rewrite readAll_S; unfold Next; destruct (Z.eqb_spec (cleft c) 0) as [E|E]; cbn [mbind res_bind]; try done; (destruct (_ <? _); [done|]); cbn [mbind res_bind].
  - by intros ([|] & _ & [=])%res_bind_Ok.
  - intros (l' & E' & [= _ ->])%res_bind_Ok. apply IH in E'. cbn [cleft] in E'. cbn [length]. lia.
Qed.

Lemma next_records c l : readAll (S (length l)) c = Ok l -> exists p, Next c = Ok p /\ atRecords p l.
Proof.
  intros H. pose proof (readAll_left _ _ H) as Hc. rewrite readAll_S in H. destruct (Next c) as [[kv c']|] eqn:E; [|done]. cbn [mbind res_bind] in H. exists (kv, c'). split; [done|].
  destruct kv as [kv|]; [|by injection H as <-]. apply res_bind_Ok in H as (l' & H & [= <-]). cbn [atRecords fst snd length] in *. split_and!; [done|done|]. by apply readAll_left.
Qed.

Lemma advance_records p kv l : atRecords p (kv :: l) -> exists p', advance p = Ok p' /\ atRecords p' l.
Proof. intros (_ & Hr & _). unfold advance. by apply next_records. Qed.

Lemma joinSkip_ok h l : forall fuel p, ksorted kvkey l -> atRecords p l -> (length l <= fuel)%nat ->
  exists p' l1 l2, joinSkip fuel h p = Ok p' /\ l = l1 ++ l2 /\ atRecords p' l2 /\ (forall x, x ∈ l1 -> kvkey x <b hbytes h) /\ (forall x, x ∈ l2 -> hbytes h <=b kvkey x).
Proof.
  induction l as [|[k v] l IH]; intros fuel p Hs Ha Hf.
  - exists p, [], []. split; [|split_and!; [done|done|by intros ? ?%elem_of_nil..]]. cbn in Ha. destruct fuel; cbn [joinSkip]; by rewrite Ha.
  - destruct fuel as [|fuel]; [cbn in Hf; lia|]. cbn [joinSkip]. pose proof Ha as (E & _). rewrite E. unfold Compare. destruct (bcompare_spec (hbytes k) (hbytes h)) as [Eh|Hlt|Hgt].
    2:{ destruct (advance_records _ _ _ Ha) as (p1 & -> & Ha1). cbn [mbind res_bind]. apply ksorted_cons in Hs as [_ Hs]. destruct (IH fuel p1 Hs Ha1 ltac:(cbn in Hf; lia)) as (p' & l1 & l2 & -> & -> & Ha2 & H1 & H2).
        exists p', ((k, v) :: l1), l2. split_and!; [done|done|done| |done]. intros x [->|Hx]%elem_of_cons; [done|by apply H1]. }
    all: exists p, [], ((k, v) :: l); split_and!; [done|done|done|by intros ? ?%elem_of_nil|]; intros x [->|Hx]%elem_of_cons; cbn; [unfold kvkey; cbn; rewrite ?Eh; border|];
      apply ksorted_cons in Hs as [Hall _]; rewrite Forall_forall in Hall; specialize (Hall x Hx); unfold kvkey at 1 in Hall; cbn in Hall; rewrite ?Eh in Hall; border.
Qed.

Lemma joinEach_ok ord ls : Forall (fun x => info_ok x.1) ord -> zlen ord < two32 -> forall l p st, ksorted hbytes ls -> ksorted kvkey l -> atRecords p l ->
  (forall h, h ∈ ls -> snd <$> klookup kvkey (hbytes h) l = (fun c => encodeLoc (Z.of_nat c.1) c.2) <$> creditOf 0 ord h) ->
  joinEach (length ord) ls p st = Ok (foldl (credit ord) st ls).
Proof.
  intros Hok Hn. induction ls as [|h ls IH]; intros l p st Hls Hl Hp Hc; [done|]. cbn [joinEach foldl]. apply ksorted_cons in Hls as [Hh Hls]. rewrite Forall_forall in Hh.
  destruct (joinSkip_ok h l (Z.to_nat (cleft p.2) + 1) p Hl Hp) as (p' & l1 & l2 & -> & -> & Hp' & H1 & H2).
  { destruct l as [|kv l]; [cbn; lia|]. destruct Hp as (_ & _ & ->). cbn. lia. }
  cbn [mbind res_bind]. pose proof (proj2 (proj2 (proj1 (ksorted_app _ _ _) Hl))) as Hl2.
  assert (forall h', h' ∈ ls -> klookup kvkey (hbytes h') (l1 ++ l2) = klookup kvkey (hbytes h') l2) as Hrest.
  { intros h' Hh'. rewrite klookup_app, klookup_below; [done|]. apply Forall_forall. intros x Hx. specialize (H1 x Hx). specialize (Hh h' Hh'). border. }
  pose proof (Hc h ltac:(by left)) as Hch. rewrite klookup_app, klookup_below in Hch by (by apply Forall_forall).
  destruct l2 as [|[k v] l2]; cbn [atRecords] in Hp'.
  { rewrite Hp'. unfold credit at 2. destruct (creditOf 0 ord h) as [[i e]|]; [done|]. eapply IH; [done|exact Hl2|done|]. intros h' Hh'. rewrite <-Hrest by done. apply Hc. by right. }
  pose proof Hp' as (-> & _). pose proof Hl2 as [Hall _]%ksorted_cons. rewrite Forall_forall in Hall. case_bool_decide as Ek.
  - subst k. rewrite klookup_cons, decide_True in Hch by done. cbn in Hch. unfold credit at 2. destruct (creditOf 0 ord h) as [[i e]|] eqn:Ec; [|done]. cbn in Hch. injection Hch as ->.
    apply creditOf_Some in Ec as (_ & x & Hx & He & _). rewrite Nat.sub_0_r in Hx. pose proof (lookup_lt_Some _ _ _ Hx) as Hi. rewrite Forall_lookup in Hok. destruct (Hok i x Hx) as (_ & (_ & _ & Hlen & _) & _).
    rewrite Forall_forall in Hlen. destruct (Hlen e He) as (Hraw & Hst & Hcodec). unfold MaxChunkSize, sealOverhead in *. rewrite countPack_loc by (unfold two32 in *; lia). cbn [mbind res_bind].
    destruct (advance_records _ _ _ Hp') as (p2 & -> & Hp2). cbn [mbind res_bind]. eapply IH; [done|by apply ksorted_cons in Hl2 as [_ ?]|done|].
    intros h' Hh'. rewrite <-(Hc h') by (by right). rewrite Hrest by done. rewrite klookup_cons, decide_False; [done|]. unfold kvkey. cbn. apply blt_ne. by apply Hh.
  - rewrite klookup_above in Hch.
    + unfold credit at 2. destruct (creditOf 0 ord h) as [[i e]|]; [done|]. eapply IH; [done|exact Hl2|done|]. intros h' Hh'. rewrite <-Hrest by done. apply Hc. by right.
    + assert (hbytes h <b hbytes k) as Hk by (pose proof (H2 (k, v) ltac:(by left)) as Hle; apply ble_lteq in Hle as [?|E]; [done|destruct Ek; by apply hash_eq]).
      apply Forall_forall. intros x [->|Hx]%elem_of_cons; [done|]. specialize (Hall x Hx). unfold kvkey at 1 in Hall. cbn in Hall. border.
Qed.

Context {FL : Float64}.

(** [join] counts for each pack the live chunks credited to it and their
    frames' bytes, as looking every live chunk up would. *)
Lemma join_ok (r : Round) (live : Live) sp ord ls : rindex r = Some sp -> rpacks r = summaryOf <$> ord -> tabled (table sp) ord ->
  Forall (fun x => info_ok x.1) ord -> zlen ord < two32 -> lEach live = Ok ls -> ksorted hbytes ls ->
  join r live = Ok (foldl (credit ord) (replicate (length ord) 0, replicate (length ord) 0) ls).
Proof.
  intros Hi Hp Ht Hok Hn Hl Hs. unfold join. rewrite Hi, Hp, length_fmap. destruct (tb_read _ _ Ht) as (l & Hr & Hks & Hk).
  destruct (next_records _ _ Hr) as (p & -> & Hpl). cbn [mbind res_bind]. rewrite Hl. cbn [mbind res_bind]. by eapply joinEach_ok.
Qed.

(** The chunks of [ls] credited to pack [i]. *)
Definition creditedOf (ord : order) (ls : list hash) (i : nat) : list hash := filter (fun h => fst <$> creditOf 0 ord h = Some i) ls.

Lemma credits_count ord ls i : forall st, (foldl (credit ord) st ls).1 !! i = (fun c => c + zlen (creditedOf ord ls i)) <$> st.1 !! i.
Proof.
  unfold creditedOf. induction ls as [|h ls IH]; intros st; cbn [foldl].
  - cbn. destruct (st.1 !! i); cbn; [|done]. by rewrite Z.add_0_r.
  - rewrite IH, filter_cons. unfold credit. destruct (creditOf 0 ord h) as [[j e]|]; cbn [fst fmap option_fmap option_map].
    + destruct (decide (j = i)) as [->|Hne].
      * rewrite decide_True by done. rewrite list_lookup_alter_eq. destruct (st.1 !! i); cbn; [|done]. f_equal. lia.
      * rewrite decide_False by congruence. by rewrite list_lookup_alter_ne.
    + by rewrite decide_False.
Qed.

(** A chunk that is live and credited to a pack makes its count positive. *)
Lemma credited_counts ord ls n h i e : h ∈ ls -> creditOf 0 ord h = Some (i, e) -> (i < n)%nat ->
  0 < default 0 ((foldl (credit ord) (replicate n 0, replicate n 0) ls).1 !! i).
Proof.
  intros Hh Hc Hi. rewrite credits_count. cbn [fst]. rewrite lookup_replicate_2 by done. cbn. assert (h ∈ creditedOf ord ls i) as He by (apply list_elem_of_filter; by rewrite Hc).
  destruct (creditedOf ord ls i); [by apply elem_of_nil in He|]. cbn. lia.
Qed.

(** Only a live chunk does. *)
Lemma counts_credited ord ls n i : 0 < default 0 ((foldl (credit ord) (replicate n 0, replicate n 0) ls).1 !! i) -> exists h e, h ∈ ls /\ creditOf 0 ord h = Some (i, e).
Proof.
  rewrite credits_count. cbn [fst]. destruct (replicate n 0 !! i) as [z|] eqn:E; cbn; [|lia]. apply lookup_replicate in E as [-> _]. destruct (creditedOf ord ls i) as [|h l] eqn:El; cbn; [lia|]. intros _.
  assert (h ∈ creditedOf ord ls i) as He by (rewrite El; by left). apply list_elem_of_filter in He as [Hc Hh]. destruct (creditOf 0 ord h) as [[j e]|] eqn:Ec; [|done]. injection Hc as ->. by exists h, e.
Qed.
End Load.
