(* ===== verification/GcSafe.v ===== *)
(** * core/chunk/packstore: a round loses nothing live

    What [Apply] decides of each pack, that repacking copies what it gives up,
    that the index objects it writes list what it keeps, and together that every
    live chunk is readable through the manifest it swaps in. *)

From S2P Require Import Prelude GoStd Wire Hash ChunkStore Blob Table Seal Manifest Pack Dedup PsIndex GcRound GcLoad.

(** ** What the condemned list says *)

Section Decide.
Context {FL : Float64} (now grace : Z).

(** A record names the pack it is found under. *)
Definition named_as (k : Z) (m : gmap bytes condemned) : Prop := forall n c, m !! n = Some c -> n = PackName (sum c) /\ kind c = k.

Lemma named_insert k m c : kind c = k -> named_as k m -> named_as k (<[PackName (sum c) := c]> m).
Proof. intros Hk H n c' [[<- <-]|[_ Hc]]%lookup_insert_Some; [done|by apply H]. Qed.

Lemma readCondemned_ok d c : named_as condemnedPack (dpacks d) -> named_as repackedPack (drepacked d) -> let d' := readCondemned now grace d c in
  named_as condemnedPack (dpacks d') /\ named_as repackedPack (drepacked d') /\
  (forall n x, dpacks d' !! n = Some x -> dpacks d !! n = Some x \/ x = c) /\ (forall n x, drepacked d' !! n = Some x -> drepacked d !! n = Some x \/ x = c) /\
  (forall n, is_Some (drepacked d' !! n) <-> is_Some (drepacked d !! n) \/ (kind c = repackedPack /\ n = PackName (sum c))) /\
  (forall n, is_Some (dpacks d' !! n) <-> is_Some (dpacks d !! n) \/ (kind c = condemnedPack /\ n = PackName (sum c))) /\
  (forall x, x ∈ dnext d' -> x ∈ dnext d \/ (x = c /\ kind c <> condemnedPack /\ kind c <> repackedPack)) /\
  (forall n, n ∈ dexpired d' -> n ∈ dexpired d \/ n = indexName (sum c)).
Proof.
  intros H1 H2. unfold readCondemned. destruct (Z.eqb_spec (kind c) condemnedPack) as [E1|E1]; [|destruct (Z.eqb_spec (kind c) repackedPack) as [E2|E2]].
  - cbn. assert (kind c <> repackedPack) by (rewrite E1; done). split_and!; [by apply named_insert|done| |by left| | |by left|by left].
    + intros n x [[_ <-]|[_ Hx]]%lookup_insert_Some; [by right|by left].
    + intros n. naive_solver.
    + intros n. rewrite lookup_insert_is_Some'. naive_solver.
  - cbn. split_and!; [done|by apply named_insert|by left| | | |by left|by left].
    + intros n x [[_ <-]|[_ Hx]]%lookup_insert_Some; [by right|by left].
    + intros n. rewrite lookup_insert_is_Some'. naive_solver.
    + intros n. naive_solver.
  - assert (forall d', dpacks d' = dpacks d -> drepacked d' = drepacked d -> (forall x, x ∈ dnext d' -> x ∈ dnext d \/ x = c) -> (forall n, n ∈ dexpired d' -> n ∈ dexpired d \/ n = indexName (sum c)) ->
      named_as condemnedPack (dpacks d') /\ named_as repackedPack (drepacked d') /\
      (forall n x, dpacks d' !! n = Some x -> dpacks d !! n = Some x \/ x = c) /\ (forall n x, drepacked d' !! n = Some x -> drepacked d !! n = Some x \/ x = c) /\
      (forall n, is_Some (drepacked d' !! n) <-> is_Some (drepacked d !! n) \/ (kind c = repackedPack /\ n = PackName (sum c))) /\
      (forall n, is_Some (dpacks d' !! n) <-> is_Some (dpacks d !! n) \/ (kind c = condemnedPack /\ n = PackName (sum c))) /\
      (forall x, x ∈ dnext d' -> x ∈ dnext d \/ (x = c /\ kind c <> condemnedPack /\ kind c <> repackedPack)) /\
      (forall n, n ∈ dexpired d' -> n ∈ dexpired d \/ n = indexName (sum c))) as Hd.
    { intros d' -> -> Hn Hx. split_and!; [done|done|by left|by left|naive_solver|naive_solver|naive_solver|done]. }
    destruct (_ || _); [destruct (_ <=? _)|destruct (expired _ _ _)]; apply Hd; cbn; try done; try (by left); intros x; rewrite elem_of_app, list_elem_of_singleton; tauto.
Qed.

Record listing (cs : list condemned) (d : listed) : Prop := {
  ls_packs : named_as condemnedPack (dpacks d);
  ls_repacked : named_as repackedPack (drepacked d);
  ls_packs_in n c : dpacks d !! n = Some c -> c ∈ cs;
  ls_repacked_in n c : drepacked d !! n = Some c -> c ∈ cs;
  ls_is_repacked n : is_Some (drepacked d !! n) <-> exists c, c ∈ cs /\ kind c = repackedPack /\ n = PackName (sum c);
  ls_is_condemned n : is_Some (dpacks d !! n) <-> exists c, c ∈ cs /\ kind c = condemnedPack /\ n = PackName (sum c);
  ls_next c : c ∈ dnext d -> c ∈ cs /\ kind c <> condemnedPack /\ kind c <> repackedPack;
  ls_expired n : n ∈ dexpired d -> exists s, n = indexName s;
}.

Lemma foldl_listing l : forall cs d, listing cs d -> listing (cs ++ l) (foldl (readCondemned now grace) d l).
Proof.
  induction l as [|c l IH]; intros cs d H; cbn [foldl]; [by rewrite app_nil_r|]. change (c :: l) with ([c] ++ l). rewrite app_assoc. apply IH.
  destruct (readCondemned_ok d c (ls_packs _ _ H) (ls_repacked _ _ H)) as (H1 & H2 & H3 & H4 & H5 & H6 & H7 & H8). destruct H as [_ _ P3 P4 P5 P6 P7 P8]. split; [done|done| | | | | |].
  - intros n x [Hx| ->]%H3; [apply P3 in Hx|]; set_solver.
  - intros n x [Hx| ->]%H4; [apply P4 in Hx|]; set_solver.
  - intros n. rewrite H5, P5. setoid_rewrite elem_of_app. setoid_rewrite list_elem_of_singleton. naive_solver.
  - intros n. rewrite H6, P6. setoid_rewrite elem_of_app. setoid_rewrite list_elem_of_singleton. naive_solver.
  - intros x [(? & ?)%P7|(-> & ?)]%H7; (split; [set_solver|done]).
  - intros n [Hn| ->]%H8; [by apply P8|by eexists].
Qed.

Lemma readCondemneds_ok man : listing (condemneds man) (readCondemneds now grace man).
Proof.
  unfold readCondemneds. apply (foldl_listing (condemneds man) []). split; cbn; try (intros n c Hc; by rewrite lookup_empty in Hc).
  - intros n. rewrite lookup_empty. split; [by intros [? ?]|by intros (c & ?%elem_of_nil & _)].
  - intros n. rewrite lookup_empty. split; [by intros [? ?]|by intros (c & ?%elem_of_nil & _)].
  - by intros c ?%elem_of_nil.
  - by intros n ?%elem_of_nil.
Qed.

(** ** What becomes of each pack *)

Lemma names_differ s t : PackName s <> indexName t.
Proof. by unfold PackName, indexName. Qed.

Context (policy : Repack) (packs repacked : gmap bytes condemned) (counts frames : list Z).
Hypothesis (Hpk : named_as condemnedPack packs) (Hrp : named_as repackedPack repacked).

Definition liveIn (i : nat) : Z := default 0 (counts !! i).

(** The record of a pack that leaves: repacked, or condemned and without a live
    chunk, at least [grace] ago. *)
Definition leaving (i : nat) (p : packSummary) : option condemned :=
  match repacked !! psname p with
  | Some c => if expired now grace c then Some c else None
  | None => if 0 <? liveIn i then None else match packs !! psname p with Some c => if expired now grace c then Some c else None | None => None end
  end.

(** A record of a pack that stays without being in service. *)
Definition rests (i : nat) (p : packSummary) (c : condemned) : Prop :=
  PackName (sum c) = psname p /\ (is_Some (repacked !! psname p) \/ liveIn i <= 0).

Record decides (i : nat) (ps : list packSummary) (x x' : decided) (exp : list bytes) (recs : list condemned) (cands : list candidate) : Prop := {
  dc_expired : xexpired x' = xexpired x ++ exp;
  dc_gone : xgone x' = xgone x + zlen exp;
  dc_next : xnext x' = xnext x ++ recs;
  dc_cands : xcands x' = xcands x ++ cands;
  dc_keep n : n ∈ xkeep x' <-> n ∈ xkeep x \/ exists k p, ps !! k = Some p /\ leaving (i + k) p = None /\ n = psname p;
  dc_exp n : n ∈ exp <-> exists k p, ps !! k = Some p /\ is_Some (leaving (i + k) p) /\ n = psname p;
  dc_recs c : c ∈ recs -> exists k p, ps !! k = Some p /\ rests (i + k) p c;
  dc_cand c : c ∈ cands -> exists k p, ci c = (i + k)%nat /\ ps !! k = Some p /\ repacked !! psname p = None /\ 0 < liveIn (i + k);
  dc_reprieved : xreprieved x <= xreprieved x' /\
    forall k p, ps !! k = Some p -> repacked !! psname p = None -> 0 < liveIn (i + k) -> is_Some (packs !! psname p) -> xreprieved x < xreprieved x';
}.

Lemma decides_one i p x x' exp recs cands :
  xexpired x' = xexpired x ++ exp -> xgone x' = xgone x + zlen exp -> xnext x' = xnext x ++ recs -> xcands x' = xcands x ++ cands ->
  (leaving i p = None /\ xkeep x' = {[psname p]} ∪ xkeep x /\ exp = [] \/ is_Some (leaving i p) /\ xkeep x' = xkeep x /\ exp = [psname p]) ->
  (forall c, c ∈ recs -> rests i p c) -> (forall c, c ∈ cands -> ci c = i /\ repacked !! psname p = None /\ 0 < liveIn i) ->
  (xreprieved x' = xreprieved x /\ ~ (repacked !! psname p = None /\ 0 < liveIn i /\ is_Some (packs !! psname p)) \/ xreprieved x' = xreprieved x + 1) ->
  decides i [p] x x' exp recs cands.
Proof.
  intros H1 H2 H3 H4 H5 H6 H7 H8. assert (forall (P : nat -> packSummary -> Prop), (exists k q, [p] !! k = Some q /\ P k q) <-> P 0%nat p) as Hone.
  { intros P. split; [|intros; by exists 0%nat, p]. intros ([|k] & q & Hq & Hp); [by injection Hq as <-|done]. }
  split; [done..| | | | |].
  - intros n. rewrite Hone, Nat.add_0_r. destruct H5 as [(E & -> & _)|([c E] & -> & _)]; rewrite E; [set_solver|]. naive_solver.
  - intros n. rewrite Hone, Nat.add_0_r. destruct H5 as [(E & _ & ->)|([c E] & _ & ->)]; rewrite E; [|rewrite list_elem_of_singleton; naive_solver]. split; [by intros ?%elem_of_nil|by intros ([? ?] & _)].
  - intros c Hc. apply (Hone (fun k q => rests (i + k) q c)). rewrite Nat.add_0_r. by apply H6.
  - intros c (-> & ? & ?)%H7. exists 0%nat, p. by rewrite Nat.add_0_r.
  - split; [destruct H8 as [[-> _]| ->]; lia|]. intros [|k] q [= ->]. rewrite Nat.add_0_r. intros Hr Hl Hp. destruct H8 as [[_ []]| ->]; [done|lia].
Qed.

Lemma decides_app i ps p x1 x2 x3 e1 r1 c1 e2 r2 c2 : decides i [p] x1 x2 e1 r1 c1 -> decides (S i) ps x2 x3 e2 r2 c2 ->
  decides i (p :: ps) x1 x3 (e1 ++ e2) (r1 ++ r2) (c1 ++ c2).
Proof.
  intros [A1 A2 A3 A4 A5 A6 A7 A8 A9] [B1 B2 B3 B4 B5 B6 B7 B8 B9].
  assert (forall (P : nat -> packSummary -> Prop), (exists k q, (p :: ps) !! k = Some q /\ P (i + k)%nat q) <-> (exists k q, [p] !! k = Some q /\ P (i + k)%nat q) \/ (exists k q, ps !! k = Some q /\ P (S i + k)%nat q)) as Hsplit.
  { intros P. split.
    - intros ([|k] & q & Hq & HP); [left; by exists 0%nat, q|right; exists k, q; split; [done|]]. by replace (S i + k)%nat with (i + S k)%nat by lia.
    - intros [([|k] & q & Hq & HP)|(k & q & Hq & HP)]; [by exists 0%nat, q|done|]. exists (S k), q. split; [done|]. by replace (i + S k)%nat with (S i + k)%nat by lia. }
  split.
  - by rewrite B1, A1, app_assoc.
  - rewrite B2, A2, length_app. lia.
  - by rewrite B3, A3, app_assoc.
  - by rewrite B4, A4, app_assoc.
  - intros n. rewrite B5, A5. rewrite (Hsplit (fun k q => leaving k q = None /\ n = psname q)). tauto.
  - intros n. rewrite elem_of_app, B6, A6. by rewrite (Hsplit (fun k q => is_Some (leaving k q) /\ n = psname q)).
  - intros c Hc. apply (Hsplit (fun k q => rests k q c)). apply elem_of_app in Hc as [Hc|Hc]; [left; by apply A7|right; by apply B7].
  - intros c Hc. assert ((exists k q, (p :: ps) !! k = Some q /\ ci c = (i + k)%nat /\ repacked !! psname q = None /\ 0 < liveIn (i + k)) -> exists k q, ci c = (i + k)%nat /\ (p :: ps) !! k = Some q /\ repacked !! psname q = None /\ 0 < liveIn (i + k)) as Hperm by naive_solver.
    apply Hperm, (Hsplit (fun k q => ci c = k /\ repacked !! psname q = None /\ 0 < liveIn k)). apply elem_of_app in Hc as [Hc|Hc]; [left|right].
    + destruct (A8 c Hc) as (k & q & ? & ? & ? & ?). by exists k, q.
    + destruct (B8 c Hc) as (k & q & ? & ? & ? & ?). by exists k, q.
  - destruct A9 as [A9 A10], B9 as [B9 B10]. split; [lia|]. intros [|k] q Hq Hr Hl Hp; cbn in Hq.
    + specialize (A10 0%nat q Hq Hr Hl Hp). lia.
    + replace (i + S k)%nat with (S i + k)%nat in Hl by lia. specialize (B10 k q Hq Hr Hl Hp). lia.
Qed.

Lemma decidePack_ok i p x x' : decidePack now grace policy packs repacked counts frames i p x = Ok x' -> exists exp recs cands, decides i [p] x x' exp recs cands.
Proof.
  unfold decidePack. fold (liveIn i). pose proof (eq_refl (leaving i p)) as El. unfold leaving at 2 in El. destruct (repacked !! psname p) as [c|] eqn:Er.
  { destruct (Hrp _ _ Er) as [En _]. destruct (expired now grace c); intros [= <-].
    - exists [psname p], [], []. apply decides_one; cbn; rewrite ?app_nil_r; [done..| |by intros ? ?%elem_of_nil|by intros ? ?%elem_of_nil|by left; split; [|intros (? & _)]; congruence]. right. rewrite El. by split_and!.
    - exists [], [c], []. apply decides_one; cbn; rewrite ?app_nil_r, ?Z.add_0_r; [done..|by left| |by intros ? ?%elem_of_nil|by left; split; [|intros (? & _)]; congruence]. intros c' ->%list_elem_of_singleton. split; [done|]. left. by rewrite Er. }
  destruct (Z.ltb_spec 0 (liveIn i)) as [Hlv|Hlv].
  { intros [= <-]. match goal with |- context [mkDecided _ _ _ _ _ ?v _] => set (rep := v) end.
    assert (rep = xreprieved x /\ ~ (repacked !! psname p = None /\ 0 < liveIn i /\ is_Some (packs !! psname p)) \/ rep = xreprieved x + 1) as Hrep.
    { unfold rep. destruct (packs !! psname p); [by right|]. left. split; [done|]. by intros (_ & _ & [? ?]). }
    destruct (_ && _).
    - exists [], [], [mkCandidate i (quot (default 0 (frames !! i)) (pssize p)) (default 0 (frames !! i))]. apply decides_one; cbn; rewrite ?app_nil_r, ?Z.add_0_r; [done..|by left|by intros ? ?%elem_of_nil| |done].
      by intros c ->%list_elem_of_singleton.
    - exists [], [], []. apply decides_one; cbn; rewrite ?app_nil_r, ?Z.add_0_r; [done..|by left|by intros ? ?%elem_of_nil|by intros ? ?%elem_of_nil|done]. }
  assert (forall c, c ∈ ([] : list candidate) -> ci c = i /\ repacked !! psname p = None /\ 0 < liveIn i) as Hnil by (by intros ? ?%elem_of_nil).
  destruct (packs !! psname p) as [c|] eqn:Ep.
  - destruct (Hpk _ _ Ep) as [En _]. destruct (expired now grace c); intros [= <-].
    + exists [psname p], [], []. apply decides_one; cbn; rewrite ?app_nil_r; [done..| |by intros ? ?%elem_of_nil|done|left; split; [done|intros (_ & ? & _); lia]]. right. rewrite El. by split_and!.
    + exists [], [c], []. apply decides_one; cbn; rewrite ?app_nil_r, ?Z.add_0_r; [done..|by left| |done|left; split; [done|intros (_ & ? & _); lia]]. intros c' ->%list_elem_of_singleton. split; [done|by right].
  - destruct (_ <? _).
    + intros (s & Hs & [= <-])%res_bind_Ok. exists [], [mkCondemned condemnedPack s now], []. apply decides_one; cbn; rewrite ?app_nil_r, ?Z.add_0_r; [done..|by left| |done|left; split; [done|intros (_ & ? & _); lia]].
      intros c ->%list_elem_of_singleton. split; [|by right]. symmetry. by apply PackSum_inv.
    + intros [= <-]. exists [], [], []. apply decides_one; cbn; rewrite ?app_nil_r, ?Z.add_0_r; [done..|by left|by intros ? ?%elem_of_nil|done|left; split; [done|intros (_ & ? & _); lia]].
Qed.

Lemma decidePacks_ok ps : forall i x x', decidePacks now grace policy packs repacked counts frames i ps x = Ok x' -> exists exp recs cands, decides i ps x x' exp recs cands.
Proof.
  induction ps as [|p ps IH]; intros i x x'; cbn [decidePacks].
  - intros [= <-]. exists [], [], []. split; rewrite ?app_nil_r; cbn; try (by split); try done; try lia; try (by intros ? ?%elem_of_nil).
    + intros n. split; [by left|]. intros [?|(k & p & Hp & _)]; [done|]. done.
    + intros n. split; [by intros ?%elem_of_nil|]. by intros (k & p & Hp & _).
  - intros (x1 & E1 & E2)%res_bind_Ok. apply decidePack_ok in E1 as (e1 & r1 & c1 & D1). apply IH in E2 as (e2 & r2 & c2 & D2). eexists _, _, _. by eapply decides_app.
Qed.
End Decide.

(** ** Repacking copies what it gives up *)

Section Copy.
Context {HH : Hasher} {HA : Aead} {AO : AeadOk} {HZ : Zstd} {ZO : ZstdOk} {FL : Float64} {B : Type} {HB : BlobStore B} {HBO : BlobStoreOk B} {HD : Draws} (o : Options).

Lemma draw_ok (e : env B) x e' : draw e = (Ok x, e') -> quiet e e' /\ zlen x.2 = NonceSize.
Proof. unfold draw. intros [= <- <-]. split; [by split_and!|apply nonce_size]. Qed.

Lemma OpenFrame_sum ks e s d : OpenFrame ks e s = Ok d -> Sum d = EHash e.
Proof.
  unfold OpenFrame. destruct (negb _); [done|]. destruct (Open _ _ _); [|done]. intros (d' & _ & H)%res_bind_Ok. destruct (negb _); [done|]. case_bool_decide; [|done]. cbn in H. by injection H as <-.
Qed.

(** The packs made so far and the chunks in the writer. *)
Abbreviation made := (list (gmap hash bytes * Built)).

Definition putsOf (F : made) : list (bytes * bytes) := reverse ((fun f => (BName f.2, BBytes f.2)) <$> F).

Record copies (e0 e : env B) (c : copying) (F : made) (σ : gmap hash bytes) : Prop := {
  cp_grows : grows e0 e;
  cp_puts : puts e = putsOf F ++ puts e0;
  cp_finished : Forall (finished (Keys_ o) (Repo o)) F;
  cp_fresh : cfresh c = BInfo <$> F.*2;
  cp_writer : match cw c with Some w => holds (Keys_ o) (Repo o) w σ | None => σ = ∅ end;
}.

Definition inCopy (F : made) (σ : gmap hash bytes) (h : hash) : Prop := is_Some (σ !! h) \/ exists f, f ∈ F /\ is_Some (f.1 !! h).

Lemma copies_quiet e0 e e' c F σ : quiet e e' -> copies e0 e c F σ -> copies e0 e' c F σ.
Proof. intros (Hb & Hg & Hp) [H1 H2 H3 H4 H5]. split; [by etrans|congruence|done..]. Qed.

Lemma newCopyWriter_ok toCopy c (e : env B) w e' : newCopyWriter o toCopy c e = (Ok w, e') -> quiet e e' /\ holds (Keys_ o) (Repo o) w ∅.
Proof.
  unfold newCopyWriter. intros ([salt n] & e1 & E & E2)%M_bind_Ok. destruct (draw_ok _ _ _ E) as [Hq _]. unfold liftR in E2. apply pair_equal_spec in E2 as [E2 <-]. split; [done|]. by eapply NewWriter_ok.
Qed.

Lemma empty_writer w σ : holds (Keys_ o) (Repo o) w σ -> Count w = 0 -> σ = ∅.
Proof.
  intros (ks & fs & H) Hc. rewrite (held_count _ _ _ _ _ _ H) in Hc. destruct fs; [|cbn in Hc; lia]. apply map_empty. intros h. destruct (σ !! h) eqn:E; [|done].
  pose proof (h_dom _ _ _ _ _ _ H h ltac:(eauto)) as Hi. rewrite (h_order _ _ _ _ _ _ H) in Hi. by apply elem_of_nil in Hi.
Qed.

Lemma copyFinish_ok e0 e c F σ c' e' : copies e0 e c F σ -> copyFinish c e = (Ok c', e') ->
  exists F', copies e0 e' c' F' ∅ /\ (forall h, inCopy F σ h -> inCopy F' ∅ h) /\ ccopied c' = ccopied c.
Proof.
  intros H. unfold copyFinish. pose proof (cp_writer _ _ _ _ _ H) as Hw. destruct (cw c) as [w|] eqn:Ew.
  2:{ intros [= <- <-]. subst σ. exists F. by split_and!. }
  destruct (Z.eqb_spec (Count w) 0) as [E0|E0].
  { intros [= <- <-]. pose proof (empty_writer _ _ Hw E0) as ->. exists F. by split_and!. }
  intros ([salt nonce] & e1 & E1 & E)%M_bind_Ok. destruct (draw_ok _ _ _ E1) as [Hq Hn]. cbn in Hn. apply M_bind_Ok in E as (b & e2 & E2 & E). unfold liftR in E2. apply pair_equal_spec in E2 as [E2 <-].
  apply M_bind_Ok in E as (u & e3 & E3 & [= <- <-]). pose proof (putOnce_ok _ _ _ _ _ E3) as (Hg & _). pose proof (putOnce_puts _ _ _ _ _ E3) as Hp.
  assert (finished (Keys_ o) (Repo o) (σ, b)) as Hf.
  { exists nonce, w. destruct (Pack.Finish nonce w) as [r w'] eqn:Ef. exists w'. cbn in E2. subst r. by split_and!. }
  exists (F ++ [(σ, b)]). split_and!; [split|..]; cbn.
  - etrans; [apply H|]. etrans; [apply Hq|done].
  - rewrite Hp. destruct Hq as (_ & _ & ->). rewrite (cp_puts _ _ _ _ _ H). unfold putsOf. by rewrite fmap_app, reverse_app.
  - apply Forall_app. split; [apply H|by constructor].
  - rewrite (cp_fresh _ _ _ _ _ H), !fmap_app. done.
  - done.
  - intros h [Hh|(f & Hi & Hh)]; right; [exists (σ, b)|exists f]; (split; [set_solver|done]).
  - done.
Qed.

Lemma copyAdd_ok en data w σ (e : env B) r w' e' : Sum data = EHash en -> holds (Keys_ o) (Repo o) w σ -> copyAdd en data w e = (Ok (r, w'), e') ->
  quiet e e' /\ match r with Ok _ => holds (Keys_ o) (Repo o) w' (<[EHash en := data]> σ) | Err _ => holds (Keys_ o) (Repo o) w' σ end.
Proof.
  intros Hd Hw. unfold copyAdd. intros ([salt nonce] & e1 & E1 & E)%M_bind_Ok. destruct (draw_ok _ _ _ E1) as [Hq Hn]. cbn in Hn. injection E as E <-. split; [done|].
  rewrite <-Hd in E |- *. pose proof (Add_held _ _ _ _ _ _ _ _ Hw Hn E) as Ha. by destruct r as [u|x]; [destruct Ha|].
Qed.

Lemma inCopy_insert F σ h0 data h : inCopy F σ h -> inCopy F (<[h0 := data]> σ) h.
Proof. intros [Hs|Hf]; [left|by right]. apply lookup_insert_is_Some'. by right. Qed.

Lemma inCopy_here F σ h data : inCopy F (<[h := data]> σ) h.
Proof. left. by rewrite lookup_insert_eq. Qed.

Lemma copyFrame_ok toCopy keys en e0 e c body F σ c' body' e' : copies e0 e c F σ -> copyFrame o toCopy keys en (c, body) e = (Ok (c', body'), e') ->
  exists F' σ', copies e0 e' c' F' σ' /\ (forall h, inCopy F σ h -> inCopy F' σ' h) /\ inCopy F' σ' (EHash en).
Proof.
  intros H. unfold copyFrame. intros ([frame body1] & e1 & E1 & E)%M_bind_Ok. unfold liftR in E1. apply pair_equal_spec in E1 as [_ <-].
  apply M_bind_Ok in E as (data & e1 & E1 & E). unfold liftR in E1. apply pair_equal_spec in E1 as [E1 <-].
  assert (Sum data = EHash en) as Hd by (destruct (OpenFrame keys en frame) as [d|] eqn:Eo; [injection E1 as ->; by eapply OpenFrame_sum|done]).
  apply M_bind_Ok in E as (w & e1 & E2 & E). assert (quiet e e1 /\ holds (Keys_ o) (Repo o) w σ) as [Hq1 Hw].
  { pose proof (cp_writer _ _ _ _ _ H) as Hw. destruct (cw c) as [w0|]; [injection E2 as <- <-; done|]. subst σ. by eapply newCopyWriter_ok. }
  apply M_bind_Ok in E as ([r w1] & e2 & E3 & E). destruct (copyAdd_ok _ _ _ _ _ _ _ _ Hd Hw E3) as [Hq2 Hr].
  apply M_bind_Ok in E as ([[r2 w2] fresh] & e3 & E4 & E). apply M_bind_Ok in E as (u & e4 & E5 & E). unfold liftR in E5. apply pair_equal_spec in E5 as [-> <-]. injection E as <- <- <-.
  assert (quiet e e2) as Hq by by etrans.
  assert (copies e0 e2 (mkCopying (Some w1) (cfresh c) (ccopied c)) F (match r with Ok _ => <[EHash en := data]> σ | Err _ => σ end)) as Hc1.
  { destruct (copies_quiet _ _ _ _ _ _ Hq H) as [C1 C2 C3 C4 _]. split; cbn; [done..|]. by destruct r. }
  assert (forall u' e5, Ok u' = r -> e5 = e2 -> exists F' σ', copies e0 e5 (mkCopying (Some w1) (cfresh c) (ccopied c + StoredLen en)) F' σ' /\ (forall h, inCopy F σ h -> inCopy F' σ' h) /\ inCopy F' σ' (EHash en)) as Hdone.
  { intros u' e5 <- ->. exists F, (<[EHash en := data]> σ). destruct Hc1 as [C1 C2 C3 C4 C5]. split_and!; [by split|intros h; apply inCopy_insert|apply inCopy_here]. }
  destruct r as [u'|x]; [injection E4 as _ <- <- <-; by apply (Hdone u')|]. case_bool_decide; [|done].
  apply M_bind_Ok in E4 as (c1 & e5 & E5 & E4). destruct (copyFinish_ok _ _ _ _ _ _ _ Hc1 E5) as (F' & Hc2 & Hin & _).
  apply M_bind_Ok in E4 as (w3 & e6 & E6 & E4). destruct (newCopyWriter_ok _ _ _ _ _ E6) as [Hq3 Hw3].
  apply M_bind_Ok in E4 as ([r4 w4] & e7 & E7 & E4). destruct (copyAdd_ok _ _ _ _ _ _ _ _ Hd Hw3 E7) as [Hq4 Hr4]. injection E4 as -> <- <- <-.
  exists F', (<[EHash en := data]> ∅). destruct (copies_quiet _ _ _ _ _ _ (transitivity Hq3 Hq4) Hc2) as [C1 C2 C3 C4 _].
  split_and!; [by split|intros h Hh; by apply inCopy_insert, Hin|apply inCopy_here].
Qed.

Lemma copyFrames_ok toCopy keys es : forall e0 e c body F σ c' body' e', copies e0 e c F σ -> copyFrames o toCopy keys es (c, body) e = (Ok (c', body'), e') ->
  exists F' σ', copies e0 e' c' F' σ' /\ (forall h, inCopy F σ h -> inCopy F' σ' h) /\ (forall en, en ∈ es -> inCopy F' σ' (EHash en)).
Proof.
  induction es as [|en es IH]; intros e0 e c body F σ c' body' e' H; cbn [copyFrames].
  - intros [= <- <- <-]. exists F, σ. split_and!; [done|done|by intros ? ?%elem_of_nil].
  - intros ([c1 body1] & e1 & E1 & E)%M_bind_Ok. destruct (copyFrame_ok _ _ _ _ _ _ _ _ _ _ _ _ H E1) as (F1 & σ1 & H1 & Hin1 & Hen).
    destruct (IH _ _ _ _ _ _ _ _ _ H1 E) as (F2 & σ2 & H2 & Hin2 & Hes). exists F2, σ2. split_and!; [done|by auto|]. intros en' [->|Hi]%elem_of_cons; [by apply Hin2|by apply Hes].
Qed.

Lemma creditedLive_ok (r : Round) live pi es : forall fr, creditedLive r live pi es = Ok fr ->
  forall en, en ∈ es -> creditedTo r (EHash en) pi = Ok true -> lHas live (EHash en) = Ok true -> en ∈ fr.
Proof.
  induction es as [|en es IH]; intros fr; cbn [creditedLive]; [by intros _ ? ?%elem_of_nil|].
  intros (cr & Ec & E)%res_bind_Ok. destruct cr; cbn [negb] in E.
  - apply res_bind_Ok in E as (ok & Eo & E). apply res_bind_Ok in E as (fr' & Ef & [= <-]). intros en' [->|Hi]%elem_of_cons Hc Hl.
    + rewrite Eo in Hl. injection Hl as ->. by left.
    + pose proof (IH _ Ef en' Hi Hc Hl). destruct ok; [by right|done].
  - intros en' [->|Hi]%elem_of_cons Hc Hl; [congruence|by eapply IH].
Qed.

Lemma creditedTo_ok (r : Round) sp ord h i en : rindex r = Some sp -> tabled (table sp) ord -> zlen ord < two32 -> creditOf 0 ord h = Some (i, en) -> creditedTo r h i = Ok true.
Proof.
  intros Hr Ht Hn Hc. unfold creditedTo. rewrite Hr, (tb_lookup _ _ Ht), Hc. cbn [fmap option_fmap option_map mbind res_bind fst snd]. rewrite encodeLoc_length, Z.eqb_refl. cbn [negb].
  apply creditOf_Some in Hc as (_ & x & Hx & _). rewrite Nat.sub_0_r in Hx. apply lookup_lt_Some in Hx. rewrite locPack_encodeLoc by (unfold two32 in *; lia).
  unfold u32. rewrite Z.mod_small by (unfold two32 in *; lia). by rewrite Z.eqb_refl.
Qed.

Lemma get_quiet name off n (e : env B) r e' : onBlobs (bGet name off n) e = (r, e') -> quiet e e'.
Proof. intros (b & E & ->)%onBlobs_inv. apply get_law in E as (Hb & Hr & _). unfold quiet, grows. cbn. rewrite Hb, Hr. by split_and!. Qed.

Lemma loadIndex_quiet s (e : env B) r e' : loadIndex o s e = (r, e') -> quiet e e'.
Proof. intros (Hb & Hg & Hp & _)%loadIndex_ok. by split_and!. Qed.

Lemma packInfo_ok e0 idx x (e : env B) info e' : listedIn o e0 idx x.1 x.2 -> grows e0 e -> packInfo o (summaryOf x) e = (Ok info, e') -> quiet e e' /\ info = x.1.
Proof.
  intros (g & _ & Hg & Hi) He. unfold packInfo. intros (infos & e1 & E1 & E)%M_bind_Ok. pose proof (loadIndex_quiet _ _ _ _ E1) as Hq. apply loadIndex_ok in E1 as (_ & _ & _ & Hh).
  cbn [psobject summaryOf] in Hh. pose proof (holdsIndex_fun _ _ _ _ _ (Hh infos eq_refl) (holdsIndex_grows _ _ _ _ _ He Hg)) as ->. unfold liftR in E. apply pair_equal_spec in E as [E <-]. split; [done|].
  destruct (List.find _ g) as [i|] eqn:Ef; [|done]. injection E as ->. apply List.find_some in Ef as [Hin Hn]. apply bool_decide_eq_true in Hn. cbn [psname summaryOf] in Hn. apply list_elem_of_In in Hin.
  destruct (holdsIndex_ok _ _ _ _ Hg) as (_ & Hnd & _). apply list_elem_of_lookup_1 in Hin as [a Ha]. apply list_elem_of_lookup_1 in Hi as [b Hb].
  enough (a = b) by congruence. apply (NoDup_lookup _ a b (IName info) Hnd); rewrite list_lookup_fmap; [by rewrite Ha|by rewrite Hb, Hn].
Qed.

Context (r : Round) (live : Live) (sp : spilled) (ord : list (Info * hash)) (ebase : env B) (idx : list hash).
Hypothesis (Hsp : rindex r = Some sp) (Hord : rpacks r = summaryOf <$> ord) (Htab : tabled (table sp) ord) (Hlen : zlen ord < two32).
Hypothesis (Hfrom : forall x, x ∈ ord -> listedIn o ebase idx x.1 x.2).

Lemma copyPack_ok toCopy cand e0 e c F σ c' e' : grows ebase e0 -> copies e0 e c F σ -> copyPack o r live toCopy cand c e = (Ok c', e') ->
  exists F' σ', copies e0 e' c' F' σ' /\ (forall h, inCopy F σ h -> inCopy F' σ' h) /\
    (forall h en, lHas live h = Ok true -> creditOf 0 ord h = Some (ci cand, en) -> inCopy F' σ' h).
Proof.
  intros Hg H. unfold copyPack. intros (p & e1 & E1 & E)%M_bind_Ok. unfold liftR in E1. apply pair_equal_spec in E1 as [E1 <-].
  rewrite Hord, list_lookup_fmap in E1. destruct (ord !! ci cand) as [x|] eqn:Ex; [|done]. injection E1 as <-. pose proof (Hfrom x ltac:(by eapply list_elem_of_lookup_2)) as Hlx.
  apply M_bind_Ok in E as (info & e1 & E1 & E). destruct (packInfo_ok _ _ _ _ _ _ Hlx (transitivity Hg (cp_grows _ _ _ _ _ H)) E1) as [Hq1 ->].
  apply M_bind_Ok in E as (fr & e2 & E2 & E). unfold liftR in E2. apply pair_equal_spec in E2 as [E2 <-].
  apply M_bind_Ok in E as (keys & e2 & E3 & E). unfold liftR in E3. apply pair_equal_spec in E3 as [_ <-].
  apply M_bind_Ok in E as (b & e3 & E3 & E). pose proof (get_quiet _ _ _ _ _ _ E3) as Hq2.
  apply M_bind_Ok in E as ([c1 body] & e4 & E4 & E). apply M_bind_Ok in E as (u & e5 & E5 & E). unfold liftR in E5. apply pair_equal_spec in E5 as [_ <-]. injection E as <- <-.
  destruct (copyFrames_ok _ _ _ _ _ _ _ _ _ _ _ _ (copies_quiet _ _ _ _ _ _ (transitivity Hq1 Hq2) H) E4) as (F' & σ' & H' & Hin & Hes).
  exists F', σ'. split_and!; [done|done|]. intros h en Hl Hc. pose proof (creditedTo_ok _ _ _ _ _ _ Hsp Htab Hlen Hc) as Hct.
  apply creditOf_Some in Hc as (_ & y & Hy & Hen & <- & _). rewrite Nat.sub_0_r, Ex in Hy. injection Hy as <-. apply Hes. rewrite (merge_sort_Permutation offset_le). by eapply creditedLive_ok.
Qed.

Lemma copyPacks_ok budget toCopy cands : forall e0 e c F σ n c' n' e', grows ebase e0 -> copies e0 e c F σ -> copyPacks o r live budget toCopy cands c n e = (Ok (c', n'), e') ->
  n <= n' /\ exists F' σ', copies e0 e' c' F' σ' /\ (forall h, inCopy F σ h -> inCopy F' σ' h) /\
    (forall cand h en, cand ∈ take (Z.to_nat (n' - n)) cands -> lHas live h = Ok true -> creditOf 0 ord h = Some (ci cand, en) -> inCopy F' σ' h).
Proof.
  induction cands as [|cand cands IH]; intros e0 e c F σ n c' n' e' Hg H; cbn [copyPacks].
  - intros [= <- <- <-]. split; [done|]. exists F, σ. split_and!; [done|done|]. intros cand h en Hi. by rewrite take_nil in Hi; apply elem_of_nil in Hi.
  - destruct (_ <=? _).
    + intros [= <- <- <-]. split; [done|]. exists F, σ. split_and!; [done|done|]. intros cand' h en Hi. rewrite Z.sub_diag in Hi. by apply elem_of_nil in Hi.
    + intros (c1 & e1 & E1 & E)%M_bind_Ok. destruct (copyPack_ok _ _ _ _ _ _ _ _ _ Hg H E1) as (F1 & σ1 & H1 & Hin1 & Hc1).
      destruct (IH _ _ _ _ _ _ _ _ _ Hg H1 E) as (Hle & F2 & σ2 & H2 & Hin2 & Hc2). split; [lia|]. exists F2, σ2. split_and!; [done|by auto|].
      intros cand' h en Hi Hl Hc. replace (Z.to_nat (n' - n)) with (S (Z.to_nat (n' - (n + 1)))) in Hi by lia. apply elem_of_cons in Hi as [->|Hi]; [by eapply Hin2, Hc1|by eapply Hc2].
Qed.

Lemma copyPacks_none budget toCopy cands : forall (e : env B) c n c' n' e', copyPacks o r live budget toCopy cands c n e = (Ok (c', n'), e') -> n <= n' /\ (n' = n -> c' = c).
Proof.
  induction cands as [|cand cands IH]; intros e c n c' n' e'; cbn [copyPacks]; [by intros [= <- <- <-]|]. destruct (_ <=? _); [by intros [= <- <- <-]|].
  intros (c1 & e1 & _ & [Hle _]%IH)%M_bind_Ok. split; [lia|]. intros ->. lia.
Qed.

(** Every live chunk credited to a pack repacked is in one of the fresh packs. *)
Lemma copyLive_ok budget cands e cands' fresh n copied e' : grows ebase e -> copyLive o r live budget cands e = (Ok (cands', fresh, n, copied), e') ->
  cands' ≡ₚ cands /\ 0 <= n /\ grows e e' /\ exists F, fresh = BInfo <$> F.*2 /\ Forall (finished (Keys_ o) (Repo o)) F /\ puts e' = putsOf F ++ puts e /\ (n = 0 -> fresh = []) /\
    (forall cand h en, cand ∈ take (Z.to_nat n) cands' -> lHas live h = Ok true -> creditOf 0 ord h = Some (ci cand, en) -> exists f, f ∈ F /\ is_Some (f.1 !! h)).
Proof.
  intros Hg. unfold copyLive. intros ([c1 n1] & e1 & E1 & E)%M_bind_Ok. apply M_bind_Ok in E as (c2 & e2 & E2 & E). injection E as <- <- <- <- <-.
  assert (copies e e (mkCopying None [] 0) [] ∅) as H0 by by split. destruct (copyPacks_ok _ _ _ _ _ _ _ _ _ _ _ _ Hg H0 E1) as (Hle & F1 & σ1 & H1 & _ & Hc1).
  destruct (copyFinish_ok _ _ _ _ _ _ _ H1 E2) as (F2 & H2 & Hin & _). split_and!; [apply merge_sort_Permutation|done|apply H2|]. exists F2. split_and!; [apply H2..| |].
  { intros ->. destruct (copyPacks_none _ _ _ _ _ _ _ _ _ E1) as [_ Hn]. rewrite (Hn eq_refl) in E2. by injection E2 as <- _. }
  intros cand h en Hi Hl Hc. rewrite Z.sub_0_r in Hc1. destruct (Hin h (Hc1 _ _ _ Hi Hl Hc)) as [[d Hd]|Hf]; [by rewrite lookup_empty in Hd|done].
Qed.
End Copy.

(** ** The new index objects list what is kept *)

Lemma keptInfos_ok keep infos : forall written l written', keptInfos keep written infos = (l, written') ->
  (forall p, p ∈ l -> p ∈ infos /\ IName p ∈ keep /\ IName p ∉ written) /\ (forall p, p ∈ infos -> IName p ∈ keep -> IName p ∈ written') /\
  (forall n, n ∈ written' <-> n ∈ written \/ n ∈ (IName <$> l)) /\ NoDup (IName <$> l).
Proof.
  induction infos as [|info infos IH]; intros written l written'; cbn [keptInfos].
  { intros [= <- <-]. split_and!; [by intros ? ?%elem_of_nil|by intros ? ?%elem_of_nil|set_solver|constructor]. }
  destruct (_ && _) eqn:Ec.
  - apply andb_true_iff in Ec as [Hk%bool_decide_eq_true Hw%negb_true_iff%bool_decide_eq_false]. destruct (keptInfos keep _ infos) as [l1 w1] eqn:E. intros [= <- <-].
    destruct (IH _ _ _ E) as (H1 & H2 & H3 & H4). split_and!.
    + intros p [->|Hp]%elem_of_cons; [split_and!; [by left|done|done]|]. destruct (H1 p Hp) as (? & ? & ?). split_and!; [by right|done|set_solver].
    + intros p [->|Hp]%elem_of_cons Hkp; [|by apply H2]. apply H3. set_solver.
    + intros n. rewrite H3. set_solver.
    + cbn. apply NoDup_cons. split; [|done]. intros (p & Ep & Hp)%list_elem_of_fmap. destruct (H1 p Hp) as (_ & _ & Hn). set_solver.
  - intros E. destruct (IH _ _ _ E) as (H1 & H2 & H3 & H4). split_and!; [| |done|done].
    + intros p Hp. destruct (H1 p Hp) as (? & ? & ?). split_and!; [by right|done|done].
    + intros p [->|Hp]%elem_of_cons Hkp; [|by apply H2]. apply H3. left. apply andb_false_iff in Ec as [Ec%bool_decide_eq_false|Ec%negb_false_iff%bool_decide_eq_true]; done.
Qed.

Section Write.
Context {HH : Hasher} {HA : Aead} {AO : AeadOk} {B : Type} {HB : BlobStore B} {HBO : BlobStoreOk B} {HD : Draws} (o : Options).
Context (ebase : env B).

Lemma writeKept_ok keep idx : forall written w e w' e' zs dn, (forall s, s ∈ idx -> exists g, holdsIndex o ebase s g) -> grows ebase e ->
  winv o e w zs dn -> infos_ok dn -> (forall n, n ∈ written <-> n ∈ (IName <$> dn)) -> writeKept o keep written idx w e = (Ok w', e') ->
  grows e e' /\ exists zs' K, winv o e' w' zs' (dn ++ K) /\ infos_ok (dn ++ K) /\ (forall p, p ∈ K -> IName p ∈ keep /\ exists s, listedIn o ebase idx p s) /\
    (forall p s, listedIn o ebase idx p s -> IName p ∈ keep -> IName p ∈ (IName <$> dn ++ K)).
Proof.
  induction idx as [|s idx IH]; intros written w e w' e' zs dn Hidx Hg Hw Hok Hwr; cbn [writeKept].
  { intros [= <- <-]. split; [done|]. exists zs, []. rewrite app_nil_r. split_and!; [done|done|by intros ? ?%elem_of_nil|]. by intros p s (g & ?%elem_of_nil & _). }
  intros (infos & e1 & E1 & E)%M_bind_Ok. pose proof (loadIndex_quiet _ _ _ _ _ E1) as (_ & Hq & _). apply loadIndex_ok in E1 as (_ & _ & _ & Hh).
  destruct (Hidx s ltac:(by left)) as [g Hs]. pose proof (holdsIndex_fun _ _ _ _ _ (Hh infos eq_refl) (holdsIndex_grows _ _ _ _ _ Hg Hs)) as ->.
  destruct (keptInfos keep written g) as [kept written'] eqn:Ek. destruct (keptInfos_ok _ _ _ _ _ Ek) as (K1 & K2 & K3 & K4).
  apply M_bind_Ok in E as (w1 & e2 & E2 & E).
  assert (infos_ok (dn ++ kept)) as Hok1.
  { destruct Hok as [Hnd Hall]. destruct (holdsIndex_ok _ _ _ _ Hs) as (_ & _ & Hg'). rewrite Forall_forall in Hg'. split.
    - rewrite fmap_app. apply NoDup_app. split_and!; [done| |done]. intros n Hn (p & -> & Hp)%list_elem_of_fmap. destruct (K1 p Hp) as (_ & _ & Hx). by apply Hx, Hwr.
    - apply Forall_app. split; [done|]. apply Forall_forall. intros p Hp. destruct (K1 p Hp) as (Hi & _). by apply Hg'. }
  destruct (iwAddAll_ok _ _ _ _ _ _ _ _ E2 (winv_grows _ _ _ _ _ _ Hq Hw) Hok1) as (Hg2 & _ & zs1 & Hw1).
  destruct (IH _ _ _ _ _ _ _ ltac:(intros s' Hs'; apply Hidx; by right) (transitivity Hg (transitivity Hq Hg2)) Hw1 Hok1 ltac:(intros n; rewrite K3, fmap_app, elem_of_app, Hwr; done) E) as (Hg3 & zs2 & K & Hw2 & Hok2 & HK1 & HK2).
  split; [by etrans; [|etrans]|]. exists zs2, (kept ++ K). rewrite app_assoc. split_and!; [done|done| |].
  - intros p [Hp|Hp]%elem_of_app.
    + destruct (K1 p Hp) as (Hi & Hk & _). split; [done|]. exists s, g. split_and!; [by left|done|done].
    + destruct (HK1 p Hp) as (Hk & s' & g' & Hs' & Hg' & Hi). split; [done|]. exists s', g'. split_and!; [by right|done|done].
  - intros p s' (g' & Hs' & Hg' & Hi) Hk. apply elem_of_cons in Hs' as [->|Hs'].
    + rewrite (holdsIndex_fun _ _ _ _ _ Hg' Hs) in Hi. pose proof (K2 p Hi Hk) as Hx. rewrite K3, Hwr in Hx. rewrite !fmap_app. set_solver.
    + apply (HK2 p s'); [|done]. by exists g'.
Qed.

Lemma flush_grows w (e : env B) w' e' : flush o w e = (Ok w', e') -> grows e e'.
Proof.
  unfold flush. case_bool_decide; [by intros [= <- <-]|]. intros ([salt nonce] & e1 & E1 & E)%M_bind_Ok. destruct (draw_ok _ _ _ E1) as [(_ & Hg & _) _].
  apply M_bind_Ok in E as ([name b] & e2 & E2 & E). unfold liftR in E2. apply pair_equal_spec in E2 as [_ <-]. apply M_bind_Ok in E as (u & e2 & E2 & E). apply putOnce_ok in E2 as (Hg2 & _).
  apply M_bind_Ok in E as (s & e3 & E3 & E). unfold liftR in E3. apply pair_equal_spec in E3 as [_ <-]. injection E as <- <-. by etrans.
Qed.

Lemma iwAddAll_grows infos : forall w (e : env B) w' e', iwAddAll o w infos e = (Ok w', e') -> grows e e'.
Proof.
  induction infos as [|info infos IH]; intros w e w' e'; cbn [iwAddAll]; [by intros [= <- <-]|]. intros (w1 & e1 & E1 & E%IH)%M_bind_Ok. etrans; [|done].
  apply M_bind_Ok in E1 as (w2 & e2 & E2 & [= <- <-]). destruct (_ && _); [by eapply flush_grows|by injection E2 as <- <-].
Qed.

Lemma writeIndexes_grows man keep fresh (e : env B) ss e' : writeIndexes o man keep fresh e = (Ok ss, e') -> grows e e'.
Proof.
  unfold writeIndexes. intros (w1 & e1 & E1 & E)%M_bind_Ok. assert (forall idx written w e w' e', writeKept o keep written idx w e = (Ok w', e') -> grows e e') as Hk.
  { intros idx. induction idx as [|s idx IH]; intros written w e0 w' e0'; cbn [writeKept]; [by intros [= <- <-]|]. intros (infos & e3 & E3 & E4)%M_bind_Ok. apply loadIndex_quiet in E3 as (_ & Hg & _).
    destruct (keptInfos keep written infos) as [kept written']. apply M_bind_Ok in E4 as (w2 & e4 & E4%iwAddAll_grows & E5%IH). etrans; [|etrans]; done. }
  apply M_bind_Ok in E as (w2 & e2 & E2%iwAddAll_grows & E). apply M_bind_Ok in E as ([ss' w3] & e3 & E3 & [= <- <-]). apply M_bind_Ok in E3 as (w4 & e4 & E4%flush_grows & [= _ _ <-]). apply Hk in E1. etrans; [|etrans]; done.
Qed.

Lemma writeIndexes_ok man keep fresh e ss e' : (forall s, s ∈ Manifest.indexes man -> exists g, holdsIndex o ebase s g) -> grows ebase e ->
  infos_ok fresh -> (forall p s, listedIn o ebase (Manifest.indexes man) p s -> IName p ∉ (IName <$> fresh)) -> writeIndexes o man keep fresh e = (Ok ss, e') ->
  grows e e' /\ StronglySorted sum_le ss /\ exists zs K, ss ≡ₚ zs.*1 /\ Forall (fun z => putIndex o e' z.1 z.2) zs /\ concat zs.*2 ≡ₚ K ++ fresh /\ infos_ok (K ++ fresh) /\
    (forall p, p ∈ K -> IName p ∈ keep /\ exists s, listedIn o ebase (Manifest.indexes man) p s) /\
    (forall p s, listedIn o ebase (Manifest.indexes man) p s -> IName p ∈ keep -> IName p ∈ (IName <$> K)).
Proof.
  intros Hidx Hg Hf Hdis. unfold writeIndexes. intros (w1 & e1 & E1 & E)%M_bind_Ok.
  assert (infos_ok []) as Hnil by (split; constructor).
  destruct (writeKept_ok _ _ ∅ _ _ _ _ _ _ Hidx Hg (new_winv o e 0) Hnil ltac:(set_solver) E1) as (Hg1 & zs1 & K & Hw1 & HokK & HK1 & HK2). cbn [app] in *.
  assert (infos_ok (K ++ fresh)) as Hok.
  { destruct HokK, Hf. split; [|by apply Forall_app]. rewrite fmap_app. apply NoDup_app. split_and!; [done| |done]. intros n (p & -> & Hp)%list_elem_of_fmap. destruct (HK1 p Hp) as (_ & s & Hs). by eapply Hdis. }
  apply M_bind_Ok in E as (w2 & e2 & E2 & E). destruct (iwAddAll_ok _ _ _ _ _ _ _ _ E2 Hw1 Hok) as (Hg2 & _ & zs2 & Hw2).
  apply M_bind_Ok in E as ([ss' w3] & e3 & E3 & [= <- <-]). destruct (iwFinish_ok _ _ _ _ _ _ _ _ E3 Hw2 Hok) as (Hg3 & Hss & _ & zs3 & Hp3 & Hput & Hall & _).
  split; [by etrans; [|etrans]|]. split; [done|]. exists zs3, K. by split_and!.
Qed.
End Write.

(** ** The rest of [Apply] *)

Lemma condemnedPacks_elem m n : n ∈ condemnedPacks m <-> exists c, c ∈ condemneds m /\ (kind c = condemnedPack \/ kind c = repackedPack) /\ n = PackName (sum c).
Proof.
  unfold condemnedPacks. assert (forall l (out : gset bytes), n ∈ foldl (fun out c => if (kind c =? condemnedPack) || (kind c =? repackedPack) then {[PackName (sum c)]} ∪ out else out) out l <->
    n ∈ out \/ exists c, c ∈ l /\ (kind c = condemnedPack \/ kind c = repackedPack) /\ n = PackName (sum c)) as H; [|rewrite H; set_solver].
  induction l as [|c l IH]; intros out; cbn [foldl]; [set_solver|]. rewrite IH. setoid_rewrite elem_of_cons.
  destruct (Z.eqb_spec (kind c) condemnedPack), (Z.eqb_spec (kind c) repackedPack); cbn [orb]; rewrite ?elem_of_union, ?elem_of_singleton; naive_solver.
Qed.

Lemma takeOrphans_ok now named expiring l : forall next rec added out next' added' out', takeOrphans now named expiring l next rec added out = (next', added', out') ->
  added <= added' /\ (forall n, n ∈ out' -> n ∈ out \/ (n ∉ named /\ n ∉ expiring)) /\ exists recs, next' = next ++ recs /\ forall c, c ∈ recs -> kind c = deletedPack \/ kind c = deletedIndex.
Proof.
  induction l as [|n l IH]; intros next rec added out next' added' out'; cbn [takeOrphans].
  { intros [= <- <- <-]. split_and!; [done|by left|]. exists []. rewrite app_nil_r. split; [done|by intros ? ?%elem_of_nil]. }
  case_bool_decide as Hn; [by intros E%IH|]. cbn [orb]. case_bool_decide as He; [by intros E%IH|].
  assert (forall next1 rec1 added1, added <= added1 -> takeOrphans now named expiring l next1 rec1 added1 (out ++ [n]) = (next', added', out') ->
    added <= added' /\ (forall m, m ∈ out' -> m ∈ out \/ (m ∉ named /\ m ∉ expiring)) /\ exists recs, next' = next1 ++ recs /\ forall c, c ∈ recs -> kind c = deletedPack \/ kind c = deletedIndex) as Hgo.
  { intros next1 rec1 added1 Ha (H1 & H2 & H3)%IH. split_and!; [lia| |done]. intros m [Hm|Hm]%H2; [|by right]. apply elem_of_app in Hm as [Hm|Hm]; [by left|]. apply list_elem_of_singleton in Hm as ->. by right. }
  destruct (deletion n now) as [c|] eqn:Ed; [|by apply Hgo]. case_bool_decide; [by apply Hgo|]. destruct (_ <=? _).
  { intros [= <- <- <-]. split_and!; [done|by left|]. exists []. rewrite app_nil_r. split; [done|by intros ? ?%elem_of_nil]. }
  intros (H1 & H2 & recs & -> & H3)%Hgo; [|lia]. split_and!; [done|done|]. exists (c :: recs). rewrite <-app_assoc. split; [done|]. intros c' [->|Hc]%elem_of_cons; [|by apply H3].
  unfold deletion in Ed. destruct (PackSum n); [injection Ed as <-; by left|]. destruct (indexSum n); [injection Ed as <-; by right|done].
Qed.

Section Apply.
Context {HH : Hasher} {HA : Aead} {AO : AeadOk} {HZ : Zstd} {ZO : ZstdOk} {FL : Float64} {B : Type} {HB : BlobStore B} {HBO : BlobStoreOk B} {HD : Draws} (o : Options).

Lemma repackRecords_ok (r : Round) now cands : forall recs, repackRecords r now cands = Ok recs ->
  forall c, c ∈ recs -> exists cand p, cand ∈ cands /\ rpacks r !! ci cand = Some p /\ PackName (sum c) = psname p.
Proof.
  induction cands as [|cand cands IH]; intros recs; cbn [repackRecords]; [by intros [= <-] ? ?%elem_of_nil|].
  intros (p & Ep & E)%res_bind_Ok. apply res_bind_Ok in E as (s & Es & E). apply res_bind_Ok in E as (l & El & [= <-]). intros c [->|Hc]%elem_of_cons.
  - exists cand, p. split_and!; [by left| |]; [by destruct (rpacks r !! ci cand); [injection Ep as ->|]|]. symmetry. by apply PackSum_inv.
  - destruct (IH _ El c Hc) as (cand' & p' & ? & ? & ?). exists cand', p'. split_and!; [by right|done|done].
Qed.

Lemma Begin_ok zero (e : env B) r e' : Begin o zero e = (Ok r, e') -> rver r <> NoVersion ->
  quiet e e' /\ openManifest (Value (broot (bst e))) (Keys_ o) (Repo o) = Ok (rman r) /\ RVersion (broot (bst e)) = rver r /\
  exists sp ord, rindex r = Some sp /\ orders o e (rman r) ord /\ rpacks r = summaryOf <$> ord /\ (zlen ord < two32 -> tabled (table sp) ord).
Proof.
  unfold Begin. intros (root & e1 & E1 & E)%M_bind_Ok. apply onBlobs_inv in E1 as (b & E1 & ->). apply root_law in E1 as (Hb & Hr & Hx). specialize (Hx root eq_refl). subst root.
  case_bool_decide as Hv. { injection E as <- <-. by intros ?. } intros _.
  set (e1 := mkEnv b (draws e) (puts e)) in *. assert (quiet e e1) as Hq by (unfold quiet, grows; cbn; rewrite Hb, Hr; by split_and!).
  apply M_bind_Ok in E as (man & e2 & E2 & E). unfold liftR in E2. apply pair_equal_spec in E2 as [Em <-].
  apply M_bind_Ok in E as ([packs sp] & e3 & E3 & E). injection E as <- <-. cbn [rman rver rindex rpacks].
  destruct (load_ok _ _ _ _ _ _ E3) as (Hq2 & ord & Ho & Hp & Ht). split; [by etrans|]. split_and!; [done|done|]. exists sp, ord. split_and!; [done| |done|done].
  destruct Ho as [O1 O2 O3 O4]. split; [done| | |done].
  - intros x Hxo. by eapply listedIn_quiet, O2.
  - intros p s Hl. eapply O3, listedIn_grows; [apply Hq|done].
Qed.

(** ** A repository whose manifest names what is there *)

Definition holdsChunk (p : Info) (h : hash) : Prop := exists en, en ∈ IEntries p /\ EHash en = h.

(** The chunk [h] can be read from the pack [p] as it is stored. *)
Definition readable (e : env B) (p : Info) (h : hash) : Prop :=
  exists b t en data, blobs (bst e) !! IName p = Some (b, t) /\ en ∈ IEntries p /\ EHash en = h /\ readAt (Keys_ o) (Repo o) b (mkLocation (refOf p) en) = Ok data.

(** [infos] are the packs the manifest lists: stored, and each name one pack. *)
Record intact (e : env B) (man : manifest) (infos : list Info) : Prop := {
  it_lists : listsPacks o e (Manifest.indexes man) infos;
  it_same p q : p ∈ infos -> q ∈ infos -> IName p = IName q -> p = q;
  it_stored p : p ∈ infos -> is_Some (blobs (bst e) !! IName p);
}.

(** What is put between [e] and [e'] has names of its own and is stored. *)
Definition novel (e e' : env B) : Prop :=
  faithful e' /\ exists l, puts e' = l ++ puts e /\ NoDup l.*1 /\ forall n, n ∈ l.*1 -> blobs (bst e) !! n = None.

(** A live set: its chunks in increasing order, and the test for them. *)
Definition live_ok (live : Live) (ls : list hash) : Prop :=
  lEach live = Ok ls /\ ksorted hbytes ls /\ forall h, lHas live h = Ok (bool_decide (h ∈ ls)).

(** The packs repacked before. *)
Definition repackedBy (man : manifest) (n : bytes) : Prop := exists c, c ∈ condemneds man /\ kind c = repackedPack /\ n = PackName (sum c).

(** A chunk some pack in service has, or some pack and none that was repacked. *)
Definition spared (man : manifest) (infos : list Info) (h : hash) : Prop :=
  (exists p, p ∈ infos /\ holdsChunk p h /\ IName p ∉ condemnedPacks man) \/
  ((exists p, p ∈ infos /\ holdsChunk p h) /\ forall p, p ∈ infos -> holdsChunk p h -> ~ repackedBy man (IName p)).

Lemma lists_listed e idx infos p : listsPacks o e idx infos -> p ∈ infos <-> exists s, listedIn o e idx p s.
Proof.
  intros (gs & Hgs & ->). split.
  - intros (g & Hg%list_elem_of_In & Hp%list_elem_of_In)%list_elem_of_In%in_concat. apply list_elem_of_lookup in Hg as [i Hi]. destruct (Forall2_lookup_r _ _ _ _ _ Hgs Hi) as (s & Hs & Hh). exists s, g. split_and!; [by eapply list_elem_of_lookup_2|done|done].
  - intros (s & g & Hs & Hg & Hp). apply list_elem_of_lookup in Hs as [i Hi]. destruct (Forall2_lookup_l _ _ _ _ _ Hgs Hi) as (g' & Hg' & Hh). rewrite (holdsIndex_fun _ _ _ _ _ Hg Hh) in Hp.
    apply list_elem_of_In, in_concat. exists g'. split; apply list_elem_of_In; [by eapply list_elem_of_lookup_2|done].
Qed.

Section Of.
Context (e0 : env B) (man : manifest) (infos : list Info) (ord : list (Info * hash)).
Hypothesis (Hint : intact e0 man infos) (Hord : orders o e0 man ord).

Lemma ord_infos x : x ∈ ord -> x.1 ∈ infos.
Proof. intros Hx. apply (lists_listed e0 (Manifest.indexes man)); [apply Hint|]. exists x.2. by apply Hord. Qed.

Lemma infos_ord p : p ∈ infos -> exists x, x ∈ ord /\ x.1 = p.
Proof.
  intros Hp. destruct (proj1 (lists_listed _ _ _ _ (it_lists _ _ _ Hint)) Hp) as [s Hs]. apply (or_all _ _ _ _ Hord) in Hs. apply list_elem_of_fmap in Hs as (x & En & Hx).
  exists x. split; [done|]. apply (it_same _ _ _ Hint); [by apply ord_infos|done|done].
Qed.

Lemma ord_length : zlen ord <= zlen infos.
Proof.
  assert (names ord ⊆+ (IName <$> infos)) as Hs.
  { apply NoDup_submseteq; [apply Hord|]. intros n (x & -> & Hx)%list_elem_of_fmap. apply list_elem_of_fmap. exists x.1. split; [done|by apply ord_infos]. }
  apply submseteq_length in Hs. unfold names in Hs. rewrite !length_fmap in Hs. lia.
Qed.

Lemma ord_index i j x y : ord !! i = Some x -> ord !! j = Some y -> IName x.1 = IName y.1 -> i = j.
Proof. intros Hi Hj En. apply (NoDup_lookup _ i j (IName x.1) (or_nodup _ _ _ _ Hord)); unfold names; rewrite list_lookup_fmap; [by rewrite Hi|by rewrite Hj, En]. Qed.

(** A chunk that is spared is credited to a pack that was not repacked. *)
Lemma spared_credited h : spared man infos h -> exists i en x, creditOf 0 ord h = Some (i, en) /\ ord !! i = Some x /\ en ∈ IEntries x.1 /\ EHash en = h /\ ~ repackedBy man (IName x.1).
Proof.
  intros Hs. assert (exists p, p ∈ infos /\ holdsChunk p h) as (p & Hp & en & Hen & Hh) by (destruct Hs as [(p & ? & ? & _)|[(p & ? & ?) _]]; by exists p).
  destruct (infos_ord p Hp) as (y & Hy & <-). destruct (creditOf 0 ord h) as [[i e]|] eqn:Ec; [|by destruct (creditOf_None _ _ _ Ec y en Hy Hen)].
  apply creditOf_Some in Ec as (_ & x & Hx & He & Heh & Hfirst). rewrite Nat.sub_0_r in *. exists i, e, x. split_and!; [done..|].
  assert (x ∈ ord) as Hxo by (by eapply list_elem_of_lookup_2). destruct Hs as [(q & Hq & (e' & He' & Hh') & Hcn)|[_ Hall]].
  - destruct (infos_ord q Hq) as (z & Hz & <-). apply list_elem_of_lookup in Hz as [j Hj]. intros (c & Hc & Hk & En).
    assert (IName x.1 ∈ condemnedPacks man) as Hcx by (apply condemnedPacks_elem; eauto). pose proof (orders_service _ _ _ _ _ _ _ _ Hord Hj Hx Hcn Hcx) as Hlt. by eapply (Hfirst j).
  - apply Hall; [by apply ord_infos|]. by exists e.
Qed.

(** ** What a round decides *)

Context (now grace : Z) (live : Live) (ls : list hash) (x : decided) (exp : list bytes) (recs : list condemned) (cands : list candidate).
Hypothesis (Hlive : live_ok live ls).
Let d := readCondemneds now grace man.
Let counts := (foldl (credit ord) (replicate (length ord) 0, replicate (length ord) 0) ls).1.
Hypothesis (Hdec : decides now grace (dpacks d) (drepacked d) counts 0 (summaryOf <$> ord) (mkDecided ∅ [] 0 (dnext d) (dexpired d) 0 0) x exp recs cands).

Lemma not_repacked n : ~ repackedBy man n -> drepacked d !! n = None.
Proof. intros Hn. destruct (drepacked d !! n) eqn:E; [|done]. destruct Hn. apply (ls_is_repacked _ _ (readCondemneds_ok now grace man)). by eexists. Qed.

Lemma live_counted h i en : h ∈ ls -> creditOf 0 ord h = Some (i, en) -> 0 < liveIn counts i.
Proof.
  intros Hh Hc. unfold liveIn, counts. eapply credited_counts; [done|done|]. apply creditOf_Some in Hc as (_ & y & Hy & _). rewrite Nat.sub_0_r in Hy. by eapply lookup_lt_Some.
Qed.

(** The pack of a live chunk that is spared stays and is not condemned by the
    decisions, but perhaps repacked. *)
Lemma live_stays h i en y : h ∈ ls -> creditOf 0 ord h = Some (i, en) -> ord !! i = Some y -> ~ repackedBy man (IName y.1) ->
  IName y.1 ∈ xkeep x /\ (forall c, c ∈ recs -> PackName (sum c) <> IName y.1) /\ IName y.1 ∉ exp.
Proof.
  intros Hh Hc Hy Hr. pose proof (live_counted h i en Hh Hc) as Hl. pose proof (not_repacked _ Hr) as Hnr. assert (leaving now grace (dpacks d) (drepacked d) counts i (summaryOf y) = None) as Hlv.
  { unfold leaving. cbn [psname summaryOf]. rewrite Hnr. by rewrite (proj2 (Z.ltb_lt _ _)). }
  assert ((summaryOf <$> ord) !! i = Some (summaryOf y)) as Hsy by (rewrite list_lookup_fmap, Hy; done).
  assert (forall k p, (summaryOf <$> ord) !! k = Some p -> psname p = IName y.1 -> k = i /\ p = summaryOf y) as Huniq.
  { intros k p. rewrite list_lookup_fmap. destruct (ord !! k) as [z|] eqn:Ez; [|done]. intros [= <-] En. cbn in En. pose proof (ord_index _ _ _ _ Ez Hy En) as ->. split; [done|]. congruence. }
  split_and!.
  - apply (dc_keep _ _ _ _ _ _ _ _ _ _ _ _ Hdec). right. by exists i, (summaryOf y).
  - intros c Hcr Hn. destruct (dc_recs _ _ _ _ _ _ _ _ _ _ _ _ Hdec c Hcr) as (k & p & Hp & En & Hcase). rewrite Hn in En. destruct (Huniq k p Hp (eq_sym En)) as [-> ->].
    cbn [psname summaryOf] in Hcase. rewrite Hnr in Hcase. destruct Hcase as [[? ?]|Hcase]; [done|]. cbn in Hcase. lia.
  - intros Hx. apply (dc_exp _ _ _ _ _ _ _ _ _ _ _ _ Hdec) in Hx as (k & p & Hp & [c Hlk] & En). destruct (Huniq k p Hp (eq_sym En)) as [-> ->]. cbn in Hlk. congruence.
Qed.

(** A pack expires on a record of its own, at least [grace] old, and leaves. *)
Lemma expired_left n : n ∈ exp -> n ∉ xkeep x /\ exists c, c ∈ condemneds man /\ (kind c = condemnedPack \/ kind c = repackedPack) /\ PackName (sum c) = n /\ grace <= sub64 now (at_ns c).
Proof.
  intros (k & p & Hp & [c Hlk] & ->)%(dc_exp _ _ _ _ _ _ _ _ _ _ _ _ Hdec). pose proof Hp as Hp'. rewrite list_lookup_fmap in Hp'. destruct (ord !! k) as [z|] eqn:Ez; [|done]. injection Hp' as <-. split.
  - intros [?%elem_of_empty|(k' & p' & Hp' & Hlv & En)]%(dc_keep _ _ _ _ _ _ _ _ _ _ _ _ Hdec); [done|]. rewrite list_lookup_fmap in Hp'. destruct (ord !! k') as [z'|] eqn:Ez'; [|done]. injection Hp' as <-. cbn in En.
    pose proof (ord_index _ _ _ _ Ez Ez' En) as ->. rewrite Ez in Ez'. injection Ez' as <-. congruence.
  - cbn [Nat.add] in Hlk. pose proof (readCondemneds_ok now grace man) as HL. unfold leaving in Hlk. unfold expired in Hlk. destruct (drepacked d !! _) as [c'|] eqn:Er.
    + destruct (Z.leb_spec grace (sub64 now (at_ns c'))); [|done]. injection Hlk as ->. exists c. split_and!; [by eapply (ls_repacked_in _ _ HL)|right|symmetry|done]; by eapply (ls_repacked _ _ HL).
    + destruct (0 <? _); [done|]. destruct (dpacks d !! _) as [c'|] eqn:Ep; [|done]. destruct (Z.leb_spec grace (sub64 now (at_ns c'))); [|done]. injection Hlk as ->. exists c. split_and!; [by eapply (ls_packs_in _ _ HL)|left|symmetry|done]; by eapply (ls_packs _ _ HL).
Qed.
End Of.

(** ** The manifest swapped in *)

Lemma intact_same e e' man man' infos : blobs (bst e') = blobs (bst e) -> Manifest.indexes man' = Manifest.indexes man -> intact e man infos -> intact e' man' infos.
Proof.
  intros Hb Hm [(gs & Hgs & Hi) H2 H3]. split; [|done|by rewrite Hb]. exists gs. split; [|done]. rewrite Hm. eapply Forall2_impl; [done|]. intros s g (b & t & Hl & Hd). exists b, t. by rewrite Hb.
Qed.

Lemma intact_grows e e' man infos : grows e e' -> intact e man infos -> intact e' man infos.
Proof.
  intros Hg [(gs & Hgs & Hi) H2 H3]. split; [|done|].
  - exists gs. split; [|done]. eapply Forall2_impl; [done|]. intros s g. by apply holdsIndex_grows.
  - intros p Hp. destruct (H3 p Hp) as [b Hb]. exists b. by eapply grows_blob.
Qed.

Lemma newIndexes_grows man now changed keep fresh next (e : env B) x e' : newIndexes o man now changed keep fresh next e = (Ok x, e') -> grows e e' /\ (changed = false -> x.1.1 = Manifest.indexes man).
Proof. unfold newIndexes. destruct changed; [|by intros [= <- <-]]. intros (ss & e1 & E1%writeIndexes_grows & [= _ <-])%M_bind_Ok. by split. Qed.

(** The packs after: those kept and the fresh ones. *)
Lemma newIndexes_ok ebase man infos now changed keep fresh next e idx gen next' e' :
  newIndexes o man now changed keep fresh next e = (Ok (idx, gen, next'), e') -> intact ebase man infos -> grows ebase e -> infos_ok fresh ->
  (forall p, p ∈ infos -> IName p ∉ (IName <$> fresh)) -> (forall p, p ∈ fresh -> is_Some (blobs (bst e') !! IName p)) -> faithful e' ->
  (changed = false -> fresh = [] /\ forall p, p ∈ infos -> IName p ∈ keep) -> StronglySorted sum_le (Manifest.indexes man) ->
  grows e e' /\ StronglySorted sum_le idx /\ (exists more, next' = next ++ more /\ forall c, c ∈ more -> kind c = condemnedIndex) /\
  forall m, Manifest.indexes m = idx -> exists infos', intact e' m infos' /\ forall p, p ∈ infos' <-> (p ∈ infos /\ IName p ∈ keep) \/ p ∈ fresh.
Proof.
  unfold newIndexes. intros E Hint Hg Hf Hdis Hst Hfa Hun Hso. destruct changed.
  2:{ injection E as <- <- <- <-. destruct (Hun eq_refl) as [-> Hk]. split_and!; [done|done| |]. { exists []. rewrite app_nil_r. split; [done|by intros ? ?%elem_of_nil]. }
      intros m Hm. exists infos. split; [eapply intact_grows; [exact Hg|]; by eapply intact_same|]. intros p. rewrite elem_of_nil. naive_solver. }
  apply M_bind_Ok in E as (ss & e1 & E1 & E). injection E as <- <- <- <-.
  assert (forall p, p ∈ infos <-> exists s, listedIn o ebase (Manifest.indexes man) p s) as Hin by (intros p; apply lists_listed, Hint).
  destruct (writeIndexes_ok o ebase man keep fresh e ss e1) as (Hg1 & Hss & zs & K & Hp & Hput & Hall & [Hnd _] & HK1 & HK2); [|done|done| |done|].
  { intros s Hs. destruct (it_lists _ _ _ Hint) as (gs & Hgs & _). apply list_elem_of_lookup in Hs as [i Hi]. destruct (Forall2_lookup_l _ _ _ _ _ Hgs Hi) as (g & _ & Hh). by exists g. }
  { intros p s Hps. apply Hdis, Hin. by exists s. }
  split_and!; [done|done| |].
  { eexists. split; [done|]. by intros c (s & -> & _)%list_elem_of_fmap. }
  intros m Hm. destruct (listsPacks_put o e1 zs ss Hfa Hput Hp) as (infos' & Hpi & Hli). exists infos'.
  assert (forall p, p ∈ infos' <-> (p ∈ infos /\ IName p ∈ keep) \/ p ∈ fresh) as Hmem.
  { intros p. rewrite Hpi, Hall, elem_of_app. split; (intros [Hx|Hx]; [left|by right]).
    - destruct (HK1 p Hx) as [Hk Hs]. split; [by apply Hin|done].
    - destruct Hx as [Hx Hk]. destruct (proj1 (Hin p) Hx) as [s Hs]. pose proof (HK2 p s Hs Hk) as (q & En & Hq)%list_elem_of_fmap.
      rewrite (it_same _ _ _ Hint p q); [done|done| |done]. apply Hin. apply (HK1 q Hq). }
  split; [|done]. split.
  - by rewrite Hm.
  - assert (NoDup (IName <$> infos')) as Hnd' by (rewrite Hpi, Hall; exact Hnd). intros p q [a Ha]%list_elem_of_lookup [b Hb]%list_elem_of_lookup En. enough (a = b) by congruence.
    apply (NoDup_lookup _ a b (IName p) Hnd'); rewrite list_lookup_fmap; [by rewrite Ha|by rewrite Hb, En].
  - intros p [[Hx _]|Hx]%Hmem; [|by apply Hst]. destruct (it_stored _ _ _ Hint p Hx) as [b Hb]. exists b. eapply grows_blob; [exact (transitivity Hg Hg1)|exact Hb].
Qed.

(** The root's value is manifest [m], sealed: it opens to it, or is what [seal]
    made of it (which opens to it when the codec can hold it, [manifest_ok]). *)
Definition sealedRoot (e : env B) (m : manifest) : Prop :=
  openManifest (Value (broot (bst e))) (Keys_ o) (Repo o) = Ok m \/
  exists salt nonce, zlen nonce = NonceSize /\ seal salt nonce (Keys_ o) (Repo o) m = Ok (Value (broot (bst e))).

Lemma sealedRoot_opens e m : sealedRoot e m -> manifest_ok m -> openManifest (Value (broot (bst e))) (Keys_ o) (Repo o) = Ok m.
Proof. intros [Ho|(salt & nonce & Hn & Hs)] Hok; [done|]. rewrite <-(canon_ok m Hok). eapply manifest_roundtrip; [exact Hn|by rewrite canon_ok|exact Hs]. Qed.

Lemma swapManifest_ok ver m (e : env B) u e' : swapManifest o ver m e = (Ok u, e') ->
  blobs (bst e') = blobs (bst e) /\ puts e' = puts e /\ sealedRoot e' m.
Proof.
  unfold swapManifest. intros ([salt nonce] & e1 & E1 & E)%M_bind_Ok. destruct (draw_ok _ _ _ E1) as [(Hb1 & _ & Hp1) Hn]. cbn in Hn.
  apply M_bind_Ok in E as (sealed & e2 & E2 & E). unfold liftR in E2. apply pair_equal_spec in E2 as [E2 <-]. apply M_bind_Ok in E as ([v n2] & e2 & E3 & E). destruct (draw_ok _ _ _ E3) as [(Hb2 & _ & Hp2) _].
  unfold act in E. destruct (onBlobs _ e2) as [[x|x] e3] eqn:Es; [|by case_bool_decide]. injection E as <- <-. apply onBlobs_inv in Es as (b & Es & ->). apply swap_law in Es as (Hb & _ & Hr). cbn.
  split_and!; [congruence|congruence|]. right. exists salt, nonce. cbn. by rewrite Hr.
Qed.

(** ** A round *)

Lemma finished_readable f (e : env B) : finished (Keys_ o) (Repo o) f -> faithful e -> (BName f.2, BBytes f.2) ∈ puts e -> forall h, is_Some (f.1 !! h) -> readable e (BInfo f.2) h.
Proof.
  intros Hf Hfa Hp h Hh. destruct (finished_ok _ _ f Hf) as (_ & Hn & _ & Hd & Hr). destruct (Hd h Hh) as (en & Hen & <-). destruct (Hr en Hen) as (data & _ & Hrd).
  destruct (faithful_put _ _ _ Hfa Hp) as [t Ht]. exists (BBytes f.2), t, en, data. rewrite Hn. by split_and!.
Qed.

Lemma readable_grows e e' p h : grows e e' -> readable e p h -> readable e' p h.
Proof. intros Hg (b & t & en & data & Hb & H). exists b, t, en, data. split; [by eapply grows_blob|done]. Qed.

(** The packs a round makes: they can be listed beside those there were. *)
Lemma freshPacks_ok (F : list (gmap hash bytes * Built)) (e e1 e' : env B) infos man : Forall (finished (Keys_ o) (Repo o)) F -> puts e1 = putsOf F ++ puts e -> grows e1 e' -> novel e e' -> intact e man infos ->
  infos_ok (BInfo <$> F.*2) /\ (forall p, p ∈ infos -> IName p ∉ (IName <$> (BInfo <$> F.*2))) /\ (forall p, p ∈ (BInfo <$> F.*2) -> is_Some (blobs (bst e') !! IName p)) /\
  forall f, f ∈ F -> (BName f.2, BBytes f.2) ∈ puts e'.
Proof.
  intros Hfin Hputs Hg (Hfa & l & Hl & Hnd & Hnew) Hint. rewrite Forall_forall in Hfin. pose proof Hg as (_ & _ & [l2 Hl2]). rewrite Hl2, Hputs, app_assoc in Hl. apply app_inv_tail in Hl as <-.
  assert (IName <$> (BInfo <$> F.*2) = reverse (putsOf F).*1) as En.
  { unfold putsOf. rewrite fmap_reverse, reverse_involutive, <-!list_fmap_compose. apply list_fmap_ext. intros i f Hi. cbn. apply list_elem_of_lookup_2 in Hi. by destruct (finished_ok _ _ f (Hfin f Hi)) as (_ & Hn & _). }
  assert (forall f, f ∈ F -> (BName f.2, BBytes f.2) ∈ puts e') as Hin.
  { intros f Hf. rewrite Hl2, Hputs. apply elem_of_app. right. apply elem_of_app. left. unfold putsOf. apply elem_of_reverse, list_elem_of_fmap. by exists f. }
  split_and!; [split| | |done].
  - rewrite En. rewrite reverse_Permutation. rewrite fmap_app in Hnd. by apply NoDup_app in Hnd as (_ & _ & ?).
  - apply Forall_forall. intros p (b & -> & (f & -> & Hf)%list_elem_of_fmap)%list_elem_of_fmap. destruct (finished_ok _ _ f (Hfin f Hf)) as (Hok & Hn & Hs & _). split; [|done]. rewrite Hn, Hs. by eexists.
  - intros p Hp. rewrite En, elem_of_reverse. intros Hi. destruct (it_stored _ _ _ Hint p Hp) as [b Hb]. rewrite Hnew in Hb; [done|]. rewrite fmap_app. set_solver.
  - intros p (b & -> & (f & -> & Hf)%list_elem_of_fmap)%list_elem_of_fmap. destruct (finished_ok _ _ f (Hfin f Hf)) as (_ & Hn & _). destruct (faithful_put _ _ _ Hfa (Hin f Hf)) as [t Ht]. rewrite Hn. by eexists.
Qed.

(** The stages of [Apply]. *)
Lemma Apply_stages (r : Round) live now grace (e : env B) out e' : rver r <> NoVersion -> Apply o r live now grace e = (Ok out, e') ->
  let d := readCondemneds now grace (rman r) in
  exists policy counts frames x cands fresh n copied recs idx gen next added orphans nexto e1 e2,
    join r live = Ok (counts, frames) /\
    decidePacks now grace policy (dpacks d) (drepacked d) counts frames 0 (rpacks r) (mkDecided ∅ [] 0 (dnext d) (dexpired d) 0 0) = Ok x /\
    copyLive o r live (Budget policy) (xcands x) e = (Ok (cands, fresh, n, copied), e1) /\
    repackRecords r now (take (Z.to_nat n) cands) = Ok recs /\
    newIndexes o (rman r) now ((0 <? xgone x) || (0 <? n)) (xkeep x) fresh (xnext x ++ recs) e1 = (Ok (idx, gen, next), e2) /\
    takeOrphans now (namedBy (xkeep x) fresh idx next) (list_to_set (xexpired x)) (rorphans r) next (drecorded d) 0 [] = (nexto, added, orphans) /\
    out = mkOutcome (xcondemned x) (xreprieved x) (xexpired x) (namedBy (xkeep x) fresh idx next) orphans n copied /\
    (e' = e2 /\ xreprieved x = 0 /\ xexpired x = [] /\ n = 0 \/
     swapManifest o (rver r) (mkManifest (u64 (seq (rman r) + 1)) gen (mroot (rman r)) idx nexto) e2 = (Ok tt, e')).
Proof.
  intros Hv. unfold Apply. rewrite bool_decide_eq_false_2 by done. intros (ok & e1 & E1 & E)%M_bind_Ok. unfold liftR in E1. apply pair_equal_spec in E1 as [_ <-]. destruct ok; [|done]. cbn [negb] in E.
  apply M_bind_Ok in E as (policy & e1 & E1 & E). unfold liftR in E1. apply pair_equal_spec in E1 as [_ <-]. apply M_bind_Ok in E as ([counts frames] & e1 & E1 & E). unfold liftR in E1. apply pair_equal_spec in E1 as [Ej <-].
  apply M_bind_Ok in E as (x & e1 & E1 & E). unfold liftR in E1. apply pair_equal_spec in E1 as [Ed <-]. apply M_bind_Ok in E as ([[[cands fresh] n] copied] & e1 & Ec & E).
  apply M_bind_Ok in E as (recs & e2 & E2 & E). unfold liftR in E2. apply pair_equal_spec in E2 as [Er <-]. apply M_bind_Ok in E as ([[idx gen] next] & e2 & Ei & E).
  destruct (takeOrphans _ _ _ _ _ _ _ _) as [[nexto added] orphans] eqn:Et. exists policy, counts, frames, x, cands, fresh, n, copied, recs, idx, gen, next, added, orphans, nexto, e1, e2.
  destruct (_ && _) eqn:Eq in E.
  - injection E as <- <-. split_and!; [done..|]. left. rewrite !andb_true_iff, !Z.eqb_eq in Eq. destruct Eq as (((((_ & H2) & H3) & _) & _) & H6). split_and!; [done|done| |done]. by destruct (xexpired x).
  - apply M_bind_Ok in E as ([] & e3 & E3 & E). injection E as <- <-. split_and!; [done..|]. by right.
Qed.

Lemma novel_same e e1 e2 : blobs (bst e2) = blobs (bst e1) -> puts e2 = puts e1 -> novel e e2 -> novel e e1.
Proof. intros Hb Hp (Hf & l & Hl & Hnd & Hn). split; [|exists l; split_and!; [congruence|done|done]]. unfold faithful in *. by rewrite <-Hp, <-Hb. Qed.

Lemma open_sorted b m : openManifest b (Keys_ o) (Repo o) = Ok m -> manifest_ok m.
Proof.
  unfold openManifest. destruct (_ <? _); [done|]. destruct (Fixed 4 _) as [? ?]. destruct (U16 _) as [? ?]. destruct (readHash _) as [salt ?]. destruct (_ || _); [done|].
  destruct (deriveKey _ _ _ _) as [k|]; [|done]. cbn [mbind res_bind]. destruct (Open k _ _); [|done]. by intros [_ ?]%manifestPlain_bwd.
Qed.

Lemma ksorted_sum_le l : ksorted hbytes l -> StronglySorted sum_le l.
Proof. induction 1 as [|x l Hl IH Hx]; constructor; [done|]. eapply Forall_impl; [exact Hx|]. intros y. apply blt_le. Qed.

Lemma sum_le_sorted l : StronglySorted sum_le l -> merge_sort sum_le l = l.
Proof. intros H. apply (StronglySorted_unique sum_le); [apply StronglySorted_merge_sort; apply _|done|apply merge_sort_Permutation]. Qed.

(** A record of the next manifest that takes a pack out of service is one the
    decisions made or one of a pack repacked. *)
Lemma next_condemned man d recs0 recs more orph c : listing man d -> (forall c, c ∈ more -> kind c = condemnedIndex) -> (forall c, c ∈ orph -> kind c = deletedPack \/ kind c = deletedIndex) ->
  c ∈ (((dnext d ++ recs0) ++ recs) ++ more) ++ orph -> kind c = condemnedPack \/ kind c = repackedPack -> c ∈ recs0 \/ c ∈ recs.
Proof.
  intros HL Hm Ho. rewrite !elem_of_app. unfold condemnedPack, repackedPack. intros [[[[Hc|Hc]|Hc]|Hc]|Hc] Hk; [|by left|by right| |].
  - apply (ls_next _ _ HL) in Hc as (_ & H1 & H2). unfold condemnedPack, repackedPack in *. lia.
  - apply Hm in Hc. unfold condemnedIndex in Hc. lia.
  - apply Ho in Hc. unfold deletedPack, deletedIndex in Hc. lia.
Qed.

(** What a round that succeeds does, from where it began. *)
Lemma round_keeps (r : Round) sp ord live ls now grace e out e' infos :
  rver r <> NoVersion -> openManifest (Value (broot (bst e))) (Keys_ o) (Repo o) = Ok (rman r) -> rindex r = Some sp -> rpacks r = summaryOf <$> ord ->
  orders o e (rman r) ord -> tabled (table sp) ord -> zlen ord < two32 -> intact e (rman r) infos -> live_ok live ls ->
  Apply o r live now grace e = (Ok out, e') -> novel e e' ->
  exists m' infos', sealedRoot e' m' /\ mroot m' = mroot (rman r) /\ intact e' m' infos' /\
    (forall h, h ∈ ls -> spared (rman r) infos h -> (forall p, p ∈ infos -> holdsChunk p h -> readable e p h) ->
      exists p, p ∈ infos' /\ readable e' p h /\ IName p ∉ condemnedPacks m' /\ IName p ∉ oExpired out) /\
    (forall p, p ∈ infos -> IName p ∈ oExpired out -> IName p ∉ (IName <$> infos') /\
      exists c, c ∈ condemneds (rman r) /\ (kind c = condemnedPack \/ kind c = repackedPack) /\ PackName (sum c) = IName p /\ grace <= sub64 now (at_ns c)) /\
    (forall n, n ∈ oOrphans out -> n ∉ (IName <$> infos') /\ n ∉ (indexName <$> Manifest.indexes m')).
Proof.
  intros Hv Hroot Hsp Hpk Hord Htab Hlen Hint Hlive Ha Hnov. destruct (Apply_stages _ _ _ _ _ _ _ Hv Ha) as (policy & counts & frames & x & cands & fresh & n & copied & recs & idx & gen & next & added & orphans & nexto & e1 & e2 & Ej & Ed & Ec & Er & Ei & Et & -> & Eend).
  set (d := readCondemneds now grace (rman r)) in *. pose proof (readCondemneds_ok now grace (rman r)) as HL. fold d in HL. pose proof Hlive as (Hle & Hls & Hlh).
  assert (Forall (fun x => info_ok x.1) ord) as Hok by (apply Forall_forall; intros y Hy; eapply listedIn_ok, Hord, Hy).
  rewrite (join_ok _ _ _ _ _ Hsp Hpk Htab Hok Hlen Hle Hls) in Ej. injection Ej as Ej. rewrite Hpk in Ed. replace counts with ((foldl (credit ord) (replicate (length ord) 0, replicate (length ord) 0) ls).1) in Ed by (by rewrite Ej).
  apply decidePacks_ok in Ed as (exp & recs0 & cands0 & Hdec); [|apply HL|apply HL]. pose proof (dc_expired _ _ _ _ _ _ _ _ _ _ _ _ Hdec) as Eexp. pose proof (dc_next _ _ _ _ _ _ _ _ _ _ _ _ Hdec) as Enext. cbn in Eexp, Enext.
  destruct (copyLive_ok o r live sp ord e (Manifest.indexes (rman r)) Hsp Hpk Htab Hlen (or_from _ _ _ _ Hord) _ _ _ _ _ _ _ _ (reflexivity e) Ec) as (_ & Hn0 & Hg1 & F & -> & HF & Hputs & Hnone & Hcopied).
  destruct (newIndexes_grows _ _ _ _ _ _ _ _ _ Ei) as [Hg2 Hsame]. cbn in Hsame.
  assert (blobs (bst e') = blobs (bst e2) /\ puts e' = puts e2) as [Hb Hp] by (destruct Eend as [(-> & _)|(? & ? & _)%swapManifest_ok]; done).
  pose proof (novel_same _ _ _ Hb Hp Hnov) as Hnov2. pose proof Hnov2 as [Hfa _]. destruct (freshPacks_ok F e e1 e2 infos _ HF Hputs Hg2 Hnov2 Hint) as (Hfi & Hfd & Hfs & Hfp).
  pose proof (open_sorted _ _ Hroot) as Hmok. pose proof (ksorted_sum_le _ (proj1 (proj2 (proj2 (proj2 Hmok))))) as Hsrt.
  assert ((0 <? xgone x) || (0 <? n) = false -> exp = [] /\ n = 0) as Hunch.
  { intros [Hg%Z.ltb_ge Hn%Z.ltb_ge]%orb_false_iff. pose proof (dc_gone _ _ _ _ _ _ _ _ _ _ _ _ Hdec) as Hgone. cbn in Hgone. split; [|lia]. destruct exp; [done|]. cbn in Hgone. lia. }
  assert (exp = [] -> forall p, p ∈ infos -> IName p ∈ xkeep x) as Hkeepall.
  { intros -> p Hpi. destruct (infos_ord _ _ _ _ Hint Hord p Hpi) as (y & [k Hk]%list_elem_of_lookup & <-). apply (dc_keep _ _ _ _ _ _ _ _ _ _ _ _ Hdec). right. exists k, (summaryOf y). rewrite list_lookup_fmap, Hk. split_and!; [done| |done].
    destruct (leaving _ _ _ _ _ _ _) eqn:El; [|done]. assert (IName y.1 ∈ ([] : list bytes)) as Hx; [|by apply elem_of_nil in Hx]. apply (dc_exp _ _ _ _ _ _ _ _ _ _ _ _ Hdec). exists k, (summaryOf y). rewrite list_lookup_fmap, Hk. split_and!; [done|by rewrite El|done]. }
  destruct (newIndexes_ok e (rman r) infos _ _ _ _ _ _ _ _ _ _ Ei Hint Hg1 Hfi Hfd Hfs Hfa ltac:(intros [? ?]%Hunch; split; [by apply Hnone|by apply Hkeepall]) Hsrt) as (_ & Hidx & (more & -> & Hmore) & Hnew).
  apply takeOrphans_ok in Et as (_ & Horph & orph & -> & Horphk). destruct (Hnew (mkManifest 0 0 zero_hash idx []) eq_refl) as (infos' & Hint' & Hmem).
  assert (forall p, p ∈ infos' -> IName p ∈ namedBy (xkeep x) (BInfo <$> F.*2) idx (((xnext x ++ recs)) ++ more)) as Hnamed.
  { intros p Hpi. unfold namedBy. apply Hmem in Hpi as [[_ Hk]|Hf]; [set_solver|]. rewrite !elem_of_union, !elem_of_list_to_set. left; left; right. by apply list_elem_of_fmap_2. }
  enough (exists m', Manifest.indexes m' = idx /\ mroot m' = mroot (rman r) /\ sealedRoot e' m' /\
    (forall h i en y, h ∈ ls -> creditOf 0 ord h = Some (i, en) -> ord !! i = Some y -> ~ repackedBy (rman r) (IName y.1) -> (forall cand, cand ∈ take (Z.to_nat n) cands -> ci cand <> i) -> IName y.1 ∉ condemnedPacks m') /\
    (forall p, p ∈ BInfo <$> F.*2 -> IName p ∉ condemnedPacks m')) as (m' & Hm' & Hroot' & Hopen & Hold & Hfr).
  { exists m', infos'. split_and!; [done|done|by eapply intact_same; [exact Hb| |exact Hint']| | |]; cbn [oExpired oOrphans].
    - intros h Hh Hsp' Hread. destruct (spared_credited _ _ _ _ Hint Hord h Hsp') as (i & en & y & Hc & Hy & Hen & Heh & Hnr).
      destruct (live_stays _ _ _ Hord now grace ls x exp recs0 cands0 Hdec h i en y Hh Hc Hy Hnr) as (Hkeep & _ & Hnexp).
      assert (y.1 ∈ infos) as Hyi by (eapply ord_infos; [done|done|by eapply list_elem_of_lookup_2]).
      assert (forall p, readable e2 p h -> readable e' p h) as Hrd by (intros p (b & t & en' & data & Hb' & Hrest); exists b, t, en', data; by rewrite Hb).
      destruct (decide (i ∈ (ci <$> take (Z.to_nat n) cands))) as [Hi|Hi].
      + apply list_elem_of_fmap in Hi as (cand & -> & Hcand). destruct (Hcopied cand h en Hcand) as (f & Hf & Hfh); [rewrite Hlh; by rewrite bool_decide_eq_true_2|done|].
        assert (BInfo f.2 ∈ (BInfo <$> F.*2)) as Hff by (by apply list_elem_of_fmap_2, list_elem_of_fmap_2). exists (BInfo f.2). rewrite Forall_forall in HF. split_and!; [apply Hmem; by right| |by apply Hfr|].
        * apply Hrd. apply (finished_readable f); [by apply HF|done|by apply Hfp|done].
        * rewrite Eexp, elem_of_app. intros [Hx|Hx].
          -- destruct (ls_expired _ _ HL _ Hx) as [s Hs]. destruct (finished_ok _ _ f (HF f Hf)) as (_ & Hn1 & Hn2 & _). rewrite Hn1, Hn2 in Hs. by apply names_differ in Hs.
          -- apply (dc_exp _ _ _ _ _ _ _ _ _ _ _ _ Hdec) in Hx as (k & p & Hp' & _ & En). rewrite list_lookup_fmap in Hp'. destruct (ord !! k) as [z|] eqn:Ez; [|done]. injection Hp' as <-. cbn in En.
             eapply (Hfd z.1); [eapply ord_infos; [done|done|by eapply list_elem_of_lookup_2]|]. rewrite <-En. by apply list_elem_of_fmap_2.
      + exists y.1. split_and!; [apply Hmem; by left| | |].
        * apply Hrd, (readable_grows e); [by etrans|]. apply Hread; [done|by exists en].
        * eapply Hold; [done..|]. intros cand Hcand <-. apply Hi. by apply list_elem_of_fmap_2.
        * rewrite Eexp, elem_of_app. intros [Hx|Hx]; [|done]. destruct (ls_expired _ _ HL _ Hx) as [s Hs]. destruct (listedIn_ok o e _ _ _ (or_from _ _ _ _ Hord y ltac:(by eapply list_elem_of_lookup_2))) as (_ & z & Hz). rewrite Hz in Hs. by apply names_differ in Hs.
    - intros p Hpi Hx. assert (IName p ∈ exp) as Hx'.
      { rewrite Eexp, elem_of_app in Hx. destruct Hx as [Hx|Hx]; [|done]. destruct (ls_expired _ _ HL _ Hx) as [s Hs]. destruct (infos_ord _ _ _ _ Hint Hord p Hpi) as (y & Hy & <-).
        destruct (listedIn_ok o e _ _ _ (or_from _ _ _ _ Hord y Hy)) as (_ & z & Hz). rewrite Hz in Hs. by apply names_differ in Hs. }
      destruct (expired_left _ _ _ Hord now grace ls x exp recs0 cands0 Hdec _ Hx') as [Hnk Hc]. split; [|done]. intros (q & En & Hq)%list_elem_of_fmap. rewrite En in Hnk. apply Hmem in Hq as [[_ Hk]|Hf]; [done|].
      apply (Hfd p Hpi). rewrite En. by apply list_elem_of_fmap_2.
    - intros nm Hnm. apply Horph in Hnm as [?%elem_of_nil|[Hnn _]]; [done|]. split; intros (q & -> & Hq)%list_elem_of_fmap; apply Hnn; [by apply Hnamed|]. unfold namedBy. rewrite Hm' in Hq. rewrite !elem_of_union, !elem_of_list_to_set. left; right. by apply list_elem_of_fmap_2. }
  destruct Eend as [(-> & Hrep & Hxe & ->)|Esw].
  - exists (rman r). assert (exp = []) as He by (rewrite Hxe in Eexp; by symmetry in Eexp; apply app_eq_nil in Eexp as [_ ?]). assert ((0 <? xgone x) || (0 <? 0) = false) as Hch.
    { rewrite orb_false_r. apply Z.ltb_ge. rewrite (dc_gone _ _ _ _ _ _ _ _ _ _ _ _ Hdec), He. done. }
    split_and!; [by rewrite Hsame|done| | |].
    + left. destruct Hg1 as (_ & Hr1 & _), Hg2 as (_ & Hr2 & _). by rewrite Hr2, Hr1.
    + intros h i en y Hh Hc Hy Hnr _ (c & Hcm & [Hk|Hk] & En)%condemnedPacks_elem; [|apply Hnr; by exists c]. destruct (dc_reprieved _ _ _ _ _ _ _ _ _ _ _ _ Hdec) as [_ Hlt]. cbn in Hlt.
      pose proof (live_counted ord ls h i en Hh Hc) as Hl. rewrite Hrep in Hlt. enough (0 < 0) by lia. apply (Hlt i (summaryOf y)); [by rewrite list_lookup_fmap, Hy|by apply not_repacked|done|]. apply (ls_is_condemned _ _ HL). by exists c.
    + rewrite (Hnone eq_refl). by intros p ?%elem_of_nil.
  - exists (mkManifest (u64 (seq (rman r) + 1)) gen (mroot (rman r)) idx ((((xnext x ++ recs)) ++ more) ++ orph)). cbn [Manifest.indexes mroot condemneds].
    assert (forall p, IName p ∈ condemnedPacks (mkManifest (u64 (seq (rman r) + 1)) gen (mroot (rman r)) idx ((((xnext x ++ recs)) ++ more) ++ orph)) ->
      (exists c, c ∈ recs0 /\ PackName (sum c) = IName p) \/ (exists cand z, cand ∈ take (Z.to_nat n) cands /\ ord !! ci cand = Some z /\ IName z.1 = IName p)) as Hcn.
    { intros p (c & Hc & Hk & En)%condemnedPacks_elem. cbn [condemneds] in Hc. rewrite Enext in Hc. destruct (next_condemned _ _ _ _ _ _ _ HL Hmore Horphk Hc Hk) as [Hx|Hx]; [left; by exists c|right].
      destruct (repackRecords_ok _ _ _ _ Er c Hx) as (cand & q & Hcand & Hq & Hn). rewrite Hpk, list_lookup_fmap in Hq. destruct (ord !! ci cand) as [z|] eqn:Ez; [|done]. injection Hq as <-. cbn [psname summaryOf] in Hn. exists cand, z. split_and!; [done|done|congruence]. }
    split_and!; [done|done| | |].
    + by apply swapManifest_ok in Esw as (_ & _ & Ho).
    + intros h i en y Hh Hc Hy Hnr Hno [(c & Hcr & En)|(cand & z & Hcand & Hz & En)]%Hcn.
      * destruct (live_stays _ _ _ Hord now grace ls x exp recs0 cands0 Hdec h i en y Hh Hc Hy Hnr) as (_ & Hr0 & _). by eapply Hr0.
      * eapply Hno; [exact Hcand|]. eapply ord_index; [exact Hord|exact Hz|exact Hy|exact En].
    + intros p Hpf Hcp. assert (exists z, z ∈ ord /\ IName z.1 = IName p) as (z & Hz & En).
      { apply Hcn in Hcp as [(c & Hcr & En)|(cand & z & _ & Hz & En)]; [|exists z; split; [by eapply list_elem_of_lookup_2|done]].
        destruct (dc_recs _ _ _ _ _ _ _ _ _ _ _ _ Hdec c Hcr) as (k & q & Hq & En' & _). rewrite list_lookup_fmap in Hq. destruct (ord !! k) as [z|] eqn:Ez; [|done]. injection Hq as <-. cbn [psname summaryOf] in En'. exists z. split; [by eapply list_elem_of_lookup_2|congruence]. }
      eapply (Hfd z.1); [by eapply ord_infos|]. rewrite En. by apply list_elem_of_fmap_2.
Qed.

Lemma orders_grows e e' man infos ord : grows e e' -> intact e man infos -> orders o e man ord -> orders o e' man ord.
Proof.
  intros Hg Hint [O1 O2 O3 O4]. split; [done|intros x Hx; by eapply listedIn_grows, O2| |done]. intros p s (g & Hs & Hh & Hi). destruct (it_lists _ _ _ Hint) as (gs & Hgs & _).
  pose proof Hs as [i Hi']%list_elem_of_lookup. destruct (Forall2_lookup_l _ _ _ _ _ Hgs Hi') as (g' & _ & Hg'). apply (O3 p s). exists g'. split_and!; [done|done|].
  by rewrite <-(holdsIndex_fun _ _ _ _ _ Hh (holdsIndex_grows _ _ _ _ _ Hg Hg')).
Qed.

(** C3. A collection's round loses nothing live. From an intact repository (every
    listed pack is stored) a round begins; other writers may add objects; the
    round applies, with any policy of repacking and any orphans, to a set of
    live chunks. If it succeeds, what it put under new names being stored as
    given, then the root's value is a manifest [m'] with the same root hash:
    it opens to [m'], or is the seal of [m'], which opens to it when [m'] is
    within the codec's limits. The repository is intact again under [m']. Every live chunk some pack in service had, or some condemned pack
    and none already repacked, can be read from a pack in service that did not
    expire, whether its pack stayed, was reprieved or was copied. A pack
    expires on a record of its own at least [grace] old and is listed no more;
    an orphan reported for deletion is a name the new manifest does not list. *)
Theorem live_chunks_survive_a_round zero policy orphans live ls now grace e0 r e1 e2 out e3 infos :
  Begin o zero e0 = (Ok r, e1) -> rver r <> NoVersion -> intact e0 (rman r) infos -> zlen infos < two32 -> grows e1 e2 -> live_ok live ls ->
  Apply o (Orphans (SetRepack r policy) orphans) live now grace e2 = (Ok out, e3) -> novel e2 e3 ->
  exists m' infos',
    (openManifest (Value (broot (bst e3))) (Keys_ o) (Repo o) = Ok m' \/
     exists salt nonce, zlen nonce = NonceSize /\ seal salt nonce (Keys_ o) (Repo o) m' = Ok (Value (broot (bst e3)))) /\
    (manifest_ok m' -> openManifest (Value (broot (bst e3))) (Keys_ o) (Repo o) = Ok m') /\ mroot m' = RoundRoot r /\ intact e3 m' infos' /\
    (forall h, h ∈ ls -> spared (rman r) infos h -> (forall p, p ∈ infos -> holdsChunk p h -> readable e2 p h) ->
      exists p, p ∈ infos' /\ readable e3 p h /\ IName p ∉ condemnedPacks m' /\ IName p ∉ oExpired out) /\
    (forall p, p ∈ infos -> IName p ∈ oExpired out -> IName p ∉ (IName <$> infos') /\
      exists c, c ∈ condemneds (rman r) /\ (kind c = condemnedPack \/ kind c = repackedPack) /\ PackName (sum c) = IName p /\ grace <= sub64 now (at_ns c)) /\
    (forall n, n ∈ oOrphans out -> n ∉ (IName <$> infos') /\ n ∉ (indexName <$> Manifest.indexes m')).
Proof.
  intros Hb Hv Hint Hn Hg Hlive Ha Hnov. destruct (Begin_ok _ _ _ _ Hb Hv) as ((_ & Hg1 & _) & Hopen & _ & sp & ord & Hsp & Hord & Hpk & Htab).
  pose proof (ord_length _ _ _ _ Hint Hord) as Hlen. pose proof (transitivity Hg1 Hg) as Hg2. assert (zlen ord < two32) as Hlen' by lia.
  edestruct (round_keeps (Orphans (SetRepack r policy) orphans) sp ord live ls now grace e2 out e3 infos) as (m' & infos' & Hs & Hrest);
    cbn [rver rman rindex rpacks Orphans SetRepack]; try done; [..|exists m', infos'; split; [exact Hs|split; [by apply sealedRoot_opens|exact Hrest]]].
  - destruct Hg2 as (_ & -> & _). exact Hopen.
  - by eapply orders_grows.
  - by apply Htab.
  - by eapply intact_grows.
Qed.
End Apply.
