(* ===== verification/GcExample.v ===== *)
(** * core/chunk/packstore: rounds on small repositories

    Repositories in memory with a few packs, built and collected by evaluation:
    a round that repacks one pack and condemns another, and one that loses a
    live chunk. *)

From S2P Require Import Prelude GoStd Wire Hash ChunkStore Blob Table Seal Manifest Pack Dedup PsIndex GcRound GcLoad GcSafe.

(** Quotients compared exactly. *)
#[local] Instance exFloat : Float64 := {|
  f64 := Z * Z; quot a b := (a, b); fltb a b := a.1 * b.2 <? b.1 * a.2; feqb a b := a.1 * b.2 =? b.1 * a.2;
  f0 := (0, 1); f1 := (1, 1); fhalf := (1, 2) |}.
#[local] Existing Instance toy_hasher.
#[local] Existing Instance Mem.store.
#[local] Existing Instance MemOk.mem_ok.
#[local] Instance exZstd : Zstd := {| EncodeAll := fun d => d; DecodeAll := Some |}.
#[local] Instance exZstd_ok : ZstdOk.
Proof. done. Qed.
#[local] Instance exDraws : Draws.
Proof. refine {| rand i := (to_hash [Zb (Z.of_nat i); Byte.x01], replicate 12 (Zb (Z.of_nat i))); backendClock i := Z.of_nat i |}. intros i. done. Defined.

Definition exOptions : Options := mkOptions exKeyring exRepoID 0.

(** A pack of chunks, stored. *)
Fixpoint exAddAll (l : list bytes) (w : Writer) : M (env Mem.Store) Writer :=
  match l with
  | [] => mret w
  | d :: l => '(_, n) ← draw; let '(r, w) := Pack.Add n (Sum d) d w in liftR r ;; exAddAll l w
  end.

Definition exPack (l : list bytes) : M (env Mem.Store) Info :=
  '(salt, _) ← draw;
  w ← liftR (NewWriter salt exKeyring exRepoID DefaultPackSize);
  w ← exAddAll l w;
  '(_, n) ← draw;
  b ← liftR (Pack.Finish n w).1;
  putOnce (BName b) (BBytes b) ;;
  mret (BInfo b).

(** A manifest of the packs, with the condemned [cs] makes of them. *)
Definition exRepo (ps : list (list bytes)) (root : hash) (cs : list Info -> list condemned) : M (env Mem.Store) unit :=
  infos ← (fix go ps := match ps with [] => mret [] | p :: ps => i ← exPack p; l ← go ps; mret (i :: l) end) ps;
  '(salt, n) ← draw;
  '(name, b) ← liftR (EncodeObject salt n exKeyring exRepoID infos);
  putOnce name b ;;
  s ← liftR (indexSum name);
  swapManifest exOptions NoVersion (mkManifest 1 0 root [s] (cs infos)).

Definition exStart (m : M (env Mem.Store) unit) : env Mem.Store := (m (mkEnv Mem.New 0 [])).2.

Definition exZero : Repack := mkRepack (0, 1) 0 false.

Definition exLive (ls : list hash) : Live := mkLive (fun h => Ok (bool_decide (h ∈ ls))) (zlen ls) (Ok ls).

Definition exOne : bytes := str "the first chunk, which is kept by every collection".
Definition exTwo : bytes := str "a chunk that nothing refers to any more, longer than the first one is".

(** What a round began from, with the store then; and what applying it gave. *)
Definition exBegun (e : env Mem.Store) : Round * env Mem.Store :=
  match Begin exOptions exZero e with (Ok r, e) => (r, e) | (Err _, e) => (mkRound zeroManifest NoVersion [] None [] exZero, e) end.
Definition exApplied (ls : list hash) (now grace : Z) (e : env Mem.Store) : Outcome * env Mem.Store :=
  let '(r, e) := exBegun e in
  match Apply exOptions (Orphans (SetRepack r exZero) []) (exLive ls) now grace e with (Ok out, e) => (out, e) | (Err _, e) => (noOutcome, e) end.

Lemma exBegun_ok e : is_ok (Begin exOptions exZero e).1 = true -> Begin exOptions exZero e = (Ok (exBegun e).1, (exBegun e).2).
Proof. unfold exBegun. by destruct (Begin exOptions exZero e) as [[r|] e1]. Qed.

Lemma exApplied_ok ls now grace e : is_ok (Apply exOptions (Orphans (SetRepack (exBegun e).1 exZero) []) (exLive ls) now grace (exBegun e).2).1 = true ->
  Apply exOptions (Orphans (SetRepack (exBegun e).1 exZero) []) (exLive ls) now grace (exBegun e).2 = (Ok (exApplied ls now grace e).1, (exApplied ls now grace e).2).
Proof. unfold exApplied. destruct (exBegun e) as [r e1]. cbn [fst snd]. by destruct (Apply _ _ _ _ _ _) as [[out|] e2]. Qed.

(** The packs an environment's manifest lists. *)
Definition exListed (e : env Mem.Store) : list Info :=
  match Manifest.indexes (rman (exBegun e).1) with
  | [s] => match (loadIndex exOptions s e).1 with Ok infos => infos | Err _ => [] end
  | _ => []
  end.

(** ** Checks by evaluation *)

Definition holdsb (p : Info) (h : hash) : bool := existsb (fun en => bool_decide (EHash en = h)) (IEntries p).

Definition readsb (e : env Mem.Store) (p : Info) (h : hash) : bool :=
  match blobs (bst e) !! IName p with
  | Some (b, _) => existsb (fun en => bool_decide (EHash en = h) && is_ok (readAt exKeyring exRepoID b (mkLocation (refOf p) en))) (IEntries p)
  | None => false
  end.

Lemma readsb_ok e p h : readsb e p h = true -> readable exOptions e p h.
Proof.
  unfold readsb. destruct (blobs (bst e) !! IName p) as [[b t]|] eqn:E; [|done]. intros (en & Hi%list_elem_of_In & [Hh%bool_decide_eq_true [data Hr]%is_Ok_inv]%andb_true_iff)%existsb_exists. by exists b, t, en, data.
Qed.

Lemma holdsb_ok p h : holdsb p h = true <-> holdsChunk p h.
Proof.
  unfold holdsb. rewrite existsb_exists. split.
  - intros (en & Hi%list_elem_of_In & Hh%bool_decide_eq_true). by exists en.
  - intros (en & Hi & Hh). exists en. by rewrite <-list_elem_of_In, bool_decide_eq_true.
Qed.

Definition intactb (e : env Mem.Store) (man : manifest) (infos : list Info) : bool :=
  bool_decide (NoDup (IName <$> infos)) && forallb (fun p => bool_decide (is_Some (blobs (bst e) !! IName p))) infos &&
  match Manifest.indexes man with
  | [s] => match blobs (bst e) !! indexName s with
           | Some (b, _) => bool_decide (DecodeObject exKeyring exRepoID (indexName s) (readLimited (Dedup.MaxObjectSize + 1) b) = Ok infos)
           | None => false
           end
  | _ => false
  end.

Lemma intactb_ok e man infos : intactb e man infos = true -> intact exOptions e man infos.
Proof.
  intros [[Hnd%bool_decide_eq_true Hst]%andb_true_iff Hix]%andb_true_iff. rewrite forallb_forall in Hst. split.
  - destruct (Manifest.indexes man) as [|s [|]]; [done| |done]. destruct (blobs (bst e) !! indexName s) as [[b t]|] eqn:Eb; [|done]. apply bool_decide_eq_true in Hix.
    exists [infos]. cbn [concat]. rewrite app_nil_r. split; [|done]. constructor; [|constructor]. by exists b, t.
  - intros p q [i Hi]%list_elem_of_lookup [j Hj]%list_elem_of_lookup En. enough (i = j) by congruence. apply (NoDup_lookup _ i j (IName p) Hnd); rewrite list_lookup_fmap; [by rewrite Hi|by rewrite Hj, En].
  - intros p Hp%list_elem_of_In. by apply Hst, bool_decide_eq_true in Hp.
Qed.

Definition novelb (e e' : env Mem.Store) : bool :=
  let l := take (length (puts e') - length (puts e)) (puts e') in
  forallb (fun p => match blobs (bst e') !! p.1 with Some (b, _) => bool_decide (b = p.2) | None => false end) (puts e') &&
  bool_decide (puts e' = l ++ puts e) && bool_decide (NoDup l.*1) && forallb (fun n => bool_decide (blobs (bst e) !! n = None)) l.*1.

Lemma novelb_ok e e' : novelb e e' = true -> novel e e'.
Proof.
  unfold novelb. intros [[[Hf Hp%bool_decide_eq_true]%andb_true_iff Hnd%bool_decide_eq_true]%andb_true_iff Hn]%andb_true_iff. rewrite forallb_forall in Hf, Hn. split.
  - apply Forall_forall. intros p Hi%list_elem_of_In%Hf. destruct (blobs (bst e') !! p.1) as [[b t]|]; [|done]. apply bool_decide_eq_true in Hi as ->. by exists t.
  - eexists. split_and!; [exact Hp|exact Hnd|]. intros n Hi%list_elem_of_In%Hn. by apply bool_decide_eq_true in Hi.
Qed.

(** ** A round that repacks and condemns *)

(** One pack holds a live chunk and a longer dead one, the other a dead one. *)
Definition exEnv : env Mem.Store := exStart (exRepo [[exOne; exTwo]; [str "three"]] (Sum exOne) (fun _ => [])).

Lemma live_chunks_survive_a_round_witness :
  let out := (exApplied [Sum exOne] 1000 100 exEnv).1 in let e := (exApplied [Sum exOne] 1000 100 exEnv).2 in
  oRepacked out = 1 /\ oCondemned out = 1 /\
  exists m' infos', sealedRoot exOptions e m' /\ mroot m' = Sum exOne /\ intact exOptions e m' infos' /\ exists p, p ∈ infos' /\ readable exOptions e p (Sum exOne) /\ IName p ∉ condemnedPacks m'.
Proof.
  split; [vm_compute; reflexivity|]. split; [vm_compute; reflexivity|].
  destruct (live_chunks_survive_a_round exOptions exZero exZero [] (exLive [Sum exOne]) [Sum exOne] 1000 100 exEnv (exBegun exEnv).1 (exBegun exEnv).2 (exBegun exEnv).2
    (exApplied [Sum exOne] 1000 100 exEnv).1 (exApplied [Sum exOne] 1000 100 exEnv).2 (exListed exEnv)) as (m' & infos' & Hs & _ & Hm & Hi & Hl & _).
  - apply exBegun_ok. vm_compute. reflexivity.
  - vm_compute. discriminate.
  - apply intactb_ok. vm_compute. reflexivity.
  - vm_compute. reflexivity.
  - reflexivity.
  - split; [reflexivity|]. split; [repeat constructor|]. intros h. reflexivity.
  - apply exApplied_ok. vm_compute. reflexivity.
  - apply novelb_ok. vm_compute. reflexivity.
  - exists m', infos'. split; [exact Hs|]. split; [rewrite Hm; vm_compute; reflexivity|]. split; [exact Hi|]. destruct (Hl (Sum exOne)) as (p & Hp & Hr & Hc & _); [by left| | |exists p; split; [exact Hp|split; [exact Hr|exact Hc]]].
    + assert (existsb (fun p => holdsb p (Sum exOne)) (exListed exEnv) = true) as (p & Hp%list_elem_of_In & Hh%holdsb_ok)%existsb_exists by (vm_compute; reflexivity).
      left. exists p. split; [exact Hp|split; [exact Hh|]]. rewrite condemnedPacks_elem. assert (condemneds (rman (exBegun exEnv).1) = []) as -> by (vm_compute; reflexivity). by intros (c & ?%elem_of_nil & _).
    + assert (forallb (fun p => negb (holdsb p (Sum exOne)) || readsb (exBegun exEnv).2 p (Sum exOne)) (exListed exEnv) = true) as Hall by (vm_compute; reflexivity).
      rewrite forallb_forall in Hall. intros p Hp%list_elem_of_In Hh%holdsb_ok. specialize (Hall p Hp). rewrite Hh in Hall. by apply readsb_ok.
Defined.

(** ** A round that loses a live chunk *)

(** Both packs hold the live chunk and neither is in service: the first listed
    was repacked, the other condemned. *)
Definition exMarks (infos : list Info) : list condemned :=
  match infos with
  | [a; b] =>
      let '(a, b) := if bltb (IName a) (IName b) then (a, b) else (b, a) in
      match PackSum (IName a), PackSum (IName b) with
              | Ok sa, Ok sb => [mkCondemned repackedPack sa 0; mkCondemned condemnedPack sb 0]
              | _, _ => []
              end
  | _ => []
  end.

Definition exLoss : env Mem.Store := exStart (exRepo [[exOne]; [exOne; exTwo]] (Sum exOne) exMarks).

Definition repackedb (man : manifest) (n : bytes) : bool := existsb (fun c => (kind c =? repackedPack) && bool_decide (n = PackName (sum c))) (condemneds man).

Lemma repackedb_ok man n : repackedb man n = true <-> repackedBy man n.
Proof.
  unfold repackedb. rewrite existsb_exists. setoid_rewrite andb_true_iff. setoid_rewrite Z.eqb_eq. setoid_rewrite bool_decide_eq_true. setoid_rewrite <-list_elem_of_In. done.
Qed.

Definition exNth (i : nat) (infos : list Info) : Info := nth i infos (mkInfo [] zero_hash 0 []).

Definition exOpen (e : env Mem.Store) : manifest := match openManifest (Value (broot (bst e))) exKeyring exRepoID with Ok m => m | Err _ => zeroManifest end.

Lemma exOpen_ok e : is_ok (openManifest (Value (broot (bst e))) exKeyring exRepoID) = true -> openManifest (Value (broot (bst e))) exKeyring exRepoID = Ok (exOpen e).
Proof. unfold exOpen. by destruct (openManifest _ _ _). Qed.

(** C38. A condemned pack with a live chunk is not always reprieved. There is an
    intact repository in which a pack that was repacked, listed first, and one
    that is condemned both hold the live root chunk, and it reads from either;
    the round counts the chunk for the first of them listed and none for the
    other, reprieves nothing and lets both expire together. The manifest
    swapped in has the root and lists no pack at all. *)
Theorem a_condemned_pack_is_not_reprieved :
  exists r e1 out e2 m p q frames,
    Begin exOptions exZero exLoss = (Ok r, e1) /\ intact exOptions exLoss (rman r) [p; q] /\
    readable exOptions e1 p (RoundRoot r) /\ readable exOptions e1 q (RoundRoot r) /\ repackedBy (rman r) (IName p) /\ ~ repackedBy (rman r) (IName q) /\
    IName q ∈ condemnedPacks (rman r) /\
    psname <$> rpacks r = [IName p; IName q] /\ join r (exLive [RoundRoot r]) = Ok ([1; 0], frames) /\
    Apply exOptions (Orphans (SetRepack r exZero) []) (exLive [RoundRoot r]) 1000 100 e1 = (Ok out, e2) /\
    oReprieved out = 0 /\ oExpired out = [IName p; IName q] /\
    openManifest (Value (broot (bst e2))) exKeyring exRepoID = Ok m /\ mroot m = RoundRoot r /\ Manifest.indexes m = [].
Proof.
  set (r := (exBegun exLoss).1). set (x := exApplied [RoundRoot r] 1000 100 exLoss).
  exists r, (exBegun exLoss).2, x.1, x.2, (exOpen x.2), (exNth 0 (exListed exLoss)), (exNth 1 (exListed exLoss)),
    (match join r (exLive [RoundRoot r]) with Ok cf => cf.2 | Err _ => [] end).
  split; [apply exBegun_ok; vm_compute; reflexivity|]. split; [apply intactb_ok; vm_compute; reflexivity|].
  split; [apply readsb_ok; vm_compute; reflexivity|]. split; [apply readsb_ok; vm_compute; reflexivity|].
  split; [apply repackedb_ok; vm_compute; reflexivity|].
  split; [rewrite <-repackedb_ok; vm_compute; discriminate|].
  split; [apply (bool_decide_eq_true_1 (_ ∈ _)); vm_compute; reflexivity|].
  split; [vm_compute; reflexivity|]. split; [vm_compute; reflexivity|].
  split; [apply exApplied_ok; vm_compute; reflexivity|]. split; [vm_compute; reflexivity|]. split; [vm_compute; reflexivity|].
  split; [apply exOpen_ok; vm_compute; reflexivity|]. split; vm_compute; reflexivity.
Qed.
