(* ===== verification/Conc.v ===== *)
(** * Programs beside other writers

    A store is shared: between any two calls a program makes, other writers may
    store chunks and move the root. [conc] runs a program under every such
    interference, and records where it looked at the root and what became of
    the swaps it tried. Chunks only ever come, as in [exec]. *)

From S2P Require Import Prelude Hash ChunkStore Prog.

(** A look at the root, a swap made, a swap refused (with the root there then). *)
Inductive event := Looked (rt : hash) | Swapped (expected next : hash) | Refused (expected next seen : hash).

Definition swaps (tr : list event) : list (hash * hash) :=
  omap (fun ev => match ev with Swapped e n => Some (e, n) | _ => None end) tr.

Section Conc.
Context `{Hasher}.

Inductive conc {A} : view -> hash -> prog A -> list event -> res A -> view -> hash -> Prop :=
| conc_ret v rt r : conc v rt (Ret r) [] r v rt
| conc_env v rt p v1 rt1 tr r v' rt' : v ⊆ v1 -> conc v1 rt1 p tr r v' rt' -> conc v rt p tr r v' rt'
| conc_read v rt B (f : creader -> res B) k tr r v' rt' :
    conc v rt (k (f (vget v))) tr r v' rt' -> conc v rt (ReadOp f k) tr r v' rt'
| conc_big v rt b k tr r v' rt' : MaxChunkSize < zlen b ->
    conc v rt (k (Err ChunkTooLarge)) tr r v' rt' -> conc v rt (PutOp b k) tr r v' rt'
| conc_put v rt b k tr r v' rt' : zlen b <= MaxChunkSize ->
    conc (vput v b) rt (k (Ok (Sum b))) tr r v' rt' -> conc v rt (PutOp b k) tr r v' rt'
| conc_root v rt k tr r v' rt' :
    conc v rt (k (Ok rt)) tr r v' rt' -> conc v rt (RootOp k) (Looked rt :: tr) r v' rt'
| conc_swap v rt e n k tr r v' rt' : vcas v rt e n = (Ok tt, n) ->
    conc v n (k (Ok tt)) tr r v' rt' -> conc v rt (CasOp e n k) (Swapped e n :: tr) r v' rt'
| conc_refused v rt e n k x tr r v' rt' : vcas v rt e n = (Err x, rt) ->
    conc v rt (k (Err x)) tr r v' rt' -> conc v rt (CasOp e n k) (Refused e n rt :: tr) r v' rt'.

(** Alone, a program runs as [exec] says. *)
Lemma conc_exec {A} (p : prog A) : forall v rt, exists tr,
  conc v rt p tr (exec v rt p).1.1 (exec v rt p).1.2 (exec v rt p).2.
Proof.
  induction p as [r|B f k IH|b k IH|k IH|e n k IH]; intros v rt; simpl.
  - eexists. apply conc_ret.
  - destruct (IH (f (vget v)) v rt) as [tr Htr]. exists tr. by apply conc_read.
  - destruct (Z.ltb_spec MaxChunkSize (zlen b)).
    + destruct (IH (Err ChunkTooLarge) v rt) as [tr Htr]. exists tr. by apply conc_big.
    + destruct (IH (Ok (Sum b)) (vput v b) rt) as [tr Htr]. exists tr. by apply conc_put.
  - destruct (IH (Ok rt) v rt) as [tr Htr]. eexists. by apply conc_root.
  - destruct (vcas v rt e n) as [x rt1] eqn:E. destruct (IH x v rt1) as [tr Htr].
    assert ((x = Ok tt /\ rt1 = n) \/ exists y, x = Err y /\ rt1 = rt) as [[-> ->]|(y & -> & ->)].
    { revert E. unfold vcas. destruct (_ || _); [intros [= <- <-]; eauto|]. case_bool_decide; intros [= <- <-]; eauto. }
    + eexists. by apply conc_swap.
    + eexists. by eapply conc_refused.
Qed.

(** What a run begins with, after whatever the others did first. *)
Lemma conc_inv {A} (p : prog A) v rt tr r v' rt' : conc v rt p tr r v' rt' -> exists v0 rt0, v ⊆ v0 /\
  match p with
  | Ret x => tr = [] /\ r = x /\ v' = v0 /\ rt' = rt0
  | ReadOp f k => conc v0 rt0 (k (f (vget v0))) tr r v' rt'
  | PutOp b k => (MaxChunkSize < zlen b /\ conc v0 rt0 (k (Err ChunkTooLarge)) tr r v' rt') \/
                 (zlen b <= MaxChunkSize /\ conc (vput v0 b) rt0 (k (Ok (Sum b))) tr r v' rt')
  | RootOp k => exists tr1, tr = Looked rt0 :: tr1 /\ conc v0 rt0 (k (Ok rt0)) tr1 r v' rt'
  | CasOp e n k => exists tr1,
      (vcas v0 rt0 e n = (Ok tt, n) /\ tr = Swapped e n :: tr1 /\ conc v0 n (k (Ok tt)) tr1 r v' rt') \/
      (exists x, vcas v0 rt0 e n = (Err x, rt0) /\ tr = Refused e n rt0 :: tr1 /\ conc v0 rt0 (k (Err x)) tr1 r v' rt')
  end.
Proof.
  induction 1 as [v rt r|v rt p v1 rt1 tr r v' rt' Hv _ (v0 & rt0 & Hv0 & IH)|v rt C g k tr r v' rt' Hc _|v rt b k tr r v' rt' Hb Hc _
    |v rt b k tr r v' rt' Hb Hc _|v rt k tr r v' rt' Hc _|v rt e n k tr r v' rt' He Hc _|v rt e n k y tr r v' rt' He Hc _];
    [..|exists v, rt; split; [done|]; eauto 10].
  all: first [exists v0, rt0; split; [by etrans|]; exact IH|exists v, rt; split; [done|]; eauto 10].
Qed.

Lemma conc_try {A B} (p : prog A) (f : res A -> prog B) : forall v rt tr r v' rt',
  conc v rt (try_ p f) tr r v' rt' ->
  exists tr1 x v1 rt1 tr2, conc v rt p tr1 x v1 rt1 /\ conc v1 rt1 (f x) tr2 r v' rt' /\ tr = tr1 ++ tr2.
Proof.
  induction p as [x|C g k IH|b k IH|k IH|e n k IH]; intros v rt tr r v' rt' Hc; cbn [try_] in Hc.
  { exists [], x, v, rt, tr. split_and!; [apply conc_ret|done|done]. }
  all: apply conc_inv in Hc as (v0 & rt0 & Hv & Hc).
  - apply IH in Hc as (tr1 & x & v1 & rt1 & tr2 & H1 & H2 & ->). exists tr1, x, v1, rt1, tr2. split_and!; [|done|done].
    eapply conc_env; [done|]. by apply conc_read.
  - destruct Hc as [[Hb Hc]|[Hb Hc]]; apply IH in Hc as (tr1 & x & v1 & rt1 & tr2 & H1 & H2 & ->);
      exists tr1, x, v1, rt1, tr2; split_and!; try done; (eapply conc_env; [done|]); [by apply conc_big|by apply conc_put].
  - destruct Hc as (tr0 & -> & Hc). apply IH in Hc as (tr1 & x & v1 & rt1 & tr2 & H1 & H2 & ->).
    exists (Looked rt0 :: tr1), x, v1, rt1, tr2. split_and!; [|done|done]. eapply conc_env; [done|]. by apply conc_root.
  - destruct Hc as (tr0 & [(He & -> & Hc)|(y & He & -> & Hc)]); apply IH in Hc as (tr1 & x & v1 & rt1 & tr2 & H1 & H2 & ->).
    + exists (Swapped e n :: tr1), x, v1, rt1, tr2. split_and!; [|done|done]. eapply conc_env; [done|]. by apply conc_swap.
    + exists (Refused e n rt0 :: tr1), x, v1, rt1, tr2. split_and!; [|done|done]. eapply conc_env; [done|]. by eapply conc_refused.
Qed.

(** Chunks only come. *)
Lemma conc_grows {A} (p : prog A) v rt tr r v' rt' : conc v rt p tr r v' rt' -> v ⊆ v'.
Proof.
  induction 1 as [|? ? ? ? ? ? ? ? ? Hv _ IH| | |v rt b k tr r v' rt' _ _ IH| | |]; try done; [by etrans|].
  etrans; [|exact IH]. apply vput_grows.
Qed.

Lemma conc_bind_in {A B} (p : prog A) (f : A -> prog B) v rt tr r v' rt' :
  conc v rt (p ≫= f) tr r v' rt' ->
  exists tr1 x v1 rt1, conc v rt p tr1 x v1 rt1 /\ v ⊆ v1 /\ v1 ⊆ v' /\
    match x with
    | Ok a => exists tr2, conc v1 rt1 (f a) tr2 r v' rt' /\ tr = tr1 ++ tr2
    | Err e => r = Err e /\ tr = tr1
    end.
Proof.
  intros (tr1 & x & v1 & rt1 & tr2 & H1 & H2 & ->)%conc_try. exists tr1, x, v1, rt1.
  split_and!; [done|by eapply conc_grows|by eapply conc_grows|]. destruct x; [by eauto|].
  apply conc_inv in H2 as (? & ? & _ & -> & -> & _). by rewrite app_nil_r.
Qed.

Lemma conc_bind {A B} (p : prog A) (f : A -> prog B) v rt tr r v' rt' :
  conc v rt (p ≫= f) tr r v' rt' ->
  exists tr1 x v1 rt1, conc v rt p tr1 x v1 rt1 /\
    match x with
    | Ok a => exists tr2, conc v1 rt1 (f a) tr2 r v' rt' /\ tr = tr1 ++ tr2
    | Err e => r = Err e /\ tr = tr1
    end.
Proof. intros (tr1 & x & v1 & rt1 & H1 & _ & _ & Hx)%conc_bind_in. by exists tr1, x, v1, rt1. Qed.

(** ** Programs that leave the root alone *)

(** No look at the root and no swap. *)
Fixpoint rootless {A} (p : prog A) : Prop :=
  match p with
  | Ret _ => True
  | ReadOp _ k => forall r, rootless (k r)
  | PutOp _ k => forall r, rootless (k r)
  | _ => False
  end.

(** No swap. *)
Fixpoint swapless {A} (p : prog A) : Prop :=
  match p with
  | Ret _ => True
  | ReadOp _ k => forall r, swapless (k r)
  | PutOp _ k => forall r, swapless (k r)
  | RootOp k => forall r, swapless (k r)
  | CasOp _ _ _ => False
  end.

Lemma rootless_swapless {A} (p : prog A) : rootless p -> swapless p.
Proof. induction p; simpl; auto. done. Qed.

Lemma rootless_try {A B} (p : prog A) (f : res A -> prog B) : rootless p -> (forall r, rootless (f r)) -> rootless (try_ p f).
Proof. induction p; simpl; auto; done. Qed.

Lemma rootless_bind {A B} (p : prog A) (f : A -> prog B) : rootless p -> (forall a, rootless (f a)) -> rootless (p ≫= f).
Proof. intros Hp Hf. apply rootless_try; [done|]. by intros [a|e]; simpl. Qed.

Lemma swapless_bind {A B} (p : prog A) (f : A -> prog B) : swapless p -> (forall a, swapless (f a)) -> swapless (p ≫= f).
Proof.
  intros Hp Hf. unfold mbind, prog_bind. induction p as [[a|e]|C g k IH|b k IH|k IH|e n k IH]; simpl in *; auto; done.
Qed.

Lemma rootless_reads {A} (p : prog A) : reads_only p -> rootless p.
Proof. induction p; simpl; auto; done. Qed.

Lemma rootless_puts {A} (p : prog A) : puts_only p -> rootless p.
Proof. induction p; simpl; auto; done. Qed.

Lemma conc_rootless {A} (p : prog A) : rootless p -> forall v rt tr r v' rt', conc v rt p tr r v' rt' -> tr = [].
Proof.
  induction p as [x|C g k IH|b k IH|k IH|e n k IH]; simpl; try done; intros Hp v rt tr r v' rt' (v0 & rt0 & _ & Hc)%conc_inv.
  - tauto.
  - by eapply IH.
  - destruct Hc as [[_ Hc]|[_ Hc]]; by eapply IH.
Qed.

Lemma conc_swapless {A} (p : prog A) : swapless p -> forall v rt tr r v' rt', conc v rt p tr r v' rt' -> swaps tr = [].
Proof.
  induction p as [x|C g k IH|b k IH|k IH|e n k IH]; simpl; try done; intros Hp v rt tr r v' rt' (v0 & rt0 & _ & Hc)%conc_inv.
  - by destruct Hc as (-> & _).
  - by eapply IH.
  - destruct Hc as [[_ Hc]|[_ Hc]]; by eapply IH.
  - destruct Hc as (tr1 & -> & Hc). exact (IH _ (Hp _) _ _ _ _ _ _ Hc).
Qed.
End Conc.

(** What holds of every value a program can return. *)
Fixpoint answers {A} (Q : A -> Prop) (p : prog A) : Prop :=
  match p with
  | Ret (Ok a) => Q a
  | Ret (Err _) => True
  | ReadOp _ k => forall r, answers Q (k r)
  | PutOp _ k => forall r, answers Q (k r)
  | RootOp k => forall r, answers Q (k r)
  | CasOp _ _ k => forall r, answers Q (k r)
  end.

Lemma answers_bind {A B} (Q : A -> Prop) (R : B -> Prop) (p : prog A) (f : A -> prog B) :
  answers Q p -> (forall a, Q a -> answers R (f a)) -> answers R (p ≫= f).
Proof. intros Hp Hf. unfold mbind, prog_bind. induction p as [[a|e]|C g k IH|b k IH|k IH|e n k IH]; simpl in *; auto. Qed.

Lemma answers_any {A} (p : prog A) : answers (fun _ => True) p.
Proof. induction p as [[a|e]|C g k IH|b k IH|k IH|e n k IH]; simpl; auto. Qed.

Lemma rootless_answers {A B} (Q : A -> Prop) (p : prog A) (f : A -> prog B) :
  rootless p -> answers Q p -> (forall a, Q a -> rootless (f a)) -> rootless (p ≫= f).
Proof.
  intros Hr Hp Hf. unfold mbind, prog_bind. induction p as [[a|e]|C g k IH|b k IH|k IH|e n k IH]; simpl in *; auto; done.
Qed.

Create HintDb rootless discriminated.
#[export] Hint Resolve rootless_bind swapless_bind rootless_swapless : rootless.
