(* ===== verification/Boundary.v ===== *)
(** * core/boundary: where a tree node ends

    The rule that prolly trees and stream index trees draw their nodes with:
    a node ends after an entry when a window of the entry's digest falls under
    a threshold that rises with the node's size. The threshold is computed in
    64-bit integers with one 128-bit multiply and divide; [threshold_exact]
    shows none of it wraps and the division never panics, so it is the exact
    quotient the documentation gives. *)

From S2P Require Import Prelude Hash.

Definition minMin : Z := 64.
Definition minTarget : Z := 1024.
Definition maxMax : Z := 32768.
Definition gammaNum : Z := 906402477.
Definition gammaDen : Z := 1000000000.
Definition always : Z := 4294967296.

Record Geometry := mkGeometry { gMin : Z; gTarget : Z; gMax : Z }.

Definition DefaultGeometry : Geometry := mkGeometry 512 4096 16384.

Definition Validate (g : Geometry) : res unit :=
  if (gMin g <? minMin) || (gTarget g <? minTarget) || (maxMax <? gMax g) then Err BoundaryGeometry
  else if (gTarget g <=? gMin g) || (gMax g <=? gTarget g) then Err BoundaryGeometry
  else Ok tt.

Record Rule := mkRule { rg : Geometry; lambda : Z; lambda4 : Z }.

Definition New (g : Geometry) : res Rule :=
  match Validate g with
  | Err e => Err e
  | Ok _ =>
      let lambda := u64 (u64 (gTarget g * gammaDen) + gammaNum / 2) / gammaNum in
      Ok (mkRule g lambda (u64 (u64 (u64 (lambda * lambda) * lambda) * lambda)))
  end.

Definition Lambda (r : Rule) : Z := lambda r.

(** [bits.Mul64] and [bits.Div64]; the latter panics ([None]) when the quotient
    does not fit. *)
Definition mul64 (x y : Z) : Z * Z := (x * y / two64, x * y mod two64).
Definition div64 (hi lo y : Z) : option (Z * Z) :=
  if (y =? 0) || (y <=? hi) then None
  else Some ((hi * two64 + lo) / y, (hi * two64 + lo) mod y).

(** A panic of the division would be the [None] branch; [threshold_exact] shows
    it is not reached with a rule [New] made. *)
Definition Threshold (r : Rule) (before after : Z) : Z :=
  if gMax (rg r) <=? after then always
  else
    let before := Z.max before 0 in
    if after <=? before then 0
    else
      let a := after in
      let b := before in
      let a4 := u64 (u64 (u64 (a * a) * a) * a) in
      let b4 := u64 (u64 (u64 (b * b) * b) * b) in
      let '(hi, lo) := mul64 (u64 (a4 - b4)) always in
      match div64 hi lo (lambda4 r) with
      | Some (t, _) => t
      | None => 0
      end.

Definition be32 (b : bytes) : Z :=
  foldl (fun acc x => acc * 256 + bZ x) 0 (take 4 b).

Section Splitting.
Context `{Hasher}.

Definition Window (digest : hash) (level : Z) : Z :=
  let digest := if 8 <=? level then Sum (hbytes digest ++ [Zb (level / 8)]) else digest in
  be32 (drop (Z.to_nat (4 * (level mod 8))) (hbytes digest)).

Record Splitter := mkSplitter { srule : Rule; slevel : Z; ssize : Z; sn : Z }.

Definition newSplitter (r : Rule) (level : Z) : Splitter := mkSplitter r level 0 0.

Definition ends (s : Splitter) (d : hash) (before : Z) : bool :=
  if (1 <=? slevel s) && (sn s <? 2) then false
  else if ssize s <? gMin (rg (srule s)) then false
  else
    let t := Threshold (srule s) before (ssize s) in
    (always <=? t) || (Window d (slevel s) <? t).

Definition Append (s : Splitter) (d : hash) (size : Z) : bool * Splitter :=
  let before := ssize s in
  let s := mkSplitter (srule s) (slevel s) (ssize s + size) (sn s + 1) in
  if ends s d before then (true, mkSplitter (srule s) (slevel s) 0 0)
  else (false, s).
End Splitting.

(** ** Valid rules *)

Definition good_rule (r : Rule) : Prop := exists g, New g = Ok r.

Lemma good_rule_inv r : good_rule r ->
  minMin <= gMin (rg r) /\ gMin (rg r) < gTarget (rg r) /\ gTarget (rg r) < gMax (rg r) /\
  minTarget <= gTarget (rg r) /\ gMax (rg r) <= maxMax /\
  lambda r = (gTarget (rg r) * gammaDen + gammaNum / 2) / gammaNum /\
  1129 <= lambda r < 65536 /\ lambda4 r = lambda r ^ 4.
Proof.
  intros (g & Hg). unfold New, Validate in Hg.
  destruct ((gMin g <? minMin) || (gTarget g <? minTarget) || (maxMax <? gMax g)) eqn:E1; [done|].
  destruct ((gTarget g <=? gMin g) || (gMax g <=? gTarget g)) eqn:E2; [done|].
  apply orb_false_iff in E1 as [[E0 E1]%orb_false_iff E3].
  apply orb_false_iff in E2 as [E4 E5].
  apply Z.ltb_ge in E0, E1, E3. apply Z.leb_gt in E4, E5.
  assert (forall t, minTarget <= t < maxMax ->
    1129 <= (t * gammaDen + gammaNum / 2) / gammaNum < 65536) as Hl.
  { intros t Ht. change (gammaNum / 2) with 453201238. unfold minTarget, maxMax, gammaDen, gammaNum in *.
    split; [apply Z.div_le_lower_bound; lia|apply Z.div_lt_upper_bound; lia]. }
  specialize (Hl (gTarget g) ltac:(lia)).
  rewrite (u64_small (gTarget g * gammaDen)), (u64_small (_ + gammaNum / 2)) in Hg by
    (change (gammaNum / 2) with 453201238; unfold minTarget, maxMax, gammaDen, gammaNum, two64 in *; lia).
  set (l := (gTarget g * gammaDen + gammaNum / 2) / gammaNum) in *.
  assert (0 <= l * l < 4294967296) as H2 by nia.
  assert (0 <= l * l * l < 281474976710656) as H3 by nia.
  assert (0 <= l * l * l * l < two64) as H4 by (unfold two64; nia).
  rewrite (u64_small (l * l)), (u64_small (l * l * l)), (u64_small (l * l * l * l)) in Hg by
    (unfold two64 in *; lia).
  injection Hg as <-. simpl. replace (l ^ 4) with (l * l * l * l) by ring. split_and!; try lia.
Qed.

Lemma pow4_bound a : 0 <= a < 32768 ->
  0 <= a * a < two64 /\ 0 <= a * a * a < two64 /\ 0 <= a * a * a * a < 1152921504606846976.
Proof.
  intros Ha. assert (0 <= a * a <= 1073676289) by nia.
  assert (0 <= a * a * a <= 35181150961663) by nia. unfold two64. split_and!; try lia; nia.
Qed.

Lemma u64_pow4 a : 0 <= a < 32768 -> u64 (u64 (u64 (a * a) * a) * a) = a ^ 4.
Proof.
  intros Ha. destruct (pow4_bound a Ha) as (H2 & H3 & H4).
  rewrite (u64_small (a * a)), (u64_small (a * a * a)), u64_small by (unfold two64 in *; lia). ring.
Qed.

(** C36. The threshold of a rule [New] accepts is exact at every node size: at or
    over Max it is [always], an entry that adds nothing gives 0, and otherwise
    it is the floor of 2^32 (after^4 - before^4) / lambda^4 with lambda the
    rounded Target / Gamma(5/4). No intermediate product wraps and the 128-bit
    division does not panic. *)
Theorem threshold_exact r before after :
  good_rule r -> 0 <= before ->
  lambda r = (gTarget (rg r) * gammaDen + gammaNum / 2) / gammaNum /\
  Threshold r before after =
    if gMax (rg r) <=? after then always
    else if after <=? before then 0
    else (after ^ 4 - before ^ 4) * 2 ^ 32 / lambda r ^ 4.
Proof.
  intros Hr Hb. destruct (good_rule_inv r Hr) as (H1 & H2 & H3 & H4 & H5 & Hl & Hlr & Hl4).
  split; [done|]. unfold Threshold. rewrite Z.max_l by lia.
  destruct (Z.leb_spec (gMax (rg r)) after) as [|Hm]; [done|].
  destruct (Z.leb_spec after before) as [|Hab]; [done|].
  unfold maxMax in *. rewrite !u64_pow4 by lia.
  assert (0 <= before ^ 4 < after ^ 4) as Hpow by (split; [lia|apply Z.pow_lt_mono_l; lia]).
  assert (after ^ 4 < 1152921504606846976) as Ha4.
  { replace (after ^ 4) with (after * after * after * after) by ring. apply pow4_bound. lia. }
  rewrite u64_small by (unfold two64; lia). simpl mul64. unfold mul64, div64.
  set (d := after ^ 4 - before ^ 4) in *.
  assert (1024 ^ 4 <= lambda4 r) as Hbig by (rewrite Hl4; apply Z.pow_le_mono_l; lia).
  assert (d * always / two64 < 268435456) as Hhi.
  { apply Z.div_lt_upper_bound; unfold two64, always; lia. }
  change (1024 ^ 4) with 1099511627776 in Hbig.
  rewrite (proj2 (Z.eqb_neq (lambda4 r) 0)), (proj2 (Z.leb_gt (lambda4 r) _)) by lia. simpl.
  rewrite <-Hl4. change (2 ^ 32) with always. f_equal.
  pose proof (Z.div_mod (d * always) two64). unfold two64 in *. lia.
Qed.

Lemma threshold_exact_witness :
  exists r, New DefaultGeometry = Ok r /\ lambda r = 4519 /\
    Threshold r 4000 4096 = (4096 ^ 4 - 4000 ^ 4) * 2 ^ 32 / 4519 ^ 4.
Proof.
  destruct (New DefaultGeometry) as [r|e] eqn:E; [|vm_compute in E; discriminate].
  exists r. assert (lambda r = 4519) as Hl by (vm_compute in E; by injection E as <-).
  split_and!; [done|done|].
  destruct (threshold_exact r 4000 4096 (ex_intro _ _ E) ltac:(lia)) as [_ H].
  rewrite H, Hl. vm_compute in E. injection E as <-. reflexivity.
Defined.
