(* ===== verification/Cdc.v ===== *)
(** * core/cdc: cutting byte streams into content-defined chunks

    The Buzhash chunker: [scan] runs over one read buffer in two mask phases,
    [fill] refills the buffer from an [io.Reader] and [Next] cuts one chunk.
    The file ends with the equivalence of the buffered chunker and a chunker
    that reads one byte at a time, for any way the reader splits its reads. *)

From S2P Require Import Prelude GoStd Wire Hash ChunkStore.

Definition minMin : Z := 64.
Definition minMaskBits : Z := 8.
Definition maxMaskBits : Z := 30.
Definition window : nat := 48.
Definition readSize : Z := 65536.
Definition maxConsecutiveEmptyReads : nat := 100.

Record Geometry := mkGeometry { gMin : Z; gMax : Z; Mask : Z }.

Definition DefaultGeometry : Geometry := mkGeometry 16384 524288 65535.

Definition bitsLen64 (v : Z) : Z := if v =? 0 then 0 else Z.log2 v + 1.

Definition Validate (g : Geometry) : res unit :=
  if gMin g <? minMin then Err CdcGeometry
  else if gMax g <=? gMin g then Err CdcGeometry
  else if MaxChunkSize <? gMax g then Err CdcGeometry
  else if (Mask g =? 0) || negb (Z.land (Mask g) (u64 (Mask g + 1)) =? 0) then Err CdcGeometry
  else
    let n := bitsLen64 (Mask g) in
    if (n <? minMaskBits) || (maxMaskBits <? n) then Err CdcGeometry
    else Ok tt.

Section Chunking.
Context `{Hasher}.

(** ** Buzhash *)

Definition rotl64 (v k : Z) : Z := u64 (Z.lor (Z.shiftl v k) (Z.shiftr v (64 - k))).

(** [strconv.Itoa] of a byte. *)
Definition itoa (i : Z) : bytes :=
  let d k := Zb (48 + k) in
  if i <? 10 then [d i]
  else if i <? 100 then [d (i / 10); d (i mod 10)]
  else [d (i / 100); d (i / 10 mod 10); d (i mod 10)].

Definition table (b : byte) : Z :=
  le_dec (take 8 (hbytes (Sum (str "disknexus-buzhash-v1-" ++ itoa (bZ b))))).
Definition outTable (b : byte) : Z := rotl64 (table b) (Z.of_nat window).

Definition zeroWindowHash : Z :=
  foldl (fun h i => Z.lxor h (rotl64 (table (Zb 0)) (Z.of_nat window - 1 - Z.of_nat i))) 0 (seq 0 window).

(** The rolling hash, carried across chunk boundaries. *)
Record roll := mkRoll { win : list byte; pos : nat; rhash : Z }.

Definition startRoll : roll := mkRoll (replicate window (Zb 0)) 0 zeroWindowHash.

Definition rollByte (b : byte) (s : roll) : roll :=
  let h := Z.lxor (Z.lxor (rotl64 (rhash s) 1) (outTable (default (Zb 0) (win s !! pos s)))) (table b) in
  let p := S (pos s) in
  mkRoll (<[pos s := b]> (win s)) (if (p =? window)%nat then 0%nat else p) h.

(** ** The chunker *)

(** [pending] is [rd[rpos:rend]], [rdlen] the length of [rd]. *)
Record Chunker := mkChunker {
  cr : source; cg : Geometry; hard : Z; easy : Z;
  croll : roll; cbuf : bytes; rdlen : Z; full : Z; pending : bytes;
  ceof : bool; crerr : option error }.

(** [len] is what the reader says it has left, when it is a [Lener]. *)
Definition New (r : source) (len : option Z) (g : Geometry) : res Chunker :=
  match Validate g with
  | Err e => Err e
  | Ok _ =>
      let rd := match len with Some l => Z.min readSize (Z.max l 1) | None => readSize end in
      Ok (mkChunker r g (Z.lor (u64 (Z.shiftl (Mask g) 2)) (Mask g)) (Z.shiftr (Mask g) 2)
            startRoll [] rd 0 [] false None)
  end.

(** One of [scan]'s loops: at most [k] bytes of [p] judged by [mask]. The result
    is whether the chunk was cut, the bytes taken, the bytes left, the hash. *)
Fixpoint scanLoop (mask : Z) (k : nat) (p : bytes) (s : roll) : bool * bytes * bytes * roll :=
  match k, p with
  | S k, b :: p =>
      let s := rollByte b s in
      if Z.land (rhash s) mask =? 0 then (true, [b], p, s)
      else let '(cut, out, rest, s) := scanLoop mask k p s in (cut, b :: out, rest, s)
  | _, _ => (false, [], p, s)
  end.

(** [scan(p, n)]: the bytes of [p] that belong to the chunk, with [n] in it
    already, what is left of [p], and whether the chunk ends. *)
Definition scan (g : Geometry) (hard easy : Z) (p : bytes) (n : Z) (s : roll) : bool * bytes * bytes * roll :=
  let lim := Z.min (gMin g - n - 1) (zlen p) in
  let '(cut, a, p1, s) := scanLoop hard (Z.to_nat lim) p s in
  if cut then (true, a, p1, s)
  else
    let lim := Z.min (gMax g - n - 1) (zlen p) in
    let '(cut, b, p2, s) := scanLoop easy (Z.to_nat (lim - zlen a)) p1 s in
    if cut then (true, a ++ b, p2, s)
    else match p2 with
         | c :: p3 => (true, a ++ b ++ [c], p3, rollByte c s)
         | [] => (false, a ++ b, [], s)
         end.

(** [fill] loops while it has no byte; [empty] counts the empty reads of this call. *)
Fixpoint fillLoop (fuel : nat) (empty : nat) (c : Chunker) : option error * Chunker :=
  match fuel with
  | O => (Some (EMsg "no fuel"), c)
  | S fuel =>
      match pending c with
      | _ :: _ => (None, c)
      | [] =>
          if ceof c then (Some EOF, c)
          else match crerr c with
          | Some e =>
              (Some e, mkChunker (cr c) (cg c) (hard c) (easy c) (croll c) (cbuf c) (rdlen c) (full c) [] true None)
          | None =>
              let '(rdlen, full) := if 2 <=? full c then (readSize, 0) else (rdlen c, full c) in
              let '((b, err), src) := readSource rdlen (cr c) in
              let full := if (zlen b =? rdlen) && (zlen b <? readSize) then full + 1 else 0 in
              let c' e r := mkChunker src (cg c) (hard c) (easy c) (croll c) (cbuf c) rdlen full b e r in
              match err with
              | Some e =>
                  if bool_decide (e = EOF) then fillLoop fuel empty (c' true None)
                  else fillLoop fuel empty (c' false (Some e))
              | None =>
                  if (length b =? 0)%nat then
                    if (maxConsecutiveEmptyReads <=? S empty)%nat then (Some ErrNoProgress, c' false None)
                    else fillLoop fuel (S empty) (c' false None)
                  else fillLoop fuel empty (c' false None)
              end
          end
      end
  end.

(** Every round of [fill] but the last two counts an empty read. *)
Definition fill (c : Chunker) : option error * Chunker := fillLoop (maxConsecutiveEmptyReads + 2) 0 c.

Definition setBuf (c : Chunker) (b : bytes) (p : bytes) (s : roll) : Chunker :=
  mkChunker (cr c) (cg c) (hard c) (easy c) s b (rdlen c) (full c) p (ceof c) (crerr c).

(** [Next]'s loop: every round but the last takes at least one byte. *)
Fixpoint nextLoop (fuel : nat) (c : Chunker) : res bytes * Chunker :=
  match fuel with
  | O => (Err (EMsg "no fuel"), c)
  | S fuel =>
      let '(err, c) := match pending c with [] => fill c | _ => (None, c) end in
      match err with
      | Some e =>
          if bool_decide (e = EOF) && negb (length (cbuf c) =? 0)%nat then (Ok (cbuf c), c) else (Err e, c)
      | None =>
          let '(cut, taken, rest, s) := scan (cg c) (hard c) (easy c) (pending c) (zlen (cbuf c)) (croll c) in
          let c := setBuf c (cbuf c ++ taken) rest s in
          if cut then (Ok (cbuf c), c) else nextLoop fuel c
      end
  end.

(** How many bytes a chunker can still see. *)
Fixpoint sourceLen (src : source) : nat :=
  match src with [] => 0 | (b, _) :: src => length b + sourceLen src end.
Definition left (c : Chunker) : nat := length (pending c) + sourceLen (cr c).

Definition Next (c : Chunker) : res bytes * Chunker :=
  let c := setBuf c [] (pending c) (croll c) in nextLoop (left c + 2) c.

(** A caller's loop over [Next], to the error that ends it ([EOF] at the end). *)
Fixpoint cutAll (fuel : nat) (c : Chunker) : list bytes * error :=
  match fuel with
  | O => ([], EMsg "no fuel")
  | S fuel =>
      match Next c with
      | (Ok b, c) => let '(bs, e) := cutAll fuel c in (b :: bs, e)
      | (Err e, _) => ([], e)
      end
  end.

(** ** The reference: one byte at a time *)

Definition endsAt (g : Geometry) (n h : Z) : bool :=
  if n <? gMin g then Z.land h (Z.lor (u64 (Z.shiftl (Mask g) 2)) (Mask g)) =? 0
  else if n <? gMax g then Z.land h (Z.shiftr (Mask g) 2) =? 0
  else true.

(** The complete chunks of [data], and the bytes after the last cut. *)
Fixpoint chunksOf (g : Geometry) (s : roll) (cur data : bytes) : list bytes * bytes :=
  match data with
  | [] => ([], cur)
  | b :: data =>
      let s := rollByte b s in
      let cur := cur ++ [b] in
      if endsAt g (zlen cur) (rhash s)
      then let '(bs, rest) := chunksOf g s [] data in (cur :: bs, rest)
      else chunksOf g s cur data
  end.

(** What a reader delivers before the error that ends it, with [k] empty reads
    in a row already. *)
Fixpoint delivers (k : nat) (src : source) : bytes * error :=
  match src with
  | [] => ([], EOF)
  | (b, Some e) :: _ => (b, e)
  | (b, None) :: src =>
      if (length b =? 0)%nat then
        if (maxConsecutiveEmptyReads <=? S k)%nat then ([], ErrNoProgress) else delivers (S k) src
      else let '(d, e) := delivers 0 src in (b ++ d, e)
  end.

(** The cut a stream is stored with. *)
Definition refCut (g : Geometry) (src : source) : list bytes * error :=
  let '(data, e) := delivers 0 src in
  let '(bs, rest) := chunksOf g startRoll [] data in
  (bs ++ (if bool_decide (e = EOF) && negb (length rest =? 0)%nat then [rest] else []), e).

(** ** [scan] cuts where the reference cuts *)

Lemma scanLoop_ref g mask k : forall p s cut out rest s',
  scanLoop mask k p s = (cut, out, rest, s') ->
  p = out ++ rest /\ (cut = true -> out <> []) /\ (cut = false -> length out = (k `min` length p)%nat) /\
  forall cur data, (forall m h, zlen cur < m <= zlen cur + Z.of_nat k -> endsAt g m h = (Z.land h mask =? 0)) ->
    chunksOf g s cur (p ++ data) =
      if cut then let '(bs, r) := chunksOf g s' [] (rest ++ data) in ((cur ++ out) :: bs, r)
      else chunksOf g s' (cur ++ out) (rest ++ data).
Proof.
  induction k as [|k IH]; intros p s cut out rest s' E; cbn [scanLoop] in E.
  - injection E as <- <- <- <-. split_and!; try done. intros. by rewrite app_nil_r.
  - destruct p as [|b p].
    { injection E as <- <- <- <-. split_and!; try done. intros. by rewrite app_nil_r. }
    destruct (Z.land (rhash (rollByte b s)) mask =? 0) eqn:Em in E.
    + injection E as <- <- <- <-. split_and!; try done. intros cur data Hm. cbn [app chunksOf].
      rewrite Hm, Em by (rewrite length_app; simpl; lia). done.
    + destruct (scanLoop mask k p (rollByte b s)) as [[[cut1 out1] rest1] s1] eqn:E1 in E.
      injection E as <- <- <- <-. destruct (IH _ _ _ _ _ _ E1) as (-> & Hc & Hnc & Hcut).
      split_and!; try done. { intros ->. simpl. rewrite Hnc by done. lia. }
      intros cur data Hm. cbn [app chunksOf]. rewrite Hm, Em by (rewrite length_app; simpl; lia).
      rewrite Hcut. { by rewrite <-!app_assoc. }
      intros m h Hmm. apply Hm. rewrite length_app in Hmm. simpl in Hmm. lia.
Qed.

Lemma scan_ref g p n s cut out rest s' :
  gMin g < gMax g -> 0 <= n < gMax g ->
  scan g (Z.lor (u64 (Z.shiftl (Mask g) 2)) (Mask g)) (Z.shiftr (Mask g) 2) p n s = (cut, out, rest, s') ->
  p = out ++ rest /\ (p <> [] -> out <> []) /\ (cut = false -> rest = [] /\ n + zlen out < gMax g) /\
  forall cur data, zlen cur = n ->
    chunksOf g s cur (p ++ data) =
      if cut then let '(bs, r) := chunksOf g s' [] (rest ++ data) in ((cur ++ out) :: bs, r)
      else chunksOf g s' (cur ++ out) data.
Proof.
  intros Hg Hn. unfold scan.
  destruct (scanLoop _ _ p s) as [[[cut1 a] p1] s1] eqn:E1.
  destruct (scanLoop_ref g _ _ _ _ _ _ _ _ E1) as (-> & Hc1 & Hnc1 & Hr1).
  assert (forall cur data, zlen cur = n -> chunksOf g s cur ((a ++ p1) ++ data) =
      if cut1 then let '(bs, r) := chunksOf g s1 [] (p1 ++ data) in ((cur ++ a) :: bs, r)
      else chunksOf g s1 (cur ++ a) (p1 ++ data)) as H1.
  { intros cur data Hcur. apply Hr1. intros m h Hm. unfold endsAt. by rewrite (proj2 (Z.ltb_lt m _)) by lia. }
  destruct cut1.
  { intros [= <- <- <- <-]. split_and!; try done. intros _. auto. }
  specialize (Hnc1 eq_refl). rewrite length_app in Hnc1.
  destruct (scanLoop _ _ p1 s1) as [[[cut2 b] p2] s2] eqn:E2.
  destruct (scanLoop_ref g _ _ _ _ _ _ _ _ E2) as (-> & Hc2 & Hnc2 & Hr2).
  rewrite !length_app in *.
  assert (forall cur data, zlen cur = n -> chunksOf g s cur ((a ++ b ++ p2) ++ data) =
      if cut2 then let '(bs, r) := chunksOf g s2 [] (p2 ++ data) in ((cur ++ a ++ b) :: bs, r)
      else chunksOf g s2 (cur ++ a ++ b) (p2 ++ data)) as H2.
  { intros cur data Hcur. rewrite H1, Hr2 by done || (intros m h; rewrite length_app; intros Hm; unfold endsAt;
      rewrite (proj2 (Z.ltb_ge m _)), (proj2 (Z.ltb_lt m _)) by lia; done). by rewrite <-app_assoc. }
  destruct cut2.
  { intros [= <- <- <- <-]. split_and!; try done; [by rewrite <-app_assoc|].
    intros _ [_ ?]%app_eq_nil. by apply Hc2. }
  specialize (Hnc2 eq_refl). destruct p2 as [|c p3]; intros [= <- <- <- <-]; rewrite ?app_nil_r in *.
  - split_and!; try done. { intros _. rewrite length_app. split; [done|]. simpl in *. lia. }
  - split_and!; try done; [by rewrite <-!app_assoc| |].
    { intros _ [_ [_ ?]%app_eq_nil]%app_eq_nil. done. }
    intros cur data Hcur. rewrite H2 by done. cbn [app chunksOf]. simpl in Hnc1, Hnc2.
    assert (endsAt g (zlen ((cur ++ a ++ b) ++ [c])) (rhash (rollByte c s2)) = true) as ->.
    { unfold endsAt. rewrite !length_app. simpl. rewrite (proj2 (Z.ltb_ge _ (gMin g))), (proj2 (Z.ltb_ge _ (gMax g))) by lia.
      done. }
    by rewrite <-!app_assoc.
Qed.

(** ** [fill] and [Next] over any reader *)

(** What the chunker has still to see: buffered bytes, then what the reader delivers. *)
Definition remaining (c : Chunker) : bytes * error :=
  if ceof c then (pending c, EOF)
  else match crerr c with
       | Some e => (pending c, e)
       | None => let '(d, e) := delivers 0 (cr c) in (pending c ++ d, e)
       end.

Definition good (c : Chunker) : Prop :=
  gMin (cg c) < gMax (cg c) /\ 1 <= gMax (cg c) /\ 1 <= rdlen c /\ crerr c <> Some EOF /\
  hard c = Z.lor (u64 (Z.shiftl (Mask (cg c)) 2)) (Mask (cg c)) /\ easy c = Z.shiftr (Mask (cg c)) 2.

(** [c'] differs from [c] only in what was read. *)
Definition refilled (c c' : Chunker) : Prop :=
  good c' /\ cg c' = cg c /\ croll c' = croll c /\ cbuf c' = cbuf c /\ (left c' <= left c)%nat.

(** What a successful refill, or the error that ends the stream, leaves. *)
Definition fill_post (c : Chunker) (d : bytes) (e : error) (out : option error * Chunker) : Prop :=
  refilled c out.2 /\
  match out.1 with
  | None => pending out.2 <> [] /\ remaining out.2 = (d, e)
  | Some e' => d = [] /\ e' = e /\ pending out.2 = [] /\ (e = EOF -> remaining out.2 = ([], EOF))
  end.

Lemma refilled_trans c1 c2 c3 : refilled c1 c2 -> refilled c2 c3 -> refilled c1 c3.
Proof. unfold refilled. intros (?&?&?&?&?) (?&?&?&?&?). split_and!; try congruence. lia. Qed.

Lemma fill_post_trans c c' d e out : refilled c c' -> fill_post c' d e out -> fill_post c d e out.
Proof. intros Hr [Hr' Hm]. split; [by eapply refilled_trans|done]. Qed.

(** Nothing is read once the end or an error is known. *)
Lemma fillLoop_known fuel k c d e :
  good c -> (2 <= fuel)%nat -> ceof c = true \/ crerr c <> None -> remaining c = (d, e) ->
  fill_post c d e (fillLoop fuel k c).
Proof.
  intros Hg Hf Hk Hr. destruct fuel as [|fuel]; [lia|]. cbn [fillLoop].
  assert (refilled c c) as Hrr by (unfold refilled; auto).
  destruct (pending c) as [|x p] eqn:Ep; [|split; [done|]; simpl; by rewrite Ep].
  unfold remaining in Hr. rewrite Ep in Hr. destruct (ceof c) eqn:Ee.
  - injection Hr as <- <-. split; [done|]. simpl. unfold remaining. by rewrite Ee, Ep.
  - destruct (crerr c) as [x|] eqn:Ex; [|naive_solver]. injection Hr as <- <-. split; simpl.
    + destruct Hg as (?&?&?&?&?&?). unfold refilled, good, left. simpl. rewrite Ep. split_and!; done.
    + split_and!; done.
Qed.

Lemma delivers_split k cap b e src : 0 < cap < zlen b ->
  delivers k ((b, e) :: src) =
  let '(d, x) := delivers 0 ((drop (Z.to_nat cap) b, e) :: src) in (take (Z.to_nat cap) b ++ d, x).
Proof.
  intros Hc. simpl. destruct e as [e|]; [by rewrite take_drop|].
  rewrite (proj2 (Nat.eqb_neq (length b) 0)) by lia.
  rewrite (proj2 (Nat.eqb_neq (length (drop _ b)) 0)) by (rewrite length_drop; lia).
  destruct (delivers 0 src). by rewrite app_assoc, take_drop.
Qed.

Lemma readSource_spec k cap src b err src' : 0 < cap -> readSource cap src = ((b, err), src') ->
  (length b + sourceLen src' <= sourceLen src)%nat /\
  delivers k src = match err with
                   | Some e => (b, e)
                   | None => if (length b =? 0)%nat
                             then if (maxConsecutiveEmptyReads <=? S k)%nat then ([], ErrNoProgress) else delivers (S k) src'
                             else let '(d, e) := delivers 0 src' in (b ++ d, e)
                   end.
Proof.
  intros Hc. unfold readSource. destruct src as [|[b0 e0] src0]; [by intros [= <- <- <-]|].
  destruct (Z.leb_spec (zlen b0) cap) as [Hle|Hgt]; intros [= <- <- <-].
  - simpl. split; [lia|]. by destruct e0.
  - split; [simpl; rewrite length_take, length_drop; lia|].
    rewrite (delivers_split k cap) by lia.
    rewrite (proj2 (Nat.eqb_neq _ 0)) by (rewrite length_take; lia). done.
Qed.

Lemma fillLoop_delivers fuel : forall k c d e,
  good c -> pending c = [] -> ceof c = false -> crerr c = None ->
  (k < maxConsecutiveEmptyReads)%nat -> (maxConsecutiveEmptyReads + 2 <= fuel + k)%nat ->
  delivers k (cr c) = (d, e) -> fill_post c d e (fillLoop fuel k c).
Proof.
  induction fuel as [|fuel IH]; intros k c d e Hg Hp He Hx Hk Hf Hd; [lia|].
  cbn [fillLoop]. rewrite Hp, He, Hx.
  destruct (if 2 <=? full c then (readSize, 0) else (rdlen c, full c)) as [rl fl] eqn:Efl.
  pose proof Hg as (Hg1 & Hg2 & Hg3 & Hg4 & Hg5 & Hg6).
  assert (1 <= rl) as Hrl by (destruct (2 <=? full c); injection Efl as <- <-; unfold readSize; lia).
  destruct (readSource rl (cr c)) as [[b err] src] eqn:Er.
  destruct (readSource_spec k rl _ _ _ _ ltac:(lia) Er) as [Hlen Hdel]. rewrite Hd in Hdel.
  set (fl' := if (zlen b =? rl) && (zlen b <? readSize) then fl + 1 else 0).
  assert (forall eo xo, xo <> Some EOF ->
    refilled c (mkChunker src (cg c) (hard c) (easy c) (croll c) (cbuf c) rl fl' b eo xo)) as Hre.
  { intros eo xo Hxo. unfold refilled, good, left. simpl. rewrite Hp. simpl. split_and!; done. }
  destruct err as [er|].
  - injection Hdel as -> ->. case_bool_decide as Heof.
    + subst er. eapply fill_post_trans; [by apply (Hre true None)|].
      apply fillLoop_known; [by apply (Hre true None)|lia|by left|done].
    + assert (Some er <> Some EOF) as Hxo by congruence. eapply fill_post_trans; [by apply (Hre false (Some er))|].
      apply fillLoop_known; [by apply (Hre false (Some er))|lia|by right|done].
  - destruct (Nat.eqb_spec (length b) 0) as [Hb|Hb].
    + apply nil_length_inv in Hb as ->. destruct (Nat.leb_spec maxConsecutiveEmptyReads (S k)).
      * injection Hdel as -> ->. split; [by apply (Hre false None)|]. done.
      * eapply fill_post_trans; [by apply (Hre false None)|]. apply IH; try done; lia.
    + destruct (delivers 0 src) as [d' e'] eqn:Ed'. injection Hdel as -> ->.
      destruct fuel as [|fuel]; [lia|]. cbn [fillLoop pending].
      destruct b as [|x b]; [done|]. split; [by apply (Hre false None)|]. simpl. split; [done|].
      unfold remaining. simpl. by rewrite Ed'.
Qed.

Lemma fill_spec c d e : good c -> pending c = [] -> remaining c = (d, e) -> fill_post c d e (fill c).
Proof.
  intros Hg Hp Hr. unfold fill. destruct (ceof c) eqn:Ee.
  { apply fillLoop_known; auto. unfold maxConsecutiveEmptyReads; lia. }
  destruct (crerr c) eqn:Ex.
  { apply fillLoop_known; auto; [unfold maxConsecutiveEmptyReads; lia|]. right. congruence. }
  unfold remaining in Hr. rewrite Ee, Ex, Hp in Hr.
  apply fillLoop_delivers; try done; [unfold maxConsecutiveEmptyReads; lia..|]. by destruct (delivers 0 (cr c)).
Qed.

(** *** [Next] *)

(** What [Next] answers from a state whose remaining stream is cut as [(bs, rest)]:
    the next complete chunk, or at the end of the stream the bytes left over. *)
Definition next_post (c : Chunker) (bs : list bytes) (rest : bytes) (e : error) (out : res bytes * Chunker) : Prop :=
  match bs with
  | b :: bs' =>
      out.1 = Ok b /\ good out.2 /\ (left out.2 < left c)%nat /\ cg out.2 = cg c /\
      exists d', remaining out.2 = (d', e) /\ chunksOf (cg c) (croll out.2) [] d' = (bs', rest)
  | [] =>
      if bool_decide (e = EOF) && negb (length rest =? 0)%nat
      then out.1 = Ok rest /\ good out.2 /\ cg out.2 = cg c /\ remaining out.2 = ([], EOF)
      else out.1 = Err e
  end.

Lemma nextLoop_spec fuel : forall c d e bs rest,
  good c -> zlen (cbuf c) < gMax (cg c) -> (left c < fuel)%nat ->
  remaining c = (d, e) -> chunksOf (cg c) (croll c) (cbuf c) d = (bs, rest) ->
  next_post c bs rest e (nextLoop fuel c).
Proof.
  induction fuel as [|fuel IH]; intros c d e bs rest Hg Hb Hf Hr Hc; [lia|]. cbn [nextLoop].
  assert (fill_post c d e (match pending c with [] => fill c | _ => (None, c) end)) as [Hre Hpost].
  { destruct (pending c) eqn:Ep; [by apply fill_spec|]. split; [unfold refilled; auto|]. simpl. by rewrite Ep. }
  destruct (match pending c with [] => fill c | _ => (None, c) end) as [[er|] c1]; simpl in *.
  - destruct Hpost as (-> & -> & Hp1 & Hend). destruct Hre as (Hg1 & Hcg & Hroll & Hbuf & Hl). simpl in Hc.
    injection Hc as <- <-. simpl. rewrite Hbuf. case_bool_decide as He; simpl; [|done].
    destruct (Nat.eqb_spec (length (cbuf c)) 0); simpl; auto.
  - destruct Hpost as (Hp1 & Hr1). destruct Hre as (Hg1 & Hcg & Hroll & Hbuf & Hl).
    destruct (scan (cg c1) (hard c1) (easy c1) (pending c1) (zlen (cbuf c1)) (croll c1)) as [[[cut taken] rst] s'] eqn:Es.
    pose proof Hg1 as (Hm1 & Hm2 & Hm3 & Hm4 & Hh & Hy). rewrite Hh, Hy in Es.
    assert (0 <= zlen (cbuf c1) < gMax (cg c1)) as Hn0 by (rewrite Hcg, Hbuf; lia).
    destruct (scan_ref _ _ _ _ _ _ _ _ Hm1 Hn0 Es) as (Epend & Hne & Hnc & Hcut).
    specialize (Hne Hp1).
    set (c2 := setBuf c1 (cbuf c1 ++ taken) rst s').
    assert (exists t, d = pending c1 ++ t /\ remaining c2 = (rst ++ t, e)) as (t & -> & Hr2).
    { unfold remaining in *. subst c2. simpl. destruct (ceof c1).
      - injection Hr1 as <- <-. exists []. by rewrite !app_nil_r.
      - destruct (crerr c1); [injection Hr1 as <- <-; exists []; by rewrite !app_nil_r|].
        destruct (delivers 0 (cr c1)) as [dd ee]. injection Hr1 as <- <-. by exists dd. }
    assert (good c2 /\ cg c2 = cg c /\ (left c2 < left c)%nat) as (Hg2 & Hcg2 & Hl2).
    { split_and!; [done|done|]. subst c2. unfold left in *. simpl. rewrite Epend, length_app in Hl.
      destruct taken; [done|]. simpl in *. lia. }
    rewrite <-Hroll, <-Hbuf, <-Hcg in Hc. rewrite (Hcut _ _ eq_refl) in Hc. destruct cut.
    + destruct (chunksOf (cg c1) s' [] (rst ++ t)) as [bs2 rest2] eqn:E2. injection Hc as <- <-.
      simpl. split_and!; try done. exists (rst ++ t). by rewrite <-Hcg.
    + destruct (Hnc eq_refl) as [-> Hlt].
      assert (next_post c2 bs rest e (nextLoop fuel c2)) as Hpost.
      { apply (IH c2 t); [done| |lia|done|done]. subst c2. simpl. rewrite length_app. lia. }
      revert Hpost. unfold next_post. rewrite Hcg2. destruct bs; [by destruct (_ && _)|].
      intros (?&?&?&?&?). split_and!; try done. lia.
Qed.

Lemma Next_spec c d e bs rest :
  good c -> remaining c = (d, e) -> chunksOf (cg c) (croll c) [] d = (bs, rest) ->
  next_post c bs rest e (Next c).
Proof.
  intros Hg Hr Hc. unfold Next.
  assert (next_post (setBuf c [] (pending c) (croll c)) bs rest e
    (nextLoop (left (setBuf c [] (pending c) (croll c)) + 2) (setBuf c [] (pending c) (croll c)))) as H1.
  { apply (nextLoop_spec _ _ d); try done; [|lia]. destruct Hg as (?&?&_). simpl. lia. }
  exact H1.
Qed.

Lemma cutAll_spec fuel : forall c d e bs rest,
  good c -> remaining c = (d, e) -> chunksOf (cg c) (croll c) [] d = (bs, rest) ->
  (length bs + (if (length rest =? 0)%nat then 0 else 1) < fuel)%nat ->
  cutAll fuel c = (bs ++ (if bool_decide (e = EOF) && negb (length rest =? 0)%nat then [rest] else []), e).
Proof.
  induction fuel as [|fuel IH]; intros c d e bs rest Hg Hr Hc Hf; [lia|]. cbn [cutAll].
  pose proof (Next_spec _ _ _ _ _ Hg Hr Hc) as Hn. destruct (Next c) as [r c1]. unfold next_post in Hn.
  destruct bs as [|b bs]; simpl in *.
  - case_bool_decide as He; simpl in *; [|by rewrite Hn]. subst e.
    destruct (length rest =? 0)%nat; simpl in *; [by rewrite Hn|].
    destruct Hn as (-> & Hg1 & Hcg & Hr1). rewrite (IH c1 [] EOF [] []); try done. simpl; lia.
  - destruct Hn as (-> & Hg1 & Hl & Hcg & d' & Hr1 & Hc1). rewrite <-Hcg in Hc1.
    rewrite (IH _ _ _ _ _ Hg1 Hr1 Hc1) by lia. done.
Qed.

Lemma chunksOf_concat g data : 1 <= gMin g < gMax g -> forall s cur bs rest,
  zlen cur < gMax g -> chunksOf g s cur data = (bs, rest) ->
  cur ++ data = concat bs ++ rest /\ Forall (fun b => 1 <= zlen b <= gMax g) bs /\ zlen rest < gMax g.
Proof.
  intros Hg. induction data as [|b data IH]; intros s cur bs rest Hcur; cbn [chunksOf].
  - intros [= <- <-]. rewrite app_nil_r. split_and!; [done|constructor|done].
  - assert (zlen (cur ++ [b]) = zlen cur + 1) as Hl by (rewrite length_app; simpl; lia).
    destruct (endsAt g _ _) eqn:Ee.
    + destruct (chunksOf g (rollByte b s) [] data) as [bs1 r1] eqn:E1. intros [= <- <-].
      apply IH in E1 as (E1 & Hf & Hr); [|simpl; lia]. simpl in E1. subst data. split_and!; [|constructor; [lia|done]|done].
      simpl. by rewrite <-!app_assoc.
    + intros E1. apply IH in E1 as (E1 & Hf & Hr); [by rewrite <-E1, <-app_assoc|].
      rewrite Hl in *. unfold endsAt in Ee.
      destruct (Z.ltb_spec (zlen cur + 1) (gMin g)), (Z.ltb_spec (zlen cur + 1) (gMax g)); try lia; try done.
Qed.

Lemma delivers_length k src data e : delivers k src = (data, e) -> (length data <= sourceLen src)%nat.
Proof.
  revert k data e. induction src as [|[b [x|]] src IH]; intros k data e; cbn [delivers sourceLen].
  - by intros [= <- <-].
  - intros [= <- <-]. lia.
  - destruct (Nat.eqb_spec (length b) 0).
    + destruct (_ <=? _)%nat; [intros [= <- <-]; simpl; lia|]. intros Hd%IH. lia.
    + destruct (delivers 0 src) as [d x] eqn:Ed. intros [= <- <-]. apply IH in Ed. rewrite length_app. lia.
Qed.

Lemma nonempty_count (bs : list bytes) g : Forall (fun b => 1 <= zlen b <= gMax g) bs -> (length bs <= length (concat bs))%nat.
Proof. induction 1 as [|b bs Hb Hf IH]; simpl; [lia|]. rewrite length_app. lia. Qed.

(** The chunks of a stream, from a chunker [New] made, and what they add up to. *)
Lemma cutAll_refCut src len g c :
  New src len g = Ok c ->
  (forall fuel, (sourceLen src + 2 <= fuel)%nat -> cutAll fuel c = refCut g src) /\
  exists data e bs rest, delivers 0 src = (data, e) /\ chunksOf g startRoll [] data = (bs, rest) /\
   data = concat bs ++ rest /\ Forall (fun b => 1 <= zlen b <= gMax g) bs /\ zlen rest < gMax g /\ gMax g <= MaxChunkSize.
Proof.
  unfold New. destruct (Validate g) as [[]|] eqn:Ev; [|done]. intros [= <-].
  assert (64 <= gMin g < gMax g /\ gMax g <= MaxChunkSize) as [Hg Hmax].
  { unfold Validate, minMin in Ev. destruct (Z.ltb_spec (gMin g) 64); [done|].
    destruct (Z.leb_spec (gMax g) (gMin g)); [done|]. destruct (Z.ltb_spec MaxChunkSize (gMax g)); [done|]. lia. }
  unfold refCut. destruct (delivers 0 src) as [data e] eqn:Ed.
  destruct (chunksOf g startRoll [] data) as [bs rest] eqn:Ec.
  destruct (chunksOf_concat g data ltac:(lia) startRoll [] bs rest ltac:(simpl; lia) Ec) as (Hcat & Hf & Hrest).
  simpl in Hcat. split; [|by exists data, e, bs, rest].
  intros fuel Hfuel. eapply cutAll_spec; [| |exact Ec|].
  - unfold good. simpl. split_and!; try done; try lia. destruct len; unfold readSize; lia.
  - unfold remaining. simpl. by rewrite Ed.
  - apply delivers_length in Ed. rewrite Hcat, length_app in Ed. pose proof (nonempty_count _ _ Hf).
    destruct (_ =? _)%nat; lia.
Qed.

(** C32. The chunker over any reader: however the reader splits its data into reads, whatever
    read-buffer size its length hint chose, with empty reads in between and wherever
    the end or an error strikes, the loop over [Next] yields exactly the chunks of
    the one-byte-at-a-time reference over the bytes delivered, then the reader's error;
    at [EOF] the bytes after the last cut are the last chunk, and on an error they are dropped.
    The chunks and that rest put together are the bytes delivered, and no chunk is empty or over Max. *)
Theorem cut_is_reference src len g c :
  New src len g = Ok c ->
  (forall fuel, (sourceLen src + 2 <= fuel)%nat -> cutAll fuel c = refCut g src) /\
  exists data e bs rest, delivers 0 src = (data, e) /\ chunksOf g startRoll [] data = (bs, rest) /\
   data = concat bs ++ rest /\ Forall (fun b => 1 <= zlen b <= gMax g) bs /\ zlen rest < gMax g /\ gMax g <= MaxChunkSize.
Proof. apply cutAll_refCut. Qed.
End Chunking.

Lemma cut_is_reference_witness :
  let src := [(str "snap", None); ([], None); (str "shot", Some EOF)] in
  exists c, @New toy_hasher src None DefaultGeometry = Ok c /\
  forall fuel, (10 <= fuel)%nat -> @cutAll toy_hasher fuel c = @refCut toy_hasher DefaultGeometry src.
Proof.
  intros src. destruct (@New toy_hasher src None DefaultGeometry) as [c|e] eqn:E;
    [|unfold New in E; change (Validate DefaultGeometry) with (@Ok unit tt) in E; discriminate].
  exists c. split; [exact eq_refl|]. destruct (@cut_is_reference toy_hasher src None DefaultGeometry c E) as [Hf _].
  exact Hf.
Defined.
