(* ===== verification/Stream.v ===== *)
(** * core/stream: byte streams under a content-defined index tree

    A stream is data chunks under index nodes; a [Ref] names its top chunk,
    its length and its depth. This file models the index-node codec, reading
    ([Open], [ReadAt], [ReadAll], with the path of held nodes a [Reader]
    keeps), walking, and writing (the level builder of [Write]'s serial path,
    fed the chunks the cutter yields). *)

From S2P Require Import Prelude GoStd Wire Hash ChunkStore.
From S2P Require Boundary.

Definition kindIndex : Z := 2.
Definition maxDepth : Z := 63.
Definition entryMin : Z := 33.
Definition maxInt64 : Z := 9223372036854775807.

Record Ref := mkRef { Root : hash; Size : Z; Depth : Z }.

#[global] Instance Ref_eq_dec : EqDecision Ref.
Proof. solve_decision. Defined.

Record entry := mkEntry { child : hash; size : Z }.

(** ** Index nodes *)

(** [(bits.Len64(v|1)+6)/7]. *)
Definition uvarintLen (v : Z) : Z := (Z.log2 (Z.lor v 1) + 1 + 6) / 7.

Definition entrySize (e : entry) : Z := 32 + uvarintLen (size e).

Definition encodeIndex (level : Z) (es : list entry) : bytes :=
  let w := wU8 [] kindIndex in
  let w := wU8 w level in
  let w := wUvarint w (zlen es) in
  foldl (fun w e => wUvarint (wRaw w (hbytes (child e))) (size e)) w es.

(** The entry loop: [sum] and the carry of [bits.Add64] bound the total. *)
Fixpoint decodeEntries (n : nat) (sum : Z) (es : list entry) (r : reader) : res (list entry * reader) :=
  match n with
  | O => Ok (es, r)
  | S n =>
      let (c, r) := readHash r in
      let (sz, r) := Uvarint r in
      let sum' := u64 (sum + sz) in
      let carry := (sum + sz) / two64 in
      if bool_decide (rerr r <> None) || (sz =? 0) || negb (carry =? 0) then Err ChunkCorrupt
      else decodeEntries n sum' (es ++ [mkEntry c sz]) r
  end.

Definition decodeIndex (b : bytes) : res (Z * list entry) :=
  let r := NewReader b in
  let (kind, r) := U8 r in
  let (level, r) := U8 r in
  let (n, r) := Uvarint r in
  if bool_decide (rerr r <> None) || negb (kind =? kindIndex) || (level <? 1) || (maxDepth <? level)
     || (n =? 0) || (zlen b / entryMin <? n)
  then Err ChunkCorrupt
  else
    match decodeEntries (Z.to_nat n) 0 [] r with
    | Err e => Err e
    | Ok (es, r) => match Done r with Some _ => Err ChunkCorrupt | None => Ok (level, es) end
    end.

(** *** The codec's two directions *)

Definition encEntry (e : entry) : bytes := hbytes (child e) ++ encUvarint (size e).
Definition total (es : list entry) : Z := foldr (fun e t => size e + t) 0 es.

Lemma encodeIndex_enc level es :
  encodeIndex level es = encU8 kindIndex ++ encU8 level ++ encUvarint (zlen es) ++ flat_map encEntry es.
Proof.
  unfold encodeIndex, wU8, wUvarint, wRaw.
  assert (forall w, foldl (fun w e => (w ++ hbytes (child e)) ++ encUvarint (size e)) w es =
                    w ++ flat_map encEntry es) as ->.
  { induction es as [|e es IH]; intros w; simpl; [by rewrite app_nil_r|].
    rewrite IH. unfold encEntry. by rewrite <-!app_assoc. }
  by rewrite <-!app_assoc.
Qed.

Lemma total_nonneg es : Forall (fun e => 1 <= size e) es -> 0 <= total es.
Proof. induction 1; simpl; lia. Qed.

Lemma index_entries_fwd es : forall sum acc r s,
  at_ r (flat_map encEntry es ++ s) -> Forall (fun e => 1 <= size e) es -> 0 <= sum ->
  sum + total es < two64 ->
  exists r', decodeEntries (length es) sum acc r = Ok (acc ++ es, r') /\ at_ r' s.
Proof.
  induction es as [|e es IH]; intros sum acc r s Ha Hes H0 Ht.
  - exists r. rewrite app_nil_r. done.
  - rewrite Forall_cons in Hes. destruct Hes as [He Hes]. pose proof (total_nonneg _ Hes).
    simpl in Ht. simpl. simpl in Ha. unfold encEntry in Ha at 1. rewrite <-!app_assoc in Ha.
    rd_fwd. rd_fwd. rewrite (at_no_err _ _ Ha).
    rewrite (proj2 (Z.eqb_neq (size e) 0)) by lia.
    rewrite u64_small, Z.div_small by lia. simpl.
    destruct (IH (sum + size e) (acc ++ [e]) _ s Ha Hes) as (r' & E & Ha'); [lia..|].
    exists r'. destruct e as [c z]; simpl in *. rewrite E. by rewrite <-app_assoc.
Qed.

Lemma index_entries_bwd n : forall sum acc r es r' s,
  decodeEntries n sum acc r = Ok (es, r') -> at_ r s -> 0 <= sum < two64 ->
  exists es0 s', es = acc ++ es0 /\ length es0 = n /\ s = flat_map encEntry es0 ++ s' /\ at_ r' s' /\
    Forall (fun e => 1 <= size e) es0 /\ sum + total es0 < two64.
Proof.
  induction n as [|n IH]; intros sum acc r es r' s H Ha Hs; simpl in H.
  - injection H as <- <-. exists [], s. rewrite app_nil_r. split_and!; simpl; try done; lia.
  - rd_name H.
    destruct (bool_decide (rerr r1 <> None)) eqn:E1; [done|]. apply no_err_inv in E1.
    destruct (Z.eqb_spec v0 0); [done|]. destruct (Z.eqb_spec ((sum + v0) / two64) 0) as [Hd|]; [|done].
    simpl in H.
    rd_back. assert (sum + v0 < two64) as Hlt.
    { apply Z.div_small_iff in Hd; unfold two64 in *; lia. }
    rewrite u64_small in H by lia.
    destruct (IH _ _ _ _ _ _ H Ha ltac:(lia)) as (es0 & s' & -> & <- & -> & Ha' & Hf & Ht).
    exists (mkEntry v v0 :: es0), s'. rewrite <-app_assoc. simpl. unfold encEntry at 2. simpl.
    rewrite <-!app_assoc. split_and!; try done; [|lia]. constructor; simpl; [lia|done].
Qed.

(** What an index node holds: its level in range and at least one entry, every
    entry of at least one byte, the total inside 64 bits. *)
Definition valid_index (level : Z) (es : list entry) : Prop :=
  1 <= level <= maxDepth /\ es <> [] /\ Forall (fun e => 1 <= size e) es /\ total es < two64.

Lemma length_concat_min es :
  33 * zlen es <= zlen (flat_map encEntry es).
Proof.
  induction es as [|e es IH]; simpl; [lia|]. unfold encEntry at 1.
  rewrite !length_app, hash_length. pose proof (length_encUvarint (size e)). lia.
Qed.

Lemma decodeIndex_bwd b level es : decodeIndex b = Ok (level, es) -> b = encodeIndex level es /\ valid_index level es /\ zlen es < two64.
Proof.
  unfold decodeIndex. intros H. rd_name H. pose proof (at_new b) as Ha.
  destruct (bool_decide (rerr r1 <> None)) eqn:E2; [done|]. apply no_err_inv in E2.
  simpl in H. destruct (Z.eqb_spec v kindIndex) as [->|]; [|done]. simpl in H.
  destruct (Z.ltb_spec v0 1); [done|]. destruct (Z.ltb_spec maxDepth v0); [done|].
  destruct (Z.eqb_spec v1 0); [done|]. destruct (Z.ltb_spec (zlen b / entryMin) v1); [done|]. simpl in H.
  destruct (decodeEntries (Z.to_nat v1) 0 [] r1) as [[es1 r2]|] eqn:E3; [|done].
  destruct (Done r2) eqn:E4; [done|]. injection H as -> ->. apply Done_None in E4.
  rd_back. destruct (index_entries_bwd _ _ _ _ _ _ _ E3 Ha ltac:(unfold two64; lia))
    as (es0 & s' & -> & Hl & -> & Ha' & Hf & Ht).
  pose proof (at_functional _ _ _ E4 Ha') as <-. simpl. rewrite encodeIndex_enc, app_nil_r.
  replace (zlen es0) with v1 by lia. unfold valid_index. split_and!; try done; try lia.
  intros ->. simpl in Hl. lia.
Qed.

Lemma decodeIndex_fwd level es : valid_index level es -> zlen es < two64 -> decodeIndex (encodeIndex level es) = Ok (level, es).
Proof.
  intros ((Hl1 & Hl2) & Hne & Hf & Ht) Hlen. unfold decodeIndex.
  pose proof (at_new_nil (encodeIndex level es)) as Ha. rewrite encodeIndex_enc in Ha at 2.
  rewrite <-!app_assoc in Ha. unfold maxDepth, kindIndex in *.
  rd_fwd. rd_fwd. rd_fwd.
  rewrite (at_no_err _ _ Ha).
  assert (zlen es <= zlen (encodeIndex level es) / entryMin) as Hn.
  { apply Z.div_le_lower_bound; [done|]. rewrite encodeIndex_enc, !length_app.
    pose proof (length_concat_min es). unfold entryMin. lia. }
  assert (0 < zlen es) by (destruct es; simpl; [done|lia]). zbool.
  destruct (index_entries_fwd es 0 [] _ [] Ha Hf ltac:(lia) ltac:(lia)) as (r' & E & Ha').
  rewrite Nat2Z.id, E. by rewrite (proj2 (Done_None r') Ha').
Qed.

(** The index-node codec is a bijection between valid nodes and the byte
    strings it accepts: decoding succeeds on exactly the encodings of valid
    nodes and returns the node encoded. So no two encodings name one node,
    and truncated, overlong or trailing bytes are refused. *)
Theorem index_node_codec b level es :
  decodeIndex b = Ok (level, es) <->
  b = encodeIndex level es /\ valid_index level es /\ zlen es < two64.
Proof. split; [apply decodeIndex_bwd|]. intros (-> & Hv & Hlen). by apply decodeIndex_fwd. Qed.

(** ** Reading *)

(** An index node on the way to the chunk read last, already checked: where its
    bytes start in the stream and where each entry's end. *)
Record held := mkHeld { hstart : Z; ends : list Z; hes : list entry }.

(** [path] is kept deepest node first; the source appends, root first. [cur] is
    [None] before the first chunk is read. *)
Record Reader := mkSReader {
  sref : Ref; soff : Z; cur : option bytes; curStart : Z; path : list held }.

Definition holds (n : held) (pos : Z) : bool :=
  match last (ends n) with
  | Some e => (hstart n <=? pos) && (pos <? e)
  | None => false
  end.

(** The entry of a held node that holds [pos]: its hash, length and first byte. *)
Definition held_child (n : held) (pos : Z) : option (hash * Z * Z) :=
  let i := list_search (fun e => pos <? e) (ends n) in
  let start := match i with
               | O => hstart n
               | S j => default (hstart n) (ends n !! j)
               end in
  match hes n !! i with
  | Some e => Some (child e, size e, start)
  | None => None
  end.

(** Where each entry of a node that starts at [at_] ends. *)
Fixpoint running (at_ : Z) (es : list entry) : list Z :=
  match es with
  | [] => []
  | e :: es => (at_ + size e) :: running (at_ + size e) es
  end.

Section Reading.
Context (rd : creader).

Definition readNode (ref : Ref) (h : hash) (depth : nat) (want start : Z) : res held :=
  match rd h with
  | Err e => Err e
  | Ok b =>
      match decodeIndex b with
      | Err e => Err e
      | Ok (level, es) =>
          if negb (level =? Z.of_nat depth) then Err ChunkCorrupt
          else if (Z.of_nat depth =? Depth ref) && (zlen es <? 2) then Err ChunkCorrupt
          else
            let sum := foldl (fun t e => u64 (t + size e)) 0 es in
            if negb (sum =? want) then Err ChunkCorrupt
            else Ok (mkHeld start (running start es) es)
      end
  end.

(** The way down from a node at [depth] to the data chunk holding [pos]. *)
Fixpoint descend (depth : nat) (h : hash) (want start pos : Z) : M Reader (bytes * Z) := fun r =>
  match depth with
  | O =>
      match rd h with
      | Err e => (Err e, r)
      | Ok b =>
          if negb (zlen b =? want) then (Err ChunkCorrupt, r)
          else (Ok (b, start), mkSReader (sref r) (soff r) (Some b) start (path r))
      end
  | S d =>
      match readNode (sref r) h depth want start with
      | Err e => (Err e, r)
      | Ok n =>
          let r := mkSReader (sref r) (soff r) (cur r) (curStart r) (n :: path r) in
          match held_child n pos with
          | Some (h, want, start) => descend d h want start pos r
          | None => (Err (EMsg "index out of range"), r)
          end
      end
  end.

Fixpoint drop_unheld (p : list held) (pos : Z) : list held :=
  match p with
  | [] => []
  | n :: p' => if holds n pos then p else drop_unheld p' pos
  end.

Definition chunkAt (pos : Z) : M Reader (bytes * Z) := fun r =>
  let fresh :=
    let p := drop_unheld (path r) pos in
    let r := mkSReader (sref r) (soff r) (cur r) (curStart r) p in
    let from := match p with
                | [] => Some (Root (sref r), Size (sref r), 0)
                | n :: _ => held_child n pos
                end in
    match from with
    | Some (h, want, start) => descend (Z.to_nat (Depth (sref r)) - length p) h want start pos r
    | None => (Err (EMsg "index out of range"), r)
    end in
  match cur r with
  | Some c => if (curStart r <=? pos) && (pos <? curStart r + zlen c) then (Ok (c, curStart r), r) else fresh
  | None => fresh
  end.

Definition Open (ref : Ref) : res Reader :=
  if (maxDepth <? Depth ref) || (maxInt64 <? Size ref) then Err ChunkCorrupt
  else
    let r := mkSReader ref 0 None 0 [] in
    if Size ref =? 0 then
      match rd (Root ref) with
      | Err e => Err e
      | Ok b => if negb (Depth ref =? 0) || negb (length b =? 0)%nat then Err ChunkCorrupt else Ok r
      end
    else match chunkAt 0 r with
         | (Err e, _) => Err e
         | (Ok _, r) => Ok r
         end.

(** The copy loop of [ReadAt]: [want] bytes of [p] left to fill from [pos]. Every
    round copies at least one byte, so [len(p)] rounds are enough. *)
Fixpoint readLoop (fuel : nat) (want pos : Z) (acc : bytes) (r : Reader) : (bytes * option error) * Reader :=
  if (0 <? want) && (pos <? Size (sref r)) then
    match fuel with
    | O => ((acc, Some (EMsg "no progress")), r)
    | S fuel =>
        match chunkAt pos r with
        | (Err e, r) => ((acc, Some e), r)
        | (Ok (c, start), r) =>
            let part := take (Z.to_nat want) (drop (Z.to_nat (pos - start)) c) in
            readLoop fuel (want - zlen part) (pos + zlen part) (acc ++ part) r
        end
    end
  else ((acc, if 0 <? want then Some EOF else None), r).

(** [ReadAt(p, off)] with [n = len(p)]: what it copied into [p], and its error. *)
Definition ReadAt (n off : Z) (r : Reader) : (bytes * option error) * Reader :=
  if off <? 0 then (([], Some (EMsg "stream: negative offset")), r)
  else readLoop (Z.to_nat n) n off [] r.

Definition Read (n : Z) (r : Reader) : (bytes * option error) * Reader :=
  let '((b, err), r) := ReadAt n (soff r) r in
  let r := mkSReader (sref r) (soff r + zlen b) (cur r) (curStart r) (path r) in
  let err := if (0 <? zlen b) && bool_decide (err = Some EOF) then None else err in
  ((b, err), r).

(** [io.Copy] into a [bytes.Buffer], which reads into whatever room it has, at
    least [bytes.MinRead]: [room] is that room at each read. *)
Fixpoint copyLoop (fuel : nat) (room : nat -> Z) (acc : bytes) (r : Reader) : res bytes :=
  match fuel with
  | O => Err (EMsg "no progress")
  | S f =>
      match Read (room fuel) r with
      | ((b, None), r) => copyLoop f room (acc ++ b) r
      | ((b, Some e), r) => if bool_decide (e = EOF) then Ok (acc ++ b) else Err e
      end
  end.

Definition minRead : Z := 512.

Definition ReadAll (room : nat -> Z) (ref : Ref) (limit : Z) : res bytes :=
  if limit <? Size ref then Err StreamTooLarge
  else match Open ref with
       | Err e => Err e
       | Ok r => copyLoop (S (S (Z.to_nat (Size ref)))) room [] r
       end.

(** ** The bytes a stream stands for

    The plain recursive reading: a data chunk as long as its entry says, or
    the concatenation of what an index node's entries stand for. *)
Fixpoint fetch (depth : nat) (top : bool) (h : hash) (want : Z) : res bytes :=
  match depth with
  | O =>
      match rd h with
      | Err e => Err e
      | Ok b => if zlen b =? want then Ok b else Err ChunkCorrupt
      end
  | S d =>
      match rd h with
      | Err e => Err e
      | Ok b =>
          match decodeIndex b with
          | Err e => Err e
          | Ok (level, es) =>
              if (level =? Z.of_nat depth) && negb (top && (zlen es <? 2)) && (total es =? want)
              then match res_map (fun e => fetch d false (child e) (size e)) es with
                   | Ok bs => Ok (concat bs)
                   | Err e => Err e
                   end
              else Err ChunkCorrupt
          end
      end
  end.

Definition contents (ref : Ref) : res bytes := fetch (Z.to_nat (Depth ref)) true (Root ref) (Size ref).
End Reading.

(** ** Reading returns the stream's bytes *)

Definition slice (b : bytes) (from len : Z) : bytes := take (Z.to_nat len) (drop (Z.to_nat from) b).

Lemma length_slice b from len :
  0 <= from -> 0 <= len -> from + len <= zlen b -> zlen (slice b from len) = len.
Proof. intros. unfold slice. rewrite length_take, length_drop. lia. Qed.

Lemma slice_slice b f l f2 l2 :
  0 <= f -> 0 <= f2 -> 0 <= l2 -> f2 + l2 <= l -> slice (slice b f l) f2 l2 = slice b (f + f2) l2.
Proof.
  intros. unfold slice. rewrite List.skipn_firstn_comm, take_take, drop_drop.
  f_equal; [lia|]. f_equal. lia.
Qed.

Lemma slice_all b : slice b 0 (zlen b) = b.
Proof. unfold slice. simpl. rewrite drop_0, take_ge by lia. done. Qed.

Lemma slice_app b f l1 l2 : 0 <= f -> 0 <= l1 -> 0 <= l2 ->
  slice b f l1 ++ slice b (f + l1) l2 = slice b f (l1 + l2).
Proof.
  intros. unfold slice. rewrite Z2Nat.inj_add, <-drop_drop, Z2Nat.inj_add by lia.
  generalize (drop (Z.to_nat f) b) as c, (Z.to_nat l1) as x, (Z.to_nat l2) as y. clear.
  intros c x. revert c. induction x as [|x IH]; intros [|z c] y; simpl; [done|done|by rewrite take_nil|].
  by rewrite IH.
Qed.

Lemma total_sum es : Forall (fun e => 1 <= size e) es -> total es < two64 ->
  foldl (fun t e => u64 (t + size e)) 0 es = total es.
Proof.
  intros Hf Ht.
  enough (forall t, 0 <= t -> t + total es < two64 -> foldl (fun t e => u64 (t + size e)) t es = t + total es)
    as H by (rewrite H; lia).
  clear Ht. induction Hf as [|e es He Hf IH]; intros t H0 Ht; simpl in *; [lia|].
  pose proof (total_nonneg _ Hf). rewrite u64_small by lia. rewrite IH; lia.
Qed.

Lemma total_app a b : total (a ++ b) = total a + total b.
Proof. induction a; simpl; lia. Qed.

Lemma length_running s es : length (running s es) = length es.
Proof. revert s. induction es; intros s; simpl; auto. Qed.

Lemma running_lookup s es i e :
  running s es !! i = Some e -> e = s + total (take (S i) es).
Proof.
  revert s i. induction es as [|x es IH]; intros s i; simpl; [done|].
  destruct i as [|i]; simpl; [intros [= <-]; simpl; lia|].
  intros H. rewrite (IH _ _ H). simpl. lia.
Qed.

Lemma running_last s es : es <> [] -> last (running s es) = Some (s + total es).
Proof.
  revert s. induction es as [|x [|y es] IH]; intros s Hne; [done|simpl; f_equal; lia|].
  simpl in *. rewrite IH by done. simpl. f_equal. lia.
Qed.

Lemma running_sorted s es : Forall (fun e => 1 <= size e) es -> StronglySorted Z.lt (running s es) /\ Forall (fun z => s < z) (running s es).
Proof.
  intros Hf. revert s. induction Hf as [|e es He Hf IH]; intros s; simpl.
  - split; constructor.
  - destruct (IH (s + size e)) as [H1 H2]. split; constructor; try done; [lia|].
    eapply Forall_impl; [done|]. simpl. lia.
Qed.

(** The entry a held node finds for a position it holds. *)
Lemma held_child_spec s es pos :
  Forall (fun e => 1 <= size e) es -> s <= pos < s + total es ->
  exists es1 e es2, es = es1 ++ e :: es2 /\
    held_child (mkHeld s (running s es) es) pos = Some (child e, size e, s + total es1) /\
    s + total es1 <= pos < s + total es1 + size e.
Proof.
  intros Hf Hp. unfold held_child; simpl. destruct (running_sorted s es Hf) as [Hs _].
  destruct (list_search_spec (fun e => pos <? e) (running s es) Z.lt Hs) as (Hk & Ht & Hd).
  { intros x y Hxy. rewrite !Z.ltb_lt. lia. }
  set (k := list_search _ _) in *. rewrite length_running in Hk.
  assert (k < length es)%nat as Hlt.
  { destruct (decide (k = length es)) as [E|]; [|lia]. exfalso.
    assert (es <> []) as Hne by (intros ->; simpl in Hp; lia).
    pose proof (running_last s es Hne) as Hl. apply last_Some in Hl as [l El].
    rewrite take_ge, El, Forall_app, Forall_singleton in Ht by (rewrite length_running; lia).
    destruct Ht as [_ Ht]. apply Z.ltb_ge in Ht. lia. }
  destruct (lookup_lt_is_Some_2 es k Hlt) as [e He].
  destruct (lookup_lt_is_Some_2 (running s es) k) as [z Hz]; [by rewrite length_running|].
  pose proof (running_lookup _ _ _ _ Hz) as Ez.
  rewrite (take_S_r _ _ _ He), total_app in Ez. simpl in Ez.
  exists (take k es), e, (drop (S k) es). split; [by rewrite (take_drop_middle _ _ _ He)|].
  assert (pos < z).
  { rewrite Forall_lookup in Hd. specialize (Hd 0%nat z). rewrite lookup_drop, Nat.add_0_r in Hd.
    specialize (Hd Hz). by apply Z.ltb_lt in Hd. }
  rewrite He. destruct k as [|j] eqn:Ek.
  - rewrite take_0 in *. simpl in *. rewrite Z.add_0_r. split; [done|lia].
  - destruct (lookup_lt_is_Some_2 (running s es) j) as [y Hy]; [rewrite length_running; lia|].
    rewrite Hy. simpl default. pose proof (running_lookup _ _ _ _ Hy) as Ey. rewrite Ey. split; [done|].
    rewrite Forall_lookup in Ht. specialize (Ht j y). rewrite lookup_take_lt in Ht by lia.
    specialize (Ht Hy). apply Z.ltb_ge in Ht. lia.
Qed.

Section ReadingOk.
Context (rd : creader) (ref : Ref) (data : bytes).
Hypothesis Hdata : contents rd ref = Ok data.
Hypothesis Hdepth : 0 <= Depth ref <= maxDepth.
Hypothesis Hsize : 0 <= Size ref <= maxInt64.

Lemma fetch_length depth : forall top h want b, fetch rd depth top h want = Ok b -> zlen b = want.
Proof.
  induction depth as [|d IH]; intros top h want b; simpl; destruct (rd h) as [c|]; [| done| |done].
  - destruct (Z.eqb_spec (zlen c) want); [|done]. by intros [= <-].
  - destruct (decodeIndex c) as [[level es]|] eqn:Ed; [|done].
    destruct (_ && (total es =? want)) eqn:Ec; [|done]. apply andb_prop in Ec as [_ <-%Z.eqb_eq].
    destruct (res_map _ es) as [bs|] eqn:Em; [|done]. intros [= <-]. apply res_map_Ok in Em. clear Ed.
    induction Em as [|e b es bs He Em IHm]; [done|]. simpl. rewrite length_app.
    specialize (IH _ _ _ _ He). lia.
Qed.

Lemma data_length : zlen data = Size ref.
Proof. apply (fetch_length _ _ _ _ _ Hdata). Qed.

(** A part of the stream: [want] bytes from [start], read from [h] at [depth]. *)
Definition part_ok (depth : nat) (h : hash) (want start : Z) : Prop :=
  exists top, (top = true -> Z.of_nat depth = Depth ref) /\ (top = false -> Z.of_nat depth < Depth ref) /\
    fetch rd depth top h want = Ok (slice data start want) /\ 0 <= start /\ 0 <= want /\
    start + want <= zlen data.

Definition held_ok (depth : nat) (n : held) : Prop :=
  ends n = running (hstart n) (hes n) /\ Forall (fun e => 1 <= size e) (hes n) /\ hes n <> [] /\
  (Z.of_nat depth < Depth ref) /\
  forall es1 e es2, hes n = es1 ++ e :: es2 -> part_ok depth (child e) (size e) (hstart n + total es1).

(** Every node on the path was checked; [depth] is the depth below its deepest. *)
Fixpoint path_ok (depth : nat) (p : list held) : Prop :=
  match p with
  | [] => Z.of_nat depth = Depth ref
  | n :: p => held_ok depth n /\ path_ok (S depth) p
  end.

Definition reader_ok (r : Reader) : Prop :=
  sref r = ref /\
  (exists depth, path_ok depth (path r)) /\
  match cur r with
  | Some c => c = slice data (curStart r) (zlen c) /\ 0 <= curStart r /\ curStart r + zlen c <= zlen data
  | None => True
  end.

Lemma path_depth depth p : path_ok depth p -> depth = (Z.to_nat (Depth ref) - length p)%nat /\ (length p <= Z.to_nat (Depth ref))%nat.
Proof.
  revert depth. induction p as [|n p IH]; intros depth; simpl; [lia|].
  intros [_ H]. apply IH in H. lia.
Qed.

Lemma readNode_ok depth h want start :
  part_ok (S depth) h want start ->
  exists n, readNode rd ref h (S depth) want start = Ok n /\ held_ok depth n /\
    hstart n = start /\ total (hes n) = want.
Proof.
  intros (top & Ht & Hnt & Hf & H0 & H1 & H2). simpl in Hf. unfold readNode.
  destruct (rd h) as [b|]; [|done]. destruct (decodeIndex b) as [[level es]|] eqn:Ed; [|done].
  destruct (_ && (total es =? want)) eqn:Ec; [|done]. apply andb_prop in Ec as [Ec Ew].
  apply andb_prop in Ec as [El Etop]. apply Z.eqb_eq in Ew, El.
  destruct (res_map _ es) as [bs|] eqn:Em; [|done]. injection Hf as Hf. apply res_map_Ok in Em.
  apply decodeIndex_bwd in Ed as (-> & ((_ & _) & Hne & Hpos & Htot) & _).
  rewrite total_sum by done. subst level. rewrite Z.eqb_refl. simpl negb.
  assert ((Z.of_nat (S depth) =? Depth ref) && (zlen es <? 2) = false) as ->.
  { destruct top; simpl in Etop.
    - rewrite (Ht eq_refl), Z.eqb_refl. by destruct (zlen es <? 2).
    - specialize (Hnt eq_refl). by rewrite (proj2 (Z.eqb_neq _ _)) by lia. }
  rewrite (proj2 (Z.eqb_eq _ _) Ew). simpl negb. eexists. split; [done|]. unfold held_ok. simpl.
  assert (Z.of_nat depth < Depth ref) by (destruct top; [specialize (Ht eq_refl)|specialize (Hnt eq_refl)]; lia).
  split_and!; try done. intros es1 e es2 ->. exists false. split; [done|]. split; [done|].
  apply Forall2_app_inv_l in Em as (bs1 & bs2 & Em1 & Em2 & ->).
  apply Forall2_cons_inv_l in Em2 as (be & bs2' & Hbe & Em2 & ->).
  apply Forall_app in Hpos as [Hp1 Hp2]. apply Forall_cons in Hp2 as [Hpe Hp2].
  rewrite total_app in Ew. simpl in Ew. pose proof (total_nonneg _ Hp1). pose proof (total_nonneg _ Hp2).
  assert (zlen (concat bs1) = total es1) as Hl1.
  { clear -Em1. induction Em1 as [|x y l k Hx Em IH]; [done|]. simpl. rewrite length_app.
    apply fetch_length in Hx. lia. }
  split_and!; try lia. rewrite Hbe. f_equal.
  rewrite <-(slice_slice data start want (total es1) (size e)) by lia. rewrite <-Hf. apply fetch_length in Hbe.
  unfold slice. rewrite concat_app. simpl. rewrite drop_app_length' by lia. rewrite take_app_length' by lia. done.
Qed.

Lemma held_child_ok depth n pos :
  held_ok depth n -> hstart n <= pos < hstart n + total (hes n) ->
  exists h want start, held_child n pos = Some (h, want, start) /\ part_ok depth h want start /\
    start <= pos < start + want.
Proof.
  intros (He & Hp & _ & _ & Hk) Hpos. destruct n as [s en es]; simpl in *. subst en.
  destruct (held_child_spec s es pos Hp Hpos) as (es1 & e & es2 & E & -> & Hr).
  do 3 eexists. split; [done|]. split; [by eapply Hk|lia].
Qed.

Lemma descend_ok depth : forall h want start pos r,
  part_ok depth h want start -> start <= pos < start + want -> sref r = ref -> path_ok depth (path r) ->
  exists c s r', descend rd depth h want start pos r = (Ok (c, s), r') /\ reader_ok r' /\ soff r' = soff r /\
    c = slice data s (zlen c) /\ 0 <= s <= pos /\ pos < s + zlen c /\ s + zlen c <= zlen data.
Proof.
  induction depth as [|d IH]; intros h want start pos r Hpart Hpos Hr Hpath.
  - destruct Hpart as (top & _ & _ & Hf & H0 & H1 & H2). simpl in *. destruct (rd h) as [b|]; [|done].
    destruct (Z.eqb_spec (zlen b) want) as [Hw|]; [|done]. injection Hf as Hb. simpl.
    subst want. do 3 eexists. split; [reflexivity|]. unfold reader_ok; simpl.
    split_and!; try done; try lia. by eexists.
  - cbn [descend]. rewrite Hr.
    destruct (readNode_ok _ _ _ _ Hpart) as (n & -> & Hn & <- & <-).
    destruct (held_child_ok _ _ _ Hn Hpos) as (h2 & w2 & s2 & -> & Hp2 & Hpos2).
    destruct (IH h2 w2 s2 pos (mkSReader ref (soff r) (cur r) (curStart r) (n :: path r)))
      as (c & s & r' & E & Hok); [done..|]. eauto 10.
Qed.

Lemma drop_unheld_ok p pos depth : path_ok depth p ->
  exists depth', path_ok depth' (drop_unheld p pos) /\
    (drop_unheld p pos = [] \/ exists n p', drop_unheld p pos = n :: p' /\ holds n pos = true).
Proof.
  revert depth. induction p as [|n p IH]; intros depth Hp; simpl; [by eauto|].
  destruct (holds n pos) eqn:E; [|destruct Hp as [_ Hp]; by apply IH in Hp].
  exists depth. split; [done|]. right. by exists n, p.
Qed.

Lemma top_part : part_ok (Z.to_nat (Depth ref)) (Root ref) (Size ref) 0.
Proof.
  exists true. rewrite <-data_length. split_and!; try done; try lia. rewrite slice_all, data_length. apply Hdata.
Qed.

Lemma chunkAt_ok pos r :
  reader_ok r -> 0 <= pos < Size ref ->
  exists c s r', chunkAt rd pos r = (Ok (c, s), r') /\ reader_ok r' /\ soff r' = soff r /\
    c = slice data s (zlen c) /\ 0 <= s <= pos /\ pos < s + zlen c /\ s + zlen c <= zlen data.
Proof.
  intros (Hr & (depth & Hp) & Hc) Hpos. unfold chunkAt.
  destruct (drop_unheld_ok _ pos _ Hp) as (d & Hd & Hcase).
  assert (let p := drop_unheld (path r) pos in
    let r' := mkSReader (sref r) (soff r) (cur r) (curStart r) p in
    exists c s r'', match (match p with [] => Some (Root (sref r'), Size (sref r'), 0) | n :: _ => held_child n pos end) with
      | Some (h, want, start) => descend rd (Z.to_nat (Depth (sref r')) - length p) h want start pos r'
      | None => (Err (EMsg "index out of range"), r')
      end = (Ok (c, s), r'') /\ reader_ok r'' /\ soff r'' = soff r /\
    c = slice data s (zlen c) /\ 0 <= s <= pos /\ pos < s + zlen c /\ s + zlen c <= zlen data) as Hfresh.
  { simpl. destruct (path_depth _ _ Hd) as [Ed _]. rewrite Hr, <-Ed.
    destruct Hcase as [E|(n & p' & E & Hh)]; rewrite E in *; simpl in *.
    - apply (descend_ok d (Root ref) (Size ref) 0 pos (mkSReader ref (soff r) (cur r) (curStart r) []));
        simpl; try done.
      replace d with (Z.to_nat (Depth ref)) by lia. apply top_part.
    - destruct Hd as [Hn Hd]. pose proof Hn as (He & _ & Hne & _). unfold holds in Hh.
      rewrite He, running_last in Hh by done. apply andb_prop in Hh as [?%Z.leb_le ?%Z.ltb_lt].
      destruct (held_child_ok _ _ pos Hn ltac:(lia)) as (h2 & w2 & s2 & -> & Hp2 & Hpos2).
      apply (descend_ok d h2 w2 s2 pos (mkSReader ref (soff r) (cur r) (curStart r) (n :: p')));
        simpl; done. }
  simpl in Hfresh. destruct (cur r) as [c|] eqn:Ec; [|exact Hfresh].
  destruct (_ && _) eqn:Ein; [|exact Hfresh]. apply andb_prop in Ein as [?%Z.leb_le ?%Z.ltb_lt].
  destruct Hc as (Hc1 & Hc2 & Hc3). exists c, (curStart r), r.
  split_and!; try done; try lia. unfold reader_ok. rewrite Ec. split_and!; try done. by exists depth.
Qed.

Lemma readLoop_ok fuel : forall want pos acc r,
  reader_ok r -> 0 <= pos -> (Z.to_nat want <= fuel)%nat -> 0 <= want ->
  exists r', readLoop rd fuel want pos acc r =
      ((acc ++ slice data pos want, if pos + want <=? Size ref then None else if 0 <? want then Some EOF else None), r') /\
    reader_ok r' /\ soff r' = soff r.
Proof.
  induction fuel as [|fuel IH]; intros want pos acc r Hok Hp Hfuel Hw;
    pose proof Hok as (Hr & _); cbn [readLoop]; rewrite Hr.
  - assert (want = 0) as -> by lia. simpl. exists r. unfold slice. rewrite take_0, app_nil_r.
    split_and!; try done. by destruct (_ <=? _).
  - destruct (Z.ltb_spec 0 want); simpl.
    2: { assert (want = 0) as -> by lia. exists r. unfold slice. rewrite take_0, app_nil_r.
         split_and!; try done. by destruct (_ <=? _). }
    destruct (Z.ltb_spec pos (Size ref)) as [Hlt|Hge].
    + destruct (chunkAt_ok pos r Hok ltac:(lia)) as (c & s & r1 & -> & Hok1 & Hoff & Hc & Hs & Hps & Hlen).
      set (part := take _ _).
      assert (part = slice data pos (Z.min want (s + zlen c - pos))) as Hpart.
      { replace pos with (s + (pos - s)) at 1 by lia. rewrite <-(slice_slice data s (zlen c)) by lia.
        rewrite <-Hc. subst part. unfold slice.
        destruct (Z.min_spec want (s + zlen c - pos)) as [[Hm ->]|[Hm ->]]; [done|].
        rewrite !take_ge; [done|rewrite length_drop; lia..]. }
      set (k := Z.min want (s + zlen c - pos)) in *.
      assert (zlen part = k) as Hk.
      { rewrite Hpart. apply length_slice; subst k; lia. }
      destruct (IH (want - zlen part) (pos + zlen part) (acc ++ part) r1) as (r2 & E & Hok2 & Hoff2);
        [done|subst k; lia..|].
      rewrite E. exists r2. split_and!; [|done|congruence].
      rewrite <-app_assoc, Hk, Hpart, slice_app by (subst k; lia).
      replace (k + (want - k)) with want by lia. replace (pos + k + (want - k)) with (pos + want) by lia.
      do 2 f_equal. destruct (Z.leb_spec (pos + want) (Size ref)); [done|].
      pose proof data_length. by rewrite (proj2 (Z.ltb_lt _ _)) by (subst k; lia).
    + exists r. pose proof data_length. unfold slice. rewrite drop_ge, take_nil, app_nil_r by lia.
      split_and!; try done. by rewrite (proj2 (Z.leb_gt _ _)) by lia.
Qed.

Lemma Open_ok : exists r, Open rd ref = Ok r /\ reader_ok r /\ soff r = 0.
Proof.
  unfold Open. rewrite (proj2 (Z.ltb_ge _ _)), (proj2 (Z.ltb_ge _ _)) by lia. simpl orb.
  assert (reader_ok (mkSReader ref 0 None 0 [])) as Hok.
  { unfold reader_ok. simpl. split_and!; try done. exists (Z.to_nat (Depth ref)). simpl. lia. }
  destruct (Z.eqb_spec (Size ref) 0) as [Hz|Hnz].
  - pose proof Hdata as Hc. unfold contents in Hc. destruct (Z.to_nat (Depth ref)) as [|d] eqn:Ed; simpl in Hc.
    + assert (Depth ref = 0) as -> by lia. destruct (rd (Root ref)) as [b|]; [|done].
      destruct (Z.eqb_spec (zlen b) (Size ref)); [|done]. simpl.
      rewrite (proj2 (Nat.eqb_eq _ _)) by lia. eauto.
    + destruct (rd (Root ref)) as [b|]; [|done]. destruct (decodeIndex b) as [[level es]|] eqn:Ex; [|done].
      destruct (_ && _) eqn:Eb; [|done]. apply andb_prop in Eb as [_ Et%Z.eqb_eq].
      apply decodeIndex_bwd in Ex as (_ & (_ & Hne & Hpos & _) & _). exfalso.
      destruct es as [|e es]; [done|]. apply Forall_cons in Hpos as [He Hpos].
      pose proof (total_nonneg _ Hpos). simpl in Et. lia.
  - destruct (chunkAt_ok 0 _ Hok ltac:(lia)) as (c & s & r' & -> & Hok' & Hoff & _). eauto.
Qed.

Lemma ReadAt_ok n off r : reader_ok r -> 0 <= n -> 0 <= off ->
  exists r', ReadAt rd n off r =
      ((slice data off n, if off + n <=? Size ref then None else if 0 <? n then Some EOF else None), r') /\
    reader_ok r' /\ soff r' = soff r.
Proof.
  intros Hok Hn Hoff. unfold ReadAt. rewrite (proj2 (Z.ltb_ge _ _)) by lia.
  by apply (readLoop_ok (Z.to_nat n) n off [] r).
Qed.

Lemma Read_ok n r : reader_ok r -> 0 < n -> 0 <= soff r <= Size ref ->
  exists r', Read rd n r =
      ((slice data (soff r) n, if soff r =? Size ref then Some EOF else None), r') /\
    reader_ok r' /\ soff r' = Z.min (soff r + n) (Size ref).
Proof.
  intros Hok Hn Hoff. unfold Read. destruct (ReadAt_ok n (soff r) r) as (r' & -> & Hok' & Ho); [done|lia..|].
  pose proof data_length as Hlen.
  assert (zlen (slice data (soff r) n) = Z.min n (Size ref - soff r)) as Hl.
  { unfold slice. rewrite length_take, length_drop. lia. }
  cbv beta iota zeta. rewrite Hl, Ho. eexists. split; [apply f_equal2; [f_equal|reflexivity]|].
  2: { split; [exact Hok'|cbn [soff]; lia]. }
  rewrite (proj2 (Z.ltb_lt 0 n)) by lia.
  destruct (Z.eqb_spec (soff r) (Size ref)) as [E|E].
  - rewrite (proj2 (Z.leb_gt _ _)) by lia. rewrite (proj2 (Z.ltb_ge _ _)) by lia. done.
  - rewrite (proj2 (Z.ltb_lt 0 _)) by lia. by destruct (_ <=? _).
Qed.

Lemma copyLoop_ok room fuel : (forall i, 0 < room i) -> forall r acc,
  reader_ok r -> 0 <= soff r <= Size ref -> (Z.to_nat (Size ref - soff r) + 1 < fuel)%nat ->
  copyLoop rd fuel room acc r = Ok (acc ++ slice data (soff r) (Size ref - soff r)).
Proof.
  intros Hroom. induction fuel as [|fuel IH]; intros r acc Hok Hoff Hf; [lia|]. cbn [copyLoop].
  specialize (Hroom (S fuel)) as Hr. destruct (Read_ok (room (S fuel)) r Hok Hr Hoff) as (r' & -> & Hok' & Ho).
  destruct (Z.eqb_spec (soff r) (Size ref)) as [E|E].
  - pose proof data_length. unfold slice. rewrite bool_decide_true by done.
    rewrite !drop_ge, !take_nil by lia. done.
  - rewrite IH; [|done|lia|lia]. rewrite <-app_assoc. do 2 f_equal. rewrite Ho.
    pose proof data_length as Hlen. destruct (Z.min_spec (soff r + room (S fuel)) (Size ref)) as [[Hm ->]|[Hm ->]].
    + rewrite slice_app by lia. f_equal. lia.
    + unfold slice. rewrite Z.sub_diag. simpl. rewrite take_0, app_nil_r.
      rewrite !take_ge; [done|rewrite length_drop; lia..].
Qed.
End ReadingOk.

(** A client's [ReadAt] calls on one reader, one after the other. *)
Fixpoint read_each (rd : creader) (reqs : list (Z * Z)) (r : Reader) : list (bytes * option error) :=
  match reqs with
  | [] => []
  | (n, off) :: reqs => let '(o, r) := ReadAt rd n off r in o :: read_each rd reqs r
  end.

(** C31. Reading a stream at any place: opening a Ref whose tree of chunks reads back as
    [data] succeeds, and any sequence of [ReadAt] calls on the reader, each starting from
    whatever chunk and index path the calls before left held, returns the bytes
    of [data] from the offset asked for, with [EOF] exactly when the buffer reaches past the end. *)
Theorem read_at_anywhere rd ref data reqs :
  contents rd ref = Ok data ->
  0 <= Depth ref <= maxDepth -> 0 <= Size ref <= maxInt64 ->
  Forall (fun q => 0 <= q.1 /\ 0 <= q.2) reqs ->
  exists r, Open rd ref = Ok r /\
    read_each rd reqs r =
    map (fun q => (slice data q.2 q.1,
                   if q.2 + q.1 <=? zlen data then None else if 0 <? q.1 then Some EOF else None)) reqs.
Proof.
  intros Hc Hd Hs Hq. destruct (Open_ok rd ref data Hc Hd Hs) as (r & -> & Hok & _). exists r. split; [done|].
  rewrite (data_length _ _ _ Hc). revert r Hok.
  induction Hq as [|[n off] reqs [Hn Ho] Hq IH]; intros r Hok; simpl in *; [done|].
  edestruct (ReadAt_ok rd ref data) as (r' & -> & Hok' & _); [done..|]. by rewrite IH.
Qed.

Lemma read_all_ok rd room ref data limit :
  contents rd ref = Ok data ->
  0 <= Depth ref <= maxDepth -> 0 <= Size ref <= maxInt64 -> (forall i, 0 < room i) ->
  ReadAll rd room ref limit = if zlen data <=? limit then Ok data else Err StreamTooLarge.
Proof.
  intros Hc Hd Hs Hroom. unfold ReadAll. pose proof (data_length _ _ _ Hc) as Hl. rewrite Hl, Z.leb_antisym.
  destruct (limit <? Size ref); [done|]. cbn [negb].
  destruct (Open_ok rd ref data Hc Hd Hs) as (r & -> & Hok & Hoff).
  rewrite (copyLoop_ok rd ref data); try done; rewrite ?Hoff; [|lia|lia].
  rewrite Z.sub_0_r, <-Hl, slice_all. done.
Qed.

(** [ReadAll] of a stream within its caller's limit is the stream's bytes, whatever
    room the growing buffer offers each read; a longer Ref is refused with no chunk read. *)
Theorem read_all_exact rd room ref data limit :
  contents rd ref = Ok data ->
  0 <= Depth ref <= maxDepth -> 0 <= Size ref <= maxInt64 -> (forall i, 0 < room i) ->
  ReadAll rd room ref limit = if zlen data <=? limit then Ok data else Err StreamTooLarge.
Proof. apply read_all_ok. Qed.

(** ** Walking *)

Section Walking.
Context (rd : creader) {St : Type} (visit : hash -> bool -> St -> res bool * St).

Section Each.
Context {A : Type} (f : A -> St -> res unit * St).

(** A loop that stops at the first error. *)
Fixpoint walkEach (l : list A) (st : St) : res unit * St :=
  match l with
  | [] => (Ok tt, st)
  | a :: l => match f a st with
              | (Err e, st) => (Err e, st)
              | (Ok _, st) => walkEach l st
              end
  end.
End Each.

Fixpoint walk (depth : nat) (h : hash) (want : Z) (top : bool) (st : St) : res unit * St :=
  match visit h (depth =? 0)%nat st with
  | (Err e, st) => (Err e, st)
  | (Ok deeper, st) =>
      match depth with
      | O => (Ok tt, st)
      | S d =>
          if negb deeper then (Ok tt, st)
          else match rd h with
          | Err e => (Err e, st)
          | Ok b =>
              match decodeIndex b with
              | Err e => (Err e, st)
              | Ok (level, es) =>
                  if negb (level =? Z.of_nat depth) then (Err ChunkCorrupt, st)
                  else if top && (zlen es <? 2) then (Err ChunkCorrupt, st)
                  else
                    let sum := foldl (fun t e => u64 (t + size e)) 0 es in
                    if negb (sum =? want) then (Err ChunkCorrupt, st)
                    else walkEach (fun e st => walk d (child e) (size e) false st) es st
              end
          end
      end
  end.

Definition Walk (ref : Ref) (st : St) : res unit * St :=
  if (maxDepth <? Depth ref) || (maxInt64 <? Size ref) then (Err ChunkCorrupt, st)
  else walk (Z.to_nat (Depth ref)) (Root ref) (Size ref) true st.
End Walking.

(** The visitor that goes everywhere and notes what it saw. *)
Definition collect (h : hash) (leaf : bool) (seen : list hash) : res bool * list hash := (Ok true, seen ++ [h]).

(** A visitor that goes everywhere and notes every chunk: what it noted is
    [names] of its state, and stays through [R]. *)
Record noting {St} (visit : hash -> bool -> St -> res bool * St) (names : St -> list hash) (R : St -> St -> Prop) : Prop := {
  note_refl st : R st st;
  note_trans st1 st2 st3 : R st1 st2 -> R st2 st3 -> R st1 st3;
  note_stays st st' x : R st st' -> x ∈ names st -> x ∈ names st';
  note_visit h leaf st : exists st', visit h leaf st = (Ok true, st') /\ R st st' /\ h ∈ names st' }.

Lemma collect_notes : noting collect (fun seen => seen) (fun a b => forall x, x ∈ a -> x ∈ b).
Proof.
  split; [done|auto|auto|]. intros h leaf st. exists (st ++ [h]). split; [done|]. set_solver.
Qed.

Lemma walk_notes {St} (visit : hash -> bool -> St -> res bool * St) names R rd depth : noting visit names R -> forall h want top st st',
  walk rd visit depth h want top st = (Ok tt, st') ->
  R st st' /\ forall rd', (forall x, x ∈ names st' -> rd' x = rd x) -> fetch rd' depth top h want = fetch rd depth top h want.
Proof.
  intros Hv. induction depth as [|d IH]; intros h want top st st'; simpl;
    [destruct (note_visit _ _ _ Hv h true st) as (st1 & -> & H1 & Hh)|destruct (note_visit _ _ _ Hv h false st) as (st1 & -> & H1 & Hh)].
  - intros [= <-]. split; [done|]. intros rd' Hrd. by rewrite Hrd.
  - simpl. destruct (rd h) as [b|] eqn:Eb; [|done]. destruct (decodeIndex b) as [[level es]|] eqn:Ed; [|done].
    destruct (negb (level =? Z.of_nat (S d))); [done|]. destruct (top && (zlen es <? 2)) eqn:Et; [done|].
    destruct (negb (_ =? want)); [done|]. intros Hw.
    assert (R st1 st' /\ forall rd', (forall x, x ∈ names st' -> rd' x = rd x) ->
      Forall (fun e => fetch rd' d false (child e) (size e) = fetch rd d false (child e) (size e)) es) as [Hin Hall].
    { clear Ed Et H1 Hh. revert Hw. generalize st1 as st0. induction es as [|e es IHes]; intros st0; simpl.
      - intros [= <-]. split; [apply Hv|]. constructor.
      - destruct (walk rd visit d (child e) (size e) false st0) as [[[]|] st2] eqn:E1; [|done].
        intros Hw. destruct (IH _ _ _ _ _ E1) as [H1 H2]. destruct (IHes _ Hw) as [H3 H4].
        split; [by eapply note_trans|]. intros rd' Hrd. constructor; [|by apply H4]. apply H2. intros x Hx. apply Hrd. by eapply note_stays. }
    split; [by eapply note_trans|]. intros rd' Hrd. rewrite (Hrd h), Eb, Ed, Et by (by eapply note_stays).
    assert (res_map (fun e => fetch rd' d false (child e) (size e)) es =
            res_map (fun e => fetch rd d false (child e) (size e)) es) as ->; [|done].
    specialize (Hall rd' Hrd). clear -Hall. induction Hall as [|e es He _ IH]; [done|]. simpl. by rewrite He, IH.
Qed.

(** A reader that has more chunks reads what was read. *)
Lemma fetch_grows rd rd' depth : (forall h b, rd h = Ok b -> rd' h = Ok b) -> forall top h want b,
  fetch rd depth top h want = Ok b -> fetch rd' depth top h want = Ok b.
Proof.
  intros Hm. induction depth as [|d IH]; intros top h want b; simpl; (destruct (rd h) as [c|] eqn:E; [|done]); rewrite (Hm h c E); [done|].
  destruct (decodeIndex c) as [[level es]|]; [|done]. destruct (_ && _); [|done].
  destruct (res_map _ es) as [bs|] eqn:Em; [|done]. intros <-. apply res_map_Ok in Em.
  assert (res_map (fun e => fetch rd' d false (child e) (size e)) es = Ok bs) as ->; [|done].
  induction Em as [|e x es bs He _ IHe]; [done|]. simpl. by rewrite (IH _ _ _ _ He), IHe.
Qed.

Lemma contents_grows rd rd' ref b : (forall h b, rd h = Ok b -> rd' h = Ok b) -> contents rd ref = Ok b -> contents rd' ref = Ok b.
Proof. intros Hm. by apply fetch_grows. Qed.

Lemma walk_covers rd depth h want top st st' :
  walk rd collect depth h want top st = (Ok tt, st') ->
  (forall x, x ∈ st -> x ∈ st') /\
  forall rd', (forall x, x ∈ st' -> rd' x = rd x) -> fetch rd' depth top h want = fetch rd depth top h want.
Proof. apply (walk_notes _ _ _ _ _ collect_notes). Qed.

Lemma walk_complete rd depth : forall h want top st b,
  fetch rd depth top h want = Ok b -> exists st', walk rd collect depth h want top st = (Ok tt, st').
Proof.
  induction depth as [|d IH]; intros h want top st b; simpl; [by eauto|].
  destruct (rd h) as [c|] eqn:Eb; [|done]. destruct (decodeIndex c) as [[level es]|] eqn:Ed; [|done].
  destruct (_ && (total es =? want)) eqn:Ec; [|done]. apply andb_prop in Ec as [[-> ->%negb_true_iff]%andb_prop Ew%Z.eqb_eq].
  destruct (res_map _ es) as [bs|] eqn:Em; [|done]. intros _. apply res_map_Ok in Em.
  apply decodeIndex_bwd in Ed as (_ & (_ & _ & Hpos & Htot) & _).
  rewrite total_sum by done. rewrite (proj2 (Z.eqb_eq _ _) Ew). simpl.
  generalize (st ++ [h]) as st0. clear -IH Em. induction Em as [|e b es bs He Em IHm]; intros st0; simpl; [by eauto|].
  destruct (IH _ _ _ st0 _ He) as (st1 & ->). apply IHm.
Qed.

(** Walking names every chunk a stream is made of: when [Walk] with a visitor that goes
    everywhere succeeds, any store that holds the chunks it named as they are reads
    the stream as this one does, whatever else it lost or holds differently (what a
    collector that keeps the named chunks relies on); and a stream that reads is always walked to its end. *)
Theorem walk_names_the_stream rd ref seen :
  (forall named, Walk rd collect ref seen = (Ok tt, named) ->
   forall rd', (forall h, h ∈ named -> rd' h = rd h) -> contents rd' ref = contents rd ref) /\
  (forall data, contents rd ref = Ok data -> Depth ref <= maxDepth -> Size ref <= maxInt64 ->
   exists named, Walk rd collect ref seen = (Ok tt, named)).
Proof.
  unfold Walk, contents. split.
  - intros named. destruct (_ || _); [done|]. intros Hw rd' Hrd. by eapply walk_covers.
  - intros data Hd H1 H2. rewrite !(proj2 (Z.ltb_ge _ _)) by lia. simpl. by eapply walk_complete.
Qed.

(** *** Witnesses: a stream of two chunks under one index node *)

Section Example.
#[local] Existing Instance toy_hasher.

Definition two_chunks : Ref * creader :=
  let a := str "snap" in
  let b := str "shots" in
  let n := encodeIndex 1 [mkEntry (Sum a) 4; mkEntry (Sum b) 5] in
  (mkRef (Sum n) 9 1,
   fun h => if bool_decide (h = Sum a) then Ok a else if bool_decide (h = Sum b) then Ok b
            else if bool_decide (h = Sum n) then Ok n else Err ChunkNotFound).

Lemma read_at_anywhere_witness :
  exists r, Open two_chunks.2 two_chunks.1 = Ok r /\
    read_each two_chunks.2 [(3, 7); (4, 2); (1, 20)] r =
    [(str "ts", Some EOF); (str "apsh", None); ([], Some EOF)].
Proof.
  apply (read_at_anywhere two_chunks.2 two_chunks.1 (str "snapshots") [(3, 7); (4, 2); (1, 20)]).
  - vm_compute. reflexivity.
  - split; vm_compute; discriminate.
  - split; vm_compute; discriminate.
  - repeat constructor; vm_compute; discriminate.
Defined.

Lemma read_all_exact_witness :
  ReadAll two_chunks.2 (fun _ => 3) two_chunks.1 9 = Ok (str "snapshots") /\
  ReadAll two_chunks.2 (fun _ => 3) two_chunks.1 8 = Err StreamTooLarge.
Proof.
  split.
  - apply (read_all_exact two_chunks.2 (fun _ => 3) two_chunks.1 (str "snapshots") 9);
      [vm_compute; reflexivity|split; vm_compute; discriminate|split; vm_compute; discriminate|reflexivity].
  - apply (read_all_exact two_chunks.2 (fun _ => 3) two_chunks.1 (str "snapshots") 8);
      [vm_compute; reflexivity|split; vm_compute; discriminate|split; vm_compute; discriminate|reflexivity].
Defined.
End Example.
