(* ===== verification/StreamWrite.v ===== *)
(** * core/stream: writing a stream

    The level builder of [Write]'s serial path: each level holds the node it is
    filling, a finished node becomes an entry one level up, and [finish] closes the
    levels bottom up. A program over the chunk store; the theorem is the
    round trip with the reader of [Stream]. *)

From S2P Require Import Prelude GoStd Wire Hash ChunkStore Prog Stream.
From S2P Require Boundary Cdc.

Section Writing.
Context `{Hasher}.

Record level := mkLevel {
  lsplit : Boundary.Splitter; lentries : list entry; ltotal : Z; lfirst : entry }.

Definition zero_entry : entry := mkEntry zero_hash 0.
Definition newLevel (rule : Boundary.Rule) (lv : Z) : level :=
  mkLevel (Boundary.newSplitter rule lv) [] 0 zero_entry.

Definition DeeperThan : error := EMsg "stream: deeper than 63 levels".

(** [emit(lv)], with [up] the call of [add] one level up. *)
Definition emitWith (up : list level -> entry -> prog (list level)) (lv : nat) (levels : list level) : prog (list level) :=
  match levels !! (lv - 1)%nat with
  | None => pFail (EMsg "index out of range")
  | Some l =>
      h ← pPut (encodeIndex (Z.of_nat lv) (lentries l));
      let size := foldl (fun t e => u64 (t + size e)) 0 (lentries l) in
      let levels := <[(lv - 1)%nat := mkLevel (lsplit l) [] (ltotal l) (lfirst l)]> levels in
      up levels (mkEntry h size)
  end.

(** [add(lv, e)]; each call emits at most one node, into the level above, and no
    level is above [maxDepth], so [maxDepth + 1] calls are enough from level 1. *)
Fixpoint add (fuel : nat) (rule : Boundary.Rule) (lv : nat) (levels : list level) (e : entry) : prog (list level) :=
  if maxDepth <? Z.of_nat lv then pFail DeeperThan
  else match fuel with
  | O => pFail (EMsg "no fuel")
  | S fuel =>
      let levels := if (length levels <? lv)%nat then levels ++ [newLevel rule (Z.of_nat lv)] else levels in
      match levels !! (lv - 1)%nat with
      | None => pFail (EMsg "index out of range")
      | Some l =>
          let first := if ltotal l =? 0 then e else lfirst l in
          let '(full, split) := Boundary.Append (lsplit l) (child e) (entrySize e) in
          let levels := <[(lv - 1)%nat := mkLevel split (lentries l ++ [e]) (ltotal l + 1) first]> levels in
          if full then emitWith (add fuel rule (S lv)) lv levels else mret levels
      end
  end.

Definition addFuel : nat := 64.
Definition emit (rule : Boundary.Rule) (lv : nat) (levels : list level) : prog (list level) :=
  emitWith (add addFuel rule (S lv)) lv levels.

Fixpoint finishLoop (fuel : nat) (rule : Boundary.Rule) (lv : nat) (levels : list level) : prog Ref :=
  match fuel with
  | O => pFail (EMsg "no fuel")
  | S fuel =>
      match levels !! (lv - 1)%nat with
      | None => pFail (EMsg "index out of range")
      | Some l =>
          if ltotal l =? 1 then mret (mkRef (child (lfirst l)) (size (lfirst l)) (Z.of_nat (lv - 1)))
          else
            levels ← (if (length (lentries l) =? 0)%nat then mret levels else emit rule lv levels);
            finishLoop fuel rule (S lv) levels
      end
  end.

Definition finish (rule : Boundary.Rule) (levels : list level) : prog Ref :=
  match levels with
  | [] => h ← pPut []; mret (mkRef h 0 0)
  | _ => finishLoop addFuel rule 1 levels
  end.

(** The loop of [Write] over the chunks [cut] yields: each is stored, then
    becomes an entry of level 1. *)
Fixpoint writeLoop (fuel : nat) (rule : Boundary.Rule) (cut : Cdc.Chunker) (levels : list level) : prog Ref :=
  match fuel with
  | O => pFail (EMsg "no fuel")
  | S fuel =>
      match Cdc.Next cut with
      | (Err e, _) => if bool_decide (e = EOF) then finish rule levels else pFail e
      | (Ok data, cut) =>
          h ← pPut data;
          levels ← add addFuel rule 1 levels (mkEntry h (zlen data));
          writeLoop fuel rule cut levels
      end
  end.

Record Config := mkConfig { CDC : Cdc.Geometry; Nodes : Boundary.Geometry }.

(** [Write] with the serial chunker ([Workers] = 1, or a short stream). Every
    round of the loop takes at least one byte of what the reader holds. *)
Definition Write (r : source) (len : option Z) (c : Config) : prog Ref :=
  match Boundary.New (Nodes c) with
  | Err e => pFail e
  | Ok rule =>
      match Cdc.New r len (CDC c) with
      | Err e => pFail e
      | Ok cut => writeLoop (Cdc.sourceLen r + 2) rule cut []
      end
  end.

(** The same over chunks already cut. *)
Fixpoint addChunks (rule : Boundary.Rule) (levels : list level) (cs : list bytes) : prog (list level) :=
  match cs with
  | [] => mret levels
  | data :: cs =>
      h ← pPut data;
      levels ← add addFuel rule 1 levels (mkEntry h (zlen data));
      addChunks rule levels cs
  end.

Definition writeChunks (rule : Boundary.Rule) (cs : list bytes) (e : error) : prog Ref :=
  levels ← addChunks rule [] cs;
  if bool_decide (e = EOF) then finish rule levels else pFail e.

(** ** The loop fed by the cutter *)

Lemma writeLoop_cut rule fuel : forall cut levels cs e,
  Cdc.cutAll fuel cut = (cs, e) -> (length cs < fuel)%nat ->
  stored (writeLoop fuel rule cut levels) =
  stored (levels ← addChunks rule levels cs; if bool_decide (e = EOF) then finish rule levels else pFail e).
Proof.
  induction fuel as [|fuel IH]; intros cut levels cs e Hc Hl; [lia|]. cbn [writeLoop Cdc.cutAll] in *.
  destruct (Cdc.Next cut) as [[data|er] cut1].
  - destruct (Cdc.cutAll fuel cut1) as [cs1 e1] eqn:E1. injection Hc as <- <-. cbn [addChunks].
    rewrite stored_bind_assoc. apply stored_bind_ext. intros h.
    rewrite stored_bind_assoc. apply stored_bind_ext. intros lv2. simpl in Hl. apply IH; [done|lia].
  - injection Hc as <- <-. cbn [addChunks]. rewrite (stored_bind _ _ (Ok levels) []) by done.
    by destruct (stored _) as [[? ?]|].
Qed.

(** ** What the levels hold *)

(** [e], an entry of level [lv], stands for the bytes [b]. *)
Definition stands (rd : creader) (lv : nat) (e : entry) (b : bytes) : Prop :=
  fetch rd (lv - 1) false (child e) (size e) = Ok b.

Definition sizes (es : list entry) : Z := foldr (fun e t => entrySize e + t) 0 es.

(** One level being filled: its splitter agrees with the node, the node is under
    Max, its entries stand for [parts], and its first entry could be the root. *)
Record level_ok (rd : creader) (rule : Boundary.Rule) (lv : nat) (l : level) (parts : list bytes) : Prop := {
  lo_split : lsplit l = Boundary.mkSplitter rule (Z.of_nat lv) (sizes (lentries l)) (zlen (lentries l));
  lo_small : sizes (lentries l) < Boundary.gMax (Boundary.rg rule);
  lo_parts : Forall2 (stands rd lv) (lentries l) parts;
  lo_nonempty : Forall (fun b => b <> []) parts;
  lo_total : 1 <= ltotal l <= 2 ^ (63 - Z.of_nat lv);
  lo_first : exists b, fetch rd (lv - 1) true (child (lfirst l)) (size (lfirst l)) = Ok b;
  lo_single : ltotal l = 1 -> lentries l = [lfirst l] }.

(** The levels from [lv] up hold [data]: what is above, then this level's node.
    Every node handed up had at least two entries. *)
Fixpoint holds_data (rd : creader) (rule : Boundary.Rule) (lv : nat) (levels : list level) (data : bytes) : Prop :=
  match levels with
  | [] => data = []
  | l :: up =>
      Z.of_nat lv <= maxDepth /\
      exists above parts, data = above ++ concat parts /\ level_ok rd rule lv l parts /\
        holds_data rd rule (S lv) up above /\
        match up with
        | [] => ltotal l = zlen (lentries l)
        | u :: _ => 2 * ltotal u + zlen (lentries l) <= ltotal l
        end
  end.

Definition reads (rd : creader) (log : list bytes) : Prop := forall b, b ∈ log -> rd (Sum b) = Ok b.

Lemma reads_app rd a b : reads rd (a ++ b) <-> reads rd a /\ reads rd b.
Proof.
  unfold reads. split.
  - intros Hr. split; intros x Hx; apply Hr; rewrite elem_of_app; auto.
  - intros [H1 H2] x. rewrite elem_of_app. naive_solver.
Qed.

Lemma reads_one rd b : reads rd [b] -> rd (Sum b) = Ok b.
Proof. intros Hr. apply Hr. by apply list_elem_of_singleton. Qed.

Lemma entrySize_enc e : 0 <= size e < two64 -> entrySize e = zlen (encEntry e).
Proof.
  intros He. unfold entrySize, encEntry, uvarintLen. rewrite length_app, hash_length, Nat2Z.inj_add.
  by rewrite length_encUvarint_exact.
Qed.

Lemma entrySize_bound e : 0 <= size e < two64 -> 33 <= entrySize e <= 42.
Proof.
  intros He. rewrite entrySize_enc by done. unfold encEntry. rewrite length_app, hash_length.
  pose proof (length_encUvarint (size e)). lia.
Qed.

Lemma sizes_app a b : sizes (a ++ b) = sizes a + sizes b.
Proof. induction a; simpl; lia. Qed.

Lemma stands_size rd lv e b : stands rd lv e b -> size e = zlen b.
Proof. intros Hs. symmetry. by eapply fetch_length. Qed.

Lemma stands_total rd lv es parts : Forall2 (stands rd lv) es parts -> total es = zlen (concat parts).
Proof.
  induction 1 as [|e b es parts Hs _ IH]; [done|]. simpl. rewrite length_app, IH, (stands_size _ _ _ _ Hs). lia.
Qed.

Lemma stands_sizes rd lv es parts : Forall2 (stands rd lv) es parts -> Forall (fun b => b <> []) parts ->
  zlen (concat parts) <= maxInt64 ->
  Forall (fun e => 1 <= size e) es /\ Forall (fun e => 0 <= size e < two64) es /\ 33 * zlen es <= sizes es.
Proof.
  unfold maxInt64. induction 1 as [|e b es parts Hs _ IH]; intros Hne Hl; simpl in *.
  - split_and!; [constructor|constructor|lia].
  - rewrite length_app in Hl. apply Forall_cons in Hne as [Hb Hne]. destruct (IH Hne ltac:(lia)) as (H1 & H2 & H3).
    pose proof (stands_size _ _ _ _ Hs) as E. assert (1 <= zlen b) by (destruct b; [done|simpl; lia]).
    assert (0 <= size e < two64) as He by (unfold two64; lia). pose proof (entrySize_bound e He).
    split_and!; [constructor; [lia|done]|constructor; done|lia].
Qed.

(** A node that is stored is small, and once stored it stands for its entries' bytes. *)
Lemma node_stands rd rule lv es parts e :
  Boundary.good_rule rule -> (1 <= lv)%nat -> Z.of_nat lv <= maxDepth ->
  Forall2 (stands rd lv) (es ++ [e]) parts -> Forall (fun b => b <> []) parts ->
  zlen (concat parts) <= maxInt64 -> sizes es < Boundary.gMax (Boundary.rg rule) ->
  let b := encodeIndex (Z.of_nat lv) (es ++ [e]) in
  zlen b <= MaxChunkSize /\ foldl (fun t e => u64 (t + size e)) 0 (es ++ [e]) = total (es ++ [e]) /\
  (rd (Sum b) = Ok b -> forall top, (top = true -> 2 <= zlen (es ++ [e])) ->
   fetch rd lv top (Sum b) (total (es ++ [e])) = Ok (concat parts)).
Proof.
  intros Hr Hlv1 Hlv Hp Hne Hl Hs b. set (es' := es ++ [e]) in *.
  destruct (stands_sizes _ _ _ _ Hp Hne Hl) as (Hpos & Hw & Hn).
  pose proof (stands_total _ _ _ _ Hp) as Ht. unfold maxInt64 in Hl.
  assert (sizes es' <= 32768 + 42) as Hsz.
  { subst es'. rewrite sizes_app. simpl. apply Forall_app in Hw as [_ Hw]. apply Forall_cons in Hw as [He _].
    pose proof (entrySize_bound e He). destruct (Boundary.good_rule_inv _ Hr) as (_&_&_&_&Hm&_).
    unfold Boundary.maxMax in Hm. lia. }
  assert (zlen b <= 12 + sizes es') as Hb.
  { subst b. rewrite encodeIndex_enc, !length_app, !length_encU8. pose proof (length_encUvarint (zlen es')).
    enough (zlen (flat_map encEntry es') = sizes es') by lia. clear -Hw.
    induction Hw as [|x l Hx Hw IH]; [done|]. simpl. rewrite length_app, entrySize_enc by done. lia. }
  assert (total es' < two64) as Htot by (unfold two64; lia).
  split_and!; [unfold MaxChunkSize; lia|by apply total_sum|]. intros Hrd top Htop. destruct lv as [|d]; [lia|].
  cbn [fetch]. rewrite Hrd. assert (decodeIndex b = Ok (Z.of_nat (S d), es')) as ->.
  { apply decodeIndex_fwd; [|unfold two64; lia]. split; [unfold maxDepth in *; lia|].
    split_and!; try done. subst es'. by destruct es. }
  rewrite Z.eqb_refl, Z.eqb_refl. simpl andb.
  replace (negb (top && (zlen es' <? 2))) with true by (destruct top; [rewrite (proj2 (Z.ltb_ge _ _)) by auto|]; done).
  assert (res_map (fun e => fetch rd d false (child e) (size e)) es' = Ok parts) as ->; [|done].
  apply res_map_Ok. eapply Forall2_impl; [exact Hp|]. intros x y Hxy. unfold stands in Hxy.
  by replace (S d - 1)%nat with d in Hxy by lia.
Qed.

Lemma append_ok rule lv es e : Boundary.good_rule rule -> 1 <= lv ->
  33 <= entrySize e <= 42 ->
  let '(full, split) := Boundary.Append (Boundary.mkSplitter rule lv (sizes es) (zlen es)) (child e) (entrySize e) in
  if full then split = Boundary.mkSplitter rule lv 0 0 /\ 2 <= zlen (es ++ [e])
  else split = Boundary.mkSplitter rule lv (sizes (es ++ [e])) (zlen (es ++ [e])) /\
       sizes (es ++ [e]) < Boundary.gMax (Boundary.rg rule).
Proof.
  intros Hr Hlv He. destruct (Boundary.good_rule_inv _ Hr) as (H1&H2&H3&H4&_).
  unfold Boundary.minTarget in H4. unfold Boundary.Append. simpl.
  assert (zlen (es ++ [e]) = zlen es + 1) as Hz by (rewrite length_app; simpl; lia).
  rewrite Hz, sizes_app. simpl. rewrite Z.add_0_r.
  destruct (Boundary.ends _ _ _) eqn:E.
  - split; [done|]. unfold Boundary.ends in E. simpl in E.
    rewrite (proj2 (Z.leb_le 1 lv)) in E by lia. destruct (Z.ltb_spec (zlen es + 1) 2); [done|lia].
  - split; [done|]. destruct es as [|x es]; [simpl; lia|]. unfold Boundary.ends in E. simpl in E.
    rewrite (proj2 (Z.leb_le 1 lv)) in E by lia. rewrite (proj2 (Z.ltb_ge _ 2)) in E by (simpl; lia).
    simpl in E. destruct (Z.ltb_spec (entrySize x + sizes es + entrySize e) (Boundary.gMin (Boundary.rg rule))); [simpl; lia|].
    apply orb_false_iff in E as [E _]. apply Z.leb_gt in E. unfold Boundary.Threshold in E.
    destruct (Z.leb_spec (Boundary.gMax (Boundary.rg rule)) (entrySize x + sizes es + entrySize e)); [|simpl; lia].
    unfold Boundary.always in E. lia.
Qed.

(** *** Adding an entry *)

Definition head_total (levels : list level) : Z := match levels with [] => 0 | l :: _ => ltotal l end.

Lemma lookup_pre (pre suf : list level) lv : (1 <= lv)%nat -> length pre = (lv - 1)%nat ->
  (pre ++ suf) !! (lv - 1)%nat = head suf.
Proof.
  intros Hlv Hl. rewrite lookup_app_r, Hl, Nat.sub_diag by lia. by destruct suf.
Qed.

Lemma insert_pre (pre up : list level) l l' lv : (1 <= lv)%nat -> length pre = (lv - 1)%nat ->
  <[(lv - 1)%nat := l']> (pre ++ l :: up) = pre ++ l' :: up.
Proof. intros Hlv Hl. rewrite insert_app_r_alt, Hl, Nat.sub_diag by lia. done. Qed.

Lemma head_total_nonneg rd rule lv levels data : holds_data rd rule lv levels data -> 0 <= head_total levels.
Proof. destruct levels as [|l up]; simpl; [lia|]. intros (_ & ? & ? & _ & [] & _). lia. Qed.

Lemma add_ok rd rule fuel : Boundary.good_rule rule -> forall lv pre suf data e b r log,
  length pre = (lv - 1)%nat -> (1 <= lv)%nat -> Z.of_nat lv <= maxDepth -> (65 <= lv + fuel)%nat ->
  head_total suf + 1 <= 2 ^ (63 - Z.of_nat lv) ->
  stands rd lv e b -> b <> [] -> (suf = [] -> fetch rd (lv - 1) true (child e) (size e) = Ok b) ->
  zlen (data ++ b) <= maxInt64 ->
  stored (add fuel rule lv (pre ++ suf) e) = Some (r, log) -> reads rd log ->
  holds_data rd rule lv suf data ->
  exists suf', r = Ok (pre ++ suf') /\ holds_data rd rule lv suf' (data ++ b) /\
    head_total suf' = head_total suf + 1.
Proof.
  intros Hr. induction fuel as [|fuel IH]; intros lv pre suf data e b r log Hpre Hlv1 Hlv Hfuel Htot He Hb Htop Hlen Hx Hrd Hh;
    [unfold maxDepth in *; lia|].
  cbn [add] in Hx. rewrite (proj2 (Z.ltb_ge _ _)) in Hx by lia.
  pose proof (stands_size _ _ _ _ He) as Hsz. rewrite length_app in Hlen. unfold maxInt64 in Hlen.
  assert (1 <= zlen b) by (destruct b; [done|simpl; lia]).
  assert (33 <= entrySize e <= 42) as Hes by (apply entrySize_bound; unfold two64; lia).
  destruct suf as [|l up].
  - simpl in Hh. subst data. rewrite app_nil_r in Hx. rewrite (proj2 (Nat.ltb_lt _ _)) in Hx by lia.
    rewrite lookup_pre in Hx by done. simpl in Hx.
    pose proof (append_ok rule (Z.of_nat lv) [] e Hr ltac:(lia) Hes) as Hap. unfold Boundary.newSplitter in Hx.
    simpl sizes in Hap. simpl zlen in Hap.
    destruct (Boundary.Append _ (child e) (entrySize e)) as [[|] split]; [simpl in Hap; lia|].
    destruct Hap as [-> Hmax]. rewrite insert_pre in Hx by done. simpl in Hx. injection Hx as <- <-.
    eexists. split; [done|]. split; [|done]. split; [done|]. exists [], [b]. simpl. rewrite app_nil_r.
    split_and!; try done. split; simpl; try done; simpl in *; try lia; eauto.
  - rewrite (proj2 (Nat.ltb_ge _ _)) in Hx by (rewrite length_app; simpl; lia).
    rewrite lookup_pre in Hx by done. simpl in Hx.
    destruct Hh as (_ & above & parts & -> & Hl & Hup & Hcount).
    destruct Hl as [Lsplit Lsmall Lparts Lne Ltot Lfirst Lsingle].
    rewrite (proj2 (Z.eqb_neq _ 0)) in Hx by lia. rewrite Lsplit in Hx.
    pose proof (append_ok rule (Z.of_nat lv) (lentries l) e Hr ltac:(lia) Hes) as Hap.
    destruct (Boundary.Append _ (child e) (entrySize e)) as [[|] split]; destruct Hap as [-> Hmax];
      rewrite insert_pre in Hx by done.
    + rewrite length_app in Hlen.
      assert (Forall2 (stands rd lv) (lentries l ++ [e]) (parts ++ [b])) as Hps by (apply Forall2_app; auto).
      assert (Forall (fun b => b <> []) (parts ++ [b])) as Hne by (apply Forall_app; auto).
      assert (concat (parts ++ [b]) = concat parts ++ b) as Hcat by (rewrite concat_app; simpl; by rewrite app_nil_r).
      destruct (node_stands rd rule lv (lentries l) _ e Hr Hlv1 Hlv Hps Hne) as (Hbig & Hsum & Hfetch); [|done|].
      { rewrite Hcat, length_app. unfold maxInt64. lia. }
      set (nb := encodeIndex (Z.of_nat lv) (lentries l ++ [e])) in *.
      unfold emitWith in Hx. rewrite lookup_pre in Hx by done. cbn [hd_error] in Hx. cbv iota beta zeta in Hx.
      apply stored_bind_inv in Hx as (r1 & log1 & Hput & Hx). cbn [lentries] in Hput.
      rewrite stored_put in Hput by done. injection Hput as <- <-. destruct Hx as (log2 & Hx & ->).
      cbn [lentries lsplit ltotal lfirst] in Hx. rewrite Hsum, insert_pre in Hx by done.
      set (l3 := mkLevel _ [] _ _) in Hx.
      replace (pre ++ l3 :: up) with ((pre ++ [l3]) ++ up) in Hx by (by rewrite <-app_assoc).
      rewrite length_app in Hmax. simpl in Hmax, Htot.
      assert (Z.of_nat lv <> 63) as Hn63 by (intros E; rewrite E in Htot; simpl in Htot; lia).
      assert (2 * (head_total up + 1) <= ltotal l + 1) as Hdouble by (destruct up; simpl in *; lia).
      assert (2 ^ (63 - Z.of_nat lv) = 2 * 2 ^ (63 - Z.of_nat (S lv))) as Hpow.
      { rewrite <-Z.pow_succ_r by (unfold maxDepth in Hlv; lia). f_equal. lia. }
      apply reads_app in Hrd as [Hnb%reads_one Hrd].
      destruct (IH (S lv) (pre ++ [l3]) up above (mkEntry (Sum nb) (total (lentries l ++ [e]))) (concat (parts ++ [b])) r log2)
        as (up' & -> & Hup' & Htot').
      * rewrite length_app. simpl. lia.
      * lia.
      * unfold maxDepth in *. lia.
      * lia.
      * lia.
      * unfold stands. simpl. rewrite Nat.sub_0_r. by apply Hfetch.
      * rewrite Hcat. by destruct (concat parts); [destruct b|].
      * intros ->. simpl. rewrite Nat.sub_0_r. apply Hfetch; [done|]. intros _. rewrite length_app. simpl. lia.
      * rewrite Hcat, !length_app. unfold maxInt64. lia.
      * done.
      * done.
      * done.
      * exists (l3 :: up'). rewrite <-app_assoc. split; [done|]. split; [|done]. split; [done|].
        exists (above ++ concat (parts ++ [b])), []. rewrite Hcat, app_nil_r, !app_assoc. split_and!; [done| | |].
        -- split; simpl; try done; [destruct (Boundary.good_rule_inv _ Hr) as (?&?&?&H4&_);
             unfold Boundary.minTarget in H4; lia|lia..].
        -- by rewrite <-app_assoc, <-Hcat.
        -- pose proof (head_total_nonneg _ _ _ _ _ Hup). destruct up' as [|u' up']; simpl in *; lia.
    + injection Hx as <- <-. eexists (_ :: up). split; [done|]. split; [|done]. split; [done|].
      exists above, (parts ++ [b]). rewrite concat_app, app_assoc. simpl concat. rewrite app_nil_r.
      split_and!; [done| |done|].
      * split; simpl; try done; [by apply Forall2_app; auto|by apply Forall_app; auto|simpl in Htot; lia|lia].
      * simpl. rewrite length_app. simpl. destruct up; lia.
Qed.

(** *** Closing the levels *)

Lemma fetch_top rd d h want b : fetch rd d true h want = Ok b -> fetch rd d false h want = Ok b.
Proof.
  destruct d as [|d]; [done|]. simpl. destruct (rd h) as [c|]; [|done]. destruct (decodeIndex c) as [[lv es]|]; [|done].
  rewrite andb_true_r. destruct (_ && _ && _) eqn:E; [|done]. apply andb_prop in E as [E1 ->].
  apply andb_prop in E1 as [-> _]. done.
Qed.

Lemma finishLoop_ok rd rule fuel : Boundary.good_rule rule -> forall lv pre suf data r log,
  length pre = (lv - 1)%nat -> (1 <= lv)%nat -> (65 <= lv + fuel)%nat -> suf <> [] -> zlen data <= maxInt64 ->
  stored (finishLoop fuel rule lv (pre ++ suf)) = Some (r, log) -> reads rd log ->
  holds_data rd rule lv suf data ->
  exists ref, r = Ok ref /\ contents rd ref = Ok data /\ 0 <= Depth ref <= maxDepth /\ Size ref = zlen data.
Proof.
  intros Hr. induction fuel as [|fuel IH]; intros lv pre suf data r log Hpre Hlv1 Hfuel Hne Hlen Hx Hrd Hh;
    destruct suf as [|l up]; try done; pose proof Hh as (Hlv & _); [unfold maxDepth in *; lia|].
  cbn [finishLoop] in Hx. rewrite lookup_pre in Hx by done. cbn [hd_error] in Hx. cbv iota beta in Hx.
  destruct Hh as (_ & above & parts & -> & Hl & Hup & Hcount).
  pose proof Hl as [Lsplit Lsmall Lparts Lne Ltot [fb Lfirst] Lsingle].
  destruct (decide (ltotal l = 1)) as [E1|E1];
    [rewrite (proj2 (Z.eqb_eq _ _) E1) in Hx|rewrite (proj2 (Z.eqb_neq _ _) E1) in Hx].
  - simpl in Hx. injection Hx as <- <-. eexists. split; [done|]. unfold contents. simpl.
    specialize (Lsingle E1). rewrite Lsingle in Lparts, Hcount. rewrite Nat2Z.id, Lfirst.
    pose proof (fetch_length _ _ _ _ _ _ Lfirst) as Hfl. apply fetch_top in Lfirst.
    apply Forall2_cons_inv_l in Lparts as (b & ps & Hb & Hps%Forall2_nil_inv_l & ->).
    unfold stands in Hb. assert (b = fb) as -> by congruence.
    destruct up as [|u up]; [|simpl in Hcount; pose proof (head_total_nonneg _ _ _ _ _ Hup) as Hu; simpl in Hu, Hup;
      destruct Hup as (_ & ? & ? & _ & [] & _); lia].
    simpl in Hup. subst above ps. simpl. rewrite app_nil_r. unfold maxDepth in *. split_and!; [done|lia|lia|done].
  - apply stored_bind_inv in Hx as (r1 & log1 & Hemit & Hx).
    destruct (decide (lentries l = [])) as [Enil|Hcons].
    + rewrite Enil in Hemit. simpl in Hemit. injection Hemit as <- <-. destruct Hx as (log2 & Hx & ->).
      rewrite Enil in Lparts. apply Forall2_nil_inv_l in Lparts as ->. rewrite Enil in Hcount.
      replace (pre ++ l :: up) with ((pre ++ [l]) ++ up) in Hx by (by rewrite <-app_assoc).
      simpl in *. rewrite app_nil_r in *.
      apply (IH (S lv) (pre ++ [l]) up above r log2); try done; [rewrite length_app; simpl; lia|lia|lia|].
      intros ->. simpl in Hcount. lia.
    + rewrite (proj2 (Nat.eqb_neq _ 0)) in Hemit by (by destruct (lentries l)).
      destruct (exists_last Hcons) as (es & e & Ees).
      unfold emit, emitWith in Hemit. rewrite lookup_pre in Hemit by done. cbn [hd_error] in Hemit. cbv iota beta zeta in Hemit.
      apply stored_bind_inv in Hemit as (r0 & log0 & Hput & Hemit).
      rewrite length_app in Hlen. rewrite Ees in *.
      destruct (node_stands rd rule lv es parts e Hr Hlv1 Hlv Lparts Lne) as (Hbig & Hsum & Hfetch);
        [lia|rewrite sizes_app in Lsmall; simpl in Lsmall|].
      { destruct (stands_sizes _ _ _ _ Lparts Lne ltac:(lia)) as (_ & Hw & _).
        apply Forall_app in Hw as [_ Hw]. apply Forall_cons in Hw as [He _]. pose proof (entrySize_bound e He). lia. }
      set (nb := encodeIndex (Z.of_nat lv) (es ++ [e])) in *.
      rewrite stored_put in Hput by done. injection Hput as <- <-. destruct Hemit as (loga & Hadd & ->).
      rewrite Hsum, insert_pre in Hadd by done. set (l3 := mkLevel _ [] _ _) in Hadd.
      replace (pre ++ l3 :: up) with ((pre ++ [l3]) ++ up) in Hadd by (by rewrite <-app_assoc).
      assert (length (pre ++ [l3]) = (S lv - 1)%nat) as Hpre3 by (rewrite length_app; simpl; lia).
      assert (reads rd ([nb] ++ loga)) as [Hnb%reads_one Hrda]%reads_app.
      { destruct r1; [destruct Hx as (? & _ & ->); by apply reads_app in Hrd as [Hrd _]|by destruct Hx as [_ ->]]. }
      rewrite length_app in Hcount. simpl in Hcount.
      assert (Z.of_nat lv <> 63) as Hn63 by (intros E; rewrite E in Ltot; simpl in Ltot; lia).
      assert (2 ^ (63 - Z.of_nat lv) = 2 * 2 ^ (63 - Z.of_nat (S lv))) as Hpow.
      { rewrite <-Z.pow_succ_r by (unfold maxDepth in Hlv; lia). f_equal. lia. }
      destruct (add_ok rd rule addFuel Hr (S lv) (pre ++ [l3]) up above (mkEntry (Sum nb) (total (es ++ [e])))
        (concat parts) r1 loga) as (up' & -> & Hup' & Htot'); try done.
      * lia.
      * unfold maxDepth in *; lia.
      * unfold addFuel; lia.
      * clear -Hcount Ltot Hpow. destruct up; simpl in *; lia.
      * unfold stands. simpl. rewrite Nat.sub_0_r. by apply Hfetch.
      * destruct parts as [|p0 parts]; [by apply Forall2_nil_inv_r in Lparts; destruct es|].
        apply Forall_cons in Lne as [Hp0 _]. by destruct p0.
      * intros ->. simpl. rewrite Nat.sub_0_r. apply Hfetch; [done|]. intros _. rewrite length_app. simpl. lia.
      * rewrite length_app. lia.
      * destruct Hx as (log2 & Hx & ->).
        apply (IH (S lv) (pre ++ [l3]) up' _ r log2); try done; [lia|lia| |rewrite length_app; lia|].
        { intros ->. simpl in Htot'. pose proof (head_total_nonneg _ _ _ _ _ Hup). lia. }
        by apply reads_app in Hrd as [_ Hrd].
Qed.

(** *** The whole write *)

Lemma addChunks_ok rd rule : Boundary.good_rule rule -> forall cs levels data r log,
  Forall (fun c => 1 <= zlen c <= MaxChunkSize) cs -> head_total levels + zlen cs <= 2 ^ 62 ->
  zlen (data ++ concat cs) <= maxInt64 ->
  stored (addChunks rule levels cs) = Some (r, log) -> reads rd log -> holds_data rd rule 1 levels data ->
  exists levels', r = Ok levels' /\ holds_data rd rule 1 levels' (data ++ concat cs) /\
    head_total levels' = head_total levels + zlen cs.
Proof.
  intros Hr. induction cs as [|c cs IH]; intros levels data r log Hcs Htot Hlen Hx Hrd Hh.
  - injection Hx as <- <-. simpl. rewrite app_nil_r. eexists. split_and!; [done|done|lia].
  - cbn [addChunks] in Hx. apply Forall_cons in Hcs as [Hc Hcs].
    apply stored_bind_inv in Hx as (r1 & log1 & Hput & Hx). rewrite stored_put in Hput by lia. injection Hput as <- <-.
    destruct Hx as (log2 & Hx & ->). apply reads_app in Hrd as [Hrc%reads_one Hrd].
    apply stored_bind_inv in Hx as (r2 & log3 & Hadd & Hx).
    assert (reads rd log3) as Hrd3
      by (destruct r2; [destruct Hx as (? & _ & ->); by apply reads_app in Hrd as [Hrd _]|by destruct Hx as [_ <-]]).
    cbn [concat] in *. rewrite app_assoc in *.
    assert (forall top, fetch rd 0 top (Sum c) (zlen c) = Ok c) as Hf by (intros top; simpl; by rewrite Hrc, Z.eqb_refl).
    destruct (add_ok rd rule addFuel Hr 1 [] levels data (mkEntry (Sum c) (zlen c)) c r2 log3)
      as (levels' & -> & Hh' & Htot'); try done; try (by intros; apply Hf).
    + cbn [length] in Htot. change (63 - Z.of_nat 1) with 62. lia.
    + intros ->. simpl in Hc. lia.
    + rewrite length_app in Hlen. lia.
    + destruct Hx as (log4 & Hx & ->). apply reads_app in Hrd as [_ Hrd].
      destruct (IH levels' (data ++ c) r log4) as (levels2 & -> & Hh2 & Htot2); try done; [simpl in Htot; lia|].
      exists levels2. split_and!; [done|done|]. simpl length. lia.
Qed.

Lemma add_puts rule fuel : forall lv levels e, puts_only (add fuel rule lv levels e).
Proof.
  induction fuel as [|fuel IH]; intros lv levels e; cbn [add]; destruct (_ <? _); try done.
  destruct (_ !! _); [|done]. destruct (Boundary.Append _ _ _) as [[|] split]; [|done]. unfold emitWith.
  destruct (_ !! _); [|done]. apply puts_bind; [done|]. auto.
Qed.

Lemma finishLoop_puts rule fuel : forall lv levels, puts_only (finishLoop fuel rule lv levels).
Proof.
  induction fuel as [|fuel IH]; intros lv levels; cbn [finishLoop]; [done|].
  destruct (_ !! _); [|done]. destruct (_ =? 1); [done|]. apply puts_bind; [|auto].
  destruct (_ =? _)%nat; [done|]. unfold emit, emitWith. destruct (_ !! _); [|done].
  apply puts_bind; [done|]. intros. apply add_puts.
Qed.

Lemma writeChunks_puts rule cs e : puts_only (writeChunks rule cs e).
Proof.
  unfold writeChunks. apply puts_bind.
  - generalize (@nil level). induction cs as [|c cs IH]; intros levels; [done|]. cbn [addChunks].
    apply puts_bind; [done|]. intros h. apply puts_bind; [apply add_puts|]. auto.
  - intros levels. destruct (bool_decide _); [|done]. destruct levels; [by apply puts_bind|]. apply finishLoop_puts.
Qed.

Lemma writeChunks_ok rd rule cs r log :
  Boundary.good_rule rule -> Forall (fun c => 1 <= zlen c <= MaxChunkSize) cs -> zlen cs <= 2 ^ 62 ->
  zlen (concat cs) <= maxInt64 ->
  stored (writeChunks rule cs EOF) = Some (r, log) -> reads rd log ->
  exists ref, r = Ok ref /\ contents rd ref = Ok (concat cs) /\ 0 <= Depth ref <= maxDepth /\ Size ref = zlen (concat cs).
Proof.
  intros Hr Hcs Hn Hlen Hx Hrd. apply stored_bind_inv in Hx as (r1 & log1 & Ha & Hx).
  assert (reads rd log1) as Hrd1
    by (destruct r1; [destruct Hx as (? & _ & ->); by apply reads_app in Hrd as [Hrd _]|by destruct Hx as [_ <-]]).
  destruct (addChunks_ok rd rule Hr cs [] [] r1 log1) as (levels & -> & Hh & Htot); try done.
  rewrite bool_decide_true in Hx by done. destruct Hx as (log2 & Hx & ->). apply reads_app in Hrd as [_ Hrd].
  simpl in Hh. destruct levels as [|l up]; 
    [|eapply (finishLoop_ok rd rule addFuel Hr 1 [] (l :: up)); try done; unfold addFuel; lia].
  simpl in Hh, Hx, Htot. rewrite Hh in *. injection Hx as <- <-. apply reads_one in Hrd. eexists. split; [done|].
  unfold contents. simpl. rewrite Hrd. unfold maxDepth. split_and!; done.
Qed.

(** [Write] of what a reader delivers: the chunks stored, and what reads back where they are. *)
Lemma write_stored src len c data rule cut :
  Boundary.New (Nodes c) = Ok rule -> Cdc.New src len (CDC c) = Ok cut ->
  Cdc.delivers 0 src = (data, EOF) -> zlen data <= 2 ^ 62 ->
  exists r log, stored (Write src len c) = Some (r, log) /\
    forall rd, reads rd log -> exists ref, r = Ok ref /\ Size ref = zlen data /\ 0 <= Depth ref <= maxDepth /\ contents rd ref = Ok data /\
      forall room limit, (forall i, 0 < room i) ->
        ReadAll rd room ref limit = if zlen data <=? limit then Ok data else Err StreamTooLarge.
Proof.
  intros Hrule Hcut Hdel Hlen. destruct (Cdc.cutAll_refCut _ _ _ _ Hcut) as (Hall & d & e & bs & rest & Hd & Hc & Hcat & Hf & Hrest & Hmax).
  rewrite Hdel in Hd. injection Hd as <- <-. specialize (Hall _ (le_n _)).
  unfold Cdc.refCut in Hall. rewrite Hdel, Hc, bool_decide_true in Hall by done.
  set (cs := bs ++ _) in Hall.
  assert (concat cs = data /\ Forall (fun c => 1 <= zlen c <= MaxChunkSize) cs) as [Hcs Hsz].
  { subst cs data. rewrite concat_app, Forall_app. simpl.
    assert (Forall (fun c => 1 <= zlen c <= MaxChunkSize) bs) by (eapply Forall_impl; [exact Hf|simpl; lia]).
    destruct rest as [|x rest]; simpl; [done|]. rewrite app_nil_r. split_and!; [done|done|].
    constructor; [simpl in *; lia|constructor]. }
  assert (zlen cs <= zlen data) as Hn.
  { rewrite <-Hcs. clear -Hsz. induction Hsz as [|x l Hx _ IH]; simpl; [lia|]. rewrite length_app. lia. }
  assert (stored (Write src len c) = stored (writeChunks rule cs EOF)) as Hw.
  { unfold Write. rewrite Hrule, Hcut. rewrite (writeLoop_cut rule _ _ [] _ _ Hall); [done|].
    apply Cdc.delivers_length in Hdel. lia. }
  rewrite Hw. destruct (stored_puts _ (writeChunks_puts rule cs EOF)) as (r & log & Hx). rewrite Hx.
  exists r, log. split; [done|]. intros rd Hrd.
  destruct (writeChunks_ok rd rule cs r log) as (ref & -> & Hcont & Hdep & Hsize); try done.
  - by exists (Nodes c).
  - lia.
  - unfold maxInt64. rewrite Hcs. lia.
  - exists ref. rewrite Hcs in *. split_and!; try done; [lia|lia|]. intros room limit Hroom.
    apply read_all_ok; try done. unfold maxInt64. lia.
Qed.
End Writing.

(** ** Write, then read *)

Section RoundTrip.
Context `{HH : Hasher} {S : Type} `{!ChunkStore S} `{!ChunkStoreOk S}.

(** C30. A stream written is the stream read: [Write] of a reader that delivers [data], however it
    splits it, succeeds on any store that keeps the chunk store's contract, provided no two
    of the chunks it stores and the chunks there share a name; its Ref says [data]'s
    length, and [ReadAll] through it returns [data] (or refuses it over the caller's limit). *)
Theorem write_read_roundtrip src len c data rule cut (s : S) room limit :
  Boundary.New (Nodes c) = Ok rule -> Cdc.New src len (CDC c) = Ok cut ->
  Cdc.delivers 0 src = (data, EOF) -> zlen data <= 2 ^ 62 ->
  cs_ok s -> (forall i, 0 < room i) ->
  exists r log, stored (Write src len c) = Some (r, log) /\
    (collision_free (cs_view s) log ->
     exists ref s', run (Write src len c) s = (Ok ref, s') /\ cs_ok s' /\ cs_rootof s' = cs_rootof s /\
       Size ref = zlen data /\
       ReadAll (cs_get s') room ref limit = if zlen data <=? limit then Ok data else Err StreamTooLarge).
Proof.
  intros Hrule Hcut Hdel Hlen Hs Hroom. destruct (write_stored _ _ _ _ _ _ Hrule Hcut Hdel Hlen) as (r & log & Hx & Hr).
  exists r, log. split; [done|]. intros Hcf.
  destruct (stored_run_reads (Write src len c) s r log Hx Hs Hcf) as (s' & Hrun & Hs' & Hroot & Hlog & _).
  destruct (Hr (cs_get s') Hlog) as (ref & -> & Hsize & _ & _ & Hread). exists ref, s'. split_and!; try done. by apply Hread.
Qed.
End RoundTrip.

#[local] Existing Instance toy_hasher.

Lemma write_read_roundtrip_witness :
  let src := [(str "snap", None); ([], None); (str "shot", Some EOF)] in
  let c := mkConfig Cdc.DefaultGeometry Boundary.DefaultGeometry in
  exists ref (s' : Memstore.Store), run (Write src None c) Memstore.New = (Ok ref, s') /\
    ReadAll (cs_get s') (fun _ => 512) ref 100 = Ok (str "snapshot").
Proof.
  intros src c.
  destruct (is_Ok_inv (Boundary.New (Nodes c))) as [rule Er]; [vm_compute; reflexivity|].
  destruct (is_Ok_inv (Cdc.New src None (CDC c))) as [cut Ec]; [vm_compute; reflexivity|].
  assert (exists r b, stored (Write src None c) = Some (r, [b])) as (r0 & b & Hst).
  { let t := eval vm_compute in (stored (Write src None c)) in
    match t with Some (?r, [?b]) => exists r, b end. vm_compute. reflexivity. }
  assert (Cdc.delivers 0 src = (str "snapshot", EOF)) as Hd by reflexivity.
  destruct (write_read_roundtrip src None c (str "snapshot") rule cut Memstore.New (fun _ => 512) 100
    Er Ec Hd) as (r & log & Hx & Hrt); [discriminate|apply Memstore.New_usable|reflexivity|].
  rewrite Hst in Hx. injection Hx as <- <-. destruct Hrt as (ref & s' & Hrun & _ & _ & _ & Hra).
  { split; [|discriminate]. by intros x y ->%list_elem_of_singleton ->%list_elem_of_singleton. }
  exists ref, s'. split; [exact Hrun|exact Hra].
Defined.
