(* ===== verification/ProllyNode.v ===== *)
(** * core/prolly, nodes: data, encoding and canonical forms

    A node is a level and its entries; an entry is a key and a value at level
    0, and above, the last key of a child, its hash and the number of leaf
    entries under it. [decodeNode] accepts exactly the encodings of nodes in
    canonical form ([node_codec]). *)

From S2P Require Import Prelude Wire Hash.
From S2P Require Stream.

Definition kindNode : Z := 1.
Definition maxLevel : Z := 63.
Definition valInline : Z := 0.
Definition valStream : Z := 1.
Definition MaxKeySize : Z := 4096.

(** A stored value: inline bytes, or a stream for one over the inline limit. *)
Inductive value :=
  | VInline (b : bytes)
  | VStream (ref : Stream.Ref).

#[export] Instance value_eq_dec : EqDecision value.
Proof. solve_decision. Defined.

(** [value.equal]. *)
Definition value_equal (v o : value) : bool :=
  match v, o with
  | VStream r, VStream q => bool_decide (r = q)
  | VInline a, VInline b => bool_decide (a = b)
  | _, _ => false
  end.

Lemma value_equal_true v o : value_equal v o = true <-> v = o.
Proof.
  destruct v, o; simpl; rewrite ?bool_decide_eq_true; split; intros; simplify_eq; done.
Qed.

Record entry := mkEntry { key : bytes; val : value; child : hash; count : Z }.

#[export] Instance entry_eq_dec : EqDecision entry.
Proof. solve_decision. Defined.

Record node := mkNode { level : nat; entries : list entry }.

(** The number of leaf entries under a node, a [uint64]. *)
Definition total (n : node) : Z :=
  match level n with
  | O => zlen (entries n)
  | S _ => foldl (fun t e => u64 (t + count e)) 0 (entries n)
  end.

(** [n.entries[len-1].key]; the source never asks an empty node. *)
Definition lastKey (n : node) : bytes :=
  match last (entries n) with Some e => key e | None => [] end.

Definition wEntry (lv : nat) (w : writer) (e : entry) : writer :=
  let w := wLenBytes w (key e) in
  match lv with
  | S _ => wUvarint (wRaw w (hbytes (child e))) (count e)
  | O =>
      match val e with
      | VStream ref =>
          let w := wU8 w valStream in
          let w := wRaw w (hbytes (Stream.Root ref)) in
          let w := wUvarint w (Stream.Size ref) in
          wU8 w (Stream.Depth ref)
      | VInline b =>
          let w := wU8 w valInline in
          wLenBytes w b
      end
  end.

Definition encode (n : node) : bytes :=
  let w := wU8 [] kindNode in
  let w := wU8 w (Z.of_nat (level n)) in
  let w := wUvarint w (zlen (entries n)) in
  foldl (wEntry (level n)) w (entries n).

(** [(bits.Len64(v|1) + 6) / 7]. *)
Definition uvarintLen (v : Z) : Z := (Z.log2 (Z.lor v 1) + 1 + 6) / 7.

(** An entry's encoded length, which the split rule counts. *)
Definition entrySize (lv : nat) (e : entry) : Z :=
  let n := uvarintLen (zlen (key e)) + zlen (key e) in
  match lv with
  | S _ => n + 32 + uvarintLen (count e)
  | O =>
      match val e with
      | VStream ref => n + 1 + 32 + uvarintLen (Stream.Size ref) + 1
      | VInline b => n + 1 + uvarintLen (zlen b) + zlen b
      end
  end.

(** One round of [decodeNode]'s loop: [first] says whether this is entry 0 and
    [prev] is the key before it. *)
Definition decodeEntry (lv : nat) (limit : Z) (sum : Z) (r : reader) : res (entry * Z * reader) :=
  let (k, r) := LenBytes MaxKeySize r in
  let k := nilb k in
  match lv with
  | S _ =>
      let (c, r) := readHash r in
      let (cnt, r) := Uvarint r in
      let sum' := u64 (sum + cnt) in
      let carry := (sum + cnt) / two64 in
      if (cnt =? 0) || negb (carry =? 0) then Err ChunkCorrupt
      else Ok (mkEntry k (VInline []) c cnt, sum', r)
  | O =>
      let (tag, r) := U8 r in
      if tag =? valInline then
        let (b, r) := LenBytes limit r in
        Ok (mkEntry k (VInline (nilb b)) zero_hash 0, sum, r)
      else if tag =? valStream then
        let (rt, r) := readHash r in
        let (sz, r) := Uvarint r in
        let (dp, r) := U8 r in
        if bool_decide (rerr r = None) && ((sz <=? u64 limit) || (maxLevel <? dp)) then Err ChunkCorrupt
        else Ok (mkEntry k (VStream (Stream.mkRef rt sz dp)) zero_hash 0, sum, r)
      else Err ChunkCorrupt
  end.

Fixpoint decodeEntries (lv : nat) (limit : Z) (n : nat) (sum : Z) (es : list entry) (r : reader)
  : res (list entry * reader) :=
  match n with
  | O => Ok (es, r)
  | S n =>
      match decodeEntry lv limit sum r with
      | Err e => Err e
      | Ok (e, sum, r) =>
          if bool_decide (rerr r <> None) then Err ChunkCorrupt
          else
            let bad := match last es with Some p => negb (bltb (key p) (key e)) | None => false end in
            if bad then Err ChunkCorrupt
            else decodeEntries lv limit n sum (es ++ [e]) r
      end
  end.

Definition decodeNode (b : bytes) (limit : Z) : res node :=
  let r := NewReader b in
  let (kind, r) := U8 r in
  let (lv, r) := U8 r in
  let (cnt, r) := Uvarint r in
  if bool_decide (rerr r <> None) || negb (kind =? kindNode) || (maxLevel <? lv) || (zlen b <? cnt)
     || ((0 <? lv) && (cnt =? 0))
  then Err ChunkCorrupt
  else
    match decodeEntries (Z.to_nat lv) limit (Z.to_nat cnt) 0 [] r with
    | Err e => Err e
    | Ok (es, r) =>
        match Done r with
        | Some _ => Err ChunkCorrupt
        | None => Ok (mkNode (Z.to_nat lv) es)
        end
    end.

(** ** Canonical form *)

Definition valid_value (limit : Z) (v : value) : Prop :=
  match v with
  | VInline b => zlen b <= limit
  | VStream r => limit < Stream.Size r < two64 /\ 0 <= Stream.Depth r <= maxLevel
  end.

Definition valid_entry (lv : nat) (limit : Z) (e : entry) : Prop :=
  zlen (key e) <= MaxKeySize /\
  match lv with
  | O => valid_value limit (val e) /\ child e = zero_hash /\ count e = 0
  | S _ => val e = VInline [] /\ 1 <= count e
  end.

Definition sum_count (es : list entry) : Z := foldr (fun e t => count e + t) 0 es.

(** What [decodeNode] enforces: keys strictly increasing and at most
    [MaxKeySize]; a value at or under the inline limit inline and a longer one
    a stream; internal entries counting at least one leaf entry, their sum
    inside 64 bits; only a leaf may be empty. *)
Definition valid_node (limit : Z) (n : node) : Prop :=
  Z.of_nat (level n) <= maxLevel /\
  (level n <> 0%nat -> entries n <> []) /\
  Forall (valid_entry (level n) limit) (entries n) /\
  ksorted key (entries n) /\
  sum_count (entries n) < two64.

(** ** The codec *)

Definition encEntry (lv : nat) (e : entry) : bytes :=
  encLenBytes (key e) ++
  match lv with
  | S _ => hbytes (child e) ++ encUvarint (count e)
  | O =>
      match val e with
      | VStream ref => encU8 valStream ++ hbytes (Stream.Root ref) ++ encUvarint (Stream.Size ref) ++
                       encU8 (Stream.Depth ref)
      | VInline b => encU8 valInline ++ encLenBytes b
      end
  end.

Lemma wEntry_enc lv w e : wEntry lv w e = w ++ encEntry lv e.
Proof.
  unfold wEntry, encEntry. destruct lv; [destruct (val e)|]; by wr_norm.
Qed.

Lemma encode_enc n :
  encode n = encU8 kindNode ++ encU8 (Z.of_nat (level n)) ++ encUvarint (zlen (entries n)) ++
             flat_map (encEntry (level n)) (entries n).
Proof.
  unfold encode, wU8, wUvarint.
  assert (forall w, foldl (wEntry (level n)) w (entries n) =
                    w ++ flat_map (encEntry (level n)) (entries n)) as ->.
  { induction (entries n) as [|e es IH]; intros w; simpl; [by rewrite app_nil_r|].
    by rewrite IH, wEntry_enc, <-app_assoc. }
  by rewrite <-!app_assoc.
Qed.

Section Codec.
Context (limit : Z) (Hlim : 0 <= limit < two64).

Lemma decodeEntry_fwd lv sum r e s :
  at_ r (encEntry lv e ++ s) -> valid_entry lv limit e -> 0 <= sum -> sum + count e < two64 ->
  exists r', decodeEntry lv limit sum r = Ok (e, sum + count e, r') /\ at_ r' s.
Proof.
  intros Ha [Hk Hv] Hs Hc. unfold encEntry in Ha. unfold decodeEntry. unfold MaxKeySize, valInline, valStream in *.
  destruct e as [k v c n]; simpl in *. destruct lv as [|lv].
  - destruct Hv as (Hv & -> & ->). rewrite Z.add_0_r. destruct v as [b|[rt sz dp]].
    + rewrite <-!app_assoc in Ha. rd_fwd. rd_fwd. simpl nilb. cbn [Z.eqb].
      rd_fwd. simpl nilb. eauto.
    + simpl in Hv. destruct Hv as [Hz Hd]. unfold maxLevel in *. rewrite <-!app_assoc in Ha. simpl in Ha.
      rd_fwd. rd_fwd. cbn [Z.eqb]. simpl nilb.
      rd_fwd. rd_fwd. rd_fwd.
      rewrite u64_small by lia. zbool. rewrite andb_false_r. eauto.
  - destruct Hv as (-> & Hn). rewrite <-!app_assoc in Ha.
    rd_fwd. rd_fwd. rd_fwd. simpl nilb.
    rewrite u64_small, Z.div_small by lia. zbool. eauto.
Qed.

Lemma decodeEntry_bwd lv sum r e sum' r' s :
  decodeEntry lv limit sum r = Ok (e, sum', r') -> rerr r' = None -> at_ r s -> 0 <= sum < two64 ->
  exists s', s = encEntry lv e ++ s' /\ at_ r' s' /\ valid_entry lv limit e /\ sum' = sum + count e /\
    sum' < two64.
Proof.
  unfold decodeEntry, encEntry, valid_entry. intros H He Ha Hs. destruct lv as [|lv].
  - destruct (LenBytes MaxKeySize r) as [k r1] eqn:E1. destruct (U8 r1) as [tag r2] eqn:E2.
    destruct (Z.eqb_spec tag valInline) as [->|Ht].
    + destruct (LenBytes limit r2) as [b r3] eqn:E3. injection H as <- <- <-. unfold MaxKeySize in *.
      rd_back. eexists. simpl. rewrite <-!app_assoc. split_and!; try done; lia.
    + destruct (Z.eqb_spec tag valStream) as [->|]; [|done].
      destruct (readHash r2) as [rt r3] eqn:E3. destruct (Uvarint r3) as [sz r4] eqn:E4.
      destruct (U8 r4) as [dp r5] eqn:E5.
      destruct (bool_decide (rerr r5 = None) && _) eqn:E6; [done|]. injection H as <- <- <-.
      rewrite bool_decide_true in E6 by done. simpl in E6. apply orb_false_iff in E6 as [E6 E7].
      apply Z.leb_gt in E6. apply Z.ltb_ge in E7. rewrite u64_small in E6 by done. unfold MaxKeySize in *.
      rd_back. eexists. simpl. rewrite <-!app_assoc.
      split_and!; try done; try lia; unfold valid_value; simpl; lia.
  - destruct (LenBytes MaxKeySize r) as [k r1] eqn:E1. destruct (readHash r1) as [c r2] eqn:E2.
    destruct (Uvarint r2) as [n r3] eqn:E3.
    destruct (Z.eqb_spec n 0) as [|Hn]; [done|].
    destruct (Z.eqb_spec ((sum + n) / two64) 0) as [Hd|]; [|done]. injection H as <- <- <-.
    unfold MaxKeySize in *. rd_back.
    assert (sum + n < two64) as Hlt by (apply Z.div_small_iff in Hd; unfold two64 in *; lia).
    eexists. simpl. rewrite <-!app_assoc, u64_small by lia. split_and!; try done; lia.
Qed.

Lemma valid_count lv e : valid_entry lv limit e -> 0 <= count e.
Proof. intros [_ H]. destruct lv; [destruct H as (_ & _ & ->); done|lia]. Qed.

Lemma sum_count_nonneg lv es : Forall (valid_entry lv limit) es -> 0 <= sum_count es.
Proof. induction 1 as [|e es He]; simpl; [done|]. pose proof (valid_count _ _ He). lia. Qed.

Lemma node_entries_fwd lv es : forall sum acc r s,
  at_ r (flat_map (encEntry lv) es ++ s) -> Forall (valid_entry lv limit) es -> 0 <= sum ->
  sum + sum_count es < two64 -> ksorted key (acc ++ es) ->
  exists r', decodeEntries lv limit (length es) sum acc r = Ok (acc ++ es, r') /\ at_ r' s.
Proof.
  induction es as [|e es IH]; intros sum acc r s Ha Hes H0 Ht Hk.
  - exists r. by rewrite app_nil_r.
  - rewrite Forall_cons in Hes. destruct Hes as [He Hes]. simpl in *.
    pose proof (sum_count_nonneg _ _ Hes). pose proof (valid_count _ _ He).
    rewrite <-app_assoc in Ha.
    destruct (decodeEntry_fwd lv sum r e _ Ha He H0 ltac:(lia)) as (r1 & E & Ha1).
    rewrite E. cbv beta iota. rewrite (at_no_err _ _ Ha1).
    assert (match last acc with Some p => negb (bltb (key p) (key e)) | None => false end = false) as ->.
    { destruct (last acc) as [p|] eqn:El; [|done]. apply negb_false_iff, bltb_true.
      apply ksorted_app in Hk as (Hk & _). apply Hk; [|left].
      apply last_Some in El as [acc' ->]. set_solver. }
    replace (acc ++ e :: es) with ((acc ++ [e]) ++ es) in * by (by rewrite <-app_assoc).
    apply (IH (sum + count e)); try done; lia.
Qed.

Lemma node_entries_bwd lv n : forall sum acc r es r' s,
  decodeEntries lv limit n sum acc r = Ok (es, r') -> at_ r s -> 0 <= sum < two64 -> ksorted key acc ->
  exists es0 s', es = acc ++ es0 /\ length es0 = n /\ s = flat_map (encEntry lv) es0 ++ s' /\ at_ r' s' /\
    Forall (valid_entry lv limit) es0 /\ sum + sum_count es0 < two64 /\ ksorted key (acc ++ es0).
Proof.
  induction n as [|n IH]; intros sum acc r es r' s H Ha Hs Hk; simpl in H.
  - injection H as <- <-. exists [], s. rewrite app_nil_r. split_and!; simpl; try done; lia.
  - destruct (decodeEntry lv limit sum r) as [[[e sum1] r1]|] eqn:E; [|done].
    destruct (bool_decide (rerr r1 <> None)) eqn:E1; [done|]. apply no_err_inv in E1.
    destruct (match last acc with Some p => negb (bltb (key p) (key e)) | None => false end) eqn:E2; [done|].
    destruct (decodeEntry_bwd _ _ _ _ _ _ _ E E1 Ha Hs) as (s1 & -> & Ha1 & Hv & -> & Hlt).
    pose proof (valid_count _ _ Hv).
    assert (ksorted key (acc ++ [e])) as Hk1.
    { apply ksorted_app. split_and!; [|done|by apply ksorted_cons; split; constructor].
      intros x y Hx ->%list_elem_of_singleton.
      destruct (last acc) as [p|] eqn:El; [|apply last_None in El; subst; by apply elem_of_nil in Hx].
      apply negb_false_iff, bltb_true in E2. apply last_Some in El as [acc' ->].
      apply elem_of_app in Hx as [Hx| ->%list_elem_of_singleton]; [|done].
      apply blt_trans with (key p); [|done]. apply ksorted_app in Hk as (Hk & _). apply Hk; [done|left]. }
    destruct (IH _ _ _ _ _ _ H Ha1 ltac:(lia) Hk1) as (es0 & s' & -> & <- & -> & Ha' & Hf & Ht & Hk').
    exists (e :: es0), s'. rewrite <-!app_assoc in *. simpl in *. rewrite <-app_assoc.
    split_and!; try done; [by constructor|lia].
Qed.

Lemma flat_map_min lv es : zlen es <= zlen (flat_map (encEntry lv) es).
Proof.
  induction es as [|e es IH]; simpl; [lia|]. rewrite length_app.
  assert (1 <= length (encEntry lv e))%nat; [|lia]. unfold encEntry.
  rewrite length_app, length_encLenBytes. pose proof (length_encUvarint (zlen (key e))). lia.
Qed.

Lemma node_codec_iff b n :
  decodeNode b limit = Ok n <-> b = encode n /\ valid_node limit n /\ zlen (entries n) < two64.
Proof.
  split.
  - unfold decodeNode. intros H. rd_name H. pose proof (at_new b) as Ha.
    destruct (bool_decide (rerr r1 <> None)) eqn:E2; [done|]. apply no_err_inv in E2. simpl in H.
    destruct (Z.eqb_spec v kindNode) as [->|]; [|done]. simpl in H.
    destruct (Z.ltb_spec maxLevel v0); [done|]. destruct (Z.ltb_spec (zlen b) v1); [done|]. simpl in H.
    destruct ((0 <? v0) && (v1 =? 0)) eqn:E3; [done|].
    destruct (decodeEntries _ _ _ _ _ r1) as [[es r2]|] eqn:E4; [|done].
    destruct (Done r2) eqn:E5; [done|]. injection H as <-. apply Done_None in E5. rd_back.
    destruct (node_entries_bwd _ _ _ _ _ _ _ _ E4 Ha ltac:(unfold two64; lia) ltac:(constructor))
      as (es0 & s' & -> & Hl & -> & Ha' & Hf & Ht & Hk).
    pose proof (at_functional _ _ _ E5 Ha') as <-. rewrite encode_enc, app_nil_r. simpl in *.
    rewrite Z2Nat.id by lia. replace (zlen es0) with v1 by lia. unfold valid_node; simpl.
    split_and!; try done; try lia. intros Hne ->. simpl in Hl.
    apply andb_false_iff in E3 as [E3|E3]; [apply Z.ltb_ge in E3|apply Z.eqb_neq in E3]; lia.
  - intros (-> & (Hl & Hne & Hf & Hk & Hs) & Hlen). unfold decodeNode.
    pose proof (at_new_nil (encode n)) as Ha. rewrite encode_enc in Ha at 2.
    rewrite <-!app_assoc in Ha. unfold maxLevel, kindNode in *.
    rd_fwd. rd_fwd. rd_fwd.
    rewrite (at_no_err _ _ Ha).
    assert (zlen (entries n) <= zlen (encode n)) as Hn.
    { rewrite encode_enc, !length_app. pose proof (flat_map_min (level n) (entries n)). lia. }
    zbool.
    assert ((0 <? Z.of_nat (level n)) && (zlen (entries n) =? 0) = false) as ->.
    { destruct (level n); [done|]. specialize (Hne ltac:(done)). destruct (entries n); [done|]. simpl. done. }
    destruct (node_entries_fwd (level n) (entries n) 0 [] _ [] Ha Hf ltac:(lia) ltac:(lia) Hk) as (r' & E & Ha').
    rewrite !Nat2Z.id, E. rewrite (proj2 (Done_None r') Ha'). by destruct n.
Qed.
End Codec.

(** C33. The node codec is a bijection between the nodes in canonical form and
    the bytes [decodeNode] accepts, at every inline limit: decoding succeeds on
    exactly the encodings of valid nodes and returns that node. Keys out of
    order, a value on the wrong side of the inline limit, a zero count, a sum
    over 64 bits, an empty internal node, truncated or trailing bytes are all
    refused. *)
Theorem node_codec limit b n :
  0 <= limit < two64 ->
  decodeNode b limit = Ok n <-> b = encode n /\ valid_node limit n /\ zlen (entries n) < two64.
Proof. intros H. by apply node_codec_iff. Qed.

Definition sample_leaf : node :=
  mkNode 0 [mkEntry (str "a") (VInline (str "1")) zero_hash 0;
            mkEntry (str "b") (VInline []) zero_hash 0].

Lemma node_codec_witness :
  0 <= 262144 < two64 /\ decodeNode (encode sample_leaf) 262144 = Ok sample_leaf.
Proof.
  split; [done|]. apply (node_codec 262144 (encode sample_leaf) sample_leaf); [done|].
  split; [done|]. split; [|done]. unfold valid_node, sample_leaf. simpl.
  split_and!; try done.
  - repeat constructor; vm_compute; congruence.
  - repeat constructor.
Defined.
