(* ===== verification/Prolly.v ===== *)
(** * core/prolly: the ordered map, its reads and its cursors

    [Map], [Empty], [Open], [Get], the cursor a level is walked with, range
    iteration and the [Editor]. Code that reads or stores nodes is a program
    over the chunk store ([Prog]); a map's contents are defined by reading its
    tree to the leaves ([leavesN]), and the theorems say what [Get] and
    iteration return in terms of those contents. *)

From S2P Require Import Prelude Wire Hash ChunkStore Prog ProllyNode.
From S2P Require Boundary Stream StreamWrite.

Definition maxInlineLimit : Z := 524288.
Definition DefaultMaxValue : Z := 67108864.

Record Config := mkConfig {
  Nodes : Boundary.Geometry; InlineLimit : Z; SConfig : StreamWrite.Config; MaxValue : Z }.

Definition maxValue (c : Config) : Z := if MaxValue c =? 0 then DefaultMaxValue else MaxValue c.

Definition DefaultConfig : Config :=
  mkConfig Boundary.DefaultGeometry 262144
    (StreamWrite.mkConfig Cdc.DefaultGeometry Boundary.DefaultGeometry) 0.

Definition rule (c : Config) : res Boundary.Rule :=
  if (InlineLimit c <? 0) || (maxInlineLimit <? InlineLimit c) then Err (EMsg "prolly: inline limit")
  else if MaxValue c <? 0 then Err (EMsg "prolly: value limit")
  else Boundary.New (Nodes c).

(** [top] is [None] only inside [Open], before the root is read. *)
Record Map := mkMap {
  cfg : Config; mrule : Boundary.Rule; root : hash; mcount : Z; height : nat; top : option node;
  flushed : bool; base : hash; changed : list bytes }.

Definition emptyNode : node := mkNode 0 [].

Definition Empty (c : Config) : prog Map :=
  match rule c with
  | Err e => pFail e
  | Ok r => h ← pPut (encode emptyNode); mret (mkMap c r h 0 0 (Some emptyNode) false zero_hash [])
  end.

(** [read]: the cached root, or the chunk decoded. *)
Definition read (m : Map) (h : hash) : prog node :=
  match top m with
  | Some n => if bool_decide (h = root m) then mret n else b ← pGet h; pLift (decodeNode b (InlineLimit (cfg m)))
  | None => b ← pGet h; pLift (decodeNode b (InlineLimit (cfg m)))
  end.

Definition Open (c : Config) (rt : hash) : prog Map :=
  match rule c with
  | Err e => pFail e
  | Ok r =>
      n ← read (mkMap c r rt 0 0 None false zero_hash []) rt;
      if (0 <? level n)%nat && (zlen (entries n) <? 2) then pFail ChunkCorrupt
      else mret (mkMap c r rt (total n) (level n) (Some n) false zero_hash [])
  end.

(** [checkChild(p, i, c)]. *)
Definition checkChild (p : node) (i : nat) (c : node) : res unit :=
  match entries p !! i with
  | None => Err (EMsg "index out of range")
  | Some e =>
      if negb (Z.of_nat (level c) =? Z.of_nat (level p) - 1) then Err ChunkCorrupt
      else if (length (entries c) =? 0)%nat then Err ChunkCorrupt
      else if bool_decide (lastKey c <> key e) then Err ChunkCorrupt
      else if negb (total c =? count e) then Err ChunkCorrupt
      else match i with
           | O => Ok tt
           | S j =>
               match entries c !! 0%nat, entries p !! j with
               | Some f, Some pr => if bleb (key f) (key pr) then Err ChunkCorrupt else Ok tt
               | _, _ => Err (EMsg "index out of range")
               end
           end
  end.

Definition child (m : Map) (p : node) (i : nat) : prog node :=
  match entries p !! i with
  | None => pFail (EMsg "index out of range")
  | Some e =>
      c ← read m (ProllyNode.child e);
      match checkChild p i c with
      | Err e => pFail e
      | Ok _ => mret c
      end
  end.

Definition search (n : node) (k : bytes) : nat := list_search (fun e => negb (bltb (key e) k)) (entries n).

(** *** Values *)

Definition readValue (rd : creader) (ref : Stream.Ref) (limit : Z) : res bytes :=
  match Stream.ReadAll rd (fun _ => Stream.minRead) ref (u64 limit) with
  | Err e => if bool_decide (e = StreamTooLarge) then Err ProllyValueTooLarge else Err e
  | Ok b => Ok b
  end.

Definition materialize (rd : creader) (m : Map) (v : value) : res bytes :=
  match v with
  | VInline b => Ok b
  | VStream ref => readValue rd ref (maxValue (cfg m))
  end.

(** *** [Get] *)

(** The descent of [Get], to the stored value: every round goes one level down. *)
Fixpoint findLoop (fuel : nat) (m : Map) (n : node) (k : bytes) : prog (option value) :=
  match level n with
  | O =>
      match entries n !! search n k with
      | Some e => if bool_decide (key e = k) then mret (Some (val e)) else mret None
      | None => mret None
      end
  | S _ =>
      match fuel with
      | O => pFail (EMsg "no fuel")
      | S fuel =>
          let i := search n k in
          if (i =? length (entries n))%nat then mret None
          else c ← child m n i; findLoop fuel m c k
      end
  end.

Definition find (m : Map) (k : bytes) : prog (option value) :=
  n ← read m (root m); findLoop (level n) m n k.

Definition Get (rd : creader) (m : Map) (k : bytes) : res (option bytes) :=
  match interp rd (find m k) with
  | Err e => Err e
  | Ok None => Ok None
  | Ok (Some v) => match materialize rd m v with Ok b => Ok (Some b) | Err e => Err e end
  end.

(** ** Cursors

    A position in one level of the tree: this level's frame first, then its
    parent's, up to the root's. *)
Record frame := mkFrame { fn : node; fi : nat; fend : bool }.
Abbreviation cursor := (list frame).

(** [seek]'s descent to [lv]: every round goes one level down. *)
Fixpoint seekLoop (fuel : nat) (m : Map) (lv : nat) (k : bytes) (c : cursor) : prog cursor :=
  match c with
  | [] => pFail (EMsg "nil cursor")
  | f :: ps =>
      if (level (fn f) <=? lv)%nat then mret c
      else match fuel with
      | O => pFail (EMsg "no fuel")
      | S fuel =>
          let i := Nat.min (search (fn f) k) (length (entries (fn f)) - 1) in
          n ← child m (fn f) i;
          seekLoop fuel m lv k (mkFrame n 0 false :: mkFrame (fn f) i (fend f) :: ps)
      end
  end.

Definition seek (m : Map) (lv : nat) (k : bytes) : prog cursor :=
  n ← read m (root m); seekLoop (level n) m lv k [mkFrame n 0 false].

Definition valid (c : cursor) : bool :=
  match c with
  | [] => false
  | f :: _ => negb (fend f) && (fi f <? length (entries (fn f)))%nat
  end.

Definition current (c : cursor) : option entry :=
  match c with [] => None | f :: _ => entries (fn f) !! fi f end.

Definition atNodeEnd (c : cursor) : bool :=
  match c with [] => false | f :: _ => (S (fi f) =? length (entries (fn f)))%nat end.

(** [fetch]: the child the parent points at, from its first entry. *)
Definition fetch (m : Map) (f : frame) (ps : cursor) : prog cursor :=
  match ps with
  | [] => pFail (EMsg "nil cursor")
  | p :: _ => n ← child m (fn p) (fi p); mret (mkFrame n 0 (fend f) :: ps)
  end.

(** [nextNode], with the parent's [advance]. *)
Definition nextNodeWith (adv : cursor -> prog cursor) (m : Map) (f : frame) (ps : cursor) : prog cursor :=
  match ps with
  | [] => mret [mkFrame (fn f) (fi f) true]
  | _ =>
      ps ← adv ps;
      if negb (valid ps) then mret (mkFrame (fn f) (fi f) true :: ps) else fetch m f ps
  end.

Fixpoint advance (m : Map) (c : cursor) : prog cursor :=
  match c with
  | [] => mret []
  | f :: ps =>
      if fend f then mret c
      else
        let f := mkFrame (fn f) (S (fi f)) false in
        if (fi f <? length (entries (fn f)))%nat then mret (f :: ps)
        else match ps with
             | [] => mret [mkFrame (fn f) (fi f) true]
             | _ =>
                 ps ← advance m ps;
                 if negb (valid ps) then mret (mkFrame (fn f) (fi f) true :: ps) else fetch m f ps
             end
  end.

Definition nextNode (m : Map) (c : cursor) : prog cursor :=
  match c with [] => mret [] | f :: ps => nextNodeWith (advance m) m f ps end.

Definition lastNode (c : cursor) : bool :=
  match c with
  | [] => true
  | _ :: ps => forallb (fun p => (length (entries (fn p)) - 1 <=? fi p)%nat) ps
  end.

(** ** Iteration *)

Record Iter := mkIter { itc : cursor; hi : option bytes }.

Definition IterRange (m : Map) (lo : bytes) (hi : option bytes) : prog Iter :=
  c ← seek m 0 lo;
  match c with
  | [] => pFail (EMsg "nil cursor")
  | f :: ps =>
      let i := search (fn f) lo in
      let len := length (entries (fn f)) in
      if (i =? len)%nat && (0 <? len)%nat
      then c ← advance m (mkFrame (fn f) (i - 1) (fend f) :: ps); mret (mkIter c hi)
      else mret (mkIter (mkFrame (fn f) i (fend f) :: ps) hi)
  end.

Definition Next (rd : creader) (m : Map) (it : Iter) : res (option (bytes * bytes) * Iter) :=
  if negb (valid (itc it)) then Ok (None, it)
  else match current (itc it) with
  | None => Err (EMsg "index out of range")
  | Some e =>
      if match hi it with Some h => negb (bltb (key e) h) | None => false end then Ok (None, it)
      else match materialize rd m (val e) with
      | Err e => Err e
      | Ok v =>
          match interp rd (advance m (itc it)) with
          | Err e => Err e
          | Ok c => Ok (Some (key e, v), mkIter c (hi it))
          end
      end
  end.

(** A caller's loop over [Next]. *)
Fixpoint nextAll (fuel : nat) (rd : creader) (m : Map) (it : Iter) : res (list (bytes * bytes)) :=
  match fuel with
  | O => Err (EMsg "no fuel")
  | S fuel =>
      match Next rd m it with
      | Err e => Err e
      | Ok (None, _) => Ok []
      | Ok (Some kv, it) => match nextAll fuel rd m it with Ok l => Ok (kv :: l) | Err e => Err e end
      end
  end.

(** The number of entries bounds the rounds. *)
Definition range (rd : creader) (m : Map) (lo : bytes) (hi : option bytes) : res (list (bytes * bytes)) :=
  match interp rd (IterRange m lo hi) with
  | Err e => Err e
  | Ok it => nextAll (S (Z.to_nat (mcount m))) rd m it
  end.

(** ** The editor *)

(** A Go map of edits: [None] deletes. The source keys it by string; only [Flush] reads it, sorted. *)
Record Editor := mkEditor { em : Map; edits : gmap bytes (option bytes) }.

Definition NewEditor (m : Map) : Editor := mkEditor m ∅.

Definition Put (k v : bytes) : M Editor unit := fun e =>
  if MaxKeySize <? zlen k then (Err ProllyKeyTooLarge, e)
  else if maxValue (cfg (em e)) <? zlen v then (Err ProllyValueTooLarge, e)
  else (Ok tt, mkEditor (em e) (<[k := Some v]> (edits e))).

Definition Delete (k : bytes) : M Editor unit := fun e =>
  if MaxKeySize <? zlen k then (Err ProllyKeyTooLarge, e)
  else (Ok tt, mkEditor (em e) (<[k := None]> (edits e))).

Definition Changes (m : Map) : option (hash * list bytes) :=
  if flushed m then Some (base m, changed m) else None.

(** ** The contents of a tree *)

Section Contents.
Context (rd : creader) (limit : Z).

Definition readN (h : hash) : res node :=
  match rd h with Ok b => decodeNode b limit | Err e => Err e end.

(** The entries of the node an internal entry names. *)
Definition kids (e : entry) : list entry :=
  match readN (ProllyNode.child e) with Ok c => entries c | Err _ => [] end.

(** The leaf entries under an entry of level [d]. *)
Fixpoint leaves (d : nat) (e : entry) : list entry :=
  match d with
  | O => [e]
  | S d => concat (map (leaves d) (kids e))
  end.

Definition leavesN (d : nat) (es : list entry) : list entry := concat (map (leaves d) es).

(** What the reads check of a child against its entry, all the way down, and
    that the leaf entries under it are in key order. *)
Fixpoint okE (d : nat) (e : entry) : Prop :=
  match d with
  | O => True
  | S d => exists c, readN (ProllyNode.child e) = Ok c /\ level c = d /\ entries c <> [] /\
             lastKey c = key e /\ total c = count e /\ Forall (okE d) (entries c) /\
             ksorted key (leavesN d (entries c))
  end.

Definition okN (d : nat) (n : node) : Prop :=
  level n = d /\ Forall (okE d) (entries n) /\ ksorted key (leavesN d (entries n)).

Lemma leavesN_app d a b : leavesN d (a ++ b) = leavesN d a ++ leavesN d b.
Proof. unfold leavesN. by rewrite map_app, concat_app. Qed.

Lemma leavesN_cons d e es : leavesN d (e :: es) = leaves d e ++ leavesN d es.
Proof. done. Qed.

Lemma leaves_S d e : leaves (S d) e = leavesN d (kids e).
Proof. done. Qed.

Lemma okE_S d e : okE (S d) e ->
  exists c, readN (ProllyNode.child e) = Ok c /\ okN d c /\ kids e = entries c /\ entries c <> [] /\
    lastKey c = key e /\ total c = count e.
Proof.
  intros (c & Hr & Hl & Hne & Hk & Ht & Hf & Hs). exists c. unfold okN, kids. rewrite Hr. by split_and!.
Qed.

Lemma lastKey_snoc lv es e : lastKey (mkNode lv (es ++ [e])) = key e.
Proof. unfold lastKey. simpl. by rewrite last_snoc. Qed.

(** An entry's key is the last leaf key under it, so every leaf key is at most it. *)
Lemma leaves_last d : forall e, okE d e -> exists ls l, leaves d e = ls ++ [l] /\ key l = key e.
Proof.
  induction d as [|d IH]; intros e He.
  - by exists [], e.
  - destruct (okE_S d e He) as (c & _ & (Hl & Hf & _) & Hkids & Hne & Hk & _).
    rewrite leaves_S, Hkids. destruct (exists_last Hne) as (es & x & E). rewrite E in *.
    apply Forall_app in Hf as [_ [Hx _]%Forall_cons]. destruct (IH x Hx) as (ls & l & El & Ekl).
    exists (leavesN d es ++ ls), l. rewrite leavesN_app, leavesN_cons, El. simpl. rewrite app_nil_r, app_assoc.
    split; [done|]. rewrite Ekl, <-Hk. unfold lastKey. by rewrite E, last_snoc.
Qed.

Lemma leaves_le d e x : okE d e -> ksorted key (leaves d e) -> x ∈ leaves d e -> key x <=b key e.
Proof.
  intros He Hs Hx. destruct (leaves_last d e He) as (ls & l & El & <-). rewrite El in *.
  apply ksorted_app in Hs as (Hs & _). apply elem_of_app in Hx as [Hx| ->%list_elem_of_singleton]; [|apply ble_refl].
  apply blt_le, Hs; [done|by apply list_elem_of_singleton].
Qed.

Lemma leaves_nonempty d e : okE d e -> leaves d e <> [].
Proof. intros He. destruct (leaves_last d e He) as (ls & l & -> & _). by destruct ls. Qed.

Lemma ksorted_sub {A} (f : A -> bytes) a b c : ksorted f (a ++ b ++ c) -> ksorted f b.
Proof. rewrite !ksorted_app. tauto. Qed.

(** The keys of a node's entries are in order, and separate the leaves under them. *)
Lemma entries_sorted d es : Forall (okE d) es -> ksorted key (leavesN d es) -> ksorted key es.
Proof.
  induction es as [|e es IH]; intros Hf Hs; [constructor|]. apply Forall_cons in Hf as [He Hf].
  rewrite leavesN_cons, ksorted_app in Hs. destruct Hs as (Hlt & He2 & Hs2). apply ksorted_cons. split; [|by apply IH].
  destruct (leaves_last d e He) as (ls & l & El & <-). apply Forall_forall. intros x Hx.
  rewrite Forall_forall in Hf. destruct (leaves_last d x (Hf x Hx)) as (ls' & l' & El' & <-).
  apply Hlt; [rewrite El; set_solver|]. unfold leavesN. apply list_elem_of_In, in_concat. exists (leaves d x).
  split; [apply in_map; by apply list_elem_of_In|]. rewrite El'. apply in_or_app. right. by left.
Qed.
End Contents.

(** ** Reading a map *)

(** A map reads as [es]: its root is the chunk its cache says, and its tree holds [es] in order. *)
Definition map_ok (rd : creader) (m : Map) (es : list entry) : Prop :=
  rule (cfg m) = Ok (mrule m) /\
  exists n, top m = Some n /\ readN rd (InlineLimit (cfg m)) (root m) = Ok n /\
    okN rd (InlineLimit (cfg m)) (level n) n /\ leavesN rd (InlineLimit (cfg m)) (level n) (entries n) = es /\
    mcount m = total n /\ height m = level n /\ (level n = 0%nat \/ (2 <= length (entries n))%nat).

Create HintDb reads discriminated.
#[export] Hint Resolve reads_bind : reads.

Lemma read_reads m h : reads_only (read m h).
Proof. unfold read. destruct (top m); [case_bool_decide; [done|]|]; apply reads_bind; done. Qed.

Lemma child_reads m p i : reads_only (child m p i).
Proof.
  unfold child. destruct (entries p !! i); [|done]. apply reads_bind; [apply read_reads|].
  intros c. by destruct (checkChild p i c).
Qed.

Lemma fetch_reads m f ps : reads_only (fetch m f ps).
Proof. destruct ps; [done|]. apply reads_bind; [apply child_reads|done]. Qed.

Lemma advance_reads m c : reads_only (advance m c).
Proof.
  induction c as [|f ps IH]; [done|]. cbn [advance]. destruct (fend f); [done|]. simpl.
  destruct (_ <? _)%nat; [done|]. destruct ps; [done|]. apply reads_bind; [done|].
  intros c. destruct (negb (valid c)); [done|]. apply fetch_reads.
Qed.

Lemma findLoop_reads fuel m : forall n k, reads_only (findLoop fuel m n k).
Proof.
  induction fuel as [|fuel IH]; intros n k; cbn [findLoop]; destruct (level n);
    try (destruct (entries n !! search n k); [case_bool_decide|]); try done.
  destruct (_ =? _)%nat; [done|]. apply reads_bind; [apply child_reads|auto].
Qed.

Lemma seekLoop_reads fuel m lv k : forall c, reads_only (seekLoop fuel m lv k c).
Proof.
  induction fuel as [|fuel IH]; intros [|f ps]; cbn [seekLoop]; try done; destruct (_ <=? _)%nat; try done.
  apply reads_bind; [apply child_reads|auto].
Qed.

Lemma seek_reads m lv k : reads_only (seek m lv k).
Proof. apply reads_bind; [apply read_reads|]. intros. apply seekLoop_reads. Qed.

#[export] Hint Resolve read_reads child_reads fetch_reads advance_reads findLoop_reads seekLoop_reads seek_reads : reads.

Lemma search_spec n k : ksorted key (entries n) ->
  exists pre post, entries n = pre ++ post /\ search n k = length pre /\
    Forall (fun e => key e <b k) pre /\ Forall (fun e => k <=b key e) post.
Proof.
  intros Hs. unfold search.
  destruct (list_search_spec (fun e => negb (bltb (key e) k)) (entries n) _ Hs) as (Hk & Ht & Hd).
  { intros x y Hxy. rewrite !negb_true_iff. destruct (bltb_spec (key x) k) as [|Hn], (bltb_spec (key y) k); try done.
    destruct Hn. border. }
  set (i := list_search _ _) in *. exists (take i (entries n)), (drop i (entries n)).
  rewrite take_drop, length_take_le by done. split_and!; try done.
  - eapply Forall_impl; [exact Ht|]. simpl. intros e He%negb_false_iff. by apply bltb_true.
  - eapply Forall_impl; [exact Hd|]. simpl. intros e He%negb_true_iff. apply ble_not_lt.
    intros Hlt%bltb_true. congruence.
Qed.

(** *** Counts *)

Lemma rule_limit c r : rule c = Ok r -> 0 <= InlineLimit c < two64 /\ Boundary.good_rule r.
Proof.
  unfold rule. intros H. guards H. unfold maxInlineLimit, two64 in *.
  split; [lia|by exists (Nodes c)].
Qed.

Lemma node_total_sum limit n : Forall (valid_entry (level n) limit) (entries n) -> sum_count (entries n) < two64 ->
  level n <> 0%nat -> total n = sum_count (entries n).
Proof.
  intros Hf Hs Hl. unfold total. destruct (level n) as [|lv]; [done|].
  enough (forall t, 0 <= t -> t + sum_count (entries n) < two64 ->
    foldl (fun t e => u64 (t + count e)) t (entries n) = t + sum_count (entries n)) as H by (rewrite H; lia).
  clear Hs. induction Hf as [|e es He Hf IH]; intros t H0 Ht; simpl in *; [lia|].
  pose proof (sum_count_nonneg _ _ _ Hf). pose proof (valid_count _ _ _ He).
  rewrite u64_small by lia. rewrite IH; lia.
Qed.

Lemma total_internal limit n : valid_node limit n -> level n <> 0%nat -> total n = sum_count (entries n).
Proof. intros (_ & _ & Hf & _ & Hs). by apply (node_total_sum limit). Qed.

(** A node's total is the number of leaf entries under it. *)
Lemma total_leaves rd limit d : 0 <= limit < two64 -> forall h n,
  readN rd limit h = Ok n -> okN rd limit d n -> total n = zlen (leavesN rd limit d (entries n)).
Proof.
  intros Hlim. induction d as [|d IH]; intros h n Hr (Hl & Hf & Hs).
  - unfold total. rewrite Hl. f_equal. clear. unfold leavesN. induction (entries n) as [|e es IH]; [done|]. simpl in *. lia.
  - assert (valid_node limit n) as Hv.
    { unfold readN in Hr. destruct (rd h) as [b|]; [|done]. by apply node_codec_iff in Hr as (_ & ? & _). }
    rewrite (total_internal limit) by (done || lia). clear Hr Hv Hs Hl.
    induction (entries n) as [|e es IHes]; [done|]. apply Forall_cons in Hf as [He Hf]. rewrite leavesN_cons, length_app.
    destruct (okE_S rd limit d e He) as (c & Hrc & Hc & Hkids & _ & _ & Ht). rewrite leaves_S, Hkids.
    rewrite (IH _ _ Hrc Hc) in Ht. simpl. rewrite IHes by done. lia.
Qed.

Section MapReads.
Context (rd : creader) (m : Map) (rootn : node).
Abbreviation limit := (InlineLimit (cfg m)).
Hypothesis Htop : top m = Some rootn.
Hypothesis Hroot : readN rd limit (root m) = Ok rootn.

Lemma interp_read h : interp rd (read m h) = readN rd limit h.
Proof.
  unfold read. rewrite Htop. case_bool_decide as E; [subst; by rewrite Hroot|].
  unfold readN. simpl. by destruct (rd h).
Qed.

Lemma leaves_between d es1 e es2 x y :
  Forall (okE rd limit d) (es1 ++ e :: es2) -> ksorted key (leavesN rd limit d (es1 ++ e :: es2)) ->
  x ∈ es1 -> y ∈ leaves rd limit d e -> key x <b key y.
Proof.
  intros Hf Hs Hx Hy. apply Forall_app in Hf as [Hf _]. rewrite Forall_forall in Hf.
  destruct (leaves_last rd limit d x (Hf x Hx)) as (ls & l & El & <-).
  rewrite leavesN_app, leavesN_cons in Hs. apply ksorted_app in Hs as (Hs & _). apply Hs.
  - apply list_elem_of_In, in_concat. exists (leaves rd limit d x). split; [apply in_map; by apply list_elem_of_In|].
    rewrite El. apply in_or_app. right. by left.
  - apply elem_of_app. by left.
Qed.

Lemma child_ok d p i e :
  okN rd limit (S d) p -> entries p !! i = Some e ->
  exists c, interp rd (child m p i) = Ok c /\ readN rd limit (ProllyNode.child e) = Ok c /\ okN rd limit d c /\
    kids rd limit e = entries c /\ entries c <> [] /\ lastKey c = key e.
Proof.
  intros (Hl & Hf & Hs) He. pose proof (list_elem_of_lookup_2 _ _ _ He) as Hin.
  pose proof (proj1 (Forall_forall _ _) Hf e Hin) as HeOk.
  destruct (okE_S rd limit d e HeOk) as (c & Hr & Hc & Hkids & Hne & Hk & Ht).
  exists c. unfold child. rewrite He. rewrite interp_bind by auto with reads. rewrite interp_read, Hr.
  assert (checkChild p i c = Ok tt) as ->; [|by split_and!].
  unfold checkChild. rewrite He. pose proof Hc as (Hlc & Hfc & Hsc). rewrite Hl, Hlc.
  rewrite (proj2 (Z.eqb_eq _ _)) by lia. destruct (entries c) as [|f fs] eqn:Ef; [done|]. simpl length.
  rewrite bool_decide_false by (by intros H1). rewrite (proj2 (Z.eqb_eq _ _) Ht). simpl.
  destruct i as [|j]; [done|].
  destruct (lookup_lt_is_Some_2 (entries p) j) as [pr Hpr]; [apply lookup_lt_Some in He; lia|]. rewrite Hpr.
  destruct (bleb_spec (key f) (key pr)) as [Hle|]; [exfalso|done].
  apply Forall_cons in Hfc as [Hff _].
  destruct (leaves_last rd limit d f Hff) as (ls & l & El & Ekl).
  assert (key pr <b key l) as Hlt.
  { rewrite <-(take_drop_middle _ _ _ He) in Hf, Hs.
    eapply (leaves_between (S d)); [exact Hf|exact Hs| |].
    - apply (list_elem_of_lookup_2 _ j). rewrite lookup_take_lt by lia. exact Hpr.
    - rewrite leaves_S, Hkids, leavesN_cons, El. set_solver. }
  rewrite Ekl in Hlt. border.
Qed.

Lemma leavesN_below d es k :
  Forall (okE rd limit d) es -> ksorted key (leavesN rd limit d es) -> Forall (fun e => key e <b k) es ->
  Forall (fun x => key x <b k) (leavesN rd limit d es).
Proof.
  intros Hf Hs Hk. induction es as [|e es IH]; [constructor|]. rewrite leavesN_cons in *.
  apply Forall_cons in Hf as [He Hf]. apply Forall_cons in Hk as [Hke Hk]. apply ksorted_app in Hs as (_ & Hs1 & Hs2).
  apply Forall_app. split; [|by apply IH]. apply Forall_forall. intros x Hx.
  eapply ble_lt_trans; [by eapply leaves_le|done].
Qed.

Lemma leavesN_above d e es : Forall (okE rd limit d) (e :: es) -> ksorted key (leavesN rd limit d (e :: es)) ->
  Forall (fun x => key e <b key x) (leavesN rd limit d es).
Proof.
  intros [He _]%Forall_cons Hs. rewrite leavesN_cons in Hs. apply ksorted_app in Hs as (Hs & _).
  destruct (leaves_last rd limit d e He) as (ls & l & El & <-). apply Forall_forall. intros x Hx. apply Hs; [|done].
  rewrite El. set_solver.
Qed.

Lemma findLoop_ok d : forall fuel n k, (d <= fuel)%nat -> okN rd limit d n ->
  interp rd (findLoop fuel m n k) = Ok (val <$> klookup key k (leavesN rd limit d (entries n))).
Proof.
  induction d as [|d IH]; intros fuel n k Hfuel (Hl & Hf & Hs).
  - assert (leavesN rd limit 0 (entries n) = entries n) as E.
    { clear. unfold leavesN. induction (entries n) as [|e es IH]; [done|]. simpl. simpl in IH. by rewrite IH. }
    rewrite E in *. destruct (search_spec n k Hs) as (pre & post & En & Esr & Hpre & Hpost).
    assert (interp rd (findLoop fuel m n k) = match entries n !! search n k with
      | Some e => if bool_decide (key e = k) then Ok (Some (val e)) else Ok None | None => Ok None end) as ->.
    { destruct fuel; cbn [findLoop]; rewrite Hl; destruct (entries n !! search n k) as [e|]; try done; by case_bool_decide. }
    rewrite Esr, En, lookup_app_r, Nat.sub_diag, klookup_app, klookup_below by done.
    destruct post as [|e post]; simpl; [done|]. rewrite klookup_cons. rewrite En in Hs.
    apply ksorted_app in Hs as (_ & _ & [He _]%ksorted_cons). apply Forall_cons in Hpost as [Hke _].
    case_bool_decide; [by rewrite decide_True|]. rewrite decide_False by done.
    rewrite (proj2 (klookup_None key k post)); [done|]. eapply Forall_impl; [exact He|]. simpl. intros x Hx E2. subst k. border.
  - destruct fuel as [|fuel]; [lia|]. cbn [findLoop]. rewrite Hl.
    pose proof (entries_sorted _ _ _ _ Hf Hs) as Hes.
    destruct (search_spec n k Hes) as (pre & post & En & Esr & Hpre & Hpost). rewrite Esr.
    rewrite En in Hf, Hs. rewrite En, length_app, leavesN_app, klookup_app.
    rewrite klookup_below; [|eapply leavesN_below; [by apply Forall_app in Hf as [Hf _]| |exact Hpre];
      rewrite leavesN_app in Hs; by apply ksorted_app in Hs as (_ & ? & _)].
    destruct post as [|e post]; [by rewrite (proj2 (Nat.eqb_eq _ _)) by (simpl; lia)|].
    rewrite (proj2 (Nat.eqb_neq _ _)) by (simpl; lia).
    destruct (child_ok d n (length pre) e) as (c & Hc & _ & Hcok & Hkids & _).
    { unfold okN. by rewrite En. }
    { by rewrite En, lookup_app_r, Nat.sub_diag by done. }
    rewrite interp_bind by auto with reads. rewrite Hc, IH by (done || lia).
    rewrite leavesN_cons, klookup_app, leaves_S, Hkids.
    destruct (klookup key k (leavesN rd limit d (entries c))); [done|].
    apply Forall_cons in Hpost as [Hke _].
    rewrite (proj2 (klookup_None key k _)); [done|].
    apply Forall_app in Hf as [_ Hf]. rewrite leavesN_app in Hs. apply ksorted_app in Hs as (_ & _ & Hs).
    eapply Forall_impl; [by eapply leavesN_above|]. simpl. intros x Hx E2. subst k. border.
Qed.
(** *** Cursors *)

(** The entries of the cursor's level from where it stands to the level's end. *)
Fixpoint rem (c : cursor) : list entry :=
  match c with
  | [] => []
  | f :: ps => if fend f then [] else drop (fi f) (entries (fn f)) ++ concat (map (kids rd limit) (tail (rem ps)))
  end.

(** A cursor of level [lv] that the map's reads made: each node is the one its
    parent stands at. *)
Fixpoint curOk (lv : nat) (c : cursor) : Prop :=
  match c with
  | [] => False
  | f :: ps =>
      fend f = true \/
      okN rd limit lv (fn f) /\
      match ps with
      | [] => (fi f < length (entries (fn f)))%nat \/ entries (fn f) = []
      | _ => (fi f < length (entries (fn f)))%nat /\ curOk (S lv) ps /\
             exists pe pes, rem ps = pe :: pes /\ readN rd limit (ProllyNode.child pe) = Ok (fn f)
      end
  end.

Lemma leavesN_kids d pes : leavesN rd limit d (concat (map (kids rd limit) pes)) = leavesN rd limit (S d) pes.
Proof. induction pes as [|e pes IH]; [done|]. simpl. rewrite leavesN_app, IH. by rewrite leavesN_cons, leaves_S. Qed.

Lemma drop_lt {A} (l : list A) i : (i < length l)%nat -> exists x, l !! i = Some x /\ drop i l = x :: drop (S i) l.
Proof. intros Hi. destruct (lookup_lt_is_Some_2 l i Hi) as [x Hx]. exists x. split; [done|]. by apply drop_S. Qed.

Lemma valid_rem lv c : curOk lv c -> if valid c
  then exists e es, rem c = e :: es /\ current c = Some e
  else rem c = [].
Proof.
  destruct c as [|f ps]; [done|]. simpl. destruct (fend f) eqn:Ef; simpl; [done|].
  intros [|[Hok Hi]]; [congruence|]. destruct (Nat.ltb_spec (fi f) (length (entries (fn f)))) as [Hlt|Hge].
  - destruct (drop_lt _ _ Hlt) as (x & Hx & ->). simpl. eauto.
  - destruct ps as [|p ps]; [|lia]. destruct Hi as [Hi| ->]; [lia|]. by rewrite drop_nil.
Qed.

Lemma valid_false lv c : curOk lv c -> valid c = false -> rem c = [].
Proof. intros Hc Hv. pose proof (valid_rem lv c Hc) as H1. by rewrite Hv in H1. Qed.

(** [fetch]: the child the parent stands at, from its first entry. *)
Lemma fetch_ok lv f ps pe pes : curOk (S lv) ps -> rem ps = pe :: pes -> fend f = false ->
  exists n, interp rd (fetch m f ps) = Ok (mkFrame n 0 false :: ps) /\ curOk lv (mkFrame n 0 false :: ps) /\
    rem (mkFrame n 0 false :: ps) = concat (map (kids rd limit) (pe :: pes)) /\
    readN rd limit (ProllyNode.child pe) = Ok n.
Proof.
  intros Hps Hrem Hf. destruct ps as [|p ps]; [done|].
  pose proof (valid_rem _ _ Hps) as Hv. destruct (valid (p :: ps)) eqn:Ev; [|congruence].
  destruct Hv as (pe' & pes' & Hr & Hcur). rewrite Hrem in Hr. injection Hr as <- <-. simpl in Hcur.
  assert (okN rd limit (S lv) (fn p)) as Hokp.
  { simpl in Hps, Ev. destruct Hps as [E|[H _]]; [by rewrite E in Ev|done]. }
  destruct (child_ok lv (fn p) (fi p) pe Hokp Hcur) as (n & Hn & Hrn & Hokn & Hkids & Hne & _).
  exists n. unfold fetch. rewrite interp_bind by auto with reads. rewrite Hn. simpl. rewrite Hf. split_and!; [done| | |done].
  - right. split; [done|]. split; [destruct (entries n); simpl; [done|lia]|]. split; [done|]. by exists pe, pes.
  - simpl in Hrem. rewrite Hrem. simpl. by rewrite drop_0, Hkids.
Qed.

Lemma advance_ok c : forall lv, curOk lv c ->
  exists c', interp rd (advance m c) = Ok c' /\ curOk lv c' /\ rem c' = tail (rem c) /\ length c' = length c.
Proof.
  induction c as [|f ps IH]; intros lv Hc; [done|]. cbn [advance].
  destruct (fend f) eqn:Ef.
  { exists (f :: ps). simpl. rewrite Ef. split_and!; auto. }
  pose proof Hc as Hc0. destruct Hc as [?|[Hok Hi]]; [congruence|]. cbn [fi fn].
  destruct (Nat.ltb_spec (S (fi f)) (length (entries (fn f)))) as [Hlt|Hge].
  - destruct (drop_lt (entries (fn f)) (fi f)) as (x & _ & Hd); [lia|].
    eexists. split; [done|]. simpl. rewrite Ef, Hd. split_and!; [|done|done].
    right. split; [done|]. simpl. destruct ps; [by left|]. destruct Hi as (_ & ?). split; [lia|done].
  - destruct ps as [|p ps].
    + eexists. split; [done|]. split_and!; [by left| |done]. simpl. rewrite Ef, app_nil_r.
      destruct Hi as [Hi| ->]; [|by rewrite drop_nil].
      destruct (drop_lt _ _ Hi) as (x & _ & ->). simpl. by rewrite drop_ge by lia.
    + destruct Hi as (Hi & Hps & pe & pes & Hrem & Hread). cbv iota.
      destruct (IH _ Hps) as (ps' & Hadv & Hps' & Hrem' & Hlen').
      rewrite interp_bind by (apply advance_reads). rewrite Hadv.
      destruct (drop_lt _ _ Hi) as (x & _ & Hd).
      assert (tail (rem (f :: p :: ps)) = concat (map (kids rd limit) pes)) as Htl.
      { cbn [rem]. rewrite Ef, Hd. cbn [app tail]. cbn [rem] in Hrem. rewrite Hrem. by rewrite drop_ge by lia. }
      rewrite Htl. rewrite Hrem in Hrem'. cbn [tail] in Hrem'.
      destruct (valid ps') eqn:Ev; cbn [negb].
      * pose proof (valid_rem _ _ Hps') as Hv. rewrite Ev in Hv. destruct Hv as (pe' & pes' & Hr & _).
        destruct (fetch_ok lv (mkFrame (fn f) (S (fi f)) false) ps' pe' pes' Hps' Hr eq_refl) as (n & Hfe & Hcok & Hre & _).
        eexists. split; [exact Hfe|]. split_and!; [done| |simpl; by rewrite Hlen'].
        rewrite Hre. congruence.
      * pose proof (valid_false _ _ Hps' Ev) as Hr. eexists. split; [done|]. split_and!; [by left| |simpl; by rewrite Hlen'].
        simpl. rewrite <-Hrem', Hr. done.
Qed.
(** Where [seek] arrives for key [k]: at the start of a node, the leaf entries
    before it under [k], those after the node not under it. *)
Definition sought (lv : nat) (es : list entry) (k : bytes) (c : cursor) : Prop :=
  curOk lv c /\
  exists f ps pre, c = f :: ps /\ fi f = 0%nat /\ fend f = false /\ (ps <> [] -> entries (fn f) <> []) /\
    es = pre ++ leavesN rd limit lv (rem c) /\ Forall (fun e => key e <b k) pre /\
    Forall (fun e => k <=b key e) (leavesN rd limit (S lv) (tail (rem ps))).

Lemma sought_down lv es k f ps :
  ksorted key es -> entries (fn f) <> [] -> sought (S lv) es k (f :: ps) ->
  let i := Nat.min (search (fn f) k) (length (entries (fn f)) - 1) in
  exists n, interp rd (child m (fn f) i) = Ok n /\ entries n <> [] /\
    sought lv es k (mkFrame n 0 false :: mkFrame (fn f) i (fend f) :: ps).
Proof.
  intros Hses Hne [Hc (f' & ps' & pre & [= <- <-] & Hi & Hend & _ & -> & Hpre & Habove)] i.
  destruct Hc as [?|[Hok Hrest]]; [congruence|]. pose proof Hok as (Hl & Hf & Hs).
  pose proof (entries_sorted _ _ _ _ Hf Hs) as Hes.
  destruct (search_spec (fn f) k Hes) as (es1 & es2 & Ees & Esr & H1 & H2).
  assert (i < length (entries (fn f)))%nat as Hlt.
  { subst i. destruct (entries (fn f)); [done|]. simpl. lia. }
  destruct (drop_lt _ _ Hlt) as (e & He & Hd).
  destruct (child_ok lv (fn f) i e Hok He) as (n & Hn & Hrn & Hokn & Hkids & Hnn & Hlk).
  exists n. split; [done|]. split; [done|].
  set (p := mkFrame (fn f) i (fend f)).
  assert (rem (p :: ps) = e :: drop (S i) (entries (fn f)) ++ concat (map (kids rd limit) (tail (rem ps)))) as Hrp.
  { simpl. rewrite Hend, Hd. done. }
  split.
  { right. split; [done|]. cbn [fn fi]. split; [destruct (entries n); simpl; [done|lia]|]. split; [|by eauto].
    right. split; [done|]. destruct ps; [by left|]. destruct Hrest as (_ & ? & ?). by split_and!. }
  exists (mkFrame n 0 false), (p :: ps), (pre ++ leavesN rd limit (S lv) (take i (entries (fn f)))).
  split_and!; [done|done|done|done| | |].
  - cbn [rem]. cbn [rem] in Hrp. cbn [fend fi fn]. rewrite Hrp. cbn [tail]. rewrite drop_0, Hend, Hi, drop_0.
    rewrite <-Hkids, <-(take_drop i (entries (fn f))) at 1. rewrite Hd.
    rewrite !leavesN_app, !leavesN_cons, !leavesN_kids, leaves_S, leavesN_app, !leavesN_kids. by rewrite <-!app_assoc.
  - apply Forall_app. split; [done|].
    assert (Forall (fun e => key e <b k) (take i (entries (fn f)))) as Htk.
    { rewrite Ees, take_app_le by (subst i; lia). by apply Forall_take. }
    apply leavesN_below; [by apply Forall_take| |done].
    rewrite <-(take_drop i (entries (fn f))), leavesN_app in Hs. by apply ksorted_app in Hs as (_ & ? & _).
  - rewrite Hrp. cbn [tail]. rewrite leavesN_app. apply Forall_app. split; [|by rewrite leavesN_kids].
    destruct (decide (search (fn f) k < length (entries (fn f)))%nat) as [Hin|Hout].
    + assert (i = length es1) as Ei by (subst i; lia).
      assert (es2 = e :: drop (S i) (entries (fn f))) as E2.
      { rewrite <-Hd, Ees, Ei, drop_app_length. done. }
      rewrite E2 in H2. apply Forall_cons in H2 as [Hke _].
      assert (Forall (fun x => key e <b key x) (leavesN rd limit (S lv) (drop (S i) (entries (fn f))))) as Hab.
      { apply leavesN_above; rewrite <-Hd; [by apply Forall_drop|].
        rewrite <-(take_drop i (entries (fn f))), leavesN_app in Hs. by apply ksorted_app in Hs as (_ & _ & ?). }
      eapply Forall_impl; [exact Hab|]. simpl. intros x Hx. border.
    + rewrite drop_ge; [constructor|]. subst i. lia.
Qed.

Lemma seekLoop_ok d : forall fuel lv es k c,
  ksorted key es -> (d <= fuel)%nat -> sought (lv + d) es k c ->
  (forall f, head c = Some f -> d <> 0%nat -> entries (fn f) <> []) ->
  exists c', interp rd (seekLoop fuel m lv k c) = Ok c' /\ sought lv es k c' /\ length c' = (length c + d)%nat.
Proof.
  induction d as [|d IH]; intros fuel lv es k c Hs Hf Hc Hne.
  - rewrite Nat.add_0_r in Hc. exists c. rewrite Nat.add_0_r. split; [|done]. pose proof Hc as [Hok (f & ps & pre & -> & _ & Hend & _)].
    destruct Hok as [?|[(Hl & _) _]]; [congruence|].
    destruct fuel; cbn [seekLoop]; rewrite Hl, (proj2 (Nat.leb_le _ _)) by lia; done.
  - destruct fuel as [|fuel]; [lia|]. pose proof Hc as [Hok (f & ps & pre & -> & _ & Hend & _)].
    destruct Hok as [?|[(Hl & _) _]]; [congruence|]. cbn [seekLoop].
    rewrite Hl, (proj2 (Nat.leb_gt _ _)) by lia.
    replace (lv + S d)%nat with (S (lv + d)) in Hc by lia.
    destruct (sought_down (lv + d) es k f ps Hs (Hne f eq_refl ltac:(lia)) Hc) as (n & Hn & Hnn & Hd).
    rewrite interp_bind by auto with reads. rewrite Hn.
    destruct (IH fuel lv es k _ Hs ltac:(lia) Hd) as (c' & -> & Hc' & Hlen).
    { by intros g [= <-] _. }
    exists c'. split_and!; [done|done|]. simpl in *. lia.
Qed.
End MapReads.

Lemma seek_ok rd m es lv k :
  map_ok rd m es -> (lv <= height m)%nat ->
  exists c, interp rd (seek m lv k) = Ok c /\ sought rd m lv es k c /\ length c = S (height m - lv).
Proof.
  intros (_ & n & Htop & Hroot & Hok & <- & _ & Hh & Hbig) Hlv. unfold seek.
  rewrite interp_bind by auto with reads. rewrite (interp_read rd m n Htop Hroot), Hroot.
  destruct (seekLoop_ok rd m n Htop Hroot (level n - lv) (level n) lv
    (leavesN rd (InlineLimit (cfg m)) (level n) (entries n)) k [mkFrame n 0 false]) as (c & Hc & Hs & Hl); [by apply Hok|lia| | |].
  - replace (lv + (level n - lv))%nat with (level n) by lia. split.
    + right. split; [done|]. simpl. destruct (entries n); [by right|]. left. simpl. lia.
    + eexists _, [], []. split_and!; try done. simpl. by rewrite drop_0, app_nil_r.
  - intros f [= <-] Hd. simpl. destruct Hbig as [|Hb]; [lia|]. destruct (entries n); [simpl in Hb; lia|done].
  - exists c. split_and!; [done|done|]. simpl in Hl. lia.
Qed.

Lemma Get_ok rd m es k :
  map_ok rd m es ->
  Get rd m k = match klookup key k es with
               | None => Ok None
               | Some e => match materialize rd m (val e) with Ok b => Ok (Some b) | Err e => Err e end
               end.
Proof.
  intros (_ & n & Htop & Hroot & Hok & <- & _). unfold Get, find.
  rewrite interp_bind by auto with reads. rewrite (interp_read rd m n Htop Hroot), Hroot.
  rewrite (findLoop_ok rd m n Htop Hroot (level n)) by done. by destruct (klookup key k _).
Qed.

(** [Get] is lookup: on a map whose tree reads as the sorted entries [es], whatever its
    height, [Get] of any key returns the value of the entry with that key, read
    through its stream if it is long, and "absent" when no entry has the key. *)
Theorem get_is_lookup rd m es k :
  map_ok rd m es ->
  Get rd m k = match klookup key k es with
               | None => Ok None
               | Some e => match materialize rd m (val e) with Ok b => Ok (Some b) | Err e => Err e end
               end.
Proof. apply Get_ok. Qed.

(** *** Ranges *)

Definition below (hi : option bytes) (e : entry) : bool :=
  match hi with Some h => bltb (key e) h | None => true end.

Definition in_range (lo : bytes) (hi : option bytes) (e : entry) : bool := negb (bltb (key e) lo) && below hi e.

(** An entry as a client sees it. *)
Definition item (rd : creader) (m : Map) (e : entry) : res (bytes * bytes) :=
  match materialize rd m (val e) with Ok v => Ok (key e, v) | Err x => Err x end.

Lemma leavesN_0 rd limit es : leavesN rd limit 0 es = es.
Proof. unfold leavesN. induction es as [|e es IH]; [done|]. simpl in *. by rewrite IH. Qed.

Lemma filter_none {A} (f : A -> bool) l : Forall (fun x => f x = false) l -> List.filter f l = [].
Proof. induction 1 as [|x l Hx _ IH]; [done|]. simpl. by rewrite Hx. Qed.

Lemma filter_all {A} (f : A -> bool) l : Forall (fun x => f x = true) l -> List.filter f l = l.
Proof. induction 1 as [|x l Hx _ IH]; [done|]. simpl. by rewrite Hx, IH. Qed.

Lemma nextAll_ok rd m n fuel : top m = Some n -> readN rd (InlineLimit (cfg m)) (root m) = Ok n ->
  forall c ub, curOk rd m 0 c -> ksorted key (rem rd m c) -> (length (rem rd m c) < fuel)%nat ->
  nextAll fuel rd m (mkIter c ub) = res_map (item rd m) (List.filter (below ub) (rem rd m c)).
Proof.
  intros Htop Hroot. induction fuel as [|fuel IH]; intros c ub Hc Hs Hf; [lia|]. cbn [nextAll]. unfold Next. cbn [itc].
  pose proof (valid_rem rd m 0 c Hc) as Hv. destruct (valid c) eqn:Ev; cbn [negb]; [|by rewrite Hv].
  destruct Hv as (e & es & Hr & Hcur). rewrite Hcur. cbn [hi].
  rewrite Hr in *. apply ksorted_cons in Hs as [Hes Hs]. cbn [List.filter].
  assert ((match ub with Some h => negb (bltb (key e) h) | None => false end) = negb (below ub e)) as ->
    by (by destruct ub).
  destruct (below ub e) eqn:Eb; cbn [negb].
  - cbn [res_map]. unfold item at 1. destruct (materialize rd m (val e)) as [v|]; [|done].
    destruct (advance_ok rd m n Htop Hroot c 0 Hc) as (c' & -> & Hc' & Hrem & _). rewrite Hr in Hrem. cbn [tail] in Hrem.
    rewrite IH; rewrite ?Hrem; [|done|done|simpl in Hf; lia].
    by destruct (res_map (item rd m) (List.filter (below ub) es)).
  - rewrite filter_none; [done|]. eapply Forall_impl; [exact Hes|]. simpl. intros x Hx. destruct ub as [h|]; [|done]. simpl in *.
    destruct (bltb_spec (key x) h) as [Hlt|]; [|done]. destruct (bltb_spec (key e) h) as [|Hn]; [done|]. destruct Hn. border.
Qed.

Lemma IterRange_ok rd m es lo hi : map_ok rd m es ->
  exists c pre, interp rd (IterRange m lo hi) = Ok (mkIter c hi) /\ curOk rd m 0 c /\ es = pre ++ rem rd m c /\
    Forall (fun e => key e <b lo) pre /\ Forall (fun e => lo <=b key e) (rem rd m c).
Proof.
  intros Hm. destruct (seek_ok rd m es 0 lo Hm ltac:(lia)) as (c & Hseek & [Hc (f & ps & pre & -> & Hi & Hend & Hne & Hes & Hpre & Hab)] & _).
  destruct Hm as (_ & n & Htop & Hroot & _). unfold IterRange. rewrite interp_bind by auto with reads. rewrite Hseek.
  cbv iota beta zeta. destruct Hc as [?|[Hok Hrest]]; [congruence|]. pose proof Hok as (Hl & Hf & Hs). rewrite leavesN_0 in Hs.
  destruct (search_spec (fn f) lo Hs) as (es1 & es2 & Ees & Esr & H1 & H2). rewrite Esr.
  set (T := concat (map (kids rd (InlineLimit (cfg m))) (tail (rem rd m ps)))).
  assert (Forall (fun e => lo <=b key e) T) as HT by (rewrite <-leavesN_kids, leavesN_0 in Hab; exact Hab).
  assert (es = (pre ++ es1) ++ es2 ++ T) as Hes2.
  { rewrite Hes, leavesN_0. simpl. rewrite Hend, Hi, drop_0, Ees, <-!app_assoc. done. }
  assert (Forall (fun e => key e <b lo) (pre ++ es1)) as Hpre' by (by apply Forall_app).
  assert (forall i, (i < length (entries (fn f)))%nat -> curOk rd m 0 (mkFrame (fn f) i (fend f) :: ps)) as Hcok.
  { intros i Hlt. right. split; [done|]. destruct ps; [by left|]. destruct Hrest as (_ & ? & ?). by split_and!. }
  destruct es2 as [|e es2].
  - rewrite app_nil_r in Ees. rewrite Ees, Nat.eqb_refl.
    destruct (decide (es1 = [])) as [->|Hn1].
    + simpl. exists (mkFrame (fn f) 0 (fend f) :: ps), pre. split; [done|].
      assert (ps = []) as ->. { destruct ps; [done|]. by destruct Hne. }
      split_and!; try done; [|rewrite app_nil_r in Hes2|]; simpl; rewrite Hend, Ees; simpl; [|done|constructor].
      right. split; [done|]. by right.
    + rewrite (proj2 (Nat.ltb_lt _ _)) by (destruct es1; simpl; [done|lia]). cbn [andb].
      destruct (advance_ok rd m n Htop Hroot _ 0 (Hcok (length es1 - 1)%nat ltac:(rewrite Ees; destruct es1; simpl; [done|lia])))
        as (c' & Hadv & Hc' & Hrem & _).
      rewrite interp_bind by auto with reads. rewrite Hadv. exists c', (pre ++ es1).
      assert (rem rd m c' = T) as Hr.
      { rewrite Hrem. simpl. rewrite Hend, Ees. destruct (drop_lt es1 (length es1 - 1)) as (x & _ & ->);
          [destruct es1; simpl; [done|lia]|]. simpl. rewrite drop_ge by lia. done. }
      rewrite Hr. by split_and!.
  - rewrite Ees, length_app, (proj2 (Nat.eqb_neq _ _)) by (simpl; lia). cbn [andb].
    exists (mkFrame (fn f) (length es1) (fend f) :: ps), (pre ++ es1).
    assert (rem rd m (mkFrame (fn f) (length es1) (fend f) :: ps) = (e :: es2) ++ T) as ->.
    { simpl. rewrite Hend, Ees, drop_app_length. done. }
    split_and!; try done; [apply Hcok; rewrite Ees, length_app; simpl; lia|by apply Forall_app].
Qed.

Lemma range_ok rd m es lo hi :
  map_ok rd m es ->
  range rd m lo hi = res_map (item rd m) (List.filter (in_range lo hi) es).
Proof.
  intros Hm. destruct (IterRange_ok rd m es lo hi Hm) as (c & pre & Hit & Hc & -> & Hpre & Hab).
  pose proof Hm as (Hrule & n & Htop & Hroot & Hok & Hes & Hcount & _).
  unfold range. rewrite Hit.
  assert (ksorted key (pre ++ rem rd m c)) as Hs by (rewrite <-Hes; apply Hok).
  rewrite (nextAll_ok rd m n _ Htop Hroot c hi Hc).
  - rewrite List.filter_app, (filter_none _ pre).
    + simpl. f_equal. clear -Hab. induction Hab as [|x l Hx _ IH]; [done|]. simpl. rewrite IH. unfold in_range.
      destruct (bltb_spec (key x) lo) as [Hlt|]; [exfalso; border|done].
    + eapply Forall_impl; [exact Hpre|]. simpl. intros x Hx. unfold in_range. by rewrite (proj2 (bltb_true _ _) Hx).
  - by apply ksorted_app in Hs as (_ & _ & ?).
  - rewrite Hcount, (total_leaves rd (InlineLimit (cfg m)) (level n)) with (h := root m); try done.
    + rewrite Hes, length_app. lia.
    + by eapply rule_limit.
Qed.

(** A range iterator yields the range: on a map that reads as the sorted entries [es], the loop
    over [Next] of [IterRange(lo, hi)] returns every entry with [lo <= key < hi] ([nil] unbounded), in key
    order, each with its value read, across all the nodes the range spans; it stops with the error
    of the first value it cannot read. *)
Theorem iteration_is_range rd m es lo hi :
  map_ok rd m es ->
  range rd m lo hi = res_map (item rd m) (List.filter (in_range lo hi) es).
Proof. apply range_ok. Qed.

(** ** Examples *)

Section Example.
#[local] Existing Instance toy_hasher.

Definition leafEntry (k v : bytes) : entry := mkEntry k (VInline v) zero_hash 0.
Definition upEntry (n : node) : entry := mkEntry (lastKey n) (VInline []) (Sum (encode n)) (total n).

(** A reader over a few nodes. *)
Definition nodesReader (ns : list node) : creader := fun h =>
  match List.find (fun n => bool_decide (Sum (encode n) = h)) ns with
  | Some n => Ok (encode n)
  | None => Err ChunkNotFound
  end.

Definition exLeaf1 : node := mkNode 0 [leafEntry (str "a") (str "1"); leafEntry (str "b") (str "2")].
Definition exLeaf2 : node := mkNode 0 [leafEntry (str "m") (str "3")].
Definition exLeaf3 : node := mkNode 0 [leafEntry (str "m") (str "4"); leafEntry (str "z") (str "5")].
Definition exRootOf (l1 l2 : node) : node := mkNode 1 [upEntry l1; upEntry l2].
Definition exReader : creader :=
  nodesReader [exLeaf1; exLeaf2; exLeaf3; exRootOf exLeaf1 exLeaf2; exRootOf exLeaf1 exLeaf3].

Definition exRule : Boundary.Rule :=
  match Boundary.New Boundary.DefaultGeometry with Ok r => r | Err _ => Boundary.mkRule Boundary.DefaultGeometry 0 0 end.

(** Two maps that share their first leaf. *)
Definition exMapOf (l1 l2 : node) : Map :=
  mkMap DefaultConfig exRule (Sum (encode (exRootOf l1 l2))) (total (exRootOf l1 l2)) 1 (Some (exRootOf l1 l2)) false zero_hash [].
Definition exMap : Map := exMapOf exLeaf1 exLeaf2.
Definition exMap2 : Map := exMapOf exLeaf1 exLeaf3.

Lemma exMap_opens : interp exReader (Open DefaultConfig (root exMap)) = Ok exMap.
Proof. vm_compute. reflexivity. Qed.

Lemma exMapOf_ok l1 l2 :
  rule DefaultConfig = Ok exRule ->
  readN exReader 262144 (ProllyNode.child (upEntry l1)) = Ok l1 -> readN exReader 262144 (ProllyNode.child (upEntry l2)) = Ok l2 ->
  readN exReader 262144 (Sum (encode (exRootOf l1 l2))) = Ok (exRootOf l1 l2) ->
  level l1 = 0%nat -> level l2 = 0%nat -> entries l1 <> [] -> entries l2 <> [] ->
  ksorted key (entries l1 ++ entries l2) -> map_ok exReader (exMapOf l1 l2) (entries l1 ++ entries l2).
Proof.
  intros Hr H1 H2 H3 L1 L2 N1 N2 Hs. pose proof Hs as (_ & Hs1 & Hs2)%ksorted_app.
  assert (leavesN exReader 262144 1 (entries (exRootOf l1 l2)) = entries l1 ++ entries l2) as Hl.
  { unfold leavesN. simpl entries. cbn [map concat leaves]. unfold kids. rewrite H1, H2, app_nil_r.
    f_equal; apply (leavesN_0 exReader 262144). }
  split; [exact Hr|]. exists (exRootOf l1 l2). change (InlineLimit (cfg (exMapOf l1 l2))) with 262144.
  change (level (exRootOf l1 l2)) with 1%nat.
  assert (forall l, readN exReader 262144 (ProllyNode.child (upEntry l)) = Ok l -> level l = 0%nat -> entries l <> [] ->
    ksorted key (entries l) -> okE exReader 262144 1 (upEntry l)) as Hok.
  { intros l Hrd Hl0 Hn Hsl. exists l. rewrite leavesN_0.
    repeat (split; [first [exact Hrd|exact Hl0|exact Hn|reflexivity]|]). split; [by apply Forall_true|exact Hsl]. }
  split; [reflexivity|]. split; [exact H3|]. split.
  { split; [reflexivity|]. split; [|by rewrite Hl]. constructor; [by apply Hok|]. constructor; [by apply Hok|constructor]. }
  split; [exact Hl|]. split; [reflexivity|]. split; [reflexivity|]. right. simpl. lia.
Qed.

Ltac ex_map := apply exMapOf_ok; try (vm_compute; reflexivity); try discriminate; repeat constructor.

Lemma exMap_ok : map_ok exReader exMap (entries exLeaf1 ++ entries exLeaf2).
Proof. ex_map. Qed.

Lemma exMap2_ok : map_ok exReader exMap2 (entries exLeaf1 ++ entries exLeaf3).
Proof. ex_map. Qed.

Lemma get_is_lookup_witness :
  Get exReader exMap (str "m") = Ok (Some (str "3")) /\ Get exReader exMap (str "c") = Ok None.
Proof. split; rewrite (get_is_lookup exReader exMap _ _ exMap_ok); vm_compute; reflexivity. Defined.

Lemma iteration_is_range_witness :
  range exReader exMap (str "b") None = Ok [(str "b", str "2"); (str "m", str "3")].
Proof. rewrite (iteration_is_range exReader exMap _ (str "b") None exMap_ok). vm_compute. reflexivity. Defined.

(** Two internal nodes whose leaves overlap: the second one's first leaf holds
    "b", although its parent's previous entry ends at "m". *)
Definition ovA : node := mkNode 0 [leafEntry (str "a") (str "1")].
Definition ovB : node := mkNode 0 [leafEntry (str "m") (str "2")].
Definition ovC : node := mkNode 0 [leafEntry (str "b") (str "3"); leafEntry (str "n") (str "4")].
Definition ovD : node := mkNode 0 [leafEntry (str "z") (str "5")].
Definition ovLeft : node := mkNode 1 [upEntry ovA; upEntry ovB].
Definition ovRight : node := mkNode 1 [upEntry ovC; upEntry ovD].
Definition ovRoot : node := mkNode 2 [upEntry ovLeft; upEntry ovRight].
Definition ovReader : creader := nodesReader [ovA; ovB; ovC; ovD; ovLeft; ovRight; ovRoot].

(** C40. The checks of a read do not catch children that overlap below an internal child: [checkChild]
    compares the previous entry's key with the child's first entry, which above the leaves is the
    last key under that child's first child. A tree of height 2 whose leaf keys are not in
    order opens, and its whole iteration succeeds and yields the keys out of order, one of which [Get]
    then calls absent. *)
Theorem overlap_below_an_internal_child_is_not_caught :
  exists m, interp ovReader (Open DefaultConfig (Sum (encode ovRoot))) = Ok m /\
    range ovReader m [] None =
      Ok [(str "a", str "1"); (str "m", str "2"); (str "b", str "3"); (str "n", str "4"); (str "z", str "5")] /\
    Get ovReader m (str "b") = Ok None.
Proof.
  destruct (is_Ok_inv (interp ovReader (Open DefaultConfig (Sum (encode ovRoot))))) as [m Hm]; [vm_compute; reflexivity|].
  exists m. split; [done|].
  assert (match interp ovReader (Open DefaultConfig (Sum (encode ovRoot))) with
    | Ok m => range ovReader m [] None =
        Ok [(str "a", str "1"); (str "m", str "2"); (str "b", str "3"); (str "n", str "4"); (str "z", str "5")] /\
        Get ovReader m (str "b") = Ok None
    | Err _ => False end) as H by (vm_compute; split; reflexivity).
  by rewrite Hm in H.
Qed.
End Example.
