(* ===== verification/ProllyDiff.v ===== *)
(** * core/prolly: the diff of two maps

    [Diff] walks two trees in key order and skips, at the highest level where
    they match, the subtrees the two share. The theorem: whatever it skips,
    the changes it reports are those of a plain merge of the two maps' entries. *)

From S2P Require Import Prelude Wire Hash ChunkStore Prog ProllyNode Prolly.

Inductive ChangeKind := Added | Removed | Modified.

#[export] Instance ChangeKind_eq_dec : EqDecision ChangeKind.
Proof. solve_decision. Defined.

Record Change := mkChange { Kind : ChangeKind; Key : bytes; From : option bytes; To : option bytes }.

(** The two cursors; [None] for maps with equal roots. *)
Record DiffIter := mkDiff { dA : Map; dB : Map; curs : option (cursor * cursor) }.

Definition Diff (from to : Map) : prog DiffIter :=
  if bool_decide (root from = root to) then mret (mkDiff from to None)
  else
    a ← seek from 0 [];
    b ← seek to 0 [];
    mret (mkDiff from to (Some (a, b))).

Definition levelOf (c : cursor) : nat := match c with [] => 0%nat | f :: _ => level (fn f) end.

Definition equalItems (a b : cursor) : bool :=
  match current a, current b with
  | Some x, Some y =>
      bool_decide (key x = key y) &&
      (if (0 <? levelOf a)%nat then bool_decide (ProllyNode.child x = ProllyNode.child y)
       else value_equal (val x) (val y))
  | _, _ => false
  end.

(** What [skipCommonParents] does to one cursor once its parent has moved. *)
Definition refetch (m : Map) (c ps : cursor) : prog cursor :=
  match c with
  | [] => mret []
  | f :: _ => if negb (valid ps) then mret (mkFrame (fn f) (fi f) true :: ps) else fetch m f ps
  end.

(** [skipCommon], with [skipCommonParents] in place. Every round takes at least
    one entry of the level, and a call on the parents is one level up. *)
Fixpoint skipCommon (fuel : nat) (mA mB : Map) (a b : cursor) (parentsAreNew : bool) : prog (cursor * cursor) :=
  if negb (valid a && valid b && equalItems a b) then mret (a, b)
  else match fuel with
  | O => pFail (EMsg "no fuel")
  | S fuel =>
      if parentsAreNew && valid (tail a) && valid (tail b) && equalItems (tail a) (tail b) then
        ps ← skipCommon fuel mA mB (tail a) (tail b) true;
        a ← refetch mA a ps.1;
        b ← refetch mB b ps.2;
        skipCommon fuel mA mB a b parentsAreNew
      else
        let parentsAreNew := atNodeEnd a || atNodeEnd b in
        a ← advance mA a;
        b ← advance mB b;
        skipCommon fuel mA mB a b parentsAreNew
  end.

(** The entries of the first map and its levels bound every call's rounds. *)
Definition skipFuel (m : Map) : nat := (Z.to_nat (mcount m) + height m + 2)%nat.

(** [send] for one side: its value, and the cursor moved past it. *)
Definition sendSide (rd : creader) (m : Map) (c : cursor) : res (bytes * bytes * cursor) :=
  match current c with
  | None => Err (EMsg "index out of range")
  | Some e =>
      match materialize rd m (val e) with
      | Err x => Err x
      | Ok v => match interp rd (advance m c) with
                | Err x => Err x
                | Ok c => Ok (key e, v, c)
                end
      end
  end.

(** [Next]'s loop: a round that does not return takes an entry of each side. *)
Fixpoint nextLoop (fuel : nat) (rd : creader) (mA mB : Map) (a b : cursor) : res (option Change * (cursor * cursor)) :=
  match fuel with
  | O => Err (EMsg "no fuel")
  | S fuel =>
      let fv := valid a in
      let tv := valid b in
      if negb fv && negb tv then Ok (None, (a, b))
      else
        let cmp := if negb tv then Lt else if negb fv then Gt
                   else match current a, current b with
                        | Some x, Some y => bcompare (key x) (key y)
                        | _, _ => Eq
                        end in
        match cmp with
        | Lt =>
            match sendSide rd mA a with
            | Err x => Err x
            | Ok (k, v, a) => Ok (Some (mkChange Removed k (Some v) None), (a, b))
            end
        | Gt =>
            match sendSide rd mB b with
            | Err x => Err x
            | Ok (k, v, b) => Ok (Some (mkChange Added k None (Some v)), (a, b))
            end
        | Eq =>
            match current a, current b with
            | Some x, Some y =>
                if negb (value_equal (val x) (val y)) then
                  match sendSide rd mA a with
                  | Err x => Err x
                  | Ok (_, v, a) =>
                      match sendSide rd mB b with
                      | Err x => Err x
                      | Ok (k, w, b) => Ok (Some (mkChange Modified k (Some v) (Some w)), (a, b))
                      end
                  end
                else
                  match interp rd (advance mA a) with
                  | Err x => Err x
                  | Ok a =>
                      match interp rd (advance mB b) with
                      | Err x => Err x
                      | Ok b =>
                          match interp rd (skipCommon (skipFuel mA) mA mB a b true) with
                          | Err x => Err x
                          | Ok (a, b) => nextLoop fuel rd mA mB a b
                          end
                      end
                  end
            | _, _ => Err (EMsg "index out of range")
            end
        end
  end.

Definition DNext (rd : creader) (d : DiffIter) : res (option Change * DiffIter) :=
  match curs d with
  | None => Ok (None, d)
  | Some (a, b) =>
      match nextLoop (Z.to_nat (mcount (dA d)) + 2) rd (dA d) (dB d) a b with
      | Err x => Err x
      | Ok (ch, ab) => Ok (ch, mkDiff (dA d) (dB d) (Some ab))
      end
  end.

(** A caller's loop over [Next]. *)
Fixpoint diffAll (fuel : nat) (rd : creader) (d : DiffIter) : res (list Change) :=
  match fuel with
  | O => Err (EMsg "no fuel")
  | S fuel =>
      match DNext rd d with
      | Err x => Err x
      | Ok (None, _) => Ok []
      | Ok (Some c, d) => match diffAll fuel rd d with Ok l => Ok (c :: l) | Err x => Err x end
      end
  end.

Definition changesOf (rd : creader) (from to : Map) : res (list Change) :=
  match interp rd (Diff from to) with
  | Err x => Err x
  | Ok d => diffAll (Z.to_nat (mcount from) + Z.to_nat (mcount to) + 1) rd d
  end.

(** ** The reference: a merge of two sorted lists of entries *)

(** One difference: the entry on each side. *)
Definition delta : Type := option entry * option entry.

Fixpoint deltas (x : list entry) : list entry -> list delta :=
  fix go (y : list entry) : list delta :=
    match x, y with
    | [], [] => []
    | e :: x, [] => (Some e, None) :: deltas x []
    | [], f :: y => (None, Some f) :: go y
    | e :: x', f :: y' =>
        match bcompare (key e) (key f) with
        | Lt => (Some e, None) :: deltas x' (f :: y')
        | Gt => (None, Some f) :: go y'
        | Eq => if value_equal (val e) (val f) then deltas x' y' else (Some e, Some f) :: deltas x' y'
        end
    end.

(** A difference as a client sees it. *)
Definition change (rd : creader) (mA mB : Map) (d : delta) : res Change :=
  match d with
  | (Some e, None) => match materialize rd mA (val e) with Ok v => Ok (mkChange Removed (key e) (Some v) None) | Err x => Err x end
  | (None, Some f) => match materialize rd mB (val f) with Ok v => Ok (mkChange Added (key f) None (Some v)) | Err x => Err x end
  | (Some e, Some f) =>
      match materialize rd mA (val e) with
      | Err x => Err x
      | Ok v => match materialize rd mB (val f) with
                | Err x => Err x
                | Ok w => Ok (mkChange Modified (key f) (Some v) (Some w))
                end
      end
  | (None, None) => Err (EMsg "no change")
  end.

Definition kv (e : entry) : bytes * value := (key e, val e).

(** The deltas of two lists depend on the entries' keys and values only, and
    entries the two share at the front cancel. *)
Lemma deltas_nil_l y : deltas [] y = map (fun f => (None, Some f)) y.
Proof. induction y as [|f y IH]; [done|]. simpl. by rewrite <-IH. Qed.

Lemma deltas_cons e x f y : deltas (e :: x) (f :: y) =
  match bcompare (key e) (key f) with
  | Lt => (Some e, None) :: deltas x (f :: y)
  | Gt => (None, Some f) :: deltas (e :: x) y
  | Eq => if value_equal (val e) (val f) then deltas x y else (Some e, Some f) :: deltas x y
  end.
Proof. done. Qed.

Lemma deltas_skip cs ds x y : map kv cs = map kv ds -> deltas (cs ++ x) (ds ++ y) = deltas x y.
Proof.
  revert ds. induction cs as [|e cs IH]; intros [|f ds]; simpl map; try done.
  intros [= Hk Hv Hr]. rewrite <-!app_comm_cons, deltas_cons, Hk, bcompare_refl, Hv.
  rewrite (proj2 (value_equal_true _ _)) by done. by apply IH.
Qed.

Definition dkey (d : delta) : bytes :=
  match d with (Some e, _) => key e | (None, Some f) => key f | (None, None) => [] end.

Lemma ksorted_above e (l : list entry) f : ksorted key (f :: l) -> key e <b key f -> Forall (fun x => key e <b key x) (f :: l).
Proof.
  intros [Hf _]%ksorted_cons Hlt. constructor; [done|]. eapply Forall_impl; [exact Hf|]. simpl. intros x Hx. border.
Qed.

Definition delta_at (x y : list entry) (k : bytes) : delta := (klookup key k x, klookup key k y).
Definition differs (d : delta) : Prop := (val <$> d.1) <> (val <$> d.2).

Lemma delta_at_cons x y e f k :
  delta_at (e :: x) (f :: y) k =
  (if decide (key e = k) then Some e else klookup key k x, if decide (key f = k) then Some f else klookup key k y).
Proof. unfold delta_at. by rewrite !klookup_cons. Qed.

(** What the merge reports: exactly the keys whose values differ, with the entries
    of both sides. *)
Lemma deltas_complete n : forall x y d, (length x + length y <= n)%nat -> ksorted key x -> ksorted key y ->
  d ∈ deltas x y <-> exists k, d = delta_at x y k /\ differs d.
Proof.
  induction n as [|n IH]; intros [|e x] [|f y] d Hn Hx Hy; simpl in Hn; try lia.
  - rewrite elem_of_nil. split; [done|]. by intros (k & -> & []).
  - rewrite elem_of_nil. split; [done|]. by intros (k & -> & []).
  - apply ksorted_cons in Hy as [Hfy Hy].
    assert (deltas [] (f :: y) = (None, Some f) :: deltas [] y) as -> by done.
    rewrite elem_of_cons, (IH [] y) by (simpl; done || lia || constructor).
    split.
    + intros [->|(k & -> & Hd)]; [exists (key f)|exists k]; unfold delta_at in *; rewrite klookup_cons.
      * by rewrite decide_True.
      * rewrite decide_False; [done|]. intros <-. rewrite (klookup_above _ y) in Hd by done. by destruct Hd.
    + intros (k & -> & Hd). unfold delta_at in *. rewrite klookup_cons in *. case_decide; [by left|]. right. by exists k.
  - apply ksorted_cons in Hx as [Hex Hx].
    assert (deltas (e :: x) [] = (Some e, None) :: deltas x []) as -> by done.
    rewrite elem_of_cons, (IH x []) by (simpl; done || lia || constructor).
    split.
    + intros [->|(k & -> & Hd)]; [exists (key e)|exists k]; unfold delta_at in *; rewrite klookup_cons.
      * by rewrite decide_True.
      * rewrite decide_False; [done|]. intros <-. rewrite (klookup_above _ x) in Hd by done. by destruct Hd.
    + intros (k & -> & Hd). unfold delta_at in *. rewrite klookup_cons in *. case_decide; [by left|]. right. by exists k.
  - rewrite deltas_cons. pose proof Hx as Hx0. pose proof Hy as Hy0.
    apply ksorted_cons in Hx as [Hex Hx]. apply ksorted_cons in Hy as [Hfy Hy].
    destruct (bcompare_spec (key e) (key f)) as [E|Hlt|Hgt].
    + assert (forall k, k <> key e -> delta_at (e :: x) (f :: y) k = delta_at x y k) as Hne.
      { intros k Hk. rewrite delta_at_cons, !decide_False by congruence. done. }
      assert (delta_at (e :: x) (f :: y) (key e) = (Some e, Some f)) as Heq by (rewrite delta_at_cons, !decide_True; done).
      assert (~ differs (delta_at x y (key e))) as Hnd.
      { unfold differs, delta_at. simpl. rewrite klookup_above by done. rewrite klookup_above; [tauto|]. by rewrite E. }
      destruct (value_equal (val e) (val f)) eqn:Ev.
      * apply value_equal_true in Ev. rewrite (IH x y) by (done || lia). split.
        -- intros (k & -> & Hd). exists k. rewrite Hne; [done|]. by intros ->.
        -- intros (k & -> & Hd). destruct (decide (k = key e)) as [->|Hk].
           ++ rewrite Heq in Hd. destruct Hd. simpl. by rewrite Ev.
           ++ exists k. rewrite Hne in * by done. done.
      * rewrite elem_of_cons, (IH x y) by (done || lia). split.
        -- intros [->|(k & -> & Hd)].
           ++ exists (key e). rewrite Heq. split; [done|]. intros Hv. simpl in Hv.
              assert (val e = val f) as Hv2%value_equal_true by congruence. congruence.
           ++ exists k. rewrite Hne; [done|]. by intros ->.
        -- intros (k & -> & Hd). destruct (decide (k = key e)) as [->|Hk]; [left; by rewrite Heq|].
           right. exists k. rewrite Hne in * by done. done.
    + assert (klookup key (key e) (f :: y) = None) as Hn0 by (by apply klookup_above, ksorted_above).
      assert (klookup key (key e) x = None) as Hn1 by (by apply klookup_above).
      rewrite elem_of_cons, (IH x (f :: y)) by (done || simpl; lia). split.
      * intros [->|(k & -> & Hd)].
        -- exists (key e). unfold delta_at. by rewrite Hn0, klookup_cons, decide_True.
        -- exists k. unfold delta_at in *. rewrite (klookup_cons key k e). rewrite decide_False; [done|].
           intros <-. by rewrite Hn0, Hn1 in Hd.
      * intros (k & -> & Hd). unfold delta_at in *. rewrite (klookup_cons key k e) in *. case_decide as Hk.
        -- left. subst k. by rewrite Hn0.
        -- right. by exists k.
    + assert (klookup key (key f) (e :: x) = None) as Hn0 by (by apply klookup_above, ksorted_above).
      assert (klookup key (key f) y = None) as Hn1 by (by apply klookup_above).
      rewrite elem_of_cons, (IH (e :: x) y) by (done || simpl; lia). split.
      * intros [->|(k & -> & Hd)].
        -- exists (key f). unfold delta_at. by rewrite Hn0, klookup_cons, decide_True.
        -- exists k. unfold delta_at in *. rewrite (klookup_cons key k f). rewrite decide_False; [done|].
           intros <-. by rewrite Hn0, Hn1 in Hd.
      * intros (k & -> & Hd). unfold delta_at in *. rewrite (klookup_cons key k f) in *. case_decide as Hk.
        -- left. subst k. by rewrite Hn0.
        -- right. by exists k.
Qed.

Lemma deltas_sorted x y : ksorted key x -> ksorted key y -> ksorted dkey (deltas x y).
Proof.
  intros Hx Hy. assert (forall n x y k, (length x + length y <= n)%nat -> ksorted key x -> ksorted key y ->
    (Forall (fun e => k <b key e) x -> Forall (fun e => k <b key e) y -> Forall (fun d => k <b dkey d) (deltas x y)) /\
    ksorted dkey (deltas x y)) as Hgen; [|by eapply (Hgen _ x y [])].
  clear. induction n as [|n IH]; intros [|e x] [|f y] k Hn Hx Hy; simpl in Hn; try lia; try (by split; [intros|]; constructor).
  - apply ksorted_cons in Hy as [Hfy Hy]. destruct (IH [] y k) as [H1 _]; [simpl; lia|done|done|].
    destruct (IH [] y (key f)) as [H2 H3]; [simpl; lia|done|done|].
    change (deltas [] (f :: y)) with ((None, Some f) :: deltas [] y). split.
    + intros _ [Hf Hfs]%Forall_cons. constructor; auto.
    + apply ksorted_cons. auto.
  - apply ksorted_cons in Hx as [Hex Hx]. destruct (IH x [] k) as [H1 _]; [simpl; lia|done|done|].
    destruct (IH x [] (key e)) as [H2 H3]; [simpl; lia|done|done|].
    change (deltas (e :: x) []) with ((Some e, None) :: deltas x []). split.
    + intros [He Hes]%Forall_cons _. constructor; auto.
    + apply ksorted_cons. auto.
  - pose proof Hx as [Hex Hx']%ksorted_cons. pose proof Hy as [Hfy Hy']%ksorted_cons.
    rewrite deltas_cons. destruct (bcompare_spec (key e) (key f)) as [E|Hlt|Hgt].
    + destruct (IH x y k) as [H1 H2]; [lia|done|done|]. destruct (IH x y (key e)) as [H3 _]; [lia|done|done|].
      rewrite <-E in Hfy. destruct (value_equal _ _); split; try done.
      * intros [_ Hxs]%Forall_cons [_ Hys]%Forall_cons. auto.
      * intros [He Hxs]%Forall_cons [_ Hys]%Forall_cons. constructor; auto.
      * apply ksorted_cons. auto.
    + destruct (IH x (f :: y) k) as [H1 H2]; [simpl; lia|done|done|].
      destruct (IH x (f :: y) (key e)) as [H3 _]; [simpl; lia|done|done|]. split.
      * intros [He Hxs]%Forall_cons Hys. constructor; auto.
      * apply ksorted_cons. split; [|done]. apply H3; [done|]. by apply ksorted_above.
    + destruct (IH (e :: x) y k) as [H1 H2]; [simpl; lia|done|done|].
      destruct (IH (e :: x) y (key f)) as [H3 _]; [simpl; lia|done|done|]. split.
      * intros Hxs [Hf Hys]%Forall_cons. constructor; auto.
      * apply ksorted_cons. split; [|done]. apply H3; [|done]. by apply ksorted_above.
Qed.

(** *** Skipping *)

Section Skipping.
Context (rd : creader) (mA mB : Map) (nA nB : node).
Hypothesis HtopA : top mA = Some nA.
Hypothesis HtopB : top mB = Some nB.
Hypothesis HrootA : readN rd (InlineLimit (cfg mA)) (root mA) = Ok nA.
Hypothesis HrootB : readN rd (InlineLimit (cfg mB)) (root mB) = Ok nB.
Hypothesis Hlimit : InlineLimit (cfg mB) = InlineLimit (cfg mA).
Abbreviation limit := (InlineLimit (cfg mA)).
Abbreviation remA := (rem rd mA).
Abbreviation remB := (rem rd mB).

Lemma equalItems_leaves lv a b ea eas eb ebs :
  curOk rd mA lv a -> curOk rd mB lv b -> remA a = ea :: eas -> remB b = eb :: ebs ->
  valid a = true -> valid b = true -> equalItems a b = true ->
  key ea = key eb /\ (lv <> 0%nat -> ProllyNode.child ea = ProllyNode.child eb) /\
  map kv (leaves rd limit lv ea) = map kv (leaves rd limit lv eb).
Proof.
  intros Ha Hb Hra Hrb Va Vb He.
  pose proof (valid_rem rd mA lv a Ha) as H1. rewrite Va in H1. destruct H1 as (x & xs & Hx & Hcx). rewrite Hra in Hx. injection Hx as <- <-.
  pose proof (valid_rem rd mB lv b Hb) as H2. rewrite Vb in H2. destruct H2 as (y & ys & Hy & Hcy). rewrite Hrb in Hy. injection Hy as <- <-.
  unfold equalItems in He. rewrite Hcx, Hcy in He. apply andb_prop in He as [Hk%bool_decide_eq_true He].
  assert (levelOf a = lv) as El.
  { destruct a as [|f ps]; [done|]. simpl in *. destruct Ha as [E|[(Hl & _) _]]; [by rewrite E in Va|done]. }
  rewrite El in He. destruct lv as [|lv]; simpl in He.
  - apply value_equal_true in He. split_and!; [done|lia|]. unfold kv. simpl. by rewrite Hk, He.
  - apply bool_decide_eq_true in He. split_and!; [done|done|]. simpl. unfold kids. by rewrite He.
Qed.

Lemma refetch_ok m n (Htop : top m = Some n) (Hroot : readN rd (InlineLimit (cfg m)) (root m) = Ok n) lv f ps0 ps :
  curOk rd m (S lv) ps -> fend f = false ->
  exists c, interp rd (refetch m (f :: ps0) ps) = Ok c /\ curOk rd m lv c /\
    rem rd m c = concat (map (kids rd (InlineLimit (cfg m))) (rem rd m ps)) /\ length c = S (length ps).
Proof.
  intros Hps Hf. unfold refetch. pose proof (valid_rem rd m _ _ Hps) as Hv. destruct (valid ps) eqn:Ev; simpl negb; cbv iota.
  - destruct Hv as (pe & pes & Hr & _). destruct (fetch_ok rd m n Htop Hroot lv f ps pe pes Hps Hr Hf) as (c & Hc & Hok & Hrem & _).
    exists (mkFrame c 0 false :: ps). rewrite Hrem, Hr. done.
  - eexists. split; [done|]. split; [by left|]. simpl. by rewrite Hv.
Qed.

Lemma refetch_reads m c ps : reads_only (refetch m c ps).
Proof. destruct c; [done|]. simpl. destruct (negb (valid ps)); [done|]. apply fetch_reads. Qed.

Lemma skipCommon_reads fuel : forall a b isNew, reads_only (skipCommon fuel mA mB a b isNew).
Proof.
  induction fuel as [|fuel IH]; intros a b isNew; cbn [skipCommon]; destruct (negb _); try done.
  destruct (_ && equalItems (tail a) (tail b)).
  - apply reads_bind; [apply IH|]. intros ps. apply reads_bind; [apply refetch_reads|]. intros a'.
    apply reads_bind; [apply refetch_reads|]. auto.
  - apply reads_bind; [apply advance_reads|]. intros a'. apply reads_bind; [apply advance_reads|]. auto.
Qed.

(** The two cursors leave behind the same leaf entries. *)
Definition skipped (lv : nat) (a b a' b' : cursor) : Prop :=
  curOk rd mA lv a' /\ curOk rd mB lv b' /\
  exists X Y, remA a = X ++ remA a' /\ remB b = Y ++ remB b' /\
    map kv (leavesN rd limit lv X) = map kv (leavesN rd limit lv Y) /\
    (valid a = true -> valid b = true -> equalItems a b = true -> X <> [] /\ Y <> []).

Lemma skipped_trans lv a b a1 b1 a2 b2 X1 Y1 :
  remA a = X1 ++ remA a1 -> remB b = Y1 ++ remB b1 -> X1 <> [] -> Y1 <> [] ->
  map kv (leavesN rd limit lv X1) = map kv (leavesN rd limit lv Y1) ->
  skipped lv a1 b1 a2 b2 -> skipped lv a b a2 b2.
Proof.
  intros Ha Hb HX HY He (Hoka & Hokb & X & Y & HXa & HYb & Heq & _). split_and!; try done.
  exists (X1 ++ X), (Y1 ++ Y). rewrite Ha, Hb, HXa, HYb, !leavesN_app, !map_app, He, Heq, !app_assoc.
  split_and!; try done. intros _ _ _. by destruct X1, Y1.
Qed.

Lemma sorted_same_index (es : list entry) i j x y :
  ksorted key es -> es !! i = Some x -> es !! j = Some y -> key x = key y -> i = j.
Proof.
  intros Hs Hi Hj E. apply ksorted_NoDup in Hs. apply (NoDup_lookup (key <$> es) i j (key x)); [done|..].
  - by rewrite list_lookup_fmap, Hi.
  - by rewrite list_lookup_fmap, Hj, E.
Qed.

Lemma rem_okE m c : forall lv, curOk rd m lv c -> Forall (okE rd (InlineLimit (cfg m)) lv) (rem rd m c).
Proof.
  induction c as [|f ps IH]; intros lv; [done|]. cbn [rem]. destruct (fend f) eqn:Ef; [constructor|].
  intros [?|[(_ & Hf & _) Hi]]; [congruence|]. apply Forall_app. split; [by apply Forall_drop|].
  destruct ps as [|p ps]; [constructor|]. destruct Hi as (_ & Hps & _). specialize (IH _ Hps).
  destruct (rem rd m (p :: ps)) as [|pe pes]; [constructor|]. cbn [tail]. apply Forall_cons in IH as [_ IH].
  clear -IH. induction IH as [|x l Hx _ IHl]; [constructor|]. simpl. apply Forall_app. split; [|done].
  destruct (okE_S _ _ _ _ Hx) as (c & _ & (_ & Hc & _) & -> & _). done.
Qed.

Lemma kids_count limit lv (es : list entry) : Forall (okE rd limit (S lv)) es ->
  (length es <= length (concat (map (kids rd limit) es)))%nat.
Proof.
  induction 1 as [|x l Hx _ IH]; [done|]. simpl. rewrite length_app.
  destruct (okE_S _ _ _ _ Hx) as (c & _ & _ & -> & Hne & _). destruct (entries c); [done|]. simpl. lia.
Qed.

(** A cursor below a parent: what the parent stands at, and the rest. *)
Lemma below_parent m lv c : curOk rd m lv c -> valid c = true -> valid (tail c) = true ->
  exists f ps pe pes e, c = f :: ps /\ fend f = false /\ curOk rd m (S lv) ps /\ rem rd m ps = pe :: pes /\
    readN rd (InlineLimit (cfg m)) (ProllyNode.child pe) = Ok (fn f) /\ okN rd (InlineLimit (cfg m)) lv (fn f) /\
    entries (fn f) !! fi f = Some e /\ current c = Some e /\
    rem rd m c = drop (fi f) (entries (fn f)) ++ concat (map (kids rd (InlineLimit (cfg m))) pes) /\
    (length (rem rd m ps) <= length (rem rd m c))%nat.
Proof.
  destruct c as [|f [|p ps]]; try done. intros Hc Hv _. simpl in Hv. destruct (fend f) eqn:Ef; [done|]. simpl in Hv.
  apply Nat.ltb_lt in Hv. destruct Hc as [?|(Hok & Hi & Hps & pe & pes & Hr & Hrn)]; [congruence|].
  destruct (drop_lt _ _ Hv) as (e & He & Hd).
  pose proof (rem_okE m _ _ Hps) as Hpes. rewrite Hr in Hpes. apply Forall_cons in Hpes as [_ Hpes%kids_count].
  assert (rem rd m (f :: p :: ps) = drop (fi f) (entries (fn f)) ++ concat (map (kids rd (InlineLimit (cfg m))) pes)) as Hrem
    by (cbn [rem]; cbn [rem] in Hr; by rewrite Ef, Hr).
  exists f, (p :: ps), pe, pes, e. split_and!; try done.
  rewrite Hrem, Hr, Hd. simpl. rewrite length_app. lia.
Qed.

Lemma skip_ok fuel : forall lv a b isNew,
  curOk rd mA lv a -> curOk rd mB lv b -> (length (remA a) + length a < fuel)%nat ->
  exists a' b', interp rd (skipCommon fuel mA mB a b isNew) = Ok (a', b') /\ skipped lv a b a' b' /\ length a' = length a.
Proof.
  induction fuel as [|fuel IH]; intros lv a b isNew Ha Hb Hf; [lia|]. cbn [skipCommon].
  destruct (valid a && valid b && equalItems a b) eqn:Ev; cbn [negb].
  2: { exists a, b. split; [done|]. split; [|done]. split_and!; try done. exists [], []. split_and!; try done.
       intros Va Vb Ve. by rewrite Va, Vb, Ve in Ev. }
  apply andb_prop in Ev as [[Va Vb]%andb_prop Ve].
  pose proof (valid_rem rd mA lv a Ha) as Hra. rewrite Va in Hra. destruct Hra as (ea & eas & Hra & Hca).
  pose proof (valid_rem rd mB lv b Hb) as Hrb. rewrite Vb in Hrb. destruct Hrb as (eb & ebs & Hrb & Hcb).
  destruct (equalItems_leaves lv a b ea eas eb ebs Ha Hb Hra Hrb Va Vb Ve) as (Hkey & _ & Hleaf).
  destruct (isNew && valid (tail a) && valid (tail b) && equalItems (tail a) (tail b)) eqn:Ep.
  - apply andb_prop in Ep as [[[_ Vpa]%andb_prop Vpb]%andb_prop Vpe].
    destruct (below_parent mA lv a Ha Va Vpa) as (fa & pa & pea & peas & xa & -> & Efa & Hpa & Hrpa & Hna & Hoka & Hxa & Hca' & Hrema & Hlena).
    destruct (below_parent mB lv b Hb Vb Vpb) as (fb & pb & peb & pebs & xb & -> & Efb & Hpb & Hrpb & Hnb & Hokb & Hxb & Hcb' & Hremb & _).
    cbn [tail] in *.
    destruct (equalItems_leaves (S lv) pa pb pea peas peb pebs Hpa Hpb Hrpa Hrpb Vpa Vpb Vpe) as (_ & Hchild & Hpleaf).
    specialize (Hchild ltac:(lia)).
    destruct (IH (S lv) pa pb true Hpa Hpb ltac:(cbn [length] in Hf; lia)) as (pa' & pb' & Hip & (Hpa' & Hpb' & X & Y & HX & HY & HXY & HneXY) & Hlpa).
    destruct (HneXY Vpa Vpb Vpe) as [HneX HneY].
    rewrite interp_bind by apply skipCommon_reads. rewrite Hip. cbn [fst snd].
    destruct (refetch_ok mA nA HtopA HrootA lv fa pa pa' Hpa' Efa) as (a1 & Hia & Ha1 & Hra1 & Hla1).
    destruct (refetch_ok mB nB HtopB HrootB lv fb pb pb' Hpb' Efb) as (b1 & Hib & Hb1 & Hrb1 & _).
    rewrite interp_bind by apply refetch_reads. rewrite Hia. rewrite interp_bind by apply refetch_reads. rewrite Hib.
    rewrite Hrpa in HX. rewrite Hrpb in HY. destruct X as [|x X]; [done|]. destruct Y as [|y Y]; [done|].
    injection HX as <- HX. injection HY as <- HY.
    assert (fn fa = fn fb) as Hfn by (rewrite Hchild, <-Hlimit, Hnb in Hna; congruence).
    assert (fi fa = fi fb) as Hfi.
    { rewrite Hca in Hca'. rewrite Hcb in Hcb'. rewrite <-Hfn in Hxb.
      apply (sorted_same_index (entries (fn fa)) _ _ xa xb); try done; [|congruence].
      destruct Hoka as (_ & Hf1 & Hs1). by eapply entries_sorted. }
    set (XA := drop (fi fa) (entries (fn fa)) ++ concat (map (kids rd limit) X)).
    set (XB := drop (fi fb) (entries (fn fb)) ++ concat (map (kids rd limit) Y)).
    assert (remA (fa :: pa) = XA ++ remA a1) as HA1.
    { rewrite Hrema, HX, map_app, concat_app, Hra1. subst XA. by rewrite <-app_assoc. }
    assert (remB (fb :: pb) = XB ++ remB b1) as HB1.
    { rewrite Hremb, HY, map_app, concat_app, Hrb1, Hlimit. subst XB. by rewrite <-app_assoc. }
    assert (map kv (leavesN rd limit lv XA) = map kv (leavesN rd limit lv XB)) as HAB.
    { subst XA XB. rewrite !leavesN_app, !leavesN_kids, Hfn, Hfi, !map_app. f_equal.
      rewrite !leavesN_cons, !map_app, Hpleaf in HXY. by apply app_inv_head in HXY. }
    assert (XA <> [] /\ XB <> []) as [HneA HneB].
    { subst XA XB. destruct (drop_lt (entries (fn fa)) (fi fa)) as (? & _ & ->); [by eapply lookup_lt_Some|].
      destruct (drop_lt (entries (fn fb)) (fi fb)) as (? & _ & ->); [by eapply lookup_lt_Some|]. done. }
    assert (length (remA a1) < length (remA (fa :: pa)))%nat as Hless.
    { rewrite HA1, length_app. destruct XA; [done|]. simpl. lia. }
    destruct (IH lv a1 b1 isNew Ha1 Hb1) as (a2 & b2 & Hi2 & Hs2 & Hl2); [cbn [length] in Hf; lia|].
    exists a2, b2. split; [done|]. split; [|cbn [length]; lia]. by eapply (skipped_trans lv _ _ a1 b1).
  - destruct (advance_ok rd mA nA HtopA HrootA a lv Ha) as (a1 & Hia & Ha1 & Hra1 & Hla1).
    destruct (advance_ok rd mB nB HtopB HrootB b lv Hb) as (b1 & Hib & Hb1 & Hrb1 & _).
    rewrite interp_bind by apply advance_reads. rewrite Hia. rewrite interp_bind by apply advance_reads. rewrite Hib.
    rewrite Hra in Hra1. rewrite Hrb in Hrb1. cbn [tail] in *.
    destruct (IH lv a1 b1 (atNodeEnd a || atNodeEnd b) Ha1 Hb1) as (a2 & b2 & Hi2 & Hs2 & Hl2).
    { rewrite Hra1, Hla1. rewrite Hra in Hf. simpl in Hf. lia. }
    exists a2, b2. split; [done|]. split; [|lia].
    eapply (skipped_trans lv a b a1 b1 a2 b2 [ea] [eb]); try done; [by rewrite Hra, Hra1|by rewrite Hrb, Hrb1|].
    unfold leavesN. simpl. by rewrite !app_nil_r.
Qed.

(** *** One change after another *)

Definition pair_ok (a b : cursor) : Prop :=
  curOk rd mA 0 a /\ curOk rd mB 0 b /\ length a = S (height mA) /\ (length (remA a) <= Z.to_nat (mcount mA))%nat.

(** What [Next] answers, from the deltas of what the cursors have left. *)
Definition next_post (ds : list delta) (r : res (option Change * (cursor * cursor))) : Prop :=
  match ds with
  | [] => exists ab, r = Ok (None, ab)
  | d :: ds =>
      match change rd mA mB d with
      | Err x => r = Err x
      | Ok c => exists a b, r = Ok (Some c, (a, b)) /\ pair_ok a b /\ deltas (remA a) (remB b) = ds
      end
  end.

Lemma sendSide_ok m n (Htop : top m = Some n) (Hroot : readN rd (InlineLimit (cfg m)) (root m) = Ok n) c e es :
  curOk rd m 0 c -> rem rd m c = e :: es -> current c = Some e ->
  exists c', curOk rd m 0 c' /\ rem rd m c' = es /\ length c' = length c /\
    sendSide rd m c = match materialize rd m (val e) with Ok v => Ok (key e, v, c') | Err x => Err x end.
Proof.
  intros Hc Hr Hcur. destruct (advance_ok rd m n Htop Hroot c 0 Hc) as (c' & Hadv & Hc' & Hrem & Hl).
  exists c'. rewrite Hr in Hrem. split_and!; try done. unfold sendSide. rewrite Hcur.
  destruct (materialize rd m (val e)); [|done]. by rewrite Hadv.
Qed.

Lemma nextLoop_ok fuel : forall a b, pair_ok a b -> (length (remA a) < fuel)%nat ->
  next_post (deltas (remA a) (remB b)) (nextLoop fuel rd mA mB a b).
Proof.
  induction fuel as [|fuel IH]; intros a b (Ha & Hb & Hh & Hlen) Hf; [lia|]. cbn [nextLoop].
  pose proof (valid_rem rd mA 0 a Ha) as Hva. pose proof (valid_rem rd mB 0 b Hb) as Hvb.
  destruct (valid a) eqn:Va, (valid b) eqn:Vb; cbn [negb andb].
  - destruct Hva as (e & es & Hra & Hca). destruct Hvb as (f & fs & Hrb & Hcb). rewrite Hca, Hcb, Hra, Hrb, deltas_cons.
    destruct (sendSide_ok mA nA HtopA HrootA a e es Ha Hra Hca) as (a1 & Ha1 & Hra1 & Hla1 & Hsa).
    destruct (sendSide_ok mB nB HtopB HrootB b f fs Hb Hrb Hcb) as (b1 & Hb1 & Hrb1 & _ & Hsb).
    rewrite Hra in Hlen, Hf. simpl in Hlen, Hf.
    destruct (bcompare (key e) (key f)) eqn:Ecmp.
    + apply bcompare_eq in Ecmp. destruct (value_equal (val e) (val f)) eqn:Ev; cbn [negb].
      * destruct (advance_ok rd mA nA HtopA HrootA a 0 Ha) as (a2 & -> & Ha2 & Hra2 & Hla2).
        destruct (advance_ok rd mB nB HtopB HrootB b 0 Hb) as (b2 & -> & Hb2 & Hrb2 & _).
        rewrite Hra in Hra2. rewrite Hrb in Hrb2. cbn [tail] in *.
        destruct (skip_ok (skipFuel mA) 0 a2 b2 true Ha2 Hb2 ltac:(unfold skipFuel; rewrite Hra2, Hla2; lia))
          as (a3 & b3 & -> & (Ha3 & Hb3 & X & Y & HX & HY & HXY & _) & Hl3).
        rewrite !leavesN_0 in HXY. rewrite Hra2 in HX. rewrite Hrb2 in HY. rewrite HX, HY, deltas_skip by done.
        rewrite HX, length_app in Hlen, Hf. apply IH; [|lia]. split_and!; [done|done|lia|lia].
      * unfold next_post, change. rewrite Hsa. destruct (materialize rd mA (val e)); [|done].
        rewrite Hsb. destruct (materialize rd mB (val f)); [|done]. exists a1, b1. rewrite Hra1, Hrb1.
        split; [done|]. split; [|done]. split_and!; [done|done|lia|rewrite Hra1; simpl; lia].
    + unfold next_post, change. rewrite Hsa. destruct (materialize rd mA (val e)); [|done].
      exists a1, b. rewrite Hra1, Hrb. split; [done|]. split; [|done]. split_and!; [done|done|lia|rewrite Hra1; simpl; lia].
    + unfold next_post, change. rewrite Hsb. destruct (materialize rd mB (val f)); [|done].
      exists a, b1. rewrite Hra, Hrb1. split; [done|]. split; [|done]. split_and!; [done|done|lia|rewrite Hra; simpl; lia].
  - destruct Hva as (e & es & Hra & Hca). rewrite Hra, Hvb. simpl deltas.
    destruct (sendSide_ok mA nA HtopA HrootA a e es Ha Hra Hca) as (a1 & Ha1 & Hra1 & Hla1 & Hsa).
    unfold next_post, change. rewrite Hsa. destruct (materialize rd mA (val e)); [|done].
    rewrite Hra in Hlen. simpl in Hlen. exists a1, b. rewrite Hra1, Hvb. split; [done|]. split; [|done]. split_and!; [done|done|lia|rewrite Hra1; simpl; lia].
  - destruct Hvb as (f & fs & Hrb & Hcb). rewrite Hrb, Hva. simpl deltas.
    destruct (sendSide_ok mB nB HtopB HrootB b f fs Hb Hrb Hcb) as (b1 & Hb1 & Hrb1 & _ & Hsb).
    unfold next_post, change. rewrite Hsb. destruct (materialize rd mB (val f)); [|done].
    exists a, b1. rewrite Hva, Hrb1. split; [done|]. split; [|done]. split_and!; [done|done|lia|rewrite Hva; simpl; lia].
  - rewrite Hva, Hvb. simpl. by exists (a, b).
Qed.

End Skipping.

Lemma deltas_length x : forall y, (length (deltas x y) <= length x + length y)%nat.
Proof.
  induction x as [|e x IHx]; intros y.
  - rewrite deltas_nil_l, length_map. lia.
  - induction y as [|f y IHy].
    + simpl. specialize (IHx []). simpl in IHx. lia.
    + rewrite deltas_cons. destruct (bcompare (key e) (key f)).
      * specialize (IHx y). destruct (value_equal _ _); simpl; lia.
      * specialize (IHx (f :: y)). simpl in *. lia.
      * simpl in *. lia.
Qed.

Lemma deltas_same es : deltas es es = [].
Proof. rewrite <-(app_nil_r es). by rewrite deltas_skip. Qed.

(** *** The iterator *)

(** The iterator [d] has the differences [ds] left to report. *)
Definition diff_at (rd : creader) (d : DiffIter) (ds : list delta) : Prop :=
  match curs d with
  | None => ds = []
  | Some (a, b) =>
      InlineLimit (cfg (dB d)) = InlineLimit (cfg (dA d)) /\
      (exists nA, top (dA d) = Some nA /\ readN rd (InlineLimit (cfg (dA d))) (root (dA d)) = Ok nA) /\
      (exists nB, top (dB d) = Some nB /\ readN rd (InlineLimit (cfg (dB d))) (root (dB d)) = Ok nB) /\
      pair_ok rd (dA d) (dB d) a b /\ deltas (rem rd (dA d) a) (rem rd (dB d) b) = ds
  end.

Lemma DNext_at rd d ds : diff_at rd d ds ->
  match ds with
  | [] => exists d', DNext rd d = Ok (None, d')
  | x :: ds =>
      match change rd (dA d) (dB d) x with
      | Err e => DNext rd d = Err e
      | Ok c => exists d', DNext rd d = Ok (Some c, d') /\ diff_at rd d' ds /\ dA d' = dA d /\ dB d' = dB d
      end
  end.
Proof.
  unfold diff_at, DNext. destruct (curs d) as [[a b]|]; [|intros ->; by eauto].
  intros (Hlim & (nA & HtA & HroA) & (nB & HtB & HroB) & Hab & Hds). pose proof Hab as (_ & _ & _ & Hle).
  pose proof (nextLoop_ok rd (dA d) (dB d) nA nB HtA HtB HroA HroB Hlim (Z.to_nat (mcount (dA d)) + 2) a b Hab ltac:(lia)) as Hn.
  unfold next_post in Hn. rewrite Hds in Hn. destruct ds as [|x ds]; [destruct Hn as (ab & ->); by eauto|].
  destruct (change _ _ _ x) as [c|e]; [|by rewrite Hn]. destruct Hn as (a' & b' & -> & Hab' & Hds').
  eexists. split; [done|]. simpl. split_and!; eauto.
Qed.

Lemma map_count rd m es : map_ok rd m es -> Z.to_nat (mcount m) = length es.
Proof.
  intros (Hr & n & Ht & Hro & Hok & Hes & Hc & _).
  rewrite Hc, (total_leaves rd (InlineLimit (cfg m)) (level n)) with (h := root m); try done; [rewrite Hes; lia|].
  by eapply rule_limit.
Qed.

Lemma Diff_at rd mA mB x y :
  map_ok rd mA x -> map_ok rd mB y -> InlineLimit (cfg mB) = InlineLimit (cfg mA) ->
  exists d, interp rd (Diff mA mB) = Ok d /\ diff_at rd d (deltas x y) /\ dA d = mA /\ dB d = mB.
Proof.
  intros HA HB Hlim. unfold Diff. pose proof (map_count _ _ _ HA) as HnA.
  pose proof HA as (HrA & nA & HtA & HroA & HokA & HesA & HcA & HhA & _).
  pose proof HB as (HrB & nB & HtB & HroB & HokB & HesB & HcB & HhB & _).
  case_bool_decide as Heq.
  - eexists. split; [done|]. simpl. split_and!; [|done|done].
    rewrite <-Heq, Hlim, HroA in HroB. injection HroB as <-. rewrite Hlim, HesA in HesB. subst y. apply deltas_same.
  - destruct (seek_ok rd mA x 0 [] HA ltac:(lia)) as (a & Hsa & [Hca (fa & pa & prea & _ & _ & _ & _ & Hxa & Hpa & _)] & Hla).
    destruct (seek_ok rd mB y 0 [] HB ltac:(lia)) as (b & Hsb & [Hcb (fb & pb & preb & _ & _ & _ & _ & Hxb & Hpb & _)] & _).
    rewrite interp_bind by auto with reads. rewrite Hsa. rewrite interp_bind by auto with reads. rewrite Hsb.
    assert (forall l : list entry, Forall (fun e => key e <b []) l -> l = []) as Hnil.
    { intros [|e l]; [done|]. intros [He _]%Forall_cons. unfold blt in He. by destruct (key e). }
    apply Hnil in Hpa as ->. apply Hnil in Hpb as ->. rewrite leavesN_0 in Hxa, Hxb. simpl in Hxa, Hxb.
    eexists. split; [done|]. split_and!; [|done|done]. unfold diff_at. simpl.
    split_and!; [done|by eauto|by eauto| |by rewrite <-Hxa, <-Hxb]. split_and!; [done|done|lia|rewrite HnA, Hxa; lia].
Qed.

Lemma diffAll_ok rd ds : forall fuel d, diff_at rd d ds -> (length ds < fuel)%nat ->
  diffAll fuel rd d = res_map (change rd (dA d) (dB d)) ds.
Proof.
  induction ds as [|x ds IH]; intros [|fuel] d Hd Hf; simpl in Hf; try lia; pose proof (DNext_at rd d _ Hd) as Hn; cbn [diffAll res_map].
  - by destruct Hn as (d' & ->).
  - cbv iota beta in Hn. destruct (change rd (dA d) (dB d) x) as [c|e]; [|by rewrite Hn]. destruct Hn as (d' & -> & Hd' & <- & <-).
    rewrite (IH fuel d' Hd') by lia. by destruct (res_map _ _).
Qed.

Lemma changesOf_ok rd mA mB x y :
  map_ok rd mA x -> map_ok rd mB y -> InlineLimit (cfg mB) = InlineLimit (cfg mA) ->
  changesOf rd mA mB = res_map (change rd mA mB) (deltas x y).
Proof.
  intros HA HB Hlim. unfold changesOf. destruct (Diff_at rd mA mB x y HA HB Hlim) as (d & -> & Hd & <- & <-).
  apply diffAll_ok; [done|]. rewrite (map_count _ _ _ HA), (map_count _ _ _ HB). pose proof (deltas_length x y). lia.
Qed.

(** *** Iterators on a store that grows *)

Section More.
Context (rd rd' : creader) (Hmore : more rd rd').

Lemma readN_more limit h n : readN rd limit h = Ok n -> readN rd' limit h = Ok n.
Proof. unfold readN. destruct (rd h) as [b|] eqn:E; [|done]. by rewrite (Hmore h b E). Qed.

Lemma kids_more limit d e : okE rd limit (S d) e -> kids rd' limit e = kids rd limit e.
Proof. intros (c & Hc & _). unfold kids. by rewrite (readN_more _ _ _ Hc), Hc. Qed.

Lemma okE_more limit d : forall e, okE rd limit d e ->
  okE rd' limit d e /\ leaves rd' limit d e = leaves rd limit d e.
Proof.
  induction d as [|d IH]; intros e He; [done|]. pose proof (kids_more limit d e He) as Hk.
  destruct He as (c & Hc & Hl & Hne & Hlk & Ht & Hf & Hs).
  assert (leavesN rd' limit d (entries c) = leavesN rd limit d (entries c)) as Hsame.
  { unfold leavesN. f_equal. apply map_ext_Forall. eapply Forall_impl; [exact Hf|]. intros x Hx. by apply IH. }
  split.
  - exists c. split_and!; try done; [by apply readN_more| |by rewrite Hsame].
    eapply Forall_impl; [exact Hf|]. intros x Hx. by apply IH.
  - rewrite !leaves_S, Hk. unfold kids. rewrite Hc. exact Hsame.
Qed.

Lemma okN_more limit d n : okN rd limit d n -> okN rd' limit d n.
Proof.
  intros (Hl & Hf & Hs). split_and!; [done| |].
  - eapply Forall_impl; [exact Hf|]. intros x Hx. by apply okE_more.
  - assert (leavesN rd' limit d (entries n) = leavesN rd limit d (entries n)) as ->; [|done].
    unfold leavesN. f_equal. apply map_ext_Forall. eapply Forall_impl; [exact Hf|]. intros x Hx. by apply okE_more.
Qed.

Lemma curOk_more m c : forall lv, curOk rd m lv c -> curOk rd' m lv c /\ rem rd' m c = rem rd m c.
Proof.
  induction c as [|f ps IH]; intros lv; [done|]. cbn [curOk rem]. intros [Hf|[Hn Hi]]; [rewrite Hf; auto|].
  destruct ps as [|p ps].
  - split; [right; split; [by apply okN_more|done]|done].
  - destruct Hi as (Hi & Hps & pe & pes & Hr & Hc). destruct (IH _ Hps) as [Hps' Hr']. split.
    + right. split; [by apply okN_more|]. split_and!; [done|done|]. exists pe, pes. rewrite Hr'. split; [done|]. by apply readN_more.
    + rewrite Hr'. destruct (fend f); [done|]. f_equal. f_equal. apply map_ext_Forall.
      pose proof (rem_okE rd m _ _ Hps) as Hall. rewrite Hr in *. cbn [tail]. apply Forall_cons in Hall as [_ Hall].
      eapply Forall_impl; [exact Hall|]. intros x Hx. by eapply kids_more.
Qed.

Lemma diff_at_more d ds : diff_at rd d ds -> diff_at rd' d ds.
Proof.
  unfold diff_at. destruct (curs d) as [[a b]|]; [|done].
  intros (Hlim & (nA & HtA & HroA) & (nB & HtB & HroB) & (Ha & Hb & Hh & Hle) & Hds).
  destruct (curOk_more (dA d) a 0 Ha) as [Ha' Ea]. destruct (curOk_more (dB d) b 0 Hb) as [Hb' Eb].
  split_and!; [done|exists nA|exists nB| |by rewrite Ea, Eb]; [split; [done|by apply readN_more]..|].
  split_and!; [done|done|done|by rewrite Ea].
Qed.
End More.

(** C22. Diff is the difference: for two maps that read as the sorted entries [x] and [y], the loop over
    [Next] reports, in key order, exactly the keys whose values differ, each with its kind
    and the values of the two sides, however much of the two trees it skipped as shared; and it ends. *)
Theorem diff_is_difference rd mA mB x y :
  map_ok rd mA x -> map_ok rd mB y -> InlineLimit (cfg mB) = InlineLimit (cfg mA) ->
  changesOf rd mA mB = res_map (change rd mA mB) (deltas x y) /\
  ksorted dkey (deltas x y) /\
  (forall d, d ∈ deltas x y <->
     exists k, d = (klookup key k x, klookup key k y) /\ (val <$> klookup key k x) <> (val <$> klookup key k y)).
Proof.
  intros HA HB Hlim. split; [by apply changesOf_ok|].
  assert (ksorted key x) as Hx by (destruct HA as (_ & n & _ & _ & Hok & <- & _); apply Hok).
  assert (ksorted key y) as Hy by (destruct HB as (_ & n & _ & _ & Hok & <- & _); apply Hok).
  split; [by apply deltas_sorted|]. intros d. rewrite (deltas_complete _ x y d (le_n _) Hx Hy).
  split; intros (k & -> & Hd); exists k; done.
Qed.

Lemma diff_is_difference_witness :
  changesOf exReader exMap exMap2 =
  Ok [mkChange Modified (str "m") (Some (str "3")) (Some (str "4")); mkChange Added (str "z") None (Some (str "5"))].
Proof.
  destruct (diff_is_difference exReader exMap exMap2 _ _ exMap_ok exMap2_ok eq_refl) as [H _].
  rewrite H. vm_compute. reflexivity.
Defined.
