(* ===== verification/ProllyDraw.v ===== *)
(** * core/prolly: the tree a list of entries draws

    The reference for [Flush]: the nodes the boundary rule draws from a list
    of entries ([draw]), the entries of every level above ([lvE]), and the root a
    bulk build ends at ([bulkRoot]). [canonical] says that a map is that tree. *)

From S2P Require Import Prelude Wire Hash ChunkStore Prog ProllyNode Prolly.
From S2P Require Boundary Stream.

Section Draw.
Context `{Hasher} (r : Boundary.Rule).

(** ** One level *)

Definition fresh (lv : nat) : Boundary.Splitter := Boundary.newSplitter r (Z.of_nat lv).

(** The nodes drawn, the entries of the node not ended, the splitter's state. *)
Fixpoint drawFrom (lv : nat) (sp : Boundary.Splitter) (pend es : list entry)
  : list (list entry) * list entry * Boundary.Splitter :=
  match es with
  | [] => ([], pend, sp)
  | e :: es =>
      let '(full, sp) := Boundary.Append sp (Sum (key e)) (entrySize lv e) in
      if full then let '(ns, p, s) := drawFrom lv sp [] es in ((pend ++ [e]) :: ns, p, s)
      else drawFrom lv sp (pend ++ [e]) es
  end.

(** The node not ended is the level's last. *)
Definition lastly (p : list entry) : list (list entry) := match p with [] => [] | _ => [p] end.

Definition draw (lv : nat) (es : list entry) : list (list entry) :=
  let '(ns, p, _) := drawFrom lv (fresh lv) [] es in ns ++ lastly p.

Lemma drawFrom_app lv xs : forall sp pend ys,
  drawFrom lv sp pend (xs ++ ys) =
  let '(ns, p, s) := drawFrom lv sp pend xs in
  let '(ms, q, t) := drawFrom lv s p ys in (ns ++ ms, q, t).
Proof.
  induction xs as [|x xs IH]; intros sp pend ys; cbn [drawFrom app].
  - by destruct (drawFrom lv sp pend ys) as [[ms q] t].
  - destruct (Boundary.Append sp (Sum (key x)) (entrySize lv x)) as [[|] sp1]; rewrite IH.
    + destruct (drawFrom lv sp1 [] xs) as [[ns p] s]. by destruct (drawFrom lv s p ys) as [[ms q] t].
    + done.
Qed.

Definition esizes (lv : nat) (es : list entry) : Z := foldr (fun e t => entrySize lv e + t) 0 es.

Lemma esizes_app lv a b : esizes lv (a ++ b) = esizes lv a + esizes lv b.
Proof. induction a as [|e a IH]; simpl; lia. Qed.

(** Room is left before the node's last entry. *)
Definition roomy (lv : nat) (d : list entry) : Prop :=
  esizes lv d < Boundary.gMax (Boundary.rg r) \/ (lv <> 0%nat /\ (length d <= 1)%nat).

Definition sp_ok (lv : nat) (sp : Boundary.Splitter) (pend : list entry) : Prop :=
  sp = Boundary.mkSplitter r (Z.of_nat lv) (esizes lv pend) (zlen pend) /\ roomy lv pend.

Definition drawn (lv : nat) (d : list entry) : Prop :=
  (exists d0 e, d = d0 ++ [e] /\ roomy lv d0) /\ (lv <> 0%nat -> (2 <= length d)%nat).

Context (Hr : Boundary.good_rule r).

Lemma fresh_ok lv : sp_ok lv (fresh lv) [].
Proof.
  split; [done|]. left. simpl. destruct (Boundary.good_rule_inv _ Hr) as (H1 & H2 & H3 & _).
  unfold Boundary.minMin in *. lia.
Qed.

Lemma append_draws lv sp pend d e :
  sp_ok lv sp pend ->
  let '(full, sp) := Boundary.Append sp d (entrySize lv e) in
  if full then sp = fresh lv /\ drawn lv (pend ++ [e]) else sp_ok lv sp (pend ++ [e]).
Proof.
  intros [-> Hroom]. destruct (Boundary.good_rule_inv _ Hr) as (_ & H1 & H2 & _).
  unfold Boundary.Append. simpl.
  assert (zlen (pend ++ [e]) = zlen pend + 1) as Hz by (rewrite length_app; simpl; lia).
  assert (esizes lv (pend ++ [e]) = esizes lv pend + entrySize lv e) as He by (rewrite esizes_app; simpl; lia).
  rewrite <-Hz, <-He. destruct (Boundary.ends _ _ _) eqn:E; unfold Boundary.ends in E; simpl in E.
  - split; [done|]. split; [by exists pend, e|]. intros Hlv. rewrite (proj2 (Z.leb_le 1 _)) in E by lia.
    destruct (Z.ltb_spec (zlen (pend ++ [e])) 2); [done|lia].
  - split; [done|]. unfold roomy.
    destruct (Z.leb_spec 1 (Z.of_nat lv)), (Z.ltb_spec (zlen (pend ++ [e])) 2); simpl in E; try (right; lia); left.
    all: destruct (Z.ltb_spec (esizes lv (pend ++ [e])) (Boundary.gMin (Boundary.rg r))); [lia|].
    all: apply orb_false_iff in E as [E _]; apply Z.leb_gt in E; unfold Boundary.Threshold in E.
    all: destruct (Z.leb_spec (Boundary.gMax (Boundary.rg r)) (esizes lv (pend ++ [e]))); [unfold Boundary.always in E; lia|lia].
Qed.

Lemma drawFrom_ok lv es : forall sp pend ns p s,
  sp_ok lv sp pend -> drawFrom lv sp pend es = (ns, p, s) ->
  sp_ok lv s p /\ concat ns ++ p = pend ++ es /\ Forall (drawn lv) ns.
Proof.
  induction es as [|e es IH]; intros sp pend ns p s Hok; cbn [drawFrom].
  - intros [= <- <- <-]. rewrite app_nil_r. by split_and!.
  - pose proof (append_draws lv sp pend (Sum (key e)) e Hok) as Ha.
    destruct (Boundary.Append sp (Sum (key e)) (entrySize lv e)) as [[|] sp1].
    + destruct Ha as [-> Hd]. destruct (drawFrom lv (fresh lv) [] es) as [[ns1 p1] s1] eqn:E.
      intros [= <- <- <-]. destruct (IH _ _ _ _ _ (fresh_ok lv) E) as (H1 & H2 & H3).
      split_and!; [done| |by constructor]. simpl. rewrite <-app_assoc, H2. by rewrite <-app_assoc.
    + intros E. destruct (IH _ _ _ _ _ Ha E) as (H1 & H2 & H3). split_and!; [done| |done].
      by rewrite H2, <-app_assoc.
Qed.

Lemma sp_fresh lv sp : sp_ok lv sp [] -> sp = fresh lv.
Proof. by intros [-> _]. Qed.

(** The entries [xs] fill whole nodes, which are [ns]. *)
Definition closed (lv : nat) (xs : list entry) (ns : list (list entry)) : Prop :=
  drawFrom lv (fresh lv) [] xs = (ns, [], fresh lv).

Lemma closed_intro lv xs ns s : drawFrom lv (fresh lv) [] xs = (ns, [], s) -> closed lv xs ns.
Proof.
  intros E. destruct (drawFrom_ok _ _ _ _ _ _ _ (fresh_ok lv) E) as (H1 & _). unfold closed. by rewrite E, (sp_fresh lv s).
Qed.

Lemma closed_nil lv : closed lv [] [].
Proof. done. Qed.

Lemma closed_app lv xs ns ys ms : closed lv xs ns -> closed lv ys ms -> closed lv (xs ++ ys) (ns ++ ms).
Proof. unfold closed. intros H1 H2. by rewrite drawFrom_app, H1, H2. Qed.

Lemma draw_closed lv xs ns ys : closed lv xs ns -> draw lv (xs ++ ys) = ns ++ draw lv ys.
Proof.
  unfold closed, draw. intros H1. rewrite drawFrom_app, H1.
  destruct (drawFrom lv (fresh lv) [] ys) as [[ms q] t]. by rewrite app_assoc.
Qed.

Lemma draw_of lv xs ns p s : drawFrom lv (fresh lv) [] xs = (ns, p, s) -> draw lv xs = ns ++ lastly p.
Proof. intros E. unfold draw. by rewrite E. Qed.

Lemma draw_prefix lv xs ns p s ys : drawFrom lv (fresh lv) [] xs = (ns, p, s) -> exists ms, draw lv (xs ++ ys) = ns ++ ms.
Proof.
  intros E. unfold draw. rewrite drawFrom_app, E. destruct (drawFrom lv s p ys) as [[ms q] t].
  exists (ms ++ lastly q). by rewrite app_assoc.
Qed.

Lemma draw_concat lv es : concat (draw lv es) = es.
Proof.
  unfold draw. destruct (drawFrom lv (fresh lv) [] es) as [[ns p] s] eqn:E.
  destruct (drawFrom_ok _ _ _ _ _ _ _ (fresh_ok lv) E) as (_ & H2 & _). simpl in H2. rewrite <-H2, concat_app.
  destruct p; simpl; by rewrite ?app_nil_r.
Qed.

(** The first node of a level: the level's last, or one the rule ended. *)
Lemma drawFrom_first lv es : forall sp pend, sp_ok lv sp pend ->
  let '(ns, p, s) := drawFrom lv sp pend es in
  match ns with
  | [] => True
  | d :: ns => exists e1 e2, es = e1 ++ e2 /\ drawFrom lv sp pend e1 = ([d], [], fresh lv) /\
                 drawFrom lv (fresh lv) [] e2 = (ns, p, s)
  end.
Proof.
  induction es as [|e es IH]; intros sp pend Hok; cbn [drawFrom]; [done|].
  pose proof (append_draws lv sp pend (Sum (key e)) e Hok) as Ha.
  destruct (Boundary.Append sp (Sum (key e)) (entrySize lv e)) as [[|] sp1] eqn:Ea.
  - destruct Ha as [-> Hd]. destruct (drawFrom lv (fresh lv) [] es) as [[ns1 p1] s1] eqn:E.
    exists [e], es. split; [done|]. split; [|done]. cbn [drawFrom]. by rewrite Ea.
  - specialize (IH _ _ Ha). destruct (drawFrom lv sp1 (pend ++ [e]) es) as [[[|d ns1] p1] s1]; [done|].
    destruct IH as (e1 & e2 & -> & H1 & H2). exists (e :: e1), e2. split; [done|]. split; [|done].
    cbn [drawFrom]. by rewrite Ea.
Qed.

Lemma draw_cons lv es d D : draw lv es = d :: D ->
  d <> [] /\ (D = [] \/ closed lv d [d]) /\ draw lv (concat D) = D /\ es = d ++ concat D.
Proof.
  intros Ed. pose proof (draw_concat lv es) as Hc. rewrite Ed in Hc. simpl in Hc. unfold draw in Ed.
  pose proof (drawFrom_first lv es _ _ (fresh_ok lv)) as Hf.
  destruct (drawFrom lv (fresh lv) [] es) as [[ns p] s] eqn:E.
  destruct (drawFrom_ok _ _ _ _ _ _ _ (fresh_ok lv) E) as (_ & _ & Hd).
  destruct ns as [|d1 ns].
  - destruct p; [done|]. injection Ed as <- <-. split_and!; [done|by left|done|done].
  - injection Ed as -> <-. destruct Hf as (e1 & e2 & -> & H1 & H2).
    destruct (drawFrom_ok _ _ _ _ _ _ _ (fresh_ok lv) H1) as (_ & H3 & _). simpl in H3. rewrite !app_nil_r in H3. subst e1.
    apply app_inv_head in Hc.
    split_and!; [|by right| |by rewrite Hc].
    + apply Forall_cons in Hd as [[(d0 & e & -> & _) _] _]. by destruct d0.
    + rewrite Hc. unfold draw. by rewrite H2.
Qed.

Lemma draw_nonempty lv es : Forall (fun d => d <> []) (draw lv es).
Proof.
  remember (draw lv es) as D eqn:E. symmetry in E. revert es E.
  induction D as [|d D IH]; intros es E; [constructor|]. destruct (draw_cons _ _ _ _ E) as (H1 & _ & H2 & _).
  constructor; [done|by apply (IH (concat D))].
Qed.

Lemma draw_nil_inv lv es : draw lv es = [] -> es = [].
Proof. intros E. pose proof (draw_concat lv es) as Hc. by rewrite E in Hc. Qed.

Lemma draw_app lv es D1 D2 : draw lv es = D1 ++ D2 -> D2 <> [] ->
  closed lv (concat D1) D1 /\ draw lv (concat D2) = D2.
Proof.
  revert es. induction D1 as [|d D1 IH]; intros es E Hne.
  - split; [done|]. pose proof (draw_concat lv es) as Hc. rewrite E in Hc. simpl in Hc. by rewrite Hc.
  - simpl in E. destruct (draw_cons _ _ _ _ E) as (_ & [H1|H1] & H2 & _).
    + by destruct D1, D2.
    + destruct (IH _ H2 Hne) as [H3 H4]. split; [|done]. simpl. by apply (closed_app lv d [d]).
Qed.

Lemma draw_suffix lv es D1 D2 : draw lv es = D1 ++ D2 -> draw lv (concat D2) = D2.
Proof. intros E. destruct (decide (D2 = [])) as [->|Hne]; [done|]. by eapply draw_app. Qed.

Lemma draw_one lv es : (length (draw lv es) <= 1)%nat -> draw lv es = lastly es.
Proof.
  intros Hl. pose proof (draw_concat lv es) as Hc. pose proof (draw_nonempty lv es) as Hn.
  destruct (draw lv es) as [|d [|]]; simpl in *; [by subst|rewrite app_nil_r in Hc; subst|lia].
  apply Forall_cons in Hn as [Hn _]. by destruct es.
Qed.

(** Above the leaves every node but the last has two entries. *)
Lemma draw_halves lv es : lv <> 0%nat -> (2 * length (draw lv es) <= length es + 1)%nat.
Proof.
  intros Hlv. unfold draw. destruct (drawFrom lv (fresh lv) [] es) as [[ns p] s] eqn:E.
  destruct (drawFrom_ok _ _ _ _ _ _ _ (fresh_ok lv) E) as (_ & H2 & Hd). simpl in H2. subst es.
  rewrite !length_app. clear E.
  assert (2 * length ns <= length (concat ns))%nat as Hns.
  { induction Hd as [|d ns [_ Hd] _ IH]; simpl; [lia|]. rewrite length_app. specialize (Hd Hlv). lia. }
  destruct p; simpl; lia.
Qed.

Lemma draw_length lv es : (length (draw lv es) <= length es)%nat.
Proof.
  rewrite <-(draw_concat lv es) at 2. induction (draw_nonempty lv es) as [|d D Hd _ IH]; simpl; [lia|].
  rewrite length_app. destruct d; [done|]. simpl. lia.
Qed.
End Draw.

(** ** Node sizes *)

Lemma node_entrySize_enc limit lv e : 0 <= limit < two64 -> valid_entry lv limit e -> count e < two64 ->
  entrySize lv e = zlen (encEntry lv e).
Proof.
  intros Hlim [Hk Hv] Hc. unfold entrySize, encEntry, uvarintLen. unfold MaxKeySize, two64 in *.
  rewrite length_app, length_encLenBytes, !Nat2Z.inj_add, (length_encUvarint_exact (zlen (key e))) by (unfold two64; lia).
  destruct lv as [|lv].
  - destruct Hv as [Hv _]. destruct (val e) as [b|ref]; simpl in Hv.
    + rewrite length_app, length_encLenBytes, length_encU8, !Nat2Z.inj_add, (length_encUvarint_exact (zlen b)) by (unfold two64; lia). lia.
    + rewrite !length_app, !length_encU8, hash_length, !Nat2Z.inj_add, length_encUvarint_exact by (unfold two64 in *; lia). lia.
  - rewrite length_app, hash_length, Nat2Z.inj_add, length_encUvarint_exact by (unfold two64; lia). lia.
Qed.

Lemma entrySize_max limit lv e : 0 <= limit <= maxInlineLimit -> valid_entry lv limit e -> count e < two64 ->
  0 <= entrySize lv e <= (match lv with O => 530000 | S _ => 4200 end).
Proof.
  intros Hlim Hv Hc. unfold maxInlineLimit in *.
  rewrite (node_entrySize_enc limit) by (unfold two64; done || lia). split; [lia|].
  destruct Hv as [Hk Hv]. unfold encEntry, MaxKeySize in *. rewrite length_app, length_encLenBytes.
  pose proof (length_encUvarint (zlen (key e))). destruct lv as [|lv].
  - destruct Hv as [Hv _]. destruct (val e) as [b|ref]; simpl in Hv.
    + rewrite length_app, length_encLenBytes, length_encU8. pose proof (length_encUvarint (zlen b)). lia.
    + rewrite !length_app, !length_encU8, hash_length. pose proof (length_encUvarint (Stream.Size ref)). lia.
  - rewrite length_app, hash_length. pose proof (length_encUvarint (count e)). lia.
Qed.

Lemma flat_map_sizes limit lv es : 0 <= limit < two64 -> Forall (fun e => valid_entry lv limit e /\ count e < two64) es ->
  zlen (flat_map (encEntry lv) es) = esizes lv es.
Proof.
  intros Hlim. induction 1 as [|e es [He Hc] _ IH]; [done|]. simpl.
  rewrite length_app, Nat2Z.inj_add, IH, (node_entrySize_enc limit) by done. done.
Qed.

Section Levels.
Context `{Hasher} (r : Boundary.Rule).
Context (Hr : Boundary.good_rule r).

(** A node with room before its last entry is under the chunk limit. *)
Lemma node_fits limit lv d0 e : 0 <= limit <= maxInlineLimit -> roomy r lv d0 ->
  Forall (fun e => valid_entry lv limit e /\ count e < two64) (d0 ++ [e]) ->
  zlen (encode (mkNode lv (d0 ++ [e]))) <= MaxChunkSize.
Proof.
  intros Hlim Hroom Hf. rewrite encode_enc. cbn [level entries]. rewrite (length_app (encU8 _)), (length_app (encU8 _)), (length_app (encUvarint _)), !length_encU8, !Nat2Z.inj_add.
  rewrite (flat_map_sizes limit) by (done || unfold maxInlineLimit, two64 in *; lia). rewrite esizes_app. cbn [esizes foldr].
  pose proof (length_encUvarint (zlen (d0 ++ [e]))). apply Forall_app in Hf as [Hf0 [[He1 He2] _]%Forall_cons].
  pose proof (entrySize_max limit lv e Hlim He1 He2) as He.
  destruct (Boundary.good_rule_inv _ Hr) as (_ & _ & _ & _ & Hmax & _). unfold Boundary.maxMax, MaxChunkSize in *.
  destruct Hroom as [Hroom|[Hlv Hroom]]; [destruct lv; lia|].
  destruct lv as [|lv]; [done|].
  assert (esizes (S lv) d0 <= 4200) as Hd0; [|lia].
  destruct d0 as [|x [|]]; simpl in *; [lia| |lia]. apply Forall_cons in Hf0 as [[Hx1 Hx2] _].
  pose proof (entrySize_max limit (S lv) x Hlim Hx1 Hx2). simpl in *. lia.
Qed.

(** ** The levels of a tree *)

(** The entry a level up that names a node. *)
Definition named (lv : nat) (d : list entry) : entry :=
  let n := mkNode lv d in mkEntry (lastKey n) (VInline []) (Sum (encode n)) (total n).

Fixpoint lvE (k : nat) (es : list entry) : list entry :=
  match k with
  | O => es
  | S k => map (named k) (draw r k (lvE k es))
  end.

(** The root a bulk build ends at: levels are added until one has a single node. *)
Fixpoint buildFrom (fuel : nat) (k : nat) (X : list entry) : node :=
  match fuel with
  | O => mkNode k X
  | S fuel => if (length (draw r k X) <=? 1)%nat then mkNode k X else buildFrom fuel (S k) (map (named k) (draw r k X))
  end.

Definition bulkRoot (es : list entry) : node := buildFrom 63 0 es.

Definition isTop (K : nat) (es : list entry) : Prop :=
  (length (draw r K (lvE K es)) <= 1)%nat /\ (K = 0%nat \/ (2 <= length (lvE K es))%nat).

Lemma lvE_length k es : zlen es <= 2 ^ 62 -> (k <= 62)%nat -> zlen (lvE (S k) es) <= 2 ^ (62 - Z.of_nat k).
Proof.
  intros Hes. induction k as [|k IH]; intros Hk.
  - cbn [lvE]. rewrite length_map. pose proof (draw_length r Hr 0 es). change (62 - Z.of_nat 0) with 62. lia.
  - change (lvE (S (S k)) es) with (map (named (S k)) (draw r (S k) (lvE (S k) es))). rewrite length_map.
    pose proof (draw_halves r Hr (S k) (lvE (S k) es) ltac:(done)) as Hh. specialize (IH ltac:(lia)).
    replace (62 - Z.of_nat k) with (Z.succ (62 - Z.of_nat (S k))) in IH by lia. rewrite Z.pow_succ_r in IH by lia. lia.
Qed.

Lemma buildFrom_top es fuel : forall k, zlen es <= 2 ^ 62 -> (k + fuel = 63)%nat ->
  (k = 0%nat \/ (2 <= length (lvE k es))%nat) ->
  exists K, buildFrom fuel k (lvE k es) = mkNode K (lvE K es) /\ isTop K es /\ (K <= 62)%nat.
Proof.
  induction fuel as [|fuel IH]; intros k Hes Hk H2.
  - exfalso. assert (k = S 62) as -> by lia. pose proof (lvE_length 62 es Hes (le_n _)) as Hl. change (2 ^ (62 - Z.of_nat 62)) with 1 in Hl. lia.
  - cbn [buildFrom]. destruct (Nat.leb_spec (length (draw r k (lvE k es))) 1) as [H1|H1].
    + exists k. split_and!; [done|done|lia].
    + change (map (named k) (draw r k (lvE k es))) with (lvE (S k) es). apply IH; [done|lia|].
      right. cbn [lvE]. rewrite length_map. lia.
Qed.

Lemma bulkRoot_top es : zlen es <= 2 ^ 62 ->
  exists K, bulkRoot es = mkNode K (lvE K es) /\ isTop K es /\ (K <= 62)%nat.
Proof. intros Hes. apply (buildFrom_top es 63 0); [done|done|by left]. Qed.

(** A level of one node stays one node above. *)
Lemma lvE_single j es : (length (draw r j (lvE j es)) <= 1)%nat -> forall k, (j < k)%nat -> (length (lvE k es) <= 1)%nat.
Proof.
  intros Hj k Hk. induction Hk as [|k Hk IH]; cbn [lvE]; rewrite length_map; [done|].
  pose proof (draw_length r Hr k (lvE k es)). lia.
Qed.

Lemma isTop_unique K J es : isTop K es -> isTop J es -> K = J.
Proof.
  intros [H1 H2] [H3 H4]. destruct (lt_eq_lt_dec K J) as [[Hlt|E]|Hgt]; [|done|].
  - pose proof (lvE_single K es H1 J Hlt). lia.
  - pose proof (lvE_single J es H3 K Hgt). lia.
Qed.

Lemma bulkRoot_unique K es : zlen es <= 2 ^ 62 -> isTop K es -> bulkRoot es = mkNode K (lvE K es) /\ (K <= 62)%nat.
Proof.
  intros Hes HK. destruct (bulkRoot_top es Hes) as (J & -> & HJ & HJ2). by rewrite (isTop_unique K J es HK HJ).
Qed.

(** ** Every level of a list of valid entries is one too *)

Definition leafcount (k : nat) (es : list entry) : Z := match k with O => zlen es | S _ => sum_count es end.

Lemma sum_count_app a b : sum_count (a ++ b) = sum_count a + sum_count b.
Proof. induction a as [|e a IH]; simpl; lia. Qed.

Lemma leafcount_app k a b : leafcount k (a ++ b) = leafcount k a + leafcount k b.
Proof. destruct k; [cbn [leafcount]; rewrite length_app; lia|apply sum_count_app]. Qed.

Context (limit : Z) (Hlim : 0 <= limit <= maxInlineLimit).

Definition level_ok (k : nat) (X : list entry) : Prop :=
  ksorted key X /\ Forall (valid_entry k limit) X /\ leafcount k X <= 2 ^ 62.

Lemma leafcount_nonneg k X : Forall (valid_entry k limit) X -> 0 <= leafcount k X.
Proof. intros Hf. destruct k; [simpl; lia|]. by apply (sum_count_nonneg limit (S k)). Qed.

Lemma leafcount_pos k X : Forall (valid_entry k limit) X -> X <> [] -> 1 <= leafcount k X.
Proof.
  destruct X as [|e X]; [done|]. intros [He Hf]%Forall_cons _. destruct k; [simpl; lia|].
  pose proof (leafcount_nonneg (S k) X Hf) as Hn. destruct He as [_ [_ He]]. simpl in *. lia.
Qed.

Lemma level_ok_app k a b : level_ok k (a ++ b) -> level_ok k a /\ level_ok k b.
Proof.
  intros (H1 & [H2 H3]%Forall_app & H4). apply ksorted_app in H1 as (_ & H5 & H6). rewrite leafcount_app in H4.
  pose proof (leafcount_nonneg k a H2). pose proof (leafcount_nonneg k b H3). unfold level_ok. split_and!; try done; lia.
Qed.

Lemma total_leafcount k d : level_ok k d -> total (mkNode k d) = leafcount k d.
Proof.
  intros (_ & H2 & H3). destruct k; [done|]. apply (node_total_sum limit); [done| |done]. simpl in *. unfold two64. lia.
Qed.

Lemma lastKey_last k d : d <> [] -> exists d0 e, d = d0 ++ [e] /\ lastKey (mkNode k d) = key e.
Proof. intros Hd. destruct (exists_last Hd) as (d0 & e & ->). exists d0, e. by rewrite lastKey_snoc. Qed.

Lemma lastKey_ge k d x : ksorted key d -> x ∈ d -> key x <=b lastKey (mkNode k d).
Proof.
  intros Hs Hx. destruct (lastKey_last k d) as (d0 & e & -> & ->); [by destruct d; [apply elem_of_nil in Hx|]|].
  apply ksorted_app in Hs as (Hs & _). apply elem_of_app in Hx as [Hx| ->%list_elem_of_singleton]; [|apply ble_refl].
  apply blt_le, Hs; [done|by apply list_elem_of_singleton].
Qed.

Lemma named_level k D : level_ok k (concat D) -> Forall (fun d => d <> []) D ->
  level_ok (S k) (map (named k) D) /\ leafcount (S k) (map (named k) D) = leafcount k (concat D).
Proof.
  induction D as [|d D IH]; intros Hok Hne.
  - split; [|by destruct k]. split_and!; [constructor|constructor|simpl; lia].
  - apply Forall_cons in Hne as [Hd Hne]. simpl in Hok. destruct (level_ok_app _ _ _ Hok) as [H1 H2].
    destruct (IH H2 Hne) as [(H3 & H4 & H5) H6]. pose proof (total_leafcount k d H1) as Ht.
    assert (leafcount (S k) (map (named k) (d :: D)) = leafcount k (concat (d :: D))) as Hlc.
    { cbn [concat]. rewrite leafcount_app, <-H6, <-Ht. done. }
    split; [|done]. split_and!; [| |rewrite Hlc; by destruct Hok as (_ & _ & ?)].
    + simpl. apply ksorted_cons. split; [|done]. apply Forall_forall. intros x Hx.
      apply list_elem_of_In, in_map_iff in Hx as (c & <- & Hc).
      rewrite Forall_forall in Hne. assert (c ∈ D) as Hc2 by (by apply list_elem_of_In). specialize (Hne c Hc2).
      destruct Hok as (Hs & _). apply ksorted_app in Hs as (Hs & _). unfold named. cbn [key].
      destruct (lastKey_last k d Hd) as (d0 & e & Ed & ->). destruct (lastKey_last k c Hne) as (c0 & f & Ec & ->).
      apply Hs; [rewrite Ed; set_solver|]. apply list_elem_of_In, in_concat. exists c. split; [done|]. rewrite Ec.
      apply in_or_app. right. by left.
    + simpl. constructor; [|done]. destruct H1 as (_ & Hv & _). split.
      * unfold named. cbn [key]. destruct (lastKey_last k d Hd) as (d0 & e & Ed & ->). rewrite Ed in Hv.
        apply Forall_app in Hv as [_ [[Hk _] _]%Forall_cons]. done.
      * split; [done|]. unfold named. cbn [count]. rewrite Ht. by apply leafcount_pos.
Qed.

Lemma lvE_ok k es : level_ok 0 es -> level_ok k (lvE k es) /\ leafcount k (lvE k es) = zlen es.
Proof.
  intros Hes. induction k as [|k [IH1 IH2]]; [done|]. cbn [lvE].
  rewrite <-(draw_concat r Hr k (lvE k es)) in IH1. destruct (named_level k _ IH1 (draw_nonempty r Hr k _)) as [H1 H2].
  split; [done|]. by rewrite H2, draw_concat.
Qed.

(** A node of a level: what the store and the codec ask of it. *)
Definition node_ok (n : node) : Prop :=
  valid_node limit n /\ zlen (entries n) < two64 /\ zlen (encode n) <= MaxChunkSize.

Lemma level_len k X : level_ok k X -> zlen X <= 2 ^ 62.
Proof.
  intros (_ & Hf & Hl). destruct k; [done|]. revert Hl. cbn [leafcount].
  enough (zlen X <= sum_count X) by lia. induction Hf as [|e X [_ [_ He]] _ IH]; simpl in *; lia.
Qed.

Lemma level_entry k X : level_ok k X -> Forall (fun e => valid_entry k limit e /\ count e < two64) X.
Proof.
  induction X as [|e X IH]; intros Hok; [constructor|]. destruct (level_ok_app k [e] X Hok) as [H1 H2].
  constructor; [|by apply IH]. pose proof H1 as (_ & [He _]%Forall_cons & Hc). split; [done|]. destruct k.
  - destruct He as (_ & _ & _ & ->). done.
  - simpl in Hc. unfold two64. lia.
Qed.

Lemma node_roomy k d0 e : (k <= 63)%nat -> level_ok k (d0 ++ [e]) -> roomy r k d0 -> node_ok (mkNode k (d0 ++ [e])).
Proof.
  intros Hk Hok Hroom. split_and!.
  - pose proof Hok as (H1 & H2 & H3). split_and!; cbn [level entries]; try done; [unfold maxLevel; lia|by destruct d0|].
    destruct k; [|simpl in H3; unfold two64; lia].
    enough (sum_count (d0 ++ [e]) = 0) as -> by done. clear -H2. induction H2 as [|x X (_ & _ & _ & Hx) _ IH]; [done|]. simpl. lia.
  - cbn [entries]. pose proof (level_len _ _ Hok). unfold two64. lia.
  - apply (node_fits limit); [done..|by apply level_entry].
Qed.

Lemma draw_node_ok k X d : (k <= 63)%nat -> level_ok k X -> d ∈ draw r k X -> node_ok (mkNode k d).
Proof.
  intros Hk HX Hd. assert (level_ok k d) as Hok.
  { rewrite <-(draw_concat r Hr k X) in HX. apply list_elem_of_split in Hd as (D1 & D2 & E). rewrite E, concat_app in HX.
    apply level_ok_app in HX as [_ HX]. simpl in HX. by apply level_ok_app in HX as [HX _]. }
  unfold draw in Hd. destruct (drawFrom k (fresh r k) [] X) as [[ns p] s] eqn:E.
  destruct (drawFrom_ok r Hr _ _ _ _ _ _ _ (fresh_ok r Hr k) E) as ((_ & Hp) & _ & Hns).
  apply elem_of_app in Hd as [Hd|Hd].
  - rewrite Forall_forall in Hns. destruct (Hns d Hd) as [(d0 & e & -> & Hroom) _]. by apply node_roomy.
  - destruct p as [|x p]; [by apply elem_of_nil in Hd|]. apply list_elem_of_singleton in Hd as ->.
    destruct (exists_last (l := x :: p) ltac:(done)) as (d0 & e & Ed). rewrite Ed in *. apply node_roomy; [done..|].
    destruct Hp as [Hp|[Hp1 Hp2]]; [left|right; rewrite length_app in Hp2; simpl in Hp2; split; [done|lia]].
    rewrite esizes_app in Hp. cbn [esizes foldr] in Hp. apply level_entry, Forall_app in Hok as [_ [[He1 He2] _]%Forall_cons].
    pose proof (entrySize_max limit k e Hlim He1 He2). lia.
Qed.

Lemma decode_encode n : node_ok n -> decodeNode (encode n) limit = Ok n.
Proof.
  intros (H1 & H2 & _). apply node_codec_iff; [unfold maxInlineLimit, two64 in *; lia|done].
Qed.

Lemma encode_inj n n' : node_ok n -> node_ok n' -> encode n = encode n' -> n = n'.
Proof. intros H1%decode_encode H2%decode_encode E. rewrite E, H2 in H1. by injection H1. Qed.

Lemma empty_node_ok : node_ok emptyNode.
Proof.
  split; [|split; [reflexivity|vm_compute; discriminate]].
  split; [discriminate|]. split; [done|]. split; [constructor|]. split; [constructor|reflexivity].
Qed.

Lemma bulkRoot_ok es : level_ok 0 es -> node_ok (bulkRoot es).
Proof.
  intros Hes. destruct (bulkRoot_top es) as (K & -> & [HK HK1] & HK2); [by apply level_len with 0%nat|].
  destruct (lvE_ok K es Hes) as [Hok _]. pose proof (draw_one r Hr K _ HK) as Hd.
  destruct (lvE K es) as [|x X] eqn:E.
  - destruct HK1 as [->|HK1]; [apply empty_node_ok|simpl in HK1; lia].
  - apply draw_node_ok with (x :: X); [lia|done|]. rewrite Hd. left.
Qed.

(** ** Reading a drawn tree back *)

Definition levelNodes (k : nat) (es : list entry) : list node := map (mkNode k) (draw r k (lvE k es)).

(** The nodes of the levels up to [h], and the root. *)
Definition treeNodes (h : nat) (es : list entry) : list node :=
  concat (map (fun k => levelNodes k es) (seq 0 (S h))) ++ [bulkRoot es].

Lemma treeNodes_elem h k d es : (k <= h)%nat -> d ∈ draw r k (lvE k es) -> mkNode k d ∈ treeNodes h es.
Proof.
  intros Hk Hd. apply elem_of_app. left. apply list_elem_of_In, in_concat. exists (levelNodes k es). split.
  - apply in_map_iff. exists k. split; [done|]. apply in_seq. lia.
  - apply in_map. by apply list_elem_of_In.
Qed.

Lemma treeNodes_root h es : bulkRoot es ∈ treeNodes h es.
Proof. apply elem_of_app. right. by apply list_elem_of_singleton. Qed.

Lemma treeNodes_ok h es n : level_ok 0 es -> (h <= 63)%nat -> n ∈ treeNodes h es -> node_ok n.
Proof.
  intros Hes Hh [Hn| ->%list_elem_of_singleton]%elem_of_app; [|by apply bulkRoot_ok].
  apply list_elem_of_In, in_concat in Hn as (l & Hl & Hn). apply in_map_iff in Hl as (k & <- & Hk%in_seq).
  apply in_map_iff in Hn as (d & <- & Hd%list_elem_of_In).
  apply draw_node_ok with (lvE k es); [lia|by apply lvE_ok|done].
Qed.

Section Readable.
Context (rd : creader) (es : list entry) (h : nat).
Context (Hes : level_ok 0 es) (Hh : (h <= 63)%nat).
(** Every node of the levels under [h] reads back. *)
Context (Hrd : forall k d, (k < h)%nat -> d ∈ draw r k (lvE k es) ->
  rd (Sum (encode (mkNode k d))) = Ok (encode (mkNode k d))).

Lemma readN_named k d : (k < h)%nat -> d ∈ draw r k (lvE k es) -> readN rd limit (ProllyNode.child (named k d)) = Ok (mkNode k d).
Proof.
  intros Hk Hd. unfold readN. cbn [named ProllyNode.child]. rewrite Hrd by done. apply decode_encode.
  apply draw_node_ok with (lvE k es); [lia|by apply lvE_ok|done].
Qed.

Lemma kids_named k d : (k < h)%nat -> d ∈ draw r k (lvE k es) -> kids rd limit (named k d) = d.
Proof. intros Hk Hd. unfold kids. by rewrite readN_named. Qed.

Lemma kids_all k D : (k < h)%nat -> (forall d, d ∈ D -> d ∈ draw r k (lvE k es)) ->
  concat (map (kids rd limit) (map (named k) D)) = concat D.
Proof.
  intros Hk. induction D as [|d D IH]; intros HD; [done|]. simpl. rewrite kids_named by (done || apply HD; left).
  rewrite IH; [done|]. intros c Hc. apply HD. by right.
Qed.

Lemma leavesN_concat d X : leavesN rd limit (S d) X = leavesN rd limit d (concat (map (kids rd limit) X)).
Proof. induction X as [|e X IH]; [done|]. simpl. by rewrite leavesN_app, <-IH, leavesN_cons, leaves_S. Qed.

Lemma leavesN_lvE k : (k <= h)%nat -> leavesN rd limit k (lvE k es) = es.
Proof.
  induction k as [|k IH]; intros Hk; [apply leavesN_0|]. rewrite leavesN_concat. cbn [lvE].
  rewrite kids_all, draw_concat by (done || lia). apply IH. lia.
Qed.

Lemma lvE_okE k : (k <= h)%nat -> Forall (okE rd limit k) (lvE k es).
Proof.
  induction k as [|k IH]; intros Hk; [by apply Forall_true|]. specialize (IH ltac:(lia)). cbn [lvE].
  apply Forall_forall. intros x Hx. apply list_elem_of_In, in_map_iff in Hx as (d & <- & Hd%list_elem_of_In).
  pose proof (draw_concat r Hr k (lvE k es)) as Hc. pose proof (draw_nonempty r Hr k (lvE k es)) as Hne.
  rewrite Forall_forall in Hne. pose proof (leavesN_lvE k ltac:(lia)) as Hlv.
  apply list_elem_of_split in Hd as Hsp. destruct Hsp as (D1 & D2 & E). rewrite E, concat_app in Hc. simpl in Hc.
  exists (mkNode k d). cbn [level entries]. split_and!; try done.
  - by apply readN_named.
  - by apply Hne.
  - rewrite <-Hc, !Forall_app in IH. tauto.
  - destruct Hes as (Hs & _). rewrite <-Hlv, <-Hc, !leavesN_app in Hs. by eapply ksorted_sub.
Qed.
End Readable.
End Levels.

(** ** Canonical maps *)

Definition wf (c : Config) (es : list entry) : Prop := level_ok (InlineLimit c) 0 es.

(** [m] is the tree a bulk build of [es] draws, and [rd] holds its nodes. *)
Definition canonical `{Hasher} (rd : creader) (m : Map) (es : list entry) : Prop :=
  rule (cfg m) = Ok (mrule m) /\ wf (cfg m) es /\
  let n := bulkRoot (mrule m) es in
  top m = Some n /\ root m = Sum (encode n) /\ mcount m = zlen es /\ height m = level n /\
  (forall x, x ∈ treeNodes (mrule m) (level n) es -> rd (Sum (encode x)) = Ok (encode x)).

Lemma rule_inline c r : rule c = Ok r -> 0 <= InlineLimit c <= maxInlineLimit /\ Boundary.good_rule r.
Proof. unfold rule. intros H. guards H. split; [lia|by exists (Nodes c)]. Qed.

Section Canonical.
Context `{Hasher}.

Lemma canonical_map_ok rd m es : canonical rd m es -> map_ok rd m es.
Proof.
  intros (Hrule & Hwf & Htop & Hroot & Hcnt & Hh & Hrd). destruct (rule_inline _ _ Hrule) as [Hlim Hr].
  split; [done|]. exists (bulkRoot (mrule m) es). set (n := bulkRoot (mrule m) es) in *.
  destruct (bulkRoot_top (mrule m) Hr es) as (K & Hn & [HK1 HK2] & HK); [exact (level_len _ 0 es Hwf)|]. fold n in Hn.
  assert (node_ok (InlineLimit (cfg m)) n) as Hok by (by apply bulkRoot_ok).
  rewrite Hn in *. cbn [level entries] in *.
  assert (forall k d, (k < K)%nat -> d ∈ draw (mrule m) k (lvE (mrule m) k es) ->
    rd (Sum (encode (mkNode k d))) = Ok (encode (mkNode k d))) as Hrd'.
  { intros k d Hk Hd. apply Hrd, treeNodes_elem; [lia|done]. }
  pose proof (leavesN_lvE _ Hr _ Hlim rd es K Hwf ltac:(lia) Hrd' K (le_n _)) as Hlv.
  destruct (lvE_ok _ Hr _ Hlim K es Hwf) as [HlK HcK].
  split_and!; try done.
  - rewrite Hroot. unfold readN. rewrite Hrd; [by apply decode_encode|]. rewrite <-Hn. apply treeNodes_root.
  - split; [done|]. cbn [entries]. rewrite Hlv. split; [|apply Hwf].
    apply (lvE_okE _ Hr _ Hlim rd es K Hwf); [lia|done|done].
  - rewrite (total_leafcount (InlineLimit (cfg m))) by done. lia.
Qed.

(** A canonical map's root is a function of its contents. *)
Lemma canonical_root rd rd' m m' es : canonical rd m es -> canonical rd' m' es -> mrule m = mrule m' -> root m = root m'.
Proof. intros (_ & _ & _ & -> & _) (_ & _ & _ & -> & _) ->. done. Qed.

(** A map as [Open] hands it out. *)
Definition opened (m : Map) : Map := mkMap (cfg m) (mrule m) (root m) (mcount m) (height m) (top m) false zero_hash [].

Lemma canonical_opened rd m es : canonical rd m es -> canonical rd (opened m) es.
Proof. done. Qed.

Lemma Open_reads c rt : reads_only (Prolly.Open c rt).
Proof. unfold Prolly.Open. destruct (rule c); [|done]. apply reads_bind; [apply read_reads|]. intros n. by destruct (_ && _). Qed.

Lemma Open_map_ok rd m es : map_ok rd m es -> interp rd (Prolly.Open (cfg m) (root m)) = Ok (opened m).
Proof.
  intros (Hr & n & Ht & Hread & _ & _ & Hcnt & Hh & Hlv).
  unfold Prolly.Open. rewrite Hr. rewrite interp_bind by apply read_reads. unfold read. cbn [top cfg].
  unfold readN in Hread. rewrite interp_bind by done. cbn [interp pGet]. destruct (rd (root m)) as [b|]; [|done].
  cbn [interp pLift]. rewrite Hread. unfold opened. rewrite Ht, Hcnt, Hh.
  destruct (Nat.ltb_spec 0 (level n)); [|done]. destruct (Z.ltb_spec (zlen (entries n)) 2); [|done]. lia.
Qed.

Lemma Open_at rd m es : canonical rd m es -> interp rd (Prolly.Open (cfg m) (root m)) = Ok (opened m).
Proof. intros Hc. by eapply Open_map_ok, canonical_map_ok. Qed.
End Canonical.
