(* ===== verification/ProllyFlush.v ===== *)
(** * core/prolly: writing edits into a map

    flush.go and [Editor.Flush]. Below the root each level re-chunks only the
    stretches its edits touch; the root level is re-chunked whole, and the tree
    then grows or collapses to its top. These are the definitions; what they
    build is proved in [ProllyCanon]. *)

From S2P Require Import Prelude Wire Hash ChunkStore Prog ProllyNode Prolly.
From S2P Require Boundary Stream StreamWrite.

(** A put of [ee], or a delete, at one level. *)
Record edit := mkEdit { ekey : bytes; edel : bool; ee : entry }.

Definition zeroEntry : entry := mkEntry [] (VInline []) zero_hash 0.
Definition delEdit (k : bytes) : edit := mkEdit k true zeroEntry.
Definition putEdit (e : entry) : edit := mkEdit (key e) false e.

Section Flushing.
Context `{Hasher}.

(** [cchanged] is [None] where the source's pointer is nil. *)
Record chunker := mkChunker {
  clevel : nat; csplit : Boundary.Splitter; cpending : list entry; cout : list entry;
  cnodes : list node; chold : bool; cexisting : gset hash; cchanged : option (list bytes) }.

Definition newChunker (m : Map) (lv : nat) (hold : bool) : chunker :=
  mkChunker lv (Boundary.newSplitter (mrule m) (Z.of_nat lv)) [] [] [] hold ∅ None.

(** [store]: the entry a level up that names [n]; a [chunk.RawWriter] stores the same chunk uncompressed. *)
Definition store (n : node) (existing : gset hash) : prog entry :=
  let b := encode n in
  let h := Sum b in
  let e := mkEntry (lastKey n) (VInline []) h (total n) in
  if bool_decide (h ∈ existing) then mret e else _ ← pPut b; mret e.

Definition end_ (c : chunker) : prog chunker :=
  if (length (cpending c) =? 0)%nat then mret c
  else
    let n := mkNode (clevel c) (cpending c) in
    if chold c then
      mret (mkChunker (clevel c) (csplit c) [] (cout c) (cnodes c ++ [n]) (chold c) (cexisting c) (cchanged c))
    else
      e ← store n (cexisting c);
      mret (mkChunker (clevel c) (csplit c) [] (cout c ++ [e]) (cnodes c) (chold c) (cexisting c) (cchanged c)).

Definition add (c : chunker) (e : entry) : prog chunker :=
  let '(full, split) := Boundary.Append (csplit c) (Sum (key e)) (entrySize (clevel c) e) in
  let c := mkChunker (clevel c) split (cpending c ++ [e]) (cout c) (cnodes c) (chold c) (cexisting c) (cchanged c) in
  if full then end_ c else mret c.

Definition log (changed : list bytes) (c : chunker) : chunker :=
  if (clevel c =? 0)%nat
  then mkChunker (clevel c) (csplit c) (cpending c) (cout c) (cnodes c) (chold c) (cexisting c) (Some changed)
  else c.

Definition change (k : bytes) (c : chunker) : chunker :=
  match cchanged c with
  | None => c
  | Some l => mkChunker (clevel c) (csplit c) (cpending c) (cout c) (cnodes c) (chold c) (cexisting c) (Some (l ++ [k]))
  end.

Definition exists_ (h : hash) (c : chunker) : chunker :=
  mkChunker (clevel c) (csplit c) (cpending c) (cout c) (cnodes c) (chold c) ({[h]} ∪ cexisting c) (cchanged c).

(** The keys logged so far; [changed] itself above the leaves. *)
Definition logged (changed : list bytes) (c : chunker) : list bytes := default changed (cchanged c).

Definition within (limit : option bytes) (u : edit) : bool :=
  match limit with None => true | Some l => bleb (ekey u) l end.

(** [merge]: [old] is what is left of the node's entries. Every round takes an
    entry or an edit. *)
Fixpoint mergeLoop (fuel : nat) (c : chunker) (old : list entry) (edits : list edit) (limit : option bytes)
  : prog (chunker * list edit) :=
  let used := match edits with [] => false | u :: _ => within limit u end in
  if negb ((0 <? length old)%nat || used) then mret (c, edits)
  else match fuel with
  | O => pFail (EMsg "no fuel")
  | S fuel =>
      match edits, old with
      | u :: us, [] => (* cmp = -1 *)
          c ← (if edel u then mret c else add (change (ekey u) c) (ee u));
          mergeLoop fuel c [] us limit
      | [], o :: os => (* cmp = 1 *)
          c ← add c o; mergeLoop fuel c os [] limit
      | u :: us, o :: os =>
          match (if within limit u then bcompare (ekey u) (key o) else Gt) with
          | Lt =>
              c ← (if edel u then mret c else add (change (ekey u) c) (ee u));
              mergeLoop fuel c (o :: os) us limit
          | Eq =>
              let c := if edel u || negb (value_equal (val (ee u)) (val o)) then change (ekey u) c else c in
              c ← (if edel u then mret c else add c (ee u));
              mergeLoop fuel c os us limit
          | Gt => c ← add c o; mergeLoop fuel c os (u :: us) limit
          end
      | [], [] => mret (c, [])
      end
  end.

Definition merge (c : chunker) (old : list entry) (edits : list edit) (limit : option bytes) : prog (chunker * list edit) :=
  mergeLoop (length old + length edits) c old edits limit.

(** [replace(removed, added)]; every round takes an entry of one of the lists. *)
Fixpoint replaceLoop (fuel : nat) (removed added : list entry) : list edit :=
  match fuel with
  | O => []
  | S fuel =>
      match removed, added with
      | [], [] => []
      | r :: rs, [] => delEdit (key r) :: replaceLoop fuel rs []
      | [], a :: as_ => putEdit a :: replaceLoop fuel [] as_
      | r :: rs, a :: as_ =>
          match bcompare (key r) (key a) with
          | Lt => delEdit (key r) :: replaceLoop fuel rs (a :: as_)
          | Gt => putEdit a :: replaceLoop fuel (r :: rs) as_
          | Eq =>
              (if bool_decide (ProllyNode.child r <> ProllyNode.child a) || negb (count r =? count a)
               then [putEdit a] else []) ++ replaceLoop fuel rs as_
          end
      end
  end.

Definition replace (removed added : list entry) : list edit :=
  replaceLoop (length removed + length added) removed added.

Definition nodeHash (c : cursor) : res hash :=
  match c with
  | _ :: p :: _ => match entries (fn p) !! fi p with
                   | Some e => Ok (ProllyNode.child e)
                   | None => Err (EMsg "index out of range")
                   end
  | _ => Err (EMsg "nil cursor")
  end.

(** One stretch of [applyLevel]: re-chunk nodes from the cursor on until a new
    node ends where an old one did. Every round takes a node of the level. *)
Fixpoint stretch (fuel : nat) (m : Map) (c : cursor) (ch : chunker) (removed : list entry) (edits : list edit)
  : prog (chunker * list entry * list edit) :=
  match fuel with
  | O => pFail (EMsg "no fuel")
  | S fuel =>
      match c with
      | [] => pFail (EMsg "nil cursor")
      | f :: _ =>
          h ← pLift (nodeHash c);
          let removed := removed ++ [mkEntry (lastKey (fn f)) (VInline []) h (total (fn f))] in
          let ch := exists_ h ch in
          let limit := if lastNode c then None else Some (lastKey (fn f)) in
          cu ← merge ch (entries (fn f)) edits limit;
          let '(ch, edits) := cu in
          if (length (cpending ch) =? 0)%nat then mret (ch, removed, edits)
          else match limit with
               | None => ch ← end_ ch; mret (ch, removed, edits)
               | Some _ => c ← nextNode m c; stretch fuel m c ch removed edits
               end
      end
  end.

(** The outer loop of [applyLevel]: every stretch takes an edit. *)
Fixpoint levelLoop (fuel : nat) (m : Map) (lv : nat) (edits : list edit) (changed : list bytes) (up : list edit)
  : prog (list edit * list bytes) :=
  match edits with
  | [] => mret (up, changed)
  | u :: _ =>
      match fuel with
      | O => pFail (EMsg "no fuel")
      | S fuel =>
          c ← seek m lv (ekey u);
          res ← stretch (S (Z.to_nat (mcount m))) m c (log changed (newChunker m lv false)) [] edits;
          let '(ch, removed, edits) := res in
          levelLoop fuel m lv edits (logged changed ch) (up ++ replace removed (cout ch))
      end
  end.

Definition applyLevel (m : Map) (lv : nat) (edits : list edit) (changed : list bytes) : prog (list edit * list bytes) :=
  levelLoop (length edits) m lv edits changed [].

Definition with_ (m : Map) (rt : hash) (n : node) : Map :=
  mkMap (cfg m) (mrule m) rt (total n) (level n) (Some n) false zero_hash [].

(** No single-child root: every round goes one level down. *)
Fixpoint collapse (fuel : nat) (m : Map) (n : node) : prog node :=
  if (0 <? level n)%nat && (length (entries n) =? 1)%nat then
    match fuel with
    | O => pFail (EMsg "no fuel")
    | S fuel => c ← child m n 0; collapse fuel m c
    end
  else mret n.

Fixpoint storeAll (ns : list node) : prog (list entry) :=
  match ns with
  | [] => mret []
  | n :: ns => e ← store n ∅; es ← storeAll ns; mret (e :: es)
  end.

Fixpoint addAll (c : chunker) (es : list entry) : prog chunker :=
  match es with
  | [] => mret c
  | e :: es => c ← add c e; addAll c es
  end.

(** The levels above the old root: a node above the leaves has two entries
    unless it is its level's last, so every round leaves fewer. *)
Fixpoint grow (fuel : nat) (m : Map) (lv : nat) (up : list entry) : prog (list entry) :=
  if (length up <=? 1)%nat then mret up
  else match fuel with
  | O => pFail (EMsg "no fuel")
  | S fuel =>
      next ← addAll (newChunker m lv false) up;
      next ← end_ next;
      grow fuel m (S lv) (cout next)
  end.

Definition applyRoot (m : Map) (rt : node) (edits : list edit) (changed : list bytes) : prog (Map * list bytes) :=
  cu ← merge (log changed (newChunker m (level rt) true)) (entries rt) edits None;
  ch ← end_ cu.1;
  let changed := logged changed ch in
  match cnodes ch with
  | [] => m' ← Empty (cfg m); mret (m', changed)
  | [n] =>
      n ← collapse (level n) m n;
      e ← store n ∅;
      mret (with_ m (ProllyNode.child e) n, changed)
  | ns =>
      up ← storeAll ns;
      up ← grow (length up) m (S (level rt)) up;
      match up with
      | [] => pFail (EMsg "index out of range")
      | e :: _ => top ← read m (ProllyNode.child e); mret (with_ m (ProllyNode.child e) top, changed)
      end
  end.

(** [apply]'s loop over the [n] levels under the root, from [lv] up. *)
Fixpoint applyLoop (n : nat) (m : Map) (rt : node) (lv : nat) (edits : list edit) (changed : list bytes)
  : prog (Map * list bytes) :=
  match n with
  | O => applyRoot m rt edits changed
  | S n =>
      ec ← applyLevel m lv edits changed;
      let '(edits, changed) := ec in
      if (length edits =? 0)%nat then mret (m, changed) else applyLoop n m rt (S lv) edits changed
  end.

Definition apply_ (m : Map) (edits : list edit) : prog (Map * list bytes) :=
  rt ← read m (root m); applyLoop (level rt) m rt 0 edits [].

(** ** [Editor.Flush] *)

(** [stream.Write] of a [bytes.Reader]. *)
Definition writeValue (c : Config) (p : bytes) : prog Stream.Ref :=
  StreamWrite.Write [(p, None)] (Some (zlen p)) (SConfig c).

Definition valueOf (c : Config) (p : bytes) : prog value :=
  if InlineLimit c <? zlen p then ref ← writeValue c p; mret (VStream ref) else mret (VInline p).

Fixpoint prepare (c : Config) (eds : gmap bytes (option bytes)) (keys : list bytes) : prog (list edit) :=
  match keys with
  | [] => mret []
  | k :: ks =>
      u ← match eds !! k with
          | Some (Some p) => v ← valueOf c p; mret (putEdit (mkEntry k v zero_hash 0))
          | _ => mret (delEdit k)
          end;
      us ← prepare c eds ks;
      mret (u :: us)
  end.

(** [sort.Strings] of the keys of a Go map. *)
Definition sortedKeys (eds : gmap bytes (option bytes)) : list bytes := merge_sort ble (map fst (map_to_list eds)).

(** The new map and the editor afterwards. *)
Definition Flush (e : Editor) : prog (Map * Editor) :=
  us ← prepare (cfg (em e)) (edits e) (sortedKeys (edits e));
  mc ← apply_ (em e) us;
  let '(next, chg) := mc in
  let m := mkMap (cfg next) (mrule next) (root next) (mcount next) (height next) (top next) true (root (em e)) chg in
  mret (m, mkEditor m ∅).
End Flushing.
