(* ===== verification/ProllyMerge.v ===== *)
(** * core/prolly: merging edits and drawing nodes

    The reference merge of edits into a sorted list ([mergeE]) and the keys it
    changes; [replace] as its inverse one level up; and what [merge] and the
    chunker do on a store: they draw the nodes of [ProllyDraw] from the merged
    entries and store each one. *)

From S2P Require Import Prelude Wire Hash ChunkStore Prog ProllyNode Prolly ProllyDiff ProllyDraw ProllyFlush.
From S2P Require Boundary Stream StreamWrite.

(** ** The reference: edits merged into a sorted list *)

Definition putOf (u : edit) : list entry := if edel u then [] else [ee u].

Fixpoint mergeE (old : list entry) : list edit -> list entry :=
  fix go (us : list edit) : list entry :=
    match old, us with
    | _, [] => old
    | [], u :: us => putOf u ++ go us
    | o :: os, u :: us' =>
        match bcompare (ekey u) (key o) with
        | Lt => putOf u ++ go us'
        | Eq => putOf u ++ mergeE os us'
        | Gt => o :: mergeE os us
        end
    end.

(** The keys the merge logs as changed. *)
Definition newKey (u : edit) : list bytes := if edel u then [] else [ekey u].

Fixpoint logE (old : list entry) : list edit -> list bytes :=
  fix go (us : list edit) : list bytes :=
    match old, us with
    | _, [] => []
    | [], u :: us => newKey u ++ go us
    | o :: os, u :: us' =>
        match bcompare (ekey u) (key o) with
        | Lt => newKey u ++ go us'
        | Eq => (if edel u || negb (value_equal (val (ee u)) (val o)) then [ekey u] else []) ++ logE os us'
        | Gt => logE os us
        end
    end.

(** A put carries its key. *)
Definition edit_ok (u : edit) : Prop := edel u = false -> key (ee u) = ekey u.

Lemma mergeE_nil_r old : mergeE old [] = old.
Proof. by destruct old. Qed.
Lemma mergeE_nil_l u us : mergeE [] (u :: us) = putOf u ++ mergeE [] us.
Proof. done. Qed.
Lemma mergeE_cons o os u us : mergeE (o :: os) (u :: us) =
  match bcompare (ekey u) (key o) with
  | Lt => putOf u ++ mergeE (o :: os) us
  | Eq => putOf u ++ mergeE os us
  | Gt => o :: mergeE os (u :: us)
  end.
Proof. done. Qed.

Lemma logE_nil_r old : logE old [] = [].
Proof. by destruct old. Qed.
Lemma logE_nil_l u us : logE [] (u :: us) = newKey u ++ logE [] us.
Proof. done. Qed.
Lemma logE_cons o os u us : logE (o :: os) (u :: us) =
  match bcompare (ekey u) (key o) with
  | Lt => newKey u ++ logE (o :: os) us
  | Eq => (if edel u || negb (value_equal (val (ee u)) (val o)) then [ekey u] else []) ++ logE os us
  | Gt => logE os (u :: us)
  end.
Proof. done. Qed.

(** Induction over a merge. *)
Lemma merge_ind (P : list entry -> list edit -> Prop) :
  (forall old, P old []) ->
  (forall u us, P [] us -> P [] (u :: us)) ->
  (forall o os u us, ekey u <b key o -> P (o :: os) us -> P (o :: os) (u :: us)) ->
  (forall o os u us, ekey u = key o -> P os us -> P (o :: os) (u :: us)) ->
  (forall o os u us, key o <b ekey u -> P os (u :: us) -> P (o :: os) (u :: us)) ->
  forall old us, P old us.
Proof.
  intros H1 H2 H3 H4 H5. induction old as [|o os IHo]; intros us.
  - induction us; auto.
  - induction us as [|u us IHu]; [auto|]. destruct (bcompare_spec (ekey u) (key o)); auto.
Qed.

Ltac merge_cases :=
  match goal with
  | H : ekey ?u <b key ?o |- context [bcompare (ekey ?u) (key ?o)] =>
      rewrite (H : bcompare (ekey u) (key o) = Lt)
  | H : ekey ?u = key ?o |- context [bcompare (ekey ?u) (key ?o)] => rewrite H, bcompare_refl
  | H : key ?o <b ekey ?u |- context [bcompare (ekey ?u) (key ?o)] => rewrite (proj2 (bcompare_gt (ekey u) (key o)) H)
  end.

(** A merge splits where both lists do. *)
Lemma mergeE_app A U : forall B V,
  (forall a v, a ∈ A -> v ∈ V -> key a <b ekey v) -> (forall u b, u ∈ U -> b ∈ B -> ekey u <b key b) ->
  mergeE (A ++ B) (U ++ V) = mergeE A U ++ mergeE B V /\ logE (A ++ B) (U ++ V) = logE A U ++ logE B V.
Proof.
  revert A U. apply (merge_ind (fun A U => forall B V, _ -> _ -> mergeE (A ++ B) (U ++ V) = _ /\ logE (A ++ B) (U ++ V) = _)).
  - intros A B V HA _. rewrite mergeE_nil_r, logE_nil_r. simpl. induction A as [|a A IH]; [done|].
    destruct V as [|v V]; [by rewrite !mergeE_nil_r, !logE_nil_r|]. simpl app. rewrite mergeE_cons, logE_cons.
    assert (key a <b ekey v) by (apply HA; left). merge_cases. destruct IH as [-> ->]; [|done].
    intros a' v' Ha Hv. apply HA; [by right|done].
  - intros u us IH B V _ HU. rewrite mergeE_nil_l, logE_nil_l. destruct (IH B V) as [IH1 IH2]; [set_solver|set_solver|].
    simpl in *. destruct B as [|b B]; [by rewrite mergeE_nil_l, logE_nil_l, IH1, IH2, !app_assoc|].
    rewrite mergeE_cons, logE_cons. assert (ekey u <b key b) by (apply HU; left). merge_cases. by rewrite IH1, IH2, !app_assoc.
  - intros o os u us Hlt IH B V HA HU. destruct (IH B V) as [IH1 IH2]; [set_solver|set_solver|].
    simpl app in *. rewrite !mergeE_cons, !logE_cons. merge_cases. by rewrite IH1, IH2, !app_assoc.
  - intros o os u us He IH B V HA HU. destruct (IH B V) as [IH1 IH2]; [set_solver|set_solver|].
    simpl app in *. rewrite !mergeE_cons, !logE_cons. merge_cases. by rewrite IH1, IH2, !app_assoc.
  - intros o os u us Hgt IH B V HA HU. destruct (IH B V) as [IH1 IH2]; [set_solver|set_solver|].
    simpl app in *. rewrite !mergeE_cons, !logE_cons. merge_cases. by rewrite IH1, IH2.
Qed.

Lemma mergeE_elem old us x : x ∈ mergeE old us -> x ∈ old \/ exists u, u ∈ us /\ edel u = false /\ x = ee u.
Proof.
  revert old us. apply (merge_ind (fun old us => x ∈ mergeE old us -> _)).
  - intros old. rewrite mergeE_nil_r. by left.
  - intros u us IH. rewrite mergeE_nil_l, elem_of_app. intros [Hx|Hx].
    + unfold putOf in Hx. destruct (edel u) eqn:E; [by apply elem_of_nil in Hx|]. apply list_elem_of_singleton in Hx as ->.
      right. exists u. split; [left|done].
    + destruct (IH Hx) as [?|(w & ? & ?)]; [by left|right; exists w; split; [by right|done]].
  - intros o os u us Hlt IH. rewrite mergeE_cons. merge_cases. rewrite elem_of_app. intros [Hx|Hx].
    + unfold putOf in Hx. destruct (edel u) eqn:E; [by apply elem_of_nil in Hx|]. apply list_elem_of_singleton in Hx as ->.
      right. exists u. split; [left|done].
    + destruct (IH Hx) as [?|(w & ? & ?)]; [by left|right; exists w; split; [by right|done]].
  - intros o os u us He IH. rewrite mergeE_cons. merge_cases. rewrite elem_of_app. intros [Hx|Hx].
    + unfold putOf in Hx. destruct (edel u) eqn:E; [by apply elem_of_nil in Hx|]. apply list_elem_of_singleton in Hx as ->.
      right. exists u. split; [left|done].
    + destruct (IH Hx) as [?|(w & ? & ?)]; [left; by right|right; exists w; split; [by right|done]].
  - intros o os u us Hgt IH. rewrite mergeE_cons. merge_cases. rewrite elem_of_cons. intros [->|Hx]; [left; left|].
    destruct (IH Hx) as [?|(w & ? & ?)]; [left; by right|right; exists w; done].
Qed.

Definition bounded (lo : bytes) (old : list entry) (us : list edit) : Prop :=
  Forall (fun x => lo <b key x) old /\ Forall (fun u => lo <b ekey u) us.

Lemma mergeE_above lo old us : Forall edit_ok us -> bounded lo old us -> Forall (fun x => lo <b key x) (mergeE old us).
Proof.
  intros Hok [H1 H2]. rewrite Forall_forall in Hok. rewrite Forall_forall in H1. rewrite Forall_forall in H2. apply Forall_forall. intros x Hx.
  destruct (mergeE_elem _ _ _ Hx) as [?|(u & Hu & Hd & ->)]; [by apply H1|]. rewrite (Hok u Hu Hd). by apply H2.
Qed.

(** What a merge holds, key by key: the edit's entry, or what was there. *)
Lemma mergeE_sorted old us : ksorted key old -> ksorted ekey us -> Forall edit_ok us -> ksorted key (mergeE old us).
Proof.
  revert old us. apply (merge_ind (fun old us => ksorted key old -> ksorted ekey us -> Forall edit_ok us -> ksorted key (mergeE old us))).
  - intros old. by rewrite mergeE_nil_r.
  - intros u us IH Ho [Hu Hus]%ksorted_cons [Hok Hoks]%Forall_cons. rewrite mergeE_nil_l. unfold putOf. unfold edit_ok in Hok.
    destruct (edel u); [by apply IH|]. cbn [app]. apply ksorted_cons. rewrite Hok by done.
    split; [apply mergeE_above; [done|]; by split|by apply IH].
  - intros o os u us Hlt IH Ho [Hu Hus]%ksorted_cons [Hok Hoks]%Forall_cons. rewrite mergeE_cons. merge_cases.
    unfold putOf. unfold edit_ok in Hok. destruct (edel u); [by apply IH|]. cbn [app]. apply ksorted_cons. rewrite Hok by done.
    split; [apply mergeE_above; [done|]; split; [by apply ksorted_above with (e := mkEntry (ekey u) (VInline []) zero_hash 0)|done]|by apply IH].
  - intros o os u us He IH [Ho Hos]%ksorted_cons [Hu Hus]%ksorted_cons [Hok Hoks]%Forall_cons. rewrite mergeE_cons. merge_cases.
    unfold putOf. unfold edit_ok in Hok. destruct (edel u); [by apply IH|]. cbn [app]. apply ksorted_cons. rewrite Hok by done.
    split; [apply mergeE_above; [done|]; split; [by rewrite He|done]|by apply IH].
  - intros o os u us Hgt IH [Ho Hos]%ksorted_cons Hus Hok. rewrite mergeE_cons. merge_cases. apply ksorted_cons.
    split; [|by apply IH]. apply mergeE_above; [done|]. split; [done|]. apply ksorted_cons in Hus as [Hu Hus].
    constructor; [done|]. eapply Forall_impl; [exact Hu|]. simpl. intros w Hw. border.
Qed.

Lemma mergeE_skip o os us : Forall (fun u => key o <b ekey u) us -> mergeE (o :: os) us = o :: mergeE os us.
Proof.
  destruct us as [|u us]; [by rewrite !mergeE_nil_r|]. intros [Hu _]%Forall_cons. rewrite mergeE_cons. by merge_cases.
Qed.

Lemma mergeE_lookup old us k : ksorted key old -> ksorted ekey us -> Forall edit_ok us ->
  klookup key k (mergeE old us) =
  match klookup ekey k us with
  | Some u => if edel u then None else Some (ee u)
  | None => klookup key k old
  end.
Proof.
  revert old us. apply (merge_ind (fun old us => ksorted key old -> ksorted ekey us -> Forall edit_ok us -> _ = _)).
  - intros old. by rewrite mergeE_nil_r.
  - intros u us IH Ho [Hu Hus]%ksorted_cons [Hok Hoks]%Forall_cons. rewrite mergeE_nil_l, klookup_cons, klookup_app.
    unfold putOf. unfold edit_ok in Hok. rewrite IH by done. destruct (edel u) eqn:Ed.
    + case_decide as Hk; [|done]. rewrite Ed. change (klookup key k []) with (@None entry). cbv iota. assert (klookup ekey k us = None) as ->; [|done].
      apply klookup_None. eapply Forall_impl; [exact Hu|]. simpl. intros w Hw. subst k. intros E. rewrite E in Hw. border.
    + rewrite klookup_cons. rewrite Hok by done. case_decide; [by rewrite Ed|done].
  - intros o os u us Hlt IH Ho [Hu Hus]%ksorted_cons [Hok Hoks]%Forall_cons. rewrite mergeE_cons, klookup_cons. merge_cases.
    rewrite klookup_app. unfold putOf. unfold edit_ok in Hok. rewrite IH by done. destruct (edel u) eqn:Ed.
    + case_decide as Hk; [|done]. rewrite Ed. change (klookup key k []) with (@None entry). cbv iota. assert (klookup ekey k us = None) as ->.
      { apply klookup_None. eapply Forall_impl; [exact Hu|]. simpl. intros w Hw. subst k. intros E. rewrite E in Hw. border. }
      subst k. apply klookup_above. by apply ksorted_above with (e := mkEntry (ekey u) (VInline []) zero_hash 0).
    + rewrite klookup_cons. rewrite Hok by done. case_decide; [by rewrite Ed|done].
  - intros o os u us He IH [Ho Hos]%ksorted_cons [Hu Hus]%ksorted_cons [Hok Hoks]%Forall_cons.
    rewrite mergeE_cons, klookup_cons. merge_cases. rewrite klookup_app. unfold putOf. unfold edit_ok in Hok. rewrite IH by done.
    rewrite (klookup_cons key k o). destruct (edel u) eqn:Ed.
    + destruct (decide (key o = k)) as [Hk|]; [|done]. rewrite Ed. change (klookup key k []) with (@None entry). cbv iota. assert (klookup ekey k us = None) as ->.
      { apply klookup_None. eapply Forall_impl; [exact Hu|]. simpl. intros w Hw. subst k. intros E. rewrite <-He in E. rewrite E in Hw. border. }
      subst k. by apply klookup_above.
    + rewrite klookup_cons. rewrite Hok, He by done. case_decide; [by rewrite Ed|done].
  - intros o os u us Hgt IH [Ho Hos]%ksorted_cons Hus Hok. rewrite mergeE_cons. merge_cases. rewrite klookup_cons, IH by done.
    rewrite (klookup_cons key k o). case_decide as Hk; [|done].
    assert (klookup ekey k (u :: us) = None) as ->; [|done]. apply ksorted_cons in Hus as [Hu Hus].
    apply klookup_None. constructor; [intros E; subst; rewrite E in Hgt; border|].
    eapply Forall_impl; [exact Hu|]. simpl. intros w Hw E. subst k. rewrite E in Hw. border.
Qed.

(** The keys logged are those a diff of the two lists reports. *)
Lemma deltas_head o os Y : Forall (fun y => key o <b key y) Y -> deltas (o :: os) Y = (Some o, None) :: deltas os Y.
Proof. destruct Y as [|y Y]; [done|]. intros [Hy _]%Forall_cons. rewrite deltas_cons. by rewrite (Hy : bcompare _ _ = Lt). Qed.

Lemma logE_deltas old us : ksorted key old -> ksorted ekey us -> Forall edit_ok us ->
  logE old us = map dkey (deltas old (mergeE old us)).
Proof.
  revert old us. apply (merge_ind (fun old us => ksorted key old -> ksorted ekey us -> Forall edit_ok us -> _ = _)).
  - intros old _ _ _. by rewrite mergeE_nil_r, logE_nil_r, deltas_same.
  - intros u us IH Ho [Hu Hus]%ksorted_cons [Hok Hoks]%Forall_cons. rewrite mergeE_nil_l, logE_nil_l, IH by done.
    unfold putOf, newKey. unfold edit_ok in Hok. destruct (edel u); [done|]. cbn [app]. rewrite !deltas_nil_l.
    cbn [map dkey]. by rewrite Hok.
  - intros o os u us Hlt IH Ho [Hu Hus]%ksorted_cons [Hok Hoks]%Forall_cons. rewrite mergeE_cons, logE_cons. merge_cases.
    rewrite IH by done. unfold putOf, newKey. unfold edit_ok in Hok. destruct (edel u); [done|]. cbn [app].
    rewrite deltas_cons, Hok, (proj2 (bcompare_gt (key o) (ekey u)) Hlt) by done. cbn [map dkey]. by rewrite Hok.
  - intros o os u us He IH [Ho Hos]%ksorted_cons [Hu Hus]%ksorted_cons [Hok Hoks]%Forall_cons.
    rewrite mergeE_cons, logE_cons. merge_cases. rewrite IH by done. unfold putOf. unfold edit_ok in Hok.
    destruct (edel u); cbn [app orb].
    + rewrite deltas_head; [done|]. apply mergeE_above; [done|]. split; [done|]. by rewrite <-He.
    + rewrite deltas_cons, Hok, He, bcompare_refl by done.
      destruct (value_equal (val (ee u)) (val o)) eqn:Ev; [apply value_equal_true in Ev|].
      * by rewrite (proj2 (value_equal_true _ _)).
      * destruct (value_equal (val o) (val (ee u))) eqn:Ev2; [|done]. apply value_equal_true in Ev2.
        rewrite (proj2 (value_equal_true _ _)) in Ev; done.
  - intros o os u us Hgt IH [Ho Hos]%ksorted_cons Hus Hok. rewrite mergeE_cons, logE_cons. merge_cases. rewrite IH by done.
    rewrite deltas_cons, bcompare_refl. by rewrite (proj2 (value_equal_true _ _)).
Qed.

(** ** [replace] *)

Lemma replace_elem fuel : forall R N u, u ∈ replaceLoop fuel R N ->
  ((exists x, x ∈ R /\ ekey u = key x) \/ (exists x, x ∈ N /\ ekey u = key x)) /\ edit_ok u.
Proof.
  induction fuel as [|fuel IH]; intros R N u; cbn [replaceLoop]; [by intros ?%elem_of_nil|].
  destruct R as [|r rs], N as [|a as_]; [by intros ?%elem_of_nil| | |].
  - intros [->|Hu]%elem_of_cons; [split; [right; exists a; split; [left|done]|done]|].
    destruct (IH _ _ _ Hu) as [[(x & Hx & ?)|(x & Hx & ?)] ?]; [set_solver|split; [right; exists x; set_solver|done]].
  - intros [->|Hu]%elem_of_cons; [split; [left; exists r; split; [left|done]|done]|].
    destruct (IH _ _ _ Hu) as [[(x & Hx & ?)|(x & Hx & ?)] ?]; [split; [left; exists x; set_solver|done]|set_solver].
  - destruct (bcompare (key r) (key a)).
    + rewrite elem_of_app. intros [Hu|Hu].
      * destruct (_ || _); [|set_solver]. apply list_elem_of_singleton in Hu as ->. split; [right; exists a; split; [left|done]|done].
      * destruct (IH _ _ _ Hu) as [[(x & Hx & ?)|(x & Hx & ?)] ?]; (split; [|done]); [left|right]; exists x; set_solver.
    + intros [->|Hu]%elem_of_cons; [split; [left; exists r; split; [left|done]|done]|].
      destruct (IH _ _ _ Hu) as [[(x & Hx & ?)|(x & Hx & ?)] ?]; (split; [|done]); [left|right]; exists x; set_solver.
    + intros [->|Hu]%elem_of_cons; [split; [right; exists a; split; [left|done]|done]|].
      destruct (IH _ _ _ Hu) as [[(x & Hx & ?)|(x & Hx & ?)] ?]; (split; [|done]); [left|right]; exists x; set_solver.
Qed.

Lemma replace_above fuel lo R N : Forall (fun x => lo <b key x) R -> Forall (fun x => lo <b key x) N ->
  Forall (fun u => lo <b ekey u) (replaceLoop fuel R N).
Proof.
  intros H1 H2. rewrite Forall_forall in H1, H2. apply Forall_forall. intros u Hu.
  destruct (replace_elem _ _ _ _ Hu) as [[(x & Hx & ->)|(x & Hx & ->)] _]; auto.
Qed.

Lemma replace_ok fuel : forall R N, (length R + length N <= fuel)%nat -> ksorted key R -> ksorted key N ->
  (forall x y, x ∈ R -> y ∈ N -> val x = val y) ->
  mergeE R (replaceLoop fuel R N) = N /\ ksorted ekey (replaceLoop fuel R N).
Proof.
  induction fuel as [|fuel IH]; intros R N Hf HR HN Hv; cbn [replaceLoop].
  { destruct R, N; simpl in Hf; [|lia..]. split; [done|constructor]. }
  destruct R as [|r rs], N as [|a as_]; [split; [done|constructor]|..]; simpl in Hf.
  - apply ksorted_cons in HN as [Ha HN]. destruct (IH [] as_) as [H1 H2]; [simpl; lia|done|done|set_solver|].
    rewrite mergeE_nil_l, H1. split; [done|]. apply ksorted_cons. split; [|done]. by apply replace_above.
  - apply ksorted_cons in HR as [Hr HR]. destruct (IH rs []) as [H1 H2]; [simpl; lia|done|done|set_solver|].
    rewrite mergeE_cons. cbn [ekey delEdit]. rewrite bcompare_refl, H1. split; [done|]. apply ksorted_cons. split; [|done].
    by apply replace_above.
  - pose proof HR as HR0. pose proof HN as HN0. apply ksorted_cons in HR as [Hr HR]. apply ksorted_cons in HN as [Ha HN].
    destruct (bcompare_spec (key r) (key a)) as [E|Hlt|Hgt].
    + destruct (IH rs as_) as [H1 H2]; [lia|done|done|intros; apply Hv; by right|].
      assert (Forall (fun u => key r <b ekey u) (replaceLoop fuel rs as_)) as Hab.
      { apply replace_above; [done|]. by rewrite E. }
      destruct (bool_decide_reflect (ProllyNode.child r <> ProllyNode.child a)) as [Hc|Hc]; cbn [orb app].
      * rewrite mergeE_cons. cbn [ekey putEdit]. rewrite E, bcompare_refl, H1. split; [done|]. apply ksorted_cons.
        split; [|done]. cbn [ekey putEdit]. by rewrite <-E.
      * apply dec_stable in Hc. destruct (Z.eqb_spec (count r) (count a)) as [Hn|Hn]; cbn [negb app].
        -- rewrite mergeE_skip, H1 by done. split; [|done]. f_equal. assert (val r = val a) by (apply Hv; left).
           destruct r, a. simpl in *. congruence.
        -- rewrite mergeE_cons. cbn [ekey putEdit]. rewrite E, bcompare_refl, H1. split; [done|]. apply ksorted_cons.
           split; [|done]. cbn [ekey putEdit]. by rewrite <-E.
    + destruct (IH rs (a :: as_)) as [H1 H2]; [simpl; lia|done|done|intros; apply Hv; [by right|done]|].
      rewrite mergeE_cons. cbn [ekey delEdit]. rewrite bcompare_refl, H1. split; [done|]. apply ksorted_cons. split; [|done].
      apply replace_above; [done|]. by apply ksorted_above.
    + destruct (IH (r :: rs) as_) as [H1 H2]; [simpl; lia|done|done|intros; apply Hv; [done|by right]|].
      rewrite mergeE_cons. cbn [ekey putEdit]. rewrite (Hgt : bcompare (key a) (key r) = Lt), H1. split; [done|].
      apply ksorted_cons. split; [|done]. apply replace_above; [|done]. by apply ksorted_above.
Qed.

(** ** Programs that succeed, on the store's chunks *)

Definition steps `{Hasher} {A} (p : prog A) (v : view) (a : A) (v' : view) : Prop :=
  forall rt, exec v rt p = (Ok a, v', rt).

Lemma steps_ret `{Hasher} {A} (a : A) v : steps (mret a) v a v.
Proof. by intros rt. Qed.

Lemma steps_bind `{Hasher} {A B} (p : prog A) (f : A -> prog B) v a v1 b v2 :
  steps p v a v1 -> steps (f a) v1 b v2 -> steps (p ≫= f) v b v2.
Proof. intros Hp Hf rt. by rewrite exec_bind, Hp. Qed.

Lemma steps_reads `{Hasher} {A} (p : prog A) v a : reads_only p -> interp (vget v) p = Ok a -> steps p v a v.
Proof. intros Hp Hi rt. by rewrite exec_reads, Hi. Qed.

(** *** Readers that hold more *)

(** A read that succeeds gives the same with more chunks there. *)
Definition mono {A} (p : prog A) : Prop := forall rd rd' a, more rd rd' -> interp rd p = Ok a -> interp rd' p = Ok a.

Lemma mono_ret {A} (r : res A) : mono (Ret r).
Proof. by intros rd rd' a _. Qed.

Lemma mono_get h : mono (pGet h).
Proof. intros rd rd' a Hm. simpl. apply Hm. Qed.

Lemma mono_bind {A B} (p : prog A) (f : A -> prog B) :
  reads_only p -> mono p -> (forall a, mono (f a)) -> mono (p ≫= f).
Proof.
  intros Hro Hp Hf rd rd' b Hm. rewrite !interp_bind by done. destruct (interp rd p) as [a|] eqn:E; [|done].
  rewrite (Hp _ _ _ Hm E). by apply Hf.
Qed.

Create HintDb mono discriminated.
#[export] Hint Resolve mono_ret mono_get : mono.

Lemma mono_read m h : mono (read m h).
Proof.
  unfold read. destruct (top m); [case_bool_decide; [apply mono_ret|]|]; apply mono_bind; try done; auto with mono.
  all: intros; apply mono_ret.
Qed.

Lemma mono_child m p i : mono (child m p i).
Proof.
  unfold child. destruct (entries p !! i); [|apply mono_ret]. apply mono_bind; [apply read_reads|apply mono_read|].
  intros c. destruct (checkChild p i c); apply mono_ret.
Qed.

Lemma mono_fetch m f ps : mono (fetch m f ps).
Proof. destruct ps; [apply mono_ret|]. apply mono_bind; [apply child_reads|apply mono_child|]. intros. apply mono_ret. Qed.

Lemma mono_advance m c : mono (advance m c).
Proof.
  induction c as [|f ps IH]; [apply mono_ret|]. cbn [advance]. destruct (fend f); [apply mono_ret|]. cbv zeta.
  destruct (_ <? _)%nat; [apply mono_ret|]. destruct ps; [apply mono_ret|]. apply mono_bind; [apply advance_reads|done|].
  intros c. destruct (negb (valid c)); [apply mono_ret|apply mono_fetch].
Qed.

Lemma nextNode_reads m c : reads_only (nextNode m c).
Proof.
  destruct c as [|f ps]; [done|]. unfold nextNode, nextNodeWith. destruct ps; [done|]. apply reads_bind; [apply advance_reads|].
  intros c. destruct (negb (valid c)); [done|apply fetch_reads].
Qed.

Lemma mono_nextNode m c : mono (nextNode m c).
Proof.
  destruct c as [|f ps]; [apply mono_ret|]. unfold nextNode, nextNodeWith. destruct ps; [apply mono_ret|].
  apply mono_bind; [apply advance_reads|apply mono_advance|].
  intros c. destruct (negb (valid c)); [apply mono_ret|apply mono_fetch].
Qed.

Lemma mono_seek m lv k : mono (seek m lv k).
Proof.
  apply mono_bind; [apply read_reads|apply mono_read|]. intros n. generalize [mkFrame n 0 false]. 
  generalize (level n). clear n. intros fuel. induction fuel as [|fuel IH]; intros [|f ps]; cbn [seekLoop]; try apply mono_ret;
    (destruct (_ <=? _)%nat; [apply mono_ret|]); [apply mono_ret|].
  apply mono_bind; [apply child_reads|apply mono_child|]. intros. apply IH.
Qed.

Section Growing.
Context `{Hasher} (v0 : view) (L : list bytes).
Context (Hcf : collision_free v0 L).

(** The store holds what it held, and chunks of [L]. *)
Definition grew (v : view) : Prop :=
  v0 ⊆ v /\ forall h b, v !! h = Some b -> v0 !! h = Some b \/ (b ∈ L /\ Sum b = h).

Definition has (v : view) (b : bytes) : Prop := v !! Sum b = Some b.

Lemma grew_start : grew v0.
Proof. split; [done|]. auto. Qed.

Lemma has_mono v v' b : v ⊆ v' -> has v b -> has v' b.
Proof. intros Hv Hb. by eapply lookup_weaken. Qed.

Lemma grew_present v b : grew v -> b ∈ L -> is_Some (v !! Sum b) -> has v b.
Proof.
  intros [_ Hg] Hb [c Hc]. unfold has. rewrite Hc. f_equal. symmetry. destruct Hcf as [H1 H2].
  destruct (Hg _ _ Hc) as [H3|[H3 H4]]; [by eapply H2|by apply H1].
Qed.

Lemma put_steps v b : grew v -> b ∈ L -> zlen b <= MaxChunkSize ->
  exists v', steps (pPut b) v (Sum b) v' /\ v ⊆ v' /\ grew v' /\ has v' b.
Proof.
  intros Hg Hb Hl. exists (vput v b). split; [intros rt; by apply exec_put|]. unfold vput.
  destruct (v !! Sum b) eqn:E.
  - split_and!; [done|done|]. apply grew_present; [done|done|by eauto].
  - destruct Hg as [Hg1 Hg2]. assert (v ⊆ <[Sum b := b]> v) as Hsub by (by apply insert_subseteq).
    split_and!; [done| |apply lookup_insert_eq]. split; [by etrans|]. intros h c. rewrite lookup_insert_Some.
    intros [[<- <-]|[_ Hc]]; [by right|by apply Hg2].
Qed.

Lemma store_steps v n ex : grew v -> encode n ∈ L -> zlen (encode n) <= MaxChunkSize ->
  (forall h, h ∈ ex -> is_Some (v0 !! h)) ->
  exists v', steps (store n ex) v (named (level n) (entries n)) v' /\ v ⊆ v' /\ grew v' /\ has v' (encode n).
Proof.
  intros Hg Hn Hl Hex. unfold store. cbv zeta.
  assert (named (level n) (entries n) = mkEntry (lastKey n) (VInline []) (Sum (encode n)) (total n)) as -> by (by destruct n).
  case_bool_decide as Hin.
  - exists v. split_and!; [apply steps_ret|done|done|]. apply grew_present; [done|done|].
    destruct (Hex _ Hin) as [c Hc]. exists c. by eapply lookup_weaken; [|apply Hg].
  - destruct (put_steps v (encode n) Hg Hn Hl) as (v' & H1 & H2). exists v'. split; [|done].
    eapply steps_bind; [exact H1|apply steps_ret].
Qed.

(** *** The chunker *)

(** The chunker after entries fed to it: the nodes it ended are named, or held. *)
Definition fed (c : chunker) (xs : list entry) : chunker :=
  let '(ns, p, s) := drawFrom (clevel c) (csplit c) (cpending c) xs in
  mkChunker (clevel c) s p
    (if chold c then cout c else cout c ++ map (named (clevel c)) ns)
    (if chold c then cnodes c ++ map (mkNode (clevel c)) ns else cnodes c)
    (chold c) (cexisting c) (cchanged c).

Definition mkLog (ks : list bytes) (c : chunker) : chunker :=
  mkChunker (clevel c) (csplit c) (cpending c) (cout c) (cnodes c) (chold c) (cexisting c)
    (option_map (fun l => l ++ ks) (cchanged c)).

Lemma fed_app c xs ys : fed c (xs ++ ys) = fed (fed c xs) ys.
Proof.
  unfold fed. rewrite drawFrom_app. destruct (drawFrom (clevel c) (csplit c) (cpending c) xs) as [[ns p] s]. simpl.
  destruct (drawFrom (clevel c) s p ys) as [[ms q] t]. rewrite !map_app. destruct (chold c); by rewrite ?app_assoc.
Qed.

Lemma fed_nil c : fed c [] = c.
Proof. unfold fed. simpl. destruct c as [lv sp p o n h ex ch]. simpl. destruct h; by rewrite ?app_nil_r. Qed.

Lemma fed_mkLog ks c xs : fed (mkLog ks c) xs = mkLog ks (fed c xs).
Proof. unfold fed. simpl. by destruct (drawFrom (clevel c) (csplit c) (cpending c) xs) as [[ns p] s]. Qed.

Lemma mkLog_nil c : mkLog [] c = c.
Proof. unfold mkLog. destruct c as [lv sp p o n h ex [l|]]; simpl; [|done]. by rewrite app_nil_r. Qed.

Lemma mkLog_app k1 k2 c : mkLog k2 (mkLog k1 c) = mkLog (k1 ++ k2) c.
Proof. unfold mkLog. simpl. destruct (cchanged c); simpl; [by rewrite app_assoc|done]. Qed.

Lemma change_mkLog k c : change k c = mkLog [k] c.
Proof. unfold change, mkLog. by destruct c as [lv sp p o n h ex [l|]]. Qed.

(** What the chunker [c] may draw from [xs]: nodes it holds back, or nodes of [L]. *)
Definition drawable (c : chunker) (xs : list entry) : Prop :=
  (forall h, h ∈ cexisting c -> is_Some (v0 !! h)) /\
  (chold c = false -> forall d, d ∈ (drawFrom (clevel c) (csplit c) (cpending c) xs).1.1 ->
     encode (mkNode (clevel c) d) ∈ L /\ zlen (encode (mkNode (clevel c) d)) <= MaxChunkSize).

(** Every node ended on the way is in the store. *)
Definition stored_in (c : chunker) (v : view) (ns : list (list entry)) : Prop :=
  chold c = false -> forall d, d ∈ ns -> has v (encode (mkNode (clevel c) d)).

Definition feeds (c : chunker) (xs : list entry) (v v' : view) : Prop :=
  v ⊆ v' /\ grew v' /\ stored_in c v' (drawFrom (clevel c) (csplit c) (cpending c) xs).1.1.

Lemma drawable_app c xs ys : drawable c (xs ++ ys) -> drawable c xs /\ drawable (fed c xs) ys.
Proof.
  intros [H1 H2]. rewrite drawFrom_app in H2. unfold drawable, fed.
  destruct (drawFrom (clevel c) (csplit c) (cpending c) xs) as [[ns p] s]. simpl.
  destruct (drawFrom (clevel c) s p ys) as [[ms q] t]. simpl in *.
  split; (split; [done|]); intros Hh d Hd; apply H2; set_solver.
Qed.

Lemma feeds_app c xs ys v v1 v2 : feeds c xs v v1 -> feeds (fed c xs) ys v1 v2 -> feeds c (xs ++ ys) v v2.
Proof.
  unfold feeds, stored_in, fed. rewrite drawFrom_app.
  destruct (drawFrom (clevel c) (csplit c) (cpending c) xs) as [[ns p] s]. simpl.
  destruct (drawFrom (clevel c) s p ys) as [[ms q] t]. simpl.
  intros (H1 & H2 & H3) (H4 & H5 & H6). split_and!; [by etrans|done|].
  intros Hh d [Hd|Hd]%elem_of_app; [|by apply H6]. eapply has_mono; [exact H4|]. by apply H3.
Qed.

Lemma feeds_nil c v : grew v -> feeds c [] v v.
Proof. intros Hg. split_and!; [done|done|]. intros _ d Hd. by apply elem_of_nil in Hd. Qed.

Lemma add_steps c e v : grew v -> drawable c [e] ->
  exists v', steps (add c e) v (fed c [e]) v' /\ feeds c [e] v v'.
Proof.
  intros Hg [Hex Hd]. unfold add, fed, feeds, stored_in. cbn [drawFrom] in *.
  destruct (Boundary.Append (csplit c) (Sum (key e)) (entrySize (clevel c) e)) as [[|] sp]; simpl in Hd |- *.
  - unfold end_. simpl. rewrite length_app, (proj2 (Nat.eqb_neq _ _)) by (simpl; lia).
    destruct (chold c) eqn:Eh.
    + exists v. split; [apply steps_ret|]. by split_and!.
    + destruct (Hd eq_refl (cpending c ++ [e])) as [H1 H2]; [set_solver|].
      destruct (store_steps v (mkNode (clevel c) (cpending c ++ [e])) (cexisting c) Hg H1 H2 Hex) as (v' & H3 & H4 & H5 & H6).
      exists v'. split; [eapply steps_bind; [exact H3|apply steps_ret]|]. split_and!; [done|done|].
      by intros _ d ->%list_elem_of_singleton.
  - exists v. split.
    + destruct c as [lv sp0 p o n h ex ch]. simpl in *. destruct h; rewrite ?app_nil_r; apply steps_ret.
    + split_and!; [done|done|]. intros _ d Hx. by apply elem_of_nil in Hx.
Qed.

Lemma addAll_steps xs : forall c v, grew v -> drawable c xs ->
  exists v', steps (addAll c xs) v (fed c xs) v' /\ feeds c xs v v'.
Proof.
  induction xs as [|x xs IH]; intros c v Hg Hd; cbn [addAll].
  - exists v. rewrite fed_nil. split; [apply steps_ret|by apply feeds_nil].
  - destruct (drawable_app c [x] xs Hd) as [H1 H2]. destruct (add_steps c x v Hg H1) as (v1 & H3 & H4).
    destruct (IH (fed c [x]) v1) as (v2 & H5 & H6); [by destruct H4 as (_ & ? & _)|done|].
    exists v2. change (x :: xs) with ([x] ++ xs). rewrite fed_app. split; [by eapply steps_bind|by eapply feeds_app].
Qed.

Definition ended (c : chunker) : chunker :=
  mkChunker (clevel c) (csplit c) []
    (if chold c then cout c else cout c ++ map (named (clevel c)) (lastly (cpending c)))
    (if chold c then cnodes c ++ map (mkNode (clevel c)) (lastly (cpending c)) else cnodes c)
    (chold c) (cexisting c) (cchanged c).

Lemma end_steps c v : grew v -> (forall h, h ∈ cexisting c -> is_Some (v0 !! h)) ->
  (chold c = false -> forall d, d ∈ lastly (cpending c) ->
     encode (mkNode (clevel c) d) ∈ L /\ zlen (encode (mkNode (clevel c) d)) <= MaxChunkSize) ->
  exists v', steps (end_ c) v (ended c) v' /\ v ⊆ v' /\ grew v' /\ stored_in c v' (lastly (cpending c)).
Proof.
  intros Hg Hex Hd. unfold end_, ended, stored_in. destruct (cpending c) as [|x p] eqn:Ep; simpl in Hd |- *.
  - exists v. split_and!; [|done|done|by intros _ d Hx%elem_of_nil].
    destruct c as [lv sp0 p o n h ex ch]. simpl in *. subst p. destruct h; rewrite ?app_nil_r; apply steps_ret.
  - destruct (chold c) eqn:Eh.
    + exists v. split_and!; [apply steps_ret|done|done|done].
    + destruct (Hd eq_refl (x :: p)) as [H1 H2]; [by apply list_elem_of_singleton|].
      destruct (store_steps v (mkNode (clevel c) (x :: p)) (cexisting c) Hg H1 H2 Hex) as (v' & H3 & H4 & H5 & H6).
      exists v'. split; [eapply steps_bind; [exact H3|apply steps_ret]|]. split_and!; [done|done|].
      by intros _ d ->%list_elem_of_singleton.
Qed.

(** [merge] with a limit that splits the edits in two feeds the merge of the first part. *)
Lemma mergeLoop_steps limit U2 : (forall u us, U2 = u :: us -> within limit u = false) ->
  forall fuel old U1 c v, (length old + length U1 <= fuel)%nat -> Forall (fun u => within limit u = true) U1 ->
  grew v -> drawable c (mergeE old U1) ->
  exists v', steps (mergeLoop fuel c old (U1 ++ U2) limit) v (mkLog (logE old U1) (fed c (mergeE old U1)), U2) v' /\
    feeds c (mergeE old U1) v v'.
Proof.
  intros HU2.
  (* one put, logged or not, then the rest *)
  assert (forall b ks e c X us v old fuel K, (b = true -> X = K) -> (b = false -> X = e :: K) -> grew v -> drawable c X ->
    (forall c v, grew v -> drawable c K -> exists v', steps (mergeLoop fuel c old us limit) v (mkLog (ks) (fed c K), U2) v' /\ feeds c K v v') ->
    forall k0, exists v', steps (c ← (if (b : bool) then mret (mkLog k0 c) else add (mkLog k0 c) e); mergeLoop fuel c old us limit) v
      (mkLog (k0 ++ ks) (fed c X), U2) v' /\ feeds c X v v') as Hput.
  { intros b ks e c X us v old fuel K HXt HXf Hg Hd IH k0. destruct b.
    - rewrite HXt in * by done. destruct (IH (mkLog k0 c) v Hg Hd) as (v' & H1 & H2). exists v'.
      rewrite fed_mkLog, mkLog_app in H1. split; [|done]. eapply steps_bind; [apply steps_ret|exact H1].
    - rewrite HXf in * by done. destruct (drawable_app c [e] K Hd) as [H1 H2].
      destruct (add_steps (mkLog k0 c) e v Hg H1) as (v1 & H3 & H4).
      destruct (IH (fed (mkLog k0 c) [e]) v1) as (v2 & H5 & H6); [by destruct H4 as (_ & ? & _)|by rewrite fed_mkLog|].
      exists v2. rewrite !fed_mkLog, mkLog_app, <-fed_app in H5. rewrite fed_mkLog in H6. split.
      + eapply steps_bind; [exact H3|]. rewrite fed_mkLog. exact H5.
      + eapply (feeds_app c [e] K); [exact H4|exact H6]. }
  induction fuel as [|fuel IH]; intros old U1 c v Hf HU1 Hg Hd; cbn [mergeLoop].
  { destruct old, U1; simpl in Hf; try lia. simpl in Hd |- *. exists v. rewrite fed_nil, mkLog_nil.
    split; [|by apply feeds_nil]. destruct U2 as [|u us]; [apply steps_ret|]. rewrite (HU2 u us) by done. apply steps_ret. }
  destruct U1 as [|u us].
  - rewrite mergeE_nil_r, logE_nil_r in *. cbn [app]. destruct old as [|o os].
    + exists v. rewrite fed_nil, mkLog_nil. split; [|by apply feeds_nil].
      destruct U2 as [|u us]; [apply steps_ret|]. rewrite (HU2 u us) by done. apply steps_ret.
    + destruct (Hput false [] o c (o :: os) U2 v os fuel os ltac:(done) ltac:(done) Hg Hd) with (k0 := @nil bytes) as (v' & H1 & H2).
      { intros c1 v1 Hg1 Hd1. destruct (IH os [] c1 v1) as (v' & H1 & H2); [simpl in *; lia|done|done|by rewrite mergeE_nil_r|].
        rewrite mergeE_nil_r, logE_nil_r in *. by exists v'. }
      rewrite mkLog_nil in H1. exists v'. split; [|done]. destruct U2 as [|u us]; simpl; [exact H1|].
      rewrite (HU2 u us) by done. exact H1.
  - apply Forall_cons in HU1 as [Hu HU1]. cbn [app]. rewrite Hu, orb_true_r. cbn [negb]. destruct old as [|o os].
    + rewrite mergeE_nil_l, logE_nil_l in *. unfold putOf, newKey in *.
      destruct (Hput (edel u) (logE [] us) (ee u) c ((if edel u then [] else [ee u]) ++ mergeE [] us) (us ++ U2) v [] fuel (mergeE [] us))
        with (k0 := if edel u then [] else [ekey u]) as (v' & H1 & H2);
        [by intros ->|by intros ->|done|done| |].
      { intros c1 v1 Hg1 Hd1. apply (IH [] us c1 v1); [simpl in *; lia|done..]. }
      exists v'. split; [|done]. destruct (edel u); [by rewrite mkLog_nil in H1|]. rewrite change_mkLog. exact H1.
    + rewrite mergeE_cons, logE_cons in *. destruct (bcompare (ekey u) (key o)) eqn:Ec.
      * destruct (Hput (edel u) (logE os us) (ee u) c (putOf u ++ mergeE os us) (us ++ U2) v os fuel (mergeE os us))
          with (k0 := if edel u || negb (value_equal (val (ee u)) (val o)) then [ekey u] else []) as (v' & H1 & H2);
          [by unfold putOf; intros ->|by unfold putOf; intros ->|done|done| |].
        { intros c1 v1 Hg1 Hd1. apply (IH os us c1 v1); [simpl in *; lia|done..]. }
        exists v'. split; [|done]. cbv zeta. destruct (edel u || _); [rewrite change_mkLog; exact H1|].
        by rewrite mkLog_nil in H1.
      * destruct (Hput (edel u) (logE (o :: os) us) (ee u) c (putOf u ++ mergeE (o :: os) us) (us ++ U2) v (o :: os) fuel (mergeE (o :: os) us))
          with (k0 := newKey u) as (v' & H1 & H2);
          [by unfold putOf; intros ->|by unfold putOf; intros ->|done|done| |].
        { intros c1 v1 Hg1 Hd1. apply (IH (o :: os) us c1 v1); [simpl in *; lia|done..]. }
        exists v'. split; [|done]. unfold newKey in *. destruct (edel u); [by rewrite mkLog_nil in H1|]. rewrite change_mkLog. exact H1.
      * destruct (Hput false (logE os (u :: us)) o c (o :: mergeE os (u :: us)) (u :: us ++ U2) v os fuel (mergeE os (u :: us)) ltac:(done) ltac:(done) Hg Hd)
          with (k0 := @nil bytes) as (v' & H1 & H2).
        { intros c1 v1 Hg1 Hd1. apply (IH os (u :: us) c1 v1); [simpl in *; lia|by constructor|done..]. }
        exists v'. rewrite mkLog_nil in H1. by split.
Qed.

Lemma merge_steps limit old U1 U2 c v : (forall u us, U2 = u :: us -> within limit u = false) ->
  Forall (fun u => within limit u = true) U1 -> grew v -> drawable c (mergeE old U1) ->
  exists v', steps (merge c old (U1 ++ U2) limit) v (mkLog (logE old U1) (fed c (mergeE old U1)), U2) v' /\
    feeds c (mergeE old U1) v v'.
Proof. intros. apply mergeLoop_steps; try done. rewrite length_app. lia. Qed.
End Growing.
