(* ===== verification/ProllyCanon.v ===== *)
(** * core/prolly: a flush builds the canonical tree

    What [ProllyFlush] does to a canonical map: the edited map is the tree a
    bulk build of the edited entries draws, whatever the edits and whatever the
    tree before them, and the keys it records as changed are those a diff reports. *)

From S2P Require Import Prelude Wire Hash ChunkStore Prog ProllyNode Prolly ProllyDiff ProllyDraw ProllyFlush ProllyMerge.
From S2P Require Boundary Stream StreamWrite.

(** ** Where [seek] puts a cursor of a level *)

Section Cursors.
Context (rd : creader) (m : Map) (rootn : node) (h : nat).
Abbreviation limit := (InlineLimit (cfg m)).
Context (Htop : top m = Some rootn) (Hroot : readN rd limit (root m) = Ok rootn).
Context (Hok : okN rd limit h rootn).
(** The entries of every level, the root's at [h]. *)
Context (lvl : nat -> list entry).
Context (Hlvl0 : lvl h = entries rootn).
Context (HlvlS : forall j, (j < h)%nat -> lvl j = concat (map (kids rd limit) (lvl (S j)))).

(** The cursor stands at the start of a node of level [lv]; the parent's level
    from there on is [pe :: pes], the entries before have keys under [k], and
    [pe] is the first not under it, or the level's last. *)
Definition placed (lv : nat) (k : bytes) (c : cursor) : Prop :=
  curOk rd m lv c /\
  exists f ps pre pe pes, c = f :: ps /\ ps <> [] /\ fi f = 0%nat /\ fend f = false /\
    rem rd m ps = pe :: pes /\ lvl (S lv) = pre ++ pe :: pes /\ Forall (fun e => key e <b k) pre /\
    (k <=b key pe \/ pes = []) /\ lastKey (fn f) = key pe.

Lemma kids_le d e x : okE rd limit (S d) e -> x ∈ kids rd limit e -> key x <=b key e.
Proof.
  intros He Hx. destruct (okE_S _ _ _ _ He) as (c & _ & (Hl & Hf & Hs) & Hk & Hne & Hlk & _). rewrite Hk in Hx.
  pose proof (entries_sorted _ _ _ _ Hf Hs) as Hes. rewrite <-Hlk. destruct c as [lv es]. simpl in *. by apply lastKey_ge.
Qed.

Lemma lvl_okE j : (j <= h)%nat -> Forall (okE rd limit j) (lvl j).
Proof.
  intros Hj. remember (h - j)%nat as n eqn:En. revert j Hj En. induction n as [|n IH]; intros j Hj En.
  - assert (j = h) as -> by lia. rewrite Hlvl0. apply Hok.
  - rewrite HlvlS by lia. specialize (IH (S j) ltac:(lia) ltac:(lia)). apply Forall_concat, Forall_map.
    eapply Forall_impl; [exact IH|]. intros e He. simpl. destruct (okE_S _ _ _ _ He) as (c & _ & (_ & Hf & _) & -> & _). done.
Qed.

Lemma placed_down lv k c : (S lv < h)%nat -> placed (S lv) k c ->
  exists f ps n, c = f :: ps /\
    let i := Nat.min (search (fn f) k) (length (entries (fn f)) - 1) in
    interp rd (child m (fn f) i) = Ok n /\ placed lv k (mkFrame n 0 false :: mkFrame (fn f) i (fend f) :: ps).
Proof.
  intros Hlv [Hc (f & ps & pre & pe & pes & -> & Hne & Hi & Hend & Hrem & Hlev & Hpre & Hor & Hlk)].
  exists f, ps. set (i := Nat.min _ _). destruct Hc as [?|[Hokf Hrest]]; [congruence|].
  pose proof Hokf as (Hl & Hf & Hs). pose proof (entries_sorted _ _ _ _ Hf Hs) as Hes.
  destruct ps as [|p ps]; [done|]. destruct Hrest as (Hlt0 & Hps & pe' & pes' & Hrem' & Hread).
  rewrite Hrem in Hrem'. injection Hrem' as <- <-.
  assert (i < length (entries (fn f)))%nat as Hlt by (subst i; lia).
  destruct (drop_lt _ _ Hlt) as (e & He & Hd).
  destruct (child_ok rd m rootn Htop Hroot lv (fn f) i e Hokf He) as (n & Hn & Hrn & Hokn & Hkids & Hnn & Hlkn).
  exists n. split; [done|]. split; [done|]. split.
  - right. split; [done|]. cbn [fn fi]. split; [destruct (entries n); simpl; [done|lia]|]. split.
    + right. cbn [fn fi]. split; [done|]. split; [done|]. split; [done|]. by exists pe, pes.
    + exists e, (drop (S i) (entries (fn f)) ++ concat (map (kids rd limit) pes)). split; [|done].
      cbn [rem fend fi fn] in Hrem |- *. rewrite Hend, Hd, Hrem. done.
  - destruct (search_spec (fn f) k Hes) as (es1 & es2 & Ees & Esr & H1 & H2).
    pose proof (lvl_okE (S (S lv)) ltac:(lia)) as HokE. rewrite Hlev in HokE.
    assert (lvl (S lv) = (concat (map (kids rd limit) pre) ++ take i (entries (fn f))) ++
      e :: drop (S i) (entries (fn f)) ++ concat (map (kids rd limit) pes)) as Hdec.
    { rewrite HlvlS, Hlev by lia. rewrite map_app, concat_app. simpl.
      assert (kids rd limit pe = entries (fn f)) as -> by (unfold kids; by rewrite Hread).
      rewrite <-(take_drop i (entries (fn f))) at 1. rewrite Hd, <-!app_assoc. done. }
    eexists (mkFrame n 0 false), _, _, e, _. split_and!; [done|done|done|done| |exact Hdec| | |done].
    + cbn [rem fend fi fn] in Hrem |- *. rewrite Hend, Hd, Hrem. done.
    + apply Forall_app. split.
      * apply Forall_concat, Forall_map. apply Forall_app in HokE as [HokE _]. rewrite Forall_forall in HokE, Hpre.
        apply Forall_forall. intros x Hx. apply Forall_forall. intros y Hy.
        eapply ble_lt_trans; [by eapply kids_le; [apply HokE|]|by apply Hpre].
      * rewrite Ees, take_app_le by (subst i; lia). by apply Forall_take.
    + destruct (decide (search (fn f) k < length (entries (fn f)))%nat) as [Hin|Hout].
      * left. assert (es2 = e :: drop (S i) (entries (fn f))) as E2.
        { assert (i = length es1) as Ei by (subst i; lia). rewrite <-Hd, Ees, Ei, drop_app_length. done. }
        rewrite E2 in H2. by apply Forall_cons in H2 as [? _].
      * right. assert (es2 = []) as ->.
        { destruct es2; [done|]. rewrite Ees, length_app in Hout. simpl in Hout. lia. }
        rewrite app_nil_r in Ees. rewrite drop_ge by (subst i; lia).
        destruct Hor as [Hle| ->]; [exfalso|done].
        assert (lastKey (fn f) <b k) as Hlast.
        { rewrite <-Ees in H1. destruct (fn f) as [lv' es']. simpl in *. destruct (lastKey_last lv' es') as (d0 & x & -> & ->); [by destruct es'; simpl in *; [lia|]|].
          by apply Forall_app in H1 as [_ [? _]%Forall_cons]. }
        rewrite Hlk in Hlast. border.
Qed.

Lemma placed_root k : (0 < h)%nat -> entries rootn <> [] ->
  let i := Nat.min (search rootn k) (length (entries rootn) - 1) in
  exists n, interp rd (child m rootn i) = Ok n /\ placed (h - 1) k [mkFrame n 0 false; mkFrame rootn i false].
Proof.
  intros Hh Hne i. pose proof Hok as (Hl & Hf & Hs). pose proof (entries_sorted _ _ _ _ Hf Hs) as Hes.
  assert (i < length (entries rootn))%nat as Hlt by (subst i; destruct (entries rootn); simpl; [done|lia]).
  destruct (drop_lt _ _ Hlt) as (e & He & Hd). replace h with (S (h - 1)) in Hok, Hlvl0 by lia.
  destruct (child_ok rd m rootn Htop Hroot (h - 1) rootn i e Hok He) as (n & Hn & Hrn & Hokn & Hkids & Hnn & Hlkn).
  exists n. split; [done|]. split.
  - right. split; [done|]. cbn [fn fi]. split; [destruct (entries n); simpl; [done|lia]|]. split.
    + right. cbn [fn fi]. split; [done|by left].
    + exists e, (drop (S i) (entries rootn)). split; [|done]. cbn [rem fend fi fn]. by rewrite Hd, app_nil_r.
  - destruct (search_spec rootn k Hes) as (es1 & es2 & Ees & Esr & H1 & H2).
    eexists _, _, (take i (entries rootn)), e, _. split_and!; [done|done|done|done| | | | |done].
    + cbn [rem fend fi fn]. by rewrite Hd, app_nil_r.
    + rewrite Hlvl0, <-Hd, take_drop. done.
    + rewrite Ees, take_app_le by (subst i; lia). by apply Forall_take.
    + destruct (decide (search rootn k < length (entries rootn))%nat) as [Hin|Hout].
      * left. assert (es2 = e :: drop (S i) (entries rootn)) as E2.
        { assert (i = length es1) as Ei by (subst i; lia). rewrite <-Hd, Ees, Ei, drop_app_length. done. }
        rewrite E2 in H2. by apply Forall_cons in H2 as [? _].
      * right. apply drop_ge. subst i. lia.
Qed.

Lemma seekLoop_placed k d : forall fuel lv c, placed (lv + d) k c -> (lv + d < h)%nat -> (d <= fuel)%nat ->
  exists c', interp rd (seekLoop fuel m lv k c) = Ok c' /\ placed lv k c'.
Proof.
  induction d as [|d IH]; intros fuel lv c Hp Hlv Hf.
  - rewrite Nat.add_0_r in Hp. exists c. split; [|done]. destruct Hp as [Hc (f & ps & _ & _ & _ & -> & _ & _ & Hend & _)].
    destruct Hc as [?|[(Hl & _) _]]; [congruence|].
    destruct fuel; cbn [seekLoop]; rewrite Hl, (proj2 (Nat.leb_le _ _)) by lia; done.
  - destruct fuel as [|fuel]; [lia|]. replace (lv + S d)%nat with (S (lv + d)) in * by lia.
    pose proof Hp as [Hc (f & ps & _ & _ & _ & -> & _ & _ & Hend & _)].
    destruct Hc as [?|[(Hl & _) _]]; [congruence|]. cbn [seekLoop]. rewrite Hl, (proj2 (Nat.leb_gt _ _)) by lia.
    destruct (placed_down (lv + d) k _ Hlv Hp) as (f' & ps' & n & [= <- <-] & Hn & Hpl).
    rewrite interp_bind by auto with reads. rewrite Hn. apply IH; [done|lia|lia].
Qed.

Lemma seek_placed lv k : (lv < h)%nat -> entries rootn <> [] ->
  exists c, interp rd (seek m lv k) = Ok c /\ placed lv k c.
Proof.
  intros Hlv Hne. unfold seek. rewrite interp_bind by auto with reads. rewrite (interp_read rd m rootn Htop Hroot), Hroot.
  pose proof Hok as (Hl & _). cbv beta iota. rewrite Hl. assert (h = S (h - 1)) as Eh by lia. replace (seekLoop h) with (seekLoop (S (h - 1))) by (by rewrite <-Eh). cbn [seekLoop fn].
  rewrite Hl, (proj2 (Nat.leb_gt _ _)) by lia.
  destruct (placed_root k) as (n & Hn & Hp); [lia|done|]. rewrite interp_bind by auto with reads. rewrite Hn.
  apply (seekLoop_placed k (h - 1 - lv)); [|lia|lia]. replace (lv + (h - 1 - lv))%nat with (h - 1)%nat by lia. done.
Qed.

Lemma level_rem_okE c : forall lv, curOk rd m lv c -> Forall (okE rd limit lv) (rem rd m c).
Proof.
  induction c as [|f ps IH]; intros lv Hc; [done|]. cbn [rem]. destruct (fend f) eqn:Ef; [constructor|].
  destruct Hc as [?|[(_ & Hf & _) Hrest]]; [congruence|]. apply Forall_app. split; [by apply Forall_drop|].
  destruct ps as [|p ps]; [constructor|]. destruct Hrest as (_ & Hps & _). specialize (IH _ Hps).
  assert (Forall (okE rd limit (S lv)) (tail (rem rd m (p :: ps)))) as IHt
    by (destruct (rem rd m (p :: ps)); [done|by apply Forall_cons in IH as [_ IH]]).
  apply Forall_concat, Forall_map. eapply Forall_impl; [exact IHt|]. intros e He. simpl.
  destruct (okE_S _ _ _ _ He) as (c & _ & (_ & Hfc & _) & -> & _). done.
Qed.

Lemma last_spec ps : forall lv pe pes, curOk rd m lv ps -> rem rd m ps = pe :: pes ->
  forallb (fun p => (length (entries (fn p)) - 1 <=? fi p)%nat) ps = bool_decide (pes = []).
Proof.
  induction ps as [|p ps IH]; intros lv pe pes Hc Hrem; [done|]. cbn [forallb rem] in *.
  destruct (fend p) eqn:Ef; [done|]. destruct Hc as [?|[Hokp Hrest]]; [congruence|].
  assert (fi p < length (entries (fn p)))%nat as Hlt.
  { destruct ps; [|tauto]. destruct Hrest as [|E]; [done|]. by rewrite E, drop_nil in Hrem. }
  destruct (drop_lt _ _ Hlt) as (x & _ & Hd). rewrite Hd in Hrem. injection Hrem as <- <-.
  assert (forall T, bool_decide (drop (S (fi p)) (entries (fn p)) ++ T = []) =
    (length (entries (fn p)) - 1 <=? fi p)%nat && bool_decide (T = [])) as Hsplit.
  { intros T. destruct (Nat.leb_spec (length (entries (fn p)) - 1) (fi p)) as [Hle|Hgt]; simpl.
    - rewrite drop_ge by lia. done.
    - apply bool_decide_false. intros [E _]%app_eq_nil. assert (length (drop (S (fi p)) (entries (fn p))) = 0%nat) as E2 by (by rewrite E).
      rewrite length_drop in E2. lia. }
  rewrite Hsplit. f_equal. destruct ps as [|q ps].
  - done.
  - destruct Hrest as (_ & Hps & qe & qes & Hq & _). rewrite (IH _ _ _ Hps Hq). cbn [rem] in Hq |- *. rewrite Hq. cbn [tail].
    pose proof (level_rem_okE _ _ Hps) as Hokq. cbn [rem] in Hokq. rewrite Hq in Hokq. apply Forall_cons in Hokq as [_ Hokq].
    destruct qes as [|e qes]; [done|]. rewrite !bool_decide_false; [done| |done]. simpl.
    apply Forall_cons in Hokq as [He _]. destruct (okE_S _ _ _ _ He) as (c & _ & _ & -> & Hne & _). by destruct (entries c).
Qed.

Lemma nextNode_ok lv f ps pe pe' pes : curOk rd m lv (f :: ps) -> fend f = false -> ps <> [] ->
  rem rd m ps = pe :: pe' :: pes ->
  exists n ps', interp rd (nextNode m (f :: ps)) = Ok (mkFrame n 0 false :: ps') /\ curOk rd m lv (mkFrame n 0 false :: ps') /\ ps' <> [] /\ rem rd m ps' = pe' :: pes /\ readN rd limit (ProllyNode.child pe') = Ok n.
Proof.
  intros Hc Hend Hne Hrem. destruct Hc as [?|[_ Hrest]]; [congruence|]. destruct ps as [|p ps]; [done|].
  destruct Hrest as (_ & Hps & _). destruct (advance_ok rd m rootn Htop Hroot _ _ Hps) as (ps' & Hadv & Hps' & Hrem' & Hlen).
  unfold nextNode, nextNodeWith. rewrite interp_bind by auto with reads. rewrite Hadv. rewrite Hrem in Hrem'. cbn [tail] in Hrem'.
  pose proof (valid_rem rd m _ _ Hps') as Hv. destruct (valid ps'); [|congruence]. cbn [negb].
  destruct (fetch_ok rd m rootn Htop Hroot lv f ps' pe' pes Hps' Hrem' Hend) as (n & Hf & Hc' & _ & Hr).
  exists n, ps'. split_and!; try done. intros ->. done.
Qed.
End Cursors.

(** ** One level *)

(** Sorted edits split at a key. *)
Lemma split_edits k U : ksorted ekey U -> exists U1 U2, U = U1 ++ U2 /\ Forall (fun u => ekey u <=b k) U1 /\ Forall (fun u => k <b ekey u) U2.
Proof.
  induction U as [|u U IH]; intros Hs; [by exists [], []|]. pose proof Hs as [Hu HU]%ksorted_cons.
  destruct (decide (ekey u <=b k)) as [Hle|Hgt].
  - destruct (IH HU) as (U1 & U2 & -> & H1 & H2). exists (u :: U1), U2. split_and!; [done|by constructor|done].
  - exists [], (u :: U). apply blt_not_le in Hgt. split_and!; [done|constructor|]. constructor; [done|].
    eapply Forall_impl; [exact Hu|]. simpl. intros w Hw. border.
Qed.

Section Flush.
Context `{Hasher} (v0 : view) (m : Map) (es es' : list entry).
Abbreviation r := (mrule m).
Abbreviation limit := (InlineLimit (cfg m)).
Context (Hcan : canonical (vget v0) m es) (Hwf' : wf (cfg m) es').

(** The nodes of the new tree, with the levels up to the old root's. *)
Definition flushNodes : list node := treeNodes r (Nat.max (height m) (level (bulkRoot r es'))) es'.
Abbreviation L := (map encode flushNodes).
Context (Hcf : collision_free v0 L).
Abbreviation grew := (grew v0 L).

Lemma rule_good : Boundary.good_rule r.
Proof. apply (rule_inline (cfg m)), Hcan. Qed.
Hint Resolve rule_good : core.

Lemma limit_good : 0 <= limit <= maxInlineLimit.
Proof. destruct Hcan as (Hr & _). apply (rule_inline (cfg m) r Hr). Qed.
Hint Resolve limit_good : core.

Lemma old_wf : level_ok limit 0 es.
Proof. apply Hcan. Qed.
Hint Resolve old_wf Hwf' : core.

Lemma old_root : bulkRoot r es = mkNode (height m) (lvE r (height m) es) /\ isTop r (height m) es /\ (height m <= 62)%nat.
Proof.
  destruct (bulkRoot_top r rule_good es (level_len _ 0 es old_wf)) as (K & E & HK & HK2).
  destruct Hcan as (_ & _ & _ & _ & _ & -> & _). by rewrite E.
Qed.

Lemma new_root : exists K, bulkRoot r es' = mkNode K (lvE r K es') /\ isTop r K es' /\ (K <= 62)%nat.
Proof. apply bulkRoot_top; [done|]. exact (level_len _ 0 es' Hwf'). Qed.

(** Nodes of the old tree are in the store, nodes of the new one are in [L]. *)
Lemma old_node k d : (k < height m)%nat -> d ∈ draw r k (lvE r k es) -> has v0 (encode (mkNode k d)).
Proof.
  intros Hk Hd. destruct Hcan as (_ & _ & _ & _ & _ & Hh & Hrd).
  assert (vget v0 (Sum (encode (mkNode k d))) = Ok (encode (mkNode k d))) as Hv.
  { apply Hrd, treeNodes_elem; [lia|done]. }
  unfold vget in Hv. unfold has. destruct (v0 !! _); congruence.
Qed.

Lemma old_reads k d : (k < height m)%nat -> d ∈ draw r k (lvE r k es) ->
  vget v0 (Sum (encode (mkNode k d))) = Ok (encode (mkNode k d)).
Proof. intros Hk Hd. unfold vget. by rewrite (old_node k d Hk Hd). Qed.

Lemma flush_ok n : n ∈ flushNodes -> node_ok limit n.
Proof.
  intros Hn. destruct old_root as (_ & _ & Hh). destruct new_root as (K & E & _ & HK).
  apply (treeNodes_ok r rule_good limit limit_good _ es' n Hwf') with (2 := Hn). rewrite E. simpl. lia.
Qed.

Lemma new_node k d : (k <= Nat.max (height m) (level (bulkRoot r es')))%nat -> d ∈ draw r k (lvE r k es') ->
  encode (mkNode k d) ∈ L /\ zlen (encode (mkNode k d)) <= MaxChunkSize.
Proof.
  intros Hk Hd. assert (mkNode k d ∈ flushNodes) as Hn by (by apply treeNodes_elem).
  split; [by apply list_elem_of_fmap_2|]. by apply flush_ok.
Qed.

(** *** The chunker of a stretch *)

(** [ch] has been fed [X] from the start of a node. *)
Definition chunk_at (k : nat) (ch : chunker) (X : list entry) (v : view) : Prop :=
  clevel ch = k /\ chold ch = false /\ (forall h, h ∈ cexisting ch -> is_Some (v0 !! h)) /\
  exists ns, drawFrom k (fresh r k) [] X = (ns, cpending ch, csplit ch) /\ cout ch = map (named k) ns /\
    forall d, d ∈ ns -> has v (encode (mkNode k d)).

Lemma chunk_merge k ch X v Xp Np old U1 U2 T lim : (k <= height m)%nat ->
  chunk_at k ch X v -> grew v -> lvE r k es' = Xp ++ (X ++ mergeE old U1) ++ T -> closed r k Xp Np ->
  (forall u us, U2 = u :: us -> within lim u = false) -> Forall (fun u => within lim u = true) U1 ->
  exists v' ch', steps (merge ch old (U1 ++ U2) lim) v (ch', U2) v' /\ chunk_at k ch' (X ++ mergeE old U1) v' /\
    v ⊆ v' /\ grew v' /\ cchanged ch' = option_map (fun l => l ++ logE old U1) (cchanged ch).
Proof.
  intros Hk (Hlv & Hh & Hex & ns & Hdr & Hout & Hhas) Hg HX Hp H1 H2.
  assert (drawFrom k (fresh r k) [] (X ++ mergeE old U1) =
    let '(ms, q, t) := drawFrom k (csplit ch) (cpending ch) (mergeE old U1) in (ns ++ ms, q, t)) as Hall
    by (rewrite drawFrom_app, Hdr; done).
  destruct (drawFrom k (csplit ch) (cpending ch) (mergeE old U1)) as [[ms q] t] eqn:Ems.
  assert (forall d, d ∈ ns ++ ms -> d ∈ draw r k (lvE r k es')) as Hin.
  { intros d Hd. rewrite HX, (draw_closed r k Xp Np) by done. destruct (draw_prefix r k _ _ _ _ T Hall) as [ms' ->]. set_solver. }
  destruct (merge_steps v0 L Hcf lim old U1 U2 ch v) as (v' & Hst & Hf); [done|done|done| |].
  { split; [done|]. intros _ d Hd. rewrite Hlv, Ems in *. apply new_node; [lia|]. apply Hin. simpl in Hd. set_solver. }
  exists v', (mkLog (logE old U1) (fed ch (mergeE old U1))). destruct Hf as (Hsub & Hg' & Hst').
  unfold stored_in in Hst'. rewrite Hlv, Ems in Hst'. simpl in Hst'.
  split; [done|]. unfold chunk_at, fed. rewrite Hlv, Ems, Hh. simpl. split_and!; try done.
  exists (ns ++ ms). split_and!; [done|by rewrite Hout, map_app|].
  intros d [Hd|Hd]%elem_of_app; [eapply has_mono; [exact Hsub|by apply Hhas]|by apply Hst'].
Qed.

Lemma chunk_end k ch X v Xp Np : (k <= Nat.max (height m) (level (bulkRoot r es')))%nat ->
  chunk_at k ch X v -> grew v -> lvE r k es' = Xp ++ X -> closed r k Xp Np ->
  exists v', steps (end_ ch) v (ended ch) v' /\ cout (ended ch) = map (named k) (draw r k X) /\
    v ⊆ v' /\ grew v' /\ (forall d, d ∈ draw r k X -> has v' (encode (mkNode k d))).
Proof.
  intros Hk (Hlv & Hh & Hex & ns & Hdr & Hout & Hhas) Hg HX Hp.
  assert (forall d, d ∈ ns ++ lastly (cpending ch) -> d ∈ draw r k (lvE r k es')) as Hin.
  { intros d Hd. rewrite HX, (draw_closed r k Xp Np) by done. rewrite (draw_of r k X _ _ _ Hdr). set_solver. }
  destruct (end_steps v0 L Hcf ch v Hg Hex) as (v' & Hst & Hsub & Hg' & Hst').
  { intros _ d Hd. rewrite Hlv. apply new_node; [done|]. apply Hin. set_solver. }
  exists v'. split; [done|]. rewrite (draw_of r k X _ _ _ Hdr). split_and!; [|done|done|].
  - unfold ended. simpl. by rewrite Hh, Hout, Hlv, map_app.
  - intros d [Hd|Hd]%elem_of_app; [eapply has_mono; [exact Hsub|by apply Hhas]|]. rewrite <-Hlv. by apply Hst'.
Qed.
(** *** The cursor of a stretch *)

Abbreviation rd0 := (vget v0).

Lemma old_top : top m = Some (bulkRoot r es) /\ readN rd0 limit (root m) = Ok (bulkRoot r es) /\
  okN rd0 limit (height m) (bulkRoot r es).
Proof.
  pose proof (canonical_map_ok _ _ _ Hcan) as (_ & n & Ht & Hr & Hok & _ & _ & Hh & _).
  destruct Hcan as (_ & _ & Ht' & _). rewrite Ht in Ht'. injection Ht' as ->. by rewrite Hh.
Qed.

Lemma old_levels j : (j < height m)%nat -> lvE r j es = concat (map (kids rd0 limit) (lvE r (S j) es)).
Proof.
  intros Hj. cbn [lvE]. rewrite (kids_all r rule_good limit limit_good rd0 es (height m)); try done; [by rewrite draw_concat| |].
  - destruct old_root as (_ & _ & ?). lia.
  - apply old_reads.
Qed.

(** The cursor stands at the first of the nodes [D]. *)
Definition at_node (k : nat) (c : cursor) (D : list (list entry)) : Prop :=
  curOk rd0 m k c /\ exists f ps d D', c = f :: ps /\ ps <> [] /\ fend f = false /\ D = d :: D' /\
    fn f = mkNode k d /\ rem rd0 m ps = map (named k) D.

Lemma at_node_intro k f ps pe pes D : (k < height m)%nat -> (forall d, d ∈ D -> d ∈ draw r k (lvE r k es)) ->
  curOk rd0 m k (f :: ps) -> ps <> [] -> fend f = false -> rem rd0 m ps = pe :: pes -> map (named k) D = pe :: pes ->
  at_node k (f :: ps) D.
Proof.
  intros Hk HD Hc Hne Hend Hrem HDm. split; [done|]. destruct D as [|d D']; [done|]. injection HDm as <- <-.
  exists f, ps, d, D'. split_and!; try done. destruct Hc as [?|[_ Hrest]]; [congruence|]. destruct ps as [|p ps]; [done|].
  destruct Hrest as (_ & _ & pe & pes & Hr & Hread). rewrite Hrem in Hr. injection Hr as <- <-.
  rewrite (readN_named r rule_good limit limit_good rd0 es (height m)) in Hread; try done.
  - by injection Hread as <-.
  - destruct old_root as (_ & _ & ?). lia.
  - apply old_reads.
  - apply HD. left.
Qed.

Lemma seek_node k key0 v : grew v -> (k < height m)%nat ->
  exists c P D, steps (seek m k key0) v c v /\ at_node k c D /\ draw r k (lvE r k es) = P ++ D /\
    (forall x, x ∈ concat P -> key x <b key0) /\
    (forall d D', D = d :: D' -> D' = [] \/ key0 <=b lastKey (mkNode k d)).
Proof.
  intros Hg Hk. destruct old_top as (Ht & Hro & Hok). destruct old_root as (Er & [HT1 HT2] & Hh).
  destruct (seek_placed rd0 m (bulkRoot r es) (height m) Ht Hro Hok (fun j => lvE r j es)) with (lv := k) (k := key0)
    as (c & Hs & Hc & f & ps & pre & pe & pes & -> & Hne & Hi & Hend & Hrem & Hlev & Hpre & Hor & Hlk).
  - by rewrite Er.
  - apply old_levels.
  - done.
  - rewrite Er. cbn [entries]. intros E. rewrite E in HT2. simpl in HT2. lia.
  - cbn [lvE] in Hlev. apply map_eq_app in Hlev as (P & D & HD & <- & HDm).
    exists (f :: ps), P, D. split_and!.
    + apply steps_reads; [apply seek_reads|]. eapply mono_seek; [|exact Hs]. apply more_view, Hg.
    + eapply at_node_intro; [done| |done|done|done|done|done]. intros d Hd. rewrite HD. set_solver.
    + done.
    + intros x Hx. apply list_elem_of_In, in_concat in Hx as (d & Hd%list_elem_of_In & Hx%list_elem_of_In).
      rewrite Forall_forall in Hpre. eapply ble_lt_trans; [|apply (Hpre (named k d)); by apply list_elem_of_fmap_2].
      apply lastKey_ge; [|done]. destruct (lvE_ok r rule_good limit limit_good k es old_wf) as [(Hs2 & _) _].
      rewrite <-(draw_concat r rule_good k (lvE r k es)), HD, concat_app in Hs2. apply ksorted_app in Hs2 as (_ & Hs2 & _).
      apply list_elem_of_split in Hd as (P1 & P2 & ->). rewrite concat_app in Hs2. simpl in Hs2. by eapply ksorted_sub.
    + intros d D' ->. injection HDm as <- <-. destruct Hor as [Hor|Hor]; [by right|left]. by destruct D'.
Qed.

(** *** A stretch *)

Lemma nodeHash_at k c d D' : at_node k c (d :: D') -> nodeHash c = Ok (Sum (encode (mkNode k d))).
Proof.
  intros [Hc (f & ps & d' & D'' & -> & Hne & Hend & [= <- <-] & _ & Hrem)]. destruct ps as [|p ps]; [done|].
  destruct Hc as [?|[_ (_ & Hps & _)]]; [congruence|]. pose proof (valid_rem rd0 m _ _ Hps) as Hv.
  destruct (valid (p :: ps)); [|by rewrite Hrem in Hv]. destruct Hv as (e & es0 & He & Hcur). rewrite Hrem in He.
  injection He as <- _. unfold nodeHash. simpl in Hcur. by rewrite Hcur.
Qed.

Lemma lastNode_at k c d D' : at_node k c (d :: D') -> lastNode c = bool_decide (D' = []).
Proof.
  intros [Hc (f & ps & d' & D'' & -> & Hne & Hend & [= <- <-] & _ & Hrem)]. destruct ps as [|p ps]; [done|].
  destruct Hc as [?|[_ (_ & Hps & _)]]; [congruence|]. simpl in Hrem. unfold lastNode.
  rewrite (last_spec rd0 m _ _ _ _ Hps Hrem). apply bool_decide_ext. by destruct D'.
Qed.

Lemma nextNode_at k c d d' D' v : grew v -> (k < height m)%nat -> (forall x, x ∈ d :: d' :: D' -> x ∈ draw r k (lvE r k es)) ->
  at_node k c (d :: d' :: D') -> exists c', steps (nextNode m c) v c' v /\ at_node k c' (d' :: D').
Proof.
  intros Hg Hk HD [Hc (f & ps & e & D'' & -> & Hne & Hend & [= <- <-] & _ & Hrem)].
  destruct old_top as (Ht & Hro & Hok). simpl in Hrem.
  destruct (nextNode_ok rd0 m (bulkRoot r es) Ht Hro k f ps _ _ _ Hc Hend Hne Hrem) as (n & ps' & Hn & Hc' & Hne' & Hrem' & _).
  exists (mkFrame n 0 false :: ps'). split.
  - apply steps_reads; [apply nextNode_reads|]. eapply mono_nextNode; [|exact Hn]. apply more_view, Hg.
  - eapply at_node_intro; try done. intros x Hx. apply HD. by right.
Qed.
(** What a stretch from the nodes [D] with the edits [U] comes to: it took the nodes [D1] and
    the edits [U1], and drew [N]; the rest of the level starts at a node boundary. *)
Record stretched (k : nat) (D : list (list entry)) (U : list edit) (X : list entry) (ch : chunker) (v : view)
    (D1 : list (list entry)) (U1 U2 : list edit) (ch' : chunker) (v' : view) : Prop := {
  st_nodes : exists D2, D = D1 ++ D2 /\ (D2 = [] -> U2 = []) /\
    (closed r k (X ++ mergeE (concat D1) U1) (draw r k (X ++ mergeE (concat D1) U1)) \/ D2 = []) /\
    (forall u x, u ∈ U1 -> x ∈ concat D2 -> ekey u <b key x);
  st_some : D1 <> [];
  st_edits : U = U1 ++ U2;
  st_after : forall x u, x ∈ concat D1 -> u ∈ U2 -> key x <b ekey u;
  st_sub : v ⊆ v';
  st_grew : grew v';
  st_out : cout ch' = map (named k) (draw r k (X ++ mergeE (concat D1) U1));
  st_has : forall d, d ∈ draw r k (X ++ mergeE (concat D1) U1) -> has v' (encode (mkNode k d));
  st_log : cchanged ch' = option_map (fun l => l ++ logE (concat D1) U1) (cchanged ch) }.

Lemma old_sorted k D P : draw r k (lvE r k es) = P ++ D -> ksorted key (concat D).
Proof.
  intros E. destruct (lvE_ok r rule_good limit limit_good k es old_wf) as [(Hs & _) _].
  rewrite <-(draw_concat r rule_good k (lvE r k es)), E, concat_app in Hs. by apply ksorted_app in Hs as (_ & _ & ?).
Qed.

(** Edits up to a node's last key, and those after it, split the merge there. *)
Lemma merge_at_node k d D' U1 U2 : ksorted key (d ++ concat D') ->
  Forall (fun u => ekey u <=b lastKey (mkNode k d)) U1 -> Forall (fun u => lastKey (mkNode k d) <b ekey u) U2 -> d <> [] ->
  (forall a u, a ∈ d -> u ∈ U2 -> key a <b ekey u) /\ (forall u b, u ∈ U1 -> b ∈ concat D' -> ekey u <b key b).
Proof.
  intros Hs H1 H2 Hd. rewrite Forall_forall in H1, H2. pose proof Hs as (Hlt & Hsd & _)%ksorted_app. split.
  - intros a u Ha Hu. eapply ble_lt_trans; [by apply lastKey_ge|by apply H2].
  - intros u b Hu Hb. eapply ble_lt_trans; [by apply H1|]. destruct (lastKey_last k d Hd) as (d0 & e & -> & ->).
    apply Hlt; [set_solver|done].
Qed.

Lemma stretch_ok k : (k < height m)%nat -> forall fuel D P c ch removed U X Xp Np v,
  (length D <= fuel)%nat -> draw r k (lvE r k es) = P ++ D -> at_node k c D -> ksorted ekey U ->
  lvE r k es' = Xp ++ X ++ mergeE (concat D) U -> closed r k Xp Np -> chunk_at k ch X v -> grew v ->
  exists D1 U1 U2 ch' v', stretched k D U X ch v D1 U1 U2 ch' v' /\
    steps (stretch fuel m c ch removed U) v (ch', removed ++ map (named k) D1, U2) v' /\
    (forall u us d D', U = u :: us -> D = d :: D' -> D' = [] \/ ekey u <=b lastKey (mkNode k d) -> U1 <> []).
Proof.
  intros Hk. induction fuel as [|fuel IH]; intros D P c ch removed U X Xp Np v Hf HD Hat HU HX Hp Hch Hg.
  { destruct Hat as [_ (f & ps & d & D' & _ & _ & _ & -> & _)]. simpl in Hf. lia. }
  pose proof Hat as [_ (f & ps & d & D' & -> & _ & _ & -> & Hfn & _)]. cbn [stretch]. rewrite Hfn.
  cbn [entries]. pose proof (nodeHash_at _ _ _ _ Hat) as Hnh. pose proof (lastNode_at _ _ _ _ Hat) as Hlast.
  set (hh := Sum (encode (mkNode k d))) in *.
  assert (d ∈ draw r k (lvE r k es)) as Hdin by (rewrite HD; set_solver).
  assert (chunk_at k (exists_ hh ch) X v) as Hch1.
  { destruct Hch as (H1 & H2 & H3 & H4). split_and!; try done. simpl. intros x [->%elem_of_singleton|Hx]%elem_of_union; [|by apply H3].
    exists (encode (mkNode k d)). by apply old_node. }
  pose proof (old_sorted _ _ _ HD) as Hsort. cbn [concat] in Hsort, HX.
  assert (d <> []) as Hdne.
  { pose proof (draw_nonempty r rule_good k (lvE r k es)) as Hn. rewrite Forall_forall in Hn. by apply Hn. }
  rewrite Hlast.
  (* the merge of this node, with the edits it takes *)
  assert (exists U1 U2, U = U1 ++ U2 /\
    (let lim := if bool_decide (D' = []) then None else Some (lastKey (mkNode k d)) in
     (forall u us, U2 = u :: us -> within lim u = false) /\ Forall (fun u => within lim u = true) U1) /\
    (D' = [] -> U2 = []) /\
    (forall a u, a ∈ d -> u ∈ U2 -> key a <b ekey u) /\ (forall u b, u ∈ U1 -> b ∈ concat D' -> ekey u <b key b) /\
    (forall u us, U = u :: us -> D' = [] \/ ekey u <=b lastKey (mkNode k d) -> U1 <> []))
    as (U1 & U2 & -> & (Hw2 & Hw1) & HlastU & Hs1 & Hs2 & Hsome).
  { destruct (decide (D' = [])) as [->|HneD].
    - exists U, []. rewrite app_nil_r, bool_decide_true by done. split_and!; try done; try set_solver. split; [done|]. by apply Forall_true.
    - rewrite bool_decide_false by done. destruct (split_edits (lastKey (mkNode k d)) U HU) as (U1 & U2 & -> & H1 & H2).
      destruct (merge_at_node k d D' U1 U2 Hsort H1 H2 Hdne) as [H3 H4]. exists U1, U2. split_and!; try done; [split| ].
      + intros u us ->. apply Forall_cons in H2 as [H2 _]. simpl. destruct (bleb_spec (ekey u) (lastKey (mkNode k d))); [exfalso; border|done].
      + eapply Forall_impl; [exact H1|]. simpl. intros u Hu. by apply bleb_true.
      + intros u us E [|Hle]; [done|]. destruct U1; [|done]. simpl in E. rewrite E in H2.
        apply Forall_cons in H2 as [H2 _]. exfalso. border. }
  destruct (mergeE_app d U1 (concat D') U2 Hs1 Hs2) as [Hm1 Hm2]. rewrite Hm1 in HX.
  destruct (chunk_merge k (exists_ hh ch) X v Xp Np d U1 U2 (mergeE (concat D') U2)
    (if bool_decide (D' = []) then None else Some (lastKey (mkNode k d)))) as (v1 & ch1 & Hst1 & Hch2 & Hsub1 & Hg1 & Hlog1);
    [lia|done|done|by rewrite HX, <-!app_assoc|done|done|done|].
  change (cchanged (exists_ hh ch)) with (cchanged ch) in Hlog1.
  set (X1 := X ++ mergeE d U1) in *.
  destruct (decide (cpending ch1 = [])) as [Hpend|Hpend].
  - (* resynchronised *)
    pose proof Hch2 as (_ & _ & _ & ns & Hdr & Hout & Hhas). rewrite Hpend in Hdr.
    pose proof (closed_intro r rule_good k _ _ _ Hdr) as Hcl.
    assert (draw r k X1 = ns) as Hns by (rewrite (draw_of r k _ _ _ _ Hdr); apply app_nil_r).
    exists [d], U1, U2, ch1, v1. split; [|split].
    + split; cbn [concat]; rewrite ?app_nil_r; fold X1; rewrite ?Hns; try done.
      exists D'. split_and!; try done. by left.
    + eapply steps_bind; [intros rt; by rewrite Hnh|]. cbv zeta. eapply steps_bind; [exact Hst1|]. cbv beta iota.
      rewrite Hpend. apply steps_ret.
    + intros u us d0 D0 E [= <- <-] Hor. by eapply Hsome.
  - assert (forall A (a b : A), (if (length (cpending ch1) =? 0)%nat then a else b) = b) as Hif
      by (intros; destruct (cpending ch1); done).
    destruct (decide (D' = [])) as [->|HneD].
    + (* the level's last node *)
      rewrite HlastU in * by done. rewrite bool_decide_true in * by done.
      destruct (chunk_end k ch1 X1 v1 Xp Np) as (v2 & Hst2 & Hout2 & Hsub2 & Hg2 & Hhas2); try done; [lia| |].
      { rewrite HX. cbn [concat]. rewrite !mergeE_nil_r, app_nil_r. done. }
      exists [d], U1, [], (ended ch1), v2. split; [|split].
      * split; cbn [concat]; rewrite ?app_nil_r; fold X1; try done; [|by etrans].
        exists []. split_and!; try done. by right.
      * eapply steps_bind; [intros rt; by rewrite Hnh|]. cbv zeta. eapply steps_bind; [exact Hst1|]. cbv beta iota. rewrite Hif.
        eapply steps_bind; [exact Hst2|]. apply steps_ret.
      * intros u us d0 D0 E [= <- <-] Hor. by eapply Hsome.
    + rewrite bool_decide_false in * by done. destruct D' as [|d' D']; [done|].
      destruct (nextNode_at k (f :: ps) d d' D' v1 Hg1 Hk) as (c' & Hnx & Hat'); [intros x Hx; rewrite HD; set_solver|done|].
      destruct (IH (d' :: D') (P ++ [d]) c' ch1 (removed ++ [named k d]) U2 X1 Xp Np v1)
        as (D1 & V1 & V2 & ch' & v' & Hs & Hst & _); try done.
      { simpl in Hf |- *. lia. }
      { rewrite HD. by rewrite <-app_assoc. }
      { by apply ksorted_app in HU as (_ & _ & ?). }
      { rewrite HX. unfold X1. by rewrite <-!app_assoc. }
      destruct Hs as [(D2 & HD2 & Hn1 & Hn2 & Hn3) Hsm Hed Haft Hsub' Hg' Hout' Hhas' Hlog'].
      assert ((forall a u, a ∈ d -> u ∈ V1 -> key a <b ekey u) /\ (forall u b, u ∈ U1 -> b ∈ concat D1 -> ekey u <b key b)) as [Hx1 Hx2].
      { split; intros; [apply Hs1; [done|]; rewrite Hed; set_solver|apply Hs2; [done|]; rewrite HD2, concat_app; set_solver]. }
      destruct (mergeE_app d U1 (concat D1) V1 Hx1 Hx2) as [Hy1 Hy2].
      exists (d :: D1), (U1 ++ V1), V2, ch', v'. split; [|split].
      * split; cbn [concat]; rewrite ?Hy1, ?Hy2, ?(app_assoc X (mergeE d U1)); fold X1; try done.
        -- exists D2. rewrite HD2. split_and!; try done. intros u x [Hu|Hu]%elem_of_app Hx; [|by apply Hn3].
           apply Hs2; [done|]. rewrite HD2, concat_app. set_solver.
        -- by rewrite Hed, app_assoc.
        -- intros x u [Hx|Hx]%elem_of_app Hu; [apply Hs1; [done|]; rewrite Hed; set_solver|by apply Haft].
        -- by etrans.
        -- rewrite Hlog', Hlog1. destruct (cchanged ch); simpl; [by rewrite app_assoc|done].
      * eapply steps_bind; [intros rt; by rewrite Hnh|]. cbv zeta. eapply steps_bind; [exact Hst1|]. cbv beta iota. rewrite Hif.
        eapply steps_bind; [exact Hnx|]. change (map (named k) (d :: D1)) with ([named k d] ++ map (named k) D1). rewrite app_assoc. exact Hst.
      * intros u us d0 D0 E [= <- <-] Hor. destruct U1; [|done]. exfalso. by eapply Hsome.
Qed.
(** *** All stretches of a level *)

Lemma named_from k D e : Forall (fun d => d <> []) D -> e ∈ map (named k) D -> exists x, x ∈ concat D /\ key e = key x.
Proof.
  intros Hne He. apply list_elem_of_In, in_map_iff in He as (d & <- & Hd%list_elem_of_In). rewrite Forall_forall in Hne.
  destruct (lastKey_last k d (Hne d Hd)) as (d0 & x & -> & Hk). exists x. split; [|exact Hk].
  apply list_elem_of_split in Hd as (D1 & D2 & ->). rewrite concat_app. set_solver.
Qed.

Lemma nodes_ne k P D : draw r k (lvE r k es) = P ++ D -> Forall (fun d => d <> []) P /\ Forall (fun d => d <> []) D.
Proof. intros E. pose proof (draw_nonempty r rule_good k (lvE r k es)) as Hn. rewrite E in Hn. by apply Forall_app in Hn. Qed.

Lemma lvE_count k : (length (lvE r k es) <= Z.to_nat (mcount m))%nat.
Proof.
  destruct Hcan as (_ & _ & _ & _ & -> & _). induction k as [|k IH]; cbn [lvE]; [lia|]. rewrite length_map.
  pose proof (draw_length r rule_good k (lvE r k es)). lia.
Qed.

(** The edits a stretch makes a level up. *)
Lemma stretch_up k P D X0 D1 U1 X1 : draw r k (lvE r k es) = P ++ D1 ++ D -> (exists T, lvE r k es' = X0 ++ X1 ++ T) ->
  X1 = mergeE (concat D1) U1 -> Forall edit_ok U1 ->
  let up := replace (map (named k) D1) (map (named k) (draw r k X1)) in
  mergeE (map (named k) D1) up = map (named k) (draw r k X1) /\ ksorted ekey up /\ Forall edit_ok up /\
  (forall u, u ∈ up -> (exists x, x ∈ concat D1 /\ ekey u = key x) \/ (exists w, w ∈ U1 /\ ekey u = ekey w)).
Proof.
  intros HD HX -> Hok up. assert (level_ok limit k (mergeE (concat D1) U1)) as HlX.
  { destruct (lvE_ok r rule_good limit limit_good k es' Hwf') as [Hl _].
    destruct HX as [T HX]. rewrite HX in Hl. apply level_ok_app in Hl as [_ Hl]. by apply level_ok_app in Hl as [Hl _]. }
  assert (level_ok limit k (concat D1)) as HlD.
  { destruct (lvE_ok r rule_good limit limit_good k es old_wf) as [Hl _].
    rewrite <-(draw_concat r rule_good k (lvE r k es)), HD, !concat_app in Hl. apply level_ok_app in Hl as [_ Hl].
    by apply level_ok_app in Hl as [Hl _]. }
  assert (Forall (fun d => d <> []) D1) as Hne1.
  { destruct (nodes_ne k P (D1 ++ D) HD) as [_ Hn]. by apply Forall_app in Hn as [? _]. }
  pose proof (draw_nonempty r rule_good k (mergeE (concat D1) U1)) as Hne2.
  rewrite <-(draw_concat r rule_good k (mergeE _ _)) in HlX.
  destruct (named_level r rule_good limit limit_good k _ HlD Hne1) as [(Hs1 & Hv1 & _) _]. destruct (named_level r rule_good limit limit_good k _ HlX Hne2) as [(Hs2 & Hv2 & _) _].
  destruct (replace_ok (length (map (named k) D1) + length (map (named k) (draw r k (mergeE (concat D1) U1)))) _ _ (le_n _) Hs1 Hs2) as [H1 H2].
  { intros x y Hx Hy. rewrite Forall_forall in Hv1, Hv2. destruct (Hv1 x Hx) as (_ & -> & _). by destruct (Hv2 y Hy) as (_ & -> & _). }
  split_and!; [exact H1|exact H2| |].
  - apply Forall_forall. intros u Hu. by apply replace_elem in Hu as [_ ?].
  - intros u Hu. apply replace_elem in Hu as [[(x & Hx & ->)|(x & Hx & ->)] _].
    + left. by apply named_from in Hx.
    + apply named_from in Hx as (y & Hy & ->); [|done]. rewrite draw_concat in Hy by done.
      destruct (mergeE_elem _ _ _ Hy) as [?|(w & Hw & Hdel & ->)]; [left; eauto|right]. exists w. split; [done|].
      rewrite Forall_forall in Hok. by apply Hok.
Qed.

Definition logAt (k : nat) (l : list bytes) : list bytes := if (k =? 0)%nat then l else [].

Lemma level_ok_loop k : (k < height m)%nat -> forall fuel U P D Xp Np chg acc v,
  (length U <= fuel)%nat -> draw r k (lvE r k es) = P ++ D -> ksorted ekey U -> Forall edit_ok U -> (U <> [] -> D <> []) ->
  (forall x u, x ∈ concat P -> u ∈ U -> key x <b ekey u) ->
  lvE r k es' = Xp ++ mergeE (concat D) U -> closed r k Xp Np \/ U = [] -> grew v ->
  exists up v', steps (levelLoop fuel m k U chg acc) v (acc ++ up, chg ++ logAt k (logE (concat D) U)) v' /\
    v ⊆ v' /\ grew v' /\ ksorted ekey up /\ Forall edit_ok up /\
    mergeE (map (named k) D) up = map (named k) (draw r k (mergeE (concat D) U)) /\
    (forall d, d ∈ draw r k (mergeE (concat D) U) -> has v' (encode (mkNode k d))) /\
    (forall lo, Forall (fun x => lo <b key x) (concat D) -> Forall (fun u => lo <b ekey u) U -> Forall (fun u => lo <b ekey u) up).
Proof.
  intros Hk. induction fuel as [|fuel IH]; intros U P D Xp Np chg acc v Hf HD HU Hok HDne HPU HX Hp Hg.
  all: destruct U as [|u us]; [|try (simpl in Hf; lia)].
  1,2: exists [], v; rewrite !mergeE_nil_r, logE_nil_r, app_nil_r; rewrite (draw_suffix r rule_good k _ P D HD).
  1,2: assert (logAt k [] = []) as -> by (unfold logAt; by destruct (k =? 0)%nat); rewrite app_nil_r.
  1,2: split_and!; try done; first [apply steps_ret|constructor|intros d Hd; eapply has_mono; [apply Hg|]; apply old_node; [done|rewrite HD; set_solver]].
  destruct Hp as [Hp|]; [|done]. specialize (HDne ltac:(done)). cbn [levelLoop].
  destruct (seek_node k (ekey u) v Hg Hk) as (c & P' & D' & Hseek & Hat & HD' & HP' & Hfirst).
  (* the stretch starts at or after [D] *)
  assert (exists S, P' = P ++ S /\ D = S ++ D') as (S & -> & ->).
  { rewrite HD in HD'. apply app_eq_inv in HD' as [(K & -> & ->)|(K & -> & ->)]; [|by exists K].
    destruct K as [|d K]; [exists []; by rewrite !app_nil_r|]. exfalso. destruct (Hfirst d (K ++ D) eq_refl) as [E|Hle].
    - by apply app_eq_nil in E as [_ ?].
    - destruct (nodes_ne k _ D HD) as [Hn _]. apply Forall_app in Hn as [_ [Hd _]%Forall_cons].
      destruct (lastKey_last k d Hd) as (d0 & x & -> & Ek). rewrite Ek in Hle.
      assert (key x <b ekey u) by (apply HPU; [rewrite concat_app; set_solver|left]). border. }
  assert (D' <> []) as HD'ne by (by destruct Hat as [_ (? & ? & ? & ? & _ & _ & _ & -> & _)]).
  pose proof (draw_suffix r rule_good k _ P (S ++ D') HD) as HdD.
  destruct (draw_app r rule_good k _ S D' HdD HD'ne) as [HclS _].
  pose proof (old_sorted k _ P HD) as Hsort. rewrite concat_app in Hsort, HX |- *.
  assert (forall x w, x ∈ concat S -> w ∈ u :: us -> key x <b ekey w) as HSU.
  { intros x w Hx Hw. assert (key x <b ekey u) as Hxu by (apply HP'; rewrite concat_app; set_solver).
    apply elem_of_cons in Hw as [->|Hw]; [done|]. apply ksorted_cons in HU as [Hu _]. rewrite Forall_forall in Hu.
    specialize (Hu w Hw). border. }
  destruct (mergeE_app (concat S) [] (concat D') (u :: us) HSU ltac:(set_solver)) as [Hm Hl].
  rewrite mergeE_nil_r in Hm. rewrite logE_nil_r in Hl. simpl app in Hm, Hl. rewrite Hm in HX. rewrite Hm, Hl.
  set (ch0 := log chg (newChunker m k false)).
  assert (chunk_at k ch0 [] v) as Hch.
  { unfold ch0, log, newChunker. simpl clevel. unfold chunk_at. destruct (k =? 0)%nat; simpl; (split_and!; try done; exists []; split_and!; try done; set_solver). }
  assert (cchanged ch0 = if (k =? 0)%nat then Some chg else None) as Hcg by (unfold ch0, log; simpl; by destruct (k =? 0)%nat).
  destruct (stretch_ok k Hk (Datatypes.S (Z.to_nat (mcount m))) D' (P ++ S) c ch0 [] (u :: us) [] (Xp ++ concat S) (Np ++ S) v)
    as (D1 & U1 & U2 & ch' & v1 & Hst & Hsteps & Htook); try done.
  { pose proof (lvE_count k). pose proof (draw_length r rule_good k (lvE r k es)) as Hdl. rewrite HD' in Hdl.
    rewrite length_app in Hdl. lia. }
  { rewrite HX. by rewrite <-app_assoc. }
  { by apply closed_app. }
  destruct Hst as [(D2 & -> & Hlast & Hcl & Hbefore) Hsome Hed Haft Hsub1 Hg1 Hout Hhas Hlog]. simpl app in Hcl, Hout, Hhas.
  rewrite Hed in *. pose proof HU as (HU12 & HU1 & HU2)%ksorted_app. pose proof Hok as (Hok1 & Hok2)%Forall_app.
  assert (U1 <> []) as HU1ne.
  { destruct Hat as [_ (_ & _ & d & Dt & _ & _ & _ & E & _)]. eapply Htook; [symmetry; exact Hed|exact E|].
    by eapply Hfirst. }
  rewrite concat_app in *. assert (forall a w, a ∈ concat D1 -> w ∈ U2 -> key a <b ekey w) as Hx1 by (intros; by apply Haft).
  destruct (mergeE_app (concat D1) U1 (concat D2) U2 Hx1 Hbefore) as [Hy1 Hy2]. rewrite Hy1 in HX. rewrite Hy1, Hy2.
  set (X1 := mergeE (concat D1) U1) in *. set (T := mergeE (concat D2) U2) in *.
  set (up1 := replace (map (named k) D1) (cout ch')).
  destruct (stretch_up k (P ++ S) D2 (Xp ++ concat S) D1 U1 X1) as (Hr1 & Hr2 & Hr3 & Hr4);
    [done|exists T; rewrite HX; by rewrite <-!app_assoc|done|done|].
  rewrite <-Hout in Hr1, Hr2, Hr3, Hr4. fold up1 in Hr1, Hr2, Hr3, Hr4.
  (* the rest of the level *)
  destruct (IH U2 ((P ++ S) ++ D1) D2 (Xp ++ concat S ++ X1) (Np ++ S ++ draw r k X1) (logged chg ch') (acc ++ up1) v1)
    as (up2 & v2 & Hst2 & Hsub2 & Hg2 & Hs2 & Ho2 & Hm2 & Hh2 & Hb2); try done.
  { rewrite <-Hed in Hf. destruct U1; [done|]. apply (f_equal length) in Hed. rewrite length_app in Hed. simpl in *. lia. }
  { by rewrite HD, <-!app_assoc. }
  { intros HneU ->. by rewrite Hlast in HneU. }
  { intros x w Hx Hw. rewrite concat_app in Hx. apply elem_of_app in Hx as [Hx|Hx]; [|by apply Haft].
    rewrite concat_app in Hx. apply elem_of_app in Hx as [Hx|Hx]; [apply HPU|apply HSU]; set_solver. }
  { rewrite HX. by rewrite <-!app_assoc. }
  { destruct Hcl as [Hcl|Hcl]; [left|right; by apply Hlast]. apply closed_app; [done|]. by apply closed_app. }
  assert (draw r k (concat S ++ X1 ++ T) = S ++ draw r k X1 ++ draw r k T) as Hdraw.
  { rewrite (draw_closed r k _ S) by done. f_equal. destruct Hcl as [Hcl|Hcl].
    - by apply draw_closed.
    - unfold T. rewrite Hcl, (Hlast Hcl). simpl concat. rewrite mergeE_nil_r, app_nil_r. change (draw r k []) with (@nil (list entry)).
      by rewrite app_nil_r. }
  (* how the keys of the pieces lie *)
  pose proof Hsort as (HSD & _ & HsD')%ksorted_app. pose proof HsD' as (HD12 & _ & _)%ksorted_app.
  assert (forall w, w ∈ up1 -> Forall (fun x => ekey w <b key x) (concat D2) /\ Forall (fun z => ekey w <b ekey z) U2) as Hup1.
  { intros w Hw. rewrite !Forall_forall. destruct (Hr4 w Hw) as [(x & Hx & ->)|(z & Hz & ->)]; split; intros; auto. }
  assert (forall lo, Forall (fun x => lo <b key x) (concat D1) -> Forall (fun z => lo <b ekey z) U1 -> Forall (fun w => lo <b ekey w) up1) as Hlo1.
  { intros lo H1 H2. rewrite Forall_forall in H1. rewrite Forall_forall in H2. apply Forall_forall. intros w Hw.
    destruct (Hr4 w Hw) as [(x & Hx & ->)|(z & Hz & ->)]; auto. }
  destruct (nodes_ne k _ _ HD') as [[_ HneS]%Forall_app [Hne1 Hne2]%Forall_app].
  assert (mergeE (map (named k) (S ++ D1 ++ D2)) (up1 ++ up2) = map (named k) (S ++ draw r k X1 ++ draw r k T)) as Hmerge.
  { rewrite !map_app.
    destruct (mergeE_app (map (named k) D1) up1 (map (named k) D2) up2) as [Hq1 _].
    { intros a w Ha Hw. apply named_from in Ha as (x & Hx & ->); [|done].
      assert (Forall (fun w => key x <b ekey w) up2) as Hab; [|rewrite Forall_forall in Hab; auto].
      apply Hb2; apply Forall_forall; intros; auto. }
    { intros w b Hw Hb. apply named_from in Hb as (x & Hx & ->); [|done]. destruct (Hup1 w Hw) as [H1 _]. rewrite Forall_forall in H1. auto. }
    destruct (mergeE_app (map (named k) S) [] (map (named k) D1 ++ map (named k) D2) (up1 ++ up2)) as [Hq2 _].
    { intros a w Ha Hw. apply named_from in Ha as (x & Hx & ->); [|done].
      assert (Forall (fun w => key x <b ekey w) (up1 ++ up2)) as Hab; [|rewrite Forall_forall in Hab; auto].
      apply Forall_app. split; [apply Hlo1|apply Hb2]; apply Forall_forall; intros; first [apply HSD|apply HSU]; set_solver. }
    { intros w b Hw. by apply elem_of_nil in Hw. }
    simpl app in Hq2. rewrite Hq2, Hq1, mergeE_nil_r, Hr1, Hm2, Hout. done. }
  exists (up1 ++ up2), v2. rewrite app_assoc. split_and!.
  - eapply steps_bind; [exact Hseek|]. eapply steps_bind; [exact Hsteps|]. cbv beta iota. simpl app.
    assert (logged chg ch' = chg ++ logAt k (logE (concat D1) U1)) as Elog.
    { unfold logged, logAt. rewrite Hlog, Hcg. destruct (k =? 0)%nat; simpl; [done|by rewrite app_nil_r]. }
    rewrite Elog in Hst2. fold up1.
    assert (chg ++ logAt k (logE (concat D1) U1 ++ logE (concat D2) U2) =
      (chg ++ logAt k (logE (concat D1) U1)) ++ logAt k (logE (concat D2) U2)) as ->.
    { unfold logAt. destruct (k =? 0)%nat; by rewrite ?app_nil_r, ?app_assoc. }
    rewrite Elog. exact Hst2.
  - by etrans.
  - done.
  - apply ksorted_app. split_and!; [|done|done]. intros w z Hw Hz. destruct (Hup1 w Hw) as [H1 H2].
    specialize (Hb2 _ H1 H2). rewrite Forall_forall in Hb2. auto.
  - by apply Forall_app.
  - rewrite Hdraw. exact Hmerge.
  - intros d. rewrite Hdraw, !elem_of_app. intros [Hd|[Hd|Hd]].
    + eapply has_mono; [apply Hg2|]. apply old_node; [done|]. rewrite HD'. set_solver.
    + eapply has_mono; [exact Hsub2|]. by apply Hhas.
    + by apply Hh2.
  - intros lo [_ H1]%Forall_app [H2 H3]%Forall_app. apply Forall_app in H1 as [H1 H4]. apply Forall_app.
    split; [by apply Hlo1|by apply Hb2].
Qed.
(** The nodes of level [k] of the new tree are in the store. *)
Definition level_in (v : view) (k : nat) : Prop :=
  forall d, d ∈ draw r k (lvE r k es') -> has v (encode (mkNode k d)).

Lemma level_in_mono v v' k : v ⊆ v' -> level_in v k -> level_in v' k.
Proof. intros Hv Hl d Hd. eapply has_mono; [done|by apply Hl]. Qed.

Lemma old_nodes_ne k : (k < height m)%nat -> draw r k (lvE r k es) <> [].
Proof.
  intros Hk E. destruct old_root as (_ & [_ HT] & _).
  assert (forall j, (k < j)%nat -> lvE r j es = []) as Hnil.
  { intros j Hj. induction Hj as [|j Hj IH]; cbn [lvE]; [by rewrite E|]. by rewrite IH. }
  rewrite (Hnil (height m)) in HT by done. simpl in HT. lia.
Qed.

Lemma applyLevel_ok k U chg v : (k < height m)%nat -> ksorted ekey U -> Forall edit_ok U ->
  lvE r k es' = mergeE (lvE r k es) U -> grew v ->
  exists up v', steps (applyLevel m k U chg) v (up, chg ++ logAt k (logE (lvE r k es) U)) v' /\
    v ⊆ v' /\ grew v' /\ ksorted ekey up /\ Forall edit_ok up /\
    lvE r (S k) es' = mergeE (lvE r (S k) es) up /\ level_in v' k.
Proof.
  intros Hk HU Hok HX Hg. pose proof (draw_concat r rule_good k (lvE r k es)) as Hc.
  destruct (level_ok_loop k Hk (length U) U [] (draw r k (lvE r k es)) [] [] chg [] v)
    as (up & v' & Hst & Hsub & Hg' & Hs & Ho & Hm & Hh & _); try done.
  - intros _. by apply old_nodes_ne.
  - intros x u Hx. by apply elem_of_nil in Hx.
  - by rewrite Hc.
  - by left.
  - rewrite Hc in *. rewrite <-HX in *. exists up, v'. by split_and!.
Qed.

(** Equal levels have equal leaves. *)
Lemma levels_back k : (k <= height m)%nat -> lvE r k es = lvE r k es' -> es = es'.
Proof.
  induction k as [|k IH]; intros Hk E; [done|]. apply IH; [lia|]. cbn [lvE] in E.
  rewrite <-(draw_concat r rule_good k (lvE r k es)), <-(draw_concat r rule_good k (lvE r k es')). f_equal.
  assert (forall d, d ∈ draw r k (lvE r k es) -> has v0 (encode (mkNode k d)) /\ node_ok limit (mkNode k d)) as Ho.
  { intros d Hd. split; [apply old_node; [lia|done]|]. destruct old_root as (_ & _ & ?).
    apply (draw_node_ok r rule_good limit limit_good k (lvE r k es)); [lia| |done].
    by apply (lvE_ok r rule_good limit limit_good). }
  assert (forall d, d ∈ draw r k (lvE r k es') -> mkNode k d ∈ flushNodes) as Hn.
  { intros d Hd. apply treeNodes_elem; [lia|done]. }
  clear -E Ho Hn Hcf Hcan Hwf'. remember (draw r k (lvE r k es)) as D eqn:HD. remember (draw r k (lvE r k es')) as D' eqn:HD'.
  clear HD HD'. revert D' E Hn. induction D as [|d D IH]; intros [|d' D'] E Hn; try done.
  simpl in E. injection E as _ Eh _ E. f_equal.
  - destruct (Ho d) as [H1 H2]; [left|]. specialize (Hn d' ltac:(left)). unfold has in H1. rewrite Eh in H1.
    assert (encode (mkNode k d') = encode (mkNode k d)) as Ee.
    { destruct Hcf as [_ Hc]. eapply Hc; [|exact H1]. by apply list_elem_of_fmap_2. }
    apply (encode_inj limit limit_good) in Ee; [by injection Ee|by apply flush_ok|done].
  - apply IH; [intros x Hx; apply Ho; by right|done|intros x Hx; apply Hn; by right].
Qed.

(** *** The top of the new tree *)

Lemma read_at v h n : grew v -> readN (vget v) limit h = Ok n -> steps (read m h) v n v.
Proof.
  intros Hg Hn. destruct old_top as (Ht & Hro & _). apply steps_reads; [apply read_reads|].
  rewrite (interp_read (vget v) m (bulkRoot r es) Ht); [done|].
  unfold readN in Hro |- *. destruct (vget v0 (root m)) as [b|] eqn:E; [|done]. by rewrite (more_view _ v (proj1 Hg) _ _ E).
Qed.

Lemma has_readN v n : n ∈ flushNodes -> has v (encode n) -> readN (vget v) limit (Sum (encode n)) = Ok n.
Proof.
  intros Hn Hh. unfold readN, vget. rewrite Hh. apply (decode_encode limit limit_good). by apply flush_ok.
Qed.

Lemma final_map v K chgd : isTop r K es' -> bulkRoot r es' = mkNode K (lvE r K es') ->
  (forall k, (k <= K)%nat -> level_in v k) -> has v (encode (mkNode K (lvE r K es'))) ->
  forall fl bs, canonical (vget v)
    (mkMap (cfg m) r (Sum (encode (mkNode K (lvE r K es')))) (total (mkNode K (lvE r K es'))) K (Some (mkNode K (lvE r K es'))) fl bs chgd) es'.
Proof.
  intros HK Hb Hl Hh fl bs. unfold canonical. simpl. rewrite Hb. split; [apply Hcan|]. split; [done|]. split_and!; try done.
  - destruct (lvE_ok r rule_good limit limit_good K es' Hwf') as [H1 H2]. rewrite (total_leafcount limit) by done. done.
  - intros x Hx. unfold vget. assert (has v (encode x)) as Hx2; [|by rewrite Hx2].
    apply elem_of_app in Hx as [Hx|Hx]; [|rewrite Hb in Hx; by apply list_elem_of_singleton in Hx as ->].
    apply list_elem_of_In, in_concat in Hx as (l & Hl' & Hx). apply in_map_iff in Hl' as (k & <- & Hk%in_seq).
    apply in_map_iff in Hx as (d & <- & Hd%list_elem_of_In). simpl in Hk. apply Hl; [lia|done].
Qed.

Lemma collapse_ok v j : grew v -> (j <= height m)%nat -> length (draw r j (lvE r j es')) = 1%nat ->
  (forall k, (k < j)%nat -> level_in v k) ->
  exists K, steps (collapse j m (mkNode j (lvE r j es'))) v (mkNode K (lvE r K es')) v /\ isTop r K es' /\ (K <= j)%nat.
Proof.
  intros Hg. induction j as [|j IH]; intros Hj H1 Hl.
  - exists 0%nat. split; [apply steps_ret|]. split; [|done]. split; [lia|by left].
  - destruct (decide (length (lvE r (S j) es') = 1)%nat) as [E|E].
    + cbn [lvE] in E. rewrite length_map in E. destruct (IH ltac:(lia) E) as (K & Hst & HK & HKj); [intros k Hk; apply Hl; lia|].
      exists K. split; [|split; [done|lia]]. cbn [collapse level entries lvE]. rewrite length_map, E. simpl andb. cbv iota.
      eapply steps_bind; [|exact Hst]. pose proof (draw_one r rule_good j (lvE r j es') ltac:(lia)) as Hd.
      set (X := lvE r j es') in *. assert (X <> []) as HX by (intros ->; by rewrite Hd in E).
      assert (draw r j X = [X]) as Hd1 by (rewrite Hd; by destruct X).
      unfold child. cbn [entries]. rewrite Hd1. cbn [map lookup list_lookup].
      eapply steps_bind.
      * apply read_at; [done|]. apply has_readN; [apply treeNodes_elem; [lia|fold X; rewrite Hd1; left]|].
        apply Hl; [lia|]. fold X. rewrite Hd1. left.
      * unfold checkChild. cbn [entries level lookup list_lookup named key count]. rewrite (proj2 (Z.eqb_eq _ _)) by lia.
        cbn [negb]. rewrite (proj2 (Nat.eqb_neq _ _)) by (destruct X; [done|]; simpl; lia).
        rewrite bool_decide_false by (by intros Hx). rewrite Z.eqb_refl. cbn [negb]. apply steps_ret.
    + exists (S j). split; [|split; [|done]].
      * cbn [collapse level entries]. rewrite (proj2 (Nat.eqb_neq _ _)) by done. rewrite andb_false_r. apply steps_ret.
      * split; [lia|]. right. pose proof (draw_length r rule_good (S j) (lvE r (S j) es')). lia.
Qed.
Lemma storeAll_ok k D : (k <= Nat.max (height m) (level (bulkRoot r es')))%nat -> forall v, grew v ->
  (forall d, d ∈ D -> d ∈ draw r k (lvE r k es')) ->
  exists v', steps (storeAll (map (mkNode k) D)) v (map (named k) D) v' /\ v ⊆ v' /\ grew v' /\
    forall d, d ∈ D -> has v' (encode (mkNode k d)).
Proof.
  intros Hk. induction D as [|d D IH]; intros v Hg HD.
  - exists v. split_and!; [apply steps_ret|done|done|]. intros d Hd. by apply elem_of_nil in Hd.
  - destruct (new_node k d Hk) as [H1 H2]; [apply HD; left|].
    destruct (store_steps v0 L Hcf v (mkNode k d) ∅ Hg H1 H2) as (v1 & Hs1 & Hsub1 & Hg1 & Hh1); [set_solver|].
    destruct (IH v1 Hg1) as (v2 & Hs2 & Hsub2 & Hg2 & Hh2); [intros x Hx; apply HD; by right|].
    exists v2. split_and!; [|by etrans|done|].
    + simpl. eapply steps_bind; [exact Hs1|]. eapply steps_bind; [exact Hs2|]. apply steps_ret.
    + intros x [->|Hx]%elem_of_cons; [by eapply has_mono|by apply Hh2].
Qed.

(** A level above the old root. *)
Lemma grow_level j v : (j <= level (bulkRoot r es'))%nat -> grew v ->
  exists ch v', steps (next ← addAll (newChunker m j false) (lvE r j es'); end_ next) v ch v' /\
    cout ch = lvE r (S j) es' /\ v ⊆ v' /\ grew v' /\ level_in v' j.
Proof.
  intros Hj Hg. destruct (drawFrom j (fresh r j) [] (lvE r j es')) as [[ns p] s] eqn:Hdr.
  pose proof (draw_of r j _ _ _ _ Hdr) as Hd.
  destruct (addAll_steps v0 L Hcf (lvE r j es') (newChunker m j false) v Hg) as (v1 & Hs1 & Hsub1 & Hg1 & Hst1).
  { split; [set_solver|]. intros _ d. change (d ∈ (drawFrom j (fresh r j) [] (lvE r j es')).1.1 -> encode (mkNode j d) ∈ L /\ zlen (encode (mkNode j d)) <= MaxChunkSize).
    rewrite Hdr. intros Hx. apply new_node; [lia|]. rewrite Hd. simpl in Hx. set_solver. }
  assert (chunk_at j (fed (newChunker m j false) (lvE r j es')) (lvE r j es') v1) as Hch.
  { unfold stored_in in Hst1. change (drawFrom (clevel _) (csplit _) (cpending _) _) with (drawFrom j (fresh r j) [] (lvE r j es')) in Hst1.
    rewrite Hdr in Hst1. unfold fed. change (drawFrom (clevel _) (csplit _) (cpending _) _) with (drawFrom j (fresh r j) [] (lvE r j es')).
    rewrite Hdr. split_and!; try done. exists ns. split_and!; try done. by apply Hst1. }
  destruct (chunk_end j _ _ v1 [] [] ltac:(lia) Hch Hg1) as (v2 & Hs2 & Hout & Hsub2 & Hg2 & Hh2); [done|done|].
  eexists _, v2. split; [eapply steps_bind; [exact Hs1|exact Hs2]|]. split_and!; try done. by etrans.
Qed.

Lemma grow_ok fuel : forall j v, (length (lvE r j es') <= fuel)%nat -> (2 <= length (lvE r j es'))%nat -> j <> 0%nat -> grew v ->
  (forall k, (k < j)%nat -> level_in v k) ->
  exists K v', steps (grow fuel m j (lvE r j es')) v [named K (lvE r K es')] v' /\ isTop r K es' /\ v ⊆ v' /\ grew v' /\
    (forall k, (k <= K)%nat -> level_in v' k) /\ lvE r K es' <> [].
Proof.
  induction fuel as [|fuel IH]; intros j v Hf H2 Hj Hg Hl; [lia|]. cbn [grow]. rewrite (proj2 (Nat.leb_gt _ _)) by lia.
  destruct new_root as (K0 & HK0 & [HK1 HK2] & _).
  assert (j <= K0)%nat as HjK.
  { destruct (decide (j <= K0)%nat); [done|]. pose proof (lvE_single r rule_good K0 es' HK1 j ltac:(lia)). lia. }
  destruct (grow_level j v) as (ch & v1 & Hs & Hout & Hsub & Hg1 & Hin); [rewrite HK0; done|done|].
  assert (forall k, (k < S j)%nat -> level_in v1 k) as Hl1.
  { intros k Hk. destruct (decide (k = j)) as [->|]; [done|]. eapply level_in_mono; [exact Hsub|]. apply Hl. lia. }
  pose proof (draw_halves r rule_good j (lvE r j es') Hj) as Hhalf.
  assert (length (lvE r (S j) es') = length (draw r j (lvE r j es'))) as Hlen by (cbn [lvE]; by rewrite length_map).
  assert (forall up v2, steps (grow fuel m (S j) (lvE r (S j) es')) v1 up v2 ->
    steps (next ← addAll (newChunker m j false) (lvE r j es'); next ← end_ next; grow fuel m (S j) (cout next)) v up v2) as Hglue.
  { intros up v2 Hst rt. specialize (Hs rt). simpl in Hs. rewrite exec_bind in Hs. rewrite exec_bind.
    destruct (exec v rt (addAll (newChunker m j false) (lvE r j es'))) as [[[c|] w] rt1]; [|done].
    rewrite exec_bind, Hs. rewrite Hout. apply Hst. }
  destruct (decide (length (lvE r (S j) es') <= 1)%nat) as [H1|H1].
  - exists j, v1. split_and!; try done.
    + apply Hglue. assert (grow fuel m (S j) (lvE r (S j) es') = mret (lvE r (S j) es')) as ->
        by (destruct fuel; cbn [grow]; by rewrite (proj2 (Nat.leb_le _ _)) by lia).
      cbn [lvE]. rewrite (draw_one r rule_good j) by lia. destruct (lvE r j es'); [simpl in H2; lia|]. apply steps_ret.
    + split; [lia|]. by right.
    + intros k Hk. apply Hl1. lia.
    + intros E. rewrite E in H2. simpl in H2. lia.
  - destruct (IH (S j) v1) as (K & v2 & Hst & HK & Hsub2 & Hg2 & Hl2 & Hne); [lia|lia|done|done|done|].
    exists K, v2. split_and!; try done; [by apply Hglue|by etrans].
Qed.

(** *** The root *)

Lemma lvE_nil k : lvE r k es' = [] -> es' = [].
Proof.
  induction k as [|k IH]; intros E; [done|]. apply IH. cbn [lvE] in E. apply map_eq_nil in E. by apply (draw_nil_inv r rule_good k).
Qed.

Lemma root_chunk U chg v : lvE r (height m) es' = mergeE (lvE r (height m) es) U -> grew v ->
  exists ch v', steps (cu ← merge (log chg (newChunker m (height m) true)) (lvE r (height m) es) U None; end_ cu.1) v ch v' /\
    v ⊆ v' /\ grew v' /\ cnodes ch = map (mkNode (height m)) (draw r (height m) (lvE r (height m) es')) /\
    logged chg ch = chg ++ logAt (height m) (logE (lvE r (height m) es) U).
Proof.
  intros HX Hg. set (h := height m) in *. set (ch0 := log chg (newChunker m h true)).
  assert (clevel ch0 = h /\ csplit ch0 = fresh r h /\ cpending ch0 = [] /\ cnodes ch0 = [] /\ chold ch0 = true /\ cexisting ch0 = ∅ /\
    cchanged ch0 = if (h =? 0)%nat then Some chg else None) as (E1 & E2 & E3 & E4 & E5 & E6 & E7).
  { unfold ch0, log. simpl clevel. destruct (h =? 0)%nat; by split_and!. }
  destruct (merge_steps v0 L Hcf None (lvE r h es) U [] ch0 v) as (v1 & Hs1 & Hsub1 & Hg1 & _); [done|by apply Forall_true|done| |].
  { split; [rewrite E6; set_solver|by rewrite E5]. }
  rewrite app_nil_r in Hs1. set (c1 := mkLog _ _) in Hs1.
  destruct (drawFrom h (fresh r h) [] (lvE r h es')) as [[ns p] s] eqn:Hdr.
  assert (clevel c1 = h /\ cpending c1 = p /\ cnodes c1 = map (mkNode h) ns /\ chold c1 = true /\ cexisting c1 = ∅) as (F1 & F2 & F3 & F4 & F5).
  { unfold c1, mkLog, fed. rewrite E1, E2, E3, E4, E5, E6, <-HX, Hdr. by split_and!. }
  destruct (end_steps v0 L Hcf c1 v1 Hg1) as (v2 & Hs2 & Hsub2 & Hg2 & _); [rewrite F5; set_solver|by rewrite F4|].
  exists (ended c1), v2. split; [eapply steps_bind; [exact Hs1|exact Hs2]|]. split_and!; [by etrans|done| |].
  - unfold ended. cbn [cnodes]. by rewrite F1, F2, F3, F4, (draw_of r h _ _ _ _ Hdr), map_app.
  - unfold logged, ended, c1, mkLog, fed, logAt. simpl. rewrite E1, E2, E3, <-HX, Hdr. simpl. rewrite E7.
    destruct (h =? 0)%nat; simpl; [done|by rewrite app_nil_r].
Qed.

(** What a flush comes to on the store. *)
Definition flushed_to (v v' : view) (m' : Map) : Prop :=
  v ⊆ v' /\ grew v' /\ canonical (vget v') m' es' /\ cfg m' = cfg m /\ mrule m' = r.

Lemma top_has v K : isTop r K es' -> lvE r K es' <> [] -> level_in v K -> has v (encode (mkNode K (lvE r K es'))).
Proof.
  intros [HK _] Hne Hl. apply Hl. rewrite (draw_one r rule_good K) by done. destruct (lvE r K es'); [done|]. left.
Qed.

Lemma applyRoot_ok U chg v : lvE r (height m) es' = mergeE (lvE r (height m) es) U -> grew v ->
  (forall k, (k < height m)%nat -> level_in v k) ->
  exists m' v', steps (applyRoot m (bulkRoot r es) U chg) v (m', chg ++ logAt (height m) (logE (lvE r (height m) es) U)) v' /\
    flushed_to v v' m'.
Proof.
  intros HX Hg Hl. destruct old_root as (Er & _ & _). destruct (root_chunk U chg v HX Hg) as (ch & v1 & Hs1 & Hsub1 & Hg1 & Hnodes & Hlog).
  assert (forall B (f : chunker -> prog B) b v2, steps (f ch) v1 b v2 ->
    steps (cu ← merge (log chg (newChunker m (height m) true)) (lvE r (height m) es) U None; ch ← end_ cu.1; f ch) v b v2) as Hglue.
  { intros B f b v2 Hst rt. specialize (Hs1 rt). simpl in Hs1. rewrite exec_bind in Hs1. rewrite exec_bind.
    destruct (exec v rt (merge _ _ _ _)) as [[[cu|] w] rt1]; [|done]. rewrite exec_bind, Hs1. apply Hst. }
  assert (forall k, (k < height m)%nat -> level_in v1 k) as Hl1 by (intros k Hk; eapply level_in_mono; [exact Hsub1|by apply Hl]).
  unfold applyRoot. rewrite Er. cbn [level entries]. set (h := height m) in *. rewrite <-Hlog.
  destruct (draw r h (lvE r h es')) as [|d [|d2 D]] eqn:HD.
  - (* everything was deleted *)
    assert (es' = []) as E by (eapply lvE_nil, (draw_nil_inv r rule_good h), HD).
    assert (bulkRoot r es' = emptyNode) as Hb by (by rewrite E).
    assert (emptyNode ∈ flushNodes) as Hin by (rewrite <-Hb; apply treeNodes_root).
    destruct (put_steps v0 L Hcf v1 (encode emptyNode) Hg1) as (v2 & Hs2 & Hsub2 & Hg2 & Hh2);
      [by apply list_elem_of_fmap_2|by apply flush_ok|].
    eexists _, v2. split; [apply Hglue; rewrite Hnodes; simpl map; cbv iota; eapply steps_bind; [|apply steps_ret]|].
    { unfold Empty. destruct Hcan as (Hrule & _). rewrite Hrule. eapply steps_bind; [exact Hs2|apply steps_ret]. }
    split_and!; try done; [by etrans|]. pose proof (final_map v2 0 []) as Hfm. rewrite E in *. apply Hfm; try done.
    + split; [simpl; lia|by left].
    + intros k Hk. assert (k = 0%nat) as -> by lia. intros x Hx. rewrite E in Hx. by apply elem_of_nil in Hx.
  - (* one node: the root, or a single child of it *)
    destruct (collapse_ok v1 h Hg1 (le_n _)) as (K & Hs2 & HK & HKh); [by rewrite HD|done|].
    destruct (bulkRoot_unique r rule_good K es' (level_len _ 0 es' Hwf') HK) as [Hb _].
    assert (mkNode K (lvE r K es') ∈ flushNodes) as Hin by (rewrite <-Hb; apply treeNodes_root).
    destruct (store_steps v0 L Hcf v1 (mkNode K (lvE r K es')) ∅ Hg1) as (v2 & Hs3 & Hsub3 & Hg3 & Hh3);
      [by apply list_elem_of_fmap_2|by apply flush_ok|set_solver|].
    assert (lvE r h es' = d) as Hd by (pose proof (draw_concat r rule_good h (lvE r h es')) as Hc; rewrite HD in Hc; simpl in Hc; by rewrite app_nil_r in Hc).
    eexists _, v2. split.
    { apply Hglue. rewrite Hnodes. simpl map. cbv iota. eapply steps_bind; [rewrite <-Hd; exact Hs2|].
      eapply steps_bind; [exact Hs3|apply steps_ret]. }
    split_and!; try done; [by etrans|]. unfold with_. apply final_map; try done.
    intros k Hk. destruct (decide (k < h)%nat) as [Hkh|Hkh]; [eapply level_in_mono; [exact Hsub3|by apply Hl1]|].
    assert (k = K) as -> by lia. assert (K = h) as -> by lia. intros x Hx. rewrite HD in Hx.
    apply list_elem_of_singleton in Hx as ->. by rewrite <-Hd.
  - (* the tree grows *)
    destruct (storeAll_ok h (d :: d2 :: D)) with (v := v1) as (v2 & Hs2 & Hsub2 & Hg2 & Hh2); [lia|done|by rewrite HD|].
    assert (lvE r (S h) es' = map (named h) (d :: d2 :: D)) as HS by (cbn [lvE]; by rewrite HD).
    destruct (grow_ok (length (lvE r (S h) es')) (S h) v2) as (K & v3 & Hs3 & HK & Hsub3 & Hg3 & Hl3 & Hne);
      [done|rewrite HS; simpl; lia|done|done| |].
    { intros k Hk. destruct (decide (k = h)) as [->|]; [intros x Hx; apply Hh2; by rewrite HD in Hx|].
      eapply level_in_mono; [exact Hsub2|apply Hl1; lia]. }
    destruct (bulkRoot_unique r rule_good K es' (level_len _ 0 es' Hwf') HK) as [Hb _].
    pose proof (top_has v3 K HK Hne (Hl3 K (le_n _))) as HhK.
    exists (with_ m (Sum (encode (mkNode K (lvE r K es')))) (mkNode K (lvE r K es'))), v3. split.
    { apply Hglue. rewrite Hnodes. simpl map. cbv iota. eapply steps_bind; [exact Hs2|]. cbv beta.
      eapply steps_bind; [rewrite <-HS; exact Hs3|]. cbv beta iota.
      eapply steps_bind; [|apply steps_ret]. apply read_at; [done|]. apply has_readN; [rewrite <-Hb; apply treeNodes_root|done]. }
    split_and!; try done; [etrans; [exact Hsub1|by etrans]|]. by apply final_map.
Qed.
(** *** The whole of [apply] *)

Lemma canonical_mono rd rd' n xs : more rd rd' -> canonical rd n xs -> canonical rd' n xs.
Proof.
  intros Hm (H1 & H2 & H3 & H4 & H5 & H6 & H7). unfold canonical. split_and!; try done. intros x Hx. by apply Hm, H7.
Qed.

Lemma applyLoop_ok n : forall lv U chg v, (lv + n = height m)%nat -> lvE r lv es' = mergeE (lvE r lv es) U ->
  ksorted ekey U -> Forall edit_ok U -> grew v -> (forall k, (k < lv)%nat -> level_in v k) ->
  exists m' v', steps (applyLoop n m (bulkRoot r es) lv U chg) v (m', chg ++ logAt lv (logE (lvE r lv es) U)) v' /\
    flushed_to v v' m'.
Proof.
  induction n as [|n IH]; intros lv U chg v Hlv HX HU Hok Hg Hl.
  - assert (lv = height m) as -> by lia. by apply applyRoot_ok.
  - destruct (applyLevel_ok lv U chg v) as (up & v1 & Hs1 & Hsub1 & Hg1 & Hsu & Hou & HX1 & Hin); try done; [lia|].
    destruct up as [|u up].
    + rewrite mergeE_nil_r in HX1. pose proof (levels_back (S lv) ltac:(lia) (eq_sym HX1)) as E.
      exists m, v1. split; [eapply steps_bind; [exact Hs1|]; apply steps_ret|].
      split_and!; try done. rewrite <-E. eapply canonical_mono; [|exact Hcan]. apply more_view, Hg1.
    + destruct (IH (S lv) (u :: up) (chg ++ logAt lv (logE (lvE r lv es) U)) v1) as (m' & v2 & Hs2 & Hsub2 & Hf); try done; [lia| |].
      { intros k Hk. destruct (decide (k = lv)) as [->|]; [done|]. eapply level_in_mono; [exact Hsub1|]. apply Hl. lia. }
      exists m', v2. split; [|split; [by etrans|done]]. eapply steps_bind; [exact Hs1|]. cbv beta iota.
      change (logAt (S lv) _) with (@nil bytes) in Hs2. rewrite app_nil_r in Hs2. exact Hs2.
Qed.

Lemma apply_ok U : es' = mergeE es U -> ksorted ekey U -> Forall edit_ok U ->
  exists m' v', steps (apply_ m U) v0 (m', map dkey (deltas es es')) v' /\ flushed_to v0 v' m'.
Proof.
  intros HX HU Hok. destruct old_top as (Ht & Hro & _). destruct old_root as (Er & _ & _).
  pose proof (grew_start v0 L) as Hg.
  destruct (applyLoop_ok (height m) 0 U [] v0) as (m' & v' & Hs & Hf); try done; [by intros k Hk; lia|].
  exists m', v'. split; [|done]. unfold apply_. eapply steps_bind; [by apply read_at|]. cbv beta. rewrite Er in Hs |- *. cbn [level].
  change ([] ++ logAt 0 (logE (lvE r 0 es) U)) with (logE es U) in Hs.
  rewrite logE_deltas in Hs; [|apply old_wf|done|done]. by rewrite HX.
Qed.
End Flush.
