(* ===== verification/ProllyEditor.v ===== *)
(** * core/prolly: what [Editor.Flush] promises

    The theorems about [Flush] on any chunk store that keeps the port's
    contract: the edits are read back and nothing else changes, the new root
    depends on the contents alone, and the keys recorded are those [Diff] reports. *)

From S2P Require Import Prelude GoStd Wire Hash ChunkStore Prog ProllyNode Prolly ProllyDiff ProllyDraw ProllyFlush ProllyMerge ProllyCanon.
From S2P Require Boundary Cdc Stream StreamWrite.

(** What [Put] and [Delete] keep true of an editor. *)
Definition editor_ok (e : Editor) : Prop :=
  forall k o, edits e !! k = Some o ->
    zlen k <= MaxKeySize /\ match o with Some p => zlen p <= maxValue (cfg (em e)) | None => True end.

Lemma NewEditor_ok m : editor_ok (NewEditor m).
Proof. intros k o Hk. simpl in Hk. by rewrite lookup_empty in Hk. Qed.

Lemma Put_ok k v e r e' : editor_ok e -> Put k v e = (r, e') -> editor_ok e'.
Proof.
  intros He. unfold Put. destruct (Z.ltb_spec MaxKeySize (zlen k)); [by intros [= <- <-]|].
  destruct (Z.ltb_spec (maxValue (cfg (em e))) (zlen v)); intros [= <- <-]; [done|].
  intros k' o. simpl. rewrite lookup_insert_Some. intros [[<- <-]|[_ Ho]]; [done|by apply He].
Qed.

Lemma Delete_ok k e r e' : editor_ok e -> Delete k e = (r, e') -> editor_ok e'.
Proof.
  intros He. unfold Delete. destruct (Z.ltb_spec MaxKeySize (zlen k)); intros [= <- <-]; [done|].
  intros k' o. simpl. rewrite lookup_insert_Some. intros [[<- <-]|[_ Ho]]; [done|by apply He].
Qed.

(** The stream settings [stream.Write] accepts. *)
Definition stream_ok (c : Config) : Prop :=
  (exists rl, Boundary.New (StreamWrite.Nodes (SConfig c)) = Ok rl) /\ Cdc.Validate (StreamWrite.CDC (SConfig c)) = Ok tt.

(** ** The edits, prepared *)

#[export] Instance ble_total : Total ble.
Proof. intros a b. rewrite !ble_lteq. destruct (blt_trichotomy a b) as [|[|]]; auto. Qed.

#[export] Instance ble_transitive : Transitive ble.
Proof. intros a b c. apply ble_trans. Qed.

Lemma sortedKeys_elem eds k : k ∈ sortedKeys eds <-> is_Some (eds !! k).
Proof.
  unfold sortedKeys. rewrite (merge_sort_Permutation ble), list_elem_of_In, in_map_iff. split.
  - intros ([k' o] & <- & Ho%list_elem_of_In%elem_of_map_to_list). by exists o.
  - intros [o Ho]. exists (k, o). split; [done|]. by apply list_elem_of_In, elem_of_map_to_list.
Qed.

Lemma sortedKeys_sorted eds : ksorted (fun k => k) (sortedKeys eds).
Proof.
  assert (NoDup (sortedKeys eds)) as Hn.
  { unfold sortedKeys. rewrite (merge_sort_Permutation ble). apply NoDup_fst_map_to_list. }
  assert (StronglySorted ble (sortedKeys eds)) as Hs.
  { apply (StronglySorted_merge_sort ble). }
  induction Hs as [|k ks Hs IH Hk]; [constructor|]. apply NoDup_cons in Hn as [Hnk Hn]. apply ksorted_cons. split; [|by apply IH].
  rewrite Forall_forall in Hk. apply Forall_forall. intros x Hx. specialize (Hk x Hx). apply ble_lteq in Hk as [|E]; [done|].
  subst k. contradiction.
Qed.

Lemma sortedKeys_length eds : length (sortedKeys eds) = size eds.
Proof. unfold sortedKeys. rewrite (merge_sort_Permutation ble), length_map. by rewrite length_map_to_list. Qed.

Section Prepare.
Context `{Hasher} (m : Map).
Abbreviation c := (cfg m).

Lemma writeLoop_puts rl fuel : forall cut levels, puts_only (StreamWrite.writeLoop fuel rl cut levels).
Proof.
  induction fuel as [|fuel IH]; intros cut levels; cbn [StreamWrite.writeLoop]; [done|].
  destruct (Cdc.Next cut) as [[data|e] cut'].
  - apply puts_bind; [done|]. intros h. apply puts_bind; [apply StreamWrite.add_puts|auto].
  - destruct (bool_decide _); [|done]. destruct levels; [by apply puts_bind|apply StreamWrite.finishLoop_puts].
Qed.

Lemma valueOf_puts p : puts_only (valueOf c p).
Proof.
  unfold valueOf. destruct (_ <? _); [|done]. apply puts_bind; [|done]. unfold writeValue, StreamWrite.Write.
  destruct (Boundary.New _); [|done]. destruct (Cdc.New _ _ _); [|done]. apply writeLoop_puts.
Qed.

Lemma prepare_puts eds keys : puts_only (prepare c eds keys).
Proof.
  induction keys as [|k ks IH]; [done|]. cbn [prepare]. apply puts_bind.
  - destruct (eds !! k) as [[p|]|]; [|done..]. apply puts_bind; [apply valueOf_puts|done].
  - intros u. by apply puts_bind.
Qed.

Context (Hrule : rule c = Ok (mrule m)) (Hstream : stream_ok c) (Hmax : maxValue c <= 2 ^ 62).

(** A long value is a stream of its bytes. *)
Definition streamed (rd : creader) (v : value) (p : bytes) : Prop := forall ref, v = VStream ref ->
  0 <= Stream.Depth ref <= Stream.maxDepth /\ 0 <= Stream.Size ref <= Stream.maxInt64 /\ Stream.contents rd ref = Ok p.

Lemma valueOf_ok rd p r log : zlen p <= maxValue c -> stored (valueOf c p) = Some (r, log) -> StreamWrite.reads rd log ->
  exists v, r = Ok v /\ valid_value (InlineLimit c) v /\ materialize rd m v = Ok p /\ streamed rd v p /\ (zlen p <= InlineLimit c -> v = VInline p).
Proof.
  intros Hp Hx Hrd. destruct (rule_inline _ _ Hrule) as [Hlim _]. unfold valueOf in Hx.
  destruct (Z.ltb_spec (InlineLimit c) (zlen p)) as [Hbig|Hsmall].
  2: { injection Hx as <- <-. by exists (VInline p). }
  destruct Hstream as [[rl Hrl] Hcdc].
  destruct (is_Ok_inv (Cdc.New [(p, None)] (Some (zlen p)) (StreamWrite.CDC (SConfig c)))) as [cut Hcut].
  { unfold Cdc.New. by rewrite Hcdc. }
  assert (Cdc.delivers 0 [(p, None)] = (p, EOF)) as Hdel.
  { cbn [Cdc.delivers]. rewrite (proj2 (Nat.eqb_neq _ _)) by lia. by rewrite app_nil_r. }
  destruct (StreamWrite.write_stored _ _ _ _ _ _ Hrl Hcut Hdel ltac:(lia)) as (r1 & log1 & Hw & Hread).
  rewrite (stored_bind (writeValue c p) _ r1 log1) in Hx by exact Hw.
  assert (log = log1) as ->.
  { destruct r1; [|by injection Hx as <- <-]. simpl in Hx. rewrite app_nil_r in Hx. by injection Hx as <- <-. }
  destruct (Hread rd Hrd) as (ref & -> & Hsize & Hdepth & Hcont & HRA). simpl in Hx. injection Hx as <- _.
  exists (VStream ref). unfold maxInlineLimit, Stream.maxDepth, maxLevel, two64 in *. split; [done|]. split.
  - simpl. unfold maxLevel, two64. lia.
  - simpl. unfold readValue. rewrite HRA by done. rewrite u64_small by (unfold two64; lia).
    rewrite (proj2 (Z.leb_le _ _)) by lia. split; [done|]. split; [|lia]. intros ref' [= <-]. unfold Stream.maxInt64, Stream.maxDepth. split_and!; [lia|lia|lia|lia|done].
Qed.

(** An edit stands for what the editor holds under its key. *)
Definition prepared (rd : creader) (eds : gmap bytes (option bytes)) (k : bytes) (u : edit) : Prop :=
  ekey u = k /\
  match eds !! k with
  | Some (Some p) => edel u = false /\ key (ee u) = k /\ valid_entry 0 (InlineLimit c) (ee u) /\ materialize rd m (val (ee u)) = Ok p /\ streamed rd (val (ee u)) p /\
      (zlen p <= InlineLimit c -> val (ee u) = VInline p)
  | _ => edel u = true
  end.

Lemma prepare_ok rd eds keys : (forall k o, eds !! k = Some o -> zlen k <= MaxKeySize /\ match o with Some p => zlen p <= maxValue c | None => True end) ->
  forall r log, stored (prepare c eds keys) = Some (r, log) -> StreamWrite.reads rd log ->
  exists U, r = Ok U /\ Forall2 (prepared rd eds) keys U.
Proof.
  intros Heds. induction keys as [|k ks IH]; intros r log Hx Hrd.
  - injection Hx as <- <-. by exists [].
  - cbn [prepare] in Hx. apply stored_bind_inv in Hx as (r1 & log1 & H1 & Hx).
    assert (exists u, r1 = Ok u /\ prepared rd eds k u) as (u & -> & Hu).
    { assert (StreamWrite.reads rd log1) as Hrd1
        by (destruct r1; [destruct Hx as (? & _ & ->); by apply StreamWrite.reads_app in Hrd as [Hrd _]|by destruct Hx as [_ <-]]).
      unfold prepared. destruct (eds !! k) as [[p|]|] eqn:E.
      - destruct (Heds _ _ E) as [Hk Hp]. apply stored_bind_inv in H1 as (r2 & log2 & H2 & H1).
        assert (log1 = log2) as -> by (destruct r2; [destruct H1 as (? & [= _ <-] & ->); by rewrite app_nil_r|by destruct H1]).
        destruct (valueOf_ok rd p r2 log2 Hp H2 Hrd1) as (v & -> & Hv & Hm & Hst & Hi). destruct H1 as (? & [= <- _] & _).
        eexists. split; [done|]. by split_and!.
      - injection H1 as <- <-. by eexists.
      - injection H1 as <- <-. by eexists. }
    destruct Hx as (log2 & Hx & ->). apply StreamWrite.reads_app in Hrd as [_ Hrd].
    apply stored_bind_inv in Hx as (r3 & log3 & H3 & Hx).
    assert (log2 = log3) as -> by (destruct r3; [destruct Hx as (? & [= _ <-] & ->); by rewrite app_nil_r|by destruct Hx]).
    destruct (IH _ _ H3 Hrd) as (U & -> & HU). destruct Hx as (? & [= <- _] & _). exists (u :: U). split; [done|by constructor].
Qed.

Lemma prepared_edits rd eds U : Forall2 (prepared rd eds) (sortedKeys eds) U ->
  ksorted ekey U /\ Forall edit_ok U /\ (length U = size eds) /\
  Forall (fun u => edel u = false -> valid_entry 0 (InlineLimit c) (ee u)) U /\
  (forall k, match eds !! k with
             | Some o => exists u, klookup ekey k U = Some u /\ prepared rd eds k u
             | None => klookup ekey k U = None end).
Proof.
  intros HU. assert (map ekey U = sortedKeys eds) as Hk.
  { clear -HU. induction HU as [|k u ks U [Hu _] _ IH]; [done|]. simpl. by rewrite Hu, IH. }
  assert (ksorted ekey U) as Hs.
  { pose proof (sortedKeys_sorted eds) as Hs. rewrite <-Hk in Hs. by apply (ksorted_fmap ekey (fun k => k)) in Hs. }
  assert (forall u, u ∈ U -> prepared rd eds (ekey u) u) as Hp.
  { intros u Hu. apply list_elem_of_lookup in Hu as [i Hi]. destruct (Forall2_lookup_r _ _ _ _ _ HU Hi) as (k & _ & Hpk).
    by rewrite (proj1 Hpk). }
  split_and!; [done| | | |].
  - apply Forall_forall. intros u Hu Hd. destruct (Hp u Hu) as [_ Hx]. destruct (eds !! ekey u) as [[p|]|]; [tauto|congruence..].
  - by rewrite <-sortedKeys_length, <-Hk, length_map.
  - apply Forall_forall. intros u Hu Hd. destruct (Hp u Hu) as [_ Hx]. destruct (eds !! ekey u) as [[p|]|]; [tauto|congruence..].
  - intros k. destruct (eds !! k) as [o|] eqn:E.
    + assert (k ∈ map ekey U) as Hin by (rewrite Hk; apply sortedKeys_elem; by exists o).
      apply list_elem_of_In, in_map_iff in Hin as (u & <- & Hu%list_elem_of_In). exists u. split; [by apply klookup_sorted|by apply Hp].
    + apply klookup_None. apply Forall_forall. intros u Hu <-. assert (ekey u ∈ sortedKeys eds) as Hin
        by (rewrite <-Hk; by apply list_elem_of_fmap_2). apply sortedKeys_elem in Hin as [? ?]. congruence.
Qed.
End Prepare.

(** ** [Flush] *)

(** What the map a flush makes reads as. *)
Lemma merged_get `{Hasher} rd m' e es U :
  canonical rd m' (mergeE es U) -> canonical rd (em e) es -> cfg m' = cfg (em e) ->
  Forall2 (prepared (em e) rd (edits e)) (sortedKeys (edits e)) U ->
  forall k, Get rd m' k = match edits e !! k with
                          | Some (Some p) => Ok (Some p)
                          | Some None => Ok None
                          | None => Get rd (em e) k
                          end.
Proof.
  intros Hcan' Hcan Hcfg HU k. destruct (prepared_edits (em e) _ _ _ HU) as (HUs & Hok & _ & _ & Hlk). specialize (Hlk k).
  pose proof Hcan as (_ & (Hsort & _) & _).
  rewrite (Get_ok _ _ _ k (canonical_map_ok _ _ _ Hcan')), mergeE_lookup by done.
  assert (forall v, materialize rd m' v = materialize rd (em e) v) as Hmat.
  { intros v. unfold materialize. by rewrite Hcfg. }
  destruct (edits e !! k) as [o|] eqn:E.
  - destruct Hlk as (u & -> & _ & Hu). rewrite E in Hu. destruct o as [p|]; [|by rewrite Hu].
    destruct Hu as (-> & _ & _ & Hm & _). by rewrite Hmat, Hm.
  - rewrite Hlk, (Get_ok _ _ _ k (canonical_map_ok _ _ _ Hcan)). destruct (klookup key k es); [|done]. by rewrite Hmat.
Qed.

Section Flush.
Context `{HH : Hasher}.

(** The chunks a flush may store: those of the long values, and the new tree's nodes. *)
Definition flushChunks (e : Editor) (es : list entry) : list bytes :=
  match stored (prepare (cfg (em e)) (edits e) (sortedKeys (edits e))) with
  | Some (Ok U, log) => log ++ map encode (flushNodes (em e) (mergeE es U))
  | Some (Err _, log) => log
  | None => []
  end.

Lemma collision_free_app v a b : collision_free v (a ++ b) -> collision_free v a /\ collision_free (with_log v a) b /\ v ⊆ with_log v a.
Proof.
  intros [H1 H2]. assert (collision_free v a) as Ha by (split; intros; [apply H1; set_solver|eapply H2; [set_solver|done]]).
  split; [done|]. split; [split|].
  - intros. apply H1; set_solver.
  - intros x y Hx. rewrite with_log_lookup by done. intros [Hy|[Hy Hs]]; [eapply H2; [set_solver|done]|apply H1; set_solver].
  - apply map_subseteq_spec. intros h x Hx. apply with_log_lookup; [done|by left].
Qed.

Lemma mergeE_length old us : (length (mergeE old us) <= length old + length us)%nat.
Proof.
  revert old us. apply (merge_ind (fun old us => (length (mergeE old us) <= length old + length us)%nat)).
  - intros old. rewrite mergeE_nil_r. lia.
  - intros u us IH. rewrite mergeE_nil_l, length_app. unfold putOf. destruct (edel u); simpl in *; lia.
  - intros o os u us Hlt IH. rewrite mergeE_cons. merge_cases. rewrite length_app. unfold putOf. destruct (edel u); simpl in *; lia.
  - intros o os u us He IH. rewrite mergeE_cons. merge_cases. rewrite length_app. unfold putOf. destruct (edel u); simpl in *; lia.
  - intros o os u us Hgt IH. rewrite mergeE_cons. merge_cases. simpl in *. lia.
Qed.

Lemma merged_wf c es U : wf c es -> ksorted ekey U -> Forall edit_ok U ->
  Forall (fun u => edel u = false -> valid_entry 0 (InlineLimit c) (ee u)) U -> zlen es + zlen U <= 2 ^ 62 -> wf c (mergeE es U).
Proof.
  intros (H1 & H2 & _) HU Hok Hv Hlen. split_and!.
  - by apply mergeE_sorted.
  - apply Forall_forall. intros x Hx. rewrite Forall_forall in H2. rewrite Forall_forall in Hv.
    destruct (mergeE_elem _ _ _ Hx) as [?|(u & Hu & Hd & ->)]; auto.
  - cbn [leafcount]. pose proof (mergeE_length es U). lia.
Qed.

(** [Flush] on the chunks of a store. *)
Lemma Flush_ok v e es :
  canonical (vget v) (em e) es -> editor_ok e -> stream_ok (cfg (em e)) -> maxValue (cfg (em e)) <= 2 ^ 62 ->
  zlen es + Z.of_nat (size (edits e)) <= 2 ^ 62 -> collision_free v (flushChunks e es) ->
  exists U m' v', let es' := mergeE es U in
    steps (Flush e) v (m', mkEditor m' ∅) v' /\ v ⊆ v' /\
    canonical (vget v') m' es' /\ cfg m' = cfg (em e) /\ mrule m' = mrule (em e) /\
    Forall2 (prepared (em e) (vget v') (edits e)) (sortedKeys (edits e)) U /\
    flushed m' = true /\ base m' = root (em e) /\ changed m' = map dkey (deltas es es').
Proof.
  intros Hcan He Hst Hmax Hlen Hcf. pose proof Hcan as (Hrule & Hwf & _). set (m := em e) in *.
  unfold flushChunks in Hcf. fold m in Hcf.
  destruct (stored_puts _ (prepare_puts m (edits e) (sortedKeys (edits e)))) as (r & log & Hx). rewrite Hx in Hcf.
  assert (collision_free v log) as Hcl by (destruct r as [U|]; simpl in Hcf; [by apply collision_free_app in Hcf as [? _]|done]).
  assert (forall v', with_log v log ⊆ v' -> StreamWrite.reads (vget v') log) as Hreads.
  { intros v' Hv b Hb. unfold vget. erewrite lookup_weaken; [done| |exact Hv]. apply with_log_lookup; [done|]. by right. }
  destruct (prepare_ok m Hrule Hst Hmax (vget (with_log v log)) (edits e) (sortedKeys (edits e)) He r log Hx) as (U & -> & HU0);
    [by apply Hreads|].
  destruct (collision_free_app _ _ _ Hcf) as (_ & Hcf2 & Hsub).
  destruct (prepared_edits m _ _ _ HU0) as (HU & Hok & HlenU & Hv & _).
  assert (wf (cfg m) (mergeE es U)) as Hwf' by (apply merged_wf; try done; rewrite HlenU; done).
  assert (canonical (vget (with_log v log)) m es) as Hcan1 by (eapply canonical_mono; [by apply more_view|done]).
  destruct (apply_ok (with_log v log) m es (mergeE es U) Hcan1 Hwf' Hcf2 U eq_refl HU Hok)
    as (m1 & v' & Hsteps & Hsub' & _ & Hcan' & Hcfg & Hmr).
  exists U. eexists _, v'. simpl. split.
  { unfold Flush. eapply steps_bind; [intros rt; by rewrite (stored_exec _ _ _ _ _ Hx)|].
    eapply steps_bind; [exact Hsteps|]. apply steps_ret. }
  destruct (prepare_ok m Hrule Hst Hmax (vget v') (edits e) (sortedKeys (edits e)) He (Ok U) log Hx) as (U' & [= <-] & HU');
    [by apply Hreads|].
  split_and!; try done. by etrans.
Qed.

Context {S : Type} `{!ChunkStore S} `{!ChunkStoreOk S}.

(** An editor over a canonical map that holds [es], on a store that can be used: the edits are within
    the limits [Put] and [Delete] enforce, the stream settings are valid, the counts fit, and no two of
    the chunks the flush stores and the chunks there share a name. *)
Definition flushable (s : S) (e : Editor) (es : list entry) : Prop :=
  cs_ok s /\ canonical (cs_get s) (em e) es /\ editor_ok e /\ stream_ok (cfg (em e)) /\ maxValue (cfg (em e)) <= 2 ^ 62 /\
  zlen es + Z.of_nat (size (edits e)) <= 2 ^ 62 /\ collision_free (cs_view s) (flushChunks e es).

(** [Flush_ok] on a store. *)
Lemma Flush_run (s : S) e es :
  flushable s e es ->
  exists U m' s', let es' := mergeE es U in
    run (Flush e) s = (Ok (m', mkEditor m' ∅), s') /\ cs_ok s' /\ cs_rootof s' = cs_rootof s /\ cs_view s ⊆ cs_view s' /\
    canonical (cs_get s') m' es' /\ cfg m' = cfg (em e) /\ mrule m' = mrule (em e) /\
    Forall2 (prepared (em e) (cs_get s') (edits e)) (sortedKeys (edits e)) U /\
    flushed m' = true /\ base m' = root (em e) /\ changed m' = map dkey (deltas es es').
Proof.
  intros (Hs & Hcan & He & Hst & Hmax & Hlen & Hcf). rewrite get_view in Hcan by done.
  destruct (Flush_ok (cs_view s) e es Hcan He Hst Hmax Hlen Hcf) as (U & m' & v' & Hsteps & Hsub & Hc & Hcfg & Hmr & HU & Hrest).
  destruct (run_view (Flush e) s Hs) as (s' & Hrun & Hs' & Hv & Hr). rewrite Hsteps in Hrun, Hv, Hr. simpl in Hrun, Hv, Hr.
  exists U, m', s'. simpl. rewrite (get_view s') by done. rewrite Hv. destruct Hrest as (? & ? & ?). by split_and!.
Qed.

Lemma canonical_kept (s s' : S) m es : cs_ok s -> cs_ok s' -> cs_view s ⊆ cs_view s' -> canonical (cs_get s) m es -> canonical (cs_get s') m es.
Proof. intros Hs Hs' Hsub. rewrite !get_view by done. apply canonical_mono. by apply more_view. Qed.

(** C1. A flush writes the edits: on any store that keeps the chunk store's contract, [Flush] of an editor
    over a canonical map of any height succeeds, provided the chunks it stores and those
    there have no two of a name. The new map is canonical; in it an edited key reads as its
    new value, short or streamed, a deleted key as absent, and every other key as it does in the old map, which the
    store still holds; and the editor that is left has no edits. *)
Theorem flush_writes_the_edits (s : S) e es :
  flushable s e es ->
  exists m' s' es', run (Flush e) s = (Ok (m', mkEditor m' ∅), s') /\ cs_ok s' /\ cs_rootof s' = cs_rootof s /\
    canonical (cs_get s') m' es' /\ canonical (cs_get s') (em e) es /\
    forall k, Get (cs_get s') m' k = match edits e !! k with
                                     | Some (Some p) => Ok (Some p)
                                     | Some None => Ok None
                                     | None => Get (cs_get s') (em e) k
                                     end.
Proof.
  intros Hfl. pose proof Hfl as (Hs & Hcan & _). destruct (Flush_run s e es Hfl) as (U & m' & s' & Hrun & Hs' & Hr & Hsub & Hcan' & Hcfg & Hmr & HU & _).
  exists m', s', (mergeE es U). pose proof (canonical_kept s s' (em e) es Hs Hs' Hsub Hcan) as Hold.
  split_and!; try done. by apply (merged_get _ m' e es U).
Qed.

(** C2. History independence: flushes of different maps, on different stores, whatever
    their heights and however many nodes they re-chunk, that end with the same entries under the same node
    geometry have the same root: it is the hash of the root a bulk build of the entries draws. *)
Theorem flush_history_independent (s1 s2 : S) e1 e2 es1 es2 m1 m2 s1' s2' es :
  flushable s1 e1 es1 -> flushable s2 e2 es2 -> mrule (em e1) = mrule (em e2) ->
  run (Flush e1) s1 = (Ok (m1, mkEditor m1 ∅), s1') -> run (Flush e2) s2 = (Ok (m2, mkEditor m2 ∅), s2') ->
  map_ok (cs_get s1') m1 es -> map_ok (cs_get s2') m2 es ->
  root m1 = root m2 /\ root m1 = Sum (encode (bulkRoot (mrule (em e1)) es)).
Proof.
  intros Hf1 Hf2 Hr Hrun1 Hrun2 Hk1 Hk2.
  assert (forall rd m xs ys, canonical rd m xs -> map_ok rd m ys -> xs = ys) as Hsame.
  { intros rd m xs ys Hcan (_ & n & Ht & _ & _ & <- & _). destruct (canonical_map_ok _ _ _ Hcan) as (_ & n' & Ht' & _ & _ & <- & _).
    rewrite Ht in Ht'. by injection Ht' as <-. }
  destruct (Flush_run s1 e1 es1 Hf1) as (U1 & n1 & t1 & Hr1 & _ & _ & _ & Hn1 & _ & Hg1 & _).
  destruct (Flush_run s2 e2 es2 Hf2) as (U2 & n2 & t2 & Hr2 & _ & _ & _ & Hn2 & _ & Hg2 & _).
  rewrite Hrun1 in Hr1. injection Hr1 as <- _ <-. rewrite Hrun2 in Hr2. injection Hr2 as <- _ <-.
  rewrite (Hsame _ _ _ _ Hn1 Hk1) in Hn1. rewrite (Hsame _ _ _ _ Hn2 Hk2) in Hn2.
  split; [eapply canonical_root; [exact Hn1|exact Hn2|congruence]|]. destruct Hn1 as (_ & _ & _ & -> & _). by rewrite Hg1.
Qed.

(** C21. [Changes] of a flushed map is what [Diff] reports: the base it names is the edited map's root, and the
    keys are, in order, those of the changes between the old map and the new one, whenever their
    values can be read. *)
Theorem flush_changes_are_the_diff (s : S) e es :
  flushable s e es ->
  exists m' s' keys, run (Flush e) s = (Ok (m', mkEditor m' ∅), s') /\ Changes m' = Some (root (em e), keys) /\
    forall l, changesOf (cs_get s') (em e) m' = Ok l -> map Key l = keys.
Proof.
  intros Hfl. pose proof Hfl as (Hs & Hcan & _). destruct (Flush_run s e es Hfl) as (U & m' & s' & Hrun & Hs' & Hr & Hsub & Hcan' & Hcfg & Hmr & HU & Hf & Hb & Hch).
  exists m', s', (changed m'). split; [done|]. split; [unfold Changes; by rewrite Hf, Hb|].
  pose proof (canonical_kept s s' (em e) es Hs Hs' Hsub Hcan) as Hold. rewrite Hch.
  rewrite (changesOf_ok _ (em e) m' es (mergeE es U)); [|by apply canonical_map_ok..|by rewrite Hcfg].
  assert (forall x y, (Some x, Some y) ∈ deltas es (mergeE es U) -> key x = key y) as Hboth.
  { destruct Hcan as (_ & (Hsx & _) & _). destruct Hcan' as (_ & (Hsy & _) & _). intros x y Hd.
    apply (deltas_complete _ es (mergeE es U) _ (le_n _) Hsx Hsy) in Hd as (k & [= H1 H2] & _).
    apply eq_sym, klookup_elem in H1 as [_ ->]. by apply eq_sym, klookup_elem in H2 as [_ ->]. }
  revert Hboth. generalize (deltas es (mergeE es U)). clear. intros ds Hboth l Hl. apply res_map_Ok in Hl.
  induction Hl as [|d ch ds l Hd _ IH]; [done|]. simpl. rewrite IH by (intros; apply Hboth; by right). f_equal.
  destruct d as [[x|] [y|]]; unfold ProllyDiff.change in Hd; res_inv Hd; first [discriminate Hd|injection Hd as <-]; simpl; try done.
  symmetry. apply Hboth. left.
Qed.
End Flush.

(** ** Examples *)

Section Example.
#[local] Existing Instance toy_hasher.

(** [collision_free], decided. *)
Definition collision_freeb (v : view) (log : list bytes) : bool :=
  forallb (fun b => forallb (fun c => negb (bool_decide (Sum b = Sum c)) || bool_decide (b = c)) log &&
                    match v !! Sum b with Some c => bool_decide (b = c) | None => true end) log.

Lemma collision_freeb_true v log : collision_freeb v log = true -> collision_free v log.
Proof.
  unfold collision_freeb. rewrite forallb_forall. intros Hf. split.
  - intros b c Hb Hc Hs. apply list_elem_of_In in Hb, Hc. specialize (Hf b Hb). apply andb_true_iff in Hf as [Hf _].
    rewrite forallb_forall in Hf. specialize (Hf c Hc). rewrite bool_decide_true in Hf by done. by apply bool_decide_eq_true in Hf.
  - intros b c Hb Hc. apply list_elem_of_In in Hb. specialize (Hf b Hb). rewrite Hc in Hf. apply andb_true_iff in Hf as [_ Hf].
    by apply bool_decide_eq_true in Hf.
Qed.

(** [editor_ok], decided. *)
Definition editor_okb (e : Editor) : bool :=
  forallb (fun ko => (zlen ko.1 <=? MaxKeySize) && match ko.2 with Some p => zlen p <=? maxValue (cfg (em e)) | None => true end)
    (map_to_list (edits e)).

Lemma editor_okb_true e : editor_okb e = true -> editor_ok e.
Proof.
  unfold editor_okb. rewrite forallb_forall. intros Hf k o Hk. apply elem_of_map_to_list, list_elem_of_In in Hk.
  apply Hf in Hk. simpl in Hk. apply andb_true_iff in Hk as [H1 H2]. apply Z.leb_le in H1. split; [done|].
  destruct o; [by apply Z.leb_le in H2|done].
Qed.

(** An empty map on a fresh store, and two editors that reach the same contents. *)
Definition exStore : Memstore.Store := (run (Empty DefaultConfig) Memstore.New).2.
Definition exEmpty : Map := mkMap DefaultConfig exRule (Sum (encode emptyNode)) 0 0 (Some emptyNode) false zero_hash [].
Definition exEditor : Editor := mkEditor exEmpty {[str "a" := Some (str "1"); str "b" := Some (str "2")]}.
Definition exEditor2 : Editor :=
  mkEditor exEmpty {[str "a" := Some (str "1"); str "b" := Some (str "2"); str "c" := None]}.

Lemma exRule_ok : rule DefaultConfig = Ok exRule.
Proof. vm_compute. reflexivity. Qed.

Lemma exStore_ok : cs_ok exStore.
Proof.
  assert (cs_ok Memstore.New) as H0 by exact Memstore.New_usable.
  destruct (run_view (Empty DefaultConfig) Memstore.New H0) as (s' & E & Hs & _).
  unfold exStore. rewrite E. exact Hs.
Qed.

Lemma exEmpty_canonical : canonical (cs_get exStore) exEmpty [].
Proof.
  split; [exact exRule_ok|]. split; [split; [constructor|split; [constructor|discriminate]]|].
  split; [reflexivity|]. split; [reflexivity|]. split; [reflexivity|]. split; [reflexivity|].
  intros x Hx. assert (x = emptyNode) as ->; [|vm_compute; reflexivity].
  change (x ∈ [emptyNode]) in Hx. by apply list_elem_of_singleton in Hx.
Qed.

Lemma ex_flushable e : e = exEditor \/ e = exEditor2 -> flushable exStore e [].
Proof.
  intros He. assert (em e = exEmpty) as Em by (by destruct He as [-> | ->]).
  split; [exact exStore_ok|].
  rewrite Em. split; [exact exEmpty_canonical|]. split.
  { apply editor_okb_true. destruct He as [-> | ->]; vm_compute; reflexivity. }
  split; [split; [exists exRule|]; vm_compute; reflexivity|]. split; [vm_compute; discriminate|].
  split; [destruct He as [-> | ->]; vm_compute; discriminate|].
  apply collision_freeb_true. destruct He as [-> | ->]; vm_compute; reflexivity.
Qed.

Lemma flush_writes_the_edits_witness :
  exists m' (s' : Memstore.Store), run (Flush exEditor) exStore = (Ok (m', mkEditor m' ∅), s') /\
    Get (cs_get s') m' (str "b") = Ok (Some (str "2")).
Proof.
  destruct (flush_writes_the_edits exStore exEditor [] (ex_flushable _ (or_introl eq_refl))) as (m' & s' & es' & Hrun & _ & _ & _ & _ & Hget).
  exists m', s'. split; [exact Hrun|]. rewrite Hget. vm_compute. reflexivity.
Defined.

Lemma flush_changes_are_the_diff_witness :
  exists m' (s' : Memstore.Store) keys, run (Flush exEditor) exStore = (Ok (m', mkEditor m' ∅), s') /\
    Changes m' = Some (root exEmpty, keys) /\ forall l, changesOf (cs_get s') exEmpty m' = Ok l -> map Key l = keys.
Proof. exact (flush_changes_are_the_diff exStore exEditor [] (ex_flushable _ (or_introl eq_refl))). Defined.

Lemma leaf_map_ok rd m n : rule (cfg m) = Ok (mrule m) -> top m = Some n -> readN rd (InlineLimit (cfg m)) (root m) = Ok n ->
  level n = 0%nat -> ksorted key (entries n) -> mcount m = total n -> height m = 0%nat -> map_ok rd m (entries n).
Proof.
  intros H1 H2 H3 H4 H5 H6 H7. split; [done|]. exists n. rewrite H4. unfold okN. rewrite H4, leavesN_0.
  split_and!; try done; [by apply Forall_true|by left].
Qed.

Definition exLeaf : node := mkNode 0 [leafEntry (str "a") (str "1"); leafEntry (str "b") (str "2")].

Lemma ex_flushed e : e = exEditor \/ e = exEditor2 ->
  exists m s', run (Flush e) exStore = (Ok (m, mkEditor m ∅), s') /\ map_ok (cs_get s') m (entries exLeaf).
Proof.
  intros He.
  assert (exists m s', run (Flush e) exStore = (Ok (m, mkEditor m ∅), s') /\
    rule (cfg m) = Ok (mrule m) /\ top m = Some exLeaf /\ readN (cs_get s') (InlineLimit (cfg m)) (root m) = Ok exLeaf /\
    mcount m = total exLeaf /\ height m = 0%nat) as (m & s' & Hrun & H1 & H2 & H3 & H4 & H5).
  { destruct He as [-> | ->];
    match goal with |- context [run ?p ?s] =>
      let t := eval vm_compute in (run p s) in
      match t with (Ok (?m, _), ?s') => exists m, s' end end;
    (split; [vm_compute; reflexivity|]); repeat split; vm_compute; reflexivity. }
  exists m, s'. split; [exact Hrun|]. apply leaf_map_ok; try assumption; [reflexivity|]. repeat constructor.
Qed.

Lemma flush_history_independent_witness :
  exists m1 m2 (s1 s2 : Memstore.Store), run (Flush exEditor) exStore = (Ok (m1, mkEditor m1 ∅), s1) /\
    run (Flush exEditor2) exStore = (Ok (m2, mkEditor m2 ∅), s2) /\ root m1 = root m2.
Proof.
  destruct (ex_flushed exEditor (or_introl eq_refl)) as (m1 & s1 & Hr1 & Hm1).
  destruct (ex_flushed exEditor2 (or_intror eq_refl)) as (m2 & s2 & Hr2 & Hm2).
  exists m1, m2, s1, s2. split; [exact Hr1|]. split; [exact Hr2|].
  apply (flush_history_independent exStore exStore exEditor exEditor2 [] [] m1 m2 s1 s2 (entries exLeaf)
    (ex_flushable _ (or_introl eq_refl)) (ex_flushable _ (or_intror eq_refl)) eq_refl Hr1 Hr2 Hm1 Hm2).
Defined.
End Example.
