(* ===== verification/ProllyWalk.v ===== *)
(** * core/prolly: walking a map

    [Walk] names every chunk a map is made of, its nodes and the streams of
    its long values, to a visitor that says which nodes to go into, and hands
    every value to a caller that walks what values name. A collector keeps
    the chunks named and drops the others: the theorem is that the map then
    reads as it did. *)

From S2P Require Import Prelude Hash ChunkStore Prog Stream ProllyNode Prolly.

Section Walking.
Context {St : Type}.

(** [walker]: [wvalue] is the caller's function for values, [None] for nil. *)
Record walker := mkWalker {
  wrd : creader; wlimit : Z; wmaxValue : Z;
  wvisit : hash -> bool -> M St bool; wvalue : option (bytes -> bytes -> M St unit) }.

Definition wread (w : walker) (h : hash) : res node :=
  match wrd w h with
  | Err e => Err e
  | Ok b => decodeNode b (wlimit w)
  end.

Definition leafValue (w : walker) (e : entry) : M St unit :=
  match val e with VStream ref => Stream.Walk (wrd w) (wvisit w) ref | VInline _ => mret tt end ≫= fun _ =>
  match wvalue w with
  | None => mret tt
  | Some value =>
      v ← liftR (match val e with
                 | VInline b => Ok b
                 | VStream ref => readValue (wrd w) ref (wmaxValue w)
                 end);
      value (key e) v
  end.

(** The entries of a node with their indices. *)
Definition indexed (n : node) : list (nat * entry) := zip (seq 0 (length (entries n))) (entries n).

(** [walker.node]. A child is checked to be one level down before it is gone
    into, so the node's level is enough fuel. *)
Fixpoint walkNode (fuel : nat) (w : walker) (n : node) : M St unit :=
  Stream.walkEach (fun ie =>
    match level n with
    | O => leafValue w ie.2
    | S _ =>
        deeper ← wvisit w (ProllyNode.child ie.2) false;
        if negb deeper then mret tt
        else
          c ← liftR (wread w (ProllyNode.child ie.2));
          _ ← liftR (checkChild n ie.1 c);
          match fuel with
          | O => fail (EMsg "no fuel")
          | S fuel => walkNode fuel w c
          end
    end) (indexed n).

Definition Walk (rd : creader) (c : Config) (rt : hash) (visit : hash -> bool -> M St bool)
    (value : option (bytes -> bytes -> M St unit)) : M St unit :=
  match rule c with
  | Err e => fail e
  | Ok _ =>
      let w := mkWalker rd (InlineLimit c) (maxValue c) visit value in
      deeper ← visit rt false;
      if negb deeper then mret tt
      else
        n ← liftR (wread w rt);
        if (0 <? level n)%nat && (zlen (entries n) <? 2) then fail ChunkCorrupt
        else walkNode (level n) w n
  end.
End Walking.
Arguments walker : clear implicits.

(** ** What is named is enough *)

(** Every long value of [es] reads. *)
Definition streams_ok (rd : creader) (es : list entry) : Prop :=
  forall e ref, e ∈ es -> val e = VStream ref ->
    0 <= Stream.Depth ref <= Stream.maxDepth /\ 0 <= Stream.Size ref <= Stream.maxInt64 /\
    exists data, Stream.contents rd ref = Ok data.

(** [rd'] holds what [rd] holds under every name of [named]. *)
Definition agrees (rd rd' : creader) (named : list hash) : Prop := forall h, h ∈ named -> rd' h = rd h.

Section Covers.
Context (rd : creader) (m : Map) (es : list entry) (Hm : map_ok rd m es).
Local Abbreviation limit := (InlineLimit (cfg m)).
Local Abbreviation w := (mkWalker rd limit (maxValue (cfg m)) Stream.collect None).

Lemma checkChild_passes d p i e c :
  okN rd limit (S d) p -> entries p !! i = Some e -> readN rd limit (ProllyNode.child e) = Ok c ->
  checkChild p i c = Ok tt.
Proof.
  intros Hp He Hc. destruct Hm as (Hr & n & Ht & Hro & _).
  destruct (child_ok rd m n Ht Hro d p i e Hp He) as (c' & Hi & Hc' & _). assert (c' = c) as -> by congruence. clear Hc'.
  unfold child in Hi. rewrite He, interp_bind in Hi by auto with reads.
  destruct (interp rd (read m _)) as [x|]; [|done]. destruct (checkChild p i x) as [[]|] eqn:E; [|done].
  injection Hi as ->. done.
Qed.

(** What a walk of part of a tree guarantees to a store that kept what it named. *)
Definition kept (d : nat) (ents : list entry) (named : list hash) : Prop :=
  forall rd', agrees rd rd' named ->
    Forall (okE rd' limit d) ents /\ leavesN rd' limit d ents = leavesN rd limit d ents /\
    forall e ref, e ∈ leavesN rd limit d ents -> val e = VStream ref ->
      Stream.contents rd' ref = Stream.contents rd ref.

Lemma kept_cons d e ents named named' :
  (forall h, h ∈ named -> h ∈ named') -> kept d [e] named -> kept d ents named' -> kept d (e :: ents) named'.
Proof.
  intros Hsub H1 H2 rd' Ha. destruct (H1 rd') as (A1 & A2 & A3); [intros h Hh; by apply Ha, Hsub|].
  destruct (H2 rd' Ha) as (B1 & B2 & B3). rewrite !(leavesN_cons _ _ d e ents).
  assert (forall r, leavesN r limit d [e] = leaves r limit d e) as Hone by (intros r; apply app_nil_r).
  rewrite !Hone in A2. rewrite Hone in A3. split_and!; [by inversion A1; constructor|by rewrite A2, B2|]. intros x ref [Hx|Hx]%elem_of_app; eauto.
Qed.

Lemma leafValue_ok e seen : streams_ok rd [e] ->
  exists named, leafValue w e seen = (Ok tt, named) /\ (forall h, h ∈ seen -> h ∈ named) /\ kept 0 [e] named.
Proof.
  intros Hst. unfold leafValue, kept. simpl. destruct (val e) as [b|ref] eqn:Ev.
  - exists seen. split_and!; [done|done|]. intros rd' _. split_and!; [by repeat constructor|done|].
    intros x ref [->|[]%elem_of_nil]%elem_of_cons. congruence.
  - destruct (Hst e ref ltac:(left) Ev) as (Hd & Hs & data & Hc).
    destruct (Stream.walk_complete rd (Z.to_nat (Stream.Depth ref)) (Stream.Root ref) (Stream.Size ref) true seen data Hc)
      as (named & Hw).
    exists named. unfold mbind, M_bind, Stream.Walk. rewrite !(proj2 (Z.ltb_ge _ _)) by lia. simpl. rewrite Hw.
    destruct (Stream.walk_covers _ _ _ _ _ _ _ Hw) as [Hsub Hcov]. split_and!; [done|done|].
    intros rd' Ha. split_and!; [by repeat constructor|done|].
    intros x ref' [->|[]%elem_of_nil]%elem_of_cons Hx. assert (ref' = ref) as -> by congruence. by apply Hcov.
Qed.

(** A loop over a node's entries keeps them all when each round keeps its own. *)
Lemma walkEach_kept d n (f : nat * entry -> M (list hash) unit) :
  (forall i e seen, entries n !! i = Some e -> exists named,
     f (i, e) seen = (Ok tt, named) /\ (forall h, h ∈ seen -> h ∈ named) /\ kept d [e] named) ->
  forall seen, exists named, Stream.walkEach f (indexed n) seen = (Ok tt, named) /\
    (forall h, h ∈ seen -> h ∈ named) /\ kept d (entries n) named.
Proof.
  unfold indexed. intros Hf.
  assert (forall l pre seen, entries n = pre ++ l -> exists named,
    Stream.walkEach f (zip (seq (length pre) (length l)) l) seen = (Ok tt, named) /\
    (forall h, h ∈ seen -> h ∈ named) /\ kept d l named) as Hl.
  { induction l as [|e l IH]; intros pre seen E; simpl.
    - exists seen. split_and!; [done|done|]. intros rd' _. split_and!; [constructor|done|]. by intros ? ? ?%elem_of_nil.
    - destruct (Hf (length pre) e seen) as (named & -> & Hsub & Hk); [rewrite E; by apply list_lookup_middle|].
      destruct (IH (pre ++ [e]) named) as (named' & Hw & Hsub' & Hk'); [by rewrite <-app_assoc|].
      rewrite length_app, Nat.add_1_r in Hw. exists named'. split_and!; [done|auto|by apply kept_cons with named]. }
  intros seen. by apply (Hl (entries n) [] seen).
Qed.

(** Going into a child keeps the entry that names it. *)
Lemma kept_child d e c named : okE rd limit (S d) e -> readN rd limit (ProllyNode.child e) = Ok c ->
  ProllyNode.child e ∈ named -> kept d (entries c) named -> kept (S d) [e] named.
Proof.
  intros He Hc Hin Hk rd' Ha. destruct (Hk rd' Ha) as (H1 & H2 & H3).
  assert (readN rd' limit (ProllyNode.child e) = Ok c) as Hc' by (unfold readN in *; by rewrite (Ha _ Hin)).
  destruct He as (c' & Hx & Hl & Hne & Hlk & Htot & Hf & Hs). assert (c' = c) as -> by congruence.
  assert (forall r, readN r limit (ProllyNode.child e) = Ok c -> leavesN r limit (S d) [e] = leavesN r limit d (entries c)) as Hone.
  { intros r Hr. rewrite leavesN_cons, leaves_S. unfold kids. rewrite Hr. apply app_nil_r. }
  rewrite !Hone by done. split_and!; [|done|done]. constructor; [|constructor].
  exists c. split_and!; try done. by rewrite H2.
Qed.

Lemma walkNode_ok d : forall n seen, okN rd limit d n -> streams_ok rd (leavesN rd limit d (entries n)) ->
  exists named, walkNode d w n seen = (Ok tt, named) /\ (forall h, h ∈ seen -> h ∈ named) /\ kept d (entries n) named.
Proof.
  induction d as [|d IH]; intros n seen Hn Hst; pose proof Hn as (Hl & Hf & Hs).
  - apply (walkEach_kept 0). intros i e seen1 Hi. cbn [fst snd]. rewrite Hl. apply leafValue_ok.
    intros x ref [->|[]%elem_of_nil]%elem_of_cons. apply Hst. unfold leavesN, leaves.
    apply list_elem_of_In, in_concat. exists [e]. split; [|by left]. apply in_map_iff. exists e. split; [done|].
    by apply list_elem_of_In, list_elem_of_lookup_2 with i.
  - apply (walkEach_kept (S d)). intros i e seen1 Hi. cbn [fst snd]. rewrite Hl. pose proof (list_elem_of_lookup_2 _ _ _ Hi) as Hin.
    pose proof (proj1 (Forall_forall _ _) Hf e Hin) as HeOk.
    destruct (okE_S rd limit d e HeOk) as (c & Hr & Hc & Hkids & Hne & Hk & Ht).
    destruct (IH c (seen1 ++ [ProllyNode.child e]) Hc) as (named & Hw & Hsub & Hkept).
    { intros x ref Hx. apply Hst. unfold leavesN. apply list_elem_of_In, in_concat. exists (leaves rd limit (S d) e).
      split; [apply in_map; by apply list_elem_of_In|]. rewrite leaves_S, Hkids. by apply list_elem_of_In. }
    exists named. split_and!; [|set_solver|eapply kept_child; try done; set_solver].
    unfold mbind, M_bind, Stream.collect, liftR, wread. simpl. fold (readN rd limit (ProllyNode.child e)).
    rewrite Hr. rewrite (checkChild_passes d n i e c) by done. done.
Qed.
End Covers.

(** ** A walk that succeeds covers what it walked

    For any visitor that goes everywhere and notes what it sees, and any
    function for values: [Q] is what a call of it that succeeds makes true. *)
Section Sound.
Context {St : Type} (visit : hash -> bool -> M St bool) (names : St -> list hash) (R : St -> St -> Prop) (Hv : Stream.noting visit names R).
Context (value : bytes -> bytes -> M St unit) (Q : bytes -> bytes -> St -> Prop).
Context (Hvalue : forall k v st st', value k v st = (Ok tt, st') -> R st st' /\ Q k v st').
Context (Hstable : forall k v st st', R st st' -> Q k v st -> Q k v st').
Context (rd : creader) (m : Map) (es : list entry) (Hm : map_ok rd m es).
Local Abbreviation limit := (InlineLimit (cfg m)).
Local Abbreviation w := (mkWalker rd limit (maxValue (cfg m)) visit (Some value)).

Definition handled (e : entry) (st : St) : Prop := exists v, materialize rd m (val e) = Ok v /\ Q (key e) v st.

Lemma handled_stable e st st' : R st st' -> handled e st -> handled e st'.
Proof. intros HR (v & Hx & Hq). exists v. eauto. Qed.

Lemma kept_more d ents a b : (forall h, h ∈ a -> h ∈ b) -> kept rd m d ents a -> kept rd m d ents b.
Proof. intros Hab Hk rd' Ha. apply Hk. intros h Hh. by apply Ha, Hab. Qed.

Lemma leafValue_sound e st st' : leafValue w e st = (Ok tt, st') -> R st st' /\ kept rd m 0 [e] (names st') /\ handled e st'.
Proof.
  unfold leafValue, mbind, M_bind, liftR. cbn [wrd wvisit wvalue wmaxValue]. intros Hw.
  assert (exists st1, R st st1 /\ kept rd m 0 [e] (names st1) /\
    match materialize rd m (val e) with Ok v => value (key e) v st1 = (Ok tt, st') | Err _ => False end) as (st1 & HR & Hk & Hf).
  { unfold materialize. destruct (val e) as [b|ref] eqn:Ev.
    - exists st. split; [apply Hv|]. split; [|exact Hw]. intros rd' _. split_and!; [by repeat constructor|done|].
      intros x ref [->|[]%elem_of_nil]%elem_of_cons. congruence.
    - unfold Stream.Walk in Hw. destruct (_ || _); [done|].
      destruct (Stream.walk rd visit _ _ _ _ st) as [[[]|] st1] eqn:Es; [|done]. exists st1.
      destruct (Stream.walk_notes _ _ _ _ _ Hv _ _ _ _ _ Es) as [HR Hc]. split; [done|]. split.
      + intros rd' Ha. split_and!; [by repeat constructor|done|].
        intros x ref' [->|[]%elem_of_nil]%elem_of_cons Hx. assert (ref' = ref) as -> by congruence. apply Hc. exact Ha.
      + destruct (readValue rd ref (maxValue (cfg m))); [exact Hw|done]. }
  destruct (materialize rd m (val e)) as [v|] eqn:Em; [|done]. destruct (Hvalue _ _ _ _ Hf) as [HR' Hq]. split_and!.
  - by eapply Stream.note_trans.
  - eapply kept_more; [|exact Hk]. intros h. by eapply Stream.note_stays.
  - by exists v.
Qed.

(** A loop over a node's entries covers them all when each round covers its own. *)
Lemma walkEach_sound d n (f : nat * entry -> M St unit) :
  (forall i e st st', entries n !! i = Some e -> f (i, e) st = (Ok tt, st') ->
     R st st' /\ kept rd m d [e] (names st') /\ forall x, x ∈ leaves rd limit d e -> handled x st') ->
  forall st st', Stream.walkEach f (indexed n) st = (Ok tt, st') ->
    R st st' /\ kept rd m d (entries n) (names st') /\ forall x, x ∈ leavesN rd limit d (entries n) -> handled x st'.
Proof.
  unfold indexed. intros Hf.
  assert (forall l pre st st', entries n = pre ++ l ->
    Stream.walkEach f (zip (seq (length pre) (length l)) l) st = (Ok tt, st') ->
    R st st' /\ kept rd m d l (names st') /\ forall x, x ∈ leavesN rd limit d l -> handled x st') as Hl.
  { induction l as [|e l IH]; intros pre st st' E; simpl.
    - intros [= <-]. split_and!; [apply Hv| |by intros x Hx%elem_of_nil]. intros rd' _. split_and!; [constructor|done|]. by intros ? ? ?%elem_of_nil.
    - destruct (f (length pre, e) st) as [[[]|] st1] eqn:Ef; [|done]. intros Hw.
      destruct (Hf (length pre) e st st1) as (HR & Hk & Hh); [rewrite E; by apply list_lookup_middle|done|].
      destruct (IH (pre ++ [e]) st1 st') as (HR' & Hk' & Hh'); [by rewrite <-app_assoc|by rewrite length_app, Nat.add_1_r|].
      split_and!; [by eapply Stream.note_trans| |].
      + apply kept_cons with (names st1); [|done|done]. intros h. by eapply Stream.note_stays.
      + intros x. rewrite leavesN_cons. intros [Hx|Hx]%elem_of_app; [|by apply Hh']. eapply handled_stable; [done|by apply Hh]. }
  intros st st'. by apply (Hl (entries n) []).
Qed.

Lemma walkNode_sound d : forall n st st', okN rd limit d n -> walkNode d w n st = (Ok tt, st') ->
  R st st' /\ kept rd m d (entries n) (names st') /\ forall x, x ∈ leavesN rd limit d (entries n) -> handled x st'.
Proof.
  induction d as [|d IH]; intros n st st' Hn Hw; pose proof Hn as (Hl & Hf & Hs).
  - eapply (walkEach_sound 0); [|exact Hw]. intros i e st1 st2 Hi Hx. cbn [fst snd] in Hx. rewrite Hl in Hx.
    apply leafValue_sound in Hx as (H1 & H2 & H3). split_and!; [done|done|]. intros x ->%list_elem_of_singleton. done.
  - eapply (walkEach_sound (S d)); [|exact Hw]. intros i e st1 st2 Hi Hx. cbn [fst snd] in Hx. rewrite Hl in Hx.
    pose proof (proj1 (Forall_forall _ _) Hf e (list_elem_of_lookup_2 _ _ _ Hi)) as HeOk.
    destruct (okE_S rd limit d e HeOk) as (c & Hr & Hc & Hkids & Hne & Hk & Ht).
    unfold mbind, M_bind, liftR, wread in Hx. cbn [wrd wvisit wlimit] in Hx.
    destruct (Stream.note_visit _ _ _ Hv (ProllyNode.child e) false st1) as (st3 & Ev & HR3 & Hin). rewrite Ev in Hx. cbn [negb] in Hx.
    fold (readN rd limit (ProllyNode.child e)) in Hx. rewrite Hr in Hx. destruct (checkChild n i c) as [[]|]; [|done].
    destruct (IH c st3 st2 Hc Hx) as (HR & Hkept & Hh). split_and!; [by eapply Stream.note_trans| |].
    + eapply kept_child; [done|done| |done]. by eapply Stream.note_stays.
    + intros x. rewrite leaves_S, Hkids. apply Hh.
Qed.

(** Whatever was walked, the state only moves along [R]. *)
Lemma walkEach_moves {A} (f : A -> M St unit) l : (forall a st st', f a st = (Ok tt, st') -> R st st') ->
  forall st st', Stream.walkEach f l st = (Ok tt, st') -> R st st'.
Proof.
  intros Hf. induction l as [|a l IH]; intros st st'; simpl; [intros [= <-]; apply Hv|].
  destruct (f a st) as [[[]|] st1] eqn:E; [|done]. intros Hw. eapply Stream.note_trans; [done|by eapply Hf|by apply IH].
Qed.

Lemma walkNode_moves fuel : forall n st st', walkNode fuel w n st = (Ok tt, st') -> R st st'.
Proof.
  induction fuel as [|fuel IH]; intros n st st'; cbn [walkNode]; apply walkEach_moves; intros [i e] st1 st2; cbn [fst snd];
    (destruct (level n); [intros Hx; by apply leafValue_sound in Hx as (? & _)|]);
    unfold mbind, M_bind, liftR, wread; cbn [wrd wvisit wlimit];
    destruct (Stream.note_visit _ _ _ Hv (ProllyNode.child e) false st1) as (st3 & -> & HR3 & _); cbn [negb];
    (destruct (rd (ProllyNode.child e)) as [b|]; [|done]); (destruct (decodeNode b limit) as [c|]; [|done]);
    (destruct (checkChild n i c) as [[]|]; [|done]); [done|]. intros Hx. eapply Stream.note_trans; [done|done|by apply IH in Hx].
Qed.

Lemma Walk_sound st st' : Walk rd (cfg m) (root m) visit (Some value) st = (Ok tt, st') ->
  R st st' /\ (forall e, e ∈ es -> handled e st') /\ forall rd', agrees rd rd' (names st') ->
    map_ok rd' m es /\ forall e ref, e ∈ es -> val e = VStream ref -> Stream.contents rd' ref = Stream.contents rd ref.
Proof.
  pose proof Hm as (Hru & n & Ht & Hro & Hok & Hes & Hcnt & Hh & Htwo). unfold Walk. rewrite Hru.
  unfold mbind, M_bind, liftR, wread. cbn [wrd wlimit]. intros Hw.
  destruct (Stream.note_visit _ _ _ Hv (root m) false st) as (st1 & Ev & HR1 & Hin). rewrite Ev in Hw. cbn [negb] in Hw.
  fold (readN rd limit (root m)) in Hw. rewrite Hro in Hw. destruct (_ && _); [done|].
  destruct (walkNode_sound (level n) n st1 st' Hok Hw) as (HR & Hk & Hhan). rewrite Hes in Hhan.
  split_and!; [by eapply Stream.note_trans|done|]. intros rd' Ha. destruct (Hk rd' Ha) as (H1 & H2 & H3). rewrite Hes in H3.
  split; [|done]. split; [done|]. exists n. rewrite H2. split_and!; try done.
  - unfold readN in *. rewrite (Ha (root m)) by (by eapply Stream.note_stays). done.
  - destruct Hok as (Hl & _ & Hs). split_and!; [done|done|by rewrite H2].
Qed.
End Sound.

Lemma Walk_moves {St} (visit : hash -> bool -> M St bool) names R value rd c rt st st' : Stream.noting visit names R ->
  (forall k v st st', value k v st = (Ok tt, st') -> R st st') ->
  Walk rd c rt visit (Some value) st = (Ok tt, st') -> R st st'.
Proof.
  intros Hv Hvalue. unfold Walk. destruct (rule c) as [rl|]; [|done]. unfold mbind, M_bind, liftR, wread. cbn [wrd wlimit].
  destruct (Stream.note_visit _ _ _ Hv rt false st) as (st1 & -> & HR & _). cbn [negb]. destruct (rd rt) as [b|]; [|done].
  destruct (decodeNode b (InlineLimit c)) as [n|]; [|done]. destruct (_ && _); [done|]. intros Hw. eapply Stream.note_trans; [done|done|].
  refine (walkNode_moves visit names R Hv value (fun _ _ _ => True) _ rd (mkMap c rl rt 0 0 None false zero_hash []) _ n st1 st' Hw).
  intros k v s s' Hx. split; [by eapply Hvalue|done].
Qed.

Lemma materialize_kept rd rd' m es e : streams_ok rd es -> e ∈ es ->
  (forall ref, val e = VStream ref -> Stream.contents rd' ref = Stream.contents rd ref) ->
  materialize rd' m (val e) = materialize rd m (val e).
Proof.
  intros Hst He Hc. unfold materialize. destruct (val e) as [b|ref] eqn:Ev; [done|]. unfold readValue.
  destruct (Hst e ref He Ev) as (Hd & Hs & data & Hdata). specialize (Hc ref eq_refl).
  rewrite (Stream.read_all_ok rd _ ref data) by done. by rewrite (Stream.read_all_ok rd' _ ref data) by (rewrite ?Hc; done).
Qed.

Lemma Walk_ok rd m es seen : map_ok rd m es -> streams_ok rd es ->
  exists named, Walk rd (cfg m) (root m) Stream.collect None seen = (Ok tt, named) /\
    (forall h, h ∈ seen -> h ∈ named) /\
    forall rd', agrees rd rd' named ->
      map_ok rd' m es /\ (forall e, e ∈ es -> materialize rd' m (val e) = materialize rd m (val e)).
Proof.
  intros Hm Hst. pose proof Hm as (Hru & n & Ht & Hro & Hok & Hes & Hcnt & Hh & Htwo).
  destruct (walkNode_ok rd m es Hm (level n) n (seen ++ [root m]) Hok) as (named & Hw & Hsub & Hk); [by rewrite Hes|].
  exists named. split_and!; [|set_solver|].
  - unfold Walk. rewrite Hru. unfold mbind, M_bind, Stream.collect, liftR, wread. simpl.
    fold (readN rd (InlineLimit (cfg m)) (root m)). rewrite Hro.
    destruct Htwo as [H0|H2]; [by rewrite H0 in *|]. by rewrite (proj2 (Z.ltb_ge _ _)), andb_false_r by lia.
  - intros rd' Ha. destruct (Hk rd' Ha) as (H1 & H2 & H3). split.
    + split; [done|]. exists n. rewrite H2. split_and!; try done.
      * unfold readN in *. rewrite (Ha (root m)) by set_solver. done.
      * destruct Hok as (Hl & _ & Hs). split_and!; [done|done|by rewrite H2].
    + intros e He. apply (materialize_kept rd rd' m es); [done|done|]. intros ref. apply H3. by rewrite Hes.
Qed.

(** A walk of a map names enough to keep it: on a map that reads, whose long
    values read, [Walk] with a visitor that goes everywhere succeeds, and any
    store that holds the chunks it named as they were, whatever else it lost
    or holds, opens to the same map: every key reads as before and every
    range iterates as before. *)
Theorem walk_names_the_map rd m es seen :
  map_ok rd m es -> streams_ok rd es ->
  exists named, Walk rd (cfg m) (root m) Stream.collect None seen = (Ok tt, named) /\
    forall rd', agrees rd rd' named ->
      (forall k, Get rd' m k = Get rd m k) /\ (forall lo hi, range rd' m lo hi = range rd m lo hi).
Proof.
  intros Hm Hst. destruct (Walk_ok rd m es seen Hm Hst) as (named & Hw & _ & Hk). exists named. split; [done|].
  intros rd' Ha. destruct (Hk rd' Ha) as [Hm' Hmat]. split.
  - intros k. rewrite (Get_ok rd' m es k Hm'), (Get_ok rd m es k Hm).
    destruct (klookup key k es) as [e|] eqn:E; [|done]. apply klookup_elem in E as [E _]. by rewrite Hmat.
  - intros lo hi. rewrite (range_ok rd' m es lo hi Hm'), (range_ok rd m es lo hi Hm). apply res_map_ext.
    intros e [He%list_elem_of_In _]%list_elem_of_In%filter_In. unfold item. by rewrite Hmat.
Qed.

Lemma inline_streams rd es : Forall (fun e => match val e with VInline _ => True | VStream _ => False end) es -> streams_ok rd es.
Proof. intros H e ref He Ev. rewrite Forall_forall in H. specialize (H e He). by rewrite Ev in H. Qed.

Section Example.
#[local] Existing Instance toy_hasher.

Lemma walk_names_the_map_witness :
  exists named, Walk exReader (cfg exMap) (root exMap) Stream.collect None [] = (Ok tt, named) /\
    forall rd', agrees exReader rd' named -> Get rd' exMap (str "m") = Ok (Some (str "3")).
Proof.
  destruct (walk_names_the_map exReader exMap _ [] exMap_ok) as (named & Hw & Hk).
  - apply inline_streams. repeat constructor.
  - exists named. split; [exact Hw|]. intros rd' Ha. destruct (Hk rd' Ha) as [Hg _].
    rewrite Hg. vm_compute. reflexivity.
Defined.
End Example.
