(* ===== verification/Auth.v ===== *)
(** * core/auth: who is calling, and whether they may

    Every public call takes a [Principal] and asks an [Authorizer] through
    [Check], which denies unless told otherwise. A principal's id must be
    valid UTF-8, so the standard library's [utf8.ValidString] and the [range]
    loop over a string are modelled here. *)

From S2P Require Import Prelude.

(** ** unicode/utf8 *)

Definition between (lo hi : Z) (b : byte) : bool := (lo <=? bZ b) && (bZ b <=? hi).

(** One rune and the bytes after it; [None] where the bytes are not the
    shortest encoding of a Unicode scalar value. *)
Definition decodeRune (s : bytes) : option (Z * bytes) :=
  match s with
  | [] => None
  | b0 :: s1 =>
      let x := bZ b0 in
      if x <? 0x80 then Some (x, s1)
      else if (0xC2 <=? x) && (x <=? 0xDF) then
        match s1 with
        | b1 :: s2 =>
            if between 0x80 0xBF b1 then Some ((x - 0xC0) * 64 + (bZ b1 - 0x80), s2) else None
        | _ => None
        end
      else if (0xE0 <=? x) && (x <=? 0xEF) then
        match s1 with
        | b1 :: b2 :: s3 =>
            let lo := if x =? 0xE0 then 0xA0 else 0x80 in
            let hi := if x =? 0xED then 0x9F else 0xBF in
            if between lo hi b1 && between 0x80 0xBF b2
            then Some ((x - 0xE0) * 4096 + (bZ b1 - 0x80) * 64 + (bZ b2 - 0x80), s3) else None
        | _ => None
        end
      else if (0xF0 <=? x) && (x <=? 0xF4) then
        match s1 with
        | b1 :: b2 :: b3 :: s4 =>
            let lo := if x =? 0xF0 then 0x90 else 0x80 in
            let hi := if x =? 0xF4 then 0x8F else 0xBF in
            if between lo hi b1 && between 0x80 0xBF b2 && between 0x80 0xBF b3
            then Some ((x - 0xF0) * 262144 + (bZ b1 - 0x80) * 4096 + (bZ b2 - 0x80) * 64 + (bZ b3 - 0x80), s4)
            else None
        | _ => None
        end
      else None
  end.

(** [utf8.ValidString]; the fuel is the string's length. *)
Fixpoint validLoop (fuel : nat) (s : bytes) : bool :=
  match s, fuel with
  | [], _ => true
  | _, O => false
  | _, S fuel => match decodeRune s with Some (_, s) => validLoop fuel s | None => false end
  end.

Definition ValidString (s : bytes) : bool := validLoop (length s) s.

(** The runes of [for _, r := range s]: U+FFFD for a byte that starts none. *)
Fixpoint runesLoop (fuel : nat) (s : bytes) : list Z :=
  match s, fuel with
  | [], _ | _, O => []
  | _ :: t, S fuel =>
      match decodeRune s with
      | Some (r, s) => r :: runesLoop fuel s
      | None => 0xFFFD :: runesLoop fuel t
      end
  end.

Definition runes (s : bytes) : list Z := runesLoop (length s) s.

(** *** The encoding of a scalar value *)

Definition scalar (r : Z) : Prop := 0 <= r < 0xD800 \/ 0xE000 <= r < 0x110000.

Definition encodeRune (r : Z) : bytes :=
  if r <? 0x80 then [Zb r]
  else if r <? 0x800 then [Zb (0xC0 + r / 64); Zb (0x80 + r mod 64)]
  else if r <? 0x10000 then [Zb (0xE0 + r / 4096); Zb (0x80 + r / 64 mod 64); Zb (0x80 + r mod 64)]
  else [Zb (0xF0 + r / 262144); Zb (0x80 + r / 4096 mod 64); Zb (0x80 + r / 64 mod 64); Zb (0x80 + r mod 64)].

Lemma between_true lo hi b : between lo hi b = true <-> lo <= bZ b <= hi.
Proof. unfold between. rewrite andb_true_iff, !Z.leb_le. done. Qed.

Lemma Zb_eq b v : bZ b = v -> b = Zb v.
Proof. intros <-. by rewrite Zb_bZ. Qed.

(** The base-64 digits of a rune. *)
Lemma digits2 r : 0 <= r -> exists a b, r / 64 = a /\ r mod 64 = b /\ r = a * 64 + b /\ 0 <= a /\ 0 <= b < 64.
Proof. intros Hr. exists (r / 64), (r mod 64). split_and!; Z.to_euclidean_division_equations; lia. Qed.

Lemma digits3 r : 0 <= r -> exists a b c, r / 4096 = a /\ r / 64 mod 64 = b /\ r mod 64 = c /\
  r = a * 4096 + b * 64 + c /\ 0 <= a /\ 0 <= b < 64 /\ 0 <= c < 64.
Proof.
  intros Hr. exists (r / 4096), (r / 64 mod 64), (r mod 64).
  split_and!; try done; Z.to_euclidean_division_equations; lia.
Qed.

Lemma digits4 r : 0 <= r -> exists a b c d, r / 262144 = a /\ r / 4096 mod 64 = b /\ r / 64 mod 64 = c /\
  r mod 64 = d /\ r = a * 262144 + b * 4096 + c * 64 + d /\ 0 <= a /\ 0 <= b < 64 /\ 0 <= c < 64 /\ 0 <= d < 64.
Proof.
  intros Hr. exists (r / 262144), (r / 4096 mod 64), (r / 64 mod 64), (r mod 64).
  split_and!; try done; Z.to_euclidean_division_equations; lia.
Qed.

Ltac zcases :=
  repeat match goal with
  | |- context [?a =? ?b] => destruct (Z.eqb_spec a b); try lia
  | |- context [?a <=? ?b] => destruct (Z.leb_spec a b); try lia
  | |- context [?a <? ?b] => destruct (Z.ltb_spec a b); try lia
  end.

Lemma decodeRune_encode r s : scalar r -> decodeRune (encodeRune r ++ s) = Some (r, s).
Proof.
  intros Hr. unfold scalar in Hr. unfold encodeRune.
  destruct (Z.ltb_spec r 0x80); [|destruct (Z.ltb_spec r 0x800); [|destruct (Z.ltb_spec r 0x10000)]].
  - simpl. rewrite bZ_Zb_small by lia. by rewrite (proj2 (Z.ltb_lt _ _)) by lia.
  - destruct (digits2 r) as (a & b & -> & -> & E & ? & ?); [lia|]. simpl. unfold between.
    rewrite !bZ_Zb_small by lia. zcases; simpl; do 2 f_equal; lia.
  - destruct (digits3 r) as (a & b & c & -> & -> & -> & E & ? & ? & ?); [lia|]. simpl. unfold between.
    rewrite !bZ_Zb_small by lia. zcases; simpl; do 2 f_equal; lia.
  - destruct (digits4 r) as (a & b & c & d & -> & -> & -> & -> & E & ? & ? & ? & ?); [lia|]. simpl. unfold between.
    rewrite !bZ_Zb_small by lia. zcases; simpl; do 2 f_equal; lia.
Qed.

Lemma decode_inv s r t : decodeRune s = Some (r, t) -> scalar r /\ s = encodeRune r ++ t.
Proof.
  unfold decodeRune, scalar, encodeRune. destruct s as [|b0 s]; [done|]. pose proof (bZ_range b0).
  destruct (Z.ltb_spec (bZ b0) 0x80).
  { intros [= <- <-]. split; [lia|]. rewrite (proj2 (Z.ltb_lt _ _)) by lia. simpl. by rewrite Zb_bZ. }
  destruct ((0xC2 <=? bZ b0) && (bZ b0 <=? 0xDF)) eqn:G2.
  { apply andb_true_iff in G2 as [?%Z.leb_le ?%Z.leb_le]. destruct s as [|b1 s]; [done|].
    destruct (between _ _ b1) eqn:B1; [|done]. apply between_true in B1. intros [= <- <-]. split; [lia|]. zcases.
    simpl. repeat f_equal; apply Zb_eq; Z.to_euclidean_division_equations; lia. }
  destruct ((0xE0 <=? bZ b0) && (bZ b0 <=? 0xEF)) eqn:G3.
  { apply andb_true_iff in G3 as [?%Z.leb_le ?%Z.leb_le]. destruct s as [|b1 [|b2 s]]; try done.
    cbv zeta. destruct (between _ _ b1 && _) eqn:B; [|done]. apply andb_true_iff in B as [B1%between_true B2%between_true].
    intros [= <- <-]. split; [zcases; destruct (Z.eqb_spec (bZ b0) 0xE0), (Z.eqb_spec (bZ b0) 0xED); lia|].
    destruct (Z.eqb_spec (bZ b0) 0xE0), (Z.eqb_spec (bZ b0) 0xED); try lia; zcases;
    simpl; repeat f_equal; apply Zb_eq; Z.to_euclidean_division_equations; lia. }
  destruct ((0xF0 <=? bZ b0) && (bZ b0 <=? 0xF4)) eqn:G4; [|done].
  apply andb_true_iff in G4 as [?%Z.leb_le ?%Z.leb_le]. destruct s as [|b1 [|b2 [|b3 s]]]; try done.
  cbv zeta. destruct (_ && between _ _ b3) eqn:B; [|done]. apply andb_true_iff in B as [B B3%between_true].
  apply andb_true_iff in B as [B1%between_true B2%between_true].
  intros [= <- <-]. destruct (Z.eqb_spec (bZ b0) 0xF0), (Z.eqb_spec (bZ b0) 0xF4); try lia; split; try lia; zcases;
    simpl; repeat f_equal; apply Zb_eq; Z.to_euclidean_division_equations; lia.
Qed.

Lemma encodeRune_ne r s : exists b t, encodeRune r ++ s = b :: t.
Proof. unfold encodeRune. repeat case_match; simpl; eauto. Qed.

Lemma encodeRune_pos r : (1 <= length (encodeRune r))%nat.
Proof. unfold encodeRune. repeat case_match; simpl; lia. Qed.

Lemma validLoop_spec n s : (length s <= n)%nat ->
  validLoop n s = true <-> exists rs, Forall scalar rs /\ s = concat (encodeRune <$> rs).
Proof.
  revert s. induction n as [|n IH]; intros s Hn.
  - destruct s; [|simpl in Hn; lia]. simpl. split; [|done]. intros _. by exists [].
  - split.
    + destruct s as [|b s']; [intros _; by exists []|]. cbn [validLoop].
      destruct (decodeRune (b :: s')) as [[r t]|] eqn:E; [|done]. apply decode_inv in E as [Hr E].
      rewrite E in *. rewrite length_app in Hn. pose proof (encodeRune_pos r).
      intros (rs & H1 & ->)%IH; [|lia]. exists (r :: rs). split; [by constructor|done].
    + intros (rs & H1 & ->). destruct H1 as [|r rs Hr H1]; [done|]. rewrite fmap_cons in *. cbn [concat] in *.
      rewrite length_app in Hn. pose proof (encodeRune_pos r).
      destruct (encodeRune_ne r (concat (encodeRune <$> rs))) as (b & t & E). rewrite E. cbn [validLoop]. rewrite <-E, decodeRune_encode by done.
      apply IH; [lia|eauto].
Qed.

Lemma runesLoop_enc n rs : Forall scalar rs -> (length (concat (encodeRune <$> rs)) <= n)%nat ->
  runesLoop n (concat (encodeRune <$> rs)) = rs.
Proof.
  intros H. revert n. induction H as [|r rs Hr H IH]; intros n Hn; [by destruct n|]. rewrite fmap_cons in *. cbn [concat] in *.
  rewrite length_app in Hn. pose proof (encodeRune_pos r). destruct n; [lia|].
  destruct (encodeRune_ne r (concat (encodeRune <$> rs))) as (b & t & E).
  rewrite E. cbn [runesLoop]. rewrite <-E, decodeRune_encode by done. f_equal. apply IH. lia.
Qed.

(** ** Principals *)

Definition MaxIDLen : Z := 256.

(** [Principal]: its ID. *)
Record Principal := mkPrincipal { ID : bytes }.

Definition Validate (p : Principal) : res unit :=
  if bool_decide (ID p = []) || (MaxIDLen <? zlen (ID p)) || negb (ValidString (ID p)) then Err AuthInvalidPrincipal
  else if existsb (fun r => (r <? 0x20) || (r =? 0x7f)) (runes (ID p)) then Err AuthInvalidPrincipal
  else Ok tt.

(** A printable rune: a scalar value that is no control character. *)
Definition printable (r : Z) : Prop := scalar r /\ 0x20 <= r /\ r <> 0x7f.

Definition recordableID (id : bytes) : Prop :=
  id <> [] /\ zlen id <= MaxIDLen /\ exists rs, Forall printable rs /\ id = concat (encodeRune <$> rs).

Lemma Validate_err p e : Validate p = Err e -> e = AuthInvalidPrincipal.
Proof. unfold Validate. destruct (_ || _); [congruence|]. destruct (existsb _ _); congruence. Qed.

Lemma Validate_spec p : Validate p = Ok tt <-> recordableID (ID p).
Proof.
  unfold Validate, recordableID. split.
  - intros H. guards H. destruct G as [[G1%bool_decide_eq_false G2] G3].
    apply validLoop_spec in G3 as (rs & Hrs & E); [|done]. split_and!; [done|lia|]. exists rs. split; [|done].
    unfold runes in G0. rewrite E, runesLoop_enc in G0 by done.
    apply Forall_forall. intros r Hr. rewrite Forall_forall in Hrs. split; [by apply Hrs|].
    assert ((r <? 0x20) || (r =? 0x7f) = false) as Hc.
    { apply not_true_iff_false. intros Ht. apply not_true_iff_false in G0. apply G0, existsb_exists.
      exists r. split; [by apply list_elem_of_In|done]. }
    apply orb_false_iff in Hc as [?%Z.ltb_ge ?%Z.eqb_neq]. done.
  - intros (H1 & H2 & rs & Hrs & E).
    assert (Forall scalar rs) as Hs by (eapply Forall_impl; [done|]; intros r [Hr _]; done).
    rewrite bool_decide_eq_false_2 by done. rewrite (proj2 (Z.ltb_ge _ _)) by lia.
    unfold ValidString. rewrite (proj2 (validLoop_spec (length (ID p)) (ID p) ltac:(lia))) by eauto.
    unfold runes. rewrite E, runesLoop_enc by done. simpl.
    destruct (existsb _ _) eqn:Ex; [|done]. apply existsb_exists in Ex as (r & Hr%list_elem_of_In & Hc).
    rewrite Forall_forall in Hrs. destruct (Hrs r Hr) as (_ & ? & ?).
    apply orb_true_iff in Hc as [?%Z.ltb_lt|?%Z.eqb_eq]; lia.
Qed.

(** ** Authorizers *)

Inductive Action := ActRead | ActWrite | ActManage | ActAdmin | ActCommit | ActMerge.

#[export] Instance Action_eq_dec : EqDecision Action.
Proof. solve_decision. Defined.

(** [Authorizer]: nil allows the call, an error refuses it. *)
Definition Authorizer : Type := Principal -> Action -> bytes -> res unit.

Definition DenyAll : Authorizer := fun _ _ _ => Err AuthDenied.
Definition AllowAll : Authorizer := fun _ _ _ => Ok tt.

(** [Check]: a nil authorizer is [None]. *)
Definition Check_ (az : option Authorizer) (p : Principal) (a : Action) (resource : bytes) : res unit :=
  match Validate p with
  | Err e => Err e
  | Ok _ =>
      let az := match az with None => DenyAll | Some az => az end in
      match az p a resource with
      | Err e => if bool_decide (e = AuthDenied) then Err e else Err AuthDenied
      | Ok _ => Ok tt
      end
  end.

(** A call is allowed exactly when its principal can be recorded (a
    non-empty id of at most 256 bytes that is the UTF-8 encoding of printable
    characters) and an authorizer is set and says yes. Every refusal is
    [ErrInvalidPrincipal] for the one reason or [ErrDenied] for the other,
    whatever error the authorizer gave. *)
Theorem check_denies_by_default az p a resource :
  (Check_ az p a resource = Ok tt <->
     recordableID (ID p) /\ exists f, az = Some f /\ f p a resource = Ok tt) /\
  (Check_ az p a resource = Err AuthInvalidPrincipal <-> ~ recordableID (ID p)) /\
  (forall e, Check_ az p a resource = Err e -> e = AuthInvalidPrincipal \/ e = AuthDenied).
Proof.
  pose proof (Validate_err p) as He. pose proof (Validate_spec p) as Hs. unfold Check_.
  destruct (Validate p) as [[]|e] eqn:E.
  - pose proof (proj1 Hs eq_refl) as Hrec. clear He Hs. destruct az as [f|]; simpl.
    + destruct (f p a resource) as [[]|e] eqn:Ef.
      * split_and!; [|naive_solver|naive_solver]. split; [|done]. intros _. split; [done|]. by exists f.
      * assert ((if bool_decide (e = AuthDenied) then Err e else Err AuthDenied) = @Err unit AuthDenied) as ->
          by (case_bool_decide; congruence).
        split_and!; [|naive_solver|naive_solver]. split; [done|]. intros (_ & f' & [= <-] & Hf). congruence.
    + split_and!; [|naive_solver|naive_solver]. split; [done|naive_solver].
  - rewrite (He e eq_refl). split_and!; [|split; [|done]|naive_solver].
    + split; [done|]. intros [Hr _]. apply Hs in Hr. done.
    + intros _ Hr. apply Hs in Hr. done.
Qed.

Lemma Check_ok az p a r : Check_ az p a r = Ok tt -> recordableID (ID p).
Proof. unfold Check_. destruct (Validate p) as [[]|] eqn:E; [|done]. intros _. by apply Validate_spec. Qed.
