(* ===== verification/Model.v ===== *)
(** * core/model: the data-model plugin port and its registry

    A model gives an object's bytes meaning. The port's interfaces are records
    of functions: [Model], and beside it the optional [Walker] and
    [Accumulator]. A [Registry] is the set of models a repository is opened
    with; it resolves an object's model and format or refuses it. *)

From S2P Require Import Prelude ChunkStore Prog.

(** [model.ID], a [uint16]. *)
Abbreviation ModelID := Z.

(** An object as its model sees it. *)
Record Root := mkRoot { RHash : hash; RSize : Z; RDepth : Z; RFormat : Z }.

#[export] Instance Root_eq_dec : EqDecision Root.
Proof. solve_decision. Defined.

Inductive ChangeKind := MAdded | MRemoved | MModified.

Record MChange := mkMChange { MKind : ChangeKind; MLocation : bytes }.

(** [DiffIter]: where the walk is, and its next step; no change at the end. *)
Record MDiffIter := mkMDiffIter {
  mdState : Type;
  mdAt : mdState;
  mdNext : mdState -> res (option MChange) * mdState;
}.

Record MConflict := mkMConflict { CLocation : bytes; CReason : bytes }.

Record MergeResult := mkMergeResult { MRoot : Root; MConflicts : list MConflict }.

(** A visitor of a walk: it may keep state, and says whether to go on. *)
Definition visitor (St : Type) : Type := hash -> bool -> M St bool.

(** [Walker] and [Accumulator], the interfaces beside [Model]. *)
Definition Walker : Type := forall St : Type, Root -> creader -> visitor St -> M St unit.
Definition Accumulator : Type := bool.

(** [Model]; the last two fields are what a type assertion to the optional
    interfaces finds. *)
Record Model := mkModel {
  MID : ModelID;
  FormatVersion : Z;
  MValidate : Root -> creader -> res unit;
  MDiff : Root -> Root -> creader -> res MDiffIter;
  MMerge : Root -> Root -> Root -> prog MergeResult;
  asWalker : option Walker;
  asAccumulator : option Accumulator;
}.

Definition Accumulates (m : Model) : bool :=
  match asAccumulator m with Some a => a | None => false end.

(** ** The registry *)

Record Registry := mkRegistry { models : gmap ModelID Model; ids : list ModelID }.

(** The loop of [NewRegistry]; a nil model is [None]. *)
Fixpoint registerAll (ms : list (option Model)) (r : Registry) : res Registry :=
  match ms with
  | [] => Ok r
  | None :: _ => Err (EMsg "model: nil")
  | Some m :: ms =>
      let id := MID m in
      if id =? 0 then Err (EMsg "model: model id 0 is reserved")
      else match models r !! id with
           | Some _ => Err (EMsg "model: two models share an id")
           | None => registerAll ms (mkRegistry (<[id := m]> (models r)) (ids r ++ [id]))
           end
  end.

Definition NewRegistry (ms : list (option Model)) : res Registry :=
  match registerAll ms (mkRegistry ∅ []) with
  | Ok r => Ok (mkRegistry (models r) (merge_sort Z.le (ids r)))
  | Err e => Err e
  end.

Definition Resolve (r : Registry) (id : ModelID) (format : Z) : res Model :=
  match models r !! id with
  | None => Err ModelUnknown
  | Some m => if (format =? 0) || (FormatVersion m <? format) then Err ModelUnknown else Ok m
  end.

Definition IDs (r : Registry) : list ModelID := ids r.

Definition AnyAccumulates (r : Registry) : bool :=
  existsb (fun p => Accumulates p.2) (map_to_list (models r)).

(** ** What the registry promises *)

(** The models [ms] lists: each is there, none has id 0, no two share one. *)
Definition registrable (ms : list (option Model)) (l : list Model) : Prop :=
  ms = (Some <$> l) /\ NoDup (MID <$> l) /\ (0 ∉ (MID <$> l)).

Lemma registerAll_ok ms r r' : registerAll ms r = Ok r' -> exists l,
  ms = (Some <$> l) /\ NoDup (MID <$> l) /\ (0 ∉ (MID <$> l)) /\
  (forall m, m ∈ l -> models r !! MID m = None) /\ ids r' = ids r ++ (MID <$> l) /\
  (forall id m, models r' !! id = Some m <-> models r !! id = Some m \/ (m ∈ l /\ MID m = id)).
Proof.
  revert r. induction ms as [|[m|] ms IH]; intros r; simpl; [| |done].
  - intros [= ->]. exists []. rewrite app_nil_r. split_and!; [done|by apply NoDup_nil_2|by apply not_elem_of_nil|by intros ? ?%not_elem_of_nil|done|].
    intros id m. set_solver.
  - destruct (Z.eqb_spec (MID m) 0) as [|H0]; [done|]. destruct (models r !! MID m) eqn:E; [done|].
    intros (l & -> & Hnd & Hz & Hf & Hi & Hm)%IH. exists (m :: l). simpl in *.
    assert (forall x, x ∈ l -> MID x <> MID m /\ models r !! MID x = None) as Hf'.
    { intros x Hx. specialize (Hf x Hx). rewrite lookup_insert_None in Hf. destruct Hf; split; congruence. }
    split_and!; [done| | | | |].
    + apply NoDup_cons. split; [|done]. intros (x & Ex & Hx)%list_elem_of_fmap.
      by destruct (Hf' x Hx).
    + rewrite elem_of_cons. naive_solver.
    + intros x [->|Hx]%elem_of_cons; [done|]. by apply Hf'.
    + by rewrite Hi, <-app_assoc.
    + intros id x. rewrite Hm, lookup_insert_Some, elem_of_cons. split.
      * intros [[[<- <-]|[_ ?]]|[? ?]]; auto.
      * intros [Hx|[[->|Hx] Hid]]; [|by left; left|by right].
        left. right. split; [|done]. intros <-. congruence.
Qed.

Lemma registerAll_total l r :
  NoDup (MID <$> l) -> (0 ∉ (MID <$> l)) -> (forall m, m ∈ l -> models r !! MID m = None) ->
  is_ok (registerAll (Some <$> l) r) = true.
Proof.
  revert r. induction l as [|m l IH]; intros r Hnd Hz Hf; [done|]. simpl in *.
  apply NoDup_cons in Hnd as [Hm Hnd]. rewrite not_elem_of_cons in Hz. destruct Hz as [Hz0 Hz].
  rewrite (proj2 (Z.eqb_neq _ _)) by done. rewrite Hf by set_solver. apply IH; [done|done|].
  intros x Hx. simpl. rewrite lookup_insert_None. split; [apply Hf; set_solver|].
  intros E. apply Hm. rewrite E. by apply list_elem_of_fmap_2.
Qed.

Lemma NewRegistry_ok l r : NewRegistry (Some <$> l) = Ok r ->
  NoDup (MID <$> l) /\ (0 ∉ (MID <$> l)) /\ ids r = merge_sort Z.le (MID <$> l) /\
  (forall id m, models r !! id = Some m <-> m ∈ l /\ MID m = id).
Proof.
  unfold NewRegistry. destruct (registerAll _ _) as [r0|] eqn:E; [|done]. intros [= <-].
  apply registerAll_ok in E as (l' & El & Hnd & Hz & _ & Hi & Hm). apply (inj _) in El. subst l'.
  simpl in *. rewrite Hi. split_and!; [done|done|done|]. intros id m. rewrite Hm, lookup_empty. naive_solver.
Qed.

Lemma Resolve_err r id f e : Resolve r id f = Err e -> e = ModelUnknown.
Proof. unfold Resolve. destruct (models r !! id); [destruct (_ || _)|]; congruence. Qed.

Lemma Resolve_ok r id f m :
  Resolve r id f = Ok m <-> models r !! id = Some m /\ f <> 0 /\ f <= FormatVersion m.
Proof.
  unfold Resolve. destruct (models r !! id) as [m'|]; [|naive_solver].
  destruct (Z.eqb_spec f 0), (Z.ltb_spec (FormatVersion m') f); simpl; split; try naive_solver lia.
Qed.

Lemma Sorted_strict (l : list Z) : StronglySorted Z.le l -> NoDup l -> StronglySorted Z.lt l.
Proof.
  induction 1 as [|x l Hl IH Hx]; [constructor|]. rewrite NoDup_cons. intros [Hn Hnd].
  constructor; [by apply IH|]. rewrite Forall_forall in Hx |- *. intros y Hy.
  specialize (Hx y Hy). assert (x <> y) by (intros ->; done). lia.
Qed.

(** C35. A registry is built exactly from a list of models none of which is nil
    or has id 0 and no two of which share an id; anything else is refused.
    The registry built lists the ids in increasing order, resolves an
    object's id and format to the listed model with that id when the format
    is one it knows (1 up to its version), and answers [ErrUnknownModel] for
    everything else. *)
Theorem registry_resolves_what_it_lists ms :
  ((exists r, NewRegistry ms = Ok r) <-> exists l, registrable ms l) /\
  (forall r l, NewRegistry ms = Ok r -> registrable ms l ->
     IDs r ≡ₚ MID <$> l /\ StronglySorted Z.lt (IDs r) /\
     (forall id f m, Resolve r id f = Ok m <-> m ∈ l /\ MID m = id /\ f <> 0 /\ f <= FormatVersion m) /\
     (forall id f e, Resolve r id f = Err e -> e = ModelUnknown)).
Proof.
  unfold registrable. split; [split|].
  - unfold NewRegistry. intros [r Hr]. destruct (registerAll ms _) as [r0|] eqn:E; [|done].
    apply registerAll_ok in E as (l & H1 & H2 & H3 & _). by exists l.
  - intros (l & -> & H2 & H3). pose proof (registerAll_total l (mkRegistry ∅ []) H2 H3) as Ht.
    unfold NewRegistry. destruct (registerAll _ _); [by eauto|]. discriminate Ht.
    intros m _. apply lookup_empty.
  - intros r l Hr (-> & _ & _). apply NewRegistry_ok in Hr as (Hnd & Hz & Hi & Hm). unfold IDs. rewrite Hi.
    split_and!.
    + apply merge_sort_Permutation.
    + apply Sorted_strict; [apply (StronglySorted_merge_sort Z.le)|].
      by rewrite (merge_sort_Permutation Z.le).
    + intros id f m. rewrite Resolve_ok, Hm. naive_solver.
    + apply Resolve_err.
Qed.
