(* ===== verification/Object.v ===== *)
(** * core/object: the namespace, a prolly map from path to typed object

    A [Ref] is a namespace's value: which model owns an object, and its root.
    Paths are checked against the grammar on every read and write, and an
    object's model is resolved before the object is handed out. *)

From S2P Require Import Prelude GoStd Wire Hash ChunkStore Prog Auth Model ProllyNode Prolly ProllyDiff ProllyDraw ProllyFlush ProllyMerge ProllyEditor ProllyWalk.

(** ** Object references *)

Definition RefSize : Z := 46.

Record Ref := mkRef { RefModel : ModelID; RefFlags : Z; RefRoot : Root }.

#[export] Instance Ref_eq_dec : EqDecision Ref.
Proof. solve_decision. Defined.

Definition zeroRef : Ref := mkRef 0 0 (mkRoot zero_hash 0 0 0).

Definition Encode (r : Ref) : bytes :=
  let w := wU16 [] (RefModel r) in
  let w := wU16 w (RFormat (RefRoot r)) in
  let w := wU8 w (RefFlags r) in
  let w := wU8 w (RDepth (RefRoot r)) in
  let w := wU64 w (RSize (RefRoot r)) in
  wRaw w (hbytes (RHash (RefRoot r))).

Definition DecodeRef (b : bytes) : res Ref :=
  if negb (zlen b =? RefSize) then Err ChunkCorrupt
  else
    let r := NewReader b in
    let '(id, r) := U16 r in
    let '(format, r) := U16 r in
    let '(flags, r) := U8 r in
    let '(depth, r) := U8 r in
    let '(size, r) := U64 r in
    let '(h, r) := readHash r in
    if bool_decide (Done r <> None) || negb (flags =? 0) || (id =? 0) || (format =? 0) then Err ChunkCorrupt
    else Ok (mkRef id flags (mkRoot h size depth format)).

(** A reference a record can hold. *)
Definition ref_ok (r : Ref) : Prop :=
  0 < RefModel r < two16 /\ RefFlags r = 0 /\ 0 < RFormat (RefRoot r) < two16 /\
  0 <= RDepth (RefRoot r) < two8 /\ 0 <= RSize (RefRoot r) < two64.

Lemma Encode_enc r : Encode r = encU16 (RefModel r) ++ encU16 (RFormat (RefRoot r)) ++ encU8 (RefFlags r) ++
  encU8 (RDepth (RefRoot r)) ++ encU64 (RSize (RefRoot r)) ++ hbytes (RHash (RefRoot r)).
Proof. unfold Encode. wr_norm. done. Qed.

Lemma length_Encode r : zlen (Encode r) = RefSize.
Proof. by rewrite Encode_enc, !length_app, !length_encU16, !length_encU8, length_encU64, hash_length. Qed.

Lemma DecodeRef_fwd r : ref_ok r -> DecodeRef (Encode r) = Ok r.
Proof.
  intros (H1 & H2 & H3 & H4 & H5). unfold DecodeRef. rewrite length_Encode. simpl.
  pose proof (at_new_nil (Encode r)) as Ha. rewrite Encode_enc in Ha at 2. rewrite <-!app_assoc in Ha.
  do 6 rd_fwd. apply Done_None in Ha. rewrite Ha, H2, Z.eqb_refl.
  rewrite !(proj2 (Z.eqb_neq _ _)) by lia. rewrite bool_decide_eq_false_2 by auto. simpl.
  destruct r as [id flags [h size depth format]]; simpl in *. by subst.
Qed.

Lemma DecodeRef_bwd b r : DecodeRef b = Ok r -> b = Encode r /\ ref_ok r.
Proof.
  unfold DecodeRef. destruct (negb _); [done|]. intros H. rd_name H. guards H.
  destruct G as [[[G1%bool_decide_eq_false ->] G3] G4]. injection H as <-.
  apply dec_stable in G1. pose proof (Done_err _ G1) as He. apply Done_None in G1.
  pose proof (at_new b) as Ha. rd_back. pose proof (at_functional _ _ _ Ha G1) as ->.
  rewrite app_nil_r, Encode_enc. simpl. split; [done|]. unfold ref_ok. simpl. lia.
Qed.

(** An object reference is read back exactly as it was written, and the 46
    bytes [Encode] writes for a reference are the only bytes [DecodeRef]
    takes for it: any other length, flags, model id 0 or format 0 is refused
    as corrupt. *)
Theorem ref_codec b :
  (forall r, DecodeRef b = Ok r <-> b = Encode r /\ ref_ok r) /\
  (forall e, DecodeRef b = Err e -> e = ChunkCorrupt).
Proof.
  split.
  - intros r. split; [apply DecodeRef_bwd|]. intros [-> H]. by apply DecodeRef_fwd.
  - intros e. unfold DecodeRef. intros H. rd_name H. repeat case_match; congruence.
Qed.

(** ** Paths *)

Definition MaxPathLen : Z := 4096.
Definition MaxSegmentLen : Z := 255.
Definition MaxDepth : Z := 64.

Definition control (c : byte) : bool := (bZ c <? 0x20) || (bZ c =? 0x7f).

(** The loop over the segments of a path. *)
Fixpoint segments (depth : Z) (segs : list bytes) : res unit :=
  match segs with
  | [] => Ok tt
  | seg :: segs =>
      let depth := depth + 1 in
      if (MaxDepth <? depth) || bool_decide (seg = []) || (MaxSegmentLen <? zlen seg) ||
         bool_decide (seg = [dot]) || bool_decide (seg = [dot; dot]) then Err ObjectInvalidPath
      else if existsb control seg then Err ObjectInvalidPath
      else segments depth segs
  end.

Definition ValidPath (p : bytes) : res unit :=
  if bool_decide (p = []) || (MaxPathLen <? zlen p) || negb (ValidString p) then Err ObjectInvalidPath
  else segments 0 (SplitSeq slash p).

(** The grammar: 1 to 64 segments joined by slashes. *)
Definition segment_ok (s : bytes) : Prop :=
  0 < zlen s <= MaxSegmentLen /\ s <> [dot] /\ s <> [dot; dot] /\
  Forall (fun c => c <> slash /\ 0x20 <= bZ c /\ bZ c <> 0x7f) s.

Definition path_ok (p : bytes) : Prop :=
  zlen p <= MaxPathLen /\ (exists rs, Forall scalar rs /\ p = concat (encodeRune <$> rs)) /\
  exists segs, p = join slash segs /\ 0 < zlen segs <= MaxDepth /\ Forall segment_ok segs.

Lemma control_false s : existsb control s = false <-> Forall (fun c => 0x20 <= bZ c /\ bZ c <> 0x7f) s.
Proof.
  induction s as [|c s IH]; simpl; [by split|]. rewrite orb_false_iff, IH, Forall_cons. unfold control.
  rewrite orb_false_iff, Z.ltb_ge, Z.eqb_neq. done.
Qed.

Lemma segments_ok depth segs : Forall (fun x => Forall (fun c => c <> slash) x) segs -> 0 <= depth ->
  segments depth segs = Ok tt <-> (segs = [] \/ depth + zlen segs <= MaxDepth) /\ Forall segment_ok segs.
Proof.
  intros H. revert depth. induction H as [|s segs Hs H IH]; intros depth Hd; simpl; [split; auto|].
  unfold segment_ok at 1. rewrite Forall_cons.
  assert (Forall (fun c => c <> slash /\ 0x20 <= bZ c /\ bZ c <> 0x7f) s <-> existsb control s = false) as Hc.
  { rewrite control_false, Forall_and. naive_solver. }
  split.
  - intros Hx. guards Hx. destruct G as [[[[G1 G2%bool_decide_eq_false] G3] G4%bool_decide_eq_false] G5%bool_decide_eq_false].
    apply IH in Hx as [Hl Hx]; [|lia]. split; [right; destruct Hl as [->|]; simpl; lia|]. split; [|done].
    unfold segment_ok. rewrite Hc. split_and!; try done. destruct s; [done|]. simpl. lia.
  - intros [[?|Hl] [(H1 & H2 & H3 & H4) H5]]; [done|]. rewrite Hc in H4. rewrite H4.
    rewrite !bool_decide_eq_false_2; [|done|done|intros ->; simpl in H1; lia].
    rewrite !(proj2 (Z.ltb_ge _ _)) by (unfold MaxDepth in *; lia). simpl. apply IH; [lia|].
    split; [|done]. right. lia.
Qed.

Lemma ValidPath_spec p : ValidPath p = Ok tt <-> path_ok p.
Proof.
  unfold ValidPath, path_ok. pose proof (SplitSeq_sep slash p) as Hsep. split.
  - intros H. guards H. destruct G as [[G1%bool_decide_eq_false G2] G3].
    apply validLoop_spec in G3; [|done]. apply segments_ok in H as [Hl Hf]; [|done|lia].
    split_and!; [done|done|]. exists (SplitSeq slash p). rewrite join_SplitSeq. split_and!; [done| | |done].
    + destruct (SplitSeq_ne slash p) as (x & xs & ->). simpl. lia.
    + destruct Hl as [E|]; [|lia]. destruct (SplitSeq_ne slash p) as (x & xs & E'); congruence.
  - intros (H1 & H2 & segs & E & Hl & Hf).
    assert (segs <> []) as Hne by (intros ->; simpl in Hl; lia).
    assert (p <> []) as Hp.
    { subst p. destruct Hf as [|s segs Hs Hf]; [done|]. destruct Hs as ((Hs & _) & _).
      destruct s; [simpl in Hs; lia|]. by destruct segs. }
    rewrite bool_decide_eq_false_2 by done. rewrite (proj2 (Z.ltb_ge _ _)) by lia. unfold ValidString.
    rewrite (proj2 (validLoop_spec (length p) p ltac:(lia))) by done. simpl.
    assert (SplitSeq slash p = segs) as Es.
    { subst p. apply SplitSeq_join; [done|]. eapply Forall_impl; [exact Hf|]. intros x (_ & _ & _ & Hx).
      eapply Forall_impl; [exact Hx|]. naive_solver. }
    rewrite Es in *. apply segments_ok; [done|lia|]. split; [right; lia|done].
Qed.

Lemma segments_err d segs e : segments d segs = Err e -> e = ObjectInvalidPath.
Proof. revert d. induction segs as [|s segs IH]; intros d; simpl; [done|]. repeat case_match; [congruence..|]. apply IH. Qed.

Lemma ValidPath_err p e : ValidPath p = Err e -> e = ObjectInvalidPath.
Proof. unfold ValidPath. destruct (_ || _); [congruence|]. apply segments_err. Qed.

(** [ValidPath] accepts exactly the grammar it documents: valid UTF-8 of at
    most 4,096 bytes that is 1 to 64 segments joined by slashes, each of 1 to
    255 bytes, neither ["."] nor [".."], with no slash and no byte under 0x20
    or equal to 0x7f. Everything else is [ErrInvalidPath]. *)
Theorem valid_path_grammar p :
  (ValidPath p = Ok tt <-> path_ok p) /\ (forall e, ValidPath p = Err e -> e = ObjectInvalidPath).
Proof. split; [apply ValidPath_spec|apply ValidPath_err]. Qed.

(** ** Namespaces *)

(** [namespace]: the configuration of a namespace's map. *)
Definition namespace (c : Config) : Config := mkConfig (Nodes c) (InlineLimit c) (SConfig c) RefSize.

(** The store a [Namespace] holds is the one its programs run on. *)
Record Namespace := mkNamespace { nm : Map; reg : Registry }.

(** [New] and [Open]; a nil registry is [None]. *)
Definition New (c : Config) (rg : option Registry) : prog Namespace :=
  match rg with
  | None => pFail (EMsg "object: a namespace needs a model registry")
  | Some rg => m ← Prolly.Empty (namespace c); mret (mkNamespace m rg)
  end.

Definition Open (c : Config) (rg : option Registry) (root : hash) : prog Namespace :=
  match rg with
  | None => pFail (EMsg "object: a namespace needs a model registry")
  | Some rg => m ← Prolly.Open (namespace c) root; mret (mkNamespace m rg)
  end.

Definition NRoot (n : Namespace) : hash := Prolly.root (nm n).
Definition NCount (n : Namespace) : Z := Prolly.mcount (nm n).

(** [Namespace.Get]: the reference, its model, whether the path is there, and
    the error. *)
Definition Get (rd : creader) (n : Namespace) (path : bytes) : Ref * option Model * bool * option error :=
  match ValidPath path with
  | Err e => (zeroRef, None, false, Some e)
  | Ok _ =>
      match Prolly.Get rd (nm n) path with
      | Err e => (zeroRef, None, false, Some e)
      | Ok None => (zeroRef, None, false, None)
      | Ok (Some b) =>
          match DecodeRef b with
          | Err e => (zeroRef, None, false, Some e)
          | Ok ref =>
              match Resolve (reg n) (RefModel ref) (RFormat (RefRoot ref)) with
              | Err e => (ref, None, true, Some e)
              | Ok m => (ref, Some m, true, None)
              end
          end
      end
  end.

(** *** The editor *)

Record Editor := mkEditor { en : Namespace; pe : Prolly.Editor }.

Definition NewEditor (n : Namespace) : Editor := mkEditor n (Prolly.NewEditor (nm n)).

Definition Put (path : bytes) (ref : Ref) : M Editor unit := fun e =>
  match ValidPath path with
  | Err x => (Err x, e)
  | Ok _ =>
      if negb (RefFlags ref =? 0) then (Err (EMsg "object: flags, which format v1 does not define"), e)
      else match Resolve (reg (en e)) (RefModel ref) (RFormat (RefRoot ref)) with
           | Err x => (Err x, e)
           | Ok _ => let '(r, p) := Prolly.Put path (Encode ref) (pe e) in (r, mkEditor (en e) p)
           end
  end.

Definition Delete (path : bytes) : M Editor unit := fun e =>
  match ValidPath path with
  | Err x => (Err x, e)
  | Ok _ => let '(r, p) := Prolly.Delete path (pe e) in (r, mkEditor (en e) p)
  end.

(** [Flush]: the new namespace, and the editor, which then edits it. *)
Definition Flush `{Hasher} (e : Editor) : prog (Namespace * Editor) :=
  mp ← ProllyFlush.Flush (pe e);
  let n := mkNamespace mp.1 (reg (en e)) in
  mret (n, mkEditor n mp.2).

(** *** Differences *)

Record Change := mkChange { Kind : ProllyDiff.ChangeKind; Path : bytes; From : Ref; To : Ref }.

Record DiffIter := mkDiffIter { dd : ProllyDiff.DiffIter; dto : Namespace }.

Definition Diff (from to : Namespace) : prog DiffIter :=
  d ← ProllyDiff.Diff (nm from) (nm to); mret (mkDiffIter d to).

(** A side of a change: absent for an add or a removal. *)
Definition side (absent : bool) (v : option bytes) : res Ref :=
  if absent then Ok zeroRef else DecodeRef (nilb v).

(** [Next]: what the map's iterator answers, with its path checked and its
    references decoded. *)
Definition decodeChange (d : DiffIter) (r : res (option ProllyDiff.Change * ProllyDiff.DiffIter)) :
    res (option Change * DiffIter) :=
  match r with
  | Err e => Err e
  | Ok (None, p) => Ok (None, mkDiffIter p (dto d))
  | Ok (Some pc, p) =>
      match ValidPath (ProllyDiff.Key pc) with
      | Err _ => Err ChunkCorrupt
      | Ok _ =>
          match side (bool_decide (ProllyDiff.Kind pc = Added)) (ProllyDiff.From pc) with
          | Err e => Err e
          | Ok from =>
              match side (bool_decide (ProllyDiff.Kind pc = Removed)) (ProllyDiff.To pc) with
              | Err e => Err e
              | Ok to => Ok (Some (mkChange (ProllyDiff.Kind pc) (ProllyDiff.Key pc) from to), mkDiffIter p (dto d))
              end
          end
      end
  end.

Definition Next (rd : creader) (d : DiffIter) : res (option Change * DiffIter) :=
  decodeChange d (ProllyDiff.DNext rd (dd d)).

Definition Detail (rd : creader) (d : DiffIter) (c : Change) : res MDiffIter :=
  if negb (bool_decide (Kind c = Modified)) || negb (RefModel (From c) =? RefModel (To c))
  then Err (EMsg "object: no one model owns both sides of the change")
  else
    let resolve s := Resolve (reg (dto d)) (RefModel s) (RFormat (RefRoot s)) in
    match resolve (From c) with
    | Err e => Err e
    | Ok _ =>
        match resolve (To c) with
        | Err e => Err e
        | Ok m => MDiff m (RefRoot (From c)) (RefRoot (To c)) rd
        end
    end.

(** [Namespace.Changes]. *)
Definition Changes (n : Namespace) : option (hash * list bytes) := Prolly.Changes (nm n).

(** *** Walking *)

Definition WalkRef {St} (rd : creader) (rg : Registry) (ref : Ref) (visit : visitor St) : M St unit :=
  match Resolve rg (RefModel ref) (RFormat (RefRoot ref)) with
  | Err e => fail e
  | Ok m =>
      match asWalker m with
      | None => fail ObjectNotWalkable
      | Some walk => walk St (RefRoot ref) rd visit
      end
  end.

Definition Walk {St} (rd : creader) (c : Config) (rg : option Registry) (root : hash) (visit : visitor St) : M St unit :=
  match rg with
  | None => fail (EMsg "object: a namespace needs a model registry")
  | Some rg =>
      ProllyWalk.Walk rd (namespace c) root visit (Some (fun key val =>
        match ValidPath key with
        | Err _ => fail ChunkCorrupt
        | Ok _ =>
            match DecodeRef val with
            | Err e => fail e
            | Ok ref => WalkRef rd rg ref visit
            end
        end))
  end.
