(* ===== verification/Namespace.v ===== *)
(** * core/object: a namespace is a finite map from path to object

    The abstract specification of a namespace is a [gmap] from paths to
    references. [holds] says a namespace stores one; reading, editing,
    flushing and comparing namespaces are then operations on the map. *)

From S2P Require Import Prelude GoStd Wire Hash ChunkStore Prog Auth Model ProllyNode Prolly ProllyDiff ProllyDraw ProllyFlush ProllyMerge ProllyCanon ProllyEditor Object.

(** ** What a namespace holds *)

Definition binding (σ : gmap bytes Ref) (k : bytes) : option value := (fun r => VInline (Encode r)) <$> σ !! k.

(** A map of valid paths to valid references. *)
Definition valid_map (σ : gmap bytes Ref) : Prop := forall k r, σ !! k = Some r -> path_ok k /\ ref_ok r.

(** [n], read through [rd], is the map [σ]: it is in canonical form, and every
    entry is a valid path with the encoding of a valid reference. *)
Definition holds `{Hasher} (rd : creader) (n : Namespace) (σ : gmap bytes Ref) : Prop :=
  RefSize <= InlineLimit (cfg (nm n)) /\ MaxValue (cfg (nm n)) = RefSize /\
  valid_map σ /\
  exists es, canonical rd (nm n) es /\ forall k, val <$> klookup key k es = binding σ k.

(** A reference within the widths of its fields. *)
Definition ref_typed (r : Ref) : Prop :=
  0 <= RefModel r < two16 /\ 0 <= RefFlags r < two8 /\ 0 <= RFormat (RefRoot r) < two16 /\
  0 <= RDepth (RefRoot r) < two8 /\ 0 <= RSize (RefRoot r) < two64.

(** A registry as [NewRegistry] makes them: no model 0. *)
Definition reg_ok (rg : Registry) : Prop := models rg !! 0 = None.

(** *** Edits of the abstract map *)

Inductive nsop := OpPut (path : bytes) (ref : Ref) | OpDelete (path : bytes).

Definition op_typed (o : nsop) : Prop := match o with OpPut _ r => ref_typed r | OpDelete _ => True end.

(** Whether an edit is accepted. *)
Definition accepted (rg : Registry) (o : nsop) : bool :=
  match o with
  | OpPut p r => is_ok (ValidPath p) && (RefFlags r =? 0) && is_ok (Resolve rg (RefModel r) (RFormat (RefRoot r)))
  | OpDelete p => is_ok (ValidPath p)
  end.

Definition absOp (rg : Registry) (o : nsop) (σ : gmap bytes Ref) : gmap bytes Ref :=
  if accepted rg o then match o with OpPut p r => <[p := r]> σ | OpDelete p => delete p σ end else σ.

Fixpoint absOps (rg : Registry) (os : list nsop) (σ : gmap bytes Ref) : gmap bytes Ref :=
  match os with [] => σ | o :: os => absOps rg os (absOp rg o σ) end.

(** A client's edits, with what each call returned. *)
Definition doOp (o : nsop) : M Editor unit := match o with OpPut p r => Put p r | OpDelete p => Delete p end.

Fixpoint doOps (os : list nsop) (e : Editor) : list (res unit) * Editor :=
  match os with
  | [] => ([], e)
  | o :: os => let '(r, e) := doOp o e in let '(rs, e) := doOps os e in (r :: rs, e)
  end.

(** The edits of [e] turn [σ0] into [σ]. *)
Definition edits_to (e : Editor) (σ0 σ : gmap bytes Ref) : Prop :=
  forall k, match edits (pe e) !! k with
            | Some (Some b) => exists r, σ !! k = Some r /\ b = Encode r
            | Some None => σ !! k = None
            | None => σ !! k = σ0 !! k
            end.

Lemma path_key p : ValidPath p = Ok tt -> zlen p <= MaxKeySize.
Proof. intros [H _]%ValidPath_spec. exact H. Qed.

Lemma resolved_ok rg r m : reg_ok rg -> ref_typed r -> RefFlags r = 0 ->
  Resolve rg (RefModel r) (RFormat (RefRoot r)) = Ok m -> ref_ok r.
Proof.
  intros Hrg (H1 & H2 & H3 & H4 & H5) Hf (Hm & Hz & _)%Resolve_ok. unfold ref_ok. unfold reg_ok in Hrg.
  assert (RefModel r <> 0) by (intros E; rewrite E in Hm; congruence). lia.
Qed.

(** One accepted edit: [o] is what the path becomes. *)
Definition edited (e : Editor) (p : bytes) (o : option Ref) : Editor :=
  mkEditor (en e) (Prolly.mkEditor (em (pe e)) (<[p := Encode <$> o]> (edits (pe e)))).

(** An editor on the way from [σ0] to [σ]. *)
Definition editing (e : Editor) (σ0 σ : gmap bytes Ref) : Prop :=
  MaxValue (cfg (em (pe e))) = RefSize /\ editor_ok (pe e) /\ edits_to e σ0 σ /\
  valid_map σ.

Lemma maxValue_ref c : MaxValue c = RefSize -> maxValue c = RefSize.
Proof. unfold maxValue. intros ->. done. Qed.

Lemma edited_ok e σ0 σ p o : editing e σ0 σ -> ValidPath p = Ok tt -> (forall r, o = Some r -> ref_ok r) ->
  editing (edited e p o) σ0 (partial_alter (fun _ => o) p σ).
Proof.
  intros (Hmax & Hed & Hto & Hok) Hp Ho. unfold editing, edited; simpl. split_and!; [done| | |].
  - intros k v. simpl. rewrite lookup_insert_Some. intros [[<- <-]|[_ Hk]]; [|by apply Hed].
    split; [by apply path_key|]. destruct o as [r|]; simpl; [|done]. rewrite length_Encode, maxValue_ref by done. lia.
  - intros k. simpl. destruct (decide (p = k)) as [->|Hne].
    + rewrite lookup_insert_eq, lookup_partial_alter_eq. destruct o; simpl; [|done]. eauto.
    + rewrite lookup_insert_ne, lookup_partial_alter_ne by done. apply Hto.
  - intros k r. destruct (decide (p = k)) as [->|Hne].
    + rewrite lookup_partial_alter_eq. intros Hr. split; [by apply ValidPath_spec|by apply Ho].
    + rewrite lookup_partial_alter_ne by done. apply Hok.
Qed.

(** What an editing call does: the edit, when it is accepted, and nothing otherwise. *)
Lemma doOp_edited o e : MaxValue (cfg (em (pe e))) = RefSize ->
  exists r, doOp o e = (r, if accepted (reg (en e)) o
                            then match o with OpPut p x => edited e p (Some x) | OpDelete p => edited e p None end
                            else e) /\ is_ok r = accepted (reg (en e)) o.
Proof.
  intros Hmax. unfold doOp, accepted. destruct o as [p ref|p]; unfold Put, Delete.
  - destruct (ValidPath p) as [[]|x] eqn:Ev; simpl; [|by eauto]. destruct (RefFlags ref =? 0); simpl; [|by eauto].
    destruct (Resolve _ _ _) as [m|x]; simpl; [|by eauto]. unfold Prolly.Put.
    rewrite (proj2 (Z.ltb_ge _ _)) by (by apply path_key).
    rewrite (proj2 (Z.ltb_ge _ _)) by (rewrite maxValue_ref, length_Encode by done; lia). eauto.
  - destruct (ValidPath p) as [[]|x] eqn:Ev; simpl; [|by eauto]. unfold Prolly.Delete.
    rewrite (proj2 (Z.ltb_ge _ _)) by (by apply path_key). eauto.
Qed.

Lemma doOp_ok o e σ0 σ : editing e σ0 σ -> reg_ok (reg (en e)) -> op_typed o ->
  exists r e', doOp o e = (r, e') /\ is_ok r = accepted (reg (en e)) o /\
    editing e' σ0 (absOp (reg (en e)) o σ) /\ en e' = en e /\ em (pe e') = em (pe e) /\
    (size (edits (pe e')) <= S (size (edits (pe e))))%nat.
Proof.
  intros Hed Hrg Hty. destruct (doOp_edited o e (proj1 Hed)) as (r & -> & Hr). eexists _, _. split; [done|]. split; [done|].
  assert (forall p v, (size (edits (pe (edited e p v))) <= S (size (edits (pe e))))%nat) as Hsz.
  { intros p v. unfold edited; simpl. rewrite map_size_insert. case_match; unfold id; lia. }
  unfold absOp. destruct (accepted _ _) eqn:Ea; [|split_and!; done || lia].
  destruct o as [p ref|p]; simpl in *.
  - apply andb_true_iff in Ea as [[Ev Ef]%andb_true_iff Er]. destruct (ValidPath p) as [[]|] eqn:Evp; [|done].
    destruct (Resolve _ _ _) as [m|] eqn:Erm; [|done]. split_and!; try done; [|apply (Hsz p (Some ref))].
    apply edited_ok; [done|done|]. intros x [= <-]. eapply resolved_ok; try done. by apply Z.eqb_eq.
  - destruct (ValidPath p) as [[]|] eqn:Evp; [|done]. split_and!; try done; [|apply (Hsz p None)]. by apply edited_ok.
Qed.

Lemma doOps_ok os : forall e σ0 σ, editing e σ0 σ -> reg_ok (reg (en e)) -> Forall op_typed os ->
  exists rs e', doOps os e = (rs, e') /\ map is_ok rs = map (accepted (reg (en e))) os /\
    editing e' σ0 (absOps (reg (en e)) os σ) /\ en e' = en e /\ em (pe e') = em (pe e) /\
    (size (edits (pe e')) <= length os + size (edits (pe e)))%nat.
Proof.
  induction os as [|o os IH]; intros e σ0 σ Hed Hrg Hty; simpl.
  { eexists _, _. split; [done|]. by split_and!. }
  apply Forall_cons in Hty as [Ho Hty]. destruct (doOp_ok o e σ0 σ Hed Hrg Ho) as (r & e1 & -> & Hr & Hed1 & En & Em & Hs).
  destruct (IH e1 σ0 _ Hed1 ltac:(by rewrite En) Hty) as (rs & e2 & -> & Hrs & Hed2 & En2 & Em2 & Hs2).
  rewrite En in Hrs, Hed2. exists (r :: rs), e2. simpl. rewrite Hr, Hrs. split_and!; try done; [congruence..|lia].
Qed.

(** ** Reading *)

Section Reading.
Context `{Hasher}.

Lemma holds_get rd n σ k : holds rd n σ -> Prolly.Get rd (nm n) k = Ok (Encode <$> σ !! k).
Proof.
  intros (_ & _ & _ & es & Hc & Hk). rewrite (Get_ok _ _ _ k (canonical_map_ok _ _ _ Hc)). specialize (Hk k).
  unfold binding in Hk. destruct (klookup key k es) as [e|], (σ !! k) as [r|]; try done. simpl in *.
  by injection Hk as ->.
Qed.

Lemma holds_more rd rd' n σ : more rd rd' -> holds rd n σ -> holds rd' n σ.
Proof.
  intros Hm (H1 & H2 & H3 & es & Hc & Hk). split_and!; [done|done|done|]. exists es. split; [|done].
  by eapply canonical_mono.
Qed.

Lemma NewEditor_editing rd n σ : holds rd n σ -> editing (NewEditor n) σ σ.
Proof.
  intros (_ & H2 & H3 & _). split_and!; [done|apply ProllyEditor.NewEditor_ok| |done]. intros k. simpl.
  by rewrite lookup_empty.
Qed.

(** Reading a path of a namespace: a path outside the grammar is refused, an
    absent one is absent, and an object is handed out with its model when the
    registry has that model and knows the object's format; otherwise its
    reference comes with [ErrUnknownModel] and nothing of the object is read. *)
Theorem namespace_get rd n σ path :
  holds rd n σ ->
  Get rd n path =
    match ValidPath path, σ !! path with
    | Err e, _ => (zeroRef, None, false, Some e)
    | Ok _, None => (zeroRef, None, false, None)
    | Ok _, Some ref =>
        match Resolve (reg n) (RefModel ref) (RFormat (RefRoot ref)) with
        | Ok m => (ref, Some m, true, None)
        | Err _ => (ref, None, true, Some ModelUnknown)
        end
    end.
Proof.
  intros Hn. unfold Get. destruct (ValidPath path); [|done]. rewrite (holds_get _ _ _ _ Hn).
  destruct (σ !! path) as [ref|] eqn:E; simpl; [|done]. destruct Hn as (_ & _ & Hok & _).
  destruct (Hok _ _ E) as [_ Hr]. rewrite DecodeRef_fwd by done. destruct (Resolve _ _ _) eqn:Er; [done|].
  by apply Resolve_err in Er as ->.
Qed.
End Reading.

(** ** The differences of two maps *)

Lemma binding_inj σ τ k : valid_map σ -> valid_map τ -> binding σ k = binding τ k <-> σ !! k = τ !! k.
Proof.
  intros Hs Ht. unfold binding. split; [|by intros ->].
  destruct (σ !! k) as [r|] eqn:E0, (τ !! k) as [r'|] eqn:E1; simpl; try done. intros Hx. assert (Encode r = Encode r') as Er by congruence.
  apply Hs in E0 as [_ E0]. apply Ht in E1 as [_ E1]. apply DecodeRef_fwd in E0, E1. congruence.
Qed.

(** [es] are the entries of [σ]. *)
Definition entries_of (es : list entry) (σ : gmap bytes Ref) : Prop :=
  ksorted key es /\ valid_map σ /\ forall k, val <$> klookup key k es = binding σ k.

Lemma dkey_at x y k : differs (delta_at x y k) -> dkey (delta_at x y k) = k.
Proof.
  unfold differs, delta_at, dkey. simpl. destruct (klookup key k x) as [e|] eqn:E; [by apply klookup_elem in E as [_ ?]|].
  destruct (klookup key k y) as [f|] eqn:F; [by apply klookup_elem in F as [_ ?]|done].
Qed.

Lemma differs_at x y σ τ k : entries_of x σ -> entries_of y τ -> differs (delta_at x y k) <-> σ !! k <> τ !! k.
Proof.
  intros (_ & Hs & Hx) (_ & Ht & Hy). unfold differs, delta_at. simpl. by rewrite Hx, Hy, binding_inj.
Qed.

Lemma deltas_paths x y σ τ : entries_of x σ -> entries_of y τ ->
  ksorted (fun p => p) (map dkey (deltas x y)) /\ (forall p, p ∈ map dkey (deltas x y) <-> σ !! p <> τ !! p) /\
  (forall d, d ∈ deltas x y -> d = delta_at x y (dkey d)).
Proof.
  intros Hx Hy. pose proof Hx as (Hsx & _). pose proof Hy as (Hsy & _). split_and!.
  - apply (ksorted_fmap dkey (fun p => p)). by apply deltas_sorted.
  - intros p. rewrite <-(differs_at x y σ τ p Hx Hy), list_elem_of_fmap. split.
    + intros (d & -> & (k & -> & Hd)%(deltas_complete _ x y d (le_n _) Hsx Hsy)). by rewrite dkey_at.
    + intros Hd. exists (delta_at x y p). rewrite dkey_at by done. split; [done|].
      apply (deltas_complete _ x y _ (le_n _) Hsx Hsy). by exists p.
  - intros d (k & -> & Hd)%(deltas_complete _ x y d (le_n _) Hsx Hsy). by rewrite dkey_at.
Qed.

(** ** Flushing edits *)

Section Flushing.
Context `{HH : Hasher}.

(** What a flush of [e] needs of the store: its long values' writer is set up,
    the counts stay in range, and the chunks it stores have no name taken. *)
Definition flush_room (v : view) (e : Editor) : Prop :=
  stream_ok (cfg (em (pe e))) /\ NCount (en e) + Z.of_nat (size (edits (pe e))) <= 2 ^ 62 /\
  forall es, canonical (vget v) (em (pe e)) es -> collision_free v (flushChunks (pe e) es).

Lemma merged_binding m rd e σ0 σ es U :
  edits_to e σ0 σ -> RefSize <= InlineLimit (cfg m) -> ksorted key es ->
  (forall k, val <$> klookup key k es = binding σ0 k) ->
  Forall2 (prepared m rd (edits (pe e))) (sortedKeys (edits (pe e))) U ->
  forall k, val <$> klookup key k (mergeE es U) = binding σ k.
Proof.
  intros Hto Hlim Hsort Hes HU k. destruct (prepared_edits m _ _ _ HU) as (HUs & Hok & _ & _ & Hlk).
  rewrite mergeE_lookup by done. specialize (Hlk k). specialize (Hto k). unfold binding in *.
  destruct (edits (pe e) !! k) as [o|] eqn:E.
  - destruct Hlk as (u & -> & _ & Hu). rewrite E in Hu. destruct o as [b|].
    + destruct Hto as (r & -> & ->). destruct Hu as (-> & _ & _ & _ & _ & Hi). simpl. rewrite Hi; [done|].
      rewrite length_Encode. done.
    + rewrite Hu, Hto. done.
  - rewrite Hlk, Hes, Hto. done.
Qed.

Lemma Flush_holds v e σ0 σ :
  holds (vget v) (en e) σ0 -> em (pe e) = nm (en e) -> editing e σ0 σ -> flush_room v e ->
  exists n' v', steps (Flush e) v (n', NewEditor n') v' /\ v ⊆ v' /\ holds (vget v') n' σ /\
    reg n' = reg (en e) /\ cfg (nm n') = cfg (nm (en e)) /\
    exists paths, Changes n' = Some (NRoot (en e), paths) /\
      (forall p, p ∈ paths <-> σ0 !! p <> σ !! p) /\ ksorted (fun p => p) paths.
Proof.
  intros (Hlim & Hmax & Hok0 & es & Hcan & Hes) Em (_ & Hed & Hto & Hok) (Hst & Hn & Hcf).
  assert (zlen es = NCount (en e)) as Hcnt by (destruct Hcan as (_ & _ & _ & _ & Hc & _); unfold NCount; lia).
  rewrite <-Em in Hcan. destruct (Flush_ok v (pe e) es Hcan Hed Hst) as (U & m' & v' & Hs & Hsub & Hcan' & Hcfg & Hmr & HU & Hfl & Hb & Hch).
  { rewrite Em, maxValue_ref by done. vm_compute. discriminate. }
  { lia. }
  { by apply Hcf. }
  assert (ksorted key es) as Hsort by (by destruct Hcan as (_ & (? & _) & _)).
  assert (ksorted key (mergeE es U)) as Hsort' by (by destruct Hcan' as (_ & (? & _) & _)).
  assert (forall k, val <$> klookup key k (mergeE es U) = binding σ k) as Hes'.
  { apply (merged_binding (em (pe e)) (vget v') e σ0 σ es U); try done. by rewrite Em. }
  exists (mkNamespace m' (reg (en e))), v'. split_and!; [|done| |done|simpl; by rewrite Hcfg, Em|].
  - eapply steps_bind; [exact Hs|]. by apply steps_ret.
  - split_and!; [simpl; rewrite Hcfg, Em; done|simpl; rewrite Hcfg, Em; done|done|]. exists (mergeE es U). done.
  - exists (changed m'). unfold Changes, Prolly.Changes. simpl. rewrite Hfl, Hb, Em, Hch.
    destruct (deltas_paths es (mergeE es U) σ0 σ) as (H1 & H2 & _); [by split_and!|by split_and!|]. by split_and!.
Qed.
End Flushing.

(** ** Comparing namespaces *)

(** The change of path [p] from [a] to [b]. *)
Definition changeAt (p : bytes) (a b : option Ref) : Change :=
  mkChange (match a, b with None, _ => Added | _, None => Removed | _, _ => Modified end) p (default zeroRef a) (default zeroRef b).

(** [d] has the changes of [paths] from [σ] to [τ] left to report. *)
Definition changes_at (rd : creader) (d : DiffIter) (σ τ : gmap bytes Ref) (paths : list bytes) : Prop :=
  Forall (fun p => σ !! p <> τ !! p) paths /\
  exists x y, entries_of x σ /\ entries_of y τ /\ diff_at rd (dd d) (map (delta_at x y) paths).

Lemma changes_at_more rd rd' d σ τ paths : more rd rd' -> changes_at rd d σ τ paths -> changes_at rd' d σ τ paths.
Proof.
  intros Hm (Hf & x & y & Hx & Hy & Hd). split; [done|]. exists x, y. split_and!; [done|done|]. by eapply diff_at_more.
Qed.

Lemma change_at rd mA mB x y σ τ k : entries_of x σ -> entries_of y τ -> σ !! k <> τ !! k ->
  ProllyDiff.change rd mA mB (delta_at x y k) =
  Ok (ProllyDiff.mkChange (Kind (changeAt k (σ !! k) (τ !! k))) k (Encode <$> σ !! k) (Encode <$> τ !! k)).
Proof.
  intros (_ & _ & Hx) (_ & _ & Hy) Hd. specialize (Hx k). specialize (Hy k). unfold delta_at, ProllyDiff.change, binding in *.
  destruct (klookup key k x) as [e|] eqn:Ee, (σ !! k) as [r|]; try done;
    destruct (klookup key k y) as [f|] eqn:Ef, (τ !! k) as [r'|]; try done; simpl in *;
    try injection Hx as Hx; try injection Hy as Hy; rewrite ?Hx, ?Hy; simpl;
    try apply klookup_elem in Ee as [_ ->]; try apply klookup_elem in Ef as [_ ->]; done.
Qed.

Lemma Next_at rd d σ τ paths : changes_at rd d σ τ paths ->
  match paths with
  | [] => exists d', Next rd d = Ok (None, d')
  | p :: ps => exists d', Next rd d = Ok (Some (changeAt p (σ !! p) (τ !! p)), d') /\ changes_at rd d' σ τ ps /\ dto d' = dto d
  end.
Proof.
  intros (Hf & x & y & Hx & Hy & Hd). pose proof (DNext_at rd (dd d) _ Hd) as Hn. unfold Next, decodeChange.
  destruct paths as [|p ps]; cbn [map] in Hn; [destruct Hn as (d' & ->); by eauto|].
  apply Forall_cons in Hf as [Hp Hf]. rewrite (change_at _ _ _ x y σ τ) in Hn by done.
  destruct Hn as (d' & -> & Hd' & _). exists (mkDiffIter d' (dto d)).
  split; [|split; [split; [done|]; exists x, y; by split_and!|done]]. simpl.
  destruct Hx as (_ & Hs & _). destruct Hy as (_ & Ht & _).
  assert (ValidPath p = Ok tt) as ->.
  { apply ValidPath_spec. destruct (σ !! p) as [r|] eqn:E; [by apply Hs in E as [? _]|].
    destruct (τ !! p) as [r|] eqn:E'; [by apply Ht in E' as [? _]|done]. }
  unfold side. destruct (σ !! p) as [r|] eqn:E, (τ !! p) as [r'|] eqn:E'; simpl; try done;
    try (apply Hs in E as [_ E]; rewrite (DecodeRef_fwd r) by done);
    try (apply Ht in E' as [_ E']; rewrite (DecodeRef_fwd r') by done); done.
Qed.

Section Comparing.
Context `{Hasher}.

Lemma holds_entries rd n σ : holds rd n σ -> exists es, canonical rd (nm n) es /\ entries_of es σ.
Proof.
  intros (_ & _ & Hv & es & Hc & Hes). exists es. split; [done|]. split_and!; [|done|done].
  by destruct Hc as (_ & (? & _) & _).
Qed.

Lemma Diff_holds rd a b σ τ :
  holds rd a σ -> holds rd b τ -> InlineLimit (cfg (nm b)) = InlineLimit (cfg (nm a)) ->
  exists d paths, interp rd (Diff a b) = Ok d /\ dto d = b /\ changes_at rd d σ τ paths /\
    ksorted (fun p => p) paths /\ (forall p, p ∈ paths <-> σ !! p <> τ !! p) /\
    (length paths <= Z.to_nat (NCount a) + Z.to_nat (NCount b))%nat.
Proof.
  intros Ha Hb Hlim. destruct (holds_entries _ _ _ Ha) as (x & Hcx & Hx). destruct (holds_entries _ _ _ Hb) as (y & Hcy & Hy).
  destruct (Diff_at rd (nm a) (nm b) x y (canonical_map_ok _ _ _ Hcx) (canonical_map_ok _ _ _ Hcy) Hlim) as (d & Hd & Hat & _).
  destruct (deltas_paths x y σ τ Hx Hy) as (H1 & H2 & H3). exists (mkDiffIter d b), (map dkey (deltas x y)).
  split_and!; [|done| |done|done|].
  3: { unfold NCount. rewrite (map_count _ _ _ (canonical_map_ok _ _ _ Hcx)), (map_count _ _ _ (canonical_map_ok _ _ _ Hcy)), length_map.
       apply deltas_length. }
  - unfold Diff. rewrite interp_bind; [by rewrite Hd|]. unfold ProllyDiff.Diff. case_bool_decide; [done|].
    apply reads_bind; [apply seek_reads|]. intros. apply reads_bind; [apply seek_reads|done].
  - split; [apply Forall_forall; intros p; by rewrite H2|]. exists x, y. split_and!; [done|done|]. simpl.
    rewrite map_map. rewrite (map_ext_in _ id); [by rewrite map_id|].
    intros e He. symmetry. by apply H3, list_elem_of_In.
Qed.
End Comparing.

(** A caller's loop over [Next]. *)
Fixpoint diffAll (fuel : nat) (rd : creader) (d : DiffIter) : res (list Change) :=
  match fuel with
  | O => Err (EMsg "no fuel")
  | S fuel =>
      match Next rd d with
      | Err x => Err x
      | Ok (None, _) => Ok []
      | Ok (Some c, d) => match diffAll fuel rd d with Ok l => Ok (c :: l) | Err x => Err x end
      end
  end.

Lemma diffAll_at rd σ τ paths : forall d fuel, changes_at rd d σ τ paths -> (length paths < fuel)%nat ->
  diffAll fuel rd d = Ok (map (fun p => changeAt p (σ !! p) (τ !! p)) paths).
Proof.
  induction paths as [|p ps IH]; intros d [|fuel] Hd Hf; simpl in Hf; try lia; pose proof (Next_at _ _ _ _ _ Hd) as Hn; cbn [diffAll map].
  - by destruct Hn as (d' & ->).
  - destruct Hn as (d' & -> & Hd' & _). by rewrite (IH d' fuel Hd') by lia.
Qed.

(** The difference of two namespaces is the difference of the maps they hold:
    the loop over [Next] ends and reports, in path order and once each,
    exactly the paths that are bound differently, as added, removed or
    modified with both sides' references. *)
Theorem namespace_diff `{Hasher} rd a b σ τ :
  holds rd a σ -> holds rd b τ -> InlineLimit (cfg (nm b)) = InlineLimit (cfg (nm a)) ->
  exists d n l, interp rd (Diff a b) = Ok d /\ (forall fuel, (n < fuel)%nat -> diffAll fuel rd d = Ok l) /\
    ksorted Path l /\
    (forall c, c ∈ l <-> c = changeAt (Path c) (σ !! Path c) (τ !! Path c) /\ σ !! Path c <> τ !! Path c).
Proof.
  intros Ha Hb Hlim. destruct (Diff_holds rd a b σ τ Ha Hb Hlim) as (d & paths & Hd & _ & Hat & Hs & Hp & _).
  exists d, (length paths), (map (fun p => changeAt p (σ !! p) (τ !! p)) paths). split_and!; [done| | |].
  - intros fuel Hf. by apply diffAll_at.
  - by apply (ksorted_fmap (fun p => changeAt p (σ !! p) (τ !! p)) Path).
  - intros c. rewrite list_elem_of_fmap. setoid_rewrite Hp. split.
    + intros (p & -> & Hd'). done.
    + intros [E Hd']. exists (Path c). done.
Qed.

(** ** Editing on any store *)

Section Refinement.
Context `{HH : Hasher} {S : Type} `{!ChunkStore S} `{!ChunkStoreOk S}.

(** C23. A namespace refines a finite map from path to object. Edits of a namespace
    that holds [σ] are accepted exactly when the path is in the grammar and,
    for a put, the reference has no flags and a model and format the registry
    knows; the flush of them, on any store that keeps the chunk store's contract, makes a
    namespace that holds [σ] with the accepted edits applied in order; the
    namespace edited still holds [σ]; and the paths the new namespace records as changed are
    exactly those now bound differently. *)
Theorem namespace_refines_map (s : S) n σ ops rs e :
  cs_ok s -> holds (cs_get s) n σ -> reg_ok (reg n) -> Forall op_typed ops -> doOps ops (NewEditor n) = (rs, e) ->
  flush_room (cs_view s) e ->
  let σ' := absOps (reg n) ops σ in
  map is_ok rs = map (accepted (reg n)) ops /\
  exists n' s' paths, run (Flush e) s = (Ok (n', NewEditor n'), s') /\ cs_ok s' /\
    holds (cs_get s') n' σ' /\ holds (cs_get s') n σ /\ reg n' = reg n /\
    Changes n' = Some (NRoot n, paths) /\ (forall p, p ∈ paths <-> σ !! p <> σ' !! p).
Proof.
  intros Hs Hn Hrg Hty Hdo Hroom. simpl.
  destruct (doOps_ok ops (NewEditor n) σ σ (NewEditor_editing _ _ _ Hn) Hrg Hty) as (rs' & e' & Hdo' & Hrs & Hed & En & Em & _).
  rewrite Hdo in Hdo'. injection Hdo' as <- <-. simpl in *. split; [done|]. rewrite get_view in Hn by done.
  destruct (Flush_holds (cs_view s) e σ _ ltac:(by rewrite En) ltac:(by rewrite Em, En) Hed Hroom)
    as (n' & v' & Hst & Hsub & Hn' & Hreg & _ & paths & Hch & Hp & _).
  destruct (run_view (Flush e) s Hs) as (s' & Hrun & Hs' & Hv & _). rewrite (Hst (cs_rootof s)) in Hrun, Hv. simpl in Hrun, Hv.
  exists n', s', paths. rewrite (get_view s') by done. rewrite Hv, En in *. split_and!; try done.
  eapply holds_more; [|exact Hn]. by apply more_view.
Qed.
End Refinement.

(** ** Examples *)

Section Example.
#[local] Existing Instance toy_hasher.

(** A model that validates everything, reports no changes and cannot merge. *)
Definition exModel : Model :=
  mkModel 1 1 (fun _ _ => Ok tt) (fun _ _ _ => Ok (mkMDiffIter unit tt (fun _ => (Ok None, tt))))
    (fun _ ours _ => mret (mkMergeResult ours [mkMConflict [] []])) None None.

Definition exReg : Registry := mkRegistry {[1 := exModel]} [1].

Lemma exReg_new : NewRegistry [Some exModel] = Ok exReg.
Proof. reflexivity. Qed.

Definition exRef : Ref := mkRef 1 0 (mkRoot (Sum (str "object")) 6 0 1).
Definition exPath : bytes := str "docs/readme".

Definition nsConfig : Config := namespace DefaultConfig.

(** A namespace with one node, of the given entries. *)
Definition exNs (es : list entry) : Namespace :=
  mkNamespace (mkMap nsConfig exRule (Sum (encode (mkNode 0 es))) (zlen es) 0 (Some (mkNode 0 es)) false zero_hash []) exReg.

Definition exEntry : entry := leafEntry exPath (Encode exRef).
Definition nsReader : creader := nodesReader [emptyNode; mkNode 0 [exEntry]].

Lemma exPath_ok : ValidPath exPath = Ok tt.
Proof. vm_compute. reflexivity. Qed.

Lemma exRef_ok : ref_ok exRef.
Proof. unfold ref_ok. simpl. unfold two8, two16, two64. lia. Qed.

Lemma exNs_holds rd : rd (Sum (encode emptyNode)) = Ok (encode emptyNode) -> holds rd (exNs []) ∅.
Proof.
  intros Hrd. split; [vm_compute; discriminate|]. split; [reflexivity|].
  split; [intros k r Hk; by rewrite lookup_empty in Hk|]. exists []. split.
  - split; [vm_compute; reflexivity|]. split; [split; [constructor|split; [constructor|discriminate]]|].
    split; [reflexivity|]. split; [reflexivity|]. split; [reflexivity|]. split; [reflexivity|].
    intros x Hx. change (x ∈ [emptyNode]) in Hx. by apply list_elem_of_singleton in Hx as ->.
  - intros k. unfold binding. by rewrite lookup_empty.
Qed.

(** A namespace of one object. *)
Lemma exNs_one_holds rd p r : ValidPath p = Ok tt -> ref_ok r ->
  let e := leafEntry p (Encode r) in
  bulkRoot exRule [e] = mkNode 0 [e] -> treeNodes exRule 0 [e] = [mkNode 0 [e]; mkNode 0 [e]] ->
  rd (Sum (encode (mkNode 0 [e]))) = Ok (encode (mkNode 0 [e])) -> holds rd (exNs [e]) {[p := r]}.
Proof.
  intros Hp Hr e Hroot Hnodes Hrd. split; [vm_compute; discriminate|]. split; [reflexivity|]. split.
  { intros k x [<- <-]%lookup_singleton_Some. split; [by apply ValidPath_spec|done]. }
  exists [e]. split.
  - split; [vm_compute; reflexivity|]. split.
    { split; [repeat constructor|]. split; [|discriminate]. constructor; [|constructor]. split; [by apply path_key|].
      split; [|by split]. simpl. rewrite length_Encode. vm_compute. discriminate. }
    change (mrule (nm (exNs [e]))) with exRule. rewrite Hroot. cbn [level]. rewrite Hnodes.
    split; [reflexivity|]. split; [reflexivity|]. split; [reflexivity|]. split; [reflexivity|].
    intros x Hx. assert (x = mkNode 0 [e]) as ->; [|exact Hrd].
    apply elem_of_cons in Hx as [Hx|Hx]; [exact Hx|]. apply list_elem_of_singleton in Hx. exact Hx.
  - intros k. unfold binding. rewrite klookup_cons. case_decide as Hk; simpl in Hk.
    + subst k. by rewrite lookup_singleton_eq.
    + by rewrite lookup_singleton_ne.
Qed.

Lemma exNs1_holds : holds nsReader (exNs [exEntry]) {[exPath := exRef]}.
Proof. apply exNs_one_holds; [exact exPath_ok|exact exRef_ok|vm_compute; reflexivity..]. Qed.

Lemma namespace_get_witness :
  Get nsReader (exNs [exEntry]) exPath = (exRef, Some exModel, true, None) /\
  Get nsReader (exNs [exEntry]) (str "docs") = (zeroRef, None, false, None).
Proof.
  split.
  - rewrite (namespace_get nsReader (exNs [exEntry]) _ exPath exNs1_holds). vm_compute. reflexivity.
  - rewrite (namespace_get nsReader (exNs [exEntry]) _ (str "docs") exNs1_holds). vm_compute. reflexivity.
Defined.

Lemma namespace_diff_witness :
  exists d n l, interp nsReader (Diff (exNs []) (exNs [exEntry])) = Ok d /\
    (forall fuel, (n < fuel)%nat -> diffAll fuel nsReader d = Ok l) /\ mkChange Added exPath zeroRef exRef ∈ l.
Proof.
  destruct (namespace_diff nsReader (exNs []) (exNs [exEntry]) ∅ {[exPath := exRef]}) as (d & n & l & Hd & Hl & _ & Hin).
  - apply exNs_holds. vm_compute. reflexivity.
  - exact exNs1_holds.
  - reflexivity.
  - exists d, n, l. split; [exact Hd|]. split; [exact Hl|]. apply Hin. split; [vm_compute; reflexivity|vm_compute; discriminate].
Defined.

Definition exOps : list nsop := [OpPut exPath exRef; OpPut (str "a/../b") exRef; OpPut (str "x") (mkRef 9 0 (RefRoot exRef)); OpDelete (str "y")].

Definition exEdited : Editor := edited (edited (NewEditor (exNs [])) exPath (Some exRef)) (str "y") None.

Lemma exOps_done : doOps exOps (NewEditor (exNs [])) =
  ([Ok tt; Err ObjectInvalidPath; Err ModelUnknown; Ok tt], exEdited).
Proof. vm_compute. reflexivity. Qed.

Lemma exStore_empty : cs_get exStore (Sum (encode emptyNode)) = Ok (encode emptyNode).
Proof. vm_compute. reflexivity. Qed.

(** [flush_room], decided for a namespace of one node. *)
Definition flush_roomb (v : view) (e : Editor) : bool :=
  let c := cfg (em (pe e)) in
  is_ok (Boundary.New (StreamWrite.Nodes (SConfig c))) && is_ok (Cdc.Validate (StreamWrite.CDC (SConfig c))) &&
  (NCount (en e) + Z.of_nat (size (edits (pe e))) <=? 2 ^ 62) && (height (em (pe e)) =? 0)%nat &&
  match top (em (pe e)) with Some n => collision_freeb v (flushChunks (pe e) (entries n)) | None => false end.

Lemma canonical_leaf rd m es n : canonical rd m es -> top m = Some n -> height m = 0%nat -> es = entries n.
Proof.
  intros Hc Ht Hh. destruct (canonical_map_ok _ _ _ Hc) as (_ & n' & Ht' & _ & _ & Hes & _ & Hh' & _).
  assert (n' = n) as -> by congruence. rewrite <-Hh', Hh in Hes. by rewrite leavesN_0 in Hes.
Qed.

Lemma flush_roomb_true v e : flush_roomb v e = true -> flush_room v e.
Proof.
  unfold flush_roomb. rewrite !andb_true_iff. intros [[[[H1 H2] H3%Z.leb_le] H4%Nat.eqb_eq] H5].
  destruct (top (em (pe e))) as [n|] eqn:Et; [|done]. apply is_Ok_inv in H1. apply is_Ok_inv in H2 as [[] H2].
  split; [by split|]. split; [done|]. intros es Hes. rewrite (canonical_leaf _ _ _ _ Hes Et H4). by apply collision_freeb_true.
Qed.

Lemma exEdited_room : flush_room (cs_view exStore) exEdited.
Proof. apply flush_roomb_true. vm_compute. reflexivity. Qed.

Lemma exOps_abs : absOps exReg exOps ∅ = delete (str "y") (<[exPath := exRef]> ∅).
Proof.
  assert (accepted exReg (OpPut exPath exRef) = true) as E1 by (vm_compute; reflexivity).
  assert (accepted exReg (OpPut (str "a/../b") exRef) = false) as E2 by (vm_compute; reflexivity).
  assert (accepted exReg (OpPut (str "x") (mkRef 9 0 (RefRoot exRef))) = false) as E3 by (vm_compute; reflexivity).
  assert (accepted exReg (OpDelete (str "y")) = true) as E4 by (vm_compute; reflexivity).
  unfold exOps, absOps, absOp. rewrite E1, E2, E3, E4. reflexivity.
Qed.

Lemma exOps_typed : Forall op_typed exOps.
Proof. unfold exOps, op_typed, ref_typed. repeat constructor; simpl; unfold two8, two16, two64; lia. Qed.

Lemma namespace_refines_map_witness :
  exists n' (s' : Memstore.Store) paths, run (Flush exEdited) exStore = (Ok (n', NewEditor n'), s') /\ cs_ok s' /\
    holds (cs_get s') n' (delete (str "y") (<[exPath := exRef]> ∅)) /\ holds (cs_get s') (exNs []) ∅ /\ reg n' = exReg /\
    Changes n' = Some (NRoot (exNs []), paths) /\
    (forall p, p ∈ paths <-> (∅ : gmap bytes Ref) !! p <> (delete (str "y") (<[exPath := exRef]> ∅) : gmap bytes Ref) !! p).
Proof.
  rewrite <-exOps_abs.
  exact (proj2 (namespace_refines_map exStore (exNs []) ∅ exOps _ exEdited exStore_ok (exNs_holds _ exStore_empty)
                  eq_refl exOps_typed exOps_done exEdited_room)).
Defined.
End Example.
