(* ===== verification/Merge.v ===== *)
(** * core/merge: the three-way merge of namespaces

    Both sides' differences from the base are walked in path order and zipped.
    The driver decides what it can alone and asks an object's model only when
    both sides changed the same object under one model. [mergeAt] is the
    decision table for one path; the theorem is that the merged namespace and
    the conflicts are what the table says, path by path. *)

From S2P Require Import Prelude GoStd Wire Hash ChunkStore Prog Auth Model ProllyNode Prolly ProllyDiff ProllyDraw ProllyFlush ProllyMerge ProllyCanon ProllyEditor Object Namespace.

Definition DefaultMaxConflicts : Z := 100000.

(** [Kind]: why a path conflicts. *)
Inductive Kind := BothChanged | DeleteEdit | AddAdd | ModelChange.

#[export] Instance Kind_eq_dec : EqDecision Kind.
Proof. solve_decision. Defined.

Record Conflict := mkConflict {
  CPath : bytes; CKind : Kind; CBase : Ref; COurs : Ref; CTheirs : Ref; CModel : list MConflict }.

Record Stats := mkStats { SAdded : Z; SRemoved : Z; SModified : Z; SConflicts : Z }.

(** [Result]; its namespace is nil until the merge is done. *)
Record Result := mkResult { Merged : option Namespace; Conflicts : list Conflict; RStats : Stats }.

Definition zeroStats : Stats := mkStats 0 0 0 0.

Record Options := mkOptions { MaxConflicts : Z }.

(** [zipper]; its store and context are those its programs run on. *)
Record zipper := mkZipper { zreg : Registry; zed : Editor; zres : Result }.

Definition with_ed (z : zipper) (ed : Editor) (st : Stats) : zipper :=
  mkZipper (zreg z) ed (mkResult (Merged (zres z)) (Conflicts (zres z)) st).

(** Run an editing call of the zipper's editor. *)
Definition zedit (z : zipper) (st : Stats) (f : M Editor unit) : prog zipper :=
  match f (zed z) with
  | (Err e, _) => pFail e
  | (Ok _, ed) => mret (with_ed z ed st)
  end.

(** [take]: theirs' change of a path ours left alone. *)
Definition take_ (z : zipper) (c : Object.Change) : prog zipper :=
  let st := RStats (zres z) in
  match Object.Kind c with
  | Removed => zedit z (mkStats (SAdded st) (SRemoved st + 1) (SModified st) (SConflicts st)) (Object.Delete (Path c))
  | Added => zedit z (mkStats (SAdded st + 1) (SRemoved st) (SModified st) (SConflicts st)) (Object.Put (Path c) (To c))
  | Modified => zedit z (mkStats (SAdded st) (SRemoved st) (SModified st + 1) (SConflicts st)) (Object.Put (Path c) (To c))
  end.

(** [conflict]: record a path; ours stays in the merged namespace. *)
Definition conflict (z : zipper) (k : Kind) (ours theirs : Object.Change) (mc : list MConflict) : zipper :=
  mkZipper (zreg z) (zed z)
    (mkResult (Merged (zres z)) (Conflicts (zres z) ++ [mkConflict (Path ours) k (From ours) (To ours) (To theirs) mc]) (RStats (zres z))).

Definition accumulates (rg : Registry) (c : Object.Change) : bool :=
  if negb (RefModel (From c) =? RefModel (To c)) then false
  else match Resolve rg (RefModel (To c)) (RFormat (RefRoot (To c))) with
       | Ok m => Accumulates m
       | Err _ => false
       end.

(** [both]: a path both sides changed. *)
Definition both (z : zipper) (ours theirs : Object.Change) : prog zipper :=
  let oGone := bool_decide (Object.Kind ours = Removed) in
  let tGone := bool_decide (Object.Kind theirs = Removed) in
  if (oGone && tGone) ||
     (negb oGone && negb tGone && bool_decide (To ours = To theirs) && negb (accumulates (zreg z) ours)) then mret z
  else if oGone || tGone then mret (conflict z DeleteEdit ours theirs [])
  else if bool_decide (Object.Kind ours = Added) then mret (conflict z AddAdd ours theirs [])
  else if negb (RefModel (From ours) =? RefModel (To ours)) || negb (RefModel (To theirs) =? RefModel (To ours))
  then mret (conflict z ModelChange ours theirs [])
  else
    let resolve s := Resolve (zreg z) (RefModel s) (RFormat (RefRoot s)) in
    _ ← pLift (resolve (From ours));
    _ ← pLift (resolve (To ours));
    m ← pLift (resolve (To theirs));
    r ← MMerge m (RefRoot (From ours)) (RefRoot (To ours)) (RefRoot (To theirs));
    if bool_decide (MConflicts r <> []) then mret (conflict z BothChanged ours theirs (MConflicts r))
    else if (RFormat (MRoot r) =? 0) || (FormatVersion m <? RFormat (MRoot r))
    then pFail (EMsg "merge: a format the model does not write")
    else
      let st := RStats (zres z) in
      zedit z (mkStats (SAdded st) (SRemoved st) (SModified st + 1) (SConflicts st))
        (Object.Put (Path ours) (mkRef (MID m) 0 (MRoot r))).

(** [Object.Next] as a step of a program. *)
Definition nextOf (d : Object.DiffIter) : prog (option Object.Change * Object.DiffIter) :=
  ReadOp (fun rd => ProllyDiff.DNext rd (dd d)) (fun r => Ret (decodeChange d r)).

(** The loop of [Merge]: every round takes a change of one side or of both. *)
Fixpoint zip (fuel : nat) (max : Z) (co : option Object.Change) (dOurs : Object.DiffIter)
    (ct : option Object.Change) (dTheirs : Object.DiffIter) (z : zipper) : prog zipper :=
  match fuel with
  | O => pFail (EMsg "no fuel")
  | S fuel =>
      let ours := r ← nextOf dOurs; zip fuel max r.1 r.2 ct dTheirs z in
      let theirs t := z ← take_ z t; r ← nextOf dTheirs; zip fuel max co dOurs r.1 r.2 z in
      match co, ct with
      | None, None => mret z
      | Some o, None => ours
      | None, Some t => theirs t
      | Some o, Some t =>
          if bltb (Path o) (Path t) then ours
          else if bltb (Path t) (Path o) then theirs t
          else
            z ← both z o t;
            if max <? zlen (Conflicts (zres z)) then pFail MergeTooManyConflicts
            else
              r ← nextOf dOurs;
              q ← nextOf dTheirs;
              zip fuel max r.1 r.2 q.1 q.2 z
      end
  end.

(** Enough rounds for the changes of both sides. *)
Definition zipFuel (base ours theirs : Namespace) : nat :=
  S (Z.to_nat (NCount base) + Z.to_nat (NCount ours) + (Z.to_nat (NCount base) + Z.to_nat (NCount theirs))).

(** The comparison of the three namespaces: all of [Merge] before its flush. *)
Definition zipped (rg : Registry) (base ours theirs : Namespace) (max : Z) : prog zipper :=
  dOurs ← Object.Diff base ours;
  dTheirs ← Object.Diff base theirs;
  let z := mkZipper rg (Object.NewEditor ours) (mkResult None [] zeroStats) in
  r ← nextOf dOurs;
  q ← nextOf dTheirs;
  zip (zipFuel base ours theirs) max r.1 r.2 q.1 q.2 z.

Definition Merge `{Hasher} (rg : Registry) (base ours theirs : Namespace) (o : Options) : prog Result :=
  let max := if MaxConflicts o =? 0 then DefaultMaxConflicts else MaxConflicts o in
  if bool_decide (NRoot base = NRoot theirs) then mret (mkResult (Some ours) [] zeroStats)
  else if bool_decide (NRoot base = NRoot ours) then mret (mkResult (Some theirs) [] zeroStats)
  else if bool_decide (NRoot ours = NRoot theirs) && negb (AnyAccumulates rg)
  then mret (mkResult (Some ours) [] zeroStats)
  else
    z ← zipped rg base ours theirs max;
    ne ← Object.Flush (zed z);
    let st := RStats (zres z) in
    mret (mkResult (Some ne.1) (Conflicts (zres z))
            (mkStats (SAdded st) (SRemoved st) (SModified st) (zlen (Conflicts (zres z))))).

(** ** The decision table *)

(** What becomes of a path: it is bound to [x], or it conflicts and ours is
    kept, or its model merges the two sides. *)
Inductive decision := Keep (x : option Ref) | Clash (k : Kind) | Ask (b o t : Ref).

(** The same change on both sides counts twice: a change within one model that accumulates. *)
Definition countsTwice (rg : Registry) (b : option Ref) (o : Ref) : bool :=
  match b with
  | None => false
  | Some b => (RefModel b =? RefModel o) &&
              match Resolve rg (RefModel o) (RFormat (RefRoot o)) with Ok m => Accumulates m | Err _ => false end
  end.

Definition mergeAt (rg : Registry) (b o t : option Ref) : decision :=
  if bool_decide (t = b) then Keep o
  else if bool_decide (o = b) then Keep t
  else match o, t with
       | None, None => Keep None
       | Some ro, Some rt =>
           if bool_decide (ro = rt) && negb (countsTwice rg b ro) then Keep o
           else match b with
                | None => Clash AddAdd
                | Some rb => if (RefModel rb =? RefModel ro) && (RefModel rt =? RefModel ro) then Ask rb ro rt
                             else Clash ModelChange
                end
       | _, _ => Clash DeleteEdit
       end.

(** A registry as [NewRegistry] makes them. *)
Definition reg_wf (rg : Registry) : Prop :=
  forall id m, models rg !! id = Some m -> MID m = id /\ 0 < id < two16 /\ 0 <= FormatVersion m < two16.

Definition root_typed (r : Root) : Prop :=
  0 <= RFormat r < two16 /\ 0 <= RDepth r < two8 /\ 0 <= RSize r < two64.

Lemma reg_wf_ok rg : reg_wf rg -> reg_ok rg.
Proof. intros H. unfold reg_ok. destruct (models rg !! 0) as [m|] eqn:E; [|done]. apply H in E. lia. Qed.

Section Merging.
Context `{HH : Hasher} (rg : Registry) (ours : Namespace) (σb σo σt : gmap bytes Ref) (v0 : view) (max : Z).
Hypothesis Hreg : reg ours = rg.
Hypothesis Hwf : reg_wf rg.
Hypothesis Hb : valid_map σb.
Hypothesis Ho : valid_map σo.
Hypothesis Ht : valid_map σt.
Hypothesis Hmax : 0 <= max.

Definition clash (p : bytes) (k : Kind) (mc : list MConflict) : Conflict :=
  mkConflict p k (default zeroRef (σb !! p)) (default zeroRef (σo !! p)) (default zeroRef (σt !! p)) mc.

(** The path [p] may end bound to [x], with the conflict [c] recorded. *)
Definition outcome (p : bytes) (x : option Ref) (c : option Conflict) : Prop :=
  match mergeAt rg (σb !! p) (σo !! p) (σt !! p) with
  | Keep y => x = y /\ c = None
  | Clash k => x = σo !! p /\ c = Some (clash p k [])
  | Ask b o t =>
      exists m r v1 v2, Resolve rg (RefModel t) (RFormat (RefRoot t)) = Ok m /\ v0 ⊆ v1 /\
        steps (MMerge m (RefRoot b) (RefRoot o) (RefRoot t)) v1 r v2 /\
        (x, c) = if bool_decide (MConflicts r <> []) then (σo !! p, Some (clash p BothChanged (MConflicts r)))
                 else (Some (mkRef (MID m) 0 (MRoot r)), None)
  end.

(** What the merge needs at [p]: the model of an object it takes from theirs is
    registered, and a model it asks answers, on any store that holds at
    least what this one does. *)
Definition ready (p : bytes) : Prop :=
  match mergeAt rg (σb !! p) (σo !! p) (σt !! p) with
  | Keep (Some r) => σo !! p = σb !! p -> is_ok (Resolve rg (RefModel r) (RFormat (RefRoot r))) = true
  | Keep None | Clash _ => True
  | Ask b o t =>
      is_ok (Resolve rg (RefModel b) (RFormat (RefRoot b))) = true /\
      is_ok (Resolve rg (RefModel o) (RFormat (RefRoot o))) = true /\
      exists m, Resolve rg (RefModel t) (RFormat (RefRoot t)) = Ok m /\
        forall v, v0 ⊆ v -> exists r v', steps (MMerge m (RefRoot b) (RefRoot o) (RefRoot t)) v r v' /\
          (MConflicts r = [] -> root_typed (MRoot r) /\ 0 < RFormat (MRoot r) <= FormatVersion m)
  end.

(** The zipper edits ours, and its editor has reached [σ]. *)
Definition zstate (z : zipper) (σ : gmap bytes Ref) : Prop :=
  zreg z = rg /\ en (zed z) = ours /\ em (pe (zed z)) = nm ours /\ editing (zed z) σo σ.

Lemma zedit_ok z σ st op : zstate z σ -> accepted rg op = true -> op_typed op ->
  exists z', zedit z st (doOp op) = mret z' /\ zstate z' (absOp rg op σ) /\ Conflicts (zres z') = Conflicts (zres z).
Proof.
  intros (Hz & Hen & Hem & Hed) Ha Hty. unfold zedit.
  destruct (doOp_ok op (zed z) σo σ Hed ltac:(rewrite Hen, Hreg; by apply reg_wf_ok) Hty) as (r & e' & -> & Hr & Hed' & En & Em & _).
  rewrite Hen, Hreg in *. rewrite Ha in Hr. destruct r as [[]|]; [|done]. eexists. split; [done|]. split; [|done].
  split_and!; [done|simpl; congruence..|done].
Qed.

Lemma put_ok z σ st p r : zstate z σ -> ValidPath p = Ok tt -> ref_ok r ->
  is_ok (Resolve rg (RefModel r) (RFormat (RefRoot r))) = true ->
  exists z', zedit z st (Object.Put p r) = mret z' /\ zstate z' (<[p := r]> σ) /\ Conflicts (zres z') = Conflicts (zres z).
Proof.
  intros Hz Hp (H1 & H2 & H3 & H4 & H5) Hr. assert (accepted rg (OpPut p r) = true) as Ha by (simpl; by rewrite Hp, H2, Hr).
  destruct (zedit_ok z σ st (OpPut p r) Hz Ha) as (z' & E & Hz' & Hc); [unfold op_typed, ref_typed, two8 in *; lia|].
  exists z'. unfold absOp in Hz'. rewrite Ha in Hz'. done.
Qed.

Lemma del_ok z σ st p : zstate z σ -> ValidPath p = Ok tt ->
  exists z', zedit z st (Object.Delete p) = mret z' /\ zstate z' (delete p σ) /\ Conflicts (zres z') = Conflicts (zres z).
Proof.
  intros Hz Hp. assert (accepted rg (OpDelete p) = true) as Ha by (simpl; by rewrite Hp).
  destruct (zedit_ok z σ st (OpDelete p) Hz Ha I) as (z' & E & Hz' & Hc).
  exists z'. unfold absOp in Hz'. rewrite Ha in Hz'. done.
Qed.

(** One path decided: from [z] at [σ] to [z'], with [p] bound as the table says. *)
Definition decides (p : bytes) (z z' : zipper) (σ : gmap bytes Ref) : Prop :=
  exists σ' c, zstate z' σ' /\ outcome p (σ' !! p) c /\ (forall q, q <> p -> σ' !! q = σ !! q) /\
    Conflicts (zres z') = Conflicts (zres z) ++ option_list c.

Lemma take_decides z σ p v : zstate z σ -> ready p -> σo !! p = σb !! p -> σt !! p <> σb !! p ->
  exists z', steps (take_ z (changeAt p (σb !! p) (σt !! p))) v z' v /\ decides p z z' σ /\
    Conflicts (zres z') = Conflicts (zres z).
Proof.
  intros Hz Hr Heq Hne. unfold ready, decides, outcome, mergeAt in *.
  rewrite (bool_decide_eq_false_2 (σt !! p = σb !! p)), (bool_decide_eq_true_2 (σo !! p = σb !! p)) in * by done.
  destruct (σt !! p) as [r|] eqn:Et.
  - destruct (Ht _ _ Et) as [Hp%ValidPath_spec Hrok]. specialize (Hr Heq).
    assert (exists st, take_ z (changeAt p (σb !! p) (Some r)) = zedit z st (Object.Put p r)) as (st & ->).
    { unfold take_. destruct (σb !! p); eexists; reflexivity. }
    destruct (put_ok z σ st p r Hz Hp Hrok Hr) as (z' & -> & Hz' & Hc). exists z'. split; [apply steps_ret|]. split; [|done].
    exists (<[p := r]> σ), None. rewrite lookup_insert_eq, app_nil_r. split_and!; try done.
    intros q Hq. by rewrite lookup_insert_ne.
  - destruct (σb !! p) as [rb|] eqn:Eb; [|done]. destruct (Hb _ _ Eb) as [Hp%ValidPath_spec _].
    unfold take_; simpl. set (st := mkStats _ _ _ _).
    destruct (del_ok z σ st p Hz Hp) as (z' & -> & Hz' & Hc). exists z'. split; [apply steps_ret|]. split; [|done].
    exists (delete p σ), None. rewrite lookup_delete_eq, app_nil_r. split_and!; try done.
    intros q Hq. by rewrite lookup_delete_ne.
Qed.
Lemma conflict_decides z σ p k o t mc : zstate z σ -> σ !! p = σo !! p ->
  Path o = p -> From o = default zeroRef (σb !! p) -> To o = default zeroRef (σo !! p) -> To t = default zeroRef (σt !! p) ->
  outcome p (σo !! p) (Some (clash p k mc)) -> decides p z (conflict z k o t mc) σ.
Proof.
  intros Hz Hp E1 E2 E3 E4 Hout. exists σ, (Some (clash p k mc)). split_and!; [done|by rewrite Hp|done|].
  simpl. unfold clash. by rewrite E1, E2, E3, E4.
Qed.

Lemma accumulates_twice p b ro : ref_ok ro -> accumulates rg (changeAt p b (Some ro)) = countsTwice rg b ro.
Proof.
  intros (H1 & _). unfold accumulates, countsTwice. destruct b as [rb|]; unfold changeAt; cbn [From To default]; unfold id.
  - by destruct (RefModel rb =? RefModel ro).
  - by rewrite (proj2 (Z.eqb_neq (RefModel zeroRef) (RefModel ro))) by (simpl; lia).
Qed.

(** The model is asked, and its answer taken. *)
Lemma ask_decides z σ p v rb ro rt :
  zstate z σ -> σ !! p = σo !! p -> v0 ⊆ v -> ready p ->
  σb !! p = Some rb -> σo !! p = Some ro -> σt !! p = Some rt -> mergeAt rg (Some rb) (Some ro) (Some rt) = Ask rb ro rt ->
  let resolve s := Resolve rg (RefModel s) (RFormat (RefRoot s)) in
  let o := changeAt p (Some rb) (Some ro) in
  let t := changeAt p (Some rb) (Some rt) in
  exists z' v', steps (_ ← pLift (resolve rb); _ ← pLift (resolve ro); m ← pLift (resolve rt);
    r ← MMerge m (RefRoot rb) (RefRoot ro) (RefRoot rt);
    if bool_decide (MConflicts r <> []) then mret (conflict z BothChanged o t (MConflicts r))
    else if (RFormat (MRoot r) =? 0) || (FormatVersion m <? RFormat (MRoot r))
    then pFail (EMsg "merge: a format the model does not write")
    else
      let st := RStats (zres z) in
      zedit z (mkStats (SAdded st) (SRemoved st) (SModified st + 1) (SConflicts st))
        (Object.Put p (mkRef (MID m) 0 (MRoot r)))) v z' v' /\ decides p z z' σ.
Proof.
  intros Hz Hp Hv Hr Eb Eo Et Hask. unfold ready in Hr. rewrite Eb, Eo, Et, Hask in Hr.
  destruct Hr as (R1 & R2 & m & R3 & Hans). cbv beta zeta. rewrite R3.
  destruct (Resolve rg (RefModel rb) _) as [m1|]; [|done]. destruct (Resolve rg (RefModel ro) _) as [m2|]; [|done].
  destruct (Hans v Hv) as (r & v' & Hst & Hty).
  assert (forall x c, (x, c) = (if bool_decide (MConflicts r <> []) then (σo !! p, Some (clash p BothChanged (MConflicts r)))
                 else (Some (mkRef (MID m) 0 (MRoot r)), None)) -> outcome p x c) as Hout.
  { intros x c E. unfold outcome. rewrite Eb, Eo, Et, Hask. exists m, r, v, v'. by rewrite Eo in E. }
  case_bool_decide as Hc.
  - exists (conflict z BothChanged (changeAt p (Some rb) (Some ro)) (changeAt p (Some rb) (Some rt)) (MConflicts r)), v'.
    split.
    + do 3 (eapply steps_bind; [apply steps_ret|]). eapply steps_bind; [exact Hst|]. rewrite bool_decide_eq_true_2 by done. apply steps_ret.
    + apply conflict_decides; [done|done|done|by rewrite Eb|by rewrite Eo|by rewrite Et|]. by apply Hout.
  - destruct (Hty Hc) as [(Hf & Hd & Hs) Hfmt].
    pose proof R3 as (Hm & _)%Resolve_ok. destruct (Hwf _ _ Hm) as (Hid & Hidr & Hver).
    destruct (Ht _ _ Et) as [Hpath%ValidPath_spec _].
    set (st := mkStats (SAdded (RStats (zres z))) (SRemoved (RStats (zres z))) (SModified (RStats (zres z)) + 1) (SConflicts (RStats (zres z)))).
    destruct (put_ok z σ st p (mkRef (MID m) 0 (MRoot r)) Hz Hpath) as (z' & E & Hz' & Hcs).
    { unfold ref_ok; simpl. lia. }
    { simpl. rewrite Hid. assert (Resolve rg (RefModel rt) (RFormat (MRoot r)) = Ok m) as ->; [|done].
      apply Resolve_ok. split_and!; [done|lia|lia]. }
    exists z', v'. split.
    + do 3 (eapply steps_bind; [apply steps_ret|]). eapply steps_bind; [exact Hst|].
      rewrite bool_decide_eq_false_2 by tauto. rewrite (proj2 (Z.eqb_neq _ _)), (proj2 (Z.ltb_ge _ _)) by lia. simpl.
      fold st. rewrite E. apply steps_ret.
    + exists (<[p := mkRef (MID m) 0 (MRoot r)]> σ), None. rewrite lookup_insert_eq, app_nil_r. split_and!; try done.
      * by apply Hout.
      * intros q Hq. by rewrite lookup_insert_ne.
Qed.

Lemma both_decides z σ p v :
  zstate z σ -> σ !! p = σo !! p -> v0 ⊆ v -> ready p -> σo !! p <> σb !! p -> σt !! p <> σb !! p ->
  exists z' v', steps (both z (changeAt p (σb !! p) (σo !! p)) (changeAt p (σb !! p) (σt !! p))) v z' v' /\ decides p z z' σ.
Proof.
  intros Hz Hp Hv Hr No Nt. pose proof Hz as (Hzr & _).
  assert (forall c, outcome p (σo !! p) c -> c = None -> decides p z z σ) as Hsame.
  { intros c Hc ->. exists σ, None. rewrite app_nil_r. split_and!; try done. by rewrite Hp. }
  assert (forall k, mergeAt rg (σb !! p) (σo !! p) (σt !! p) = Clash k ->
    decides p z (conflict z k (changeAt p (σb !! p) (σo !! p)) (changeAt p (σb !! p) (σt !! p)) []) σ) as Hclash.
  { intros k E. apply conflict_decides; try done. unfold outcome. by rewrite E. }
  assert (forall y, mergeAt rg (σb !! p) (σo !! p) (σt !! p) = Keep y -> y = σo !! p -> decides p z z σ) as Hkeep.
  { intros y E ->. apply (Hsame None); [|done]. unfold outcome. by rewrite E. }
  unfold both. rewrite Hzr. destruct (σo !! p) as [ro|] eqn:Eo, (σt !! p) as [rt|] eqn:Et.
  - destruct (Ho _ _ Eo) as [_ Hro]. rewrite accumulates_twice by done.
    assert (mergeAt rg (σb !! p) (Some ro) (Some rt) =
      if bool_decide (ro = rt) && negb (countsTwice rg (σb !! p) ro) then Keep (Some ro)
      else match σb !! p with
           | None => Clash AddAdd
           | Some rb => if (RefModel rb =? RefModel ro) && (RefModel rt =? RefModel ro) then Ask rb ro rt else Clash ModelChange
           end) as Hm.
    { unfold mergeAt. rewrite !bool_decide_eq_false_2 by done. done. }
    destruct (σb !! p) as [rb|] eqn:Eb; unfold changeAt; cbn [Object.Kind From To default Path]; unfold id;
      rewrite ?(bool_decide_eq_false_2 (Modified = Removed)), ?(bool_decide_eq_false_2 (Added = Removed)) by done;
      cbn [andb orb negb].
    + destruct (bool_decide (ro = rt) && negb (countsTwice rg (Some rb) ro)) eqn:Ek.
      { exists z, v. split; [apply steps_ret|]. by apply (Hkeep (Some ro)). }
      destruct (RefModel rb =? RefModel ro) eqn:E1, (RefModel rt =? RefModel ro) eqn:E2; cbn [andb orb negb] in *;
        rewrite ?(bool_decide_eq_false_2 (Modified = Added)) by done;
        try (eexists _, v; split; [apply steps_ret|by apply Hclash]).
      apply (ask_decides z σ p v rb ro rt); try done. by rewrite Eo.
    + destruct (bool_decide (ro = rt) && negb (countsTwice rg None ro)) eqn:Ek.
      { exists z, v. split; [apply steps_ret|]. by apply (Hkeep (Some ro)). }
      rewrite (bool_decide_eq_true_2 (Added = Added)) by done. eexists _, v. split; [apply steps_ret|by apply Hclash].
  - destruct (σb !! p) as [rb|] eqn:Eb; [|done]. simpl. eexists _, v. split; [apply steps_ret|]. apply Hclash.
    unfold mergeAt. by rewrite !bool_decide_eq_false_2.
  - destruct (σb !! p) as [rb|] eqn:Eb; [|done]. simpl. eexists _, v. split; [apply steps_ret|]. apply Hclash.
    unfold mergeAt. by rewrite !bool_decide_eq_false_2.
  - destruct (σb !! p) as [rb|] eqn:Eb; [|done]. simpl. exists z, v. split; [apply steps_ret|]. apply (Hkeep None); [|done].
    unfold mergeAt. by rewrite !bool_decide_eq_false_2.
Qed.
(** *** The loop *)

(** An iterator one change ahead: [c] is the next change and [d] has the rest. *)
Definition ahead (v : view) (c : option Object.Change) (d : Object.DiffIter) (τ : gmap bytes Ref) (paths : list bytes) : Prop :=
  match paths with
  | [] => c = None
  | p :: ps => c = Some (changeAt p (σb !! p) (τ !! p)) /\ changes_at (vget v) d σb τ ps
  end.

Lemma ahead_grows v v' c d τ paths : v ⊆ v' -> ahead v c d τ paths -> ahead v' c d τ paths.
Proof.
  intros Hv. destruct paths as [|p ps]; [done|]. intros [-> Hd]. split; [done|].
  eapply changes_at_more; [|exact Hd]. by apply more_view.
Qed.

Lemma nextOf_ahead v d τ paths : changes_at (vget v) d σb τ paths ->
  exists c d', steps (nextOf d) v (c, d') v /\ ahead v c d' τ paths.
Proof.
  intros Hd. apply Next_at in Hd. unfold Next in Hd. unfold nextOf. destruct paths as [|p ps].
  - destruct Hd as (d' & E). exists None, d'. split; [|done]. intros rt. simpl. by rewrite E.
  - destruct Hd as (d' & E & Hd' & _). eexists _, d'. split; [|by split]. intros rt. simpl. by rewrite E.
Qed.

Lemma outcome_path p x c : outcome p x (Some c) -> CPath c = p.
Proof.
  unfold outcome. destruct (mergeAt _ _ _ _); [by intros [_ ?]|by intros [_ [= ->]]|].
  intros (m & r & v1 & v2 & _ & _ & _ & E). case_bool_decide; [|done]. by injection E as _ ->.
Qed.

(** The loop has decided every path but [pt], which it has yet to see from theirs. *)
Definition decided (z : zipper) (σ : gmap bytes Ref) (pt : list bytes) : Prop :=
  zstate z σ /\ (forall p, p ∈ pt -> σ !! p = σo !! p) /\
  (forall p, p ∉ pt -> outcome p (σ !! p) (klookup CPath p (Conflicts (zres z)))) /\
  ksorted CPath (Conflicts (zres z)) /\ (forall c p, c ∈ Conflicts (zres z) -> p ∈ pt -> CPath c <b p).

Lemma decided_step z z' σ p pt : decided z σ (p :: pt) -> ksorted (fun p => p) (p :: pt) -> decides p z z' σ ->
  exists σ', decided z' σ' pt.
Proof.
  intros (Hz & Hpt & Hdone & Hsort & Hlt) [Hp Hs]%ksorted_cons (σ' & c & Hz' & Hout & Hq & Hc). exists σ'.
  rewrite Forall_forall in Hp. assert (p ∉ pt) as Hnin by (intros Hin; apply Hp in Hin; by apply blt_irrefl in Hin).
  assert (klookup CPath p (Conflicts (zres z)) = None) as Hfree.
  { apply klookup_None. apply Forall_forall. intros x Hx. apply blt_ne, Hlt; [done|left]. }
  assert (forall x, c = Some x -> CPath x = p) as Hcp by (intros x ->; by eapply outcome_path).
  split; [done|]. rewrite Hc. split_and!.
  - intros q Hqin. rewrite Hq; [apply Hpt; by right|]. by intros ->.
  - intros q Hqn. rewrite klookup_app. destruct (decide (q = p)) as [->|Hne].
    + rewrite Hfree. destruct c as [x|]; [|done]. simpl. rewrite klookup_cons, decide_True by auto. done.
    + rewrite Hq by done. specialize (Hdone q ltac:(set_solver)). destruct (klookup CPath q (Conflicts (zres z))); [done|].
      destruct c as [x|]; [|done]. simpl. rewrite klookup_cons, decide_False; [done|]. rewrite (Hcp x eq_refl). done.
  - apply ksorted_app. split_and!; [|done|destruct c; [apply ksorted_cons; split; constructor|constructor]].
    intros x y Hx Hy. destruct c as [c|]; [|by apply elem_of_nil in Hy]. apply list_elem_of_singleton in Hy as ->.
    rewrite (Hcp c eq_refl). apply Hlt; [done|left].
  - intros x q [Hx|Hx]%elem_of_app Hqin; [apply Hlt; [done|by right]|].
    destruct c as [c|]; [|by apply elem_of_nil in Hx]. apply list_elem_of_singleton in Hx as ->. rewrite (Hcp c eq_refl). by apply Hp.
Qed.

(** How the loop ends: every path decided within the limit, or too many conflicts. *)
Definition zip_post (p : prog zipper) (v : view) : Prop :=
  (exists z σ v', steps p v z v' /\ v ⊆ v' /\ decided z σ [] /\ zlen (Conflicts (zres z)) <= max) \/
  (exists v' cs, (forall rt, exec v rt p = (Err MergeTooManyConflicts, v', rt)) /\ max < zlen cs /\ ksorted CPath cs /\
     forall c, c ∈ cs -> exists x, outcome (CPath c) x (Some c)).

Lemma zip_post_bind {A} (q : prog A) (f : A -> prog zipper) v a v1 :
  steps q v a v1 -> zip_post (f a) v1 -> zip_post (q ≫= f) v.
Proof.
  intros Hq [(z & σ & v' & Hst & Hv & Hz & Hc)|(v' & cs & He & Hcs)].
  - left. exists z, σ, v'. split_and!; [by eapply steps_bind| |done|done].
    etrans; [|exact Hv]. pose proof (exec_grows q v zero_hash) as Hg. by rewrite Hq in Hg.
  - right. exists v', cs. split; [|done]. intros rt. by rewrite exec_bind, Hq.
Qed.

Lemma steps_grows {A} (q : prog A) v a v' : steps q v a v' -> v ⊆ v'.
Proof. intros Hq. pose proof (exec_grows q v zero_hash) as Hg. by rewrite Hq in Hg. Qed.

Lemma decided_conflicts z σ pt c : decided z σ pt -> c ∈ Conflicts (zres z) -> exists x, outcome (CPath c) x (Some c).
Proof.
  intros (_ & _ & Hdone & Hsort & Hlt) Hc. exists (σ !! CPath c). rewrite <-(klookup_sorted CPath _ c Hsort Hc).
  apply Hdone. intros Hin. specialize (Hlt c _ Hc Hin). by apply blt_irrefl in Hlt.
Qed.

(** What holds at the top of the loop: [po] and [pt] are the paths each side has
    yet to report, and a path both changed is ahead on both sides or on neither. *)
Definition loop_inv (v : view) (po pt : list bytes) (co : option Object.Change) (dO : Object.DiffIter)
    (ct : option Object.Change) (dT : Object.DiffIter) (z : zipper) (σ : gmap bytes Ref) : Prop :=
  v0 ⊆ v /\ ahead v co dO σo po /\ ahead v ct dT σt pt /\
  ksorted (fun p => p) po /\ ksorted (fun p => p) pt /\
  Forall (fun p => σb !! p <> σo !! p) po /\ Forall (fun p => σb !! p <> σt !! p) pt /\
  (forall p, p ∈ pt -> σb !! p <> σo !! p -> p ∈ po) /\
  decided z σ pt /\ zlen (Conflicts (zres z)) <= max.

(** The rest of the loop does its work. *)
Definition loop_ok (fuel : nat) : Prop := forall po pt co dO ct dT z σ v,
  (length po + length pt < fuel)%nat -> loop_inv v po pt co dO ct dT z σ -> zip_post (zip fuel max co dO ct dT z) v.

Section Steps.
Context (fuel : nat) (IH : loop_ok fuel) (Hready : forall p, ready p).

Lemma ours_step o po pt co dO ct dT z σ v :
  (length po + length pt < fuel)%nat -> loop_inv v (o :: po) pt co dO ct dT z σ -> o ∉ pt ->
  zip_post (r ← nextOf dO; zip fuel max r.1 r.2 ct dT z) v.
Proof.
  intros Hf (Hv & [_ Hd] & Hat & Hso & Hst & Hfo & Hft & Hin & Hdec & Hlen) Hnin.
  destruct (nextOf_ahead _ _ _ _ Hd) as (c & d' & Hs & Ha). eapply zip_post_bind; [exact Hs|].
  apply Forall_cons in Hfo as [_ Hfo]. apply ksorted_cons in Hso as [_ Hso]. apply (IH po pt _ _ _ _ z σ v); [done|].
  split_and!; try done. intros p Hp Hne. specialize (Hin p Hp Hne). apply elem_of_cons in Hin as [->|Hin]; done.
Qed.

Lemma theirs_step t po pt co dO ct dT z σ v :
  (length po + length pt < fuel)%nat -> loop_inv v po (t :: pt) co dO ct dT z σ -> t ∉ po ->
  zip_post (z ← take_ z (changeAt t (σb !! t) (σt !! t)); r ← nextOf dT; zip fuel max co dO r.1 r.2 z) v.
Proof.
  intros Hf (Hv & Hao & [_ Hd] & Hso & Hst & Hfo & Hft & Hin & Hdec & Hlen) Hnin. apply Forall_cons in Hft as [Hft0 Hft].
  destruct (take_decides z σ t v) as (z' & Hs & Hdc & Hcs); [apply Hdec|apply Hready| |done|].
  { destruct (decide (σo !! t = σb !! t)); [done|]. exfalso. apply Hnin, Hin; [left|congruence]. }
  eapply zip_post_bind; [exact Hs|]. destruct (decided_step _ _ _ _ _ Hdec Hst Hdc) as [σ' Hdec'].
  destruct (nextOf_ahead _ _ _ _ Hd) as (c & d' & Hs2 & Ha). eapply zip_post_bind; [exact Hs2|].
  apply ksorted_cons in Hst as [_ Hst]. apply (IH po pt _ _ _ _ z' σ' v); [done|].
  split_and!; try done; [|by rewrite Hcs]. intros p Hp. apply Hin. by right.
Qed.

Lemma both_step p po pt co dO ct dT z σ v :
  (length po + length pt < fuel)%nat -> loop_inv v (p :: po) (p :: pt) co dO ct dT z σ ->
  zip_post (z ← both z (changeAt p (σb !! p) (σo !! p)) (changeAt p (σb !! p) (σt !! p));
            if max <? zlen (Conflicts (zres z)) then pFail MergeTooManyConflicts
            else r ← nextOf dO; q ← nextOf dT; zip fuel max r.1 r.2 q.1 q.2 z) v.
Proof.
  intros Hf (Hv & [_ Hdo] & [_ Hdt] & Hso & Hst & Hfo & Hft & Hin & Hdec & Hlen).
  apply Forall_cons in Hft as [Hft0 Hft]. apply Forall_cons in Hfo as [Hfo0 Hfo].
  destruct (both_decides z σ p v) as (z' & v' & Hs & Hdc); [apply Hdec|apply Hdec; left|done|apply Hready|congruence..|].
  eapply zip_post_bind; [exact Hs|]. destruct (decided_step _ _ _ _ _ Hdec Hst Hdc) as [σ' Hdec'].
  pose proof (steps_grows _ _ _ _ Hs) as Hg. destruct (Z.ltb_spec max (zlen (Conflicts (zres z')))) as [Hbig|Hsmall].
  - right. exists v', (Conflicts (zres z')). split_and!; [by intros rt|done|apply Hdec'|].
    intros c Hc. by apply (decided_conflicts z' σ' pt).
  - pose proof (more_view _ _ Hg) as Hm. apply (changes_at_more _ _ _ _ _ _ Hm) in Hdo, Hdt.
    destruct (nextOf_ahead _ _ _ _ Hdo) as (c & d' & Hs2 & Ha). eapply zip_post_bind; [exact Hs2|].
    destruct (nextOf_ahead _ _ _ _ Hdt) as (c2 & d2 & Hs3 & Ha2). eapply zip_post_bind; [exact Hs3|].
    apply ksorted_cons in Hst as [Hlt Hst]. apply ksorted_cons in Hso as [_ Hso].
    apply (IH po pt _ _ _ _ z' σ' v'); [done|]. split_and!; try done; [by etrans|].
    intros q Hq Hne. specialize (Hin q ltac:(by right) Hne). apply elem_of_cons in Hin as [->|Hin]; [|done].
    rewrite Forall_forall in Hlt. specialize (Hlt p Hq). by apply blt_irrefl in Hlt.
Qed.
End Steps.

Lemma sorted_head_nin p q l : ksorted (fun p : bytes => p) (q :: l) -> p <b q -> p ∉ q :: l.
Proof.
  intros [Hl _]%ksorted_cons Hlt. rewrite elem_of_cons. intros [->|Hin]; [by apply blt_irrefl in Hlt|].
  rewrite Forall_forall in Hl. specialize (Hl p Hin). simpl in Hl. border.
Qed.

Lemma zip_ok : (forall p, ready p) -> forall fuel, loop_ok fuel.
Proof.
  intros Hready. induction fuel as [|fuel IH]; intros po pt co dO ct dT z σ v Hf Hinv; [lia|]. cbn [zip].
  pose proof Hinv as (_ & Hao & Hat & Hso & Hst & _ & _ & _ & Hdec & Hlen).
  destruct po as [|o po], pt as [|t pt]; simpl in Hao, Hat.
  - subst. left. exists z, σ, v. split_and!; [apply steps_ret|done|done|done].
  - subst co. destruct Hat as [-> _]. refine (theirs_step fuel IH Hready t [] pt None dO _ dT z σ v _ Hinv _); [simpl in *; lia|].
    by apply not_elem_of_nil.
  - subst ct. destruct Hao as [-> _]. refine (ours_step fuel IH o po [] _ dO None dT z σ v _ Hinv _); [simpl in *; lia|].
    by apply not_elem_of_nil.
  - destruct Hao as [-> _], Hat as [-> _]. cbn [Path changeAt].
    destruct (bltb_spec o t) as [Hot|Hot]; [|destruct (bltb_spec t o) as [Hto|Hto]].
    + refine (ours_step fuel IH o po (t :: pt) _ dO _ dT z σ v _ Hinv _); [simpl in *; lia|by apply sorted_head_nin].
    + refine (theirs_step fuel IH Hready t (o :: po) pt _ dO _ dT z σ v _ Hinv _); [simpl in *; lia|by apply sorted_head_nin].
    + assert (o = t) as -> by (destruct (blt_trichotomy o t) as [|[|]]; done).
      refine (both_step fuel IH Hready t po pt _ dO _ dT z σ v _ Hinv). simpl in *; lia.
Qed.
End Merging.

(** ** The merge *)

Lemma holds_root `{Hasher} rd a b σ τ : holds rd a σ -> holds rd b τ -> NRoot a = NRoot b ->
  InlineLimit (cfg (nm b)) = InlineLimit (cfg (nm a)) -> σ = τ.
Proof.
  intros Ha Hb Hroot Hlim. destruct (holds_entries _ _ _ Ha) as (x & Hcx & Hx). destruct (holds_entries _ _ _ Hb) as (y & Hcy & Hy).
  destruct (canonical_map_ok _ _ _ Hcx) as (_ & n & _ & Hn & _ & <- & _).
  destruct (canonical_map_ok _ _ _ Hcy) as (_ & n' & _ & Hn' & _ & Ey & _).
  unfold NRoot in Hroot. rewrite Hlim, <-Hroot, Hn in Hn'. injection Hn' as <-. rewrite Hlim in Ey. rewrite Ey in Hx.
  apply map_eq. intros k. destruct Hx as (_ & Hs & Hx). destruct Hy as (_ & Ht & Hy).
  apply binding_inj; [done|done|]. by rewrite <-Hx, <-Hy.
Qed.

Lemma no_accumulator rg b o : AnyAccumulates rg = false -> countsTwice rg b o = false.
Proof.
  intros Ha. unfold countsTwice. destruct b as [b|]; [|done]. destruct (Resolve _ _ _) as [m|] eqn:E; [|by rewrite andb_false_r].
  apply Resolve_ok in E as (E & _). destruct (Accumulates m) eqn:Em; [|by rewrite andb_false_r].
  apply not_true_iff_false in Ha. exfalso. apply Ha. unfold AnyAccumulates. apply existsb_exists.
  exists (RefModel o, m). split; [|done]. by apply list_elem_of_In, elem_of_map_to_list.
Qed.

(** The limit a merge runs with. *)
Definition limitOf (o : Options) : Z := if MaxConflicts o =? 0 then DefaultMaxConflicts else MaxConflicts o.

Section Spec.
Context `{HH : Hasher} (rg : Registry) (base ours theirs : Namespace) (σb σo σt : gmap bytes Ref).

(** Three namespaces of one repository: the same configuration and registry. *)
Definition siblings : Prop :=
  reg ours = rg /\ reg_wf rg /\ InlineLimit (cfg (nm ours)) = InlineLimit (cfg (nm base)) /\
  InlineLimit (cfg (nm theirs)) = InlineLimit (cfg (nm base)).

(** What a merge that succeeds makes: a namespace, and conflicts in path order,
    each path as the table says. *)
Definition merged_ok (v0 v : view) (r : Result) (limit : Z) : Prop :=
  exists n σm, Merged r = Some n /\ holds (vget v) n σm /\ ksorted CPath (Conflicts r) /\
    zlen (Conflicts r) <= limit /\ SConflicts (RStats r) = zlen (Conflicts r) /\
    forall p, outcome rg σb σo σt v0 p (σm !! p) (klookup CPath p (Conflicts r)).

Definition too_many (v0 : view) (limit : Z) : Prop :=
  exists cs, limit < zlen cs /\ ksorted CPath cs /\ forall c, c ∈ cs -> exists x, outcome rg σb σo σt v0 (CPath c) x (Some c).

Lemma zipped_ok v max :
  holds (vget v) base σb -> holds (vget v) ours σo -> holds (vget v) theirs σt -> siblings -> 0 <= max ->
  (forall p, ready rg σb σo σt v p) ->
  zip_post rg ours σb σo σt v max (zipped rg base ours theirs max) v.
Proof.
  intros Hb Ho Ht (Hreg & Hwf & L1 & L2) Hmax Hready.
  pose proof Hb as (_ & _ & Vb & _). pose proof Ho as (_ & _ & Vo & _). pose proof Ht as (_ & _ & Vt & _).
  destruct (Diff_holds _ base ours σb σo Hb Ho L1) as (dO & po & Ed & _ & Hco & Hso & Hpo & Lo).
  destruct (Diff_holds _ base theirs σb σt Hb Ht L2) as (dT & pt & Ed2 & _ & Hct & Hst & Hpt & Lt).
  assert (forall x y : Namespace, reads_only (Object.Diff x y)) as Hreads.
  { intros x y. apply reads_bind; [|done]. unfold ProllyDiff.Diff. case_bool_decide; [done|].
    apply reads_bind; [apply seek_reads|]. intros. apply reads_bind; [apply seek_reads|done]. }
  unfold zipped. eapply zip_post_bind; [by apply steps_reads|]. eapply zip_post_bind; [by apply steps_reads|].
  destruct (nextOf_ahead _ _ _ _ _ Hco) as (co & dO' & Hs1 & Ha1). eapply zip_post_bind; [exact Hs1|].
  destruct (nextOf_ahead _ _ _ _ _ Hct) as (ct & dT' & Hs2 & Ha2). eapply zip_post_bind; [exact Hs2|].
  refine (zip_ok rg ours σb σo σt v max Hreg Hwf Vb Vo Vt Hmax Hready (zipFuel base ours theirs) po pt _ _ _ _ _ σo v _ _).
  { unfold zipFuel. lia. }
  split_and!; try done; [apply Forall_forall; intros p; apply Hpo|apply Forall_forall; intros p; apply Hpt|by intros p _; apply Hpo|].
  split_and!; try done.
  - split_and!; try done. by eapply NewEditor_editing.
  - intros p Hp. assert (σt !! p = σb !! p) as Hsame.
    { destruct (decide (σb !! p = σt !! p)); [done|]. by rewrite <-Hpt in *. }
    unfold outcome, mergeAt. by rewrite bool_decide_eq_true_2.
  - constructor.
  - by intros c p ?%elem_of_nil.
Qed.

Lemma Merge_ok v o :
  holds (vget v) base σb -> holds (vget v) ours σo -> holds (vget v) theirs σt -> siblings -> 0 <= limitOf o ->
  (forall p, ready rg σb σo σt v p) ->
  (forall z v1, steps (zipped rg base ours theirs (limitOf o)) v z v1 -> flush_room v1 (zed z)) ->
  (exists r v', steps (Merge rg base ours theirs o) v r v' /\ merged_ok v v' r (limitOf o)) \/
  (exists v', (forall rt, exec v rt (Merge rg base ours theirs o) = (Err MergeTooManyConflicts, v', rt)) /\ too_many v (limitOf o)).
Proof.
  intros Hb Ho Ht Hsib Hmax Hready Hroom. pose proof Hsib as (_ & _ & L1 & L2). unfold Merge.
  assert (forall n σm, holds (vget v) n σm -> (forall p, outcome rg σb σo σt v p (σm !! p) None) ->
    merged_ok v v (mkResult (Some n) [] zeroStats) (limitOf o)) as Hfast.
  { intros n σm Hn Hout. exists n, σm. split_and!; try done. constructor. }
  case_bool_decide as R1; [|case_bool_decide as R2; [|destruct (_ && _) eqn:R3]].
  - left. eexists _, v. split; [apply steps_ret|]. apply (Hfast ours σo Ho). intros p.
    rewrite (holds_root _ base theirs σb σt Hb Ht R1 L2) in *. unfold outcome, mergeAt. by rewrite bool_decide_eq_true_2.
  - left. eexists _, v. split; [apply steps_ret|]. apply (Hfast theirs σt Ht). intros p.
    rewrite (holds_root _ base ours σb σo Hb Ho R2 L1) in *. unfold outcome, mergeAt.
    case_bool_decide as E; [by rewrite E|]. by rewrite bool_decide_eq_true_2.
  - left. eexists _, v. split; [apply steps_ret|]. apply (Hfast ours σo Ho). intros p.
    apply andb_true_iff in R3 as [R3%bool_decide_eq_true Hacc%negb_true_iff].
    rewrite (holds_root _ ours theirs σo σt Ho Ht R3 ltac:(congruence)) in *. unfold outcome, mergeAt.
    case_bool_decide; [done|]. destruct (σt !! p) as [r|]; [|done].
    by rewrite (bool_decide_eq_true_2 (r = r)), no_accumulator by done.
  - destruct (zipped_ok v (limitOf o) Hb Ho Ht Hsib Hmax Hready) as [(z & σm & v1 & Hst & Hv & Hdec & Hlen)|(v' & cs & He & Hcs)].
    + left. pose proof Hdec as ((Hzr & Hen & Hem & Hed) & _ & Hout & Hsort & _).
      destruct (Flush_holds v1 (zed z) σo σm) as (n' & v2 & Hf & Hsub & Hn' & _); [|by rewrite Hem, Hen|done|by apply Hroom|].
      { rewrite Hen. eapply holds_more; [|exact Ho]. by apply more_view. }
      eexists _, v2. split; [eapply steps_bind; [exact Hst|]; eapply steps_bind; [exact Hf|]; apply steps_ret|].
      exists n', σm. simpl. split_and!; try done. intros p. apply Hout. by apply not_elem_of_nil.
    + right. exists v'. split; [|by exists cs]. intros rt. by rewrite exec_bind, He.
Qed.
End Spec.

Section Stores.
Context `{HH : Hasher} {S : Type} `{!ChunkStore S} `{!ChunkStoreOk S}.

(** C4. A merge follows the decision table, path by path. For three namespaces of
    one repository, on any store that keeps the chunk store's contract,
    [Merge] either returns a namespace and conflicts, within the limit and in
    path order, such that every path is bound and conflicts as the table
    says: a path only one side changed is that side's, one both changed
    alike is kept once (unless its model counts it twice), a deletion against
    an edit, two adds and a change of model conflict with ours kept, and the
    rest is the model's answer, its merged object or its conflicts; or it
    returns [ErrTooManyConflicts] and more paths than the limit do conflict.
    It leaves the root as it was, and its loop always ends. *)
Theorem merge_follows_the_table (s : S) rg base ours theirs σb σo σt o :
  cs_ok s -> holds (cs_get s) base σb -> holds (cs_get s) ours σo -> holds (cs_get s) theirs σt ->
  siblings rg base ours theirs -> 0 <= limitOf o -> (forall p, ready rg σb σo σt (cs_view s) p) ->
  (forall z v1, steps (zipped rg base ours theirs (limitOf o)) (cs_view s) z v1 -> flush_room v1 (zed z)) ->
  exists s', cs_ok s' /\ cs_rootof s' = cs_rootof s /\
    ((exists r, run (Merge rg base ours theirs o) s = (Ok r, s') /\
        merged_ok rg σb σo σt (cs_view s) (cs_view s') r (limitOf o)) \/
     (run (Merge rg base ours theirs o) s = (Err MergeTooManyConflicts, s') /\
        too_many rg σb σo σt (cs_view s) (limitOf o))).
Proof.
  intros Hs Hb Ho Ht Hsib Hmax Hready Hroom. rewrite get_view in * by done.
  destruct (run_view (Merge rg base ours theirs o) s Hs) as (s' & Hrun & Hs' & Hv & Hro). exists s'. split; [done|].
  destruct (Merge_ok rg base ours theirs σb σo σt (cs_view s) o Hb Ho Ht Hsib Hmax Hready Hroom) as [(r & v' & Hst & Hm)|(v' & He & Hm)].
  - rewrite Hst in *. simpl in *. split; [done|]. left. exists r. by rewrite Hv.
  - rewrite He in *. simpl in *. split; [done|]. by right.
Qed.
End Stores.

(** ** Examples: two sides add different objects at one path *)

Section Example.
#[local] Existing Instance toy_hasher.

Definition exRef2 : Ref := mkRef 1 0 (mkRoot (Sum (str "other")) 5 0 1).
Definition exEntry2 : entry := leafEntry exPath (Encode exRef2).

Definition mergeStore : Memstore.Store :=
  (run (_ ← pPut (encode (mkNode 0 [exEntry])); pPut (encode (mkNode 0 [exEntry2]))) exStore).2.

Lemma mergeStore_ok : cs_ok mergeStore.
Proof.
  destruct (run_view (_ ← pPut (encode (mkNode 0 [exEntry])); pPut (encode (mkNode 0 [exEntry2]))) exStore exStore_ok) as (s' & E & Hs & _).
  unfold mergeStore. rewrite E. exact Hs.
Qed.

Lemma merge_base : holds (cs_get mergeStore) (exNs []) ∅.
Proof. apply exNs_holds. vm_compute. reflexivity. Qed.

Lemma merge_ours : holds (cs_get mergeStore) (exNs [exEntry]) {[exPath := exRef]}.
Proof. apply exNs_one_holds; [exact exPath_ok|exact exRef_ok|vm_compute; reflexivity..]. Qed.

Lemma merge_theirs : holds (cs_get mergeStore) (exNs [exEntry2]) {[exPath := exRef2]}.
Proof.
  apply exNs_one_holds; [exact exPath_ok| |vm_compute; reflexivity..].
  unfold ref_ok. simpl. unfold two8, two16, two64. lia.
Qed.

Lemma exReg_wf : reg_wf exReg.
Proof. intros id m Hm. unfold exReg in Hm. cbn [models] in Hm. apply lookup_singleton_Some in Hm as [<- <-]. simpl. unfold two16. lia. Qed.

Lemma merge_siblings : siblings exReg (exNs []) (exNs [exEntry]) (exNs [exEntry2]).
Proof. split; [reflexivity|]. split; [exact exReg_wf|]. split; reflexivity. Qed.

Lemma merge_ready p : ready exReg ∅ {[exPath := exRef]} {[exPath := exRef2]} (cs_view mergeStore) p.
Proof.
  unfold ready. rewrite lookup_empty. destruct (decide (exPath = p)) as [<-|Hp].
  - rewrite !lookup_singleton_eq. exact I.
  - rewrite !lookup_singleton_ne by done. exact I.
Qed.

Definition exConflict : Conflict := mkConflict exPath AddAdd zeroRef exRef exRef2 [].

Definition exOptions : Options := mkOptions 0.

(** The merge's first phase, run: the editor it leaves can flush, and the conflict is recorded. *)
Lemma merge_room z v1 :
  steps (zipped exReg (exNs []) (exNs [exEntry]) (exNs [exEntry2]) (limitOf exOptions)) (cs_view mergeStore) z v1 ->
  flush_room v1 (zed z).
Proof.
  intros Hst. apply flush_roomb_true. specialize (Hst zero_hash).
  assert (match exec (cs_view mergeStore) zero_hash
      (zipped exReg (exNs []) (exNs [exEntry]) (exNs [exEntry2]) (limitOf exOptions)) with
      | (Ok z, v1, _) => flush_roomb v1 (zed z) | _ => false end = true) as E by (vm_compute; reflexivity).
  by rewrite Hst in E.
Qed.

Lemma merge_follows_the_table_witness :
  exists s' : Memstore.Store, cs_ok s' /\ cs_rootof s' = cs_rootof mergeStore /\
    ((exists r, run (Merge exReg (exNs []) (exNs [exEntry]) (exNs [exEntry2]) exOptions) mergeStore = (Ok r, s') /\
        merged_ok exReg ∅ {[exPath := exRef]} {[exPath := exRef2]} (cs_view mergeStore) (cs_view s') r 100000) \/
     (run (Merge exReg (exNs []) (exNs [exEntry]) (exNs [exEntry2]) exOptions) mergeStore = (Err MergeTooManyConflicts, s') /\
        too_many exReg ∅ {[exPath := exRef]} {[exPath := exRef2]} (cs_view mergeStore) 100000)).
Proof.
  refine (merge_follows_the_table mergeStore exReg (exNs []) (exNs [exEntry]) (exNs [exEntry2]) ∅ {[exPath := exRef]} {[exPath := exRef2]}
           exOptions mergeStore_ok merge_base merge_ours merge_theirs merge_siblings _ merge_ready merge_room).
  vm_compute. discriminate.
Defined.

(** Here the outcome is a conflict: ours is kept. *)
Example merge_example : exists r s', run (Merge exReg (exNs []) (exNs [exEntry]) (exNs [exEntry2]) exOptions) mergeStore = (Ok r, s') /\
  map CPath (Conflicts r) = [exPath] /\ map CKind (Conflicts r) = [AddAdd] /\ (NRoot <$> Merged r) = Some (NRoot (exNs [exEntry])).
Proof.
  destruct (run (Merge exReg (exNs []) (exNs [exEntry]) (exNs [exEntry2]) exOptions) mergeStore) as [rr s'] eqn:E.
  assert (match (run (Merge exReg (exNs []) (exNs [exEntry]) (exNs [exEntry2]) exOptions) mergeStore).1 with
    | Ok r => bool_decide (map CPath (Conflicts r) = [exPath]) && bool_decide (map CKind (Conflicts r) = [AddAdd]) &&
              bool_decide ((NRoot <$> Merged r) = Some (NRoot (exNs [exEntry])))
    | Err _ => false end = true) as H by (vm_compute; reflexivity).
  rewrite E in H. simpl in H. destruct rr as [r|]; [|done]. exists r, s'.
  apply andb_true_iff in H as [[H1%bool_decide_eq_true H2%bool_decide_eq_true]%andb_true_iff H3%bool_decide_eq_true].
  split; [exact eq_refl|]. split; [exact H1|]. split; [exact H2|exact H3].
Qed.
End Example.
