(* ===== verification/MapObject.v ===== *)
(** * model/mapobject: models whose object is one prolly map

    What a map-shaped model needs beside the port: opening the map under the
    root's claims, validating every record, walking the map, a diff per key and
    a three-way merge per key. The theorem is that the merge is the three-way
    merge of the records, key by key, and asks the model exactly where both
    sides changed a key. *)

From S2P Require Import Prelude Hash ChunkStore Prog Model ProllyNode Prolly ProllyDiff ProllyDraw ProllyFlush ProllyMerge ProllyCanon ProllyEditor ProllyWalk.

(** [Spec]: a model's name, format, map configuration and check of a record. *)
Record Spec := mkSpec { SpName : bytes; SpFormat : Z; SpConfig : Config; SpCheck : bytes -> bytes -> res unit }.

(** [Resolver]: the value, whether to store it, and a reason, empty for none. *)
Definition Resolver : Type := bytes -> Change -> Change -> bytes * bool * bytes.

(** A conflict of a [Decision]; a nil location is [None]. *)
Record DConflict := mkDConflict { DLocation : option bytes; DReason : bytes }.

Record Decision := mkDecision { DValue : bytes; DPut : bool; DConflicts : list DConflict }.

(** [Decider]; it may use the store. *)
Definition Decider : Type := bytes -> Change -> Change -> prog Decision.

(** ** Opening, validating, walking *)

Definition RootOf (s : Spec) (m : Map) : Model.Root := mkRoot (root m) (mcount m) 0 (SpFormat s).

Definition claims (s : Spec) (r : Model.Root) : res unit :=
  if negb (RFormat r =? SpFormat s) then Err ModelUnknown
  else if negb (RDepth r =? 0) then Err ChunkCorrupt
  else Ok tt.

Definition Open (s : Spec) (r : Model.Root) : prog Map :=
  _ ← pLift (claims s r);
  m ← Prolly.Open (SpConfig s) (RHash r);
  if negb (mcount m =? RSize r) then pFail ChunkCorrupt else mret m.

(** The loop of [Validate]: the records in key order, each handed to [f]. *)
Fixpoint eachRecord (fuel : nat) (rd : creader) (m : Map) (f : bytes -> bytes -> res unit) (it : Iter) : res unit :=
  match fuel with
  | O => Err (EMsg "no fuel")
  | S fuel =>
      match Prolly.Next rd m it with
      | Err e => Err e
      | Ok (None, _) => Ok tt
      | Ok (Some (k, v), it) => _ ← f k v; eachRecord fuel rd m f it
      end
  end.

(** [Validate] opens the map on a store that refuses every Put: it only reads. *)
Definition Validate (s : Spec) (r : Model.Root) (rd : creader) : res unit :=
  m ← interp rd (Open s r);
  it ← interp rd (IterRange m [] None);
  eachRecord (S (Z.to_nat (mcount m))) rd m (SpCheck s) it.

Definition Walk {St} (s : Spec) (r : Model.Root) (rd : creader) (visit : visitor St) (each : option (bytes -> bytes -> M St unit)) : M St unit :=
  _ ← liftR (claims s r);
  ProllyWalk.Walk rd (SpConfig s) (RHash r) visit (Some (default (fun _ _ => mret tt) each)).

(** ** Diff *)

Definition kinds (k : ProllyDiff.ChangeKind) : Model.ChangeKind :=
  match k with Added => MAdded | Removed => MRemoved | Modified => MModified end.

(** [diffIter.Next] *)
Definition diffNext (rd : creader) (d : DiffIter) : res (option MChange) * DiffIter :=
  match DNext rd d with
  | Err e => (Err e, d)
  | Ok (None, d) => (Ok None, d)
  | Ok (Some c, d) => (Ok (Some (mkMChange (kinds (Kind c)) (Key c))), d)
  end.

Definition Diff (s : Spec) (from to : Model.Root) (rd : creader) : res MDiffIter :=
  fm ← interp rd (Open s from);
  tm ← interp rd (Open s to);
  d ← interp rd (ProllyDiff.Diff fm tm);
  Ok (mkMDiffIter DiffIter d (diffNext rd)).

(** ** The merge *)

(** [put]: a record the model has checked. *)
Definition put (s : Spec) (k v : bytes) (ed : Editor) : res unit * Editor :=
  match SpCheck s k v with
  | Err e => (Err e, ed)
  | Ok _ => Prolly.Put k v ed
  end.

(** [apply]: theirs' change of a key. *)
Definition apply (s : Spec) (c : Change) (ed : Editor) : res unit * Editor :=
  if bool_decide (Kind c = Removed) then Prolly.Delete (Key c) ed else put s (Key c) (default [] (To c)) ed.

Definition pEdit (x : res unit * Editor) : prog Editor :=
  match x with (Err e, _) => pFail e | (Ok _, ed) => mret ed end.

Definition nextChange (d : DiffIter) : prog (option Change * DiffIter) := pRead (fun rd => DNext rd d).

(** A decision's conflicts, at the key where it located none. *)
Definition locate (k : bytes) (c : DConflict) : MConflict := mkMConflict (default k (DLocation c)) (DReason c).

(** The loop of [MergeWith]: every round takes a change of one side or of both. *)
Fixpoint mergeLoop (fuel : nat) (s : Spec) (decide : Decider) (co : option Change) (dOurs : DiffIter)
    (ct : option Change) (dTheirs : DiffIter) (ed : Editor) (conflicts : list MConflict) : prog (Editor * list MConflict) :=
  match fuel with
  | O => pFail (EMsg "no fuel")
  | S fuel =>
      let ours := r ← nextChange dOurs; mergeLoop fuel s decide r.1 r.2 ct dTheirs ed conflicts in
      let theirs t :=
        ed ← pEdit (apply s t ed);
        r ← nextChange dTheirs;
        mergeLoop fuel s decide co dOurs r.1 r.2 ed conflicts in
      match co, ct with
      | None, None => mret (ed, conflicts)
      | Some _, None => ours
      | None, Some t => theirs t
      | Some o, Some t =>
          if bltb (Key o) (Key t) then ours
          else if bltb (Key t) (Key o) then theirs t
          else
            d ← decide (Key o) o t;
            let conflicts := conflicts ++ map (locate (Key o)) (DConflicts d) in
            ed ← (if DPut d then pEdit (put s (Key o) (DValue d) ed) else mret ed);
            r ← nextChange dOurs;
            q ← nextChange dTheirs;
            mergeLoop fuel s decide r.1 r.2 q.1 q.2 ed conflicts
      end
  end.

(** Enough rounds for the changes of both sides. *)
Definition mergeFuel (mb mo mt : Map) : nat :=
  S (Z.to_nat (mcount mb) + Z.to_nat (mcount mo) + (Z.to_nat (mcount mb) + Z.to_nat (mcount mt))).

(** All of [MergeWith] before its flush: the editor of ours, and the conflicts. *)
Definition compared (s : Spec) (base ours theirs : Model.Root) (decide : Decider) : prog (Editor * list MConflict) :=
  mb ← Open s base;
  mo ← Open s ours;
  mt ← Open s theirs;
  dOurs ← ProllyDiff.Diff mb mo;
  dTheirs ← ProllyDiff.Diff mb mt;
  r ← nextChange dOurs;
  q ← nextChange dTheirs;
  mergeLoop (mergeFuel mb mo mt) s decide r.1 r.2 q.1 q.2 (NewEditor mo) [].

Definition MergeWith `{Hasher} (s : Spec) (base ours theirs : Model.Root) (decide : Decider) : prog MergeResult :=
  ec ← compared s base ours theirs decide;
  if bool_decide (ec.2 <> []) then mret (mkMergeResult ours ec.2)
  else
    me ← Flush ec.1;
    mret (mkMergeResult (RootOf s me.1) []).

(** [Disagreement]; the values compared are those of changes that are not removals. *)
Definition Disagreement : Resolver := fun key ours theirs =>
  let oGone := bool_decide (Kind ours = Removed) in
  let tGone := bool_decide (Kind theirs = Removed) in
  if oGone && tGone then ([], false, [])
  else if oGone || tGone then ([], false, str "deleted on one side and changed on the other")
  else if bool_decide (default [] (To ours) = default [] (To theirs)) then ([], false, [])
  else if bool_decide (Kind ours = Added) then ([], false, str "added differently on both sides")
  else ([], false, str "changed differently on both sides").

(** The decider [Merge] makes of a resolver; a nil one is [Disagreement]. *)
Definition resolving (resolve : option Resolver) : Decider := fun key o th =>
  let '(value, put, reason) := default Disagreement resolve key o th in
  if bool_decide (reason <> []) then mret (mkDecision [] false [mkDConflict None reason])
  else mret (mkDecision value put []).

Definition Merge `{Hasher} (s : Spec) (base ours theirs : Model.Root) (resolve : option Resolver) : prog MergeResult :=
  MergeWith s base ours theirs (resolving resolve).

(** ** What a root holds *)

Definition valueAt (xs : list entry) (k : bytes) : option value := val <$> klookup key k xs.

(** The map [m] of the model, with entries [xs], has the records [σ]. *)
Record holding `{Hasher} (s : Spec) (rd : creader) (m : Map) (xs : list entry) (σ : bytes -> option bytes) : Prop := {
  hd_canon : canonical rd m xs;
  hd_cfg : cfg m = SpConfig s;
  hd_streams : streams_ok rd xs;
  hd_get k : Get rd m k = Ok (σ k);
}.

(** [r] is the root of such a map. *)
Definition object_at `{Hasher} (s : Spec) (rd : creader) (r : Model.Root) (xs : list entry) (σ : bytes -> option bytes) : Prop :=
  exists m, holding s rd m xs σ /\ r = RootOf s m.

(** The change of [k] from [a] to [b]. *)
Definition changeAt (k : bytes) (a b : option bytes) : Change :=
  mkChange (match a, b with None, _ => Added | _, None => Removed | _, _ => Modified end) k a b.

Section Holding.
Context `{HH : Hasher} (s : Spec).

Lemma holding_map rd m xs σ : holding s rd m xs σ -> map_ok rd m xs.
Proof. intros Hh. apply canonical_map_ok, Hh. Qed.

Lemma holding_sorted rd m xs σ : holding s rd m xs σ -> ksorted key xs.
Proof. intros [(_ & (Hs & _) & _) _ _ _]. done. Qed.

Lemma holding_key rd m xs σ e : holding s rd m xs σ -> e ∈ xs -> zlen (key e) <= MaxKeySize.
Proof. intros [(_ & (_ & Hv & _) & _) _ _ _] He. rewrite Forall_forall in Hv. by apply (Hv e He). Qed.

Lemma holding_at rd m xs σ k : holding s rd m xs σ ->
  match klookup key k xs with
  | Some e => exists b, materialize rd m (val e) = Ok b /\ σ k = Some b
  | None => σ k = None
  end.
Proof.
  intros Hh. pose proof (hd_get _ _ _ _ _ Hh k) as Hg. rewrite (Get_ok _ _ _ k (holding_map _ _ _ _ Hh)) in Hg.
  destruct (klookup key k xs) as [e|]; [|by injection Hg]. destruct (materialize rd m (val e)) as [b|]; [|done]. injection Hg as Hg. by eauto.
Qed.

Lemma streams_more rd rd' xs : more rd rd' -> streams_ok rd xs -> streams_ok rd' xs.
Proof. intros Hm Hs e ref He Ev. destruct (Hs e ref He Ev) as (H1 & H2 & d & Hd). split; [done|]. split; [done|]. exists d. by eapply Stream.contents_grows. Qed.

Lemma materialize_more rd rd' m xs e : more rd rd' -> streams_ok rd xs -> e ∈ xs -> materialize rd' m (val e) = materialize rd m (val e).
Proof.
  intros Hm Hs He. apply (materialize_kept rd rd' m xs e Hs He). intros ref Ev. destruct (Hs e ref He Ev) as (_ & _ & d & Hd). rewrite Hd. by eapply Stream.contents_grows.
Qed.

Lemma holding_more rd rd' m xs σ : more rd rd' -> holding s rd m xs σ -> holding s rd' m xs σ.
Proof.
  intros Hm Hh. pose proof Hh as [Hc Hcfg Hs Hg]. assert (canonical rd' m xs) as Hc' by (by eapply canonical_mono).
  split; [done|done|by eapply streams_more|]. intros k. pose proof (holding_at _ _ _ _ k Hh) as Hk. rewrite (Get_ok _ _ _ k (canonical_map_ok _ _ _ Hc')).
  destruct (klookup key k xs) as [e|] eqn:E; [|by rewrite Hk]. destruct Hk as (b & Hb & ->). apply klookup_elem in E as [E _].
  by rewrite (materialize_more rd rd' m xs), Hb by done.
Qed.

Lemma Open_reads_only r : reads_only (Open s r).
Proof. unfold Open. apply reads_bind; [done|]. intros _. apply reads_bind; [apply Open_reads|]. intros m. by destruct (negb _). Qed.

Lemma Open_object rd r xs σ : object_at s rd r xs σ -> exists m, interp rd (Open s r) = Ok m /\ holding s rd m xs σ /\ r = RootOf s m.
Proof.
  intros (m & Hh & ->). exists (opened m). split; [|split; [|done]].
  - unfold Open. rewrite interp_bind by done. unfold claims. cbn [RFormat RDepth RootOf interp pLift]. rewrite Z.eqb_refl. cbn [negb Z.eqb].
    rewrite interp_bind by apply Open_reads. cbn [RHash RSize RootOf]. rewrite <-(hd_cfg _ _ _ _ _ Hh), (Open_at _ _ _ (hd_canon _ _ _ _ _ Hh)). cbn [mcount opened].
    by rewrite Z.eqb_refl.
  - pose proof Hh as [Hc Hcfg Hs Hg]. split; [done|done|done|]. intros k. rewrite <-Hg. by rewrite !(Get_ok rd _ xs k) by (apply canonical_map_ok; done).
Qed.

(** *** The changes between two maps *)

Lemma map_change_at rd mA mB x y σ τ k : holding s rd mA x σ -> holding s rd mB y τ -> differs (delta_at x y k) ->
  ProllyDiff.change rd mA mB (delta_at x y k) = Ok (changeAt k (σ k) (τ k)).
Proof.
  intros HA HB. pose proof (holding_at _ _ _ _ k HA) as Ha. pose proof (holding_at _ _ _ _ k HB) as Hb. unfold differs, delta_at, ProllyDiff.change, changeAt. cbn [fst snd].
  destruct (klookup key k x) as [e|] eqn:Ee, (klookup key k y) as [f|] eqn:Ef; try done; intros _;
    repeat match goal with H : exists _, _ |- _ => destruct H as (? & -> & ->) end; rewrite ?Ha, ?Hb;
    try apply klookup_elem in Ee as [_ ->]; try apply klookup_elem in Ef as [_ ->]; done.
Qed.

(** [d] has the changes of [keys] left to report. *)
Definition changes_at (rd : creader) (d : DiffIter) (mA mB : Map) (x y : list entry) (keys : list bytes) : Prop :=
  Forall (fun k => differs (delta_at x y k)) keys /\ diff_at rd d (map (delta_at x y) keys) /\ dA d = mA /\ dB d = mB.

Lemma map_changes_more rd rd' d mA mB x y keys : more rd rd' -> changes_at rd d mA mB x y keys -> changes_at rd' d mA mB x y keys.
Proof. intros Hm (H1 & H2 & H3 & H4). split_and!; [done|by eapply diff_at_more|done|done]. Qed.

(** An iterator one change ahead: [c] is the next change and [d] has the rest. *)
Definition ahead (rd : creader) (c : option Change) (d : DiffIter) mA mB x y (σ τ : bytes -> option bytes) (keys : list bytes) : Prop :=
  match keys with
  | [] => c = None
  | k :: ks => c = Some (changeAt k (σ k) (τ k)) /\ changes_at rd d mA mB x y ks
  end.

Lemma ahead_more rd rd' c d mA mB x y σ τ keys : more rd rd' -> ahead rd c d mA mB x y σ τ keys -> ahead rd' c d mA mB x y σ τ keys.
Proof. intros Hm. destruct keys; [done|]. intros [-> Hd]. split; [done|]. by eapply map_changes_more. Qed.

Lemma next_ahead v d mA mB x y σ τ keys : holding s (vget v) mA x σ -> holding s (vget v) mB y τ -> changes_at (vget v) d mA mB x y keys ->
  exists c d', steps (nextChange d) v (c, d') v /\ ahead (vget v) c d' mA mB x y σ τ keys.
Proof.
  intros HA HB (Hf & Hd & Ea & Eb). pose proof (DNext_at _ _ _ Hd) as Hn. unfold nextChange. destruct keys as [|k ks]; cbn [map] in Hn.
  - destruct Hn as (d' & E). exists None, d'. split; [|done]. intros rt. cbn. by rewrite E.
  - apply Forall_cons in Hf as [Hk Hf]. rewrite Ea, Eb, (map_change_at _ _ _ x y σ τ) in Hn by done. destruct Hn as (d' & E & Hd' & Ea' & Eb').
    eexists _, d'. split; [intros rt; cbn; by rewrite E|]. split; [done|]. split_and!; [done|done|congruence|congruence].
Qed.

Lemma differs_key rd mA mB x y σ τ k : holding s rd mA x σ -> holding s rd mB y τ -> differs (delta_at x y k) -> zlen k <= MaxKeySize.
Proof.
  intros HA HB. unfold differs, delta_at. cbn [fst snd]. destruct (klookup key k x) as [e|] eqn:E.
  - apply klookup_elem in E as [E <-]. intros _. exact (holding_key _ _ _ _ _ HA E).
  - destruct (klookup key k y) as [f|] eqn:F; [|done]. apply klookup_elem in F as [F <-]. intros _. exact (holding_key _ _ _ _ _ HB F).
Qed.

(** The keys changed between two maps, in order. *)
Definition changedKeys (x y : list entry) : list bytes := map dkey (deltas x y).

Lemma dkey_differs x y k : differs (delta_at x y k) -> dkey (delta_at x y k) = k.
Proof.
  unfold differs, delta_at, dkey. cbn [fst snd]. destruct (klookup key k x) as [e|] eqn:E; [by apply klookup_elem in E as [_ ?]|].
  destruct (klookup key k y) as [f|] eqn:F; [by apply klookup_elem in F as [_ ?]|done].
Qed.

Lemma changedKeys_ok x y : ksorted key x -> ksorted key y ->
  ksorted (fun k => k) (changedKeys x y) /\ (forall k, k ∈ changedKeys x y <-> differs (delta_at x y k)) /\
  map (delta_at x y) (changedKeys x y) = deltas x y.
Proof.
  intros Hx Hy. pose proof (fun d => deltas_complete _ x y d (le_n _) Hx Hy) as Hd. split_and!.
  - apply (ksorted_fmap dkey (fun p => p)). by apply deltas_sorted.
  - intros k. unfold changedKeys. rewrite list_elem_of_fmap. split.
    + intros (d & -> & (k' & -> & Hk)%Hd). by rewrite dkey_differs.
    + intros Hk. exists (delta_at x y k). rewrite dkey_differs by done. split; [done|]. apply Hd. by exists k.
  - unfold changedKeys. rewrite map_map, (map_ext_in _ id); [by rewrite map_id|]. intros d (k & -> & Hk)%list_elem_of_In%Hd. unfold id. by rewrite dkey_differs.
Qed.

Lemma Diff_changes v mA mB x y σ τ : holding s (vget v) mA x σ -> holding s (vget v) mB y τ ->
  exists d, steps (ProllyDiff.Diff mA mB) v d v /\ changes_at (vget v) d mA mB x y (changedKeys x y).
Proof.
  intros HA HB. destruct (Diff_at (vget v) mA mB x y (holding_map _ _ _ _ HA) (holding_map _ _ _ _ HB)) as (d & Hd & Hat & Ea & Eb).
  { by rewrite (hd_cfg _ _ _ _ _ HA), (hd_cfg _ _ _ _ _ HB). }
  destruct (changedKeys_ok x y (holding_sorted _ _ _ _ HA) (holding_sorted _ _ _ _ HB)) as (_ & H2 & H3). exists d. split.
  - apply steps_reads; [|done]. unfold ProllyDiff.Diff. case_bool_decide; [done|]. apply reads_bind; [apply seek_reads|]. intros. apply reads_bind; [apply seek_reads|done].
  - split_and!; [apply Forall_forall; intros k; apply H2|by rewrite H3|done|done].
Qed.
End Holding.

(** ** The merge, key by key *)

Section Merging.
Context `{HH : Hasher} (s : Spec) (mb mo mt : Map) (xb xo xt : list entry) (σb σo σt : bytes -> option bytes) (v0 : view).
Context (Hb : holding s (vget v0) mb xb σb) (Ho : holding s (vget v0) mo xo σo) (Ht : holding s (vget v0) mt xt σt).
Context (decide : Decider) (dec : bytes -> Decision).

(** Whether a side changed a key: its value is not the one the base has. *)
Definition changed (x : list entry) (k : bytes) : Prop := differs (delta_at xb x k).

#[local] Instance changed_dec x k : base.Decision (changed x k).
Proof. unfold changed, differs. apply _. Defined.

(** The record of [k] in the merge, and the conflicts at it. *)
Definition merged (k : bytes) : option bytes :=
  if bool_decide (changed xt k) then
    if bool_decide (changed xo k) then (if DPut (dec k) then Some (DValue (dec k)) else σo k) else σt k
  else σo k.

Definition conflictsAt (k : bytes) : list MConflict :=
  if bool_decide (changed xo k) then map (locate k) (DConflicts (dec k)) else [].

Definition fits (k v : bytes) : Prop := SpCheck s k v = Ok tt /\ zlen v <= maxValue (SpConfig s).

(** What the merge needs at [k]: the model accepts the record it takes from
    theirs, and where both sides changed the key the decider answers [dec k]
    on any store with these chunks, with a record the model accepts. *)
Definition ready (k : bytes) : Prop :=
  changed xt k ->
  if bool_decide (changed xo k) then
    (forall v, v0 ⊆ v -> exists v', steps (decide k (changeAt k (σb k) (σo k)) (changeAt k (σb k) (σt k))) v (dec k) v') /\
    (DPut (dec k) = true -> fits k (DValue (dec k)))
  else forall b, σt k = Some b -> fits k b.

Context (Hready : forall k, ready k).

(** An editor of ours that makes [k] what the merge says, but for the keys of
    [pt], which it has not seen. *)
Definition edited (ed : Editor) (pt : list bytes) : Prop :=
  em ed = mo /\ editor_ok ed /\ (forall k, k ∈ pt -> edits ed !! k = None) /\
  forall k, k ∉ pt -> match edits ed !! k with Some o => o | None => σo k end = merged k.

Lemma edited_set ed k pt o : edited ed (k :: pt) -> k ∉ pt -> o = merged k -> zlen k <= MaxKeySize ->
  (forall b, o = Some b -> zlen b <= maxValue (SpConfig s)) -> edited (mkEditor (em ed) (<[k := o]> (edits ed))) pt.
Proof.
  intros (Em & Hed & Hn & Hm) Hk -> Hkey Hval. split_and!; [done| | |].
  - intros q x. cbn [edits em]. rewrite lookup_insert_Some. intros [[<- <-]|[_ Hq]]; [|by apply Hed]. split; [done|].
    rewrite Em, (hd_cfg _ _ _ _ _ Ho). destruct (merged k); [by apply Hval|done].
  - intros q Hq. cbn [edits]. rewrite lookup_insert_ne by (by intros ->). apply Hn. by right.
  - intros q Hq. cbn [edits]. destruct (base.decide (k = q)) as [->|Hne]; [by rewrite lookup_insert_eq|]. rewrite lookup_insert_ne by done.
    apply Hm. rewrite elem_of_cons. intros [?|?]; congruence.
Qed.

Lemma edited_skip ed k pt : edited ed (k :: pt) -> merged k = σo k -> edited ed pt.
Proof.
  intros (Em & Hed & Hn & Hm) Hk. split_and!; [done|done|intros q Hq; apply Hn; by right|]. intros q Hq.
  destruct (base.decide (q = k)) as [->|Hne]; [by rewrite Hn by left|]. apply Hm. rewrite elem_of_cons. intros [?|?]; congruence.
Qed.

Lemma put_edits ed k b : em ed = mo -> zlen k <= MaxKeySize -> fits k b ->
  put s k b ed = (Ok tt, mkEditor (em ed) (<[k := Some b]> (edits ed))).
Proof.
  intros Em Hk [Hc Hz]. unfold put, Prolly.Put. rewrite Hc, Em, (hd_cfg _ _ _ _ _ Ho), !(proj2 (Z.ltb_ge _ _)) by done. done.
Qed.

Lemma changed_key k : changed xt k -> zlen k <= MaxKeySize.
Proof. exact (differs_key s _ _ _ _ _ _ _ k Hb Ht). Qed.

(** Theirs' change of a key ours left alone. *)
Lemma apply_edits ed k pt : edited ed (k :: pt) -> k ∉ pt -> changed xt k -> ~ changed xo k ->
  exists ed', apply s (changeAt k (σb k) (σt k)) ed = (Ok tt, ed') /\ edited ed' pt.
Proof.
  intros He Hk Ht' Ho'. pose proof (changed_key k Ht') as Hkey. pose proof (Hready k Ht') as Hr. rewrite bool_decide_eq_false_2 in Hr by done.
  assert (merged k = σt k) as Hm by (unfold merged; by rewrite bool_decide_eq_true_2, bool_decide_eq_false_2).
  unfold apply, changeAt. destruct (σt k) as [b|] eqn:Et.
  - rewrite bool_decide_eq_false_2 by (by destruct (σb k)). cbn [Key To default]. unfold id. rewrite put_edits by (try apply He; auto). eexists. split; [done|].
    apply edited_set; [done|done|done|done|]. intros x [= <-]. by apply Hr.
  - assert (is_Some (σb k)) as [b Eb].
    { pose proof (holding_at s _ _ _ _ k Hb) as H1. pose proof (holding_at s _ _ _ _ k Ht) as H2. unfold changed, differs, delta_at in Ht'. cbn [fst snd] in Ht'.
      destruct (klookup key k xb) as [e|]; [destruct H1 as (? & _ & ->); by eauto|]. destruct (klookup key k xt) as [f|]; [|done]. destruct H2 as (? & _ & H2). congruence. }
    rewrite Eb, bool_decide_eq_true_2 by done. cbn [Key]. unfold Prolly.Delete. rewrite (proj2 (Z.ltb_ge _ _)) by done. eexists. split; [done|].
    by apply edited_set.
Qed.

(** *** The loop *)

(** The loop with the changes of [po] and [pt] left, and conflicts [cs] so far. *)
Definition running (v : view) (po pt : list bytes) co dO ct dT (ed : Editor) (cs all : list MConflict) : Prop :=
  v0 ⊆ v /\ ahead (vget v) co dO mb mo xb xo σb σo po /\ ahead (vget v) ct dT mb mt xb xt σb σt pt /\
  ksorted (fun k => k) po /\ ksorted (fun k => k) pt /\ (forall k, k ∈ pt -> changed xt k) /\
  (forall k, k ∈ pt -> k ∈ po <-> changed xo k) /\ edited ed pt /\ cs ++ concat (map conflictsAt pt) = all.

Definition ends (p : prog (Editor * list MConflict)) (v : view) (all : list MConflict) : Prop :=
  exists ed v', steps p v (ed, all) v' /\ v ⊆ v' /\ edited ed [].

Lemma ends_bind {A} (p : prog A) (f : A -> prog (Editor * list MConflict)) v a v1 all :
  steps p v a v1 -> v ⊆ v1 -> ends (f a) v1 all -> ends (p ≫= f) v all.
Proof. intros Hp Hs (ed & v' & Hf & Hs' & He). exists ed, v'. split_and!; [by eapply steps_bind|by etrans|done]. Qed.

Lemma next_step (τ : bytes -> option bytes) v d m y (k : bytes) ks : v0 ⊆ v -> holding s (vget v0) m y τ -> changes_at (vget v) d mb m xb y ks ->
  exists c d', steps (nextChange d) v (c, d') v /\ ahead (vget v) c d' mb m xb y σb τ ks.
Proof. intros Hv Hm Hd. eapply (next_ahead s); [by eapply holding_more; [apply more_view|]|by eapply holding_more; [apply more_view|]|done]. Qed.

Lemma sorted_head (k : bytes) ks : ksorted (fun k => k) (k :: ks) -> ksorted (fun k => k) ks /\ k ∉ ks /\ forall q, q <b k -> q ∉ k :: ks.
Proof.
  intros [Hk Hs]%ksorted_cons. rewrite Forall_forall in Hk. assert (k ∉ ks) as Hn by (intros Hin; apply Hk in Hin; by apply blt_irrefl in Hin).
  split_and!; [done|done|]. intros q Hq [->|Hin]%elem_of_cons; [by apply blt_irrefl in Hq|]. apply Hk in Hin. border.
Qed.

Definition loop_ok (fuel : nat) : Prop := forall v po pt co dO ct dT ed cs all,
  (length po + length pt < fuel)%nat -> running v po pt co dO ct dT ed cs all -> ends (mergeLoop fuel s decide co dO ct dT ed cs) v all.

(** A change of ours alone is passed over. *)
Lemma map_ours_step fuel v o po pt co dO ct dT ed cs all : loop_ok fuel -> (length (o :: po) + length pt < S fuel)%nat -> o ∉ pt ->
  running v (o :: po) pt co dO ct dT ed cs all -> ends (r ← nextChange dO; mergeLoop fuel s decide r.1 r.2 ct dT ed cs) v all.
Proof.
  intros IH Hf Hn (Hv & [_ Hao] & Hat & [Hso _]%sorted_head & Hst & Hpt & Hpo & He & Hall). destruct (next_step σo v dO mo xo o po Hv Ho Hao) as (c & d' & Hs & Ha).
  eapply ends_bind; [exact Hs|done|]. eapply (IH v po pt); [simpl in Hf; lia|]. split_and!; try done. intros k Hk. rewrite <-(Hpo k Hk), elem_of_cons. split; [by right|].
  intros [->|?]; done.
Qed.

(** A change of theirs alone is made. *)
Lemma map_theirs_step fuel v t po pt co dO ct dT ed cs all : loop_ok fuel -> (length po + length (t :: pt) < S fuel)%nat -> t ∉ po ->
  running v po (t :: pt) co dO ct dT ed cs all ->
  ends (ed ← pEdit (apply s (changeAt t (σb t) (σt t)) ed); r ← nextChange dT; mergeLoop fuel s decide co dO r.1 r.2 ed cs) v all.
Proof.
  intros IH Hf Hn (Hv & Hao & [_ Hat] & Hso & (Hst & Htn & _)%sorted_head & Hpt & Hpo & He & Hall).
  assert (~ changed xo t) as Hno by (intros Hc; by apply Hn, Hpo; [left|]). destruct (apply_edits ed t pt He Htn (Hpt t ltac:(left)) Hno) as (ed' & -> & He').
  eapply ends_bind; [apply steps_ret|done|]. destruct (next_step σt v dT mt xt t pt Hv Ht Hat) as (c & d' & Hs & Ha). eapply ends_bind; [exact Hs|done|].
  eapply (IH v po pt); [simpl in Hf; lia|]. split_and!; try done; [intros k Hk; apply Hpt; by right|intros k Hk; apply Hpo; by right|].
  rewrite <-Hall. cbn [map concat]. unfold conflictsAt at 2. by rewrite bool_decide_eq_false_2.
Qed.

(** A key both changed is decided. *)
Lemma map_both_step fuel v k po pt dO dT ed cs all : loop_ok fuel -> (length (k :: po) + length (k :: pt) < S fuel)%nat ->
  running v (k :: po) (k :: pt) (Some (changeAt k (σb k) (σo k))) dO (Some (changeAt k (σb k) (σt k))) dT ed cs all ->
  ends (d ← decide k (changeAt k (σb k) (σo k)) (changeAt k (σb k) (σt k));
        let conflicts := cs ++ map (locate k) (DConflicts d) in
        ed ← (if DPut d then pEdit (put s k (DValue d) ed) else mret ed);
        r ← nextChange dO; q ← nextChange dT; mergeLoop fuel s decide r.1 r.2 q.1 q.2 ed conflicts) v all.
Proof.
  intros IH Hf (Hv & [_ Hao] & [_ Hat] & (Hso & Hon & _)%sorted_head & (Hst & Htn & _)%sorted_head & Hpt & Hpo & He & Hall).
  assert (changed xt k) as Hct by (apply Hpt; left). assert (changed xo k) as Hco by (apply Hpo; left). pose proof (Hready k Hct) as Hr.
  rewrite bool_decide_eq_true_2 in Hr by done. destruct Hr as [Hdec Hput]. destruct (Hdec v Hv) as (v1 & Hd).
  assert (v ⊆ v1) as Hv1 by (specialize (Hd zero_hash); pose proof (exec_grows (decide k (changeAt k (σb k) (σo k)) (changeAt k (σb k) (σt k))) v zero_hash) as Hg; by rewrite Hd in Hg).
  assert (v0 ⊆ v1) as Hv01 by (by etrans). pose proof (more_view _ _ Hv1) as Hm. eapply ends_bind; [exact Hd|done|]. cbv beta zeta.
  assert (merged k = if DPut (dec k) then Some (DValue (dec k)) else σo k) as Hmk by (unfold merged; by rewrite !bool_decide_eq_true_2).
  assert (exists ed', steps (if DPut (dec k) then pEdit (put s k (DValue (dec k)) ed) else mret ed) v1 ed' v1 /\ edited ed' pt) as (ed' & Hs & He').
  { destruct (DPut (dec k)) eqn:Ep.
    - rewrite put_edits by (try apply He; auto using changed_key). eexists. split; [apply steps_ret|].
      apply edited_set; [done|done|done|by apply changed_key|]. intros x [= <-]. by apply Hput.
    - exists ed. split; [apply steps_ret|]. by eapply edited_skip. }
  eapply ends_bind; [exact Hs|done|]. destruct (next_step σo v1 dO mo xo k po Hv01 Ho ltac:(by eapply map_changes_more)) as (c & d' & Hs1 & Ha1).
  eapply ends_bind; [exact Hs1|done|]. destruct (next_step σt v1 dT mt xt k pt Hv01 Ht ltac:(by eapply map_changes_more)) as (c2 & d2 & Hs2 & Ha2).
  eapply ends_bind; [exact Hs2|done|]. eapply (IH v1 po pt); [simpl in Hf; lia|]. split_and!; try done.
  - intros q Hq. apply Hpt. by right.
  - intros q Hq. rewrite <-Hpo by (by right). rewrite elem_of_cons. split; [by right|]. intros [->|?]; done.
  - rewrite <-Hall, <-app_assoc. cbn [map concat]. unfold conflictsAt at 2. by rewrite bool_decide_eq_true_2.
Qed.

Lemma map_mergeLoop_ok fuel : loop_ok fuel.
Proof.
  induction fuel as [|fuel IH]; intros v po pt co dO ct dT ed cs all Hf Hrun; [lia|]. cbn [mergeLoop]. pose proof Hrun as (_ & Hao & Hat & Hso & Hst & _ & _ & He & Hall).
  destruct po as [|o po], pt as [|t pt]; cbn [ahead] in Hao, Hat.
  - subst co ct. rewrite app_nil_r in Hall. subst all. exists ed, v. split_and!; [apply steps_ret|done|done].
  - subst co. destruct Hat as [-> _]. eapply (map_theirs_step fuel v t [] pt); [done|done|by apply not_elem_of_nil|exact Hrun].
  - subst ct. destruct Hao as [-> _]. eapply (map_ours_step fuel v o po []); [done|done|by apply not_elem_of_nil|exact Hrun].
  - destruct Hao as [-> _], Hat as [-> _]. cbn [Key changeAt]. destruct (sorted_head _ _ Hso) as (_ & _ & Hlo). destruct (sorted_head _ _ Hst) as (_ & _ & Hlt).
    destruct (bltb_spec o t) as [Hot|Hot]; [|destruct (bltb_spec t o) as [Hto|Hto]].
    + eapply (map_ours_step fuel v o po (t :: pt)); [done|done|by apply Hlt|exact Hrun].
    + eapply (map_theirs_step fuel v t (o :: po) pt); [done|done|by apply Hlo|exact Hrun].
    + assert (o = t) as -> by (destruct (blt_trichotomy o t) as [|[|]]; done). by eapply map_both_step.
Qed.
End Merging.

(** ** The merge on a store *)

Section Whole.
Context `{HH : Hasher} (s : Spec).

(** What the flush at the end needs of the store: the writer of long values is
    set up, the counts stay in range, and the chunks it stores have no name
    taken. *)
Definition room (v : view) (ed : Editor) : Prop :=
  stream_ok (cfg (em ed)) /\ mcount (em ed) + Z.of_nat (size (edits ed)) <= 2 ^ 62 /\
  forall es, canonical (vget v) (em ed) es -> collision_free v (flushChunks ed es).

Lemma flushed_streams rd m e es U : streams_ok rd es -> Forall2 (prepared m rd (edits e)) (sortedKeys (edits e)) U -> streams_ok rd (mergeE es U).
Proof.
  intros Hs HU x ref Hx Ev. destruct (mergeE_elem _ _ _ Hx) as [?|(u & Hu & Hd & ->)]; [by eapply Hs|].
  apply list_elem_of_lookup in Hu as [i Hi]. destruct (Forall2_lookup_r _ _ _ _ _ HU Hi) as (k & _ & _ & Hp).
  destruct (edits e !! k) as [[p|]|]; [|congruence..]. destruct Hp as (_ & _ & _ & _ & Hst & _). destruct (Hst ref Ev) as (H1 & H2 & H3). split_and!; [apply H1..|apply H2|apply H2|by eauto].
Qed.

Lemma Flush_holding v ed xs σ : holding s (vget v) (em ed) xs σ -> editor_ok ed -> maxValue (SpConfig s) <= 2 ^ 62 -> room v ed ->
  exists m' v' xs', steps (Flush ed) v (m', mkEditor m' ∅) v' /\ v ⊆ v' /\
    holding s (vget v') m' xs' (fun k => match edits ed !! k with Some o => o | None => σ k end).
Proof.
  intros Hh Hed Hmax (Hst & Hn & Hcf). pose proof Hh as [Hc Hcfg Hs Hg].
  assert (zlen xs = mcount (em ed)) as Hcnt by (destruct Hc as (_ & _ & _ & _ & Hc & _); lia).
  destruct (Flush_ok v ed xs Hc Hed Hst ltac:(by rewrite Hcfg) ltac:(lia) ltac:(by apply Hcf)) as (U & m' & v' & Hf & Hsub & Hc' & Hcfg' & _ & HU & _).
  pose proof (holding_more s _ _ _ _ _ (more_view _ _ Hsub) Hh) as Hh'. exists m', v', (mergeE xs U). split_and!; [done|done|]. split; [done|congruence| |].
  - eapply flushed_streams; [apply Hh'|exact HU].
  - intros k. rewrite (merged_get _ m' ed xs U Hc' (hd_canon _ _ _ _ _ Hh') Hcfg' HU k). destruct (edits ed !! k) as [[p|]|]; [done|done|apply Hh'].
Qed.

Section Objects.
Context (base ours theirs : Model.Root) (xb xo xt : list entry) (σb σo σt : bytes -> option bytes) (decide : Decider) (dec : bytes -> Decision).

Definition allConflicts : list MConflict := concat (map (conflictsAt xb xo dec) (changedKeys xb xt)).

Lemma compared_ok v : object_at s (vget v) base xb σb -> object_at s (vget v) ours xo σo -> object_at s (vget v) theirs xt σt ->
  (forall k, ready s xb xo xt σb σo σt v decide dec k) ->
  exists ed v', steps (compared s base ours theirs decide) v (ed, allConflicts) v' /\ v ⊆ v' /\ editor_ok ed /\
    holding s (vget v) (em ed) xo σo /\ forall k, match edits ed !! k with Some o => o | None => σo k end = merged xb xo xt σo σt dec k.
Proof.
  intros (mb & Ob & Hb & _)%(Open_object s) (mo & Oo & Ho & _)%(Open_object s) (mt & Ot & Ht & _)%(Open_object s) Hready.
  destruct (Diff_changes s v _ _ _ _ _ _ Hb Ho) as (dO & Sdo & Hdo). destruct (Diff_changes s v _ _ _ _ _ _ Hb Ht) as (dT & Sdt & Hdt).
  destruct (next_ahead s v dO mb mo xb xo σb σo _ Hb Ho Hdo) as (co & dO' & Sco & Hco). destruct (next_ahead s v dT mb mt xb xt σb σt _ Hb Ht Hdt) as (ct & dT' & Sct & Hct).
  pose proof (fun m x σ (H : holding s (vget v) m x σ) => map_count _ _ _ (holding_map s _ _ _ _ H)) as Hcnt. pose proof (holding_sorted s) as Hsort.
  destruct (changedKeys_ok xb xo) as (So & Ko & _); [by eauto..|]. destruct (changedKeys_ok xb xt) as (St & Kt & _); [by eauto..|].
  assert (forall x y, (length (changedKeys x y) <= length x + length y)%nat) as Hlen by (intros; unfold changedKeys; rewrite length_map; apply deltas_length).
  assert (running mb mo mt xb xo xt σb σo σt v dec v (changedKeys xb xo) (changedKeys xb xt) co dO' ct dT' (NewEditor mo) [] allConflicts) as Hrun.
  { split_and!; try done; [intros k Hk; by apply Kt|]. split_and!; [done|apply ProllyEditor.NewEditor_ok|intros k _; apply lookup_empty|].
    intros k Hk. cbn. rewrite lookup_empty. unfold merged. rewrite bool_decide_eq_false_2; [done|]. intros Hc. by apply Hk, Kt. }
  assert (length (changedKeys xb xo) + length (changedKeys xb xt) < mergeFuel mb mo mt)%nat as Hfuel.
  { unfold mergeFuel. rewrite !(Hcnt _ _ _ Hb), (Hcnt _ _ _ Ho), (Hcnt _ _ _ Ht). pose proof (Hlen xb xo). pose proof (Hlen xb xt). lia. }
  destruct (map_mergeLoop_ok s mb mo mt xb xo xt σb σo σt v Hb Ho Ht decide dec Hready _ _ _ _ _ _ _ _ _ _ _ Hfuel Hrun)
    as (ed & v' & Hl & Hv & Em & Hed & _ & Hm).
  exists ed, v'. split_and!; [|done|done|by rewrite Em|intros k; apply Hm; by apply not_elem_of_nil]. unfold compared.
  do 3 (eapply steps_bind; [apply steps_reads; [apply Open_reads_only|eassumption]|]). eapply steps_bind; [exact Sdo|]. eapply steps_bind; [exact Sdt|].
  eapply steps_bind; [exact Sco|]. eapply steps_bind; [exact Sct|]. exact Hl.
Qed.

(** What a merge makes of the objects: ours and the conflicts where there are
    any, and else an object with the merged records. *)
Definition merged_object (rd : creader) (r : MergeResult) : Prop :=
  MConflicts r = allConflicts /\
  if bool_decide (allConflicts <> []) then MRoot r = ours
  else exists xs, object_at s rd (MRoot r) xs (merged xb xo xt σo σt dec).

Lemma MergeWith_ok v : object_at s (vget v) base xb σb -> object_at s (vget v) ours xo σo -> object_at s (vget v) theirs xt σt ->
  (forall k, ready s xb xo xt σb σo σt v decide dec k) -> maxValue (SpConfig s) <= 2 ^ 62 ->
  (forall ed v1, steps (compared s base ours theirs decide) v (ed, []) v1 -> room v1 ed) ->
  exists r v', steps (MergeWith s base ours theirs decide) v r v' /\ merged_object (vget v') r.
Proof.
  intros Hb Ho Ht Hready Hmax Hroom. destruct (compared_ok v Hb Ho Ht Hready) as (ed & v1 & Hc & Hv & Hed & Hh & Hm). unfold MergeWith, merged_object.
  case_bool_decide as Hall.
  - eexists _, v1. split; [eapply steps_bind; [exact Hc|]; cbn [snd]; rewrite bool_decide_eq_true_2 by done; apply steps_ret|done].
  - assert (allConflicts = []) as En by (destruct allConflicts; [done|by destruct Hall]). rewrite En in Hc.
    destruct (Flush_holding v1 ed xo σo (holding_more s _ _ _ _ _ (more_view _ _ Hv) Hh) Hed Hmax (Hroom ed v1 Hc)) as (m' & v' & xs & Hf & _ & Hh').
    eexists _, v'. split; [eapply steps_bind; [exact Hc|]; cbn [fst snd]; rewrite bool_decide_eq_false_2 by (intros []; done); eapply steps_bind; [exact Hf|]; apply steps_ret|].
    cbn [MConflicts MRoot fst]. split; [done|]. exists xs, m'. split; [|done]. destruct Hh' as [H1 H2 H3 H4]. split; [done|done|done|]. intros k. by rewrite H4, <-Hm.
Qed.
End Objects.
End Whole.

Section Stores.
Context `{HH : Hasher} {S : Type} `{!ChunkStore S} `{!ChunkStoreOk S}.

(** C13. A map-shaped model merges record by record. For three objects of one model
    on any store that keeps the chunk store's contract, [MergeWith] succeeds
    whenever the model accepts the records it takes and the decider answers for
    the keys both sides changed, and leaves the root as it was. A key theirs
    left alone is as ours has it, a key only theirs changed is as theirs has it,
    removals included, and a key both changed, to the same value too, is the decider's: its
    record, or ours as it is. The conflicts are the decider's, in key order, at
    the key where it gave no location. With any conflict the result is ours;
    with none it is the root of an object that holds exactly those records. *)
Theorem map_merge_is_per_key (st : S) s base ours theirs xb xo xt σb σo σt decide dec :
  cs_ok st -> object_at s (cs_get st) base xb σb -> object_at s (cs_get st) ours xo σo -> object_at s (cs_get st) theirs xt σt ->
  (forall k, ready s xb xo xt σb σo σt (cs_view st) decide dec k) -> maxValue (SpConfig s) <= 2 ^ 62 ->
  (forall ed v, steps (compared s base ours theirs decide) (cs_view st) (ed, []) v -> room v ed) ->
  exists r st', run (MergeWith s base ours theirs decide) st = (Ok r, st') /\ cs_ok st' /\ cs_rootof st' = cs_rootof st /\
    merged_object s ours xb xo xt σo σt dec (cs_get st') r.
Proof.
  intros Hst Hb Ho Ht Hready Hmax Hroom. rewrite get_view in * by done.
  destruct (MergeWith_ok s base ours theirs xb xo xt σb σo σt decide dec (cs_view st) Hb Ho Ht Hready Hmax Hroom) as (r & v' & Hs & Hm).
  destruct (run_view (MergeWith s base ours theirs decide) st Hst) as (st' & Hrun & Hst' & Hv & Hro). rewrite Hs in *. cbn in *.
  exists r, st'. split_and!; [done|done|done|]. by rewrite get_view, Hv.
Qed.
End Stores.
