(* ===== verification/VcsCodec.v ===== *)
(** * core/vcs: names and stored records

    Branch and tag names, and the chunks of the version graph: commits, tags,
    working sets and conflict records, each with one accepted encoding. *)

From S2P Require Import Prelude GoStd Wire Hash ChunkStore Prog Auth Model Prolly Object Merge.

(** ** Names *)

Definition inRange (lo hi c : byte) : bool := (bZ lo <=? bZ c) && (bZ c <=? bZ hi).

Definition alnum (c : byte) : bool :=
  inRange Byte.x61 Byte.x7a c || inRange Byte.x41 Byte.x5a c || inRange Byte.x30 Byte.x39 c.

(** The loop of [validName]: whether byte [i] is bad. *)
Definition badByte (i : nat) (c : byte) : bool :=
  negb (alnum c) &&
  ((i =? 0)%nat ||
   (negb (bool_decide (c = dot)) && negb (bool_decide (c = Byte.x5f)) && negb (bool_decide (c = slash)) && negb (bool_decide (c = Byte.x2d)))).

Fixpoint nameLoop (i : nat) (n : bytes) (bad : bool) : bool :=
  match n with
  | [] => bad
  | c :: n => if bad then bad else nameLoop (S i) n (badByte i c)
  end.

Definition validName (n : bytes) : res unit :=
  let bad := bool_decide (n = []) || (128 <? zlen n) || Contains n (str "..") || Contains n (str "//") ||
             HasSuffix n (str "/") || HasSuffix n (str ".lock") in
  if nameLoop 0 n bad then Err VcsInvalidName else Ok tt.

(** The grammar: [^[a-zA-Z0-9][a-zA-Z0-9._/-]{0,127}$] with no [".."], no ["//"],
    and no trailing ["/"] or [".lock"]. *)
Definition nameByte (c : byte) : Prop := alnum c = true \/ c = dot \/ c = Byte.x5f \/ c = slash \/ c = Byte.x2d.

Definition name_ok (n : bytes) : Prop :=
  (exists c t, n = c :: t /\ alnum c = true /\ Forall nameByte t) /\ zlen n <= 128 /\
  (forall a b, n <> a ++ str ".." ++ b) /\ (forall a b, n <> a ++ str "//" ++ b) /\
  (forall a, n <> a ++ str "/") /\ (forall a, n <> a ++ str ".lock").

Lemma HasPrefix_true s p : HasPrefix s p = true <-> exists t, s = p ++ t.
Proof.
  revert s. induction p as [|x p IH]; intros [|y s]; simpl; try (by split; eauto).
  - split; [done|]. by intros [t ?].
  - rewrite andb_true_iff, bool_decide_eq_true, IH. split.
    + intros [-> [t ->]]. by exists t.
    + intros [t [= -> ->]]. split; [done|]. by exists t.
Qed.

Lemma Contains_true s sub : Contains s sub = true <-> exists a b, s = a ++ sub ++ b.
Proof.
  induction s as [|y s IH]; cbn [Contains]; rewrite orb_true_iff, HasPrefix_true; split.
  - intros [[t E]|?]; [|done]. by exists [], t.
  - intros ([|x a] & b & E); [|done]. left. by exists b.
  - intros [[t E]|(a & b & ->)%IH]; [by exists [], t|by exists (y :: a), b].
  - intros ([|x a] & b & E); [left; by exists b|]. right. apply IH. exists a, b. by injection E as _ ->.
Qed.

Lemma HasSuffix_true s p : HasSuffix s p = true <-> exists a, s = a ++ p.
Proof.
  unfold HasSuffix. rewrite andb_true_iff, Nat.leb_le, bool_decide_eq_true. split.
  - intros [Hl E]. exists (take (length s - length p) s). rewrite <-E at 2. by rewrite take_drop.
  - intros [a ->]. rewrite length_app. split; [lia|]. replace (length a + length p - length p)%nat with (length a) by lia.
    by rewrite drop_app_length.
Qed.

Lemma badByte_0 c : badByte 0 c = negb (alnum c).
Proof. unfold badByte. simpl. by rewrite andb_true_r. Qed.

Lemma badByte_S i c : badByte (S i) c = false <-> nameByte c.
Proof.
  unfold badByte, nameByte. simpl. destruct (alnum c); simpl; [naive_solver|].
  repeat case_bool_decide; simpl; naive_solver.
Qed.

Lemma nameLoop_bad i n : nameLoop i n true = true.
Proof. by destruct n. Qed.

Lemma nameLoop_S i n : nameLoop (S i) n false = false <-> Forall nameByte n.
Proof.
  revert i. induction n as [|c n IH]; intros i; simpl; [by split|]. rewrite Forall_cons, <-(badByte_S i c).
  destruct (badByte (S i) c) eqn:E; [rewrite nameLoop_bad; naive_solver|]. rewrite IH. naive_solver.
Qed.

Lemma nameLoop_0 c n : nameLoop 0 (c :: n) false = false <-> alnum c = true /\ Forall nameByte n.
Proof.
  cbn [nameLoop]. rewrite badByte_0. destruct (alnum c); simpl; [rewrite nameLoop_S; naive_solver|].
  rewrite nameLoop_bad. naive_solver.
Qed.

Lemma validName_spec n : validName n = Ok tt <-> name_ok n.
Proof.
  unfold validName, name_ok. cbv zeta.
  set (bad := bool_decide (n = []) || _ || _ || _ || _ || _).
  assert (bad = false <-> n <> [] /\ zlen n <= 128 /\ (forall a b, n <> a ++ str ".." ++ b) /\ (forall a b, n <> a ++ str "//" ++ b) /\
    (forall a, n <> a ++ str "/") /\ (forall a, n <> a ++ str ".lock")) as Hbad.
  { unfold bad. rewrite !orb_false_iff, bool_decide_eq_false, Z.ltb_ge, <-!not_true_iff_false, !Contains_true, !HasSuffix_true.
    naive_solver. }
  destruct bad eqn:Eb.
  - rewrite nameLoop_bad. split; [done|]. intros ((c & t & -> & _) & H1 & H2 & H3 & H4 & H5).
    assert (true = false); [|done]. apply Hbad. by split_and!.
  - pose proof (proj1 Hbad eq_refl) as (Hne & H1 & H2 & H3 & H4 & H5). destruct n as [|c t]; [done|].
    pose proof (nameLoop_0 c t) as Hl. destruct (nameLoop 0 (c :: t) false).
    + split; [done|]. intros ((c' & t' & [= <- <-] & Hc & Ht) & _). by assert (true = false) by (apply Hl; done).
    + split; [|done]. intros _. split_and!; try done. exists c, t. split; [done|]. by apply Hl.
Qed.

(** No name holds a colon, so an authorizer can match resources by prefix. *)
Lemma name_no_colon n : name_ok n -> Byte.x3a ∉ n.
Proof.
  intros ((c & t & -> & Hc & Ht) & _) Hin. apply elem_of_cons in Hin as [<-|Hin]; [done|].
  rewrite Forall_forall in Ht. specialize (Ht _ Hin). unfold nameByte in Ht. naive_solver.
Qed.

(** [validName] accepts exactly the documented grammar of branch and tag names, every
    refusal is [ErrInvalidName], and no accepted name holds a colon, so that
    the resources an authorizer is asked about never run together. *)
Theorem valid_name_grammar n :
  (validName n = Ok tt <-> name_ok n) /\ (forall e, validName n = Err e -> e = VcsInvalidName) /\
  (validName n = Ok tt -> Byte.x3a ∉ n).
Proof.
  split_and!; [apply validName_spec| |].
  - intros e. unfold validName. cbv zeta. destruct (nameLoop _ _ _); congruence.
  - intros H%validName_spec. by apply name_no_colon.
Qed.

(** ** Records *)

Definition kindCommit : Z := 3.
Definition kindTag : Z := 4.
Definition kindWorkingSet : Z := 5.

Definition MaxMessageLen : Z := 65536.

(** A commit. Its time is in nanoseconds since the epoch, an [int64]. *)
Record Commit := mkCommit {
  CHash : hash; Parents : list hash; CNamespace : hash; Height : Z; CTime : Z; Author : bytes; CMessage : bytes }.

#[export] Instance Commit_eq_dec : EqDecision Commit.
Proof. solve_decision. Defined.

Record Tag := mkTag { THash : hash; Target : hash; TTime : Z; Tagger : bytes; TMessage : bytes }.

Record MergeState := mkMergeState {
  MBase : hash; MTheirs : hash; MConflictsRoot : hash; PreWorking : hash; PreStaged : hash }.

#[export] Instance MergeState_eq_dec : EqDecision MergeState.
Proof. solve_decision. Defined.

Record WorkingSet := mkWorkingSet { WHash : hash; Working : hash; Staged : hash; WMerge : option MergeState }.

(** *** Commits *)

Definition encodeCommit (c : Commit) : bytes :=
  let w := wU8 [] kindCommit in
  let w := wU8 w (zlen (Parents c) mod 256) in
  let w := foldl (fun w p => wRaw w (hbytes p)) w (Parents c) in
  let w := wRaw w (hbytes (CNamespace c)) in
  let w := wUvarint w (Height c) in
  let w := wU64 w (u64 (CTime c)) in
  let w := wLenBytes w (Author c) in
  wLenBytes w (CMessage c).

Fixpoint readHashes (n : nat) (r : reader) : list hash * reader :=
  match n with
  | O => ([], r)
  | S n => let '(h, r) := readHash r in let '(hs, r) := readHashes n r in (h :: hs, r)
  end.

Definition DecodeCommit (b : bytes) : res Commit :=
  let r := NewReader b in
  let '(kind, r) := U8 r in
  let '(n, r) := U8 r in
  if bool_decide (rerr r <> None) || negb (kind =? kindCommit) || (2 <? n) then Err ChunkCorrupt
  else
    let '(ps, r) := readHashes (Z.to_nat n) r in
    let '(ns, r) := readHash r in
    let '(height, r) := Uvarint r in
    let '(t, r) := U64 r in
    let '(author, r) := LenBytes MaxIDLen r in
    let '(message, r) := LenBytes MaxMessageLen r in
    if bool_decide (Done r <> None) then Err ChunkCorrupt
    else if (n =? 2) && bool_decide (ps !! 0%nat = ps !! 1%nat) then Err ChunkCorrupt
    else if negb (Bool.eqb (n =? 0) (height =? 0)) then Err ChunkCorrupt
    else if negb (ValidString (nilb author)) || negb (ValidString (nilb message)) then Err ChunkCorrupt
    else Ok (mkCommit zero_hash ps ns height (i64 t) (nilb author) (nilb message)).

Definition int64 (v : Z) : Prop := -9223372036854775808 <= v < 9223372036854775808.

(** A commit a chunk can hold. *)
Definition commit_ok (c : Commit) : Prop :=
  (length (Parents c) <= 2)%nat /\ NoDup (Parents c) /\ (Parents c = [] <-> Height c = 0) /\ 0 <= Height c < two64 /\
  int64 (CTime c) /\ zlen (Author c) <= MaxIDLen /\ ValidString (Author c) = true /\
  zlen (CMessage c) <= MaxMessageLen /\ ValidString (CMessage c) = true.

Definition encHashes (hs : list hash) : bytes := concat (map hbytes hs).

Lemma foldl_raw hs w : foldl (fun w p => wRaw w (hbytes p)) w hs = w ++ encHashes hs.
Proof.
  revert w. induction hs as [|h hs IH]; intros w; simpl; [by rewrite app_nil_r|]. rewrite IH. unfold wRaw, encHashes. simpl.
  by rewrite <-app_assoc.
Qed.

Lemma encodeCommit_enc c : encodeCommit c =
  encU8 kindCommit ++ encU8 (zlen (Parents c) mod 256) ++ encHashes (Parents c) ++ hbytes (CNamespace c) ++
  encUvarint (Height c) ++ encU64 (u64 (CTime c)) ++ encLenBytes (Author c) ++ encLenBytes (CMessage c).
Proof. unfold encodeCommit. rewrite foldl_raw. wr_norm. done. Qed.

Lemma readHashes_fwd hs : forall r s, at_ r (encHashes hs ++ s) ->
  exists r', readHashes (length hs) r = (hs, r') /\ at_ r' s.
Proof.
  induction hs as [|h hs IH]; intros r s Ha; simpl; [by eauto|]. unfold encHashes in Ha. simpl in Ha.
  rewrite <-app_assoc in Ha. rd_fwd. destruct (IH _ _ Ha) as (r' & -> & Ha'). eauto.
Qed.

Lemma readHashes_sticky n : forall r hs r', readHashes n r = (hs, r') -> rerr r' = None -> rerr r = None.
Proof.
  induction n as [|n IH]; intros r hs r'; simpl; [by intros [= _ ->]|].
  destruct (readHash r) as [h r1] eqn:E1, (readHashes n r1) as [hs1 r2] eqn:E2. intros [= _ <-] He.
  eapply readHash_sticky; [exact E1|]. by eapply IH.
Qed.

Lemma readHashes_bwd n : forall r hs r' s, readHashes n r = (hs, r') -> rerr r' = None -> at_ r s ->
  exists s', s = encHashes hs ++ s' /\ length hs = n /\ at_ r' s'.
Proof.
  induction n as [|n IH]; intros r hs r' s; simpl; [intros [= <- <-]; by eauto|].
  destruct (readHash r) as [h r1] eqn:E1, (readHashes n r1) as [hs1 r2] eqn:E2. intros [= <- <-] He Ha.
  pose proof (readHashes_sticky _ _ _ _ E2 He) as He1. rd_back. destruct (IH _ _ _ _ E2 He Ha) as (s' & -> & <- & Ha').
  exists s'. unfold encHashes. simpl. by rewrite <-app_assoc.
Qed.

Lemma DecodeCommit_fwd c : commit_ok c -> CHash c = zero_hash -> DecodeCommit (encodeCommit c) = Ok c.
Proof.
  intros (H1 & H2 & H3 & H4 & H5 & H6 & H7 & H8 & H9) Hh. unfold DecodeCommit.
  pose proof (at_new_nil (encodeCommit c)) as Ha. rewrite encodeCommit_enc in Ha at 2.
  rewrite (Z.mod_small (zlen (Parents c)) 256) in Ha by lia. rewrite <-!app_assoc in Ha.
  unfold kindCommit, MaxIDLen, MaxMessageLen in *. pose proof (u64_range (CTime c)) as Hu. rd_fwd. rd_fwd.
  rewrite (at_no_err _ _ Ha). rewrite (proj2 (Z.ltb_ge _ _)) by lia. simpl.
  rewrite Nat2Z.id. destruct (readHashes_fwd _ _ _ Ha) as (r1 & -> & Ha1). clear Ha. rename Ha1 into Ha.
  rd_fwd. rd_fwd. rd_fwd. rd_fwd. rd_fwd. apply Done_None in Ha. rewrite Ha. rewrite bool_decide_eq_false_2 by auto.
  assert ((zlen (Parents c) =? 2) && bool_decide (Parents c !! 0%nat = Parents c !! 1%nat) = false) as ->.
  { destruct (Parents c) as [|a [|b [|]]]; try done; [|simpl in H1; lia]. simpl. apply bool_decide_eq_false. intros [= ->].
    apply NoDup_cons in H2 as [H2 _]. set_solver. }
  assert (Bool.eqb (zlen (Parents c) =? 0) (Height c =? 0) = true) as ->.
  { apply eqb_true_iff. destruct (Z.eqb_spec (Height c) 0) as [E|E]; [apply H3 in E; by rewrite E|].
    apply Z.eqb_neq. destruct (Parents c); [|simpl; lia]. by rewrite <-H3 in E. }
  simpl. rewrite H7, H9. simpl. rewrite i64_u64 by done. destruct c; simpl in *. by subst.
Qed.

Lemma DecodeCommit_bwd b c : DecodeCommit b = Ok c -> b = encodeCommit c /\ commit_ok c /\ CHash c = zero_hash.
Proof.
  unfold DecodeCommit. intros H. destruct (U8 (NewReader b)) as [kind r1] eqn:E1, (U8 r1) as [n r2] eqn:E2.
  destruct (_ || _) eqn:Gh; [done|]. destruct (readHashes (Z.to_nat n) r2) as [ps r3] eqn:E3.
  destruct (readHash r3) as [ns r4] eqn:E4, (Uvarint r4) as [height r5] eqn:E5, (U64 r5) as [t r6] eqn:E6,
    (LenBytes MaxIDLen r6) as [author r7] eqn:E7, (LenBytes MaxMessageLen r7) as [message r8] eqn:E8.
  guards H. injection H as <-. destruct Gh as [[_ ->] Gn].
  apply bool_decide_eq_false, dec_stable in G. pose proof (Done_err _ G) as He. apply Done_None in G.
  unfold MaxIDLen, MaxMessageLen in *. pose proof (at_new b) as Ha. rd_sticky.
  pose proof (readHashes_sticky _ _ _ _ E3 ltac:(assumption)) as Hr2. rd_back.
  destruct (readHashes_bwd _ _ _ _ _ E3 ltac:(assumption) Ha) as (s3 & -> & Hlen & Ha3). clear Ha. rename Ha3 into Ha. rd_back.
  pose proof (at_functional _ _ _ Ha G) as ->. rewrite app_nil_r in *. simpl nilb in *.
  assert (zlen ps = n) as Hn by lia. destruct G2 as [Ga Gm]. split_and!; [| |done].
  - rewrite encodeCommit_enc. simpl. rewrite u64_i64 by done. rewrite Hn, Z.mod_small by lia. done.
  - unfold commit_ok. simpl. unfold MaxIDLen, MaxMessageLen. apply Bool.eqb_prop in G1. split_and!; try done; try lia.
    + destruct ps as [|a [|c [|]]]; [constructor|repeat constructor; set_solver| |simpl in *; lia].
      destruct G0 as [G0|G0%bool_decide_eq_false]; [simpl in Hn; lia|]. simpl in G0.
      apply NoDup_cons. split; [|repeat constructor; set_solver]. intros ->%list_elem_of_singleton. done.
    + destruct ps as [|a ps]; [|split; [done|]; intros Hz; simpl in *; rewrite Hz in G1; destruct (Z.eqb_spec n 0); [lia|discriminate G1]].
      split; [|done]. intros _. simpl in Hn. subst n. simpl in G1. symmetry in G1. by apply Z.eqb_eq.
    + by apply i64_range.
Qed.

(** The commit codec: [DecodeCommit] accepts exactly the bytes [Encode] writes
    for a commit of at most two distinct parents, at height 0 exactly when it
    has none, with a UTF-8 author and message within their limits; any other
    bytes are corrupt. The hash, which is not encoded, reads as zero. *)
Theorem commit_codec b :
  (forall c, DecodeCommit b = Ok c <-> b = encodeCommit c /\ commit_ok c /\ CHash c = zero_hash) /\
  (forall e, DecodeCommit b = Err e -> e = ChunkCorrupt).
Proof.
  split.
  - intros c. split; [apply DecodeCommit_bwd|]. intros (-> & H1 & H2). by apply DecodeCommit_fwd.
  - intros e H. unfold DecodeCommit in H. repeat case_match; congruence.
Qed.

(** *** Tags *)

Definition encodeTag (t : Tag) : bytes :=
  let w := wU8 [] kindTag in
  let w := wRaw w (hbytes (Target t)) in
  let w := wU64 w (u64 (TTime t)) in
  let w := wLenBytes w (Tagger t) in
  wLenBytes w (TMessage t).

Definition decodeTag (b : bytes) : res Tag :=
  let r := NewReader b in
  let '(kind, r) := U8 r in
  if negb (kind =? kindTag) then Err ChunkCorrupt
  else
    let '(target, r) := readHash r in
    let '(t, r) := U64 r in
    let '(tagger, r) := LenBytes MaxIDLen r in
    let '(message, r) := LenBytes MaxMessageLen r in
    if bool_decide (Done r <> None) then Err ChunkCorrupt
    else if negb (ValidString (nilb tagger)) || negb (ValidString (nilb message)) then Err ChunkCorrupt
    else Ok (mkTag zero_hash target (i64 t) (nilb tagger) (nilb message)).

Definition tag_ok (t : Tag) : Prop :=
  int64 (TTime t) /\ zlen (Tagger t) <= MaxIDLen /\ ValidString (Tagger t) = true /\
  zlen (TMessage t) <= MaxMessageLen /\ ValidString (TMessage t) = true.

Lemma encodeTag_enc t : encodeTag t =
  encU8 kindTag ++ hbytes (Target t) ++ encU64 (u64 (TTime t)) ++ encLenBytes (Tagger t) ++ encLenBytes (TMessage t).
Proof. unfold encodeTag. wr_norm. done. Qed.

Lemma decodeTag_fwd t : tag_ok t -> THash t = zero_hash -> decodeTag (encodeTag t) = Ok t.
Proof.
  intros (H1 & H2 & H3 & H4 & H5) Hh. unfold decodeTag. pose proof (at_new_nil (encodeTag t)) as Ha.
  rewrite encodeTag_enc in Ha at 2. rewrite <-!app_assoc in Ha. unfold kindTag, MaxIDLen, MaxMessageLen in *.
  pose proof (u64_range (TTime t)) as Hu. rd_fwd. simpl. do 4 rd_fwd. apply Done_None in Ha. rewrite Ha.
  rewrite bool_decide_eq_false_2 by auto. simpl. rewrite H3, H5. simpl. rewrite i64_u64 by done. destruct t; simpl in *. by subst.
Qed.

Lemma decodeTag_bwd b t : decodeTag b = Ok t -> b = encodeTag t /\ tag_ok t /\ THash t = zero_hash.
Proof.
  unfold decodeTag. intros H. destruct (U8 (NewReader b)) as [kind r1] eqn:E1. destruct (negb _) eqn:Gh; [done|].
  apply negb_false_iff, Z.eqb_eq in Gh. subst kind.
  destruct (readHash r1) as [ns r4] eqn:E4, (U64 r4) as [tm r6] eqn:E6,
    (LenBytes MaxIDLen r6) as [author r7] eqn:E7, (LenBytes MaxMessageLen r7) as [message r8] eqn:E8.
  guards H. injection H as <-. apply bool_decide_eq_false, dec_stable in G. pose proof (Done_err _ G) as He. apply Done_None in G.
  unfold MaxIDLen, MaxMessageLen in *. pose proof (at_new b) as Ha. rd_back.
  pose proof (at_functional _ _ _ Ha G) as ->. rewrite app_nil_r in *. simpl nilb in *. destruct G0 as [Ga Gm].
  split_and!; [|unfold tag_ok; simpl; unfold MaxIDLen, MaxMessageLen; split_and!; try done; by apply i64_range|done].
  rewrite encodeTag_enc. simpl. by rewrite u64_i64 by done.
Qed.

(** *** Working sets *)

Definition encodeWorkingSet (ws : WorkingSet) : bytes :=
  let w := wU8 [] kindWorkingSet in
  let w := wRaw w (hbytes (Working ws)) in
  let w := wRaw w (hbytes (Staged ws)) in
  match WMerge ws with
  | None => wU8 w 0
  | Some m =>
      let w := wU8 w 1 in
      let w := wRaw w (hbytes (MBase m)) in
      let w := wRaw w (hbytes (MTheirs m)) in
      let w := wRaw w (hbytes (MConflictsRoot m)) in
      let w := wRaw w (hbytes (PreWorking m)) in
      wRaw w (hbytes (PreStaged m))
  end.

Definition decodeWorkingSet (b : bytes) : res WorkingSet :=
  let r := NewReader b in
  let '(kind, r) := U8 r in
  if negb (kind =? kindWorkingSet) then Err ChunkCorrupt
  else
    let '(working, r) := readHash r in
    let '(staged, r) := readHash r in
    let '(merging, r) := U8 r in
    if bool_decide (rerr r <> None) || (1 <? merging) then Err ChunkCorrupt
    else
      let '(m, r) :=
        if merging =? 1 then
          let '(base, r) := readHash r in
          let '(theirs, r) := readHash r in
          let '(conflicts, r) := readHash r in
          let '(preW, r) := readHash r in
          let '(preS, r) := readHash r in
          (Some (mkMergeState base theirs conflicts preW preS), r)
        else (None, r) in
      match Done r with
      | Some _ => Err ChunkCorrupt
      | None => Ok (mkWorkingSet zero_hash working staged m)
      end.

Definition encMerge (m : option MergeState) : bytes :=
  match m with
  | None => encU8 0
  | Some m => encU8 1 ++ hbytes (MBase m) ++ hbytes (MTheirs m) ++ hbytes (MConflictsRoot m) ++ hbytes (PreWorking m) ++ hbytes (PreStaged m)
  end.

Lemma encodeWorkingSet_enc ws : encodeWorkingSet ws =
  encU8 kindWorkingSet ++ hbytes (Working ws) ++ hbytes (Staged ws) ++ encMerge (WMerge ws).
Proof. unfold encodeWorkingSet, encMerge. destruct (WMerge ws); wr_norm; done. Qed.

Lemma decodeWorkingSet_fwd ws : WHash ws = zero_hash -> decodeWorkingSet (encodeWorkingSet ws) = Ok ws.
Proof.
  intros Hh. unfold decodeWorkingSet. pose proof (at_new_nil (encodeWorkingSet ws)) as Ha.
  rewrite encodeWorkingSet_enc in Ha at 2. rewrite <-!app_assoc in Ha. unfold kindWorkingSet in *. rd_fwd. simpl. do 2 rd_fwd.
  destruct ws as [h w s [m|]]; simpl in *; subst h; unfold encMerge in Ha.
  - rewrite <-!app_assoc in Ha. rd_fwd. rewrite (at_no_err _ _ Ha). simpl. do 5 rd_fwd. apply Done_None in Ha. rewrite Ha. by destruct m.
  - rd_fwd. rewrite (at_no_err _ _ Ha). simpl. apply Done_None in Ha. by rewrite Ha.
Qed.

Lemma decodeWorkingSet_bwd b ws : decodeWorkingSet b = Ok ws -> b = encodeWorkingSet ws /\ WHash ws = zero_hash.
Proof.
  unfold decodeWorkingSet. intros H. destruct (U8 (NewReader b)) as [kind r1] eqn:E1. destruct (negb _) eqn:Gh; [done|].
  apply negb_false_iff, Z.eqb_eq in Gh. subst kind.
  destruct (readHash r1) as [w r2] eqn:E2, (readHash r2) as [s r3] eqn:E3, (U8 r3) as [mg r4] eqn:E4.
  guards H. destruct G as [G1%no_err_inv G2]. pose proof (at_new b) as Ha. rewrite encodeWorkingSet_enc.
  destruct (Z.eqb_spec mg 1) as [->|Hm].
  - destruct (readHash r4) as [h5 r5] eqn:E5, (readHash r5) as [h6 r6] eqn:E6, (readHash r6) as [h7 r7] eqn:E7,
      (readHash r7) as [h8 r8] eqn:E8, (readHash r8) as [h9 r9] eqn:E9.
    destruct (Done _) eqn:G; [done|]. injection H as <-. pose proof (Done_err _ G) as He. apply Done_None in G.
    rd_back. pose proof (at_functional _ _ _ Ha G) as ->. rewrite app_nil_r. simpl. done.
  - destruct (Done _) eqn:G; [done|]. injection H as <-. apply Done_None in G. rd_back.
    pose proof (at_functional _ _ _ Ha G) as ->. assert (mg = 0) as -> by lia. rewrite app_nil_r. done.
Qed.

(** Tags and working sets have one accepted encoding each: [decodeTag] and
    [decodeWorkingSet] accept exactly the bytes their encoders write, a
    working set with its merge in progress or without; any other bytes are
    corrupt. *)
Theorem tag_and_working_set_codec b :
  (forall t, decodeTag b = Ok t <-> b = encodeTag t /\ tag_ok t /\ THash t = zero_hash) /\
  (forall ws, decodeWorkingSet b = Ok ws <-> b = encodeWorkingSet ws /\ WHash ws = zero_hash) /\
  (forall e, decodeTag b = Err e \/ decodeWorkingSet b = Err e -> e = ChunkCorrupt).
Proof.
  split_and!.
  - intros t. split; [apply decodeTag_bwd|]. intros (-> & H1 & H2). by apply decodeTag_fwd.
  - intros ws. split; [apply decodeWorkingSet_bwd|]. intros [-> H]. by apply decodeWorkingSet_fwd.
  - unfold decodeTag, decodeWorkingSet. intros e [H|H]; repeat case_match; congruence.
Qed.

(** *** Conflict records *)

Definition maxModelConflicts : Z := 10000.
Definition maxLocationLen : Z := 4096.
Definition maxReasonLen : Z := 1024.

(** [maxConflictRecord]: the longest record the limits allow. *)
Definition maxConflictRecord : Z :=
  let uv v := zlen (encUvarint v) in
  1 + 3 * (1 + RefSize) + uv maxModelConflicts +
    maxModelConflicts * (uv maxLocationLen + maxLocationLen + uv maxReasonLen + maxReasonLen).

(** The configurations of a refs map and of a conflicts map. *)
Definition refsMap (c : Config) : Config := Prolly.mkConfig (Nodes c) (InlineLimit c) (SConfig c) 32.
Definition conflictsMap (c : Config) : Config := Prolly.mkConfig (Nodes c) (InlineLimit c) (SConfig c) maxConflictRecord.

Definition kindNum (k : Merge.Kind) : Z :=
  match k with BothChanged => 1 | DeleteEdit => 2 | AddAdd => 3 | ModelChange => 4 end.

(** The kinds from [BothChanged] to [ModelChange]. *)
Definition kindOf (n : Z) : option Merge.Kind :=
  if n =? 1 then Some BothChanged else if n =? 2 then Some DeleteEdit
  else if n =? 3 then Some AddAdd else if n =? 4 then Some ModelChange else None.

Definition encodeSide (w : writer) (r : Ref) : writer :=
  if bool_decide (r = zeroRef) then wU8 w 0 else wRaw (wU8 w 1) (Encode r).

Definition encodeConflict (c : Conflict) : bytes :=
  let w := wU8 [] (kindNum (CKind c)) in
  let w := encodeSide w (CBase c) in
  let w := encodeSide w (COurs c) in
  let w := encodeSide w (CTheirs c) in
  let w := wUvarint w (zlen (CModel c)) in
  foldl (fun w mc => wLenBytes (wLenBytes w (CLocation mc)) (CReason mc)) w (CModel c).

(** [recordable]: refuse a conflict larger than its record holds. *)
Definition recordable (c : Conflict) : res unit :=
  if maxModelConflicts <? zlen (CModel c) then Err VcsConflictTooLarge
  else res_each (fun mc =>
    if maxLocationLen <? zlen (CLocation mc) then Err VcsConflictTooLarge
    else if maxReasonLen <? zlen (CReason mc) then Err VcsConflictTooLarge
    else Ok tt) (CModel c).

Definition decodeSide (r : reader) : res (Ref * reader) :=
  let '(present, r) := U8 r in
  if bool_decide (rerr r <> None) || (1 <? present) then Err ChunkCorrupt
  else if present =? 1 then
    let '(b, r) := Fixed RefSize r in
    match DecodeRef (nilb b) with
    | Err e => Err e
    | Ok ref => Ok (ref, r)
    end
  else Ok (zeroRef, r).

(** The loop over the model's conflicts: it stops at an error, which is refused after it. *)
Fixpoint readModel (n : nat) (r : reader) : list MConflict * reader :=
  match n with
  | O => ([], r)
  | S n =>
      let '(loc, r) := LenBytes maxLocationLen r in
      let '(reason, r) := LenBytes maxReasonLen r in
      if bool_decide (rerr r <> None) then ([], r)
      else let '(l, r) := readModel n r in (mkMConflict (nilb loc) (nilb reason) :: l, r)
  end.

Definition decodeConflict (path b : bytes) : res Conflict :=
  let r := NewReader b in
  let '(k, r) := U8 r in
  match kindOf k with
  | None => Err ChunkCorrupt
  | Some kind =>
      match decodeSide r with
      | Err e => Err e
      | Ok (base, r) =>
          match decodeSide r with
          | Err e => Err e
          | Ok (ours, r) =>
              match decodeSide r with
              | Err e => Err e
              | Ok (theirs, r) =>
                  let '(n, r) := Uvarint r in
                  if bool_decide (rerr r <> None) || (maxModelConflicts <? n) then Err ChunkCorrupt
                  else
                    let '(l, r) := readModel (Z.to_nat n) r in
                    match Done r with
                    | Some _ => Err ChunkCorrupt
                    | None => Ok (mkConflict path kind base ours theirs l)
                    end
              end
          end
      end
  end.

(** A side of a conflict: absent, or a valid reference. *)
Definition side_ok (r : Ref) : Prop := r = zeroRef \/ ref_ok r.

Definition conflict_ok (c : Conflict) : Prop :=
  side_ok (CBase c) /\ side_ok (COurs c) /\ side_ok (CTheirs c) /\ recordable c = Ok tt.

Lemma recordable_spec c : recordable c = Ok tt <->
  zlen (CModel c) <= maxModelConflicts /\
  Forall (fun mc => zlen (CLocation mc) <= maxLocationLen /\ zlen (CReason mc) <= maxReasonLen) (CModel c).
Proof.
  unfold recordable. destruct (Z.ltb_spec maxModelConflicts (zlen (CModel c))) as [H|H]; [naive_solver lia|].
  rewrite res_each_Ok. split.
  - intros Hf. split; [lia|]. eapply Forall_impl; [exact Hf|]. intros mc Hm. simpl in Hm. guards Hm. split; lia.
  - intros [_ Hf]. eapply Forall_impl; [exact Hf|]. intros mc [H1 H2]. simpl.
    by rewrite !(proj2 (Z.ltb_ge _ _)) by lia.
Qed.

Definition encSide (r : Ref) : bytes := if bool_decide (r = zeroRef) then encU8 0 else encU8 1 ++ Encode r.
Definition encModel (l : list MConflict) : bytes :=
  flat_map (fun mc => encLenBytes (CLocation mc) ++ encLenBytes (CReason mc)) l.

Lemma encodeSide_enc w r : encodeSide w r = w ++ encSide r.
Proof. unfold encodeSide, encSide. case_bool_decide; wr_norm; done. Qed.

Lemma foldl_model l w :
  foldl (fun w mc => wLenBytes (wLenBytes w (CLocation mc)) (CReason mc)) w l = w ++ encModel l.
Proof.
  revert w. induction l as [|mc l IH]; intros w; simpl; [by rewrite app_nil_r|]. rewrite IH, !wLenBytes_enc, <-!app_assoc. done.
Qed.

Lemma encodeConflict_enc c : encodeConflict c =
  encU8 (kindNum (CKind c)) ++ encSide (CBase c) ++ encSide (COurs c) ++ encSide (CTheirs c) ++
  encUvarint (zlen (CModel c)) ++ encModel (CModel c).
Proof. unfold encodeConflict. rewrite foldl_model, !encodeSide_enc. wr_norm. done. Qed.

Lemma kindOf_num k : kindOf (kindNum k) = Some k.
Proof. by destruct k. Qed.

Lemma kindOf_inv n k : kindOf n = Some k -> n = kindNum k.
Proof.
  unfold kindOf. destruct (Z.eqb_spec n 1); [naive_solver|]. destruct (Z.eqb_spec n 2); [naive_solver|].
  destruct (Z.eqb_spec n 3); [naive_solver|]. destruct (Z.eqb_spec n 4); naive_solver.
Qed.

Lemma decodeSide_fwd x r s : at_ r (encSide x ++ s) -> side_ok x -> exists r', decodeSide r = Ok (x, r') /\ at_ r' s.
Proof.
  intros Ha Hx. unfold decodeSide, encSide in *. case_bool_decide as E.
  - subst x. rd_fwd. rewrite (at_no_err _ _ Ha). simpl. eauto.
  - destruct Hx as [|Hx]; [done|]. rewrite <-app_assoc in Ha. rd_fwd. rewrite (at_no_err _ _ Ha). simpl.
    assert (zlen (Encode x) = RefSize) as Hl by apply length_Encode. rd_fwd. simpl. rewrite DecodeRef_fwd by done. eauto.
Qed.

Lemma decodeSide_sticky x r r' : decodeSide r = Ok (x, r') -> rerr r' = None -> rerr r = None.
Proof.
  unfold decodeSide. destruct (U8 r) as [p r1] eqn:E1. intros H He. guards H. destruct G as [G1%no_err_inv G2].
  by apply U8_sticky in E1.
Qed.

Lemma decodeSide_bwd x r r' s : decodeSide r = Ok (x, r') -> rerr r' = None -> at_ r s ->
  exists s', s = encSide x ++ s' /\ side_ok x /\ at_ r' s'.
Proof.
  unfold decodeSide. destruct (U8 r) as [p r1] eqn:E1. intros H He Ha. guards H. destruct G as [G1%no_err_inv G2].
  destruct (Z.eqb_spec p 1) as [->|Hp].
  - destruct (Fixed RefSize r1) as [b r2] eqn:E2. destruct (DecodeRef (nilb b)) as [ref|] eqn:Ed; [|done].
    injection H as <- <-. apply DecodeRef_bwd in Ed as [Eb Href]. rd_back. simpl in Eb. subst.
    eexists. split_and!; [|by right|done]. unfold encSide. rewrite bool_decide_eq_false_2; [by rewrite <-app_assoc|].
    intros ->. destruct Href as ((? & _) & _). simpl in *. lia.
  - injection H as <- <-. rd_back. assert (p = 0) as -> by lia. eexists. split_and!; [done|by left|done].
Qed.

Lemma readModel_fwd l : forall r s, at_ r (encModel l ++ s) ->
  Forall (fun mc => zlen (CLocation mc) <= maxLocationLen /\ zlen (CReason mc) <= maxReasonLen) l ->
  exists r', readModel (length l) r = (l, r') /\ at_ r' s.
Proof.
  unfold maxLocationLen, maxReasonLen. induction l as [|mc l IH]; intros r s Ha Hf; simpl in *; [by eauto|].
  apply Forall_cons in Hf as [[H1 H2] Hf]. rewrite <-!app_assoc in Ha. unfold maxLocationLen, maxReasonLen. rd_fwd. rd_fwd.
  rewrite (at_no_err _ _ Ha). destruct (IH _ _ Ha Hf) as (r' & -> & Ha'). simpl. destruct mc. eauto.
Qed.

Lemma readModel_sticky n : forall r l r', readModel n r = (l, r') -> rerr r' = None -> rerr r = None.
Proof.
  induction n as [|n IH]; intros r l r'; simpl; [by intros [= _ ->]|].
  destruct (LenBytes maxLocationLen r) as [a r1] eqn:E1, (LenBytes maxReasonLen r1) as [c r2] eqn:E2.
  case_bool_decide as Hb.
  - intros [= _ <-] He. done.
  - destruct (readModel n r2) as [l2 r3] eqn:E3. intros [= _ <-] He. eapply LenBytes_sticky; [exact E1|].
    eapply LenBytes_sticky; [exact E2|]. by eapply IH.
Qed.

Lemma readModel_bwd n : forall r l r' s, readModel n r = (l, r') -> rerr r' = None -> at_ r s ->
  exists s', s = encModel l ++ s' /\ length l = n /\ at_ r' s' /\
    Forall (fun mc => zlen (CLocation mc) <= maxLocationLen /\ zlen (CReason mc) <= maxReasonLen) l.
Proof.
  unfold maxLocationLen, maxReasonLen. induction n as [|n IH]; intros r l r' s; cbn [readModel].
  { intros [= <- <-] He Ha. exists s. by split_and!. }
  unfold maxLocationLen, maxReasonLen.
  destruct (LenBytes 4096 r) as [a r1] eqn:E1, (LenBytes 1024 r1) as [c r2] eqn:E2. case_bool_decide as Hb.
  { intros [= _ <-] He. done. }
  destruct (readModel n r2) as [l2 r3] eqn:E3. intros [= <- <-] He Ha.
  pose proof (readModel_sticky _ _ _ _ E3 He) as He2. rd_back.
  destruct (IH _ _ _ _ E3 He Ha) as (s' & -> & <- & Ha' & Hf). exists s'. simpl. rewrite <-!app_assoc.
  split_and!; [done|done|done|]. by constructor.
Qed.

Lemma decodeConflict_fwd c : conflict_ok c -> decodeConflict (CPath c) (encodeConflict c) = Ok c.
Proof.
  intros (H1 & H2 & H3 & [H4 H5]%recordable_spec). unfold decodeConflict. pose proof (at_new_nil (encodeConflict c)) as Ha.
  rewrite encodeConflict_enc in Ha at 2. rewrite <-!app_assoc in Ha.
  assert (0 <= kindNum (CKind c) < two8) as Hk by (unfold two8; destruct (CKind c); simpl; lia).
  rd_fwd. rewrite kindOf_num.
  destruct (decodeSide_fwd _ _ _ Ha H1) as (r1 & -> & Ha1). destruct (decodeSide_fwd _ _ _ Ha1 H2) as (r2 & -> & Ha2).
  destruct (decodeSide_fwd _ _ _ Ha2 H3) as (r3 & -> & Ha3). clear Ha Ha1 Ha2. rename Ha3 into Ha.
  unfold maxModelConflicts in *. rd_fwd. rewrite (at_no_err _ _ Ha), (proj2 (Z.ltb_ge _ _)) by lia. simpl. rewrite Nat2Z.id.
  destruct (readModel_fwd _ _ _ Ha H5) as (r' & -> & Ha'). apply Done_None in Ha'. rewrite Ha'. by destruct c.
Qed.

Lemma decodeConflict_bwd path b c : decodeConflict path b = Ok c -> b = encodeConflict c /\ conflict_ok c /\ CPath c = path.
Proof.
  unfold decodeConflict. destruct (U8 (NewReader b)) as [k r0] eqn:E0. destruct (kindOf k) as [kind|] eqn:Ek; [|done].
  apply kindOf_inv in Ek. subst k.
  destruct (decodeSide r0) as [[x1 r1]|] eqn:E1; [|done]. destruct (decodeSide r1) as [[x2 r2]|] eqn:E2; [|done].
  destruct (decodeSide r2) as [[x3 r3]|] eqn:E3; [|done]. destruct (Uvarint r3) as [n r4] eqn:E4. intros H. guards H.
  destruct G as [G1%no_err_inv G2]. destruct (readModel (Z.to_nat n) r4) as [l r5] eqn:E5. destruct (Done r5) eqn:Ed; [done|].
  injection H as <-. pose proof (Done_err _ Ed) as He5. apply Done_None in Ed.
  pose proof (Uvarint_sticky _ _ _ E4 G1) as He3. pose proof (decodeSide_sticky _ _ _ E3 He3) as He2.
  pose proof (decodeSide_sticky _ _ _ E2 He2) as He1. pose proof (decodeSide_sticky _ _ _ E1 He1) as He0.
  pose proof (at_new b) as Ha. destruct (U8_bwd _ _ _ _ E0 He0 Ha) as (s0 & -> & Hk & Ha0).
  destruct (decodeSide_bwd _ _ _ _ E1 He1 Ha0) as (s1 & -> & S1 & Ha1).
  destruct (decodeSide_bwd _ _ _ _ E2 He2 Ha1) as (s2 & -> & S2 & Ha2).
  destruct (decodeSide_bwd _ _ _ _ E3 He3 Ha2) as (s3 & -> & S3 & Ha3).
  destruct (Uvarint_bwd _ _ _ _ E4 G1 Ha3) as (s4 & -> & Hn & Ha4).
  destruct (readModel_bwd _ _ _ _ _ E5 He5 Ha4) as (s5 & -> & Hl & Ha5 & Hf).
  pose proof (at_functional _ _ _ Ha5 Ed) as ->. rewrite app_nil_r, encodeConflict_enc. simpl.
  replace (zlen l) with n by lia. split_and!; [done| |done]. split_and!; try done. apply recordable_spec. simpl. split; [lia|done].
Qed.

Lemma length_encSide r : zlen (encSide r) <= 1 + RefSize.
Proof. unfold encSide. case_bool_decide; rewrite ?length_app, ?Nat2Z.inj_add, ?length_Encode, length_encU8; unfold RefSize; lia. Qed.

Lemma length_encUvarint_le v w : 0 <= v <= w -> w < two64 -> zlen (encUvarint v) <= zlen (encUvarint w).
Proof.
  intros Hv Hw. rewrite !length_encUvarint_exact by lia. rewrite !Z.log2_lor by lia. simpl (Z.log2 1).
  apply Z.div_le_mono; [lia|]. pose proof (Z.log2_le_mono v w ltac:(lia)). lia.
Qed.

(** The bytes of one model conflict are at most those of the longest. *)
Lemma length_encModel l : Forall (fun mc => zlen (CLocation mc) <= maxLocationLen /\ zlen (CReason mc) <= maxReasonLen) l ->
  zlen (encModel l) <= zlen l * (zlen (encUvarint maxLocationLen) + maxLocationLen + zlen (encUvarint maxReasonLen) + maxReasonLen).
Proof.
  induction 1 as [|mc l [H1 H2] _ IH]; [done|]. unfold encModel in *. cbn [flat_map length].
  rewrite !length_app, !length_encLenBytes, !Nat2Z.inj_add.
  pose proof (length_encUvarint_le (zlen (CLocation mc)) maxLocationLen ltac:(lia) eq_refl).
  pose proof (length_encUvarint_le (zlen (CReason mc)) maxReasonLen ltac:(lia) eq_refl). lia.
Qed.

Lemma length_encodeConflict c : recordable c = Ok tt -> zlen (encodeConflict c) <= maxConflictRecord.
Proof.
  intros [H1 H2]%recordable_spec. rewrite encodeConflict_enc, !length_app, !Nat2Z.inj_add, length_encU8. unfold maxConflictRecord. cbv zeta.
  pose proof (length_encSide (CBase c)). pose proof (length_encSide (COurs c)). pose proof (length_encSide (CTheirs c)).
  pose proof (length_encUvarint_le (zlen (CModel c)) maxModelConflicts ltac:(lia) eq_refl).
  pose proof (length_encModel _ H2) as Hm. unfold RefSize in *.
  assert (zlen (CModel c) * (zlen (encUvarint maxLocationLen) + maxLocationLen + zlen (encUvarint maxReasonLen) + maxReasonLen) <=
          maxModelConflicts * (zlen (encUvarint maxLocationLen) + maxLocationLen + zlen (encUvarint maxReasonLen) + maxReasonLen)); [|lia].
  apply Z.mul_le_mono_nonneg_r; [|done]. unfold maxLocationLen, maxReasonLen. lia.
Qed.

(** Conflict records: [decodeConflict] accepts exactly the bytes [encodeConflict] writes for
    a conflict whose sides are absent or valid and which [recordable] passes, so a
    conflict checked before it is written always reads back; and every such
    record fits the limit of the conflicts map, 51,240,144 bytes. *)
Theorem conflict_record_codec path b c :
  (decodeConflict path b = Ok c <-> b = encodeConflict c /\ conflict_ok c /\ CPath c = path) /\
  (recordable c = Ok tt -> zlen (encodeConflict c) <= maxConflictRecord) /\ maxConflictRecord = 51240144.
Proof.
  split_and!; [|apply length_encodeConflict|reflexivity].
  split; [apply decodeConflict_bwd|]. intros (-> & H & <-). by apply decodeConflict_fwd.
Qed.
