(* ===== verification/Vcs.v ===== *)
(** * core/vcs: the version graph

    Commits naming namespaces, branches and tags naming commits, and a working
    set per branch. All of it hangs from the chunk store's root, the refs map,
    and every change is one [CompareAndSetRoot]. Every handler of [Repo] is a
    program over the chunk store; a call's principal, its arguments and the
    repository's options are its parameters. *)

From S2P Require Import Prelude GoStd Wire Hash ChunkStore Prog Auth Model Prolly ProllyFlush Object Merge VcsCodec.

Definition MainBranch : bytes := str "main".
Definition MaxLog : Z := 10000.
Definition maxAttempts : nat := 1000.

(** Durations are in nanoseconds. *)
Definition backoffBase : Z := 200000.
Definition backoffCap : Z := 20000000.

(** [Options]. The clock is what it reads in the [n]th try of a call, a
    [UnixNano]; [time.Now] for nil is outside the program, so it is given. *)
Record Options := mkOptions {
  OConfig : Config; ORegistry : option Registry; OAuthorizer : option Authorizer;
  Clock : nat -> Z; OMaxConflicts : Z }.

(** [Repo]: its options with a registry that is there, and its ways to wait
    and to draw. The sessions checked out are apart, in [Sessions]. *)
Record Repo := mkRepo {
  o : Options; rreg : Registry; rsleep : Z -> res unit; rjitter : Z -> Z }.

Definition newRepo (op : Options) (slp : Z -> res unit) (jit : Z -> Z) : res Repo :=
  match ORegistry op with
  | None => Err (EMsg "vcs: a repository needs a model registry")
  | Some rg => Ok (mkRepo op rg slp jit)
  end.

(** [backoff]: the pause after the [attempt]th lost swap in a row. *)
Definition backoff (attempt : nat) (jitter : Z -> Z) : Z :=
  let d := if (attempt <? 16)%nat then Z.min (Z.shiftl backoffBase (Z.of_nat attempt)) backoffCap else backoffCap in
  Z.quot d 2 + jitter (Z.quot d 2 + 1).

Definition pause (r : Repo) (attempt : nat) : res unit := rsleep r (backoff attempt (rjitter r)).

Definition headKey (b : bytes) : bytes := str "heads/" ++ b.
Definition workKey (b : bytes) : bytes := str "work/" ++ b.
Definition tagKey (t : bytes) : bytes := str "tags/" ++ t.

(** A call of an editor, as a step of a program. *)
Definition pEdit {A} (f : M A unit) (e : A) : prog A :=
  match f e with
  | (Err x, _) => pFail x
  | (Ok _, e) => mret e
  end.

Section Handlers.
Context `{Hasher}.

(** ** The refs map *)

Definition refs (r : Repo) : prog Prolly.Map :=
  root ← pRoot;
  if IsZero root then pFail VcsNoRepo else Prolly.Open (refsMap (OConfig (o r))) root.

Definition ref (m : Prolly.Map) (key : bytes) : prog (option hash) :=
  v ← pRead (fun rd => Prolly.Get rd m key);
  match v with
  | None => mret None
  | Some b => if negb (zlen b =? 32) then pFail ChunkCorrupt else mret (Some (to_hash b))
  end.

(** [update]: apply [fn] to the refs map and swap the root, again whenever
    another writer swapped first. [fn] edits the editor it is given and hands
    back what its caller keeps of it. *)
Fixpoint updateLoop {B} (fuel attempt : nat) (r : Repo)
    (fn : nat -> Prolly.Map -> Prolly.Editor -> prog (Prolly.Editor * B)) : prog B :=
  match fuel with
  | O => pFail (EMsg "vcs: the refs changed under every attempt")
  | S fuel =>
      _ ← pLift (match attempt with O => Ok tt | S a => pause r a end);
      m ← refs r;
      eb ← fn attempt m (Prolly.NewEditor m);
      ne ← ProllyFlush.Flush eb.1;
      try_ (pCas (Prolly.root m) (Prolly.root ne.1)) (fun res =>
        match res with
        | Ok _ => mret eb.2
        | Err e => if bool_decide (e = ChunkRootConflict) then updateLoop fuel (S attempt) r fn else pFail e
        end)
  end.

Definition update {B} (r : Repo) (fn : nat -> Prolly.Map -> Prolly.Editor -> prog (Prolly.Editor * B)) : prog B :=
  updateLoop maxAttempts 0 r fn.

Definition Init (op : Options) (slp : Z -> res unit) (jit : Z -> Z) (p : Principal) : prog Repo :=
  r ← pLift (newRepo op slp jit);
  _ ← pLift (Check_ (OAuthorizer op) p ActAdmin (str "repo"));
  root ← pRoot;
  if negb (IsZero root) then pFail VcsExists
  else
    ns ← Object.New (OConfig op) (ORegistry op);
    commit ← pPut (encodeCommit (mkCommit zero_hash [] (NRoot ns) 0 (Clock op 0) (ID p) (str "Initialize the repository")));
    ws ← pPut (encodeWorkingSet (mkWorkingSet zero_hash (NRoot ns) (NRoot ns) None));
    rf ← Prolly.Empty (refsMap (OConfig op));
    e ← pEdit (Prolly.Put (headKey MainBranch) (hbytes commit)) (Prolly.NewEditor rf);
    e ← pEdit (Prolly.Put (workKey MainBranch) (hbytes ws)) e;
    ne ← ProllyFlush.Flush e;
    try_ (pCas zero_hash (Prolly.root ne.1)) (fun res =>
      match res with
      | Ok _ => mret r
      | Err e => if bool_decide (e = ChunkRootConflict) then pFail VcsExists else pFail e
      end).

Definition Open (op : Options) (slp : Z -> res unit) (jit : Z -> Z) : prog Repo :=
  r ← pLift (newRepo op slp jit);
  _ ← refs r;
  mret r.

(** ** Checks *)

Definition Namespace_ (r : Repo) (root : hash) : prog Namespace := Object.Open (OConfig (o r)) (Some (rreg r)) root.

Definition check (r : Repo) (p : Principal) (a : Action) (resource : bytes) : prog unit :=
  pLift (Check_ (OAuthorizer (o r)) p a resource).

Definition branchResource (branch : bytes) : bytes := str "branch:" ++ branch.
Definition tagResource (name : bytes) : bytes := str "tag:" ++ name.

Definition branchCheck (r : Repo) (p : Principal) (a : Action) (branch : bytes) : prog unit :=
  _ ← check r p a (branchResource branch);
  pLift (validName branch).

Definition pathResource (branch path : bytes) : bytes := str "path:" ++ branch ++ str ":" ++ path.

(** Ask for write on every path a diff reports; its rounds are at most the
    entries of the two namespaces. *)
Fixpoint checkDiff (fuel : nat) (r : Repo) (p : Principal) (branch : bytes) (d : Object.DiffIter) : prog unit :=
  match fuel with
  | O => pFail (EMsg "no fuel")
  | S fuel =>
      c ← nextOf d;
      match c.1 with
      | None => mret tt
      | Some ch =>
          _ ← check r p ActWrite (pathResource branch (Path ch));
          checkDiff fuel r p branch c.2
      end
  end.

Definition checkPaths (r : Repo) (p : Principal) (branch : bytes) (from to : hash) : prog unit :=
  if bool_decide (from = to) then mret tt
  else
    f ← Namespace_ r from;
    t ← Namespace_ r to;
    d ← Object.Diff f t;
    checkDiff (S (Z.to_nat (NCount f) + Z.to_nat (NCount t))) r p branch d.

Fixpoint checkAll (r : Repo) (p : Principal) (branch : bytes) (paths : list bytes) : prog unit :=
  match paths with
  | [] => mret tt
  | c :: paths => _ ← check r p ActWrite (pathResource branch c); checkAll r p branch paths
  end.

Fixpoint checkChanged (r : Repo) (p : Principal) (branch : bytes) (from to : hash) (flushed : list (option Namespace)) : prog unit :=
  match flushed with
  | [] => checkPaths r p branch from to
  | None :: flushed => checkChanged r p branch from to flushed
  | Some n :: flushed =>
      if negb (bool_decide (NRoot n = to)) then checkChanged r p branch from to flushed
      else match Changes n with
           | None => checkChanged r p branch from to flushed
           | Some (base, paths) =>
               if negb (bool_decide (base = from)) then checkChanged r p branch from to flushed
               else checkAll r p branch paths
           end
  end.

(** ** Reading *)

Definition readCommit (h : hash) : prog Commit :=
  b ← pGet h;
  c ← pLift (DecodeCommit b);
  mret (mkCommit h (Parents c) (CNamespace c) (Height c) (CTime c) (Author c) (CMessage c)).

Definition readWorkingSet (h : hash) : prog WorkingSet :=
  b ← pGet h;
  ws ← pLift (decodeWorkingSet b);
  mret (mkWorkingSet h (Working ws) (Staged ws) (WMerge ws)).

Definition readTag (h : hash) : prog Tag :=
  b ← pGet h;
  t ← pLift (decodeTag b);
  mret (mkTag h (Target t) (TTime t) (Tagger t) (TMessage t)).

(** [branchRefs]: a branch's head and working set. *)
Definition branchRefs (m : Prolly.Map) (branch : bytes) : prog (hash * hash) :=
  head ← ref m (headKey branch);
  match head with
  | None => pFail VcsBranchNotFound
  | Some head =>
      work ← ref m (workKey branch);
      match work with
      | None => pFail ChunkCorrupt
      | Some work => mret (head, work)
      end
  end.

Definition Head (r : Repo) (p : Principal) (branch : bytes) : prog Commit :=
  _ ← branchCheck r p ActRead branch;
  m ← refs r;
  hw ← branchRefs m branch;
  readCommit hw.1.

(** [names]: the refs under a prefix that ends in ['/'], up to the byte after it. *)
Definition names (r : Repo) (prefix : bytes) : prog (list bytes) :=
  m ← refs r;
  let end_ := take (length prefix - 1) prefix ++ str "0" in
  l ← pRead (fun rd => Prolly.range rd m prefix (Some end_));
  mret (map (fun kv => TrimPrefix kv.1 prefix) l).

Definition Branches (r : Repo) (p : Principal) : prog (list bytes) :=
  _ ← check r p ActRead (str "repo");
  names r (str "heads/").

Definition ReadCommit (r : Repo) (p : Principal) (h : hash) : prog Commit :=
  _ ← check r p ActRead (str "repo");
  readCommit h.

Definition WorkingSet_ (r : Repo) (p : Principal) (branch : bytes) : prog WorkingSet :=
  _ ← branchCheck r p ActRead branch;
  m ← refs r;
  hw ← branchRefs m branch;
  readWorkingSet hw.2.

(** ** Working sets *)

Definition sameMerge (a b : option MergeState) : bool := bool_decide (a = b).

Definition setWorkingSet (r : Repo) (branch : bytes) (prev next : WorkingSet) (keepMerge : bool) : prog WorkingSet :=
  h ← pPut (encodeWorkingSet next);
  _ ← update r (fun _ m e =>
    hw ← branchRefs m branch;
    if negb (bool_decide (hw.2 = WHash prev)) then pFail VcsConflict
    else
      _ ← (if keepMerge then
             stored ← readWorkingSet hw.2;
             if negb (sameMerge (WMerge stored) (WMerge next)) then pFail VcsMergeState else mret tt
           else mret tt);
      e ← pEdit (Prolly.Put (workKey branch) (hbytes h)) e;
      mret (e, tt));
  mret (mkWorkingSet h (Working next) (Staged next) (WMerge next)).

Definition updateWorkingSet (r : Repo) (p : Principal) (branch : bytes) (prev next : WorkingSet)
    (flushed : list (option Namespace)) : prog WorkingSet :=
  _ ← branchCheck r p ActWrite branch;
  stored ← readWorkingSet (WHash prev);
  _ ← checkChanged r p branch (Working stored) (Working next) flushed;
  _ ← checkChanged r p branch (Staged stored) (Staged next) flushed;
  setWorkingSet r branch prev next true.

Definition UpdateWorkingSet (r : Repo) (p : Principal) (branch : bytes) (prev next : WorkingSet) : prog WorkingSet :=
  updateWorkingSet r p branch prev next [].

Definition UpdateWorkingSetFlushed (r : Repo) (p : Principal) (branch : bytes) (prev next : WorkingSet)
    (flushed : list (option Namespace)) : prog WorkingSet :=
  updateWorkingSet r p branch prev next flushed.

Definition conflictCount (r : Repo) (ws : WorkingSet) : prog Z :=
  match WMerge ws with
  | None => mret 0
  | Some ms => m ← Prolly.Open (conflictsMap (OConfig (o r))) (MConflictsRoot ms); mret (mcount m)
  end.

(** ** Commits *)

(** The commit made onto [head], and with a merge in progress onto the commit
    merged as well. *)
Definition commitOnto (r : Repo) (attempt : nat) (p : Principal) (head : Commit) (merging : option MergeState)
    (namespace : hash) (message : bytes) : prog Commit :=
  let c := mkCommit zero_hash [CHash head] namespace (u64 (Height head + 1)) (Clock (o r) attempt) (ID p) message in
  match merging with
  | None => mret c
  | Some ms =>
      theirs ← readCommit (MTheirs ms);
      mret (mkCommit zero_hash [CHash head; CHash theirs] namespace (u64 (Z.max (Height head) (Height theirs) + 1))
              (CTime c) (Author c) (CMessage c))
  end.

Definition with_hash (c : Commit) (h : hash) : Commit :=
  mkCommit h (Parents c) (CNamespace c) (Height c) (CTime c) (Author c) (CMessage c).

(** Store the commit and the working set it leaves, and move the branch's refs. *)
Definition land (branch : bytes) (c : Commit) (ws : WorkingSet) (e : Prolly.Editor) : prog (Prolly.Editor * Commit) :=
  h ← pPut (encodeCommit c);
  nextWS ← pPut (encodeWorkingSet ws);
  e ← pEdit (Prolly.Put (headKey branch) (hbytes h)) e;
  e ← pEdit (Prolly.Put (workKey branch) (hbytes nextWS)) e;
  mret (e, with_hash c h).

Definition badMessage (message : bytes) : bool := (MaxMessageLen <? zlen message) || negb (ValidString message).

Definition commitWorkingSet (r : Repo) (p : Principal) (branch message : bytes) (flushed : list (option Namespace)) : prog Commit :=
  _ ← branchCheck r p ActCommit branch;
  if badMessage message then pFail (EMsg "vcs: a commit message must be UTF-8")
  else update r (fun attempt m e =>
    hw ← branchRefs m branch;
    ws ← readWorkingSet hw.2;
    n ← conflictCount r ws;
    if 0 <? n then pFail VcsUnresolvedConflicts
    else
      head ← readCommit hw.1;
      _ ← checkChanged r p branch (CNamespace head) (Staged ws) flushed;
      c ← commitOnto r attempt p head (WMerge ws) (Staged ws) message;
      land branch c (mkWorkingSet zero_hash (Working ws) (Staged ws) None) e).

Definition CommitWorkingSet (r : Repo) (p : Principal) (branch message : bytes) : prog Commit :=
  commitWorkingSet r p branch message [].

Definition CommitWorkingSetFlushed (r : Repo) (p : Principal) (branch message : bytes) (flushed : list (option Namespace)) : prog Commit :=
  commitWorkingSet r p branch message flushed.

(** The checks of [commit]: each namespace it replaces, once. *)
Fixpoint checkFroms (r : Repo) (p : Principal) (branch : bytes) (seen froms : list hash) (namespace : hash)
    (flushed : list (option Namespace)) : prog unit :=
  match froms with
  | [] => mret tt
  | from :: froms =>
      _ ← (if bool_decide (from ∈ seen) then mret tt else checkChanged r p branch from namespace flushed);
      checkFroms r p branch (seen ++ [from]) froms namespace flushed
  end.

Definition commit (r : Repo) (p : Principal) (branch : bytes) (prev : WorkingSet) (namespace : hash)
    (flushed : list (option Namespace)) (message : bytes) : prog Commit :=
  _ ← branchCheck r p ActWrite branch;
  _ ← check r p ActCommit (branchResource branch);
  if badMessage message then pFail (EMsg "vcs: a commit message must be UTF-8")
  else update r (fun attempt m e =>
    hw ← branchRefs m branch;
    if negb (bool_decide (hw.2 = WHash prev)) then pFail VcsConflict
    else
      stored ← readWorkingSet hw.2;
      if negb (sameMerge (WMerge stored) (WMerge prev)) then pFail VcsMergeState
      else
        n ← conflictCount r stored;
        if 0 <? n then pFail VcsUnresolvedConflicts
        else
          head ← readCommit hw.1;
          _ ← checkFroms r p branch [] [Working stored; Staged stored; CNamespace head] namespace flushed;
          c ← commitOnto r attempt p head (WMerge stored) namespace message;
          land branch c (mkWorkingSet zero_hash namespace namespace None) e).

Definition Commit_ (r : Repo) (p : Principal) (branch : bytes) (prev : WorkingSet) (namespace : hash) (message : bytes) : prog Commit :=
  commit r p branch prev namespace [] message.

Definition CommitNamespace (r : Repo) (p : Principal) (branch : bytes) (prev : WorkingSet) (n : Namespace) (message : bytes) : prog Commit :=
  commit r p branch prev (NRoot n) [Some n] message.

(** ** Branches *)

Definition CreateBranch (r : Repo) (p : Principal) (name : bytes) (at_ : hash) : prog unit :=
  _ ← branchCheck r p ActManage name;
  c ← readCommit at_;
  ws ← pPut (encodeWorkingSet (mkWorkingSet zero_hash (CNamespace c) (CNamespace c) None));
  update r (fun _ m e =>
    h ← ref m (headKey name);
    match h with
    | Some _ => pFail VcsBranchExists
    | None =>
        e ← pEdit (Prolly.Put (headKey name) (hbytes at_)) e;
        e ← pEdit (Prolly.Put (workKey name) (hbytes ws)) e;
        mret (e, tt)
    end).

(** The sessions of this process: how many have each branch checked out. *)
Abbreviation Sessions := (gmap bytes Z).

Definition DeleteBranch (r : Repo) (checkedOut : Sessions) (p : Principal) (name : bytes) : prog unit :=
  _ ← branchCheck r p ActManage name;
  if 0 <? default 0 (checkedOut !! name) then pFail VcsBranchInUse
  else update r (fun _ m e =>
    _ ← branchRefs m name;
    e ← pEdit (Prolly.Delete (headKey name)) e;
    e ← pEdit (Prolly.Delete (workKey name)) e;
    mret (e, tt)).

(** [Session]: its branch, and whether its [once] has run. *)
Record Session := mkSession { sbranch : bytes; sclosed : bool }.

Definition Checkout (r : Repo) (checkedOut : Sessions) (p : Principal) (branch : bytes) : prog (Session * Sessions) :=
  _ ← Head r p branch;
  mret (mkSession branch false, <[branch := default 0 (checkedOut !! branch) + 1]> checkedOut).

Definition Close (s : Session) (checkedOut : Sessions) : Session * Sessions :=
  if sclosed s then (s, checkedOut)
  else
    let n := default 0 (checkedOut !! sbranch s) - 1 in
    let checkedOut := <[sbranch s := n]> checkedOut in
    (mkSession (sbranch s) true, if n <=? 0 then delete (sbranch s) checkedOut else checkedOut).

(** ** Tags *)

Definition CreateTag (r : Repo) (p : Principal) (name : bytes) (target : hash) (message : bytes) : prog Tag :=
  _ ← check r p ActManage (tagResource name);
  _ ← pLift (validName name);
  if badMessage message then pFail (EMsg "vcs: a tag message must be UTF-8")
  else
    _ ← readCommit target;
    let t := mkTag zero_hash target (Clock (o r) 0) (ID p) message in
    h ← pPut (encodeTag t);
    _ ← update r (fun _ m e =>
      x ← ref m (tagKey name);
      match x with
      | Some _ => pFail VcsTagExists
      | None => e ← pEdit (Prolly.Put (tagKey name) (hbytes h)) e; mret (e, tt)
      end);
    mret (mkTag h target (TTime t) (Tagger t) (TMessage t)).

Definition Tags (r : Repo) (p : Principal) : prog (list bytes) :=
  _ ← check r p ActRead (str "repo");
  names r (str "tags/").

Definition Tag_ (r : Repo) (p : Principal) (name : bytes) : prog Tag :=
  _ ← check r p ActRead (tagResource name);
  _ ← pLift (validName name);
  m ← refs r;
  h ← ref m (tagKey name);
  match h with
  | None => pFail VcsTagNotFound
  | Some h => readTag h
  end.

Definition DeleteTag (r : Repo) (p : Principal) (name : bytes) : prog unit :=
  _ ← check r p ActManage (tagResource name);
  _ ← pLift (validName name);
  update r (fun _ m e =>
    x ← ref m (tagKey name);
    match x with
    | None => pFail VcsTagNotFound
    | Some _ => e ← pEdit (Prolly.Delete (tagKey name)) e; mret (e, tt)
    end).
End Handlers.
