(* ===== verification/VcsHistory.v ===== *)
(** * core/vcs: history

    [Log] and [mergeBase] walk commits highest first with a heap. The heap of
    the standard library pops a least element of its order, and is modelled as
    a list of which the least is taken. *)

From S2P Require Import Prelude Wire Hash ChunkStore Prog Auth VcsCodec Vcs.

(** ** [byHeight]: higher first, the lower hash on a tie *)

Definition Less (a b : Commit) : bool :=
  if negb (Height a =? Height b) then Height b <? Height a
  else bltb (hbytes (CHash a)) (hbytes (CHash b)).

(** [heap.Push] and [heap.Pop]: the least of [c] and [q], and the rest. *)
Definition push (q : list Commit) (c : Commit) : list Commit := q ++ [c].

Fixpoint popLeast (c : Commit) (q : list Commit) : Commit * list Commit :=
  match q with
  | [] => (c, [])
  | x :: q =>
      if Less x c then let '(m, r) := popLeast x q in (m, c :: r)
      else let '(m, r) := popLeast c q in (m, x :: r)
  end.

(** ** [Log] *)

(** Queue the parents not seen before. *)
Fixpoint logParents (ps : list hash) (q : list Commit) (seen : gset hash) : prog (list Commit * gset hash) :=
  match ps with
  | [] => mret (q, seen)
  | ph :: ps =>
      if bool_decide (ph ∈ seen) then logParents ps q seen
      else
        pc ← readCommit ph;
        logParents ps (push q pc) ({[ph]} ∪ seen)
  end.

(** The loop: [n] more commits at most. *)
Fixpoint logLoop (n : nat) (q : list Commit) (seen : gset hash) (out : list Commit) : prog (list Commit) :=
  match n, q with
  | O, _ | _, [] => mret out
  | S n, c0 :: q0 =>
      let '(c, q) := popLeast c0 q0 in
      qs ← logParents (Parents c) q seen;
      logLoop n qs.1 qs.2 (out ++ [c])
  end.

Definition Log (r : Repo) (p : Principal) (from : hash) (limit : Z) : prog (list Commit) :=
  _ ← check r p ActRead (str "repo");
  if (limit <? 1) || (MaxLog <? limit) then pFail VcsInvalidLimit
  else
    start ← readCommit from;
    logLoop (Z.to_nat limit) [start] {[from]} [].

(** ** [mergeBase] *)

Definition fromA : Z := 1.
Definition fromB : Z := 2.

Abbreviation Flags := (gmap hash Z).

Definition flagOf (flags : Flags) (h : hash) : Z := default 0 (flags !! h).

(** Queue a commit that has no flags yet, and add [f] to its flags. *)
Definition mark (h : hash) (f : Z) (q : list Commit) (flags : Flags) : prog (list Commit * Flags) :=
  q ← (if flagOf flags h =? 0 then c ← readCommit h; mret (push q c) else mret q);
  mret (q, <[h := Z.lor (flagOf flags h) f]> flags).

Fixpoint markAll (hs : list hash) (f : Z) (q : list Commit) (flags : Flags) : prog (list Commit * Flags) :=
  match hs with
  | [] => mret (q, flags)
  | h :: hs => qf ← mark h f q flags; markAll hs f qf.1 qf.2
  end.

(** The loop; a commit is popped once, so the commits of the two histories
    are enough rounds. *)
Fixpoint baseLoop (fuel : nat) (q : list Commit) (flags : Flags) : prog hash :=
  match fuel with
  | O => pFail (EMsg "no fuel")
  | S fuel =>
      match q with
      | [] => pFail (EMsg "vcs: no shared history")
      | c0 :: q0 =>
          let '(c, q) := popLeast c0 q0 in
          let f := flagOf flags (CHash c) in
          if f =? Z.lor fromA fromB then mret (CHash c)
          else qf ← markAll (Parents c) f q flags; baseLoop fuel qf.1 qf.2
      end
  end.

Definition mergeBase (fuel : nat) (a b : hash) : prog hash :=
  qf ← mark a fromA [] ∅;
  qf ← mark b fromB qf.1 qf.2;
  baseLoop fuel qf.1 qf.2.

Definition MergeBase (fuel : nat) (r : Repo) (p : Principal) (a b : hash) : prog hash :=
  _ ← check r p ActRead (str "repo");
  mergeBase fuel a b.

(** ** Histories *)

(** A commit as the store has it. *)
Definition commitAt (rd : creader) (h : hash) : option Commit :=
  match interp rd (readCommit h) with Ok c => Some c | Err _ => None end.

(** [x] is [h] or an ancestor of it. *)
Inductive reach (rd : creader) : hash -> hash -> Prop :=
| reach_here h : reach rd h h
| reach_parent h c p x : commitAt rd h = Some c -> p ∈ Parents c -> reach rd p x -> reach rd h x.

(** Every commit of the history of [h] reads, and is higher than its parents. *)
Definition history (rd : creader) (h : hash) : Prop :=
  forall x, reach rd h x -> exists c, commitAt rd x = Some c /\
    forall p, p ∈ Parents c -> exists cp, commitAt rd p = Some cp /\ Height cp < Height c.

Section Order.
Context (rd : creader).

Lemma readCommit_reads h : reads_only (readCommit h).
Proof. apply reads_bind; [done|]. intros b. apply reads_bind; [done|]. done. Qed.

Lemma commitAt_read h c : commitAt rd h = Some c -> interp rd (readCommit h) = Ok c.
Proof. unfold commitAt. destruct (interp rd (readCommit h)); [by intros [= ->]|done]. Qed.

Lemma commitAt_hash h c : commitAt rd h = Some c -> CHash c = h.
Proof.
  intros Hc%commitAt_read. unfold readCommit in Hc. rewrite interp_bind in Hc by done. destruct (interp rd (pGet h)) as [b|]; [|done].
  simpl in Hc. destruct (DecodeCommit b); [|done]. by injection Hc as <-.
Qed.

Lemma Less_spec a b : Less a b = true <-> Height b < Height a \/ (Height a = Height b /\ hbytes (CHash a) <b hbytes (CHash b)).
Proof.
  unfold Less. destruct (Z.eqb_spec (Height a) (Height b)) as [E|E]; simpl.
  - rewrite bltb_true. split; [by auto|]. intros [?|[_ ?]]; [lia|done].
  - rewrite Z.ltb_lt. split; [by auto|]. intros [?|[? _]]; [done|lia].
Qed.

Lemma Less_trans a b c : Less a b = true -> Less b c = true -> Less a c = true.
Proof. rewrite !Less_spec. intros [?|[? ?]] [?|[? ?]]; [left; lia..|]. right. split; [lia|]. by eapply blt_trans. Qed.

Lemma Less_total a b : CHash a <> CHash b -> Less a b = true \/ Less b a = true.
Proof.
  intros Hne. rewrite !Less_spec. destruct (Z.lt_trichotomy (Height a) (Height b)) as [|[E|]]; [by auto| |by auto].
  destruct (blt_trichotomy (hbytes (CHash a)) (hbytes (CHash b))) as [|[E2|]]; [by auto| |by auto].
  by apply hash_eq in E2.
Qed.

Lemma popLeast_perm c q m r : popLeast c q = (m, r) -> c :: q ≡ₚ m :: r.
Proof.
  revert c m r. induction q as [|x q IH]; intros c m r; simpl; [by intros [= -> <-]|].
  destruct (Less x c).
  - destruct (popLeast x q) as [m' r'] eqn:E. intros [= <- <-]. apply IH in E. rewrite E. by rewrite Permutation_swap.
  - destruct (popLeast c q) as [m' r'] eqn:E. intros [= <- <-]. apply IH in E.
    rewrite Permutation_swap, E. by rewrite Permutation_swap.
Qed.

(** Commits with names of their own: the least is less than all the others. *)
Lemma popLeast_least c q m r : popLeast c q = (m, r) -> NoDup (map CHash (c :: q)) ->
  forall x, x ∈ r -> Less m x = true.
Proof.
  revert c m r. induction q as [|y q IH]; intros c m r; simpl; [intros [= <- <-] _ x ?%elem_of_nil; done|].
  intros Hp Hnd. apply NoDup_cons in Hnd as [Hc Hnd]. apply NoDup_cons in Hnd as [Hy Hnd].
  rewrite not_elem_of_cons in Hc. destruct Hc as [Hcy Hc].
  destruct (Less y c) eqn:El.
  - destruct (popLeast y q) as [m' r'] eqn:E. injection Hp as <- <-. intros x [->|Hx]%elem_of_cons.
    + pose proof (popLeast_perm _ _ _ _ E) as Hperm. destruct (decide (m' = y)) as [->|Hne]; [done|].
      apply Less_trans with y; [|done]. apply (IH y m' r' E); [by apply NoDup_cons|].
      assert (y ∈ m' :: r') as Hin by (rewrite <-Hperm; left). apply elem_of_cons in Hin as [Hin|Hin]; [congruence|done].
    + apply (IH y m' r' E); [by apply NoDup_cons|done].
  - destruct (popLeast c q) as [m' r'] eqn:E. injection Hp as <- <-. intros x [->|Hx]%elem_of_cons.
    + destruct (Less_total c y Hcy) as [Hl|Hl]; [|congruence].
      pose proof (popLeast_perm _ _ _ _ E) as Hperm. destruct (decide (m' = c)) as [->|Hne]; [done|].
      apply Less_trans with c; [|done]. apply (IH c m' r' E); [by apply NoDup_cons|].
      assert (c ∈ m' :: r') as Hin by (rewrite <-Hperm; left). apply elem_of_cons in Hin as [Hin|Hin]; [congruence|done].
    + apply (IH c m' r' E); [by apply NoDup_cons|done].
Qed.
End Order.

Lemma reach_trans rd a b c : reach rd a b -> reach rd b c -> reach rd a c.
Proof. induction 1 as [|h ch p x Hc Hp _ IH]; [done|]. intros Hbc. by eapply reach_parent; [..|apply IH]. Qed.

Lemma history_reach rd h x : history rd h -> reach rd h x -> history rd x.
Proof. intros Hh Hx y Hy. apply Hh. by eapply reach_trans. Qed.

(** An ancestor is lower. *)
Lemma reach_lower rd h x : reach rd h x -> history rd h -> x = h \/
  exists c cx, commitAt rd h = Some c /\ commitAt rd x = Some cx /\ Height cx < Height c.
Proof.
  induction 1 as [|h c p x Hc Hp Hr IH]; intros Hh; [by left|]. right.
  destruct (Hh h (reach_here rd h)) as (c' & Hc' & Hlow). assert (c' = c) as -> by congruence.
  destruct (Hlow p Hp) as (cp & Hcp & Hlt).
  assert (history rd p) as Hhp by (apply (history_reach rd h); [done|]; eapply reach_parent; [done..|apply reach_here]).
  destruct (IH Hhp) as [->|(c1 & cx & H1 & H2 & H3)]; [by exists c, cp|]. exists c, cx. split_and!; [done|done|].
  assert (c1 = cp) as -> by congruence. lia.
Qed.

(** ** A walk highest first

    [out] are the commits popped and [q] those queued. What both walks of
    this file keep: the commits are distinct and of the history, everything
    popped comes before everything queued, and the parents of what was
    popped are popped or queued. *)
Section Walk.
Context (rd : creader) (starts : list hash) (Hist : forall s, s ∈ starts -> history rd s).

Definition known (out q : list Commit) : list hash := map CHash (out ++ q).

Definition from_start (h : hash) : Prop := exists s, s ∈ starts /\ reach rd s h.

Definition walking (out q : list Commit) : Prop :=
  (forall c, c ∈ out ++ q -> commitAt rd (CHash c) = Some c /\ from_start (CHash c)) /\
  NoDup (known out q) /\
  StronglySorted (fun a b => Less a b = true) out /\
  (forall a b, a ∈ out -> b ∈ q -> Less a b = true) /\
  (forall c p, c ∈ out -> p ∈ Parents c -> p ∈ known out q) /\
  (forall s, s ∈ starts -> s ∈ known out q).

(** The newly queued commits of a list of hashes. *)
Definition queued (hs known : list hash) (new : list Commit) : Prop :=
  NoDup (map CHash new) /\
  (forall c, c ∈ new -> commitAt rd (CHash c) = Some c /\ CHash c ∈ hs /\ CHash c ∉ known) /\
  (forall h, h ∈ hs -> h ∈ known \/ h ∈ map CHash new).

Lemma from_history h : from_start h -> history rd h.
Proof. intros (s & Hs & Hr). by eapply history_reach; [apply Hist|]. Qed.

Lemma from_parent h c p : from_start h -> commitAt rd h = Some c -> p ∈ Parents c -> from_start p.
Proof.
  intros (s & Hs & Hr) Hc Hp. exists s. split; [done|]. eapply reach_trans; [exact Hr|]. eapply reach_parent; [done..|apply reach_here].
Qed.

(** The step of a walk: pop the least, queue its unknown parents. *)
Lemma walking_step out c0 q0 c q new : walking out (c0 :: q0) -> popLeast c0 q0 = (c, q) ->
  queued (Parents c) (known out (c0 :: q0)) new -> walking (out ++ [c]) (q ++ new).
Proof.
  intros (Hin & Hnd & Hsort & Hlt & Hpar & Hst) Hpop (Nnd & Nin & Nall).
  pose proof (popLeast_perm _ _ _ _ Hpop) as Hperm.
  assert (out ++ c0 :: q0 ≡ₚ (out ++ [c]) ++ q) as Hp2 by (rewrite Hperm, <-!app_assoc; done).
  assert ((out ++ [c]) ++ q ++ new ≡ₚ (out ++ c0 :: q0) ++ new) as Hp3 by (rewrite Hp2, <-!app_assoc; done).
  assert (known (out ++ [c]) (q ++ new) ≡ₚ known out (c0 :: q0) ++ map CHash new) as Hkn.
  { unfold known. rewrite Hp3, map_app. done. }
  assert (c ∈ out ++ c0 :: q0) as Hc by (rewrite Hp2; set_solver).
  destruct (Hin c Hc) as [Hcat Hfrom].
  assert (forall x, x ∈ q -> Less c x = true) as Hleast.
  { apply (popLeast_least c0 q0 c q Hpop). unfold known in Hnd. rewrite map_app in Hnd. by apply NoDup_app in Hnd as (_ & _ & ?). }
  assert (forall x, x ∈ out ++ [c] -> x ∈ out \/ x = c) as Hsplit by (intros x [?|?%list_elem_of_singleton]%elem_of_app; auto).
  assert (forall x, x ∈ new -> Less c x = true) as Hnew.
  { intros x Hx. destruct (Nin x Hx) as (Hx1 & Hx2 & _).
    destruct (from_history _ Hfrom _ (reach_here rd _)) as (c' & Hc' & Hlow). assert (c' = c) as -> by congruence.
    destruct (Hlow _ Hx2) as (cp & Hcp & Hh). assert (cp = x) as -> by congruence. apply Less_spec. by left. }
  assert (forall a, a ∈ out -> Less a c = true) as Hout.
  { intros a Ha. apply Hlt; [done|]. rewrite Hperm. left. }
  split_and!.
  - intros x. rewrite Hp3. intros [Hx|Hx]%elem_of_app; [by apply Hin|]. destruct (Nin x Hx) as (Hx1 & Hx2 & _).
    split; [done|]. by eapply from_parent.
  - rewrite Hkn. apply NoDup_app. split_and!; [done| |done]. intros h Hh Hn. apply list_elem_of_fmap in Hn as (x & -> & Hx).
    by destruct (Nin x Hx) as (_ & _ & ?).
  - apply StronglySorted_app. split_and!; [|done|repeat constructor]. intros a b Ha ->%list_elem_of_singleton. by apply Hout.
  - intros a b [Ha| ->]%Hsplit [Hb|Hb]%elem_of_app; [|by eapply Less_trans; [apply Hout|apply Hnew]|by apply Hleast|by apply Hnew].
    apply Hlt; [done|]. rewrite Hperm. by right.
  - intros x p [Hx| ->]%Hsplit Hp; rewrite Hkn, elem_of_app; [left; by eapply Hpar|]. by apply Nall.
  - intros s Hs. rewrite Hkn, elem_of_app. left. by apply Hst.
Qed.

(** Every commit of the history is popped or below something queued. *)
Lemma walking_covers out q x : walking out q -> from_start x ->
  x ∈ map CHash out \/ exists y, y ∈ q /\ reach rd (CHash y) x.
Proof.
  intros (Hin & _ & _ & _ & Hpar & Hst) (s & Hs & Hr). specialize (Hst s Hs). clear Hs.
  induction Hr as [h|h c p x Hc Hp Hr IH]; unfold known in *; rewrite map_app, elem_of_app in Hst; destruct Hst as [Ho|Hq].
  - by left.
  - right. apply list_elem_of_fmap in Hq as (y & -> & Hy). exists y. split; [done|apply reach_here].
  - apply IH. apply list_elem_of_fmap in Ho as (y & -> & Hy). destruct (Hin y) as [Hy' _]; [set_solver|].
    assert (y = c) as -> by congruence. by eapply Hpar.
  - right. apply list_elem_of_fmap in Hq as (y & -> & Hy). exists y. split; [done|]. by eapply reach_parent.
Qed.

(** What is not popped comes after everything that is. *)
Lemma walking_after out q a x cx : walking out q -> a ∈ out -> from_start x -> commitAt rd x = Some cx ->
  x ∉ map CHash out -> Less a cx = true.
Proof.
  intros Hw Ha Hx Hcx Hn. destruct (walking_covers out q x Hw Hx) as [?|(y & Hy & Hr)]; [done|].
  destruct Hw as (Hin & _ & _ & Hlt & _). destruct (Hin y) as [Hyat Hyf]; [set_solver|]. specialize (Hlt a y Ha Hy).
  destruct (reach_lower _ _ _ Hr (from_history _ Hyf)) as [->|(c & cx' & H1 & H2 & H3)].
  - assert (cx = y) as -> by congruence. done.
  - assert (c = y) as -> by congruence. assert (cx' = cx) as -> by congruence. apply Less_trans with y; [done|]. apply Less_spec. by left.
Qed.
End Walk.

(** ** [Log] is the highest commits, highest first *)

Lemma queued_cons rd ph ps kn new pc : commitAt rd ph = Some pc -> ph ∉ kn ->
  queued rd ps (kn ++ [ph]) new -> queued rd (ph :: ps) kn (pc :: new).
Proof.
  intros Hpc Hn (Nnd & Nin & Nall). pose proof (commitAt_hash _ _ _ Hpc) as Hh. split_and!.
  - simpl. rewrite Hh. apply NoDup_cons. split; [|done]. intros (x & E & Hx)%list_elem_of_fmap.
    destruct (Nin x Hx) as (_ & _ & Hx'). apply Hx'. rewrite <-E. set_solver.
  - intros c [->|Hc]%elem_of_cons; [rewrite Hh; set_solver|]. destruct (Nin c Hc) as (H1 & H2 & H3). set_solver.
  - intros h [->|Hin]%elem_of_cons; [right; simpl; rewrite Hh; left|]. destruct (Nall h Hin) as [H1|H1]; [|right; simpl; by right].
    apply elem_of_app in H1 as [H1| ->%list_elem_of_singleton]; [by left|]. right. simpl. rewrite Hh. left.
Qed.

Lemma queued_known rd ph ps kn new : ph ∈ kn -> queued rd ps kn new -> queued rd (ph :: ps) kn new.
Proof.
  intros Hk (H1 & H2 & H3). split_and!; [done| |].
  - intros c Hc. destruct (H2 c Hc) as (A & B & C). set_solver.
  - intros h [->|Hh]%elem_of_cons; [by left|by apply H3].
Qed.

Section Logging.
Context (rd : creader) (from : hash) (Hist : history rd from).

Lemma logParents_reads ps : forall q seen, reads_only (logParents ps q seen).
Proof.
  induction ps as [|ph ps IH]; intros q seen; simpl; [done|]. case_bool_decide; [done|].
  apply reads_bind; [apply readCommit_reads|]. intros. apply IH.
Qed.

Lemma logParents_ok ps : forall q seen kn, (forall h, h ∈ seen <-> h ∈ kn) ->
  (forall p, p ∈ ps -> is_Some (commitAt rd p)) ->
  exists new seen', interp rd (logParents ps q seen) = Ok (q ++ new, seen') /\ queued rd ps kn new /\
    (forall h, h ∈ seen' <-> h ∈ kn ++ map CHash new).
Proof.
  induction ps as [|ph ps IH]; intros q seen kn Hseen Hps; cbn [logParents].
  { exists [], seen. simpl map. rewrite !app_nil_r. split_and!; [done| |done]. split_and!; [by constructor|by intros ? ?%elem_of_nil|by intros ? ?%elem_of_nil]. }
  case_bool_decide as Hin.
  - destruct (IH q seen kn Hseen ltac:(set_solver)) as (new & seen' & E & Hq & Hs). exists new, seen'.
    split_and!; [done| |done]. apply queued_known; [by apply Hseen|done].
  - destruct (Hps ph ltac:(left)) as [pc Hpc]. rewrite interp_bind by apply readCommit_reads. rewrite (commitAt_read _ _ _ Hpc).
    destruct (IH (push q pc) ({[ph]} ∪ seen) (kn ++ [ph]) ltac:(set_solver) ltac:(set_solver)) as (new & seen' & E & Hq & Hs).
    exists (pc :: new), seen'. unfold push in *. rewrite <-app_assoc in E. split_and!; [done| |].
    + apply queued_cons; [done| |done]. by rewrite <-Hseen.
    + intros h. rewrite Hs, <-app_assoc. simpl. by rewrite (commitAt_hash _ _ _ Hpc).
Qed.

Lemma logLoop_ok n : forall q seen out, walking rd [from] out q -> (forall h, h ∈ seen <-> h ∈ known out q) ->
  exists l q', interp rd (logLoop n q seen out) = Ok (out ++ l) /\ walking rd [from] (out ++ l) q' /\
    (length l <= n)%nat /\ ((length l < n)%nat -> q' = []).
Proof.
  induction n as [|n IH]; intros q seen out Hw Hs.
  { exists [], q. rewrite app_nil_r. split_and!; [by destruct q|done|simpl; lia|simpl; lia]. }
  destruct q as [|c0 q0].
  { exists [], []. rewrite app_nil_r. split_and!; [done|done|simpl; lia|done]. }
  cbn [logLoop]. destruct (popLeast c0 q0) as [c q] eqn:Epop.
  assert (forall s, s ∈ [from] -> history rd s) as Hst by (intros s ->%list_elem_of_singleton; done).
  assert (forall p, p ∈ Parents c -> is_Some (commitAt rd p)) as Hpar.
  { pose proof (popLeast_perm _ _ _ _ Epop) as Hperm. destruct Hw as (Hin & _).
    destruct (Hin c) as [Hc Hf]; [rewrite Hperm; set_solver|].
    destruct (from_history rd [from] Hst _ Hf _ (reach_here rd _)) as (c' & Hc' & Hlow). assert (c' = c) as -> by congruence.
    intros p Hp. destruct (Hlow p Hp) as (cp & -> & _). done. }
  destruct (logParents_ok (Parents c) q seen _ Hs Hpar) as (new & seen' & E & Hq & Hs').
  rewrite interp_bind by apply logParents_reads. rewrite E.
  pose proof (walking_step rd [from] Hst out c0 q0 c q new Hw Epop Hq) as Hw'.
  destruct (IH (q ++ new) seen' (out ++ [c]) Hw') as (l & q' & E' & Hl & Hlen & Hend).
  { intros h. rewrite Hs'. pose proof (popLeast_perm _ _ _ _ Epop) as Hperm. unfold known.
    rewrite <-map_app. f_equiv. rewrite Hperm, <-!app_assoc. done. }
  exists (c :: l), q'. rewrite <-app_assoc in E', Hl. split_and!; [done|done|simpl; lia|simpl; intros; apply Hend; lia].
Qed.

Lemma walking_start c : commitAt rd from = Some c -> walking rd [from] [] [c].
Proof.
  intros Hc. pose proof (commitAt_hash _ _ _ Hc) as Hh. split_and!.
  - intros x ->%list_elem_of_singleton. rewrite Hh. split; [done|]. exists from. split; [set_solver|apply reach_here].
  - apply NoDup_singleton.
  - constructor.
  - by intros ? ? ?%elem_of_nil.
  - by intros ? ? ?%elem_of_nil.
  - intros s ->%list_elem_of_singleton. unfold known. simpl. rewrite Hh. left.
Qed.

Lemma logLoop_reads n : forall q seen out, reads_only (logLoop n q seen out).
Proof.
  induction n as [|n IH]; intros [|c0 q0] seen out; simpl; try done. destruct (popLeast c0 q0) as [c q].
  apply reads_bind; [apply logParents_reads|]. intros. apply IH.
Qed.
End Logging.

Lemma Log_reads r p from limit : reads_only (Log r p from limit).
Proof.
  apply reads_bind; [done|]. intros _. destruct (_ || _); [done|]. apply reads_bind; [apply readCommit_reads|].
  intros. apply logLoop_reads.
Qed.

(** C27. [Log] answers the history of a commit, highest first. On a history whose
    commits all read and are higher than their parents, for a caller who may
    read and a limit from 1 to 10,000, it changes nothing and returns at most
    [limit] distinct commits reachable from [from], each as stored, in the
    order of falling height and, at one height, of rising hash; every other
    reachable commit comes after all of them in that order; and fewer than
    [limit] are returned only when they are all there are. *)
Theorem log_highest_first `{HH : Hasher} {S} `{!ChunkStore S} `{!ChunkStoreOk S} (s : S) r p from limit :
  cs_ok s -> history (cs_get s) from -> Check_ (OAuthorizer (o r)) p ActRead (str "repo") = Ok tt -> 1 <= limit <= MaxLog ->
  exists l s', run (Log r p from limit) s = (Ok l, s') /\ cs_view s' = cs_view s /\ cs_rootof s' = cs_rootof s /\
    zlen l <= limit /\ NoDup (map CHash l) /\ StronglySorted (fun a b => Less a b = true) l /\
    (forall c, c ∈ l -> reach (cs_get s) from (CHash c) /\ commitAt (cs_get s) (CHash c) = Some c) /\
    (forall x cx, reach (cs_get s) from x -> commitAt (cs_get s) x = Some cx -> x ∉ map CHash l ->
       zlen l = limit /\ forall c, c ∈ l -> Less c cx = true).
Proof.
  intros Hs Hist Hp Hlim. rewrite get_view in * by done. set (rd := vget (cs_view s)) in *.
  destruct (Hist from (reach_here _ _)) as (c & Hc & _).
  destruct (logLoop_ok rd from Hist (Z.to_nat limit) [c] {[from]} []) as (l & q' & E & Hw & Hlen & Hend).
  { by apply walking_start. }
  { intros h. unfold known. simpl. rewrite (commitAt_hash _ _ _ Hc). set_solver. }
  assert (interp rd (Log r p from limit) = Ok l) as Hi.
  { unfold Log, check. rewrite interp_bind by done. cbn [interp pLift]. rewrite Hp.
    rewrite (proj2 (Z.ltb_ge _ _)), (proj2 (Z.ltb_ge _ _)) by lia. cbn [orb].
    rewrite interp_bind by apply readCommit_reads. by rewrite (commitAt_read _ _ _ Hc). }
  destruct (run_view (Log r p from limit) s Hs) as (s' & Hrun & _ & Hv & Hr).
  rewrite exec_reads in Hrun, Hv, Hr by apply Log_reads. fold rd in Hrun. rewrite Hi in Hrun. simpl in *.
  assert (forall h, reach rd from h -> from_start rd [from] h) as Hfs by (intros h Hh; exists from; split; [set_solver|done]).
  assert (forall z, z ∈ [from] -> history rd z) as Hst by (intros z ->%list_elem_of_singleton; done).
  exists l, s'. pose proof Hw as (Hin & Hnd & Hsort & _). split_and!; [done|done|done|lia| |done| |].
  - unfold known in Hnd. rewrite map_app in Hnd. by apply NoDup_app in Hnd as (? & _).
  - intros x Hx. destruct (Hin x) as [H1 (z & ->%list_elem_of_singleton & H2)]; [set_solver|]. done.
  - intros x cx Hx Hcx Hn. split.
    + destruct (decide (length l < Z.to_nat limit)%nat) as [Hlt|]; [|lia]. rewrite (Hend Hlt) in Hw.
      destruct (walking_covers rd [from] Hst l [] x Hw (Hfs x Hx)) as [?|(y & Hy & _)]; [done|by apply elem_of_nil in Hy].
    + intros a Ha. by eapply (walking_after rd [from] Hst l q' a x cx); auto.
Qed.

(** ** [mergeBase] is the highest common ancestor *)

Section Base.
Context (rd : creader) (a b : hash) (Ha : history rd a) (Hb : history rd b).

(** The two starts, by the bit of their flag. *)
Definition src (i : bool) : hash := if i then b else a.
Definition bit (f : Z) (i : bool) : bool := Z.testbit f (if i then 1 else 0).

Definition common (x : hash) : Prop := reach rd a x /\ reach rd b x.

Lemma starts_hist s : s ∈ [a; b] -> history rd s.
Proof. intros [->| ->%list_elem_of_singleton]%elem_of_cons; done. Qed.

Lemma src_start i : src i ∈ [a; b].
Proof. destruct i; simpl; set_solver. Qed.

Lemma bit_lor f g i : bit (Z.lor f g) i = bit f i || bit g i.
Proof. unfold bit. by rewrite Z.lor_spec. Qed.

Lemma bit_zero i : bit 0 i = false.
Proof. by destruct i. Qed.

(** The flags of known commits, and what they say of where a commit was reached from. *)
Definition flags_ok (flags : Flags) (out q : list Commit) : Prop :=
  (forall h, 0 <= flagOf flags h <= 3) /\ (forall h, flagOf flags h <> 0 <-> h ∈ known out q) /\
  (forall h i, bit (flagOf flags h) i = true -> reach rd (src i) h) /\
  (forall i x, reach rd (src i) x ->
     (x ∈ map CHash out /\ bit (flagOf flags x) i = true) \/
     exists y, y ∈ q /\ bit (flagOf flags (CHash y)) i = true /\ reach rd (CHash y) x).

Definition base_inv (out q : list Commit) (flags : Flags) : Prop :=
  walking rd [a; b] out q /\ flags_ok flags out q /\ (forall c, c ∈ out -> ~ common (CHash c)).

Lemma both_bits f : 0 <= f <= 3 -> f = 3 <-> bit f false = true /\ bit f true = true.
Proof.
  intros Hf. assert (f = 0 \/ f = 1 \/ f = 2 \/ f = 3) as [->|[->|[->| ->]]] by lia; unfold bit; simpl; naive_solver lia.
Qed.

Lemma lor_range f g : 0 <= f <= 3 -> 0 <= g <= 3 -> 0 <= Z.lor f g <= 3.
Proof.
  intros Hf Hg. assert (f = 0 \/ f = 1 \/ f = 2 \/ f = 3) as [->|[->|[->| ->]]] by lia;
  assert (g = 0 \/ g = 1 \/ g = 2 \/ g = 3) as [->|[->|[->| ->]]] by lia; vm_compute; split; discriminate.
Qed.

Lemma lor_nonzero f g : 0 <= f -> 0 <= g -> g <> 0 -> Z.lor f g <> 0.
Proof. intros Hf Hg Hne E. apply Z.lor_eq_0_iff in E as [_ ?]. done. Qed.

(** The flags after [hs] are marked with [f]. *)
Definition marked (flags flags' : Flags) (hs : list hash) (f : Z) : Prop :=
  forall h, flagOf flags' h = if bool_decide (h ∈ hs) then Z.lor (flagOf flags h) f else flagOf flags h.

Lemma mark_reads h f q flags : reads_only (mark h f q flags).
Proof.
  unfold mark. apply reads_bind; [|done]. destruct (_ =? _); [|done]. apply reads_bind; [apply readCommit_reads|done].
Qed.

Lemma markAll_reads hs f : forall q flags, reads_only (markAll hs f q flags).
Proof. induction hs as [|h hs IH]; intros q flags; simpl; [done|]. apply reads_bind; [apply mark_reads|]. intros. apply IH. Qed.

Lemma flagOf_insert flags h f x : flagOf (<[h := f]> flags) x = if decide (h = x) then f else flagOf flags x.
Proof. unfold flagOf. case_decide as E; [subst; by rewrite lookup_insert_eq|by rewrite lookup_insert_ne]. Qed.

Lemma mark_ok h f q flags c : commitAt rd h = Some c ->
  interp rd (mark h f q flags) = Ok (if flagOf flags h =? 0 then push q c else q, <[h := Z.lor (flagOf flags h) f]> flags).
Proof.
  intros Hc. unfold mark. destruct (flagOf flags h =? 0); [|done].
  rewrite interp_bind by (apply reads_bind; [apply readCommit_reads|done]).
  rewrite interp_bind by apply readCommit_reads. by rewrite (commitAt_read _ _ _ Hc).
Qed.

Lemma markAll_ok f hs : 0 < f <= 3 -> forall q flags kn,
  (forall h, 0 <= flagOf flags h) -> (forall h, flagOf flags h <> 0 <-> h ∈ kn) ->
  (forall h, h ∈ hs -> is_Some (commitAt rd h)) ->
  exists new flags', interp rd (markAll hs f q flags) = Ok (q ++ new, flags') /\ queued rd hs kn new /\ marked flags flags' hs f.
Proof.
  intros Hf. induction hs as [|h hs IH]; intros q flags kn Hpos Hkn Hhs; cbn [markAll].
  { exists [], flags. rewrite app_nil_r. split_and!; [done| |by intros h].
    split_and!; [by constructor|by intros ? ?%elem_of_nil|by intros ? ?%elem_of_nil]. }
  destruct (Hhs h ltac:(left)) as [c Hc]. set (flags1 := <[h := Z.lor (flagOf flags h) f]> flags).
  assert (forall x, flagOf flags1 x = if decide (h = x) then Z.lor (flagOf flags h) f else flagOf flags x) as H1 by (intros; apply flagOf_insert).
  assert (forall x, 0 <= flagOf flags1 x) as Hpos1.
  { intros x. rewrite H1. case_decide; [|done]. apply Z.lor_nonneg. split; [done|lia]. }
  assert (forall flags', marked flags1 flags' hs f -> marked flags flags' (h :: hs) f) as Hm.
  { intros flags' Hm x. rewrite Hm, H1. destruct (decide (h = x)) as [<-|Hne].
    - rewrite (bool_decide_eq_true_2 (h ∈ h :: hs)) by left. case_bool_decide; [|done]. by rewrite <-Z.lor_assoc, Z.lor_diag.
    - assert (x ∈ h :: hs <-> x ∈ hs) as Hx by set_solver. by rewrite (bool_decide_ext _ _ Hx). }
  rewrite interp_bind by apply mark_reads.
  rewrite (mark_ok h f q flags c Hc). cbn [fst snd]. fold flags1. destruct (Z.eqb_spec (flagOf flags h) 0) as [E|E].
  - destruct (IH (push q c) flags1 (kn ++ [h]) Hpos1) as (new & flags' & Ei & Hq & Hmk); [|set_solver|].
    { intros x. rewrite H1, elem_of_app, list_elem_of_singleton, <-Hkn. case_decide as Ex; [|naive_solver].
      subst x. rewrite E. pose proof (lor_nonzero 0 f). naive_solver lia. }
    exists (c :: new), flags'. unfold push in Ei. rewrite <-app_assoc in Ei. split_and!; [done| |by apply Hm].
    apply queued_cons; [done| |done]. rewrite <-Hkn. naive_solver.
  - destruct (IH q flags1 kn Hpos1) as (new & flags' & Ei & Hq & Hmk); [|set_solver|].
    { intros x. rewrite H1, <-Hkn. case_decide as Ex; [|done]. subst x. pose proof (lor_nonzero (flagOf flags h) f). naive_solver lia. }
    exists new, flags'. split_and!; [done| |by apply Hm]. apply queued_known; [by apply Hkn|done].
Qed.

(** The least queued commit: its flags say exactly which starts reach it. *)
Lemma popped_flags out c0 q0 c q flags i : base_inv out (c0 :: q0) flags -> popLeast c0 q0 = (c, q) ->
  reach rd (src i) (CHash c) -> bit (flagOf flags (CHash c)) i = true.
Proof.
  intros (Hw & (_ & _ & _ & Hcomp) & _) Hpop Hr. pose proof Hw as (Hin & Hnd & _).
  pose proof (popLeast_perm _ _ _ _ Hpop) as Hperm. unfold known in Hnd. rewrite Hperm, map_app in Hnd.
  apply NoDup_app in Hnd as (_ & Hdis & Hnd).
  destruct (Hcomp i _ Hr) as [[Ho _]|(y & Hy & Hbit & Hry)].
  { exfalso. apply (Hdis _ Ho). simpl. left. }
  assert (c ∈ out ++ c0 :: q0) as Hc by (rewrite Hperm; set_solver). assert (y ∈ out ++ c0 :: q0) as Hyin by set_solver.
  destruct (Hin c Hc) as [Hcat Hcf]. destruct (Hin y Hyin) as [Hyat Hyf].
  destruct (reach_lower _ _ _ Hry (from_history rd [a; b] starts_hist _ Hyf)) as [E|(cy & cc & H1 & H2 & H3)]; [by rewrite E|].
  assert (cy = y) as -> by congruence. assert (cc = c) as -> by congruence.
  rewrite Hperm in Hy. apply elem_of_cons in Hy as [->|Hy]; [lia|].
  assert (Less c y = true) as Hl.
  { eapply popLeast_least; [exact Hpop| |done]. destruct Hw as (_ & Hnd' & _). unfold known in Hnd'. rewrite map_app in Hnd'.
    by apply NoDup_app in Hnd' as (_ & _ & ?). }
  apply Less_spec in Hl. lia.
Qed.

(** Every reachable commit not popped comes no earlier than the next one. *)
Lemma popped_first out c0 q0 c q x cx flags : base_inv out (c0 :: q0) flags -> popLeast c0 q0 = (c, q) ->
  from_start rd [a; b] x -> commitAt rd x = Some cx -> x ∉ map CHash out -> x = CHash c \/ Less c cx = true.
Proof.
  intros (Hw & _) Hpop Hx Hcx Hn. pose proof (popLeast_perm _ _ _ _ Hpop) as Hperm.
  destruct (walking_covers rd [a; b] starts_hist _ _ x Hw Hx) as [?|(y & Hy & Hr)]; [done|].
  pose proof Hw as (Hin & Hnd & _). assert (y ∈ out ++ c0 :: q0) as Hyin by set_solver. destruct (Hin y Hyin) as [Hyat Hyf].
  assert (y = c \/ Less c y = true) as Hcy.
  { rewrite Hperm in Hy. apply elem_of_cons in Hy as [->|Hy]; [by left|]. right. eapply popLeast_least; [exact Hpop| |done].
    unfold known in Hnd. rewrite map_app in Hnd. by apply NoDup_app in Hnd as (_ & _ & ?). }
  destruct (reach_lower _ _ _ Hr (from_history rd [a; b] starts_hist _ Hyf)) as [->|(cy & cx' & H1 & H2 & H3)].
  - destruct Hcy as [->|Hl]; [by left|]. right. by assert (cx = y) as -> by congruence.
  - assert (cy = y) as -> by congruence. assert (cx' = cx) as -> by congruence. right.
    assert (Less y cx = true) by (apply Less_spec; by left). destruct Hcy as [->|Hl]; [done|by eapply Less_trans].
Qed.
Lemma known_step out c0 q0 c q new : popLeast c0 q0 = (c, q) ->
  known (out ++ [c]) (q ++ new) ≡ₚ known out (c0 :: q0) ++ map CHash new.
Proof.
  intros Hpop%popLeast_perm. unfold known. rewrite <-map_app. f_equiv. rewrite Hpop, <-!app_assoc. done.
Qed.

(** Popping a commit that is not common and marking its parents keeps the invariant. *)
Lemma base_step out c0 q0 c q flags flags' new :
  base_inv out (c0 :: q0) flags -> popLeast c0 q0 = (c, q) -> flagOf flags (CHash c) <> 3 ->
  queued rd (Parents c) (known out (c0 :: q0)) new -> marked flags flags' (Parents c) (flagOf flags (CHash c)) ->
  base_inv (out ++ [c]) (q ++ new) flags'.
Proof.
  intros Hinv Hpop Hf3 Hq Hmk. pose proof (popped_flags out c0 q0 c q flags) as Hpf. pose proof Hinv as (Hw & (Hr & Hdom & Hsound & Hcomp) & Hnc).
  pose proof (popLeast_perm _ _ _ _ Hpop) as Hperm.
  pose proof (walking_step rd [a; b] starts_hist out c0 q0 c q new Hw Hpop Hq) as Hw'.
  assert (c ∈ out ++ c0 :: q0) as Hc by (rewrite Hperm; set_solver). pose proof Hw as (Hin & _). destruct (Hin c Hc) as [Hcat Hcf].
  set (f := flagOf flags (CHash c)) in *.
  assert (f <> 0) as Hf0 by (apply Hdom; unfold known; rewrite Hperm, map_app; set_solver).
  assert (forall h i, bit (flagOf flags h) i = true -> bit (flagOf flags' h) i = true) as Hmono.
  { intros h i Hbit. rewrite Hmk. case_bool_decide; [|done]. by rewrite bit_lor, Hbit. }
  split; [done|]. split.
  - split_and!.
    + intros h. rewrite Hmk. case_bool_decide; [|apply Hr]. apply lor_range; apply Hr.
    + intros h. rewrite (known_step out c0 q0 c q new Hpop), elem_of_app, <-Hdom, Hmk. destruct Hq as (_ & Nin & Nall).
      destruct (decide (h ∈ Parents c)) as [Hp|Hp].
      * rewrite bool_decide_eq_true_2 by done. pose proof (Hr h). pose proof (Hr (CHash c)).
        pose proof (lor_nonzero (flagOf flags h) f ltac:(lia) ltac:(unfold f; lia) Hf0) as Hne. split; [intros _|by intros _].
        destruct (Nall h Hp) as [Hk|Hk]; [left; by apply Hdom|by right].
      * rewrite bool_decide_eq_false_2 by done. split; [by left|]. intros [Hx|Hx]; [done|].
        apply list_elem_of_fmap in Hx as (x & -> & Hx). by apply Nin in Hx as (_ & ? & _).
    + intros h i. rewrite Hmk. case_bool_decide as Hp; [|apply Hsound]. rewrite bit_lor, orb_true_iff. intros [Hbit|Hbit]; [by apply Hsound|].
      eapply reach_trans; [by apply Hsound|]. by eapply reach_parent; [..|apply reach_here].
    + intros i x Hx. destruct (Hcomp i x Hx) as [[Ho Hbit]|(y & Hy & Hbit & Hry)].
      { left. split; [rewrite map_app; set_solver|by apply Hmono]. }
      rewrite Hperm in Hy. apply elem_of_cons in Hy as [->|Hy].
      2: { right. exists y. split_and!; [set_solver|by apply Hmono|done]. }
      inversion Hry as [h E|h c' p' x' Hc' Hp' Hr' E1 E2]; subst.
      { left. split; [rewrite map_app; set_solver|by apply Hmono]. }
      assert (c' = c) as -> by congruence. right.
      assert (p' ∈ known (out ++ [c]) (q ++ new)) as Hk by (destruct Hw' as (_ & _ & _ & _ & Hpar' & _); apply (Hpar' c p'); [set_solver|done]).
      unfold known in Hk. rewrite map_app, elem_of_app in Hk. destruct Hk as [Hk|Hk].
      * exfalso. apply list_elem_of_fmap in Hk as (z & -> & Hz). destruct Hw' as (Hin' & _).
        destruct (Hin' z) as [Hzat _]; [set_solver|].
        destruct (from_history rd [a; b] starts_hist _ Hcf _ (reach_here rd _)) as (c2 & Hc2 & Hlow). assert (c2 = c) as -> by congruence.
        destruct (Hlow _ Hp') as (cp & Hcp & Hlt). assert (cp = z) as -> by congruence.
        apply elem_of_app in Hz as [Hz| ->%list_elem_of_singleton]; [|lia].
        destruct Hw as (_ & _ & _ & Hless & _). assert (Less z c = true) as Hl by (apply Hless; [done|]; rewrite Hperm; left).
        apply Less_spec in Hl. lia.
      * apply list_elem_of_fmap in Hk as (z & -> & Hz). exists z. split_and!; [done| |done].
        rewrite Hmk, bool_decide_eq_true_2 by done. rewrite bit_lor. fold f in Hbit. by rewrite Hbit, orb_true_r.
  - intros x [Hx| ->%list_elem_of_singleton]%elem_of_app; [by apply Hnc|]. intros [Hca Hcb]. apply Hf3.
    apply both_bits; [apply Hr|]. split; [by apply (Hpf false Hinv Hpop)|by apply (Hpf true Hinv Hpop)].
Qed.

(** What the search answers: the highest common ancestor, or that there is none. *)
Definition base_post (r : res hash) : Prop :=
  (exists h c, r = Ok h /\ commitAt rd h = Some c /\ common h /\
     forall x cx, common x -> commitAt rd x = Some cx -> x = h \/ Less c cx = true) \/
  (r = Err (EMsg "vcs: no shared history") /\ forall x, ~ common x).

Lemma baseLoop_ok (R : list hash) : (forall x, from_start rd [a; b] x -> x ∈ R) ->
  forall fuel out q flags, (length R < fuel + length out)%nat -> base_inv out q flags -> base_post (interp rd (baseLoop fuel q flags)).
Proof.
  intros HR. induction fuel as [|fuel IH]; intros out q flags Hlen Hinv; pose proof Hinv as (Hw & (Hr & Hdom & _ & Hcomp) & Hnc);
    pose proof Hw as (Hin & Hnd & _).
  { exfalso. assert (map CHash out ⊆+ R) as Hsub.
    { apply NoDup_submseteq; [unfold known in Hnd; rewrite map_app in Hnd; by apply NoDup_app in Hnd as (? & _)|].
      intros x (c & -> & Hc)%list_elem_of_fmap. apply HR. apply Hin. set_solver. }
    apply submseteq_length in Hsub. rewrite length_map in Hsub. lia. }
  destruct q as [|c0 q0]; cbn [baseLoop].
  { right. split; [done|]. intros x [Hxa Hxb]. destruct (Hcomp false x Hxa) as [[Hx _]|(y & Hy & _)]; [|by apply elem_of_nil in Hy].
    apply list_elem_of_fmap in Hx as (c & -> & Hc). by apply (Hnc c Hc). }
  destruct (popLeast c0 q0) as [c q] eqn:Epop. pose proof (popLeast_perm _ _ _ _ Epop) as Hperm.
  assert (c ∈ out ++ c0 :: q0) as Hc by (rewrite Hperm; set_solver). destruct (Hin c Hc) as [Hcat Hcf].
  change (Z.lor fromA fromB) with 3. destruct (Z.eqb_spec (flagOf flags (CHash c)) 3) as [E|E].
  - left. exists (CHash c), c. pose proof Hinv as (_ & (_ & _ & Hsound & _) & _). apply both_bits in E as [E1 E2]; [|apply Hr].
    split_and!; [done|done|split; [by apply (Hsound _ false)|by apply (Hsound _ true)]|].
    intros x cx [Hxa Hxb] Hcx. eapply popped_first; [exact Hinv|exact Epop| |done|].
    + exists a. split; [set_solver|done].
    + intros (z & -> & Hz)%list_elem_of_fmap. by apply (Hnc z Hz).
  - assert (flagOf flags (CHash c) <> 0) as Hf0 by (apply Hdom; unfold known; rewrite Hperm, map_app; set_solver).
    destruct (markAll_ok (flagOf flags (CHash c)) (Parents c) ltac:(pose proof (Hr (CHash c)); lia) q flags _ (fun h => proj1 (Hr h)) Hdom)
      as (new & flags' & Ei & Hq & Hmk).
    { destruct (from_history rd [a; b] starts_hist _ Hcf _ (reach_here rd _)) as (c2 & Hc2 & Hlow). assert (c2 = c) as -> by congruence.
      intros p Hp. destruct (Hlow p Hp) as (cp & -> & _). done. }
    rewrite interp_bind by apply markAll_reads. rewrite Ei. apply (IH (out ++ [c])); [rewrite length_app; simpl; lia|].
    by eapply base_step.
Qed.

(** A walk about to start: the queue holds the starts. *)
Lemma walking_queue q : NoDup (map CHash q) -> (forall s, s ∈ [a; b] <-> s ∈ map CHash q) ->
  (forall c, c ∈ q -> commitAt rd (CHash c) = Some c) -> walking rd [a; b] [] q.
Proof.
  intros Hnd Hst Hat. split_and!.
  - intros c Hc. split; [by apply Hat|]. exists (CHash c). split; [|apply reach_here]. apply Hst. apply list_elem_of_fmap. by exists c.
  - done.
  - constructor.
  - by intros ? ? ?%elem_of_nil.
  - by intros ? ? ?%elem_of_nil.
  - intros s Hs. by apply Hst.
Qed.

Lemma base_start : exists q flags, interp rd (qf ← mark a fromA [] ∅; mark b fromB qf.1 qf.2) = Ok (q, flags) /\ base_inv [] q flags.
Proof.
  destruct (Ha a (reach_here rd a)) as (ca & Hca & _). destruct (Hb b (reach_here rd b)) as (cb & Hcb & _).
  pose proof (commitAt_hash _ _ _ Hca) as Eca. pose proof (commitAt_hash _ _ _ Hcb) as Ecb.
  assert (interp rd (mark a fromA [] ∅) = Ok ([ca], {[a := 1]})) as E1.
  { rewrite (mark_ok _ _ _ _ ca Hca). done. }
  rewrite interp_bind by apply mark_reads. rewrite E1. cbn [fst snd]. rewrite (mark_ok _ _ _ _ cb Hcb).
  assert (forall h, flagOf {[a := 1]} h = if decide (a = h) then 1 else 0) as Hf.
  { intros h. unfold flagOf. case_decide as E; [subst; by rewrite lookup_singleton_eq|by rewrite lookup_singleton_ne]. }
  rewrite !Hf. destruct (decide (a = b)) as [Eab|Hne].
  - eexists _, _. split; [done|]. split; [|split; [|by intros ? ?%elem_of_nil]].
    + apply walking_queue; [apply NoDup_singleton|simpl; set_solver|]. intros c ->%list_elem_of_singleton. congruence.
    + assert (forall h, flagOf (<[b := Z.lor 1 fromB]> {[a := 1]}) h = if decide (a = h) then 3 else 0) as Hf'.
      { intros h. rewrite flagOf_insert, Hf, <-Eab. by case_decide. }
      split_and!.
      * intros h. rewrite Hf'. case_decide; lia.
      * intros h. rewrite Hf'. unfold known. simpl. rewrite Eca. case_decide; set_solver by lia.
      * intros h i. rewrite Hf'. case_decide as E; [|by rewrite bit_zero]. intros _. subst h. destruct i; simpl; [rewrite <-Eab|]; apply reach_here.
      * intros i x Hx. right. exists ca. rewrite Eca, Hf', decide_True by done. split_and!; [left|by destruct i|]. destruct i; [|done]. by rewrite Eab.
  - eexists _, _. split; [done|]. split; [|split; [|by intros ? ?%elem_of_nil]].
    + apply walking_queue; simpl; rewrite ?Eca, ?Ecb; [|done|].
      { apply NoDup_cons. split; [set_solver|apply NoDup_singleton]. }
      intros c [->| ->%list_elem_of_singleton]%elem_of_cons; congruence.
    + assert (forall h, flagOf (<[b := Z.lor 0 fromB]> {[a := 1]}) h = if decide (b = h) then 2 else if decide (a = h) then 1 else 0) as Hf'.
      { intros h. by rewrite flagOf_insert, Hf. }
      split_and!.
      * intros h. rewrite Hf'. repeat case_decide; lia.
      * intros h. rewrite Hf'. unfold known. simpl. rewrite Eca, Ecb. repeat case_decide; set_solver by lia.
      * intros h i. rewrite Hf'. repeat case_decide; subst; [destruct i; [intros _; apply reach_here|done]|destruct i; [done|intros _; apply reach_here]|by rewrite bit_zero].
      * intros i x Hx. right. destruct i; [exists cb|exists ca]; rewrite ?Eca, ?Ecb, Hf'; simpl in Hx.
        -- rewrite decide_True by done. split_and!; [set_solver|done|done].
        -- rewrite decide_False, decide_True by done. split_and!; [left|done|done].
Qed.

Lemma baseLoop_reads fuel : forall q flags, reads_only (baseLoop fuel q flags).
Proof.
  induction fuel as [|fuel IH]; intros q flags; [done|]. destruct q as [|c0 q0]; cbn [baseLoop]; [done|].
  destruct (popLeast c0 q0) as [c q]. destruct (_ =? _); [done|]. apply reads_bind; [apply markAll_reads|]. intros. apply IH.
Qed.

Lemma mergeBase_reads fuel : reads_only (mergeBase fuel a b).
Proof. apply reads_bind; [apply mark_reads|]. intros. apply reads_bind; [apply mark_reads|]. intros. apply baseLoop_reads. Qed.

Lemma mergeBase_ok (R : list hash) fuel : (forall x, from_start rd [a; b] x -> x ∈ R) -> (length R < fuel)%nat ->
  base_post (interp rd (mergeBase fuel a b)).
Proof.
  intros HR Hfuel. destruct base_start as (q & flags & E & Hinv). unfold mergeBase. rewrite interp_bind by apply mark_reads.
  rewrite interp_bind in E by apply mark_reads. destruct (interp rd (mark a fromA [] ∅)) as [qf|]; [|done].
  rewrite interp_bind by apply mark_reads. rewrite E. cbn [fst snd]. apply (baseLoop_ok R HR fuel [] q flags); [simpl; lia|done].
Qed.
End Base.

(** C26. The merge base is a best common ancestor. On two histories whose commits all
    read and are higher than their parents, [mergeBase] changes nothing, ends
    (with as many rounds as the two histories have commits), and returns a
    commit reachable from both such that every other one reachable from both
    is lower, or as high with a greater hash; when no commit is reachable from
    both it says so. *)
Theorem merge_base_is_highest `{HH : Hasher} {S} `{!ChunkStore S} `{!ChunkStoreOk S} (s : S) a b R fuel :
  cs_ok s -> history (cs_get s) a -> history (cs_get s) b ->
  (forall x, reach (cs_get s) a x \/ reach (cs_get s) b x -> x ∈ R) -> (length R < fuel)%nat ->
  exists r s', run (mergeBase fuel a b) s = (r, s') /\ cs_view s' = cs_view s /\ cs_rootof s' = cs_rootof s /\
    base_post (cs_get s) a b r.
Proof.
  intros Hs Ha Hb HR Hfuel. rewrite get_view in * by done.
  destruct (run_view (mergeBase fuel a b) s Hs) as (s' & Hrun & _ & Hv & Hr).
  rewrite exec_reads in Hrun, Hv, Hr by apply mergeBase_reads. simpl in *. eexists _, s'. split; [exact Hrun|].
  split_and!; [done|done|]. apply (mergeBase_ok _ a b Ha Hb R); [|done].
  intros x (z & [->| ->%list_elem_of_singleton]%elem_of_cons & Hx); auto.
Qed.
