(* ===== verification/VcsMerge.v ===== *)
(** * core/vcs: merges

    [Merge], [AbortMerge], [Conflicts] and [ResolveConflict]: a merge in
    progress is part of a branch's working set, with the conflicts left in a
    map of their own. *)

From S2P Require Import Prelude Wire Hash ChunkStore Prog Auth Model Prolly ProllyFlush Object Merge VcsCodec Vcs VcsHistory.

Section Handlers.
Context `{Hasher}.

(** Every conflict is checked before anything is written. *)
Fixpoint recordableAll (cs : list Conflict) : res unit :=
  match cs with
  | [] => Ok tt
  | c :: cs => _ ← recordable c; recordableAll cs
  end.

Fixpoint putConflicts (cs : list Conflict) (e : Prolly.Editor) : prog Prolly.Editor :=
  match cs with
  | [] => mret e
  | c :: cs => e ← pEdit (Prolly.Put (CPath c) (encodeConflict c)) e; putConflicts cs e
  end.

(** The namespace a commit names. *)
Definition commitNamespace (r : Repo) (h : hash) : prog Namespace :=
  c ← readCommit h;
  Namespace_ r (CNamespace c).

(** [Merge]; [fuel] bounds the walk for the merge base. *)
Definition Merge (fuel : nat) (r : Repo) (p : Principal) (branch : bytes) (theirs : hash) : prog Result :=
  _ ← branchCheck r p ActMerge branch;
  m ← refs r;
  hw ← branchRefs m branch;
  ws ← readWorkingSet hw.2;
  match WMerge ws with
  | Some _ => pFail (EMsg "vcs: a merge is already in progress")
  | None =>
      baseHash ← mergeBase fuel hw.1 theirs;
      if bool_decide (baseHash = theirs) then
        ours ← Namespace_ r (Working ws);
        mret (mkResult (Some ours) [] zeroStats)
      else
        base ← commitNamespace r baseHash;
        their ← commitNamespace r theirs;
        our ← Namespace_ r (Working ws);
        res ← Merge.Merge (rreg r) base our their (Merge.mkOptions (OMaxConflicts (o r)));
        _ ← pLift (recordableAll (Merge.Conflicts res));
        match Merged res with
        | None => pFail (EMsg "nil pointer dereference")
        | Some merged =>
            _ ← checkPaths r p branch (Working ws) (NRoot merged);
            conflicts ← Prolly.Empty (conflictsMap (OConfig (o r)));
            ce ← putConflicts (Merge.Conflicts res) (Prolly.NewEditor conflicts);
            conflicts ← ProllyFlush.Flush ce;
            _ ← setWorkingSet r branch ws
                  (mkWorkingSet zero_hash (NRoot merged) (NRoot merged)
                     (Some (mkMergeState baseHash theirs (Prolly.root conflicts.1) (Working ws) (Staged ws)))) false;
            mret res
        end
  end.

Definition AbortMerge (r : Repo) (p : Principal) (branch : bytes) : prog unit :=
  _ ← branchCheck r p ActMerge branch;
  update r (fun _ m e =>
    hw ← branchRefs m branch;
    ws ← readWorkingSet hw.2;
    match WMerge ws with
    | None => pFail VcsNoMerge
    | Some ms =>
        _ ← checkPaths r p branch (Working ws) (PreWorking ms);
        _ ← checkPaths r p branch (Staged ws) (PreStaged ms);
        h ← pPut (encodeWorkingSet (mkWorkingSet zero_hash (PreWorking ms) (PreStaged ms) None));
        e ← pEdit (Prolly.Put (workKey branch) (hbytes h)) e;
        mret (e, tt)
    end).

(** The loop of [Conflicts]: what is listed so far is dropped with an error. *)
Fixpoint conflictsLoop (fuel : nat) (rd : creader) (m : Prolly.Map) (it : Prolly.Iter) : res (list Conflict) :=
  match fuel with
  | O => Err (EMsg "no fuel")
  | S fuel =>
      n ← Prolly.Next rd m it;
      match n.1 with
      | None => Ok []
      | Some (k, v) =>
          c ← decodeConflict k v;
          out ← conflictsLoop fuel rd m n.2;
          Ok (c :: out)
      end
  end.

Definition Conflicts (r : Repo) (p : Principal) (branch : bytes) : prog (list Conflict) :=
  ws ← WorkingSet_ r p branch;
  match WMerge ws with
  | None => mret []
  | Some ms =>
      m ← Prolly.Open (conflictsMap (OConfig (o r))) (MConflictsRoot ms);
      it ← Prolly.IterRange m [] None;
      pRead (fun rd => conflictsLoop (S (Z.to_nat (mcount m))) rd m it)
  end.

(** One namespace with the path settled. *)
Definition settle (r : Repo) (path : bytes) (to : option Ref) (root : hash) : prog hash :=
  n ← Namespace_ r root;
  e ← pEdit (match to with None => Object.Delete path | Some x => Object.Put path x end) (Object.NewEditor n);
  ne ← Object.Flush e;
  mret (NRoot ne.1).

(** One try of [ResolveConflict] up to the swap: the working set read and the one to set. *)
Definition resolved (r : Repo) (p : Principal) (branch path : bytes) (to : option Ref) : prog (WorkingSet * WorkingSet) :=
  ws ← WorkingSet_ r p branch;
  match WMerge ws with
  | None => pFail (EMsg "vcs: no merge is in progress")
  | Some ms =>
      cm ← Prolly.Open (conflictsMap (OConfig (o r))) (MConflictsRoot ms);
      v ← pRead (fun rd => Prolly.Get rd cm path);
      match v with
      | None => pFail (EMsg "vcs: no conflict")
      | Some _ =>
          working ← settle r path to (Working ws);
          staged ← settle r path to (Staged ws);
          ce ← pEdit (Prolly.Delete path) (Prolly.NewEditor cm);
          cm ← ProllyFlush.Flush ce;
          mret (ws, mkWorkingSet (WHash ws) working staged
                 (Some (mkMergeState (MBase ms) (MTheirs ms) (Prolly.root cm.1) (PreWorking ms) (PreStaged ms))))
      end
  end.

Fixpoint resolveLoop (fuel attempt : nat) (r : Repo) (p : Principal) (branch path : bytes) (to : option Ref) : prog unit :=
  match fuel with
  | O => pFail (EMsg "vcs: the working set kept changing")
  | S fuel =>
      _ ← pLift (match attempt with O => Ok tt | S a => pause r a end);
      wn ← resolved r p branch path to;
      try_ (setWorkingSet r branch wn.1 wn.2 false) (fun res =>
        match res with
        | Ok _ => mret tt
        | Err e => if bool_decide (e = VcsConflict) then resolveLoop fuel (S attempt) r p branch path to else pFail e
        end)
  end.

Definition ResolveConflict (r : Repo) (p : Principal) (branch path : bytes) (to : option Ref) : prog unit :=
  _ ← branchCheck r p ActMerge branch;
  _ ← check r p ActWrite (pathResource branch path);
  resolveLoop maxAttempts 0 r p branch path to.
End Handlers.
