(* ===== verification/VcsAtomic.v ===== *)
(** * core/vcs: changes are atomic, beside any other writers

    [update] swaps the root once or not at all, from the root its edit was
    made on; every handler changes the store's root by at most one such swap,
    and by none when it fails. *)

From S2P Require Import Prelude Wire Hash ChunkStore Prog Conc Auth Model ProllyNode Prolly ProllyDiff ProllyFlush ProllyMerge ProllyEditor Object Merge.
From S2P Require Import VcsCodec Vcs VcsHistory VcsMerge.

(** ** What leaves the root alone *)

Ltac rootless :=
  repeat first
    [ exact I | assumption
    | progress intros
    | solve [auto 2 with rootless nocore]
    | apply rootless_bind
    | progress cbn [rootless swapless pLift pFail mret prog_ret pGet pRead pPut try_]
    | case_match ].

Section Rootless.
Context `{Hasher}.

Lemma read_rootless m h : rootless (Prolly.read m h).
Proof. apply rootless_reads, read_reads. Qed.
Lemma child_rootless m p i : rootless (Prolly.child m p i).
Proof. apply rootless_reads, child_reads. Qed.
Lemma seek_rootless m lv k : rootless (Prolly.seek m lv k).
Proof. apply rootless_reads, seek_reads. Qed.
Lemma nextNode_rootless m c : rootless (Prolly.nextNode m c).
Proof. apply rootless_reads, nextNode_reads. Qed.
Lemma prepare_rootless m eds keys : rootless (prepare (cfg m) eds keys).
Proof. apply rootless_puts, prepare_puts. Qed.
Hint Resolve read_rootless child_rootless seek_rootless nextNode_rootless prepare_rootless : rootless.

Lemma store_rootless n ex : rootless (store n ex).
Proof. unfold store. rootless. Qed.
Hint Resolve store_rootless : rootless.

Lemma end_rootless c : rootless (end_ c).
Proof. unfold end_. rootless. Qed.
Hint Resolve end_rootless : rootless.

Lemma add_rootless c e : rootless (add c e).
Proof. unfold add. rootless. Qed.
Hint Resolve add_rootless : rootless.

Lemma mergeLoop_rootless fuel : forall c old eds limit, rootless (mergeLoop fuel c old eds limit).
Proof. induction fuel as [|fuel IH]; intros c old eds limit; cbn [mergeLoop]; rootless. Qed.
Hint Resolve mergeLoop_rootless : rootless.

Lemma stretch_rootless fuel : forall m c ch removed eds, rootless (stretch fuel m c ch removed eds).
Proof. induction fuel as [|fuel IH]; intros m c ch removed eds; cbn [stretch]; unfold merge; rootless. Qed.
Hint Resolve stretch_rootless : rootless.

Lemma levelLoop_rootless fuel : forall m lv eds changed up, rootless (levelLoop fuel m lv eds changed up).
Proof. induction fuel as [|fuel IH]; intros m lv eds changed up; cbn [levelLoop]; rootless. Qed.

Lemma collapse_rootless fuel : forall m n, rootless (collapse fuel m n).
Proof. induction fuel as [|fuel IH]; intros m n; cbn [collapse]; rootless. Qed.

Lemma storeAll_rootless ns : rootless (storeAll ns).
Proof. induction ns as [|n ns IH]; cbn [storeAll]; rootless. Qed.

Lemma addAll_rootless es : forall c, rootless (addAll c es).
Proof. induction es as [|e es IH]; intros c; cbn [addAll]; rootless. Qed.
Hint Resolve levelLoop_rootless collapse_rootless storeAll_rootless addAll_rootless : rootless.

Lemma grow_rootless fuel : forall m lv up, rootless (grow fuel m lv up).
Proof. induction fuel as [|fuel IH]; intros m lv up; cbn [grow]; rootless. Qed.
Hint Resolve grow_rootless : rootless.

Lemma Empty_rootless c : rootless (Prolly.Empty c).
Proof. unfold Prolly.Empty. rootless. Qed.
Hint Resolve Empty_rootless : rootless.

Lemma applyRoot_rootless m rt eds changed : rootless (applyRoot m rt eds changed).
Proof. unfold applyRoot, merge. rootless. Qed.

Lemma applyLoop_rootless n : forall m rt lv eds changed, rootless (applyLoop n m rt lv eds changed).
Proof. induction n as [|n IH]; intros m rt lv eds changed; cbn [applyLoop]; [apply applyRoot_rootless|]. unfold applyLevel. rootless. Qed.
Hint Resolve applyLoop_rootless : rootless.

Lemma Flush_rootless e : rootless (ProllyFlush.Flush e).
Proof. unfold ProllyFlush.Flush, apply_. rootless. Qed.

Lemma Open_rootless c rt : rootless (Prolly.Open c rt).
Proof. unfold Prolly.Open. rootless. Qed.

Lemma pEdit_rootless {A} (f : M A unit) (e : A) : rootless (pEdit f e).
Proof. unfold pEdit. rootless. Qed.
Hint Resolve Flush_rootless Open_rootless pEdit_rootless : rootless.

Lemma Object_Flush_rootless e : rootless (Object.Flush e).
Proof. unfold Object.Flush. rootless. Qed.

Lemma Namespace_rootless r h : rootless (Namespace_ r h).
Proof. unfold Namespace_, Object.Open. rootless. Qed.

Lemma ref_rootless m k : rootless (ref m k).
Proof. unfold ref. rootless. Qed.
Hint Resolve Object_Flush_rootless Namespace_rootless ref_rootless : rootless.

Lemma branchRefs_rootless m b : rootless (branchRefs m b).
Proof. unfold branchRefs. rootless. Qed.

Lemma readCommit_rootless h : rootless (readCommit h).
Proof. unfold readCommit. rootless. Qed.

Lemma readWorkingSet_rootless h : rootless (readWorkingSet h).
Proof. unfold readWorkingSet. rootless. Qed.

Lemma conflictCount_rootless r ws : rootless (conflictCount r ws).
Proof. unfold conflictCount. rootless. Qed.
Hint Resolve branchRefs_rootless readCommit_rootless readWorkingSet_rootless conflictCount_rootless : rootless.

Lemma branchCheck_rootless r p a b : rootless (branchCheck r p a b).
Proof. unfold branchCheck, check. rootless. Qed.

Lemma check_rootless r p a b : rootless (check r p a b).
Proof. exact I. Qed.

Lemma nextOf_rootless d : rootless (nextOf d).
Proof. by intros. Qed.

Lemma Diff_rootless a b : rootless (Object.Diff a b).
Proof. unfold Object.Diff, ProllyDiff.Diff. rootless. Qed.
Hint Resolve branchCheck_rootless check_rootless nextOf_rootless Diff_rootless : rootless.

Lemma checkDiff_rootless fuel : forall r p b d, rootless (checkDiff fuel r p b d).
Proof. induction fuel as [|fuel IH]; intros r p b d; cbn [checkDiff]; rootless. Qed.
Hint Resolve checkDiff_rootless : rootless.

Lemma checkPaths_rootless r p b x y : rootless (checkPaths r p b x y).
Proof. unfold checkPaths. rootless. Qed.

Lemma checkAll_rootless r p b paths : rootless (checkAll r p b paths).
Proof. induction paths as [|c paths IH]; cbn [checkAll]; rootless. Qed.
Hint Resolve checkPaths_rootless checkAll_rootless : rootless.

Lemma checkChanged_rootless r p b x y fl : rootless (checkChanged r p b x y fl).
Proof. induction fl as [|[n|] fl IH]; cbn [checkChanged]; rootless. Qed.
Hint Resolve checkChanged_rootless : rootless.

Lemma checkFroms_rootless r p b froms x fl : forall seen, rootless (checkFroms r p b seen froms x fl).
Proof. induction froms as [|f froms IH]; intros seen; cbn [checkFroms]; rootless. Qed.

Lemma commitOnto_rootless r a p head ms x msg : rootless (commitOnto r a p head ms x msg).
Proof. unfold commitOnto. rootless. Qed.

Lemma land_rootless b c ws e : rootless (land b c ws e).
Proof. unfold land. rootless. Qed.

Lemma mergeBase_rootless fuel a b : rootless (mergeBase fuel a b).
Proof. apply rootless_reads, mergeBase_reads. Qed.

Lemma putConflicts_rootless cs : forall e, rootless (putConflicts cs e).
Proof. induction cs as [|c cs IH]; intros e; cbn [putConflicts]; rootless. Qed.

Lemma settle_rootless r path to h : rootless (settle r path to h).
Proof. unfold settle. rootless. Qed.
Hint Resolve checkFroms_rootless commitOnto_rootless land_rootless mergeBase_rootless putConflicts_rootless settle_rootless : rootless.

(** A model is handed a reader and a writer of chunks, and no root. *)
Definition models_rootless (rg : Registry) : Prop :=
  forall id m, models rg !! id = Some m -> forall b ours theirs, rootless (MMerge m b ours theirs).

Lemma zedit_reg z st f : answers (fun z' => zreg z' = zreg z) (zedit z st f).
Proof. unfold zedit. destruct (f (zed z)) as [[[]|e] ed]; done. Qed.

Lemma zedit_rootless z st f : rootless (zedit z st f).
Proof. unfold zedit. rootless. Qed.
Hint Resolve zedit_rootless : rootless.

Lemma take_rootless z c : rootless (take_ z c).
Proof. unfold take_. rootless. Qed.

Lemma take_reg z c : answers (fun z' => zreg z' = zreg z) (take_ z c).
Proof. unfold take_. destruct (Object.Kind c); apply zedit_reg. Qed.

Lemma both_rootless z ours theirs : models_rootless (zreg z) -> rootless (both z ours theirs).
Proof.
  intros Hm. unfold both. cbv zeta. repeat (destruct (_ : bool); [exact I|]). 
  apply rootless_bind; [exact I|intros _]. apply rootless_bind; [exact I|intros _].
  apply (rootless_answers (fun m => models (zreg z) !! RefModel (To theirs) = Some m)); [exact I| |].
  { destruct (Resolve _ _ _) as [m|] eqn:E; [|exact I]. by apply Resolve_ok in E as [? _]. }
  intros m Hmod. apply rootless_bind; [by eapply Hm|]. rootless.
Qed.

Lemma both_reg z ours theirs : answers (fun z' => zreg z' = zreg z) (both z ours theirs).
Proof.
  unfold both. cbv zeta. repeat (destruct (_ : bool); [done|]).
  eapply answers_bind; [apply answers_any|intros _ _]. eapply answers_bind; [apply answers_any|intros _ _].
  eapply answers_bind; [apply answers_any|intros m _]. eapply answers_bind; [apply answers_any|intros x _].
  destruct (bool_decide _); [done|]. destruct (_ || _); [done|]. apply zedit_reg.
Qed.

Lemma zip_rootless fuel : forall max co dO ct dT z, models_rootless (zreg z) -> rootless (zip fuel max co dO ct dT z).
Proof.
  induction fuel as [|fuel IH]; intros max co dO ct dT z Hm; cbn [zip]; [exact I|].
  assert (rootless (r ← nextOf dO; zip fuel max r.1 r.2 ct dT z)) as Hours by (apply rootless_bind; [by intros|]; intros; by apply IH).
  assert (forall t, rootless (z ← take_ z t; r ← nextOf dT; zip fuel max co dO r.1 r.2 z)) as Htheirs.
  { intros t. eapply rootless_answers; [apply take_rootless|apply take_reg|]. intros z' Hz.
    apply rootless_bind; [by intros|]. intros. apply IH. by rewrite Hz. }
  destruct co as [o|], ct as [t|]; [|done|done|exact I]. destruct (bltb _ _); [done|]. destruct (bltb _ _); [done|].
  eapply rootless_answers; [by apply both_rootless|apply both_reg|]. intros z' Hz. destruct (_ <? _); [exact I|].
  apply rootless_bind; [by intros|]. intros. apply rootless_bind; [by intros|]. intros. apply IH. by rewrite Hz.
Qed.

Lemma Merge_rootless rg base ours theirs op : models_rootless rg -> rootless (Merge.Merge rg base ours theirs op).
Proof.
  intros Hm. unfold Merge.Merge. repeat (destruct (_ : bool); [exact I|]). apply rootless_bind; [|rootless].
  unfold zipped. apply rootless_bind; [apply Diff_rootless|intros]. apply rootless_bind; [apply Diff_rootless|intros].
  apply rootless_bind; [by intros|intros]. apply rootless_bind; [by intros|intros]. by apply zip_rootless.
Qed.
End Rootless.

#[export] Hint Resolve read_rootless child_rootless seek_rootless nextNode_rootless prepare_rootless store_rootless end_rootless
  add_rootless mergeLoop_rootless stretch_rootless levelLoop_rootless collapse_rootless storeAll_rootless addAll_rootless
  grow_rootless Empty_rootless applyLoop_rootless Flush_rootless Open_rootless pEdit_rootless Object_Flush_rootless
  Namespace_rootless ref_rootless branchRefs_rootless readCommit_rootless readWorkingSet_rootless conflictCount_rootless
  branchCheck_rootless check_rootless nextOf_rootless Diff_rootless checkDiff_rootless checkPaths_rootless checkAll_rootless
  checkChanged_rootless checkFroms_rootless commitOnto_rootless land_rootless mergeBase_rootless putConflicts_rootless
  settle_rootless : rootless.

(** ** [update] *)

(** Rounds lost to other writers: in each, the root had moved between the
    look at it and the swap. *)
Inductive lost : nat -> list event -> Prop :=
| lost_none : lost 0 []
| lost_round n rt next seen tr : seen <> rt -> lost n tr -> lost (S n) (Looked rt :: Refused rt next seen :: tr).

Lemma lost_swaps n tr : lost n tr -> swaps tr = [].
Proof. induction 1 as [|n rt next seen tr _ _ IH]; [done|]. exact IH. Qed.

Section Update.
Context `{Hasher}.

(** [p], which leaves the root alone, ended in [x] beside other writers, in a
    store that had [v] when it began and that [v'] has all of at its end. *)
Definition ran {A} (v v' : view) (p : prog A) (x : res A) : Prop :=
  exists v1 rt1 v2 rt2, v ⊆ v1 /\ conc v1 rt1 p [] x v2 rt2 /\ v2 ⊆ v'.

Lemma ran_mono {A} v v' w w' (p : prog A) x : w ⊆ v -> v' ⊆ w' -> ran v v' p x -> ran w w' p x.
Proof. intros Hv Hv' (v1 & rt1 & v2 & rt2 & H1 & Hc & H2). exists v1, rt1, v2, rt2. split_and!; [by etrans|done|by etrans]. Qed.

Lemma conc_ran {A} (p : prog A) v rt x v' rt' : conc v rt p [] x v' rt' -> ran v v' p x.
Proof. intros Hc. by exists v, rt, v', rt'. Qed.

Section Round.
Context {B : Type} (v v' : view) (r : Repo) (fn : nat -> Prolly.Map -> Prolly.Editor -> prog (Prolly.Editor * B)) (attempt : nat).

(** The refs map at the root looked at. *)
Definition refsAt (rt : hash) (x : res Prolly.Map) : Prop :=
  rt <> zero_hash /\ ran v v' (Prolly.Open (refsMap (OConfig (o r))) rt) x /\ (forall m, x = Ok m -> Prolly.root m = rt).

(** Every way a round fails that is not lost to another writer: the wait before
    it, the look at the refs, [fn], the flush, or a swap to a root that is not in
    the store. *)
Inductive failed : list event -> error -> Prop :=
| failed_wait a e : attempt = S a -> pause r a = Err e -> failed [] e
| failed_no_repo : failed [Looked zero_hash] VcsNoRepo
| failed_open rt e : refsAt rt (Err e) -> failed [Looked rt] e
| failed_fn rt m e : refsAt rt (Ok m) -> ran v v' (fn attempt m (Prolly.NewEditor m)) (Err e) -> failed [Looked rt] e
| failed_flush rt m ed b e : refsAt rt (Ok m) -> ran v v' (fn attempt m (Prolly.NewEditor m)) (Ok (ed, b)) ->
    ran v v' (ProllyFlush.Flush ed) (Err e) -> failed [Looked rt] e
| failed_missing rt m ed b m' ed' seen v0 : refsAt rt (Ok m) -> ran v v' (fn attempt m (Prolly.NewEditor m)) (Ok (ed, b)) ->
    ran v v' (ProllyFlush.Flush ed) (Ok (m', ed')) -> v0 ⊆ v' -> v0 !! Prolly.root m' = None \/ Prolly.root m' = zero_hash ->
    failed [Looked rt; Refused rt (Prolly.root m') seen] ChunkRootMissing.

(** What a round that is not lost does: it swaps the root its edit was made on for
    the root of the map edited, or fails, in one of those ways, without a swap. *)
Definition ended (tr : list event) (x : res B) : Prop :=
  match x with
  | Ok b => exists rt m e m' e', tr = [Looked rt; Swapped rt (Prolly.root m')] /\ refsAt rt (Ok m) /\
      ran v v' (fn attempt m (Prolly.NewEditor m)) (Ok (e, b)) /\ ran v v' (ProllyFlush.Flush e) (Ok (m', e'))
  | Err e => failed tr e
  end.

Lemma failed_swaps tr e : failed tr e -> swaps tr = [].
Proof. by destruct 1. Qed.
End Round.

Lemma refsAt_mono v v' w w' r rt x : w ⊆ v -> v' ⊆ w' -> refsAt v v' r rt x -> refsAt w w' r rt x.
Proof. intros Hv Hv' (H1 & H2 & H3). split_and!; [done|by eapply ran_mono|done]. Qed.

Lemma ended_mono {B} v v' w w' r (fn : nat -> Prolly.Map -> Prolly.Editor -> prog (Prolly.Editor * B)) n tr x : w ⊆ v -> v' ⊆ w' ->
  ended v v' r fn n tr x -> ended w w' r fn n tr x.
Proof.
  intros Hv Hv'. destruct x as [b|e]; cbn [ended].
  - intros (rt & m & e & m' & e' & H1 & H2 & H3 & H4). exists rt, m, e, m', e'.
    split_and!; [done|by eapply refsAt_mono|by eapply ran_mono|by eapply ran_mono].
  - destruct 1 as [a e Ha He| |rt e Ho|rt m e Ho Hf|rt m ed b e Ho Hf Hfl|rt m ed b m' ed' seen v0 Ho Hf Hfl H0 Hn];
      try (apply (refsAt_mono _ _ w w') in Ho; [|done|done]); try (apply (ran_mono _ _ w w') in Hf; [|done|done]);
      try (apply (ran_mono _ _ w w') in Hfl; [|done|done]);
      eauto using @failed_wait, @failed_no_repo, @failed_open, @failed_fn, @failed_flush. apply (failed_missing _ _ _ _ _ rt m ed b m' ed' seen v0); [done|done|done|by etrans|done].
Qed.

Definition gaveUp : error := EMsg "vcs: the refs changed under every attempt".

Lemma Open_root c rt : answers (fun m => Prolly.root m = rt) (Prolly.Open c rt).
Proof.
  unfold Prolly.Open. destruct (rule c); [|done]. eapply answers_bind; [apply answers_any|]. intros n _. by destruct (_ && _).
Qed.

Lemma conc_answers {A} (Q : A -> Prop) (p : prog A) : answers Q p -> forall v rt tr a v' rt',
  conc v rt p tr (Ok a) v' rt' -> Q a.
Proof.
  induction p as [x|C g k IH|b k IH|k IH|e n k IH]; simpl; intros Hp v rt tr a v' rt' (v0 & rt0 & _ & Hc)%conc_inv.
  - by destruct Hc as (_ & <- & _).
  - by eapply IH.
  - destruct Hc as [[_ Hc]|[_ Hc]]; by eapply IH.
  - destruct Hc as (tr1 & _ & Hc). by eapply IH.
  - destruct Hc as (tr1 & [(_ & _ & Hc)|(x & _ & _ & Hc)]); by eapply IH.
Qed.

Lemma refs_conc r v rt tr x v' rt' : conc v rt (refs r) tr x v' rt' ->
  exists rt0, tr = [Looked rt0] /\ ((rt0 = zero_hash /\ x = Err VcsNoRepo) \/ refsAt v v' r rt0 x).
Proof.
  intros (tr1 & y & v1 & rt1 & Hc & Hx)%conc_bind. apply conc_inv in Hc as (v0 & rt0 & Hv & tr2 & -> & Hc).
  apply conc_inv in Hc as (? & ? & Hv0 & -> & -> & -> & ->). exists rt0. destruct Hx as (tr2 & Hc & ->).
  unfold IsZero in Hc. case_bool_decide as Hz.
  - apply conc_inv in Hc as (? & ? & _ & -> & -> & _ & _). auto.
  - pose proof (conc_rootless _ (Open_rootless _ _) _ _ _ _ _ _ Hc) as ->. split; [done|]. right. split_and!; [done| |].
    + eapply ran_mono; [by etrans|done|by eapply conc_ran].
    + intros m ->. exact (conc_answers _ _ (Open_root _ _) _ _ _ _ _ _ Hc).
Qed.

(** A step that leaves the root alone, and what follows it. *)
Lemma conc_rootless_bind {A C} (p : prog A) (f : A -> prog C) v rt tr x v' rt' : rootless p -> conc v rt (p ≫= f) tr x v' rt' ->
  (exists e, x = Err e /\ tr = [] /\ ran v v' p (Err e)) \/
  (exists a v1 rt1, ran v v' p (Ok a) /\ v ⊆ v1 /\ conc v1 rt1 (f a) tr x v' rt').
Proof.
  intros Hp (tr1 & y & v1 & rt1 & H1 & Hv & Hv' & Hx)%conc_bind_in. pose proof (conc_rootless _ Hp _ _ _ _ _ _ H1) as ->.
  apply conc_ran, (ran_mono _ _ v v') in H1; [|done|done].
  destruct y as [a|e]; [right|left]; [destruct Hx as (tr2 & H2 & ->); by exists a, v1, rt1|destruct Hx as [-> ->]; by exists e].
Qed.

Context {B : Type} (r : Repo) (fn : nat -> Prolly.Map -> Prolly.Editor -> prog (Prolly.Editor * B))
  (Hfn : forall a m e, rootless (fn a m e)).

(** A swap tried at the end of a round: made, lost, or refused for what it would swap in. *)
Lemma cas_conc {C} rt0 next (f : res unit -> prog C) v rt tr x v' rt' : conc v rt (try_ (pCas rt0 next) f) tr x v' rt' ->
  exists tr1 y v1 rt1, v ⊆ v1 /\ v1 ⊆ v' /\ conc v1 rt1 (f y) tr1 x v' rt' /\
    ((y = Ok tt /\ tr = Swapped rt0 next :: tr1) \/
     exists seen, tr = Refused rt0 next seen :: tr1 /\
       ((y = Err ChunkRootConflict /\ seen <> rt0) \/ (y = Err ChunkRootMissing /\ (v1 !! next = None \/ next = zero_hash)))).
Proof.
  intros (v0 & rt1 & Hv & Hc)%conc_inv. destruct Hc as (tr1 & [(_ & -> & Hc)|(z & Hz & -> & Hc)]).
  - exists tr1, (Ok tt), v0, next. pose proof (conc_grows _ _ _ _ _ _ _ Hc). split_and!; try done. by left.
  - exists tr1, (Err z), v0, rt1. pose proof (conc_grows _ _ _ _ _ _ _ Hc). split_and!; try done. right. exists rt1. split; [done|].
    revert Hz. unfold vcas, IsZero. destruct (bool_decide _ || _) eqn:E.
    + intros Hz. simplify_eq. right. split; [done|]. apply orb_true_iff in E. by rewrite !bool_decide_eq_true in E.
    + clear E. case_bool_decide; intros Hz; simplify_eq. by left.
Qed.

(** One round, and what follows it when it is lost. *)
Lemma round_conc fuel attempt v rt tr x v' rt' : conc v rt (updateLoop (S fuel) attempt r fn) tr x v' rt' ->
  ended v v' r fn attempt tr x \/
  exists rt0 next seen tr1 v1 rt1, seen <> rt0 /\ tr = Looked rt0 :: Refused rt0 next seen :: tr1 /\ v ⊆ v1 /\
    conc v1 rt1 (updateLoop fuel (S attempt) r fn) tr1 x v' rt'.
Proof.
  cbn [updateLoop]. intros Hc.
  apply conc_rootless_bind in Hc as [(e & -> & -> & v1 & ? & v2 & ? & _ & Hp & _)|([] & v1 & rt1 & _ & Hv1 & Hc)]; [| |exact I].
  { left. apply conc_inv in Hp as (? & ? & _ & _ & Hp & _). destruct attempt as [|a]; [done|]. by eapply failed_wait. }
  apply conc_bind_in in Hc as (tr2 & y & v2 & rt2 & Hrefs & Hv2 & Hv2' & Hc). apply refs_conc in Hrefs as (rt0 & -> & Hrefs).
  destruct y as [m|e]; [|destruct Hc as [-> ->]; left; destruct Hrefs as [[-> [= ->]]|Ho]; [apply failed_no_repo|];
    eapply failed_open, refsAt_mono; [| |done]; [by etrans|done]].
  destruct Hrefs as [[_ [=]]|Ho]. assert (Prolly.root m = rt0) as Hroot by by apply Ho.
  apply (refsAt_mono _ _ v v') in Ho; [|by etrans|done]. destruct Hc as (tr3 & Hc & ->). assert (v ⊆ v2) as Hv02 by by etrans.
  apply conc_rootless_bind in Hc as [(e & -> & -> & Hf)|([ed b] & v3 & rt3 & Hf & Hv3 & Hc)]; [| |apply Hfn];
    apply (ran_mono _ _ v v') in Hf; try done. { left. by eapply failed_fn. }
  cbn [fst snd] in Hc. assert (v ⊆ v3) as Hv03 by by etrans.
  apply conc_rootless_bind in Hc as [(e & -> & -> & Hfl)|([m' ed'] & v4 & rt4 & Hfl & Hv4 & Hc)]; [| |apply Flush_rootless];
    apply (ran_mono _ _ v v') in Hfl; try done. { left. by eapply failed_flush. }
  cbn [fst snd] in Hc. rewrite Hroot in Hc.
  apply cas_conc in Hc as (tr4 & y & v5 & rt5 & Hv5 & Hv5' & Hc & [[-> ->]|(seen & -> & [[-> Hs]|[-> Hs]])]).
  - apply conc_inv in Hc as (? & ? & _ & -> & -> & _). left. by exists rt0, m, ed, m', ed'.
  - right. exists rt0, (Prolly.root m'), seen, tr4, v5, rt5. split_and!; [done|done| |done]. do 2 (etrans; [|done]). done.
  - apply conc_inv in Hc as (? & ? & _ & -> & -> & _). left. by eapply failed_missing.
Qed.

Lemma updateLoop_conc fuel : forall attempt v rt tr x v' rt',
  conc v rt (updateLoop fuel attempt r fn) tr x v' rt' ->
  exists n tr0 own, tr = tr0 ++ own /\ lost n tr0 /\
    ((n = fuel /\ own = [] /\ x = Err gaveUp) \/ ((n < fuel)%nat /\ ended v v' r fn (attempt + n) own x)).
Proof.
  induction fuel as [|fuel IH]; intros attempt v rt tr x v' rt' Hc.
  { apply conc_inv in Hc as (? & ? & _ & -> & -> & _). exists 0%nat, [], []. split_and!; [done|constructor|]. by left. }
  apply round_conc in Hc as [He|(rt0 & next & seen & tr1 & v1 & rt1 & Hs & -> & Hv & Hc)].
  { exists 0%nat, [], tr. split_and!; [done|constructor|]. right. rewrite Nat.add_0_r. split; [lia|done]. }
  destruct (IH _ _ _ _ _ _ _ Hc) as (n & tr0 & own & -> & Hl & Hx).
  exists (S n), (Looked rt0 :: Refused rt0 next seen :: tr0), own. split_and!; [done|by constructor|].
  destruct Hx as [(-> & -> & ->)|[Hn Hx]]; [by left|]. right. split; [lia|]. rewrite Nat.add_succ_r. by eapply ended_mono.
Qed.
End Update.

(** ** Handlers *)

(** The calls that change a repository. *)
Inductive call :=
| CUpdateWorkingSet (branch : bytes) (prev next : WorkingSet) (flushed : list (option Namespace))
| CCommitWorkingSet (branch message : bytes) (flushed : list (option Namespace))
| CCommit (branch : bytes) (prev : WorkingSet) (namespace : hash) (flushed : list (option Namespace)) (message : bytes)
| CCreateBranch (name : bytes) (at_ : hash)
| CDeleteBranch (checkedOut : gmap bytes Z) (name : bytes)
| CCreateTag (name : bytes) (target : hash) (message : bytes)
| CDeleteTag (name : bytes)
| CMerge (fuel : nat) (branch : bytes) (theirs : hash)
| CAbortMerge (branch : bytes)
| CResolveConflict (branch path : bytes) (to : option Ref).

Definition pDrop {A} (p : prog A) : prog unit := _ ← p; mret tt.

Definition handle `{Hasher} (r : Repo) (p : Principal) (c : call) : prog unit :=
  match c with
  | CUpdateWorkingSet b prev next fl => pDrop (updateWorkingSet r p b prev next fl)
  | CCommitWorkingSet b msg fl => pDrop (commitWorkingSet r p b msg fl)
  | CCommit b prev ns fl msg => pDrop (commit r p b prev ns fl msg)
  | CCreateBranch name at_ => CreateBranch r p name at_
  | CDeleteBranch ss name => DeleteBranch r ss p name
  | CCreateTag name target msg => pDrop (CreateTag r p name target msg)
  | CDeleteTag name => DeleteTag r p name
  | CMerge fuel b theirs => pDrop (VcsMerge.Merge fuel r p b theirs)
  | CAbortMerge b => AbortMerge r p b
  | CResolveConflict b path to => ResolveConflict r p b path to
  end.

(** One swap, from the root just looked at. *)
Definition published (tr : list event) : Prop :=
  exists tr0 rt next, tr = tr0 ++ [Looked rt; Swapped rt next] /\ swaps tr0 = [].

(** All or nothing: a success is published, and a failure changed nothing. *)
Definition all_or_nothing {A} `{Hasher} (p : prog A) : Prop :=
  forall v rt tr x v' rt', conc v rt p tr x v' rt' ->
    match x with
    | Ok _ => published tr
    | Err _ => swaps tr = []
    end.

(** Why a merge of [theirs] into [branch] had nothing to do: at the root it looked
    at the branch's working set had no merge in progress, and the merge base of
    the branch's head and [theirs] was [theirs] itself. *)
Definition up_to_date `{Hasher} (v v' : view) (r : Repo) (fuel : nat) (branch : bytes) (theirs : hash) (tr : list event) : Prop :=
  exists rt m head work ws, tr = [Looked rt] /\ refsAt v v' r rt (Ok m) /\ ran v v' (branchRefs m branch) (Ok (head, work)) /\
    ran v v' (readWorkingSet work) (Ok ws) /\ WMerge ws = None /\ ran v v' (mergeBase fuel head theirs) (Ok theirs).

Lemma swaps_app a b : swaps (a ++ b) = swaps a ++ swaps b.
Proof. apply omap_app. Qed.

Section Handlers.
Context `{Hasher}.

Lemma up_to_date_mono v v' w w' r fuel b theirs tr : w ⊆ v -> v' ⊆ w' ->
  up_to_date v v' r fuel b theirs tr -> up_to_date w w' r fuel b theirs tr.
Proof.
  intros Hv Hv' (rt & m & head & work & ws & H1 & H2 & H3 & H4 & H5 & H6). exists rt, m, head, work, ws.
  split_and!; [done|by eapply refsAt_mono|by eapply ran_mono|by eapply ran_mono|done|by eapply ran_mono].
Qed.

#[local] Opaque update maxAttempts.

Lemma published_app tr1 tr2 : swaps tr1 = [] -> published tr2 -> published (tr1 ++ tr2).
Proof. intros H1 (tr0 & rt0 & next & -> & Hs). exists (tr1 ++ tr0), rt0, next. by rewrite app_assoc, swaps_app, H1, Hs. Qed.

Lemma aon_bind {A B} (p : prog A) (f : A -> prog B) : swapless p -> (forall a, all_or_nothing (f a)) -> all_or_nothing (p ≫= f).
Proof.
  intros Hp Hf v rt tr x v' rt' (tr1 & y & v1 & rt1 & H1 & Hx)%conc_bind. apply conc_swapless in H1; [|done].
  destruct y as [a|e]; [|by destruct Hx as [-> ->]]. destruct Hx as (tr2 & H2 & ->). specialize (Hf a _ _ _ _ _ _ H2).
  destruct x as [b|e]; [|by rewrite swaps_app, H1]. by apply published_app.
Qed.

Lemma aon_then {A B} (p : prog A) (f : A -> prog B) : all_or_nothing p -> (forall a, exists b, f a = mret b) ->
  all_or_nothing (p ≫= f).
Proof.
  intros Hp Hf v rt tr x v' rt' (tr1 & y & v1 & rt1 & H1 & Hx)%conc_bind. specialize (Hp _ _ _ _ _ _ H1).
  destruct y as [a|e]; [|by destruct Hx as [-> ->]]. destruct Hx as (tr2 & H2 & ->).
  destruct (Hf a) as [b Eb]. rewrite Eb in H2. apply conc_inv in H2 as (? & ? & _ & -> & -> & _). by rewrite app_nil_r.
Qed.

Lemma aon_fail {A} (e : error) : all_or_nothing (@pFail A e).
Proof. intros v rt tr x v' rt' (? & ? & _ & -> & -> & _)%conc_inv. done. Qed.

Lemma update_aon {B} r (fn : nat -> Prolly.Map -> Prolly.Editor -> prog (Prolly.Editor * B)) :
  (forall a m e, rootless (fn a m e)) -> all_or_nothing (update r fn).
Proof.
  intros Hfn v rt tr x v' rt' Hc. destruct (updateLoop_conc r fn Hfn _ _ _ _ _ _ _ _ Hc) as (n & tr0 & own & -> & Hl%lost_swaps & Hx).
  destruct Hx as [(_ & -> & ->)|[_ Hx]]; [by rewrite app_nil_r|]. destruct x as [b|e]; simpl in Hx.
  - destruct Hx as (rt0 & m & e & m' & e' & -> & _). by exists tr0, rt0, (Prolly.root m').
  - by rewrite swaps_app, Hl, (failed_swaps _ _ _ _ _ _ _ Hx).
Qed.

Lemma refs_swapless r : swapless (refs r).
Proof. intros rt. destruct rt as [h|]; [|done]. simpl. destruct (IsZero h); [done|]. apply rootless_swapless, Open_rootless. Qed.

Lemma setWorkingSet_aon r b prev next keep : all_or_nothing (setWorkingSet r b prev next keep).
Proof.
  unfold setWorkingSet. apply aon_bind; [by intros|intros h].
  apply aon_then; [|eauto]. apply update_aon. intros. rootless.
Qed.

Lemma WorkingSet_swapless r p b : swapless (WorkingSet_ r p b).
Proof.
  apply swapless_bind; [apply rootless_swapless, branchCheck_rootless|intros _].
  apply swapless_bind; [apply refs_swapless|intros m]. apply rootless_swapless. rootless.
Qed.

Lemma resolved_swapless r p b path to : swapless (resolved r p b path to).
Proof. apply swapless_bind; [apply WorkingSet_swapless|intros ws]. apply rootless_swapless. rootless. Qed.

Lemma resolveLoop_aon fuel : forall a r p b path to, all_or_nothing (resolveLoop fuel a r p b path to).
Proof.
  induction fuel as [|fuel IH]; intros a r p b path to; cbn [resolveLoop]; [apply aon_fail|].
  apply aon_bind; [by destruct (match a with O => _ | _ => _ end)|intros _]. apply aon_bind.
  { apply resolved_swapless. }
  intros [prev next] v rt tr x v' rt' (tr1 & y & v1 & rt1 & tr2 & H1 & H2 & ->)%conc_try. cbn [fst snd] in *.
  apply setWorkingSet_aon in H1. destruct y as [w|e].
  - apply conc_inv in H2 as (? & ? & _ & -> & -> & _). by rewrite app_nil_r.
  - destruct (bool_decide _).
    + specialize (IH _ _ _ _ _ _ _ _ _ _ _ _ H2). destruct x as [u|]; [|by rewrite swaps_app, H1, IH].
      by apply published_app.
    + apply conc_inv in H2 as (? & ? & _ & -> & -> & _). by rewrite app_nil_r.
Qed.

Lemma aon_rootless {A B} (p : prog A) (f : A -> prog B) : rootless p -> (forall a, all_or_nothing (f a)) -> all_or_nothing (p ≫= f).
Proof. intros Hp. apply aon_bind. by apply rootless_swapless. Qed.

Lemma aon_drop {A} (p : prog A) : all_or_nothing p -> all_or_nothing (pDrop p).
Proof. intros Hp. apply aon_then; [done|eauto]. Qed.

Lemma updateWorkingSet_aon r p b prev next fl : all_or_nothing (updateWorkingSet r p b prev next fl).
Proof. unfold updateWorkingSet. do 4 (apply aon_rootless; [rootless|intros ?]). apply setWorkingSet_aon. Qed.

Lemma commitWorkingSet_aon r p b msg fl : all_or_nothing (commitWorkingSet r p b msg fl).
Proof.
  unfold commitWorkingSet. apply aon_rootless; [rootless|intros _]. destruct (badMessage msg); [apply aon_fail|].
  apply update_aon. intros. rootless.
Qed.

Lemma commit_aon r p b prev ns fl msg : all_or_nothing (commit r p b prev ns fl msg).
Proof.
  unfold commit. do 2 (apply aon_rootless; [rootless|intros _]). destruct (badMessage msg); [apply aon_fail|].
  apply update_aon. intros. rootless.
Qed.

Lemma CreateBranch_aon r p name at_ : all_or_nothing (CreateBranch r p name at_).
Proof. unfold CreateBranch. do 3 (apply aon_rootless; [rootless|intros ?]). apply update_aon. intros. rootless. Qed.

Lemma DeleteBranch_aon r ss p name : all_or_nothing (DeleteBranch r ss p name).
Proof.
  unfold DeleteBranch. apply aon_rootless; [rootless|intros _]. destruct (_ <? _); [apply aon_fail|]. apply update_aon. intros. rootless.
Qed.

Lemma CreateTag_aon r p name target msg : all_or_nothing (CreateTag r p name target msg).
Proof.
  unfold CreateTag. do 2 (apply aon_rootless; [rootless|intros _]). destruct (badMessage msg); [apply aon_fail|].
  do 2 (apply aon_rootless; [rootless|intros ?]). apply aon_then; [|eauto]. apply update_aon. intros. rootless.
Qed.

Lemma DeleteTag_aon r p name : all_or_nothing (DeleteTag r p name).
Proof. unfold DeleteTag. do 2 (apply aon_rootless; [rootless|intros _]). apply update_aon. intros. rootless. Qed.

Lemma Merge_conc fuel r p b theirs v rt tr x v' rt' : models_rootless (rreg r) ->
  conc v rt (VcsMerge.Merge fuel r p b theirs) tr x v' rt' ->
  match x with
  | Ok _ => published tr \/ up_to_date v v' r fuel b theirs tr
  | Err _ => swaps tr = []
  end.
Proof.
  intros Hm Hc. unfold VcsMerge.Merge in Hc.
  apply conc_rootless_bind in Hc as [(e & -> & -> & _)|([] & v1 & rt1 & _ & Hv1 & Hc)]; [done| |rootless].
  apply conc_bind_in in Hc as (tr2 & y & v2 & rt2 & Hrefs & Hv2 & Hv2' & Hc). apply refs_conc in Hrefs as (rt0 & -> & Hrefs).
  destruct y as [m|e]; [|by destruct Hc as [-> ->]]. destruct Hrefs as [[_ [=]]|Ho].
  apply (refsAt_mono _ _ v v') in Ho; [|by etrans|done]. destruct Hc as (tr3 & Hc & ->). assert (v ⊆ v2) as Hv02 by by etrans.
  apply conc_rootless_bind in Hc as [(e & -> & -> & _)|([head work] & v3 & rt3 & Hbr & Hv3 & Hc)]; [done| |rootless].
  cbn [fst snd] in Hc. apply (ran_mono _ _ v v') in Hbr; [|done|done]. assert (v ⊆ v3) as Hv03 by by etrans.
  apply conc_rootless_bind in Hc as [(e & -> & -> & _)|(ws & v4 & rt4 & Hws & Hv4 & Hc)]; [done| |rootless].
  apply (ran_mono _ _ v v') in Hws; [|done|done]. assert (v ⊆ v4) as Hv04 by by etrans.
  destruct (WMerge ws) eqn:Ems; [apply conc_inv in Hc as (? & ? & _ & -> & -> & _); done|].
  apply conc_rootless_bind in Hc as [(e & -> & -> & _)|(base & v5 & rt5 & Hb & Hv5 & Hc)]; [done| |rootless].
  apply (ran_mono _ _ v v') in Hb; [|done|done]. case_bool_decide as Heq.
  { subst base. apply conc_rootless in Hc as ->; [|rootless]. destruct x; [|done].
    right. by exists rt0, m, head, work, ws. }
  match type of Hc with conc _ _ ?q _ _ _ _ => assert (all_or_nothing q) as Ha end.
  { do 2 (apply aon_rootless; [unfold commitNamespace; rootless|intros ?]). apply aon_rootless; [rootless|intros ?].
    apply aon_rootless; [by apply Merge_rootless|intros res]. apply aon_rootless; [exact I|intros _].
    destruct (Merged res) as [merged|]; [|apply aon_fail]. do 4 (apply aon_rootless; [rootless|intros ?]).
    apply aon_then; [|eauto]. apply setWorkingSet_aon. }
  apply Ha in Hc. destruct x; [left; by apply published_app|by rewrite swaps_app, Hc].
Qed.

Lemma AbortMerge_aon r p b : all_or_nothing (AbortMerge r p b).
Proof. unfold AbortMerge. apply aon_rootless; [rootless|intros _]. apply update_aon. intros. rootless. Qed.

Lemma ResolveConflict_aon r p b path to : all_or_nothing (ResolveConflict r p b path to).
Proof. unfold ResolveConflict. do 2 (apply aon_rootless; [rootless|intros _]). apply resolveLoop_aon. Qed.

Lemma handle_conc r p c v rt tr x v' rt' : models_rootless (rreg r) -> conc v rt (handle r p c) tr x v' rt' ->
  match x with
  | Ok _ => published tr \/ exists fuel branch theirs, c = CMerge fuel branch theirs /\ up_to_date v v' r fuel branch theirs tr
  | Err _ => swaps tr = []
  end.
Proof.
  intros Hm Hc. assert (all_or_nothing (handle r p c) \/ exists fuel branch theirs, c = CMerge fuel branch theirs)
    as [Ha|(fuel & branch & theirs & ->)].
  { destruct c; cbn [handle]; eauto; left; try apply aon_drop;
      eauto using updateWorkingSet_aon, commitWorkingSet_aon, commit_aon, CreateBranch_aon, DeleteBranch_aon, CreateTag_aon,
        DeleteTag_aon, AbortMerge_aon, ResolveConflict_aon. }
  { apply Ha in Hc. destruct x; [by left|done]. }
  apply conc_bind_in in Hc as (tr1 & y & v1 & rt1 & Hc & Hv & Hv' & Hx). apply Merge_conc in Hc; [|done].
  destruct y as [res|e]; [|by destruct Hx as [-> ->]]. destruct Hx as (tr2 & H2 & ->).
  apply conc_inv in H2 as (? & ? & _ & -> & -> & _). rewrite app_nil_r. destruct Hc as [Hc|Hc]; [by left|right].
  exists fuel, branch, theirs. split; [done|]. by apply (up_to_date_mono v v1).
Qed.
End Handlers.

(** C6. Every change of a repository is all or nothing, beside any other writers.
    Whatever they store and wherever they move the root between any two
    steps of a call, a call that fails has moved the root nowhere, and one
    that succeeds has moved it exactly once, as its last step, from the root
    it looked at just before. One success moves nothing: a merge of a commit
    that is, in what the call read of the store, the merge base of itself and
    the branch's head, so that the branch holds it already, with no merge in
    progress. Models are handed no way to move the root. *)
Theorem calls_are_all_or_nothing `{Hasher} r p c v rt tr x v' rt' :
  models_rootless (rreg r) -> conc v rt (handle r p c) tr x v' rt' ->
  match x with
  | Ok _ => (exists tr0 rt0 next, tr = tr0 ++ [Looked rt0; Swapped rt0 next] /\ swaps tr0 = []) \/
            (exists fuel branch theirs, c = CMerge fuel branch theirs /\ up_to_date v v' r fuel branch theirs tr)
  | Err _ => swaps tr = []
  end.
Proof. exact (handle_conc r p c v rt tr x v' rt'). Qed.

(** C7. No update is lost. When [update] succeeds its one swap replaced the root
    [rt] it looked at by the root of a map that [Flush] wrote from the edits
    [fn] made of the refs map stored at [rt]: so whatever another writer put
    there before the swap is what was edited. When it fails it swapped
    nothing. *)
Theorem update_swaps_what_it_edited `{Hasher} {B} r (fn : nat -> Prolly.Map -> Prolly.Editor -> prog (Prolly.Editor * B)) v rt tr x v' rt' :
  (forall a m e, rootless (fn a m e)) -> conc v rt (update r fn) tr x v' rt' ->
  match x with
  | Ok b => exists rt0 m e m' e' attempt, swaps tr = [(rt0, Prolly.root m')] /\ Prolly.root m = rt0 /\
      ran v v' (Prolly.Open (refsMap (OConfig (o r))) rt0) (Ok m) /\ ran v v' (fn attempt m (Prolly.NewEditor m)) (Ok (e, b)) /\
      ran v v' (ProllyFlush.Flush e) (Ok (m', e'))
  | Err _ => swaps tr = []
  end.
Proof.
  intros Hfn Hc. destruct (updateLoop_conc r fn Hfn _ _ _ _ _ _ _ _ Hc) as (n & tr0 & own & -> & Hl%lost_swaps & Hx).
  rewrite swaps_app, Hl. destruct Hx as [(_ & -> & ->)|[_ Hx]]; [done|]. destruct x as [b|e]; [|by eapply failed_swaps].
  destruct Hx as (rt0 & m & e & m' & e' & -> & (_ & H1 & H2) & H3 & H4). exists rt0, m, e, m', e', (0 + n)%nat. split_and!; [done|by apply H2|done|done|done].
Qed.

(** C24. A writer waits only for writers that got through. Every round [update] gives
    up and tries again is one in which another writer had moved the root
    between its look and its swap. The round after those is its last: in it
    the swap is made, or an error ends the call that is not a lost race (of
    the wait, of the look at the refs, of [fn], of the flush, or of a swap to a
    root not in the store), and each such error is one that very step gave. An
    error of [update]'s own it gives only when it has lost all of its 1,000 rounds. *)
Theorem update_retries_only_lost_races `{Hasher} {B} r (fn : nat -> Prolly.Map -> Prolly.Editor -> prog (Prolly.Editor * B)) v rt tr x v' rt' :
  (forall a m e, rootless (fn a m e)) -> conc v rt (update r fn) tr x v' rt' ->
  exists n tr0 own, tr = tr0 ++ own /\ lost n tr0 /\
    ((n = maxAttempts /\ own = [] /\ x = Err gaveUp) \/ ((n < maxAttempts)%nat /\ ended v v' r fn n own x)).
Proof. intros Hfn Hc. exact (updateLoop_conc r fn Hfn maxAttempts 0 _ _ _ _ _ _ Hc). Qed.
