(* ===== verification/VcsAccess.v ===== *)
(** * core/vcs: what is asked before anything changes

    The paths a change would alter, as [checkPaths] and [checkChanged] find
    them, and the permissions every handler asks for before it reads or
    writes anything. *)

From S2P Require Import Prelude Wire Hash ChunkStore Prog Auth Model ProllyNode Prolly ProllyDiff ProllyDraw ProllyFlush Object Namespace Merge.
From S2P Require Import VcsCodec Vcs VcsHistory VcsMerge VcsAtomic.

(** ** Opening what is stored *)

Section Opening.
Context `{Hasher}.

(** The namespace stored at [h] holds [σ]. *)
Definition ns_at (rd : creader) (c : Config) (h : hash) (σ : gmap bytes Ref) : Prop :=
  exists n, holds rd n σ /\ NRoot n = h /\ cfg (nm n) = namespace c.

Lemma Namespace_reads r h : reads_only (Namespace_ r h).
Proof. unfold Namespace_, Object.Open. apply reads_bind; [apply Open_reads|done]. Qed.

Lemma Namespace_at rd r h σ : ns_at rd (OConfig (o r)) h σ ->
  exists n, interp rd (Namespace_ r h) = Ok n /\ holds rd n σ /\ NRoot n = h /\ cfg (nm n) = namespace (OConfig (o r)) /\ reg n = rreg r.
Proof.
  intros (n & (H1 & H2 & H3 & es & Hc & Hes) & <- & Hcfg). exists (mkNamespace (opened (nm n)) (rreg r)). unfold Namespace_, Object.Open.
  rewrite interp_bind by apply Open_reads. rewrite <-Hcfg. unfold NRoot. rewrite (Open_at rd (nm n) es Hc).
  split_and!; try done. split; [exact H1|]. split; [exact H2|]. split; [exact H3|]. by exists es.
Qed.

(** A root names one namespace. *)
Lemma ns_at_inj rd c h σ τ : ns_at rd c h σ -> ns_at rd c h τ -> σ = τ.
Proof.
  intros (n & (_ & _ & Hs & es & Hc & Hes) & <- & Hcfg) (n' & (_ & _ & Ht & es' & Hc' & Hes') & Hroot & Hcfg').
  assert (es = es') as <-.
  { destruct (canonical_map_ok _ _ _ Hc) as (_ & x & _ & Hx & _ & <- & _).
    destruct (canonical_map_ok _ _ _ Hc') as (_ & x' & _ & Hx' & _ & <- & _).
    unfold NRoot in Hroot. rewrite Hcfg, Hcfg', Hroot in *. congruence. }
  apply map_eq. intros k. apply (binding_inj σ τ k Hs Ht). by rewrite <-Hes, <-Hes'.
Qed.
End Opening.

(** ** The paths a change alters *)

Section Paths.
Context `{Hasher} (rd : creader) (r : Repo) (p : Principal) (branch : bytes).

Definition allowed (path : bytes) : res unit := Check_ (OAuthorizer (o r)) p ActWrite (pathResource branch path).

(** The answer of asking for the paths in turn: the first refusal. *)
Fixpoint asked (paths : list bytes) : res unit :=
  match paths with
  | [] => Ok tt
  | x :: xs => match allowed x with Ok _ => asked xs | Err e => Err e end
  end.

Lemma asked_ok paths : asked paths = Ok tt <-> forall x, x ∈ paths -> allowed x = Ok tt.
Proof.
  induction paths as [|x xs IH]; simpl; [split; [by intros _ ? ?%elem_of_nil|done]|]. destruct (allowed x) as [[]|e] eqn:E.
  - rewrite IH. split; [intros Hxs y [->|Hy]%elem_of_cons; auto|]. intros Hall y Hy. apply Hall. by right.
  - split; [done|]. intros Hall. rewrite Hall in E by left. done.
Qed.

Lemma asked_err paths e : asked paths = Err e -> exists x, x ∈ paths /\ allowed x = Err e.
Proof.
  induction paths as [|x xs IH]; simpl; [done|]. destruct (allowed x) as [[]|y] eqn:E.
  - intros (z & Hz & Ez)%IH. exists z. split; [by right|done].
  - intros [= ->]. exists x. split; [left|done].
Qed.

Lemma checkAll_asked paths : interp rd (checkAll r p branch paths) = asked paths.
Proof.
  induction paths as [|x xs IH]; [done|]. cbn [checkAll asked]. rewrite interp_bind by done. unfold check. cbn [interp pLift].
  fold (allowed x). destruct (allowed x); [apply IH|done].
Qed.

Lemma nextOf_interp d : interp rd (nextOf d) = Next rd d.
Proof. done. Qed.

Lemma Diff_reads a b : reads_only (Object.Diff a b).
Proof.
  apply reads_bind; [|done]. unfold ProllyDiff.Diff. case_bool_decide; [done|].
  apply reads_bind; [apply seek_reads|]. intros. apply reads_bind; [apply seek_reads|done].
Qed.

Lemma checkDiff_reads fuel : forall d, reads_only (checkDiff fuel r p branch d).
Proof.
  induction fuel as [|fuel IH]; intros d; [done|]. cbn [checkDiff]. apply reads_bind; [by intros|]. intros [[ch|] d']; [|done].
  apply reads_bind; [done|]. intros. apply IH.
Qed.

Lemma checkDiff_asked σ τ paths : forall fuel d, (length paths < fuel)%nat -> changes_at rd d σ τ paths ->
  interp rd (checkDiff fuel r p branch d) = asked paths.
Proof.
  induction paths as [|x xs IH]; intros fuel d Hf Hd; (destruct fuel as [|fuel]; simpl in Hf; [lia|]); cbn [checkDiff];
    rewrite interp_bind by (by intros); rewrite nextOf_interp.
  - destruct (Next_at _ _ _ _ _ Hd) as (d' & ->). done.
  - destruct (Next_at _ _ _ _ _ Hd) as (d' & -> & Hd' & _). cbn [fst snd]. rewrite interp_bind by done. unfold check. cbn [interp pLift asked].
    replace (Path (changeAt x (σ !! x) (τ !! x))) with x by done. fold (allowed x). destruct (allowed x); [|done].
    apply IH; [lia|done].
Qed.

(** [checkPaths] asks for exactly the paths that differ, in path order. *)
Lemma checkPaths_asked from to σ τ :
  ns_at rd (OConfig (o r)) from σ -> ns_at rd (OConfig (o r)) to τ ->
  exists paths, interp rd (checkPaths r p branch from to) = asked paths /\ forall x, x ∈ paths <-> σ !! x <> τ !! x.
Proof.
  intros Hf Ht. unfold checkPaths. case_bool_decide as E.
  { subst to. rewrite (ns_at_inj _ _ _ _ _ Hf Ht). exists []. split; [done|]. intros x. rewrite elem_of_nil. tauto. }
  destruct (Namespace_at _ _ _ _ Hf) as (nf & Ef & Hnf & _ & Cf & _). destruct (Namespace_at _ _ _ _ Ht) as (nt & Et & Hnt & _ & Ct & _).
  destruct (Diff_holds rd nf nt σ τ Hnf Hnt) as (d & paths & Ed & _ & Hat & _ & Hin & Hlen); [by rewrite Cf, Ct|].
  exists paths. split; [|done]. rewrite interp_bind by apply Namespace_reads. rewrite Ef. rewrite interp_bind by apply Namespace_reads.
  rewrite Et. rewrite interp_bind by apply Diff_reads. rewrite Ed. apply (checkDiff_asked σ τ); [lia|done].
Qed.

(** The record a flushed namespace carries is what changed from its base. *)
Definition honest (n : Namespace) : Prop := forall base paths σ τ,
  Changes n = Some (base, paths) -> ns_at rd (OConfig (o r)) base σ -> ns_at rd (OConfig (o r)) (NRoot n) τ ->
  forall x, x ∈ paths <-> σ !! x <> τ !! x.

Lemma checkChanged_asked from to flushed σ τ :
  ns_at rd (OConfig (o r)) from σ -> ns_at rd (OConfig (o r)) to τ -> (forall n, Some n ∈ flushed -> honest n) ->
  exists paths, interp rd (checkChanged r p branch from to flushed) = asked paths /\ forall x, x ∈ paths <-> σ !! x <> τ !! x.
Proof.
  intros Hf Ht. induction flushed as [|[n|] fl IH]; intros Hh; cbn [checkChanged]; [by apply checkPaths_asked| |apply IH; set_solver].
  specialize (IH ltac:(set_solver)). case_bool_decide as Eto; cbn [negb]; [|done]. destruct (Changes n) as [[base paths]|] eqn:Ec; [|done].
  case_bool_decide as Eb; cbn [negb]; [|done]. subst base to. exists paths. rewrite checkAll_asked. split; [done|].
  apply (Hh n ltac:(left) from paths); done.
Qed.
End Paths.

(** C9. Every path a change alters is asked for. When the namespace at [from] holds
    [σ] and the one at [to] holds [τ], [checkChanged] passes exactly when the
    principal may write every path bound differently by [σ] and [τ], and
    otherwise fails with the refusal of such a path; whether it compares the
    namespaces or takes the record of a flushed one, which is what changed
    from its base. *)
Theorem every_changed_path_is_asked_for `{Hasher} rd r p branch from to flushed σ τ :
  ns_at rd (OConfig (o r)) from σ -> ns_at rd (OConfig (o r)) to τ -> (forall n, Some n ∈ flushed -> honest rd r n) ->
  match interp rd (checkChanged r p branch from to flushed) with
  | Ok _ => forall x, σ !! x <> τ !! x -> Check_ (OAuthorizer (o r)) p ActWrite (pathResource branch x) = Ok tt
  | Err e => exists x, σ !! x <> τ !! x /\ Check_ (OAuthorizer (o r)) p ActWrite (pathResource branch x) = Err e
  end.
Proof.
  intros Hf Ht Hh. destruct (checkChanged_asked rd r p branch from to flushed σ τ Hf Ht Hh) as (paths & -> & Hin).
  destruct (asked r p branch paths) as [[]|e] eqn:E.
  - intros x Hx. apply (proj1 (asked_ok r p branch paths) E). by apply Hin.
  - apply asked_err in E as (x & Hx & E). exists x. split; [by apply Hin|done].
Qed.

(** What [Flush] hands out is honest. *)
Lemma flushed_honest `{Hasher} v r e σ0 σ :
  holds (vget v) (en e) σ0 -> em (pe e) = nm (en e) -> editing e σ0 σ -> flush_room v e -> cfg (nm (en e)) = namespace (OConfig (o r)) ->
  exists n' v', ProllyMerge.steps (Object.Flush e) v (n', Object.NewEditor n') v' /\ honest (vget v') r n'.
Proof.
  intros Hn Hem Hed Hroom Hcfg. destruct (Flush_holds v e σ0 σ Hn Hem Hed Hroom) as (n' & v' & Hs & Hv & Hn' & _ & Hc & paths & Hch & Hin & _).
  exists n', v'. split; [done|]. intros base ps a b Hps Ha Hb. rewrite Hch in Hps. injection Hps as <- <-.
  assert (a = σ0) as ->.
  { apply (ns_at_inj (vget v') _ _ _ _ Ha). exists (en e). split_and!; [|done|done]. eapply holds_more; [by apply more_view|done]. }
  assert (b = σ) as -> by (apply (ns_at_inj (vget v') _ _ _ _ Hb); exists n'; split_and!; [done|done|by rewrite Hc]). done.
Qed.

(** ** Permissions *)

(** What a call asks for before it reads or writes anything. *)
Definition needs (c : call) : list (Action * bytes) :=
  match c with
  | CUpdateWorkingSet b _ _ _ => [(ActWrite, branchResource b)]
  | CCommitWorkingSet b _ _ => [(ActCommit, branchResource b)]
  | CCommit b _ _ _ _ => [(ActWrite, branchResource b); (ActCommit, branchResource b)]
  | CCreateBranch name _ | CDeleteBranch _ name => [(ActManage, branchResource name)]
  | CCreateTag name _ _ | CDeleteTag name => [(ActManage, tagResource name)]
  | CMerge _ b _ | CAbortMerge b => [(ActMerge, branchResource b)]
  | CResolveConflict b path _ => [(ActMerge, branchResource b); (ActWrite, pathResource b path)]
  end.

Lemma branchCheck_refused {B} r p a b e (f : unit -> prog B) : Check_ (OAuthorizer (o r)) p a (branchResource b) = Err e ->
  branchCheck r p a b ≫= f = Ret (Err e).
Proof. intros E. unfold branchCheck, check. by rewrite E. Qed.

Lemma check_refused {B} r p a x e (f : unit -> prog B) : Check_ (OAuthorizer (o r)) p a x = Err e -> check r p a x ≫= f = Ret (Err e).
Proof. intros E. unfold check. by rewrite E. Qed.

(** A second check, behind the branch's. *)
Lemma branchCheck_then_refused r p a b a' x e : Check_ (OAuthorizer (o r)) p a' x = Err e ->
  exists e', forall B (f : unit -> prog B), (branchCheck r p a b ≫= fun _ => check r p a' x ≫= f) = Ret (Err e').
Proof.
  intros E. unfold branchCheck, check. destruct (Check_ _ p a _) as [[]|y]; [|by exists y]. cbn. destruct (validName b) as [[]|y]; [|by exists y].
  exists e. intros B f. cbn. by rewrite E.
Qed.

(** C25. Nothing happens without the permission asked for up front: when an
    authorizer (or the lack of one) refuses any of what a call asks for before
    it does anything ([needs]: the branch or tag it names, and the path
    [ResolveConflict] settles), the call is the program that returns an error
    at once: it reads no chunk, stores none and never looks at the root. So is
    [Init] without admin on the repository, and so are the calls that read.
    The paths a change alters are asked for once they are known, after reads
    and, in a merge, after chunks are stored. *)
Theorem refused_calls_do_nothing `{Hasher} r p :
  (forall c a x e, (a, x) ∈ needs c -> Check_ (OAuthorizer (o r)) p a x = Err e -> exists e', handle r p c = Ret (Err e')) /\
  (forall slp jit op rg e, ORegistry op = Some rg -> Check_ (OAuthorizer op) p ActAdmin (str "repo") = Err e ->
     Init op slp jit p = Ret (Err e)) /\
  (forall e, Check_ (OAuthorizer (o r)) p ActRead (str "repo") = Err e ->
     Branches r p = Ret (Err e) /\ Tags r p = Ret (Err e) /\
     (forall h, ReadCommit r p h = Ret (Err e)) /\ (forall h n, Log r p h n = Ret (Err e)) /\
     forall fuel a b, MergeBase fuel r p a b = Ret (Err e)) /\
  (forall b e, Check_ (OAuthorizer (o r)) p ActRead (branchResource b) = Err e ->
     Head r p b = Ret (Err e) /\ WorkingSet_ r p b = Ret (Err e) /\ Conflicts r p b = Ret (Err e) /\
     forall ss, Checkout r ss p b = Ret (Err e)) /\
  (forall name e, Check_ (OAuthorizer (o r)) p ActRead (tagResource name) = Err e -> Tag_ r p name = Ret (Err e)).
Proof.
  split; [|split_and!].
  - intros c a x e Hin E. destruct c; cbn [needs handle] in *; set_unfold in Hin; destruct_or? Hin; simplify_eq;
      unfold pDrop, updateWorkingSet, commitWorkingSet, commit, CreateBranch, DeleteBranch, CreateTag, DeleteTag, VcsMerge.Merge, AbortMerge, ResolveConflict;
      try (rewrite (branchCheck_refused _ _ _ _ _ _ E); by eexists); try (rewrite (check_refused _ _ _ _ _ _ E); by eexists).
    + destruct (branchCheck_then_refused r p ActWrite branch _ _ _ E) as [e' ->]. by eexists.
    + destruct (branchCheck_then_refused r p ActMerge branch _ _ _ E) as [e' ->]. by eexists.
  - intros slp jit op rg e Hrg E. unfold Init, newRepo. rewrite Hrg. unfold mbind, prog_bind, pLift. cbn [try_]. by rewrite E.
  - intros e E. unfold Branches, Tags, ReadCommit, Log, MergeBase. split_and!; intros; by apply check_refused.
  - intros b e E. assert (WorkingSet_ r p b = Ret (Err e)) as Hw by (by apply branchCheck_refused).
    assert (Head r p b = Ret (Err e)) as Hh by (by apply branchCheck_refused).
    split_and!; [done|done|unfold Conflicts; by rewrite Hw|intros ss; unfold Checkout; by rewrite Hh].
  - intros name e E. by apply check_refused.
Qed.
