(* ===== verification/VcsRefs.v ===== *)
(** * core/vcs: the refs are a finite map

    The abstract state of a repository is a [gmap] from ref names
    ([heads/..], [work/..], [tags/..]) to hashes. [repo_at] says a store's
    root holds one; the handlers that move refs are then updates of it. *)

From S2P Require Import Prelude GoStd Wire Hash ChunkStore Prog Conc Auth Model ProllyNode Prolly ProllyDiff ProllyDraw ProllyFlush ProllyMerge ProllyCanon ProllyEditor Object Namespace Merge.
From S2P Require Import VcsCodec Vcs VcsHistory VcsMerge VcsAtomic VcsAccess.

Abbreviation Refs := (gmap bytes hash).

Section Refs.
Context `{HH : Hasher}.

Definition rbinding (ρ : Refs) (k : bytes) : option value := (fun h => VInline (hbytes h)) <$> ρ !! k.

(** The prolly map [m] of configuration [refsMap c] is [ρ]. *)
Definition rmap (rd : creader) (c : Config) (m : Prolly.Map) (ρ : Refs) : Prop :=
  cfg m = refsMap c /\ exists es, canonical rd m es /\ forall k, val <$> klookup key k es = rbinding ρ k.

(** The root holds the refs [ρ], under a configuration whose hashes are inline. *)
Definition repo_at (v : view) (rt : hash) (c : Config) (ρ : Refs) : Prop :=
  rt <> zero_hash /\ 32 <= InlineLimit c /\ stream_ok c /\ exists m, rmap (vget v) c m ρ /\ Prolly.root m = rt.

Lemma rmap_more rd rd' c m ρ : more rd rd' -> rmap rd c m ρ -> rmap rd' c m ρ.
Proof. intros Hm (H1 & es & Hc & Hk). split; [done|]. exists es. split; [|done]. by eapply canonical_mono. Qed.

Lemma repo_at_more v v' rt c ρ : v ⊆ v' -> repo_at v rt c ρ -> repo_at v' rt c ρ.
Proof.
  intros Hv (H1 & H2 & H3 & m & Hm & Hr). split_and!; [done..|]. exists m. split; [|done]. eapply rmap_more; [by apply more_view|done].
Qed.

Lemma hbytes_len h : zlen (hbytes h) = 32.
Proof. pose proof (hash_length h). lia. Qed.

(** ** Reading refs *)

Lemma ref_in rd m es ρ k : map_ok rd m es -> val <$> klookup key k es = rbinding ρ k -> interp rd (ref m k) = Ok (ρ !! k).
Proof.
  intros Hm Hk. unfold ref. rewrite interp_bind by done. cbn [interp pRead]. rewrite (Get_ok _ _ _ k Hm). unfold rbinding in Hk.
  destruct (klookup key k es) as [e|], (ρ !! k) as [h|]; try done. simpl in *. injection Hk as ->. cbn [materialize].
  rewrite hbytes_len. cbn. by rewrite to_hash_hbytes.
Qed.

Lemma ref_at rd c m ρ k : rmap rd c m ρ -> interp rd (ref m k) = Ok (ρ !! k).
Proof. intros (_ & es & Hc & Hk). by eapply ref_in; [apply canonical_map_ok|]. Qed.

Lemma ref_reads m k : reads_only (ref m k).
Proof. apply reads_bind; [done|]. intros [b|]; [|done]. by destruct (negb _). Qed.

(** What a branch's refs are. *)
Definition branchAt (ρ : Refs) (b : bytes) : res (hash * hash) :=
  match ρ !! headKey b, ρ !! workKey b with
  | None, _ => Err VcsBranchNotFound
  | Some _, None => Err ChunkCorrupt
  | Some h, Some w => Ok (h, w)
  end.

Lemma branchRefs_at rd c m ρ b : rmap rd c m ρ -> interp rd (branchRefs m b) = branchAt ρ b.
Proof.
  intros Hm. unfold branchRefs, branchAt. rewrite interp_bind by apply ref_reads. rewrite (ref_at _ _ _ _ _ Hm).
  destruct (ρ !! headKey b); [|done]. rewrite interp_bind by apply ref_reads. rewrite (ref_at _ _ _ _ _ Hm). by destruct (ρ !! workKey b).
Qed.

Lemma branchRefs_reads m b : reads_only (branchRefs m b).
Proof. apply reads_bind; [apply ref_reads|]. intros [h|]; [|done]. apply reads_bind; [apply ref_reads|]. by intros [w|]. Qed.

Lemma refs_exec v rt r ρ : repo_at v rt (OConfig (o r)) ρ ->
  exists m, exec v rt (refs r) = (Ok m, v, rt) /\ interp (vget v) (Prolly.Open (refsMap (OConfig (o r))) rt) = Ok m /\
    rmap (vget v) (OConfig (o r)) m ρ /\ Prolly.root m = rt.
Proof.
  intros (Hnz & _ & _ & m & (Hcfg & es & Hc & Hk) & Hr). pose proof (Open_at _ _ _ Hc) as Ho. rewrite Hcfg, Hr in Ho.
  exists (opened m). split_and!; [|done| |done].
  - unfold refs. rewrite exec_bind. cbn [exec pRoot]. unfold IsZero. rewrite bool_decide_eq_false_2 by done.
    rewrite exec_reads by apply Open_reads. by rewrite Ho.
  - split; [done|]. by exists es.
Qed.

(** ** Editing refs *)

(** The edits turn [ρ] into [ρ']. *)
Definition redits (eds : gmap bytes (option bytes)) (ρ ρ' : Refs) : Prop := forall k,
  match eds !! k with
  | Some (Some b) => zlen k <= MaxKeySize /\ exists h, ρ' !! k = Some h /\ b = hbytes h
  | Some None => zlen k <= MaxKeySize /\ ρ' !! k = None
  | None => ρ' !! k = ρ !! k
  end.

Lemma redits_nil ρ : redits ∅ ρ ρ.
Proof. intros k. by rewrite lookup_empty. Qed.

Lemma redits_put eds ρ ρ' k h : zlen k <= MaxKeySize -> redits eds ρ ρ' -> redits (<[k := Some (hbytes h)]> eds) ρ (<[k := h]> ρ').
Proof.
  intros Hk He x. destruct (decide (k = x)) as [->|Hne]; [rewrite !lookup_insert_eq; by eauto|].
  rewrite !lookup_insert_ne by done. apply He.
Qed.

Lemma redits_del eds ρ ρ' k : zlen k <= MaxKeySize -> redits eds ρ ρ' -> redits (<[k := None]> eds) ρ (delete k ρ').
Proof.
  intros Hk He x. destruct (decide (k = x)) as [->|Hne]; [by rewrite lookup_insert_eq, lookup_delete_eq|].
  rewrite lookup_insert_ne, lookup_delete_ne by done. apply He.
Qed.

Lemma pEdit_put m eds c k h : cfg m = refsMap c -> zlen k <= MaxKeySize ->
  pEdit (Prolly.Put k (hbytes h)) (Prolly.mkEditor m eds) = mret (Prolly.mkEditor m (<[k := Some (hbytes h)]> eds)).
Proof.
  intros Hc Hk. unfold pEdit, Prolly.Put. rewrite (proj2 (Z.ltb_ge _ _)) by done. cbn [em]. rewrite Hc, hbytes_len. done.
Qed.

Lemma pEdit_del m eds k : zlen k <= MaxKeySize ->
  pEdit (Prolly.Delete k) (Prolly.mkEditor m eds) = mret (Prolly.mkEditor m (<[k := None]> eds)).
Proof. intros Hk. unfold pEdit, Prolly.Delete. by rewrite (proj2 (Z.ltb_ge _ _)) by done. Qed.

(** What a flush of [eds] onto the refs at [rt] needs of the store: the count
    stays in range, no chunk it stores has a name taken, and the new root's
    name is not the one that stands for no root. *)
Definition refs_room (v : view) (c : Config) (rt : hash) (eds : gmap bytes (option bytes)) : Prop :=
  forall m, interp (vget v) (Prolly.Open (refsMap c) rt) = Ok m ->
    (forall es, canonical (vget v) m es ->
       zlen es + Z.of_nat (size eds) <= 2 ^ 62 /\ collision_free v (flushChunks (Prolly.mkEditor m eds) es)) /\
    (forall m' e' v', steps (ProllyFlush.Flush (Prolly.mkEditor m eds)) v (m', e') v' -> Prolly.root m' <> zero_hash).

Lemma refs_flush v c m ρ ρ' eds :
  rmap (vget v) c m ρ -> 32 <= InlineLimit c -> stream_ok c -> redits eds ρ ρ' ->
  interp (vget v) (Prolly.Open (refsMap c) (Prolly.root m)) = Ok m -> refs_room v c (Prolly.root m) eds ->
  exists m' e' v', steps (ProllyFlush.Flush (Prolly.mkEditor m eds)) v (m', e') v' /\ v ⊆ v' /\ rmap (vget v') c m' ρ' /\
    Prolly.root m' <> zero_hash /\ v' !! Prolly.root m' <> None.
Proof.
  intros (Hcfg & es & Hcan & Hes) Hlim Hst Heds Hopen Hroom. destruct (Hroom m Hopen) as (Hr1 & Hr2).
  destruct (Hr1 es Hcan) as [Hn Hcf]. set (e := Prolly.mkEditor m eds) in *.
  assert (editor_ok e) as Hok.
  { intros k x Hk. simpl in Hk. specialize (Heds k). rewrite Hk in Heds. destruct x as [b|]; [|tauto].
    destruct Heds as (H1 & h & _ & ->). split; [done|]. simpl. rewrite Hcfg, hbytes_len. done. }
  destruct (Flush_ok v e es) as (U & m' & v' & Hs & Hsub & Hcan' & Hcfg' & _ & HU & _); try done; simpl.
  { by rewrite Hcfg. }
  { rewrite Hcfg. vm_compute. discriminate. }
  assert (ksorted key es) as Hsort by (by destruct Hcan as (_ & (? & _) & _)).
  exists m', (Prolly.mkEditor m' ∅), v'. split_and!; [done|done| |by eapply Hr2|].
  - split; [by rewrite Hcfg'|]. exists (mergeE es U). split; [done|]. intros k.
    destruct (prepared_edits m _ _ _ HU) as (HUs & HUok & _ & _ & Hlk). rewrite mergeE_lookup by done.
    specialize (Hlk k). specialize (Heds k). simpl in Hlk. unfold rbinding in *. destruct (eds !! k) as [x|] eqn:E.
    + destruct Hlk as (u & -> & _ & Hu). simpl in Hu. rewrite E in Hu. destruct x as [b|].
      * destruct Heds as (_ & h & -> & ->). destruct Hu as (-> & _ & _ & _ & _ & Hi). simpl. rewrite Hi; [done|].
        rewrite Hcfg, hbytes_len. done.
      * destruct Heds as [_ ->]. by rewrite Hu.
    + by rewrite Hlk, Hes, Heds.
  - destruct (canonical_map_ok _ _ _ Hcan') as (_ & n & _ & Hread & _). unfold readN, vget in Hread.
    by destruct (v' !! Prolly.root m').
Qed.

(** ** [update], alone *)

Lemma exec_rootless {A} (p : prog A) : rootless p -> forall v rt, (exec v rt p).2 = rt.
Proof.
  induction p as [x|C g k IH|b k IH|k IH|e n k IH]; simpl; try done; intros Hp v rt; [by apply IH|]. destruct (_ <? _); by apply IH.
Qed.

Lemma maxAttempts_pos : exists n, maxAttempts = S n.
Proof. by exists 999%nat. Qed.

Lemma update_exec {B} r (fn : nat -> Prolly.Map -> Prolly.Editor -> prog (Prolly.Editor * B)) v rt ρ :
  repo_at v rt (OConfig (o r)) ρ ->
  exists m, rmap (vget v) (OConfig (o r)) m ρ /\ Prolly.root m = rt /\
    (forall e v1, exec v rt (fn 0%nat m (Prolly.NewEditor m)) = (Err e, v1, rt) -> exec v rt (update r fn) = (Err e, v1, rt)) /\
    (forall eds b v1 ρ', exec v rt (fn 0%nat m (Prolly.NewEditor m)) = (Ok (Prolly.mkEditor m eds, b), v1, rt) ->
       redits eds ρ ρ' -> refs_room v1 (OConfig (o r)) rt eds ->
       exists v2 rt', exec v rt (update r fn) = (Ok b, v2, rt') /\ v1 ⊆ v2 /\ repo_at v2 rt' (OConfig (o r)) ρ').
Proof.
  intros Hrepo. destruct (refs_exec v rt r ρ Hrepo) as (m & Href & Hopen & Hm & Hroot). exists m. split; [done|]. split; [done|].
  unfold update. destruct maxAttempts_pos as [fuel ->]. cbn [updateLoop]. rewrite exec_bind. cbn [exec pLift].
  rewrite exec_bind, Href. split.
  - intros e v1 Hf. by rewrite exec_bind, Hf.
  - intros eds b v1 ρ' Hf Heds Hroom. rewrite exec_bind, Hf. cbn [fst snd].
    assert (v ⊆ v1) as Hv by (pose proof (exec_grows (fn 0%nat m (Prolly.NewEditor m)) v rt) as Hg; by rewrite Hf in Hg).
    destruct Hrepo as (_ & Hlim & Hst & _).
    assert (forall x, interp (vget v1) (Prolly.Open (refsMap (OConfig (o r))) rt) = Ok x -> x = m) as Hopen1.
    { intros x. destruct Hm as (Hcfg & es & Hc & _). pose proof (Open_at _ _ _ (canonical_mono _ _ _ _ (more_view _ _ Hv) Hc)) as H1.
      pose proof (Open_at _ _ _ Hc) as H0. rewrite Hcfg, Hroot in H1, H0. congruence. }
    destruct (refs_flush v1 (OConfig (o r)) m ρ ρ' eds) as (m' & e' & v2 & Hs & Hsub & Hm' & Hnz & Hin); try done.
    { eapply rmap_more; [by apply more_view|done]. }
    { destruct Hm as (Hcfg & es & Hc & _). pose proof (Open_at _ _ _ (canonical_mono _ _ _ _ (more_view _ _ Hv) Hc)) as H1.
      rewrite Hcfg in H1. rewrite H1. f_equal. apply Hopen1. rewrite <-Hroot. done. }
    { by rewrite Hroot. }
    rewrite exec_bind, Hs. cbn [fst snd]. rewrite exec_try. cbn [exec pCas].
    assert (vcas v2 rt (Prolly.root m) (Prolly.root m') = (Ok tt, Prolly.root m')) as ->.
    { unfold vcas, IsZero. by rewrite !bool_decide_eq_false_2 by first [done|rewrite Hroot; tauto]. }
    exists v2, (Prolly.root m'). split; [done|]. split; [done|]. split_and!; [done..|]. by exists m'.
Qed.
End Refs.
