(* ===== verification/VcsPlan.v ===== *)
(** * core/vcs: what the handlers do to the refs

    [planOf] is the abstract specification of a call: from what the refs are
    and what the store holds, either the error it fails with or the records
    it stores and the refs it sets and removes. The handlers, which edit a
    prolly map and swap the root, refine it. *)

From S2P Require Import Prelude GoStd Wire Hash ChunkStore Prog Conc Auth Model ProllyNode Prolly ProllyDraw ProllyFlush ProllyMerge Object Namespace Merge.
From S2P Require Import VcsCodec Vcs VcsHistory VcsMerge VcsAtomic VcsAccess VcsRefs.

#[local] Opaque maxAttempts update.

Record plan := mkPlan { pChunks : list bytes; pRefs : list (bytes * option hash) }.

(** The refs after a plan, and the editor's edits for it. *)
Definition patch (l : list (bytes * option hash)) (ρ : Refs) : Refs := foldl (fun ρ kx => partial_alter (fun _ => kx.2) kx.1 ρ) ρ l.
Definition editsOf (l : list (bytes * option hash)) : gmap bytes (option bytes) := foldl (fun m kx => <[kx.1 := hbytes <$> kx.2]> m) ∅ l.

Section Plan.
Context `{HH : Hasher} (r : Repo) (p : Principal).

Definition planSet (v : view) (branch : bytes) (prev next : WorkingSet) (ρ : Refs) : res plan :=
  let b := encodeWorkingSet next in
  hw ← branchAt ρ branch;
  if negb (bool_decide (hw.2 = WHash prev)) then Err VcsConflict
  else
    stored ← interp (vget (vput v b)) (readWorkingSet hw.2);
    if negb (sameMerge (WMerge stored) (WMerge next)) then Err VcsMergeState
    else Ok (mkPlan [b] [(workKey branch, Some (Sum b))]).

Definition planLand (branch : bytes) (c : Commit) (ws : WorkingSet) : plan :=
  mkPlan [encodeCommit c; encodeWorkingSet ws]
    [(headKey branch, Some (Sum (encodeCommit c))); (workKey branch, Some (Sum (encodeWorkingSet ws)))].

(** The calls of [planOf]: all but merging and resolving. *)
Definition planned (c : call) : bool := match c with CMerge _ _ _ | CResolveConflict _ _ _ => false | _ => true end.

Definition planOf (v : view) (c : call) (ρ : Refs) : res plan :=
  let rd := vget v in
  match c with
  | CUpdateWorkingSet b prev next fl =>
      stored ← interp rd (readWorkingSet (WHash prev));
      _ ← interp rd (checkChanged r p b (Working stored) (Working next) fl);
      _ ← interp rd (checkChanged r p b (Staged stored) (Staged next) fl);
      planSet v b prev next ρ
  | CCommitWorkingSet b msg fl =>
      if badMessage msg then Err (EMsg "vcs: a commit message must be UTF-8")
      else
        hw ← branchAt ρ b;
        ws ← interp rd (readWorkingSet hw.2);
        n ← interp rd (conflictCount r ws);
        if 0 <? n then Err VcsUnresolvedConflicts
        else
          head ← interp rd (readCommit hw.1);
          _ ← interp rd (checkChanged r p b (CNamespace head) (Staged ws) fl);
          c ← interp rd (commitOnto r 0 p head (WMerge ws) (Staged ws) msg);
          Ok (planLand b c (mkWorkingSet zero_hash (Working ws) (Staged ws) None))
  | CCommit b prev ns fl msg =>
      if badMessage msg then Err (EMsg "vcs: a commit message must be UTF-8")
      else
        hw ← branchAt ρ b;
        if negb (bool_decide (hw.2 = WHash prev)) then Err VcsConflict
        else
          ws ← interp rd (readWorkingSet hw.2);
          if negb (sameMerge (WMerge ws) (WMerge prev)) then Err VcsMergeState
          else
            n ← interp rd (conflictCount r ws);
            if 0 <? n then Err VcsUnresolvedConflicts
            else
              head ← interp rd (readCommit hw.1);
              _ ← interp rd (checkFroms r p b [] [Working ws; Staged ws; CNamespace head] ns fl);
              c ← interp rd (commitOnto r 0 p head (WMerge ws) ns msg);
              Ok (planLand b c (mkWorkingSet zero_hash ns ns None))
  | CCreateBranch name at_ =>
      c ← interp rd (readCommit at_);
      let ws := encodeWorkingSet (mkWorkingSet zero_hash (CNamespace c) (CNamespace c) None) in
      match ρ !! headKey name with
      | Some _ => Err VcsBranchExists
      | None => Ok (mkPlan [ws] [(headKey name, Some at_); (workKey name, Some (Sum ws))])
      end
  | CDeleteBranch ss name =>
      if 0 <? default 0 (ss !! name) then Err VcsBranchInUse
      else
        _ ← branchAt ρ name;
        Ok (mkPlan [] [(headKey name, None); (workKey name, None)])
  | CCreateTag name target msg =>
      if badMessage msg then Err (EMsg "vcs: a tag message must be UTF-8")
      else
        _ ← interp rd (readCommit target);
        let t := encodeTag (mkTag zero_hash target (Clock (o r) 0) (ID p) msg) in
        match ρ !! tagKey name with
        | Some _ => Err VcsTagExists
        | None => Ok (mkPlan [t] [(tagKey name, Some (Sum t))])
        end
  | CDeleteTag name =>
      match ρ !! tagKey name with
      | None => Err VcsTagNotFound
      | Some _ => Ok (mkPlan [] [(tagKey name, None)])
      end
  | CAbortMerge b =>
      hw ← branchAt ρ b;
      ws ← interp rd (readWorkingSet hw.2);
      match WMerge ws with
      | None => Err VcsNoMerge
      | Some ms =>
          _ ← interp rd (checkPaths r p b (Working ws) (PreWorking ms));
          _ ← interp rd (checkPaths r p b (Staged ws) (PreStaged ms));
          let back := encodeWorkingSet (mkWorkingSet zero_hash (PreWorking ms) (PreStaged ms) None) in
          Ok (mkPlan [back] [(workKey b, Some (Sum back))])
      end
  | CMerge _ _ _ | CResolveConflict _ _ _ => Err (EMsg "not planned")
  end.

(** The branch or tag a call is about. *)
Definition nameOf (c : call) : bytes :=
  match c with
  | CUpdateWorkingSet b _ _ _ | CCommitWorkingSet b _ _ | CCommit b _ _ _ _ | CMerge _ b _ | CAbortMerge b | CResolveConflict b _ _ => b
  | CCreateBranch name _ | CDeleteBranch _ name | CCreateTag name _ _ | CDeleteTag name => name
  end.

(** ** Sizes *)

Lemma hash_len h : length (hbytes h) = 32%nat.
Proof. apply hash_length. Qed.

Lemma encodeWorkingSet_small ws : zlen (encodeWorkingSet ws) <= MaxChunkSize.
Proof.
  rewrite encodeWorkingSet_enc. unfold encMerge. destruct (WMerge ws); rewrite !length_app, !length_encU8, !hash_len; unfold MaxChunkSize; lia.
Qed.

Lemma encLen_small b : (length (encLenBytes b) <= 10 + length b)%nat.
Proof. rewrite length_encLenBytes. pose proof (length_encUvarint (zlen b)). lia. Qed.

Lemma encodeCommit_small c : (length (Parents c) <= 2)%nat -> zlen (Author c) <= MaxIDLen -> zlen (CMessage c) <= MaxMessageLen ->
  zlen (encodeCommit c) <= MaxChunkSize.
Proof.
  intros Hp Ha Hm. rewrite encodeCommit_enc. rewrite !length_app, !length_encU8, hash_len, length_encU64.
  assert (length (encHashes (Parents c)) = 32 * length (Parents c))%nat as ->.
  { unfold encHashes. induction (Parents c) as [|h hs IH]; [done|]. simpl in *. rewrite length_app, hash_len. rewrite IH by lia. lia. }
  pose proof (encLen_small (Author c)). pose proof (encLen_small (CMessage c)). pose proof (length_encUvarint (Height c)).
  unfold MaxIDLen, MaxMessageLen, MaxChunkSize in *. lia.
Qed.

Lemma encodeTag_small t : zlen (Tagger t) <= MaxIDLen -> zlen (TMessage t) <= MaxMessageLen -> zlen (encodeTag t) <= MaxChunkSize.
Proof.
  intros Ha Hm. rewrite encodeTag_enc. rewrite !length_app, !length_encU8, hash_len, length_encU64.
  pose proof (encLen_small (Tagger t)). pose proof (encLen_small (TMessage t)). unfold MaxIDLen, MaxMessageLen, MaxChunkSize in *. lia.
Qed.

(** ** Refinement *)

Abbreviation conf := (OConfig (o r)).

(** Alone on a store whose refs are [ρ], the program does what the plan says. *)
Definition refines {A : Type} (v : view) (rt : hash) (ρ : Refs) (q : prog A) (pl : res plan) : Prop :=
  match pl with
  | Err e => exists v', exec v rt q = (Err e, v', rt) /\ v ⊆ v'
  | Ok pl => refs_room (with_log v (pChunks pl)) conf rt (editsOf (pRefs pl)) ->
      exists a v' rt', exec v rt q = (Ok a, v', rt') /\ with_log v (pChunks pl) ⊆ v' /\ repo_at v' rt' conf (patch (pRefs pl) ρ)
  end.

(** The same of the edit of an [update], which flushes and swaps afterwards. *)
Definition edits_as {B : Type} (v : view) (rt : hash) (m : Prolly.Map) (q : prog (Prolly.Editor * B)) (pl : res plan) : Prop :=
  match pl with
  | Err e => exists v', exec v rt q = (Err e, v', rt)
  | Ok pl => exists b, exec v rt q = (Ok (Prolly.mkEditor m (editsOf (pRefs pl)), b), with_log v (pChunks pl), rt)
  end.

Definition chunk_first (b : bytes) (pl : res plan) : res plan :=
  match pl with Ok pl => Ok (mkPlan (b :: pChunks pl) (pRefs pl)) | Err e => Err e end.

Definition keys_ok (pl : res plan) : Prop := match pl with Ok pl => Forall (fun kx => zlen kx.1 <= MaxKeySize) (pRefs pl) | Err _ => True end.

Lemma editsOf_patch l ρ : Forall (fun kx => zlen kx.1 <= MaxKeySize) l -> redits (editsOf l) ρ (patch l ρ).
Proof.
  induction l as [|[k x] l IH] using rev_ind; intros Hl; [apply redits_nil|]. apply Forall_app in Hl as [Hl [Hk _]%Forall_cons].
  unfold editsOf, patch. rewrite !foldl_app. simpl. destruct x as [h|]; [by apply redits_put; [|apply IH]|by apply redits_del; [|apply IH]].
Qed.

Lemma refines_read {A B : Type} v rt ρ (q : prog A) (f : A -> prog B) g : reads_only q ->
  (forall a, interp (vget v) q = Ok a -> refines v rt ρ (f a) (g a)) -> refines v rt ρ (q ≫= f) (interp (vget v) q ≫= g).
Proof.
  intros Hq Hf. destruct (interp (vget v) q) as [a|e] eqn:E; simpl.
  - specialize (Hf a eq_refl). unfold refines in *. rewrite exec_bind, exec_reads, E by done. exact Hf.
  - exists v. by rewrite exec_bind, exec_reads, E by done.
Qed.

Lemma refines_put {B : Type} v rt ρ b (f : hash -> prog B) pl : zlen b <= MaxChunkSize ->
  refines (vput v b) rt ρ (f (Sum b)) pl -> refines v rt ρ (pPut b ≫= f) (chunk_first b pl).
Proof.
  intros Hb Hf. unfold refines in *. rewrite exec_bind, exec_put by done. destruct pl as [pl|e]; [exact Hf|].
  destruct Hf as (v' & E & Hv). exists v'. split; [done|]. etrans; [apply vput_grows|done].
Qed.

Lemma refines_then {A B : Type} v rt ρ (q : prog A) (f : A -> prog B) pl : refines v rt ρ q pl -> (forall a, exists b, f a = mret b) ->
  refines v rt ρ (q ≫= f) pl.
Proof.
  intros Hq Hf. unfold refines in *. rewrite exec_bind. destruct pl as [pl|e].
  - intros Hroom. destruct (Hq Hroom) as (a & v' & rt' & -> & H1 & H2). destruct (Hf a) as [b ->]. by exists b, v', rt'.
  - destruct Hq as (v' & -> & Hv). by exists v'.
Qed.

Lemma edits_read {A B : Type} v rt m (q : prog A) (f : A -> prog (Prolly.Editor * B)) g : reads_only q ->
  (forall a, interp (vget v) q = Ok a -> edits_as v rt m (f a) (g a)) -> edits_as v rt m (q ≫= f) (interp (vget v) q ≫= g).
Proof.
  intros Hq Hf. destruct (interp (vget v) q) as [a|e] eqn:E; simpl.
  - specialize (Hf a eq_refl). unfold edits_as in *. rewrite exec_bind, exec_reads, E by done. exact Hf.
  - exists v. by rewrite exec_bind, exec_reads, E by done.
Qed.

Lemma edits_branch {B : Type} v rt m ρ b (f : hash * hash -> prog (Prolly.Editor * B)) g : rmap (vget v) conf m ρ ->
  (forall hw, branchAt ρ b = Ok hw -> edits_as v rt m (f hw) (g hw)) -> edits_as v rt m (branchRefs m b ≫= f) (branchAt ρ b ≫= g).
Proof.
  intros Hm Hf. rewrite <-(branchRefs_at _ _ _ _ b Hm). apply edits_read; [apply branchRefs_reads|].
  intros hw. rewrite (branchRefs_at _ _ _ _ b Hm). apply Hf.
Qed.

Lemma edits_put {B : Type} v rt m b (f : hash -> prog (Prolly.Editor * B)) pl : zlen b <= MaxChunkSize ->
  edits_as (vput v b) rt m (f (Sum b)) pl -> edits_as v rt m (pPut b ≫= f) (chunk_first b pl).
Proof. intros Hb Hf. unfold edits_as in *. rewrite exec_bind, exec_put by done. by destruct pl. Qed.

Lemma refines_update {B : Type} v rt ρ (fn : nat -> Prolly.Map -> Prolly.Editor -> prog (Prolly.Editor * B)) pl : repo_at v rt conf ρ -> keys_ok pl ->
  (forall m, rmap (vget v) conf m ρ -> edits_as v rt m (fn 0%nat m (Prolly.NewEditor m)) pl) -> refines v rt ρ (update r fn) pl.
Proof.
  intros Hrepo Hk Hfn. destruct (update_exec r fn v rt ρ Hrepo) as (m & Hm & Hroot & Herr & Hok). specialize (Hfn m Hm).
  destruct pl as [pl|e]; simpl in *.
  - intros Hroom. destruct Hfn as (b & E). destruct (Hok _ _ _ _ E (editsOf_patch _ ρ Hk) Hroom) as (v2 & rt' & E2 & H1 & H2).
    by exists b, v2, rt'.
  - destruct Hfn as (v' & E). exists v'. split; [exact (Herr _ _ E)|]. pose proof (exec_grows (fn 0%nat m (Prolly.NewEditor m)) v rt) as Hg. by rewrite E in Hg.
Qed.

(** ** Reading *)

Lemma readWorkingSet_reads h : reads_only (readWorkingSet h).
Proof. apply reads_bind; [done|]. intros. by apply reads_bind. Qed.

Lemma conflictCount_reads ws : reads_only (conflictCount r ws).
Proof. unfold conflictCount. destruct (WMerge ws); [|done]. apply reads_bind; [apply Open_reads|done]. Qed.

Lemma checkPaths_reads b x y : reads_only (checkPaths r p b x y).
Proof.
  unfold checkPaths. case_bool_decide; [done|]. apply reads_bind; [apply Namespace_reads|intros]. apply reads_bind; [apply Namespace_reads|intros].
  apply reads_bind; [apply Diff_reads|intros]. apply checkDiff_reads.
Qed.

Lemma checkAll_reads b paths : reads_only (checkAll r p b paths).
Proof. induction paths as [|x xs IH]; [done|]. cbn [checkAll]. by apply reads_bind. Qed.

Lemma checkChanged_reads b x y fl : reads_only (checkChanged r p b x y fl).
Proof.
  induction fl as [|[n|] fl IH]; cbn [checkChanged]; [apply checkPaths_reads| |done]. destruct (negb _); [done|].
  destruct (Changes n) as [[base paths]|]; [|done]. destruct (negb _); [done|]. apply checkAll_reads.
Qed.

Lemma checkFroms_reads b froms x fl : forall seen, reads_only (checkFroms r p b seen froms x fl).
Proof.
  induction froms as [|f froms IH]; intros seen; cbn [checkFroms]; [done|]. apply reads_bind; [|by intros].
  case_bool_decide; [done|]. apply checkChanged_reads.
Qed.

Lemma commitOnto_reads a head ms x msg : reads_only (commitOnto r a p head ms x msg).
Proof. unfold commitOnto. destruct ms; [|done]. apply reads_bind; [apply readCommit_reads|done]. Qed.

(** ** The handlers *)

Lemma branchCheck_pass a b : Check_ (OAuthorizer (o r)) p a (branchResource b) = Ok tt -> validName b = Ok tt -> branchCheck r p a b = mret tt.
Proof. intros E1 E2. unfold branchCheck, check. by rewrite E1, E2. Qed.

Lemma check_pass a x : Check_ (OAuthorizer (o r)) p a x = Ok tt -> check r p a x = mret tt.
Proof. intros E. unfold check. by rewrite E. Qed.

Lemma name_key pre b : validName b = Ok tt -> (length pre <= 100)%nat -> zlen (pre ++ b) <= MaxKeySize.
Proof. intros (_ & Hb & _)%validName_spec Hp. rewrite length_app. unfold MaxKeySize. lia. Qed.

Lemma Check_ID a x : Check_ (OAuthorizer (o r)) p a x = Ok tt -> zlen (ID p) <= MaxIDLen.
Proof. unfold Check_. destruct (Validate p) as [[]|] eqn:E; [|done]. intros _. by apply Validate_spec in E as (_ & ? & _). Qed.

Lemma badMessage_len msg : badMessage msg = false -> zlen msg <= MaxMessageLen.
Proof. intros [?%Z.ltb_ge _]%orb_false_iff. done. Qed.

Lemma keys_bind {A} (x : res A) (g : A -> res plan) : (forall a, x = Ok a -> keys_ok (g a)) -> keys_ok (x ≫= g).
Proof. destruct x as [a|e]; [intros Hg; by apply Hg|done]. Qed.

Context (v : view) (rt : hash) (ρ : Refs) (Hrepo : repo_at v rt conf ρ).

Lemma land_edits v1 m b c ws : cfg m = refsMap conf -> validName b = Ok tt -> zlen (encodeCommit c) <= MaxChunkSize ->
  edits_as v1 rt m (land b c ws (Prolly.NewEditor m)) (Ok (planLand b c ws)).
Proof.
  intros Hcfg Hb Hc. unfold land, planLand. change (Ok (mkPlan ?cs ?l)) with (chunk_first (encodeCommit c) (chunk_first (encodeWorkingSet ws) (Ok (mkPlan [] l)))).
  apply edits_put; [done|]. apply edits_put; [apply encodeWorkingSet_small|]. unfold Prolly.NewEditor.
  rewrite (pEdit_put m ∅ conf) by (done || by apply name_key; [|vm_compute; lia]).
  eexists. cbn [edits_as exec mret prog_ret mbind prog_bind try_].
  rewrite (pEdit_put m _ conf) by (done || by apply name_key; [|vm_compute; lia]). reflexivity.
Qed.

Lemma commitOnto_small rd a head ms x msg c : interp rd (commitOnto r a p head ms x msg) = Ok c ->
  zlen (ID p) <= MaxIDLen -> zlen msg <= MaxMessageLen -> zlen (encodeCommit c) <= MaxChunkSize.
Proof.
  intros E Ha Hm. assert ((length (Parents c) <= 2)%nat /\ Author c = ID p /\ CMessage c = msg) as (H1 & H2 & H3).
  { unfold commitOnto in E. destruct ms as [ms|]; [|injection E as <-; simpl; split_and!; [lia|done|done]].
    rewrite interp_bind in E by apply readCommit_reads. destruct (interp rd (readCommit _)) as [th|]; [|done]. injection E as <-.
    simpl. split_and!; [lia|done|done]. }
  apply encodeCommit_small; [done|by rewrite H2|by rewrite H3].
Qed.

Lemma planLand_keys b c ws : validName b = Ok tt -> keys_ok (Ok (planLand b c ws)).
Proof. intros Hb. simpl. repeat constructor; apply name_key; first [done|vm_compute; lia]. Qed.

Lemma commitWorkingSet_refines b msg fl : Check_ (OAuthorizer (o r)) p ActCommit (branchResource b) = Ok tt -> validName b = Ok tt ->
  refines v rt ρ (commitWorkingSet r p b msg fl) (planOf v (CCommitWorkingSet b msg fl) ρ).
Proof.
  intros Hp Hb. unfold commitWorkingSet. rewrite branchCheck_pass by done. cbn [planOf]. change (mret tt ≫= ?f) with (f tt). cbv beta.
  destruct (badMessage msg) eqn:Em; [by exists v|]. apply badMessage_len in Em. pose proof (Check_ID _ _ Hp) as Hid.
  apply refines_update; [done| |].
  - do 3 (apply keys_bind; intros ? _). destruct (_ <? _); [done|]. do 3 (apply keys_bind; intros ? _). by apply planLand_keys.
  - intros m Hm. pose proof Hm as (Hcfg & _). apply (edits_branch _ _ _ ρ); [done|intros hw _]. apply edits_read; [apply readWorkingSet_reads|intros ws _].
    apply edits_read; [apply conflictCount_reads|intros n _]. destruct (_ <? _); [by exists v|].
    apply edits_read; [apply readCommit_reads|intros head _]. apply edits_read; [apply checkChanged_reads|intros _ _].
    apply edits_read; [apply commitOnto_reads|intros c Hc]. apply land_edits; [done|done|]. by eapply commitOnto_small.
Qed.

Lemma commit_refines b prev ns fl msg : Check_ (OAuthorizer (o r)) p ActWrite (branchResource b) = Ok tt ->
  Check_ (OAuthorizer (o r)) p ActCommit (branchResource b) = Ok tt -> validName b = Ok tt ->
  refines v rt ρ (commit r p b prev ns fl msg) (planOf v (CCommit b prev ns fl msg) ρ).
Proof.
  intros Hp Hp2 Hb. unfold commit. rewrite branchCheck_pass by done. rewrite check_pass by done. cbn [planOf].
  change (mret tt ≫= ?f) with (f tt). cbv beta. change (mret tt ≫= ?f) with (f tt). cbv beta.
  destruct (badMessage msg) eqn:Em; [by exists v|]. apply badMessage_len in Em. pose proof (Check_ID _ _ Hp) as Hid.
  apply refines_update; [done| |].
  - apply keys_bind; intros ? _. destruct (negb _); [done|]. apply keys_bind; intros ? _. destruct (negb _); [done|].
    apply keys_bind; intros ? _. destruct (_ <? _); [done|]. do 3 (apply keys_bind; intros ? _). by apply planLand_keys.
  - intros m Hm. pose proof Hm as (Hcfg & _). apply (edits_branch _ _ _ ρ); [done|intros hw _]. destruct (negb _); [by exists v|].
    apply edits_read; [apply readWorkingSet_reads|intros ws _]. destruct (negb _); [by exists v|].
    apply edits_read; [apply conflictCount_reads|intros n _]. destruct (_ <? _); [by exists v|].
    apply edits_read; [apply readCommit_reads|intros head _]. apply edits_read; [apply checkFroms_reads|intros _ _].
    apply edits_read; [apply commitOnto_reads|intros c Hc]. apply land_edits; [done|done|]. by eapply commitOnto_small.
Qed.

Lemma CreateBranch_refines name at_ : Check_ (OAuthorizer (o r)) p ActManage (branchResource name) = Ok tt -> validName name = Ok tt ->
  refines v rt ρ (CreateBranch r p name at_) (planOf v (CCreateBranch name at_) ρ).
Proof.
  intros Hp Hb. unfold CreateBranch. rewrite branchCheck_pass by done. cbn [planOf]. change (mret tt ≫= ?f) with (f tt). cbv beta.
  apply refines_read; [apply readCommit_reads|intros c _]. cbv zeta. set (ws := encodeWorkingSet _).
  replace (match ρ !! headKey name with Some _ => _ | None => _ end) with
    (chunk_first ws (match ρ !! headKey name with Some _ => Err VcsBranchExists | None => Ok (mkPlan [] [(headKey name, Some at_); (workKey name, Some (Sum ws))]) end))
    by (by destruct (ρ !! headKey name)).
  apply refines_put; [apply encodeWorkingSet_small|]. apply refines_update; [eapply repo_at_more; [apply vput_grows|done]| |].
  - destruct (ρ !! headKey name); [done|]. repeat constructor; apply name_key; first [done|vm_compute; lia].
  - intros m Hm. pose proof Hm as (Hcfg & _). unfold edits_as. rewrite exec_bind, exec_reads, (ref_at _ _ _ _ _ Hm) by apply ref_reads.
    destruct (ρ !! headKey name); [by eexists|]. eexists. unfold Prolly.NewEditor.
    rewrite (pEdit_put m ∅ conf) by (done || by apply name_key; [|vm_compute; lia]). change (mret ?a ≫= ?f) with (f a). cbv beta.
    rewrite (pEdit_put m _ conf) by (done || by apply name_key; [|vm_compute; lia]). reflexivity.
Qed.

Lemma DeleteBranch_refines ss name : Check_ (OAuthorizer (o r)) p ActManage (branchResource name) = Ok tt -> validName name = Ok tt ->
  refines v rt ρ (DeleteBranch r ss p name) (planOf v (CDeleteBranch ss name) ρ).
Proof.
  intros Hp Hb. unfold DeleteBranch. rewrite branchCheck_pass by done. cbn [planOf]. change (mret tt ≫= ?f) with (f tt). cbv beta.
  destruct (_ <? _); [by exists v|]. apply refines_update; [done| |].
  - apply keys_bind; intros ? _. repeat constructor; apply name_key; first [done|vm_compute; lia].
  - intros m Hm. apply (edits_branch _ _ _ ρ); [done|intros hw _]. eexists. unfold Prolly.NewEditor.
    rewrite pEdit_del by (by apply name_key; [|vm_compute; lia]). change (mret ?a ≫= ?f) with (f a). cbv beta.
    rewrite pEdit_del by (by apply name_key; [|vm_compute; lia]). reflexivity.
Qed.

Lemma CreateTag_refines name target msg : Check_ (OAuthorizer (o r)) p ActManage (tagResource name) = Ok tt -> validName name = Ok tt ->
  refines v rt ρ (CreateTag r p name target msg) (planOf v (CCreateTag name target msg) ρ).
Proof.
  intros Hp Hb. unfold CreateTag. rewrite check_pass by done. rewrite Hb. cbn [planOf]. change (mret tt ≫= ?f) with (f tt). cbv beta.
  change (pLift (Ok tt) ≫= ?f) with (f tt). cbv beta.
  destruct (badMessage msg) eqn:Em; [by exists v|]. apply badMessage_len in Em. pose proof (Check_ID _ _ Hp) as Hid.
  apply refines_read; [apply readCommit_reads|intros c _]. cbv zeta. set (t := mkTag _ _ _ _ _).
  replace (match ρ !! tagKey name with Some _ => _ | None => _ end) with
    (chunk_first (encodeTag t) (match ρ !! tagKey name with Some _ => Err VcsTagExists | None => Ok (mkPlan [] [(tagKey name, Some (Sum (encodeTag t)))]) end))
    by (by destruct (ρ !! tagKey name)).
  apply refines_put; [by apply encodeTag_small|]. apply refines_then; [|eauto].
  apply refines_update; [eapply repo_at_more; [apply vput_grows|done]| |].
  - destruct (ρ !! tagKey name); [done|]. repeat constructor; apply name_key; first [done|vm_compute; lia].
  - intros m Hm. pose proof Hm as (Hcfg & _). unfold edits_as. rewrite exec_bind, exec_reads, (ref_at _ _ _ _ _ Hm) by apply ref_reads.
    destruct (ρ !! tagKey name); [by eexists|]. eexists. unfold Prolly.NewEditor.
    rewrite (pEdit_put m ∅ conf) by (done || by apply name_key; [|vm_compute; lia]). reflexivity.
Qed.

Lemma DeleteTag_refines name : Check_ (OAuthorizer (o r)) p ActManage (tagResource name) = Ok tt -> validName name = Ok tt ->
  refines v rt ρ (DeleteTag r p name) (planOf v (CDeleteTag name) ρ).
Proof.
  intros Hp Hb. unfold DeleteTag. rewrite check_pass by done. rewrite Hb. cbn [planOf]. change (mret tt ≫= ?f) with (f tt). cbv beta.
  change (pLift (Ok tt) ≫= ?f) with (f tt). cbv beta. apply refines_update; [done| |].
  - destruct (ρ !! tagKey name); [|done]. repeat constructor; apply name_key; first [done|vm_compute; lia].
  - intros m Hm. unfold edits_as. rewrite exec_bind, exec_reads, (ref_at _ _ _ _ _ Hm) by apply ref_reads.
    destruct (ρ !! tagKey name); [|by eexists]. eexists. unfold Prolly.NewEditor.
    rewrite pEdit_del by (by apply name_key; [|vm_compute; lia]). reflexivity.
Qed.

Lemma setWorkingSet_refines b prev next : validName b = Ok tt ->
  refines v rt ρ (setWorkingSet r b prev next true) (planSet v b prev next ρ).
Proof.
  intros Hb. unfold setWorkingSet, planSet. cbv zeta. set (w := encodeWorkingSet next).
  set (pl := (hw ← branchAt ρ b; _)). set (pl' := (hw ← branchAt ρ b;
    if negb (bool_decide (hw.2 = WHash prev)) then Err VcsConflict
    else stored ← interp (vget (vput v w)) (readWorkingSet hw.2);
         if negb (sameMerge (WMerge stored) (WMerge next)) then Err VcsMergeState else Ok (mkPlan [] [(workKey b, Some (Sum w))]))).
  assert (pl = chunk_first w pl') as ->.
  { unfold pl, pl'. destruct (branchAt ρ b) as [hw|]; [|done]. simpl. destruct (negb _); [done|]. destruct (interp _ _); [|done]. simpl. by destruct (negb _). }
  apply refines_put; [apply encodeWorkingSet_small|]. apply refines_then; [|eauto].
  apply refines_update; [eapply repo_at_more; [apply vput_grows|done]| |]; unfold pl'.
  - apply keys_bind; intros ? _. destruct (negb _); [done|]. apply keys_bind; intros ? _. destruct (negb _); [done|].
    repeat constructor; apply name_key; first [done|vm_compute; lia].
  - intros m Hm. pose proof Hm as (Hcfg & _). apply (edits_branch _ _ _ ρ); [done|intros hw _]. destruct (negb _); [by eexists|].
    unfold edits_as. rewrite exec_bind, exec_bind, exec_reads by apply readWorkingSet_reads.
    destruct (interp _ (readWorkingSet hw.2)) as [stored|e]; [|by eexists]. cbn [mbind res_bind]. destruct (negb _); [by eexists|].
    eexists. unfold Prolly.NewEditor. cbn [exec mret prog_ret]. 
    rewrite (pEdit_put m ∅ conf) by (done || by apply name_key; [|vm_compute; lia]). reflexivity.
Qed.

Lemma updateWorkingSet_refines b prev next fl : Check_ (OAuthorizer (o r)) p ActWrite (branchResource b) = Ok tt -> validName b = Ok tt ->
  refines v rt ρ (updateWorkingSet r p b prev next fl) (planOf v (CUpdateWorkingSet b prev next fl) ρ).
Proof.
  intros Hp Hb. unfold updateWorkingSet. rewrite branchCheck_pass by done. cbn [planOf]. change (mret tt ≫= ?f) with (f tt). cbv beta.
  apply refines_read; [apply readWorkingSet_reads|intros stored _]. do 2 (apply refines_read; [apply checkChanged_reads|intros _ _]).
  by apply setWorkingSet_refines.
Qed.

Lemma AbortMerge_refines b : Check_ (OAuthorizer (o r)) p ActMerge (branchResource b) = Ok tt -> validName b = Ok tt ->
  refines v rt ρ (AbortMerge r p b) (planOf v (CAbortMerge b) ρ).
Proof.
  intros Hp Hb. unfold AbortMerge. rewrite branchCheck_pass by done. cbn [planOf]. change (mret tt ≫= ?f) with (f tt). cbv beta.
  apply refines_update; [done| |].
  - do 2 (apply keys_bind; intros ? _). destruct (WMerge _); [|done]. do 2 (apply keys_bind; intros ? _).
    repeat constructor; apply name_key; first [done|vm_compute; lia].
  - intros m Hm. pose proof Hm as (Hcfg & _). apply (edits_branch _ _ _ ρ); [done|intros hw _].
    apply edits_read; [apply readWorkingSet_reads|intros ws _]. destruct (WMerge ws) as [ms|]; [|by eexists].
    do 2 (apply edits_read; [apply checkPaths_reads|intros _ _]). cbv zeta. set (back := encodeWorkingSet _).
    change (Ok (mkPlan [back] ?l)) with (chunk_first back (Ok (mkPlan [] l))). apply edits_put; [apply encodeWorkingSet_small|].
    eexists. unfold Prolly.NewEditor. rewrite (pEdit_put m ∅ conf) by (done || by apply name_key; [|vm_compute; lia]). reflexivity.
Qed.

Lemma handle_refines c : planned c = true -> Forall (fun ax => Check_ (OAuthorizer (o r)) p ax.1 ax.2 = Ok tt) (needs c) ->
  validName (nameOf c) = Ok tt -> refines v rt ρ (handle r p c) (planOf v c ρ).
Proof.
  intros Hc Hn Hb. destruct c; try discriminate Hc; cbn [needs nameOf handle] in *;
    repeat match goal with H : Forall _ (_ :: _) |- _ => apply Forall_cons in H as [? H] end; simpl in *;
    try (unfold pDrop; apply refines_then; [|by intros; eexists]).
  - by apply updateWorkingSet_refines.
  - by apply commitWorkingSet_refines.
  - by apply commit_refines.
  - by apply CreateBranch_refines.
  - by apply DeleteBranch_refines.
  - by apply CreateTag_refines.
  - by apply DeleteTag_refines.
  - by apply AbortMerge_refines.
Qed.
End Plan.

(** C5. The handlers refine updates of a finite map. On any store that keeps the
    chunk store's contract and whose root holds the refs [ρ], a permitted
    call that commits, sets or abandons a working set, or makes or removes a
    branch or a tag, does what [planOf] says of [ρ] and of the records the
    store holds: where the plan is an error, the call fails with it and the
    refs stay [ρ]; otherwise the call succeeds, the plan's records are stored
    and the root holds [ρ] with the plan's refs set and removed, and no other
    changed. *)
Theorem calls_refine_a_map_of_refs `{HH : Hasher} {S} `{!ChunkStore S} `{!ChunkStoreOk S} (s : S) r p c ρ :
  cs_ok s -> repo_at (cs_view s) (cs_rootof s) (OConfig (o r)) ρ ->
  planned c = true -> Forall (fun ax => Check_ (OAuthorizer (o r)) p ax.1 ax.2 = Ok tt) (needs c) -> validName (nameOf c) = Ok tt ->
  match planOf r p (cs_view s) c ρ with
  | Err e => exists s', run (handle r p c) s = (Err e, s') /\ cs_ok s' /\ repo_at (cs_view s') (cs_rootof s') (OConfig (o r)) ρ
  | Ok pl => refs_room (with_log (cs_view s) (pChunks pl)) (OConfig (o r)) (cs_rootof s) (editsOf (pRefs pl)) ->
      exists s', run (handle r p c) s = (Ok tt, s') /\ cs_ok s' /\ with_log (cs_view s) (pChunks pl) ⊆ cs_view s' /\
        repo_at (cs_view s') (cs_rootof s') (OConfig (o r)) (patch (pRefs pl) ρ)
  end.
Proof.
  intros Hs Hrepo Hc Hn Hb. pose proof (handle_refines r p (cs_view s) (cs_rootof s) ρ Hrepo c Hc Hn Hb) as Href.
  destruct (run_view (handle r p c) s Hs) as (s' & Hrun & Hs' & Hv & Hr). destruct (planOf r p (cs_view s) c ρ) as [pl|e]; simpl in Href.
  - intros Hroom. destruct (Href Hroom) as ([] & v' & rt' & E & Hsub & Hrepo'). rewrite E in Hrun, Hv, Hr. simpl in *.
    exists s'. rewrite Hv, Hr. split_and!; done.
  - destruct Href as (v' & E & Hsub). rewrite E in Hrun, Hv, Hr. simpl in *. exists s'. rewrite Hv, Hr. split_and!; [done|done|].
    by eapply repo_at_more.
Qed.
