(* ===== verification/VcsCommit.v ===== *)
(** * core/vcs: a commit extends its branch

    What a commit that lands leaves: the branch at a commit on top of the old
    head, higher than its parents, and the working set without a merge. So
    the histories of a repository stay ones that [Log] and [mergeBase] walk. *)

From S2P Require Import Prelude Wire Hash ChunkStore Prog Conc Auth Model ProllyNode Prolly ProllyFlush ProllyMerge Object Namespace Merge.
From S2P Require Import VcsCodec Vcs VcsHistory VcsMerge VcsAtomic VcsAccess VcsRefs VcsPlan.

(** ** Histories in a store that grows *)

Lemma commitAt_more rd rd' h c : more rd rd' -> commitAt rd h = Some c -> commitAt rd' h = Some c.
Proof.
  intros Hm Hc%commitAt_read. unfold commitAt. unfold readCommit in *. rewrite interp_bind in * by done. cbn [interp pGet] in *.
  destruct (rd h) as [b|] eqn:E; [|done]. rewrite (Hm _ _ E). destruct (DecodeCommit b); [|done]. by injection Hc as <-.
Qed.

Lemma history_more rd rd' h : more rd rd' -> history rd h -> history rd' h.
Proof.
  intros Hm Hh x Hr. assert (reach rd h x) as Hr0.
  { clear -Hm Hh Hr. induction Hr as [h|h c p x Hc Hp Hr IH]; [apply reach_here|].
    destruct (Hh h (reach_here rd h)) as (c0 & Hc0 & _). pose proof (commitAt_more _ _ _ _ Hm Hc0) as E. assert (c0 = c) as -> by congruence.
    eapply reach_parent; [done..|]. apply IH. apply (history_reach rd h); [done|]. eapply reach_parent; [done..|apply reach_here]. }
  destruct (Hh x Hr0) as (c & Hc & Hlow). exists c. split; [by eapply commitAt_more|]. intros p Hp. destruct (Hlow p Hp) as (cp & Hcp & Hlt).
  exists cp. split; [by eapply commitAt_more|done].
Qed.

(** A commit on top of histories, higher than its parents. *)
Lemma history_cons rd h c : commitAt rd h = Some c ->
  (forall p, p ∈ Parents c -> history rd p /\ exists cp, commitAt rd p = Some cp /\ Height cp < Height c) -> history rd h.
Proof.
  intros Hc Hp x Hr. inversion Hr as [|h' c' p x' Hc' Hin Hr']; subst.
  - exists c. split; [done|]. intros p Hin. destruct (Hp p Hin) as (_ & ?). done.
  - assert (c' = c) as -> by congruence. destruct (Hp p Hin) as [Hh _]. by apply Hh.
Qed.

(** ** Landing *)

Section Landing.
Context `{HH : Hasher} (r : Repo) (p : Principal).

Lemma stored_reads v v' log b : collision_free v log -> b ∈ log -> with_log v log ⊆ v' -> vget v' (Sum b) = Ok b.
Proof.
  intros Hcf Hb Hv. unfold vget. erewrite lookup_weaken; [done| |exact Hv]. apply with_log_lookup; [done|]. by right.
Qed.

Lemma with_log_grows v log : v ⊆ with_log v log.
Proof. revert v. induction log as [|b log IH]; intros v; simpl; [done|]. etrans; [apply vput_grows|apply IH]. Qed.

(** The parents of a commit on [head] with a merge in progress. *)
Definition parentsOf (head : hash) (ms : option MergeState) : list hash := head :: match ms with Some m => [MTheirs m] | None => [] end.

(** What is asked of the commits a commit is made on: they read, none is as
    high as a height can be, and the commit merged is another than the head. *)
Definition extendable (rd : creader) (head : hash) (ms : option MergeState) : Prop :=
  NoDup (parentsOf head ms) /\ forall x, x ∈ parentsOf head ms -> exists cx, commitAt rd x = Some cx /\ Height cx < two64 - 1.

Lemma commitAt_ok rd h c : commitAt rd h = Some c -> 0 <= Height c < two64.
Proof.
  intros Hc%commitAt_read. unfold readCommit in Hc. rewrite interp_bind in Hc by done. destruct (interp rd (pGet h)) as [b|]; [|done].
  cbn in Hc. destruct (DecodeCommit b) as [d|] eqn:E; [|done]. injection Hc as <-. apply DecodeCommit_bwd in E as (_ & (_ & _ & _ & ? & _) & _). done.
Qed.

Lemma commitOnto_ok rd head hc ms ns msg c : commitAt rd head = Some hc -> extendable rd head ms ->
  interp rd (commitOnto r 0 p hc ms ns msg) = Ok c ->
  Parents c = parentsOf head ms /\ CNamespace c = ns /\ CTime c = Clock (o r) 0 /\ Author c = ID p /\ CMessage c = msg /\ CHash c = zero_hash /\
  0 < Height c < two64 /\ (forall x cx, x ∈ parentsOf head ms -> commitAt rd x = Some cx -> Height cx < Height c) /\
  (exists x cx, x ∈ parentsOf head ms /\ commitAt rd x = Some cx /\ Height c = Height cx + 1).
Proof.
  intros Hh (_ & Hx) E. pose proof (commitAt_hash _ _ _ Hh) as Eh. pose proof (commitAt_ok _ _ _ Hh) as H0.
  destruct (Hx head ltac:(left)) as (c1 & Hc1 & Hlt). assert (c1 = hc) as -> by congruence. unfold commitOnto in E. destruct ms as [m|].
  - destruct (Hx (MTheirs m) ltac:(right; left)) as (ct & Hct & Hltt). pose proof (commitAt_hash _ _ _ Hct) as Et. pose proof (commitAt_ok _ _ _ Hct) as H1.
    rewrite interp_bind in E by apply readCommit_reads. rewrite (commitAt_read _ _ _ Hct) in E. injection E as <-. simpl.
    rewrite u64_small by lia. rewrite Eh, Et. split_and!; try done; try lia.
    + intros x cx [->|[->|[]%elem_of_nil]%elem_of_cons]%elem_of_cons Hcx; [assert (cx = hc) as -> by congruence|assert (cx = ct) as -> by congruence]; lia.
    + destruct (Z.max_spec (Height hc) (Height ct)) as [[_ ->]|[_ ->]]; [exists (MTheirs m), ct|exists head, hc]; split_and!; try done; unfold parentsOf; set_solver.
  - injection E as <-. simpl. rewrite u64_small by lia. rewrite Eh. split_and!; try done; try lia.
    + intros x cx [->|[]%elem_of_nil]%elem_of_cons Hcx. assert (cx = hc) as -> by congruence. lia.
    + exists head, hc. split_and!; [left|done|done].
Qed.

Lemma land_commit v v' head hc ms ns msg c log : commitAt (vget v) head = Some hc -> extendable (vget v) head ms ->
  interp (vget v) (commitOnto r 0 p hc ms ns msg) = Ok c -> int64 (Clock (o r) 0) -> Validate p = Ok tt -> badMessage msg = false ->
  collision_free v log -> encodeCommit c ∈ log -> with_log v log ⊆ v' -> commitAt (vget v') (Sum (encodeCommit c)) = Some (with_hash c (Sum (encodeCommit c))).
Proof.
  intros Hh Hx E Hck Hv Hm Hcf Hin Hsub. destruct (commitOnto_ok _ _ _ _ _ _ _ Hh Hx E) as (H1 & H2 & H3 & H4 & H5 & H6 & H7 & _).
  assert (DecodeCommit (encodeCommit c) = Ok c) as Hd.
  { apply DecodeCommit_fwd; [|done]. apply orb_false_iff in Hm as [?%Z.ltb_ge Hu%negb_false_iff]. unfold Validate in Hv. guards Hv.
    destruct G as [[_ G2] G3]. destruct Hx as [Hnd _]. unfold commit_ok. rewrite H1, H3, H4, H5. split_and!; try done; try lia.
    - unfold parentsOf. destruct ms; simpl; lia.
    - unfold parentsOf. split; [done|lia]. }
  unfold commitAt, readCommit. rewrite interp_bind by done. cbn [interp pGet]. rewrite (stored_reads _ _ _ _ Hcf Hin Hsub). cbn. by rewrite Hd.
Qed.

Lemma land_workingSet v v' ws log : WHash ws = zero_hash -> collision_free v log -> encodeWorkingSet ws ∈ log -> with_log v log ⊆ v' ->
  interp (vget v') (readWorkingSet (Sum (encodeWorkingSet ws))) = Ok (mkWorkingSet (Sum (encodeWorkingSet ws)) (Working ws) (Staged ws) (WMerge ws)).
Proof.
  intros Hw Hcf Hin Hsub. unfold readWorkingSet. rewrite interp_bind by done. cbn [interp pGet]. rewrite (stored_reads _ _ _ _ Hcf Hin Hsub).
  cbn. by rewrite decodeWorkingSet_fwd.
Qed.
End Landing.

(** The calls that commit: the branch, the message, and the namespace
    committed and left working, from the working set the branch has. *)
Definition commitCall (c : call) (b msg : bytes) (ns working : WorkingSet -> hash) : Prop :=
  (exists fl, c = CCommitWorkingSet b msg fl /\ ns = Staged /\ working = Working) \/
  (exists prev n fl, c = CCommit b prev n fl msg /\ ns = (fun _ => n) /\ working = (fun _ => n)).

Lemma commit_plan `{HH : Hasher} r p v c b msg ns working ρ pl head work hc ws :
  commitCall c b msg ns working -> planOf r p v c ρ = Ok pl -> branchAt ρ b = Ok (head, work) ->
  commitAt (vget v) head = Some hc -> interp (vget v) (readWorkingSet work) = Ok ws ->
  badMessage msg = false /\ exists new, interp (vget v) (commitOnto r 0 p hc (WMerge ws) (ns ws) msg) = Ok new /\
    pl = planLand b new (mkWorkingSet zero_hash (working ws) (ns ws) None).
Proof.
  intros Hc Hpl Hb Hh%commitAt_read Hw. destruct Hc as [(fl & -> & -> & ->)|(prev & n & fl & -> & -> & ->)]; cbn [planOf] in Hpl;
    (destruct (badMessage msg); [done|]); split; try done; rewrite Hb in Hpl; cbn [mbind res_bind fst snd] in Hpl.
  - rewrite Hw in Hpl. cbn [mbind res_bind] in Hpl. destruct (interp _ (conflictCount r ws)) as [k|]; [|done]. cbn [mbind res_bind] in Hpl.
    destruct (_ <? _); [done|]. rewrite Hh in Hpl. cbn [mbind res_bind] in Hpl. destruct (interp _ (checkChanged _ _ _ _ _ _)); [|done].
    cbn [mbind res_bind] in Hpl. destruct (interp _ (commitOnto _ _ _ _ _ _ _)) as [new|]; [|done]. cbn [mbind res_bind] in Hpl.
    exists new. split; [done|congruence].
  - destruct (negb _); [done|]. rewrite Hw in Hpl. cbn [mbind res_bind] in Hpl. destruct (negb _); [done|].
    destruct (interp _ (conflictCount r ws)) as [k|]; [|done]. cbn [mbind res_bind] in Hpl.
    destruct (_ <? _); [done|]. rewrite Hh in Hpl. cbn [mbind res_bind] in Hpl. destruct (interp _ (checkFroms _ _ _ _ _ _ _)); [|done].
    cbn [mbind res_bind] in Hpl. destruct (interp _ (commitOnto _ _ _ _ _ _ _)) as [new|]; [|done]. cbn [mbind res_bind] in Hpl.
    exists new. split; [done|congruence].
Qed.

Lemma key_prefixes (b k : bytes) : headKey b <> workKey k.
Proof. unfold headKey, workKey. done. Qed.

(** C8. A commit extends its branch. When nothing stands in the way of a call that
    commits, the branch's head becomes a commit that reads back: on top of
    the old head (and of the commit merged, with a merge in progress), one
    higher than the highest of them, naming the namespace committed, by the
    principal and with the message. The branch's working set reads back
    without a merge, no other ref changes, and the new head's history is one
    in which every commit reads and is higher than its parents, when its
    parents' were. *)
Theorem commit_extends_its_branch `{HH : Hasher} {S} `{!ChunkStore S} `{!ChunkStoreOk S} (s : S) r p c b msg ns working ρ pl head work hc ws :
  cs_ok s -> repo_at (cs_view s) (cs_rootof s) (OConfig (o r)) ρ -> commitCall c b msg ns working ->
  Forall (fun ax => Check_ (OAuthorizer (o r)) p ax.1 ax.2 = Ok tt) (needs c) -> validName b = Ok tt -> int64 (Clock (o r) 0) ->
  planOf r p (cs_view s) c ρ = Ok pl -> branchAt ρ b = Ok (head, work) ->
  commitAt (cs_get s) head = Some hc -> interp (cs_get s) (readWorkingSet work) = Ok ws -> extendable (cs_get s) head (WMerge ws) ->
  collision_free (cs_view s) (pChunks pl) ->
  refs_room (with_log (cs_view s) (pChunks pl)) (OConfig (o r)) (cs_rootof s) (editsOf (pRefs pl)) ->
  exists s' ρ' h new w, run (handle r p c) s = (Ok tt, s') /\ cs_ok s' /\ repo_at (cs_view s') (cs_rootof s') (OConfig (o r)) ρ' /\
    ρ' !! headKey b = Some h /\ commitAt (cs_get s') h = Some new /\
    Parents new = parentsOf head (WMerge ws) /\ CNamespace new = ns ws /\ Author new = ID p /\ CMessage new = msg /\
    (exists x cx, x ∈ Parents new /\ commitAt (cs_get s) x = Some cx /\ Height new = Height cx + 1) /\
    ρ' !! workKey b = Some w /\ interp (cs_get s') (readWorkingSet w) = Ok (mkWorkingSet w (working ws) (ns ws) None) /\
    (forall k, k <> headKey b -> k <> workKey b -> ρ' !! k = ρ !! k) /\
    ((forall x, x ∈ Parents new -> history (cs_get s) x) -> history (cs_get s') h).
Proof.
  intros Hs Hrepo Hc Hn Hb Hck Hpl Hbr Hh Hw Hx Hcf Hroom. rewrite (get_view s Hs) in *.
  destruct (commit_plan r p _ c b msg ns working ρ pl head work hc ws Hc Hpl Hbr Hh Hw) as (Hmsg & new & Hnew & ->).
  assert (planned c = true /\ nameOf c = b /\ exists a x, (a, x) ∈ needs c) as (Hc1 & Hc2 & a & x & Hax).
  { destruct Hc as [(fl & -> & _)|(prev & n & fl & -> & _)]; split_and!; try done; eexists _, _; left. }
  pose proof (handle_refines r p (cs_view s) (cs_rootof s) ρ Hrepo c Hc1 Hn ltac:(by rewrite Hc2)) as Href. rewrite Hpl in Href.
  destruct (Href Hroom) as ([] & v' & rt' & E & Hsub & Hrepo').
  destruct (run_view (handle r p c) s Hs) as (s' & Hrun & Hs' & Hv & Hr). rewrite E in Hrun, Hv, Hr. cbn [fst snd] in Hrun, Hv, Hr.
  rewrite Forall_forall in Hn. pose proof (Hn _ Hax) as Hck0. cbn [fst snd] in Hck0.
  assert (Validate p = Ok tt) as Hval by (unfold Check_ in Hck0; destruct (Validate p) as [[]|]; done).
  destruct (commitOnto_ok r p _ _ _ _ _ _ _ Hh Hx Hnew) as (H1 & H2 & H3 & H4 & H5 & H6 & H7 & H8 & H9).
  set (wsn := mkWorkingSet zero_hash (working ws) (ns ws) None) in *.
  assert (commitAt (vget v') (Sum (encodeCommit new)) = Some (with_hash new (Sum (encodeCommit new)))) as Hat
    by (eapply (land_commit r p (cs_view s) v'); eauto; left).
  assert (interp (vget v') (readWorkingSet (Sum (encodeWorkingSet wsn))) = Ok (mkWorkingSet (Sum (encodeWorkingSet wsn)) (working ws) (ns ws) None)) as Hat2
    by (apply (land_workingSet (cs_view s) v' wsn (pChunks (planLand b new wsn))); try done; right; left).
  exists s', (patch (pRefs (planLand b new wsn)) ρ), (Sum (encodeCommit new)), (with_hash new (Sum (encodeCommit new))), (Sum (encodeWorkingSet wsn)).
  rewrite (get_view s' Hs'), Hv, Hr. unfold patch. cbn [pRefs planLand foldl fst snd]. cbn [with_hash Parents CNamespace Author CMessage Height].
  split_and!; try done.
  - rewrite lookup_partial_alter_ne by (intros F; by apply (key_prefixes b b)). by rewrite lookup_partial_alter_eq.
  - rewrite H1. exact H9.
  - by rewrite lookup_partial_alter_eq.
  - intros k Hk1 Hk2. by rewrite !lookup_partial_alter_ne by congruence.
  - assert (more (vget (cs_view s)) (vget v')) as Hm.
    { apply more_view. etrans; [|exact Hsub]. apply with_log_grows. }
    intros Hhist. eapply history_cons; [exact Hat|]. cbn [with_hash Parents Height]. intros y Hy. split; [eapply history_more; [exact Hm|by apply Hhist]|].
    rewrite H1 in Hy. destruct (proj2 Hx y Hy) as (cy & Hcy & _). exists cy. split; [by eapply commitAt_more|]. by eapply H8.
Qed.
