(* ===== verification/VcsInit.v ===== *)
(** * core/vcs: a new repository

    [Init] on a store without a root makes the refs of one branch, [main], at
    a first commit of an empty namespace. *)

From S2P Require Import Prelude Wire Hash ChunkStore Prog Conc Auth Model ProllyNode Prolly ProllyDraw ProllyFlush ProllyMerge ProllyEditor Object Namespace Merge.
From S2P Require Import VcsCodec Vcs VcsHistory VcsMerge VcsAtomic VcsAccess VcsRefs VcsPlan.

Lemma canonical_empty `{HH : Hasher} rd c rl : rule c = Ok rl -> rd (Sum (encode emptyNode)) = Ok (encode emptyNode) ->
  canonical rd (mkMap c rl (Sum (encode emptyNode)) 0 0 (Some emptyNode) false zero_hash []) [].
Proof.
  intros Hr Hrd. split; [exact Hr|]. split; [split; [constructor|split; [constructor|discriminate]]|].
  split; [reflexivity|]. split; [reflexivity|]. split; [reflexivity|]. split; [reflexivity|].
  intros x Hx. change (x ∈ [emptyNode]) in Hx. by apply list_elem_of_singleton in Hx as ->.
Qed.

Section Init.
Context `{HH : Hasher} (op : Vcs.Options) (rg : Registry) (slp : Z -> res unit) (jit : Z -> Z) (p : Principal).

(** The records of a new repository. *)
Definition initCommit : bytes :=
  encodeCommit (mkCommit zero_hash [] (Sum (encode emptyNode)) 0 (Clock op 0) (ID p) (str "Initialize the repository")).
Definition initWorkingSet : bytes := encodeWorkingSet (mkWorkingSet zero_hash (Sum (encode emptyNode)) (Sum (encode emptyNode)) None).

Definition initPlan : plan :=
  mkPlan [encode emptyNode; initCommit; initWorkingSet; encode emptyNode]
    [(headKey MainBranch, Some (Sum initCommit)); (workKey MainBranch, Some (Sum initWorkingSet))].

(** On a store without a root, [Init] makes a repository of one branch at a first commit. *)
Lemma Init_exec v : ORegistry op = Some rg -> Check_ (OAuthorizer op) p ActAdmin (str "repo") = Ok tt ->
  32 <= InlineLimit (OConfig op) -> stream_ok (OConfig op) -> is_ok (rule (OConfig op)) = true -> 0 <= MaxValue (OConfig op) ->
  let v1 := with_log v (pChunks initPlan) in
  v1 !! Sum (encode emptyNode) = Some (encode emptyNode) ->
  refs_room v1 (OConfig op) (Sum (encode emptyNode)) (editsOf (pRefs initPlan)) ->
  exists v' rt', exec v zero_hash (Init op slp jit p) = (Ok (mkRepo op rg slp jit), v', rt') /\ v1 ⊆ v' /\
    repo_at v' rt' (OConfig op) (patch (pRefs initPlan) ∅).
Proof.
  intros Hrg Hp Hlim Hst Hrule Hmv v1 He Hroom. set (c := OConfig op) in *.
  assert (exists rl, rule (refsMap c) = Ok rl) as [rl Hrl].
  { unfold rule in *. cbn [refsMap Nodes InlineLimit MaxValue] in *. destruct (_ || _); [done|]. destruct (MaxValue c <? 0); [done|]. by apply is_Ok_inv in Hrule. }
  assert (exists rl', rule (namespace c) = Ok rl') as [rl' Hrl'].
  { unfold rule in *. cbn [namespace Nodes InlineLimit MaxValue] in *. destruct (_ || _); [done|]. destruct (MaxValue c <? 0); [done|]. by apply is_Ok_inv in Hrule. }
  assert (zlen (encode emptyNode) <= MaxChunkSize) as Hs0 by (vm_compute; discriminate).
  assert (zlen initCommit <= MaxChunkSize) as Hs1.
  { apply encodeCommit_small; cbn [Parents Author CMessage]; [simpl; lia| |vm_compute; discriminate].
    unfold Check_ in Hp. destruct (Validate p) as [[]|] eqn:Ev; [|done]. by apply Validate_spec in Ev as (_ & ? & _). }
  assert (zlen initWorkingSet <= MaxChunkSize) as Hs2 by apply encodeWorkingSet_small.
  set (m := mkMap (refsMap c) rl (Sum (encode emptyNode)) 0 0 (Some emptyNode) false zero_hash []).
  assert (canonical (vget v1) m []) as Hcan by (apply canonical_empty; [done|]; unfold vget; by rewrite He).
  assert (rmap (vget v1) c m ∅) as Hm by (split; [done|]; exists []; split; [done|]; intros k; unfold rbinding; by rewrite lookup_empty).
  destruct (refs_flush v1 c m ∅ (patch (pRefs initPlan) ∅) (editsOf (pRefs initPlan)) Hm Hlim Hst) as (m' & e' & v' & Hsteps & Hsub & Hm' & Hnz & Hin).
  { apply editsOf_patch. repeat constructor; vm_compute; discriminate. }
  { exact (Open_at _ _ _ Hcan). }
  { exact Hroom. }
  exists v', (Prolly.root m'). split; [|split; [done|]; split_and!; [done..|]; by exists m'].
  unfold Init, newRepo. rewrite Hrg. rewrite exec_bind. cbn [exec pLift]. rewrite exec_bind. cbn [exec pLift]. rewrite Hp.
  rewrite exec_bind. cbn [exec pRoot]. unfold IsZero. rewrite bool_decide_eq_true_2 by done. cbn [negb].
  unfold Object.New, Prolly.Empty. fold c. rewrite Hrl', Hrl. rewrite !exec_bind, exec_put by done.
  cbn [exec mret prog_ret NRoot nm Prolly.root]. fold initCommit initWorkingSet.
  rewrite exec_bind, exec_put by exact Hs1. rewrite exec_bind, exec_put by exact Hs2.
  rewrite !exec_bind, exec_put by done. cbn [exec mret prog_ret]. fold m. unfold Prolly.NewEditor.
  rewrite (pEdit_put m ∅ c) by (done || (vm_compute; discriminate)). change (mret ?a ≫= ?f) with (f a). cbv beta.
  rewrite (pEdit_put m _ c) by (done || (vm_compute; discriminate)). change (mret ?a ≫= ?f) with (f a). cbv beta.
  change (vput (vput (vput (vput v (encode emptyNode)) initCommit) initWorkingSet) (encode emptyNode)) with v1.
  rewrite exec_bind, Hsteps. cbn [fst snd]. rewrite exec_try. cbn [exec pCas].
  assert (vcas v' zero_hash zero_hash (Prolly.root m') = (Ok tt, Prolly.root m')) as ->; [|done].
  unfold vcas, IsZero. by rewrite !bool_decide_eq_false_2 by first [done|tauto].
Qed.
End Init.
