(* ===== verification/VcsSession.v ===== *)
(** * core/vcs: sessions and waiting

    A repository counts, per branch, the sessions of its process that have
    the branch checked out, and refuses to delete a branch that one has; and
    a writer that lost a swap waits a bounded while. *)

From S2P Require Import Prelude Wire Hash ChunkStore Prog Auth Model Object Merge VcsCodec Vcs VcsAtomic VcsAccess VcsRefs VcsPlan.

#[local] Opaque maxAttempts update.

(** ** Sessions *)

(** The sessions handed out, open and closed, and the counts. *)
Record desk := mkDesk { dSessions : list Session; dCounts : gmap bytes Z }.

(** A session checked out, on any store and for anyone, or one closed, again perhaps. *)
Inductive desk_step `{Hasher} (r : Repo) : desk -> desk -> Prop :=
| desk_checkout d p b v rt s cs v' rt' :
    exec v rt (Checkout r (dCounts d) p b) = (Ok (s, cs), v', rt') -> desk_step r d (mkDesk (dSessions d ++ [s]) cs)
| desk_close d i s s' cs :
    dSessions d !! i = Some s -> Close s (dCounts d) = (s', cs) -> desk_step r d (mkDesk (<[i := s']> (dSessions d)) cs).

Definition openOn (b : bytes) (s : Session) : bool := negb (sclosed s) && bool_decide (sbranch s = b).

Definition openCount (b : bytes) (l : list Session) : Z := zlen (List.filter (openOn b) l).

(** The counts are the open sessions, and a branch with none has no entry. *)
Definition desk_ok (d : desk) : Prop := forall b,
  dCounts d !! b = (if bool_decide (openCount b (dSessions d) = 0) then None else Some (openCount b (dSessions d))).

Lemma desk_count d b : desk_ok d -> default 0 (dCounts d !! b) = openCount b (dSessions d).
Proof. intros Hd. rewrite (Hd b). case_bool_decide; simpl; lia. Qed.

Lemma openCount_app b l l' : openCount b (l ++ l') = openCount b l + openCount b l'.
Proof. unfold openCount. rewrite List.filter_app, length_app. lia. Qed.

Lemma openCount_one b s : openCount b [s] = if openOn b s then 1 else 0.
Proof. unfold openCount. simpl. by destruct (openOn b s). Qed.

Lemma openCount_insert b l i s s' : l !! i = Some s ->
  openCount b (<[i := s']> l) = openCount b l - (if openOn b s then 1 else 0) + (if openOn b s' then 1 else 0).
Proof.
  intros Hi. rewrite (insert_take_drop l i s') by (by eapply lookup_lt_Some).
  rewrite <-(take_drop_middle l i s Hi) at 3. change (?x :: drop (S i) l) with ([x] ++ drop (S i) l).
  rewrite !openCount_app, !openCount_one. lia.
Qed.

Lemma openCount_nonneg b l : 0 <= openCount b l.
Proof. unfold openCount. lia. Qed.

Lemma Checkout_count `{Hasher} r cs p b v rt s cs' v' rt' :
  exec v rt (Checkout r cs p b) = (Ok (s, cs'), v', rt') -> s = mkSession b false /\ cs' = <[b := default 0 (cs !! b) + 1]> cs.
Proof.
  unfold Checkout. rewrite exec_bind. destruct (exec v rt (Head r p b)) as [[[c|e] v1] rt1]; [|done]. by intros [= <- <- _ _].
Qed.

Lemma desk_step_ok `{Hasher} r d d' : desk_step r d d' -> desk_ok d -> desk_ok d'.
Proof.
  destruct 1 as [d p b v rt s cs v' rt' E|d i s s' cs Hi E]; intros Hd k; simpl.
  - destruct (Checkout_count _ _ _ _ _ _ _ _ _ _ E) as [-> ->]. rewrite (desk_count _ _ Hd), openCount_app, openCount_one.
    unfold openOn; simpl. pose proof (openCount_nonneg k (dSessions d)). destruct (decide (b = k)) as [->|Hne].
    + rewrite lookup_insert_eq, (bool_decide_eq_true_2 (k = k)), bool_decide_eq_false_2 by (done || lia). done.
    + rewrite lookup_insert_ne, (bool_decide_eq_false_2 (b = k)), Z.add_0_r by done. apply Hd.
  - rewrite (openCount_insert _ _ _ _ _ Hi). unfold Close in E. unfold openOn. destruct (sclosed s) eqn:Es.
    { injection E as <- <-. rewrite Es. simpl. rewrite Z.sub_0_r, Z.add_0_r. apply Hd. }
    rewrite (desk_count _ _ Hd) in E. set (n := openCount (sbranch s) (dSessions d)) in *. injection E as <- <-. simpl. rewrite Z.add_0_r.
    assert (1 <= n) as Hn.
    { unfold n. pose proof (openCount_insert (sbranch s) _ _ _ (mkSession (sbranch s) true) Hi) as Hx. unfold openOn in Hx. rewrite Es in Hx.
      simpl in Hx. rewrite bool_decide_eq_true_2 in Hx by done. pose proof (openCount_nonneg (sbranch s) (<[i := mkSession (sbranch s) true]> (dSessions d))). lia. }
    destruct (decide (sbranch s = k)) as [<-|Hne].
    + rewrite (bool_decide_eq_true_2 (sbranch s = sbranch s)) by done. fold n. destruct (Z.leb_spec (n - 1) 0).
      * rewrite lookup_delete_eq, bool_decide_eq_true_2 by lia. done.
      * rewrite lookup_insert_eq, bool_decide_eq_false_2 by lia. done.
    + rewrite (bool_decide_eq_false_2 (sbranch s = k)), Z.sub_0_r by done.
      destruct (_ <=? _); rewrite ?lookup_delete_ne, lookup_insert_ne by done; apply Hd.
Qed.

Lemma desk_reachable `{Hasher} r d : rtc (desk_step r) (mkDesk [] ∅) d -> desk_ok d.
Proof.
  intros Hd. assert (desk_ok (mkDesk [] ∅)) as H0 by (intros k; simpl; by rewrite lookup_empty).
  revert H0. induction Hd as [d|d1 d2 d3 Hs _ IH]; [done|]. intros H1. apply IH. by eapply desk_step_ok.
Qed.

Lemma openCount_some b l s : s ∈ l -> sclosed s = false -> sbranch s = b -> 0 < openCount b l.
Proof.
  intros Hin Hc Hb. assert (s ∈ List.filter (openOn b) l) as Hf.
  { apply list_elem_of_In, filter_In. split; [by apply list_elem_of_In|]. unfold openOn. rewrite Hc, bool_decide_eq_true_2 by done. done. }
  unfold openCount. destruct (List.filter _ _); [by apply elem_of_nil in Hf|]. simpl. lia.
Qed.

Lemma openCount_none b l : (forall s, s ∈ l -> sclosed s = false -> sbranch s <> b) -> openCount b l = 0.
Proof.
  intros Hnone. unfold openCount. destruct (List.filter (openOn b) l) as [|s l'] eqn:Ef; [done|]. exfalso.
  assert (In s (List.filter (openOn b) l)) as Hs by (rewrite Ef; by left). apply filter_In in Hs as [Hin Ho].
  unfold openOn in Ho. apply andb_true_iff in Ho as [Ho1%negb_true_iff Ho2%bool_decide_eq_true].
  by apply (Hnone s); [apply list_elem_of_In| |].
Qed.

(** C28. A branch in use stays, and no other does. However sessions are checked out
    and closed (and closed again), the count of a branch is the number of its
    open sessions, and a branch with none has no count. While one is open
    [DeleteBranch] is refused with [ErrBranchInUse] before it looks at the
    store, to everyone who may ask. While none is, it does its work on any
    store whose refs it can rewrite: a branch that is there is gone
    afterwards, its working set too and nothing else, and one that is not, or
    has lost its working set, is reported as that. *)
Theorem branch_in_use_stays `{Hasher} r d p b :
  rtc (desk_step r) (mkDesk [] ∅) d ->
  Check_ (OAuthorizer (o r)) p ActManage (branchResource b) = Ok tt -> validName b = Ok tt ->
  (forall k, dCounts d !! k = (if bool_decide (openCount k (dSessions d) = 0) then None else Some (openCount k (dSessions d)))) /\
  ((exists s, s ∈ dSessions d /\ sclosed s = false /\ sbranch s = b) -> DeleteBranch r (dCounts d) p b = Ret (Err VcsBranchInUse)) /\
  ((forall s, s ∈ dSessions d -> sclosed s = false -> sbranch s <> b) -> forall v rt ρ, repo_at v rt (OConfig (o r)) ρ ->
     match ρ !! headKey b, ρ !! workKey b with
     | Some _, Some _ => refs_room v (OConfig (o r)) rt (<[workKey b := None]> (<[headKey b := None]> ∅)) ->
         exists v' rt', exec v rt (DeleteBranch r (dCounts d) p b) = (Ok tt, v', rt') /\
           repo_at v' rt' (OConfig (o r)) (delete (workKey b) (delete (headKey b) ρ))
     | Some _, None => exists v', exec v rt (DeleteBranch r (dCounts d) p b) = (Err ChunkCorrupt, v', rt)
     | None, _ => exists v', exec v rt (DeleteBranch r (dCounts d) p b) = (Err VcsBranchNotFound, v', rt)
     end).
Proof.
  intros Hok%desk_reachable Hp Hb. split; [exact Hok|]. split.
  - intros (s & Hin & Hc & Hsb). unfold DeleteBranch. rewrite (desk_count _ _ Hok).
    rewrite (proj2 (Z.ltb_lt _ _) (openCount_some _ _ _ Hin Hc Hsb)), branchCheck_pass by done. done.
  - intros Hnone%openCount_none v rt ρ Hrepo.
    pose proof (DeleteBranch_refines r p v rt ρ Hrepo (dCounts d) b Hp Hb) as Hr. cbn [planOf] in Hr.
    rewrite (desk_count _ _ Hok), Hnone in Hr. unfold branchAt in Hr. cbn [Z.ltb Z.compare] in Hr.
    destruct (ρ !! headKey b); [|destruct Hr as (v' & Hr & _); by exists v'].
    destruct (ρ !! workKey b); [|destruct Hr as (v' & Hr & _); by exists v'].
    intros Hroom. destruct (Hr Hroom) as ([] & v' & rt' & E & _ & Hrep). by exists v', rt'.
Qed.

(** ** Waiting *)

(** The base pause doubled [attempt] times, up to the cap. *)
Definition ceiling (attempt : nat) : Z := Z.min (backoffBase * 2 ^ Z.of_nat attempt) backoffCap.

(** The pause after a lost swap is bounded: with a jitter that draws from [[0, n)],
    the pause after the [attempt]th swap lost in a row is from half of
    200 µs doubled [attempt] times, but at most half of 20 ms, up to twice
    that, and so from 100 µs to 20 ms whatever the attempt; no step of its
    computation leaves the 64 bits of a duration. *)
Theorem backoff_is_bounded (attempt : nat) (jitter : Z -> Z) :
  (forall n, 0 < n -> 0 <= jitter n < n) ->
  ceiling attempt / 2 <= backoff attempt jitter <= ceiling attempt /\ 100000 <= backoff attempt jitter <= 20000000 /\
  ((attempt < 16)%nat -> Z.shiftl backoffBase (Z.of_nat attempt) < 2 ^ 63).
Proof.
  intros Hj. set (d := ceiling attempt). assert (backoffBase <= backoffBase * 2 ^ Z.of_nat attempt) as Hbase.
  { pose proof (Z.pow_pos_nonneg 2 (Z.of_nat attempt) ltac:(lia) ltac:(lia)). unfold backoffBase. lia. }
  assert (backoff attempt jitter = Z.quot d 2 + jitter (Z.quot d 2 + 1)) as ->.
  { unfold backoff. destruct (Nat.ltb_spec attempt 16) as [Ha|Ha].
    - unfold d, ceiling. by rewrite Z.shiftl_mul_pow2 by lia.
    - assert (d = backoffCap) as ->; [|done]. unfold d, ceiling. apply Z.min_r.
      pose proof (Z.pow_le_mono_r 2 16 (Z.of_nat attempt) ltac:(lia) ltac:(lia)) as Hp. unfold backoffBase, backoffCap. lia. }
  assert (200000 <= d <= 20000000) as Hd by (unfold d, ceiling, backoffBase, backoffCap in *; lia).
  clearbody d. rewrite Z.quot_div_nonneg by lia. pose proof (Z.div_mod d 2 ltac:(lia)) as Hdm. pose proof (Z.mod_pos_bound d 2 ltac:(lia)) as Hmod.
  pose proof (Hj (d / 2 + 1) ltac:(lia)) as Hjd. split_and!; try lia.
  intros Ha. rewrite Z.shiftl_mul_pow2 by lia. pose proof (Z.pow_le_mono_r 2 (Z.of_nat attempt) 15 ltac:(lia) ltac:(lia)). unfold backoffBase. lia.
Qed.
