(* ===== verification/VcsWalk.v ===== *)
(** * core/vcs: walking the version graph

    [Walk] names every chunk a repository reaches: what a collector keeps.
    The theorem is that a store which held the chunks it named, whatever
    else it lost, has the same refs, tags, working sets, histories and
    namespaces. *)

From S2P Require Import Prelude GoStd Wire Hash ChunkStore Prog Auth Model ProllyNode Prolly ProllyDraw ProllyWalk Object Merge.
From S2P Require Import VcsCodec Vcs VcsHistory VcsAccess VcsRefs.
From S2P Require Stream.

(** [walker]: the visitor's state, the commits named but not yet read, and the
    graph's chunks read so far, as what. *)
Record wstate (St : Type) := mkWState { wst : St; wcommits : list hash; wkinds : gmap hash Z }.
Arguments mkWState {St}.
Arguments wst {St}.
Arguments wcommits {St}.
Arguments wkinds {St}.

Section Walking.
Context {St : Type} (rd : creader) (op : Vcs.Options) (rg : Registry) (visit : visitor St).

(** The caller's visitor, on the walker's state. *)
Definition wvisit_ : visitor (wstate St) := fun h leaf s =>
  let '(r, st) := visit h leaf (wst s) in (r, mkWState st (wcommits s) (wkinds s)).

Definition pushCommits (hs : list hash) : M (wstate St) unit := fun s =>
  (Ok tt, mkWState (wst s) (wcommits s ++ hs) (wkinds s)).

Definition setKind (h : hash) (kind : Z) : M (wstate St) unit := fun s =>
  (Ok tt, mkWState (wst s) (wcommits s) (<[h := kind]> (wkinds s))).

(** [enter]; bytes read are not nil, which [None] stands for. *)
Definition enter (h : hash) (kind : Z) : M (wstate St) (option bytes) := fun s =>
  match wkinds s !! h with
  | Some k => if negb (k =? kind) then fail ChunkCorrupt s else (Ok None, s)
  | None =>
      (_ ← setKind h kind;
       _ ← wvisit_ h false;
       b ← liftR (rd h);
       mret (Some b)) s
  end.

Definition namespace_ (root : hash) : M (wstate St) unit := Object.Walk rd (OConfig op) (Some rg) root wvisit_.

Definition tag (h : hash) : M (wstate St) unit :=
  b ← enter h kindTag;
  match b with
  | None => mret tt
  | Some b => t ← liftR (decodeTag b); pushCommits [Target t]
  end.

(** The sides of a conflict that are there. *)
Fixpoint walkSides (sides : list Ref) : M (wstate St) unit :=
  match sides with
  | [] => mret tt
  | side :: sides =>
      _ ← (if bool_decide (side = zeroRef) then mret tt else WalkRef rd rg side wvisit_);
      walkSides sides
  end.

Definition workingSet (h : hash) : M (wstate St) unit :=
  b ← enter h kindWorkingSet;
  match b with
  | None => mret tt
  | Some b =>
      ws ← liftR (decodeWorkingSet b);
      _ ← namespace_ (Working ws);
      _ ← namespace_ (Staged ws);
      match WMerge ws with
      | None => mret tt
      | Some ms =>
          _ ← namespace_ (PreWorking ms);
          _ ← namespace_ (PreStaged ms);
          _ ← pushCommits [MBase ms; MTheirs ms];
          ProllyWalk.Walk rd (conflictsMap (OConfig op)) (MConflictsRoot ms) wvisit_ (Some (fun key val =>
            c ← liftR (decodeConflict key val);
            walkSides [CBase c; COurs c; CTheirs c]))
      end
  end.

(** What a ref names. *)
Definition refValue (key val : bytes) : M (wstate St) unit :=
  if negb (zlen val =? 32) then fail ChunkCorrupt
  else
    let h := to_hash val in
    if HasPrefix key (str "heads/") then pushCommits [h]
    else if HasPrefix key (str "tags/") then tag h
    else if HasPrefix key (str "work/") then workingSet h
    else fail ChunkCorrupt.

(** [history]: a stack, of which a round pops one; the commits of the graph
    and twice as many again are enough rounds. *)
Fixpoint historyLoop (fuel : nat) : M (wstate St) unit := fun s =>
  match rev (wcommits s) with
  | [] => (Ok tt, s)
  | h :: rest =>
      match fuel with
      | O => fail (EMsg "no fuel") s
      | S fuel =>
          (b ← enter h kindCommit;
           match b with
           | None => historyLoop fuel
           | Some b =>
               c ← liftR (DecodeCommit b);
               _ ← namespace_ (CNamespace c);
               _ ← pushCommits (Parents c);
               historyLoop fuel
           end) (mkWState (wst s) (rev rest) (wkinds s))
      end
  end.

Definition walkRepo (fuel : nat) (root : hash) : M (wstate St) unit :=
  _ ← ProllyWalk.Walk rd (refsMap (OConfig op)) root wvisit_ (Some refValue);
  historyLoop fuel.
End Walking.

Definition Walk {St} (fuel : nat) (rd : creader) (op : Vcs.Options) (root : hash) (visit : visitor St) : M St unit := fun st =>
  match ORegistry op with
  | None => (Err (EMsg "vcs: a repository needs a model registry"), st)
  | Some rg => let '(r, s) := walkRepo rd op rg visit fuel root (mkWState st [] ∅) in (r, wst s)
  end.

(** ** What a walk that succeeds has named *)

Abbreviation wnames := (wstate (list hash)).

(** Names were added, and nothing else changed. *)
Definition adds (s s' : wnames) : Prop :=
  (forall x, x ∈ wst s -> x ∈ wst s') /\ wcommits s' = wcommits s /\ wkinds s' = wkinds s.

Abbreviation seeing := (wvisit_ Stream.collect).

Lemma seeing_adds : Stream.noting seeing wst adds.
Proof.
  split; [done| |by intros s s' x [? _]; auto|].
  - intros s1 s2 s3 (H1 & H2 & H3) (H4 & H5 & H6). split_and!; [auto|congruence|congruence].
  - intros h leaf s. eexists. split; [done|]. split; [split_and!; [set_solver|done|done]|]. set_solver.
Qed.

Section Sound.
Context (rd : creader) (op : Vcs.Options) (rg : Registry) (held : ModelID -> Model.Root -> list hash -> Prop).

(** The port's contract of a model's walker, which names every chunk the
    object reaches: it changes nothing but by the visitor, and the
    object is then [held] by what it named, as by any more chunks. *)
Definition walkers_keep : Prop :=
  (forall id root a b, (forall x, x ∈ a -> x ∈ b) -> held id root a -> held id root b) /\
  forall id m wk, models rg !! id = Some m -> asWalker m = Some wk ->
    forall root s s', wk wnames root rd seeing s = (Ok tt, s') -> adds s s' /\ held id root (wst s').

Context (Hwalkers : walkers_keep).

Lemma M_bind_inv {S A B} (m : M S A) (f : A -> M S B) s b s2 : (m ≫= f) s = (Ok b, s2) -> exists a s1, m s = (Ok a, s1) /\ f a s1 = (Ok b, s2).
Proof. unfold mbind, M_bind. destruct (m s) as [[a|] s1]; [by eauto|done]. Qed.

Lemma adds_trans s1 s2 s3 : adds s1 s2 -> adds s2 s3 -> adds s1 s3.
Proof. apply seeing_adds. Qed.

Definition object_held (ref : Ref) (s : wnames) : Prop := held (RefModel ref) (RefRoot ref) (wst s).

Lemma WalkRef_adds ref s s' : WalkRef rd rg ref seeing s = (Ok tt, s') -> adds s s' /\ object_held ref s'.
Proof.
  unfold WalkRef. destruct (Resolve rg _ _) as [m|] eqn:E; [|done]. destruct (asWalker m) as [wk|] eqn:Ew; [|done].
  apply Resolve_ok in E as [E _]. by apply (proj2 Hwalkers _ _ _ E Ew).
Qed.

(** The map at [root] stays as it is in a store that has the names of [s]. *)
Definition map_kept (c : Config) (root : hash) (s : wnames) : Prop := forall rd', agrees rd rd' (wst s) ->
  forall m es, map_ok rd m es -> cfg m = c -> Prolly.root m = root ->
    map_ok rd' m es /\ forall e ref, e ∈ es -> val e = VStream ref -> Stream.contents rd' ref = Stream.contents rd ref.

Definition sub (s s' : wnames) : Prop := forall x, x ∈ wst s -> x ∈ wst s'.

Lemma map_kept_more c root s s' : sub s s' -> map_kept c root s -> map_kept c root s'.
Proof. intros Hs Hk rd' Ha. apply Hk. intros h Hh. by apply Ha, Hs. Qed.

(** A walk of a map whose values' function only adds names. *)
Lemma map_walked c root value (Q : bytes -> bytes -> wnames -> Prop) s s' :
  (forall k v s1 s2, value k v s1 = (Ok tt, s2) -> adds s1 s2 /\ Q k v s2) ->
  (forall k v s1 s2, adds s1 s2 -> Q k v s1 -> Q k v s2) ->
  ProllyWalk.Walk rd c root seeing (Some value) s = (Ok tt, s') ->
  adds s s' /\ map_kept c root s' /\
  forall m es, map_ok rd m es -> cfg m = c -> Prolly.root m = root ->
    forall e, e ∈ es -> exists v, materialize rd m (val e) = Ok v /\ Q (key e) v s'.
Proof.
  intros Hv Hq Hw. split_and!.
  - eapply (Walk_moves seeing wst adds value); [exact seeing_adds| |exact Hw]. intros k v s1 s2 Hx. by eapply Hv.
  - intros rd' Ha m es Hm <- <-. eapply (Walk_sound seeing wst adds seeing_adds value Q Hv Hq); [exact Hm|exact Hw|exact Ha].
  - intros m es Hm <- <-. eapply (Walk_sound seeing wst adds seeing_adds value Q Hv Hq); [exact Hm|exact Hw].
Qed.

(** A namespace is kept with the objects it names. *)
Definition ns_kept (root : hash) (s : wnames) : Prop :=
  map_kept (namespace (OConfig op)) root s /\
  forall m es, map_ok rd m es -> cfg m = namespace (OConfig op) -> Prolly.root m = root ->
    forall e, e ∈ es -> exists v ref, materialize rd m (val e) = Ok v /\ DecodeRef v = Ok ref /\ object_held ref s.

Lemma held_more ref s s' : sub s s' -> object_held ref s -> object_held ref s'.
Proof. apply Hwalkers. Qed.

Lemma ns_kept_more root s s' : sub s s' -> ns_kept root s -> ns_kept root s'.
Proof.
  intros Hs [Hk Ho]. split; [by eapply map_kept_more|]. intros m es Hm Hc Hr e He.
  destruct (Ho m es Hm Hc Hr e He) as (v & ref & H1 & H2 & H3). exists v, ref. split_and!; [done|done|by eapply held_more].
Qed.

Lemma namespace_walked root s s' : namespace_ rd op rg Stream.collect root s = (Ok tt, s') -> adds s s' /\ ns_kept root s'.
Proof.
  unfold namespace_, Object.Walk. intros Hw.
  apply (map_walked _ _ _ (fun _ v s => exists ref, DecodeRef v = Ok ref /\ object_held ref s)) in Hw as (Ha & Hk & Ho).
  - split; [done|]. split; [done|]. intros m es Hm Hc Hr e He. destruct (Ho m es Hm Hc Hr e He) as (v & H1 & ref & H2 & H3). eauto.
  - intros k v s1 s2. destruct (ValidPath k); [|done]. destruct (DecodeRef v) as [ref|]; [|done]. intros Hx%WalkRef_adds. naive_solver.
  - intros k v s1 s2 [Hs _] (ref & Hd & Hh). exists ref. split; [done|by eapply held_more].
Qed.

(** A commit waits to be read, or was. *)
Definition covered (c : hash) (s : wnames) : Prop := c ∈ wcommits s \/ wkinds s !! c = Some kindCommit.

(** The sides of a conflict that are there are held. *)
Definition sides_held (c : Conflict) (s : wnames) : Prop :=
  forall side, side ∈ [CBase c; COurs c; CTheirs c] -> side <> zeroRef -> object_held side s.

Definition conflicts_kept (root : hash) (s : wnames) : Prop :=
  map_kept (conflictsMap (OConfig op)) root s /\
  forall m es, map_ok rd m es -> cfg m = conflictsMap (OConfig op) -> Prolly.root m = root ->
    forall e, e ∈ es -> exists v c, materialize rd m (val e) = Ok v /\ decodeConflict (key e) v = Ok c /\ sides_held c s.

Lemma sides_more c s s' : sub s s' -> sides_held c s -> sides_held c s'.
Proof. intros Hs Hc side Hi Hn. eapply held_more; [done|by apply Hc]. Qed.

Lemma conflicts_more root s s' : sub s s' -> conflicts_kept root s -> conflicts_kept root s'.
Proof.
  intros Hs [Hk Ho]. split; [by eapply map_kept_more|]. intros m es Hm Hc Hr e He.
  destruct (Ho m es Hm Hc Hr e He) as (v & ref & H1 & H2 & H3). exists v, ref. split_and!; [done|done|by eapply sides_more].
Qed.

Lemma walkSides_adds l : forall s s', walkSides rd rg Stream.collect l s = (Ok tt, s') ->
  adds s s' /\ forall side, side ∈ l -> side <> zeroRef -> object_held side s'.
Proof.
  induction l as [|x l IH]; intros s s'; cbn [walkSides].
  - intros [= <-]. split; [apply seeing_adds|]. by intros ? ?%elem_of_nil.
  - intros ([] & s1 & Hx & Hl)%M_bind_inv. apply IH in Hl as [Ha Hh].
    assert (adds s s1 /\ (x <> zeroRef -> object_held x s1)) as [Ha1 Hh1].
    { case_bool_decide; [|by apply WalkRef_adds in Hx as [? ?]]. injection Hx as <-. split; [apply seeing_adds|done]. }
    split; [by eapply adds_trans|]. intros side [->|Hi]%elem_of_cons Hn; [|by apply Hh]. eapply held_more; [exact (proj1 Ha)|by apply Hh1].
Qed.

Lemma conflicts_walked root s s' :
  ProllyWalk.Walk rd (conflictsMap (OConfig op)) root seeing (Some (fun key val =>
    c ← liftR (decodeConflict key val); walkSides rd rg Stream.collect [CBase c; COurs c; CTheirs c])) s = (Ok tt, s') ->
  adds s s' /\ conflicts_kept root s'.
Proof.
  intros Hw. apply (map_walked _ _ _ (fun k v s => exists c, decodeConflict k v = Ok c /\ sides_held c s)) in Hw as (Ha & Hk & Ho).
  - split; [done|]. split; [done|]. intros m es Hm Hc Hr e He. destruct (Ho m es Hm Hc Hr e He) as (v & H1 & ref & H2 & H3). eauto.
  - intros k v s1 s2 (c & s3 & Hc & Hx)%M_bind_inv. unfold liftR in Hc. destruct (decodeConflict k v) as [c'|]; [|done].
    injection Hc as -> <-. apply walkSides_adds in Hx as [? Hh]. split; [done|]. exists c. split; [done|]. exact Hh.
  - intros k v s1 s2 [Hs _] (ref & Hd & Hh). exists ref. split; [done|by eapply sides_more].
Qed.

(** What was read of the graph, with all it names named, kept or waiting. *)
Definition work_ok (ws : WorkingSet) (s : wnames) : Prop :=
  ns_kept (Working ws) s /\ ns_kept (Staged ws) s /\
  forall ms, WMerge ws = Some ms -> ns_kept (PreWorking ms) s /\ ns_kept (PreStaged ms) s /\
    conflicts_kept (MConflictsRoot ms) s /\ covered (MBase ms) s /\ covered (MTheirs ms) s.

Definition commit_ok (c : Commit) (s : wnames) : Prop := ns_kept (CNamespace c) s /\ forall p, p ∈ Parents c -> covered p s.

Definition entry_ok (h : hash) (k : Z) (s : wnames) : Prop :=
  h ∈ wst s /\ exists b, rd h = Ok b /\
  ((k = kindTag /\ exists t, decodeTag b = Ok t /\ covered (Target t) s) \/
   (k = kindWorkingSet /\ exists ws, decodeWorkingSet b = Ok ws /\ work_ok ws s) \/
   (k = kindCommit /\ exists c, DecodeCommit b = Ok c /\ commit_ok c s)).

Definition graph_ok (s : wnames) : Prop := forall h k, wkinds s !! h = Some k -> entry_ok h k s.

Definition grows (s s' : wnames) : Prop :=
  sub s s' /\ wkinds s ⊆ wkinds s' /\ (forall c, covered c s -> covered c s').

Lemma grows_trans s1 s2 s3 : grows s1 s2 -> grows s2 s3 -> grows s1 s3.
Proof. unfold grows, sub. intros (H1 & H2 & H3) (H4 & H5 & H6). split_and!; [auto|by etrans|auto]. Qed.

Lemma adds_grows s s' : adds s s' -> grows s s'.
Proof. intros (H1 & H2 & H3). split_and!; [done|by rewrite H3|]. intros c. unfold covered. by rewrite H2, H3. Qed.

Lemma entry_grows h k s s' : grows s s' -> entry_ok h k s -> entry_ok h k s'.
Proof.
  intros (H1 & _ & H3) (Hh & b & Hb & Hk). split; [auto|]. exists b. split; [done|].
  destruct Hk as [(-> & t & Ht & Hc)|[(-> & ws & Hw & Hn1 & Hn2 & Hm)|(-> & c & Hd & Hn & Hp)]].
  - left. eauto.
  - right. left. split; [done|]. exists ws. split; [done|]. split_and!; [by eapply ns_kept_more..|].
    intros ms E. destruct (Hm ms E) as (A & B & C & D & F). split_and!; [by eapply ns_kept_more..|by eapply conflicts_more|auto|auto].
  - right. right. split; [done|]. exists c. split; [done|]. split; [by eapply ns_kept_more|auto].
Qed.

(** One more chunk of the graph read. *)
Lemma graph_step s s' h k : graph_ok s -> grows s s' -> wkinds s' = <[h := k]> (wkinds s) -> entry_ok h k s' -> graph_ok s'.
Proof.
  intros Hg Hs Hk He x kx. rewrite Hk, lookup_insert_Some. intros [[<- <-]|[_ Hx]]; [done|]. eapply entry_grows; [done|by apply Hg].
Qed.

(** ** The walker's steps *)

(** [s'] is [s] with [h] read as [k], and names and commits added. *)
Definition opens (h : hash) (k : Z) (cs : list hash) (s s' : wnames) : Prop :=
  sub s s' /\ h ∈ wst s' /\ wkinds s' = <[h := k]> (wkinds s) /\ wcommits s' = wcommits s ++ cs.

Lemma enter_inv h k b s s' : enter rd Stream.collect h k s = (Ok b, s') ->
  (b = None /\ s' = s /\ wkinds s !! h = Some k) \/
  (exists bs, b = Some bs /\ rd h = Ok bs /\ wkinds s !! h = None /\ opens h k [] s s').
Proof.
  unfold enter. destruct (wkinds s !! h) as [k'|] eqn:E.
  - destruct (Z.eqb_spec k' k) as [->|]; [|done]. intros [= <- <-]. by left.
  - unfold mbind, M_bind, setKind, wvisit_, Stream.collect, liftR. cbn. destruct (rd h) as [bs|] eqn:Er; [|done]. intros [= <- <-].
    right. exists bs. split_and!; [done..|]. unfold opens, sub. cbn. rewrite app_nil_r. split_and!; [set_solver|set_solver|done|done].
Qed.

Lemma opens_adds h k cs s s1 s2 : opens h k cs s s1 -> adds s1 s2 -> opens h k cs s s2.
Proof. unfold opens, sub. intros (H1 & H2 & H3 & H4) (H5 & H6 & H7). rewrite H6, H7. split_and!; auto. Qed.

Lemma opens_push h k cs hs s s1 s2 : opens h k cs s s1 -> pushCommits hs s1 = (Ok tt, s2) -> opens h k (cs ++ hs) s s2.
Proof. unfold opens, sub, pushCommits. intros (H1 & H2 & H3 & H4) [= <-]. cbn. rewrite H4, app_assoc. by split_and!. Qed.

Lemma opens_grows h k cs s s' : wkinds s !! h = None -> opens h k cs s s' -> grows s s'.
Proof.
  intros Hn (H1 & _ & H3 & H4). split_and!; [done|rewrite H3; by apply insert_subseteq|]. intros c. unfold covered. rewrite H3, H4.
  intros [?|Hc]; [left; set_solver|right]. rewrite lookup_insert_ne; [done|]. congruence.
Qed.

Lemma opens_covered h k cs s s' c : opens h k cs s s' -> c ∈ cs -> covered c s'.
Proof. intros (_ & _ & _ & H4) Hc. left. rewrite H4. set_solver. Qed.

(** A step of the walk: more is known, and the graph read so far stays in order. *)
Definition moves (s s' : wnames) : Prop := grows s s' /\ (graph_ok s -> graph_ok s').

Lemma moves_refl s : moves s s.
Proof. split; [|done]. split_and!; [by intros ?|done|done]. Qed.

Lemma adds_moves s s' : adds s s' -> moves s s'.
Proof.
  intros Ha. split; [by apply adds_grows|]. intros Hg h k. pose proof Ha as (_ & _ & ->). intros Hh.
  eapply entry_grows; [by apply adds_grows|by apply Hg].
Qed.

Lemma opened_moves h k cs b s s' : wkinds s !! h = None -> opens h k cs s s' -> rd h = Ok b ->
  (k = kindTag /\ (exists t, decodeTag b = Ok t /\ covered (Target t) s') \/
   k = kindWorkingSet /\ (exists ws, decodeWorkingSet b = Ok ws /\ work_ok ws s') \/
   k = kindCommit /\ (exists c, DecodeCommit b = Ok c /\ commit_ok c s')) -> moves s s' /\ wkinds s' !! h = Some k.
Proof.
  intros Hn Ho Hb Hk. pose proof (opens_grows _ _ _ _ _ Hn Ho) as Hgr. pose proof Ho as (_ & Hin & Hkinds & _). split; [split; [done|]|].
  - intros Hg. eapply graph_step; [done|done|exact Hkinds|]. split; [done|]. eauto.
  - by rewrite Hkinds, lookup_insert_eq.
Qed.

Lemma seeing_moves : Stream.noting seeing wst moves.
Proof.
  split; [apply moves_refl| |by intros s s' x [(Hs & _) _]; apply Hs|].
  - intros s1 s2 s3 [H1 H2] [H3 H4]. split; [by eapply grows_trans|auto].
  - intros h leaf s. destruct (Stream.note_visit _ _ _ seeing_adds h leaf s) as (s' & H1 & H2%adds_moves & H3). eauto.
Qed.

Lemma push_moves hs s s' : pushCommits hs s = (Ok tt, s') -> moves s s' /\ forall c, c ∈ hs -> covered c s'.
Proof.
  intros [= <-]. assert (grows s (mkWState (wst s) (wcommits s ++ hs) (wkinds s))) as Hgr.
  { split_and!; [by intros ?|done|]. intros c [?|?]; [left; set_solver|by right]. }
  split; [split; [done|]|].
  - intros Hg h k Hh. eapply entry_grows; [done|by apply Hg].
  - intros c Hc. left. set_solver.
Qed.

Lemma tag_walked h s s' : tag rd Stream.collect h s = (Ok tt, s') -> moves s s' /\ wkinds s' !! h = Some kindTag.
Proof.
  unfold tag. intros (b & s1 & He & Hx)%M_bind_inv. apply enter_inv in He as [(-> & -> & Hk)|(bs & -> & Hb & Hn & Ho)].
  - injection Hx as <-. split; [apply moves_refl|done].
  - apply M_bind_inv in Hx as (t & s2 & Hd & Hp). unfold liftR in Hd. destruct (decodeTag bs) as [t'|] eqn:Et; [|done]. injection Hd as -> <-.
    pose proof (opens_push _ _ _ _ _ _ _ Ho Hp) as Ho2. eapply opened_moves; [done|exact Ho2|done|]. left. split; [done|].
    exists t. split; [done|]. eapply opens_covered; [exact Ho2|]. set_solver.
Qed.

Lemma work_opened h b ws cs s s1 : wkinds s !! h = None -> rd h = Ok b -> decodeWorkingSet b = Ok ws ->
  opens h kindWorkingSet cs s s1 -> work_ok ws s1 -> moves s s1 /\ wkinds s1 !! h = Some kindWorkingSet.
Proof. intros Hn Hb Hd Ho Hw. eapply opened_moves; [done|exact Ho|done|]. right. left. eauto. Qed.

Lemma workingSet_walked h s s' : workingSet rd op rg Stream.collect h s = (Ok tt, s') -> moves s s' /\ wkinds s' !! h = Some kindWorkingSet.
Proof.
  unfold workingSet. intros (b & s1 & He & Hx)%M_bind_inv. apply enter_inv in He as [(-> & -> & Hk)|(bs & -> & Hb & Hn & Ho)].
  { injection Hx as <-. split; [apply moves_refl|done]. }
  apply M_bind_inv in Hx as (ws & s2 & Hd & Hx). unfold liftR in Hd. destruct (decodeWorkingSet bs) as [ws'|] eqn:Ew; [|done]. injection Hd as -> <-.
  apply M_bind_inv in Hx as ([] & s2 & [Ha1 Hw1]%namespace_walked & Hx). apply M_bind_inv in Hx as ([] & s3 & [Ha2 Hw2]%namespace_walked & Hx).
  pose proof (opens_adds _ _ _ _ _ _ (opens_adds _ _ _ _ _ _ Ho Ha1) Ha2) as Ho3.
  destruct (WMerge ws) as [ms|] eqn:Em.
  2:{ injection Hx as <-. eapply work_opened; [done..|]. split; [by eapply ns_kept_more; [exact (proj1 Ha2)|]|]. split; [done|]. intros ms. by rewrite Em. }
  apply M_bind_inv in Hx as ([] & s4 & [Ha3 Hw3]%namespace_walked & Hx). apply M_bind_inv in Hx as ([] & s5 & [Ha4 Hw4]%namespace_walked & Hx).
  apply M_bind_inv in Hx as ([] & s6 & Hp & [Ha6 Hw6]%conflicts_walked).
  pose proof (opens_push _ _ _ _ _ _ _ (opens_adds _ _ _ _ _ _ (opens_adds _ _ _ _ _ _ Ho3 Ha3) Ha4) Hp) as Ho6.
  pose proof (opens_adds _ _ _ _ _ _ Ho6 Ha6) as Ho7.
  assert (sub s5 s') as H5 by (injection Hp as <-; exact (proj1 Ha6)).
  assert (sub s4 s') as H4 by (intros x ?; by apply H5, (proj1 Ha4)).
  assert (sub s3 s') as H3 by (intros x ?; by apply H4, (proj1 Ha3)).
  assert (sub s2 s') as H2 by (intros x ?; by apply H3, (proj1 Ha2)).
  eapply work_opened; [done..|]. split; [exact (ns_kept_more _ _ _ H2 Hw1)|]. split; [exact (ns_kept_more _ _ _ H3 Hw2)|].
  intros ms' E. assert (ms' = ms) as -> by congruence. split; [exact (ns_kept_more _ _ _ H4 Hw3)|]. split; [exact (ns_kept_more _ _ _ H5 Hw4)|].
  split; [done|]. split; eapply opens_covered; [exact Ho7|set_solver|exact Ho7|set_solver].
Qed.

(** What the walk knows of a ref. *)
Definition ref_ok (k : bytes) (v : bytes) (s : wnames) : Prop :=
  zlen v = 32 /\
  ((HasPrefix k (str "heads/") = true /\ covered (to_hash v) s) \/
   (HasPrefix k (str "tags/") = true /\ wkinds s !! to_hash v = Some kindTag) \/
   (HasPrefix k (str "work/") = true /\ wkinds s !! to_hash v = Some kindWorkingSet)).

Lemma ref_ok_moves k v s s' : moves s s' -> ref_ok k v s -> ref_ok k v s'.
Proof.
  intros [(_ & H2 & H3) _] [Hl Hk]. split; [done|]. destruct Hk as [[? ?]|[[? ?]|[? ?]]]; [left|right; left|right; right]; (split; [done|]); [auto|..];
    by eapply lookup_weaken.
Qed.

Lemma refValue_walked k v s s' : refValue rd op rg Stream.collect k v s = (Ok tt, s') -> moves s s' /\ ref_ok k v s'.
Proof.
  unfold refValue. destruct (Z.eqb_spec (zlen v) 32) as [El|]; [|done]. cbn [negb]. unfold ref_ok.
  destruct (HasPrefix k (str "heads/")); [|destruct (HasPrefix k (str "tags/")); [|destruct (HasPrefix k (str "work/")); [|done]]].
  - intros [Hm Hc]%push_moves. split; [done|]. split; [done|]. left. split; [done|]. apply Hc. set_solver.
  - intros [Hm Hc]%tag_walked. eauto 6.
  - intros [Hm Hc]%workingSet_walked. eauto 6.
Qed.

(** ** The history *)

(** A commit popped that was read before. *)
Lemma pop_read s h rest : wkinds s !! h = Some kindCommit -> wcommits s = rest ++ [h] -> moves s (mkWState (wst s) rest (wkinds s)).
Proof.
  intros Hk Hc. assert (grows s (mkWState (wst s) rest (wkinds s))) as Hgr.
  { split_and!; [by intros ?|done|]. intros c [Hi|?]; [|by right]. rewrite Hc in Hi. apply elem_of_app in Hi as [?|Hi]; [by left|]. apply list_elem_of_singleton in Hi as ->. by right. }
  split; [done|]. intros Hg x k Hx. eapply entry_grows; [done|by apply Hg].
Qed.

(** A commit popped and read. *)
Lemma pop_opens s h rest cs s' : wkinds s !! h = None -> wcommits s = rest ++ [h] -> 
  opens h kindCommit cs (mkWState (wst s) rest (wkinds s)) s' -> grows s s'.
Proof.
  intros Hn Hc (H1 & _ & H3 & H4). split_and!; [done|rewrite H3; by apply insert_subseteq|]. intros c. unfold covered. rewrite H3, H4, Hc. cbn.
  intros [[?|Hi]%elem_of_app|Hk]; [left; set_solver|apply list_elem_of_singleton in Hi as ->; right; apply lookup_insert_eq|right].
  rewrite lookup_insert_ne; [done|]. congruence.
Qed.

Lemma historyLoop_walked fuel : forall s s', historyLoop rd op rg Stream.collect fuel s = (Ok tt, s') -> moves s s' /\ wcommits s' = [].
Proof.
  induction fuel as [|fuel IH]; intros s s'; cbn [historyLoop]; destruct (rev (wcommits s)) as [|h rest] eqn:Er; try done.
  1,2: intros [= <-]; split; [apply moves_refl|]; rewrite <-(rev_involutive (wcommits s)), Er; done.
  assert (wcommits s = rev rest ++ [h]) as Hc by (rewrite <-(rev_involutive (wcommits s)), Er; done).
  intros (b & s1 & He & Hx)%M_bind_inv. apply enter_inv in He as [(-> & -> & Hk)|(bs & -> & Hb & Hn & Ho)].
  - apply IH in Hx as [Hm Hnil]. split; [|done]. eapply (Stream.note_trans _ _ _ seeing_moves); [by eapply pop_read|exact Hm].
  - apply M_bind_inv in Hx as (c & s2 & Hd & Hx). unfold liftR in Hd. destruct (DecodeCommit bs) as [c'|] eqn:Ec; [|done]. injection Hd as -> <-.
    apply M_bind_inv in Hx as ([] & s2 & [Ha Hns]%namespace_walked & Hx). apply M_bind_inv in Hx as ([] & s3 & Hp & Hx).
    pose proof (opens_push _ _ _ _ _ _ _ (opens_adds _ _ _ _ _ _ Ho Ha) Hp) as Ho3. cbn [app] in Ho3.
    pose proof (pop_opens s _ _ _ _ Hn Hc Ho3) as Hgr. apply IH in Hx as [Hm Hnil]. split; [|done].
    eapply (Stream.note_trans _ _ _ seeing_moves); [|exact Hm]. split; [done|]. intros Hg. pose proof Ho3 as (_ & Hin & Hkinds & _).
    eapply graph_step; [done|done|exact Hkinds|]. split; [done|]. exists bs. split; [done|]. right. right. split; [done|]. exists c. split; [done|]. split.
    + eapply ns_kept_more; [|done]. injection Hp as <-. by intros ?.
    + intros p Hpp. by eapply opens_covered.
Qed.

(** A commit pops with fewer chunks of the store left to read, or fewer commits waiting. *)
Context (v : view) (Hv : rd = vget v).

Definition unread (s : wnames) : nat := size (dom v ∖ dom (wkinds s)).

Lemma unread_opens h k b cs s s' : rd h = Ok b -> wkinds s !! h = None -> opens h k cs s s' -> (unread s' < unread s)%nat.
Proof.
  intros Hb Hn (_ & _ & Hk & _). unfold unread. apply subset_size. rewrite Hk, dom_insert_L.
  assert (h ∈ dom v) by (apply elem_of_dom; rewrite Hv in Hb; unfold vget in Hb; by destruct (v !! h)).
  apply not_elem_of_dom in Hn. set_solver.
Qed.

Lemma historyLoop_ends s : exists N, forall fuel, (N <= fuel)%nat -> historyLoop rd op rg Stream.collect fuel s = historyLoop rd op rg Stream.collect N s.
Proof.
  induction (well_founded_ltof _ unread s) as [s _ IHu]. unfold ltof in IHu.
  remember (length (wcommits s)) as n eqn:En. revert s En IHu.
  induction n as [n IHn] using lt_wf_ind. intros s -> IHu.
  destruct (rev (wcommits s)) as [|h rest] eqn:Er.
  { exists 0%nat. intros [|fuel] _; cbn [historyLoop]; by rewrite Er. }
  assert (wcommits s = rev rest ++ [h]) as Hc by (rewrite <-(rev_involutive (wcommits s)), Er; done).
  set (s0 := mkWState (wst s) (rev rest) (wkinds s)).
  destruct (enter rd Stream.collect h kindCommit s0) as [[b|e] s1] eqn:Ee.
  2:{ exists 1%nat. intros [|fuel] Hf; [lia|]. cbn [historyLoop]. rewrite Er. fold s0. unfold mbind, M_bind. by rewrite Ee. }
  pose proof Ee as [(-> & -> & Hk)|(bs & -> & Hb & Hn & Ho)]%enter_inv.
  - destruct (IHn (length (wcommits s0))) with (s := s0) as [N HN]; [rewrite Hc; cbn; rewrite length_app; cbn; lia|done|exact IHu|].
    exists (S N). intros [|fuel] Hf; [lia|]. cbn [historyLoop]. rewrite Er. fold s0. unfold mbind, M_bind. rewrite Ee. apply HN. lia.
  - destruct (DecodeCommit bs) as [c|e] eqn:Ec.
    2:{ exists 1%nat. intros [|fuel] Hf; [lia|]. cbn [historyLoop]. rewrite Er. fold s0. unfold mbind, M_bind, liftR. by rewrite Ee, Ec. }
    destruct (namespace_ rd op rg Stream.collect (CNamespace c) s1) as [[[]|e] s2] eqn:Ens.
    2:{ exists 1%nat. intros [|fuel] Hf; [lia|]. cbn [historyLoop]. rewrite Er. fold s0. unfold mbind, M_bind, liftR. by rewrite Ee, Ec, Ens. }
    set (s3 := mkWState (wst s2) (wcommits s2 ++ Parents c) (wkinds s2)).
    assert (opens h kindCommit (Parents c) s0 s3) as Ho3.
    { pose proof Ens as [Ha _]%namespace_walked. refine (opens_push _ _ [] _ _ _ _ (opens_adds _ _ _ _ _ _ Ho Ha) _). reflexivity. }
    destruct (IHu s3) as [N HN]; [exact (unread_opens _ _ _ _ s0 _ Hb Hn Ho3)|].
    exists (S N). intros [|fuel] Hf; [lia|]. cbn [historyLoop]. rewrite Er. fold s0. unfold mbind, M_bind, liftR. rewrite Ee, Ec, Ens.
    unfold pushCommits. fold s3. apply HN. lia.
Qed.
End Sound.

(** ** What a store that kept the chunks named still has *)

Section Kept.
Context (rd rd' : creader) (op : Vcs.Options) (held : ModelID -> Model.Root -> list hash -> Prop) (named : list hash).

Definition same_map (c : Config) (root : hash) : Prop := forall m es, map_ok rd m es -> cfg m = c -> Prolly.root m = root ->
  map_ok rd' m es /\ forall e ref, e ∈ es -> val e = VStream ref -> Stream.contents rd' ref = Stream.contents rd ref.

(** A namespace: its map, and the objects it names. *)
Definition same_namespace (root : hash) : Prop :=
  same_map (namespace (OConfig op)) root /\
  forall m es, map_ok rd m es -> cfg m = namespace (OConfig op) -> Prolly.root m = root ->
    forall e, e ∈ es -> exists v ref, materialize rd m (val e) = Ok v /\ DecodeRef v = Ok ref /\ held (RefModel ref) (RefRoot ref) named.

(** The commits of a history, back to the first, with their namespaces. *)
Definition same_history (h : hash) : Prop := forall x, reach rd h x ->
  exists c, commitAt rd x = Some c /\ commitAt rd' x = Some c /\ same_namespace (CNamespace c).

Definition same_tag (h : hash) : Prop :=
  exists t, interp rd (readTag h) = Ok t /\ interp rd' (readTag h) = Ok t /\ same_history (Target t).

(** The conflicts of a merge: their map, and the sides they record. *)
Definition same_conflicts (root : hash) : Prop :=
  same_map (conflictsMap (OConfig op)) root /\
  forall m es, map_ok rd m es -> cfg m = conflictsMap (OConfig op) -> Prolly.root m = root ->
    forall e, e ∈ es -> exists v c, materialize rd m (val e) = Ok v /\ decodeConflict (key e) v = Ok c /\
      forall side, side ∈ [CBase c; COurs c; CTheirs c] -> side <> zeroRef -> held (RefModel side) (RefRoot side) named.

Definition same_work (h : hash) : Prop :=
  exists ws, interp rd (readWorkingSet h) = Ok ws /\ interp rd' (readWorkingSet h) = Ok ws /\
    same_namespace (Working ws) /\ same_namespace (Staged ws) /\
    forall ms, WMerge ws = Some ms -> same_namespace (PreWorking ms) /\ same_namespace (PreStaged ms) /\
      same_conflicts (MConflictsRoot ms) /\ same_history (MBase ms) /\ same_history (MTheirs ms).

Definition same_ref (k : bytes) (h : hash) : Prop :=
  (HasPrefix k (str "heads/") = true /\ same_history h) \/ (HasPrefix k (str "tags/") = true /\ same_tag h) \/
  (HasPrefix k (str "work/") = true /\ same_work h).

Context (rg : Registry) (s : wnames) (Hs : wst s = named) (Ha : agrees rd rd' named).
Context (Hg : graph_ok rd op held s) (Hnil : wcommits s = []).

Lemma kept_namespace root : ns_kept rd op held root s -> same_namespace root.
Proof. intros [Hm Ho]. split; [exact (Hm rd' ltac:(by rewrite Hs))|]. rewrite <-Hs. exact Ho. Qed.

Lemma kept_conflicts root : conflicts_kept rd op held root s -> same_conflicts root.
Proof. intros [Hm Ho]. split; [exact (Hm rd' ltac:(by rewrite Hs))|]. rewrite <-Hs. exact Ho. Qed.

Lemma covered_read h : covered h s -> wkinds s !! h = Some kindCommit.
Proof. intros [Hi|?]; [|done]. rewrite Hnil in Hi. by apply elem_of_nil in Hi. Qed.

(** A chunk of the graph read, with its bytes in the other store. *)
Lemma kept_bytes h k : entry_ok rd op held h k s -> forall b, rd h = Ok b -> rd' h = Ok b.
Proof. intros [Hh _] b Hb. rewrite <-Hb. apply Ha. by rewrite <-Hs. Qed.

Lemma kinds_apart : kindTag <> kindWorkingSet /\ kindTag <> kindCommit /\ kindWorkingSet <> kindCommit.
Proof. by vm_compute. Qed.

Lemma kept_commit h : covered h s -> exists c, commitAt rd h = Some c /\ commitAt rd' h = Some c /\
  same_namespace (CNamespace c) /\ forall p, p ∈ Parents c -> covered p s.
Proof.
  intros Hk%covered_read%Hg. pose proof (kept_bytes _ _ Hk) as Hb'. destruct Hk as (_ & b & Hb & Hk). specialize (Hb' b Hb).
  destruct kinds_apart as (K1 & K2 & K3). destruct Hk as [[? _]|[[? _]|[_ (c & Hd & Hn & Hp)]]]; [congruence..|].
  exists (mkCommit h (Parents c) (CNamespace c) (Height c) (CTime c) (Author c) (CMessage c)).
  unfold commitAt, readCommit. rewrite !interp_bind by done. cbn [interp pGet]. rewrite Hb, Hb'. cbn [interp pLift mbind prog_bind]. 
  rewrite Hd. split_and!; [done|done|by apply kept_namespace|exact Hp].
Qed.

Lemma kept_history h : covered h s -> same_history h.
Proof.
  intros Hc x Hx. revert Hc. induction Hx as [h|h c p x Hat Hp Hr IH]; intros Hc; destruct (kept_commit h Hc) as (c' & H1 & H2 & H3 & H4).
  - eauto.
  - assert (c' = c) as -> by congruence. apply IH. by apply H4.
Qed.

Lemma kept_tag h : wkinds s !! h = Some kindTag -> same_tag h.
Proof.
  intros Hk%Hg. pose proof (kept_bytes _ _ Hk) as Hb'. destruct Hk as (_ & b & Hb & Hk). specialize (Hb' b Hb).
  destruct kinds_apart as (K1 & K2 & K3). destruct Hk as [[_ (t & Hd & Hc)]|[[? _]|[? _]]]; [|congruence..].
  exists (mkTag h (Target t) (TTime t) (Tagger t) (TMessage t)).
  unfold readTag. rewrite !interp_bind by done. cbn [interp pGet]. rewrite Hb, Hb'. cbn [interp pLift mbind prog_bind].
  rewrite Hd. split_and!; [done|done|by apply kept_history].
Qed.

Lemma kept_work h : wkinds s !! h = Some kindWorkingSet -> same_work h.
Proof.
  intros Hk%Hg. pose proof (kept_bytes _ _ Hk) as Hb'. destruct Hk as (_ & b & Hb & Hk). specialize (Hb' b Hb).
  destruct kinds_apart as (K1 & K2 & K3). destruct Hk as [[? _]|[[_ (ws & Hd & Hw1 & Hw2 & Hm)]|[? _]]]; [congruence| |congruence].
  exists (mkWorkingSet h (Working ws) (Staged ws) (WMerge ws)).
  unfold readWorkingSet. rewrite !interp_bind by done. cbn [interp pGet]. rewrite Hb, Hb'. cbn [interp pLift mbind prog_bind].
  rewrite Hd. split; [done|]. split; [done|]. split; [by apply kept_namespace|]. split; [by apply kept_namespace|].
  intros ms E. destruct (Hm ms E) as (A & B & C & D & F).
  split; [by apply kept_namespace|]. split; [by apply kept_namespace|]. split; [by apply kept_conflicts|]. split; by apply kept_history.
Qed.

Lemma kept_ref k h : ref_ok k (hbytes h) s -> same_ref k h.
Proof.
  intros [_ Hk]. rewrite to_hash_hbytes in Hk. destruct Hk as [[? Hk]|[[? Hk]|[? Hk]]]; [left|right; left|right; right]; (split; [done|]).
  - by apply kept_history.
  - by apply kept_tag.
  - by apply kept_work.
Qed.
End Kept.

(** More rounds change nothing of a walk that succeeded. *)
Lemma historyLoop_more {St} rd op rg (visit : visitor St) fuel : forall fuel' s s', (fuel <= fuel')%nat ->
  historyLoop rd op rg visit fuel s = (Ok tt, s') -> historyLoop rd op rg visit fuel' s = (Ok tt, s').
Proof.
  induction fuel as [|fuel IH]; intros fuel' s s' Hf; cbn [historyLoop]; destruct (rev (wcommits s)) as [|h rest] eqn:Er; try done.
  1,2: destruct fuel'; cbn [historyLoop]; by rewrite Er.
  destruct fuel' as [|fuel']; [lia|]. cbn [historyLoop]. rewrite Er. unfold mbind, M_bind.
  destruct (enter _ _ _ _ _) as [[[b|]|] s1]; [|apply IH; lia|done].
  destruct (liftR _ _) as [[c|] s2]; [|done]. destruct (namespace_ _ _ _ _ _ _) as [[[]|] s3]; [|done]. apply IH. lia.
Qed.

Lemma Walk_more {St} rd op rt (visit : visitor St) fuel fuel' st st' : (fuel <= fuel')%nat ->
  Walk fuel rd op rt visit st = (Ok tt, st') -> Walk fuel' rd op rt visit st = (Ok tt, st').
Proof.
  intros Hf. unfold Walk. destruct (ORegistry op) as [rg|]; [|done]. unfold walkRepo, mbind, M_bind.
  destruct (ProllyWalk.Walk _ _ _ _ _ _) as [[[]|] s1]; [|done].
  destruct (historyLoop rd op rg visit fuel s1) as [[[]|] s2] eqn:E; [|done]. by rewrite (historyLoop_more _ _ _ _ _ _ _ _ Hf E).
Qed.

