(* ===== verification/VcsExample.v ===== *)
(** * core/vcs: a repository

    A repository made by [Init] on an empty in-memory store, on which the
    theorems of core/vcs are applied. *)

From S2P Require Import Prelude GoStd Wire Hash ChunkStore Prog Conc Auth Model ProllyNode Prolly ProllyDraw ProllyFlush ProllyMerge ProllyEditor ProllyWalk Object Namespace Merge.
From S2P Require Import VcsCodec Vcs VcsHistory VcsMerge VcsAtomic VcsAccess VcsRefs VcsPlan VcsCommit VcsInit VcsSession VcsWalk.

#[local] Existing Instance toy_hasher.

(** [refs_room], decided for refs of one node. *)
Definition refs_roomb (v : view) (c : Config) (rt : hash) (eds : gmap bytes (option bytes)) : bool :=
  match interp (vget v) (Prolly.Open (refsMap c) rt) with
  | Err _ => true
  | Ok m =>
      let e := Prolly.mkEditor m eds in
      (height m =? 0)%nat &&
      match top m with
      | Some n => (zlen (entries n) + Z.of_nat (size eds) <=? 2 ^ 62) && collision_freeb v (flushChunks e (entries n))
      | None => false
      end &&
      match (exec v zero_hash (ProllyFlush.Flush e)).1.1 with Ok (m', _) => negb (IsZero (Prolly.root m')) | Err _ => true end
  end.

Lemma refs_roomb_true v c rt eds : refs_roomb v c rt eds = true -> refs_room v c rt eds.
Proof.
  unfold refs_roomb. intros Hb m Hm. rewrite Hm in Hb. apply andb_true_iff in Hb as [[H1%Nat.eqb_eq H2]%andb_true_iff H3]. split.
  - intros es Hes. destruct (top m) as [n|] eqn:Et; [|done]. rewrite (canonical_leaf _ _ _ _ Hes Et H1).
    apply andb_true_iff in H2 as [H2%Z.leb_le H4]. split; [done|by apply collision_freeb_true].
  - intros m' e' v' Hs. rewrite (Hs zero_hash) in H3. cbn [fst snd] in H3. unfold IsZero in H3. by apply negb_true_iff, bool_decide_eq_false in H3.
Qed.

Definition exOpts : Vcs.Options := Vcs.mkOptions DefaultConfig (Some exReg) (Some AllowAll) (fun _ => 7) 0.
Definition exAnn : Principal := mkPrincipal (str "ann").
Definition exWait : Z -> res unit := fun _ => Ok tt.
Definition exDraw : Z -> Z := fun _ => 0.
Definition exRepo : Repo := mkRepo exOpts exReg exWait exDraw.

(** The store after [Init], and its refs. *)
Definition exInit : Memstore.Store := (run (Init exOpts exWait exDraw exAnn) Memstore.New).2.
Definition exRefs : Refs := patch (pRefs (initPlan exOpts exAnn)) ∅.
Definition exHead : hash := Sum (initCommit exOpts exAnn).
Definition exWork : hash := Sum initWorkingSet.

Lemma exAllow a x : Check_ (OAuthorizer (o exRepo)) exAnn a x = Ok tt.
Proof. unfold Check_. assert (Validate exAnn = Ok tt) as -> by (vm_compute; reflexivity). reflexivity. Qed.

Lemma exMain : validName MainBranch = Ok tt.
Proof. vm_compute. reflexivity. Qed.

Lemma exModels : models_rootless exReg.
Proof. intros id m Hm b x y. unfold exReg in Hm. cbn [models] in Hm. apply lookup_singleton_Some in Hm as [_ <-]. exact I. Qed.

Lemma exInit_repo : cs_ok exInit /\ repo_at (cs_view exInit) (cs_rootof exInit) DefaultConfig exRefs.
Proof.
  destruct (Init_exec exOpts exReg exWait exDraw exAnn (cs_view Memstore.New)) as (v' & rt' & E & _ & Hr).
  - reflexivity.
  - apply exAllow.
  - vm_compute. discriminate.
  - split; [eexists|]; vm_compute; reflexivity.
  - vm_compute. reflexivity.
  - vm_compute. discriminate.
  - vm_compute. reflexivity.
  - apply refs_roomb_true. vm_compute. reflexivity.
  - destruct (run_view (Init exOpts exWait exDraw exAnn) Memstore.New) as (s' & Hrun & Hs & Hv & Hrt); [exact Memstore.New_usable|].
    change (cs_rootof Memstore.New) with zero_hash in *. rewrite E in Hrun, Hv, Hrt. unfold exInit. rewrite Hrun. cbn [snd fst] in *.
    split; [exact Hs|]. rewrite Hv, Hrt. exact Hr.
Qed.

(** ** Refs *)

Definition planValue (x : res plan) : plan := match x with Ok pl => pl | Err _ => mkPlan [] [] end.

Lemma planValue_ok x : is_ok x = true -> x = Ok (planValue x).
Proof. by destruct x. Qed.

Definition exTag : call := CCreateTag (str "v1") exHead (str "first").
Definition exTagPlan : plan := planValue (planOf exRepo exAnn (cs_view exInit) exTag exRefs).

Lemma exTag_plan : planOf exRepo exAnn (cs_view exInit) exTag exRefs = Ok exTagPlan.
Proof. apply planValue_ok. vm_compute. reflexivity. Qed.

Lemma exTag_room : refs_room (with_log (cs_view exInit) (pChunks exTagPlan)) DefaultConfig (cs_rootof exInit) (editsOf (pRefs exTagPlan)).
Proof. apply refs_roomb_true. vm_compute. reflexivity. Qed.

Lemma calls_refine_a_map_of_refs_witness :
  exists s', run (handle exRepo exAnn exTag) exInit = (Ok tt, s') /\ cs_ok s' /\ with_log (cs_view exInit) (pChunks exTagPlan) ⊆ cs_view s' /\
    repo_at (cs_view s') (cs_rootof s') DefaultConfig (patch (pRefs exTagPlan) exRefs).
Proof.
  destruct exInit_repo as [Hs Hr].
  pose proof (calls_refine_a_map_of_refs exInit exRepo exAnn exTag exRefs Hs Hr eq_refl) as Hx.
  rewrite exTag_plan in Hx. apply Hx.
  - apply Forall_forall. intros x _. apply exAllow.
  - vm_compute. reflexivity.
  - exact exTag_room.
Defined.

(** ** Commits *)

Definition exSecond : call := CCommitWorkingSet MainBranch (str "second") [].
Definition exSecondPlan : plan := planValue (planOf exRepo exAnn (cs_view exInit) exSecond exRefs).

Lemma exSecond_plan : planOf exRepo exAnn (cs_view exInit) exSecond exRefs = Ok exSecondPlan.
Proof. apply planValue_ok. vm_compute. reflexivity. Qed.

Lemma exSecond_room : refs_room (with_log (cs_view exInit) (pChunks exSecondPlan)) DefaultConfig (cs_rootof exInit) (editsOf (pRefs exSecondPlan)).
Proof. apply refs_roomb_true. vm_compute. reflexivity. Qed.

Definition exNone : Commit := mkCommit zero_hash [] zero_hash 0 0 [] [].
Definition exFirst : Commit := default exNone (commitAt (cs_get exInit) exHead).
Definition exSet : WorkingSet :=
  match interp (cs_get exInit) (readWorkingSet exWork) with Ok ws => ws | Err _ => mkWorkingSet zero_hash zero_hash zero_hash None end.

Lemma exFirst_at : commitAt (cs_get exInit) exHead = Some exFirst.
Proof.
  assert (bool_decide (is_Some (commitAt (cs_get exInit) exHead)) = true) as Hb by (vm_compute; reflexivity).
  apply bool_decide_eq_true in Hb as [c Hc]. unfold exFirst. by rewrite Hc.
Qed.

Lemma exFirst_root : Parents exFirst = [] /\ Height exFirst = 0.
Proof. split; vm_compute; reflexivity. Qed.

Lemma exSet_at : interp (cs_get exInit) (readWorkingSet exWork) = Ok exSet.
Proof.
  assert (is_ok (interp (cs_get exInit) (readWorkingSet exWork)) = true) as Hb by (vm_compute; reflexivity).
  unfold exSet. by destruct (interp (cs_get exInit) (readWorkingSet exWork)).
Qed.

Lemma exRefs_main : branchAt exRefs MainBranch = Ok (exHead, exWork).
Proof. reflexivity. Qed.

Lemma exSet_free : WMerge exSet = None.
Proof. vm_compute. reflexivity. Qed.

Lemma exFirst_extendable : extendable (cs_get exInit) exHead (WMerge exSet).
Proof.
  rewrite exSet_free. split; [apply NoDup_singleton|]. intros x ->%list_elem_of_singleton. exists exFirst. split; [exact exFirst_at|].
  rewrite (proj2 exFirst_root). reflexivity.
Qed.

Lemma exFirst_history : history (cs_get exInit) exHead.
Proof. eapply history_cons; [exact exFirst_at|]. rewrite (proj1 exFirst_root). by intros p Hp%elem_of_nil. Qed.

Lemma commit_extends_its_branch_witness :
  exists s' ρ' h new, run (handle exRepo exAnn exSecond) exInit = (Ok tt, s') /\ repo_at (cs_view s') (cs_rootof s') DefaultConfig ρ' /\
    ρ' !! headKey MainBranch = Some h /\ commitAt (cs_get s') h = Some new /\ Parents new = [exHead] /\ history (cs_get s') h.
Proof.
  destruct exInit_repo as [Hs Hr].
  destruct (commit_extends_its_branch exInit exRepo exAnn exSecond MainBranch (str "second") Staged Working exRefs exSecondPlan exHead exWork exFirst exSet Hs Hr)
    as (s' & ρ' & h & new & w & H1 & _ & H2 & H3 & H4 & H5 & _ & _ & _ & _ & _ & _ & _ & H6).
  - left. by exists [].
  - apply Forall_forall. intros x _. apply exAllow.
  - exact exMain.
  - split; vm_compute; [discriminate|reflexivity].
  - exact exSecond_plan.
  - exact exRefs_main.
  - exact exFirst_at.
  - exact exSet_at.
  - exact exFirst_extendable.
  - apply collision_freeb_true. vm_compute. reflexivity.
  - exact exSecond_room.
  - rewrite exSet_free in H5. exists s', ρ', h, new. split_and!; [exact H1|exact H2|exact H3|exact H4|exact H5|].
    apply H6. intros x Hx. rewrite H5 in Hx. apply list_elem_of_singleton in Hx as ->. exact exFirst_history.
Defined.

(** ** History *)

Lemma log_highest_first_witness :
  exists l s', run (Log exRepo exAnn exHead 10) exInit = (Ok l, s') /\ exHead ∈ map CHash l.
Proof.
  destruct (log_highest_first exInit exRepo exAnn exHead 10) as (l & s' & Hrun & _ & _ & Hlen & _ & _ & _ & Hall).
  - exact (proj1 exInit_repo).
  - exact exFirst_history.
  - apply exAllow.
  - vm_compute. split; discriminate.
  - exists l, s'. split; [exact Hrun|]. destruct (decide (exHead ∈ map CHash l)) as [Hin|Hn]; [exact Hin|]. exfalso.
    destruct (Hall exHead exFirst (reach_here _ _) exFirst_at Hn) as [Hl Hless].
    assert (zlen l <= 1) as H1; [|lia].
    assert (interp (cs_get exInit) (Log exRepo exAnn exHead 10) = Ok [exFirst]) as Hi by (vm_compute; reflexivity).
    rewrite (get_view _ (proj1 exInit_repo)) in Hi.
    destruct (run_view (Log exRepo exAnn exHead 10) exInit (proj1 exInit_repo)) as (s2 & Hrun2 & _).
    rewrite (exec_reads _ _ _ (Log_reads _ _ _ _)), Hi in Hrun2. rewrite Hrun in Hrun2. cbn [fst snd] in Hrun2.
    injection Hrun2 as -> _. simpl. lia.
Defined.

(** The store with a second commit on [main]. *)
Definition exTwo : Memstore.Store := (run (handle exRepo exAnn exSecond) exInit).2.
Definition exSecondHash : hash := match pRefs exSecondPlan with (_, Some h) :: _ => h | _ => zero_hash end.
Definition exSecondCommit : Commit := default exNone (commitAt (cs_get exTwo) exSecondHash).

Lemma exTwo_ok : cs_ok exTwo.
Proof.
  destruct (run_view (handle exRepo exAnn exSecond) exInit (proj1 exInit_repo)) as (s' & E & Hs & _). unfold exTwo. rewrite E. exact Hs.
Qed.

Lemma exSecond_at : commitAt (cs_get exTwo) exSecondHash = Some exSecondCommit.
Proof.
  assert (bool_decide (is_Some (commitAt (cs_get exTwo) exSecondHash)) = true) as Hb by (vm_compute; reflexivity).
  apply bool_decide_eq_true in Hb as [c Hc]. unfold exSecondCommit. by rewrite Hc.
Qed.

Lemma exSecond_parent : Parents exSecondCommit = [exHead] /\ Height exSecondCommit = 1.
Proof. split; vm_compute; reflexivity. Qed.

Lemma exTwo_first : commitAt (cs_get exTwo) exHead = Some exFirst.
Proof.
  destruct (run_view (handle exRepo exAnn exSecond) exInit (proj1 exInit_repo)) as (s' & E & Hs & Hv & _).
  assert (exTwo = s') as -> by (unfold exTwo; by rewrite E). rewrite (get_view _ Hs), Hv.
  eapply commitAt_more; [apply more_view, exec_grows|]. rewrite <-(get_view _ (proj1 exInit_repo)). exact exFirst_at.
Qed.

Lemma exTwo_history : history (cs_get exTwo) exHead /\ history (cs_get exTwo) exSecondHash.
Proof.
  assert (history (cs_get exTwo) exHead) as H1.
  { eapply history_cons; [exact exTwo_first|]. rewrite (proj1 exFirst_root). by intros p Hp%elem_of_nil. }
  split; [exact H1|]. eapply history_cons; [exact exSecond_at|]. rewrite (proj1 exSecond_parent), (proj2 exSecond_parent).
  intros p ->%list_elem_of_singleton. split; [exact H1|]. exists exFirst. split; [exact exTwo_first|]. rewrite (proj2 exFirst_root). reflexivity.
Qed.

Lemma reach_cases rd h x : reach rd h x -> x = h \/ exists c p, commitAt rd h = Some c /\ p ∈ Parents c /\ reach rd p x.
Proof. destruct 1 as [|h c p x Hc Hp Hr]; [by left|]. right. by exists c, p. Qed.

Lemma exTwo_reach x : reach (cs_get exTwo) exHead x \/ reach (cs_get exTwo) exSecondHash x -> x ∈ [exHead; exSecondHash].
Proof.
  assert (forall y, reach (cs_get exTwo) exHead y -> y = exHead) as H1.
  { intros y [Hy|(c & p & Hc & Hp & _)]%reach_cases; [exact Hy|]. rewrite exTwo_first in Hc. apply (inj Some) in Hc as <-.
    rewrite (proj1 exFirst_root) in Hp. by apply elem_of_nil in Hp. }
  rewrite elem_of_cons, list_elem_of_singleton. intros [Hx|[Hx|(c & p & Hc & Hp & Hr)]%reach_cases]; [left; exact (H1 x Hx)|right; exact Hx|].
  rewrite exSecond_at in Hc. apply (inj Some) in Hc as <-. rewrite (proj1 exSecond_parent) in Hp. apply list_elem_of_singleton in Hp as ->.
  left. exact (H1 x Hr).
Qed.

Lemma merge_base_is_highest_witness :
  exists r s', run (mergeBase 3 exHead exSecondHash) exTwo = (r, s') /\ base_post (cs_get exTwo) exHead exSecondHash r.
Proof.
  destruct (merge_base_is_highest exTwo exHead exSecondHash [exHead; exSecondHash] 3) as (r & s' & Hrun & _ & _ & Hp).
  - exact exTwo_ok.
  - exact (proj1 exTwo_history).
  - exact (proj2 exTwo_history).
  - exact exTwo_reach.
  - simpl. lia.
  - exists r, s'. split; [exact Hrun|exact Hp].
Defined.

(** ** Beside other writers *)

Lemma calls_are_all_or_nothing_witness :
  exists tr v' rt', conc (cs_view exInit) (cs_rootof exInit) (handle exRepo exAnn exSecond) tr (Ok tt) v' rt' /\
    exists tr0 rt0 next, tr = tr0 ++ [Looked rt0; Swapped rt0 next] /\ swaps tr0 = [].
Proof.
  destruct (conc_exec (handle exRepo exAnn exSecond) (cs_view exInit) (cs_rootof exInit)) as [tr Htr].
  pose proof (calls_are_all_or_nothing exRepo exAnn exSecond _ _ _ _ _ _ exModels Htr) as Hx.
  assert ((exec (cs_view exInit) (cs_rootof exInit) (handle exRepo exAnn exSecond)).1.1 = Ok tt) as E by (vm_compute; reflexivity).
  rewrite E in Htr, Hx. exists tr. eexists _, _. split; [exact Htr|]. destruct Hx as [Hx|(fuel & b & t & Hc & _)]; [exact Hx|discriminate Hc].
Defined.

(** An edit of the refs: nothing changed. *)
Definition exEdit (n : nat) (m : Prolly.Map) (e : Prolly.Editor) : prog (Prolly.Editor * nat) := mret (e, n).

Lemma update_swaps_what_it_edited_witness :
  exists tr v' rt' rt0 m m' e', conc (cs_view exInit) (cs_rootof exInit) (update exRepo exEdit) tr (Ok 0%nat) v' rt' /\
    swaps tr = [(rt0, Prolly.root m')] /\ Prolly.root m = rt0 /\ ran (cs_view exInit) v' (ProllyFlush.Flush e') (Ok (m', Prolly.NewEditor m')).
Proof.
  destruct (conc_exec (update exRepo exEdit) (cs_view exInit) (cs_rootof exInit)) as [tr Htr].
  pose proof (update_swaps_what_it_edited exRepo exEdit _ _ _ _ _ _ (fun _ _ _ => I) Htr) as Hx.
  assert ((exec (cs_view exInit) (cs_rootof exInit) (update exRepo exEdit)).1.1 = Ok 0%nat) as E by (vm_compute; reflexivity).
  rewrite E in Htr, Hx. destruct Hx as (rt0 & m & e & m' & e' & n & H1 & H2 & _ & _ & H5).
  exists tr. eexists _, _. exists rt0, m, m', e. split; [exact Htr|]. split; [exact H1|]. split; [exact H2|].
  assert (e' = Prolly.NewEditor m') as <-; [|exact H5]. destruct H5 as (v & rt & v' & rt' & _ & Hc & _).
  refine (conc_answers (fun me => me.2 = Prolly.NewEditor me.1) _ _ _ _ _ _ _ _ Hc).
  unfold ProllyFlush.Flush. eapply answers_bind; [apply answers_any|intros us _]. eapply answers_bind; [apply answers_any|intros [next chg] _]. reflexivity.
Defined.

Lemma update_retries_only_lost_races_witness :
  exists tr v' rt', conc (cs_view exInit) (cs_rootof exInit) (update exRepo exEdit) tr (Ok 0%nat) v' rt' /\
    exists n tr0 own, tr = tr0 ++ own /\ lost n tr0 /\ (n < maxAttempts)%nat /\ ended (cs_view exInit) v' exRepo exEdit n own (Ok 0%nat).
Proof.
  destruct (conc_exec (update exRepo exEdit) (cs_view exInit) (cs_rootof exInit)) as [tr Htr].
  destruct (update_retries_only_lost_races exRepo exEdit _ _ _ _ _ _ (fun _ _ _ => I) Htr) as (n & tr0 & own & H1 & H2 & H3).
  assert ((exec (cs_view exInit) (cs_rootof exInit) (update exRepo exEdit)).1.1 = Ok 0%nat) as E by (vm_compute; reflexivity).
  rewrite E in Htr, H3. exists tr. eexists _, _. split; [exact Htr|]. exists n, tr0, own. split; [exact H1|]. split; [exact H2|].
  destruct H3 as [(_ & _ & H3)|H3]; [discriminate H3|exact H3].
Defined.

(** ** Access *)

Lemma exNs_at es σ : holds nsReader (exNs es) σ -> ns_at nsReader DefaultConfig (NRoot (exNs es)) σ.
Proof. intros Hh. exists (exNs es). split; [exact Hh|]. split; reflexivity. Qed.

(** Someone whom nobody lets write. *)
Definition exLocked : Repo :=
  mkRepo (Vcs.mkOptions DefaultConfig (Some exReg) None (fun _ => 7) 0) exReg exWait exDraw.

Lemma every_changed_path_is_asked_for_witness :
  exists x, (∅ : gmap bytes Ref) !! x <> ({[exPath := exRef]} : gmap bytes Ref) !! x /\
    Check_ None exAnn ActWrite (pathResource MainBranch x) = Err AuthDenied.
Proof.
  pose proof (every_changed_path_is_asked_for nsReader exLocked exAnn MainBranch (NRoot (exNs [])) (NRoot (exNs [exEntry])) [] ∅ {[exPath := exRef]}) as Hx.
  assert (interp nsReader (checkChanged exLocked exAnn MainBranch (NRoot (exNs [])) (NRoot (exNs [exEntry])) []) = Err AuthDenied) as E
    by (vm_compute; reflexivity).
  rewrite E in Hx. apply Hx.
  - apply exNs_at, exNs_holds. vm_compute. reflexivity.
  - apply exNs_at. exact exNs1_holds.
  - intros n Hn. apply elem_of_nil in Hn. destruct Hn.
Defined.

(** ** Sessions and waiting *)

Definition exDesk : desk := mkDesk [mkSession MainBranch false] (<[MainBranch := default 0 ((∅ : gmap bytes Z) !! MainBranch) + 1]> ∅).

Lemma exDesk_open : rtc (desk_step exRepo) (mkDesk [] ∅) exDesk.
Proof.
  assert (is_ok (exec (cs_view exInit) (cs_rootof exInit) (Checkout exRepo ∅ exAnn MainBranch)).1.1 = true) as E by (vm_compute; reflexivity).
  destruct (exec (cs_view exInit) (cs_rootof exInit) (Checkout exRepo ∅ exAnn MainBranch)) as [[[[s cs]|e] v'] rt'] eqn:Ex; [|discriminate E].
  destruct (Checkout_count _ _ _ _ _ _ _ _ _ _ Ex) as [-> ->].
  apply rtc_once. exact (desk_checkout exRepo (mkDesk [] ∅) exAnn MainBranch _ _ _ _ _ _ Ex).
Qed.

(** Refused with the session open; with none, the branch goes. *)
Lemma branch_in_use_stays_witness :
  DeleteBranch exRepo (dCounts exDesk) exAnn MainBranch = Ret (Err VcsBranchInUse) /\
  exists v' rt', exec (cs_view exInit) (cs_rootof exInit) (DeleteBranch exRepo ∅ exAnn MainBranch) = (Ok tt, v', rt') /\
    repo_at v' rt' DefaultConfig (delete (workKey MainBranch) (delete (headKey MainBranch) exRefs)).
Proof.
  split.
  - apply (branch_in_use_stays exRepo exDesk exAnn MainBranch exDesk_open (exAllow _ _) exMain).
    exists (mkSession MainBranch false). split; [left|]. split; reflexivity.
  - destruct (branch_in_use_stays exRepo (mkDesk [] ∅) exAnn MainBranch (rtc_refl _ _) (exAllow _ _) exMain) as (_ & _ & Hx).
    specialize (Hx ltac:(intros s Hs; by apply elem_of_nil in Hs) _ _ _ (proj2 exInit_repo)).
    assert (is_Some (exRefs !! headKey MainBranch) /\ is_Some (exRefs !! workKey MainBranch)) as [[h Eh] [w Ew]].
    { split; apply (bool_decide_eq_true_1 (is_Some _)); vm_compute; reflexivity. }
    rewrite Eh, Ew in Hx. apply Hx, refs_roomb_true. vm_compute. reflexivity.
Defined.

Lemma backoff_is_bounded_witness : 200000 / 2 <= backoff 0 (fun n => n - 1) <= 200000.
Proof. refine (proj1 (backoff_is_bounded 0 (fun n => n - 1) _)). intros n Hn. lia. Defined.

(** ** The highest height *)

(** A commit as high as a height can be. *)
Definition exHighest : Commit := mkCommit (Sum (str "highest")) [exHead] exHead (two64 - 1) 7 (str "ann") (str "top").

(** A commit of height 2^64-1 is one [DecodeCommit] accepts, and the commit made
    on top of it, whose height wraps to 0, is one it refuses: committing
    leaves the branch at a head that does not read. *)
Lemma commit_height_wraps :
  DecodeCommit (encodeCommit exHighest) = Ok (with_hash exHighest zero_hash) /\
  exists c, interp (cs_get exInit) (commitOnto exRepo 0 exAnn exHighest None exHead (str "next")) = Ok c /\
    DecodeCommit (encodeCommit c) = Err ChunkCorrupt.
Proof. split; [vm_compute; reflexivity|]. eexists. split; [reflexivity|]. vm_compute. reflexivity. Qed.

(** ** Walking *)

(** A model whose objects are one chunk each, which its walker names. *)
Definition exWalkReg : Registry :=
  mkRegistry {[1 := mkModel 1 1 (MValidate exModel) (MDiff exModel) (MMerge exModel)
                      (Some (fun St root rd visit => _ ← visit (RHash root) true; mret tt)) None]} [1].
Definition exWalkOpts : Vcs.Options := Vcs.mkOptions DefaultConfig (Some exWalkReg) (Some AllowAll) (fun _ => 7) 0.
Definition exHeld (id : ModelID) (root : Model.Root) (named : list hash) : Prop := RHash root ∈ named.

Lemma exWalk_keeps rd : walkers_keep rd exWalkReg exHeld.
Proof.
  split; [by intros id root a b Hs Hh; apply Hs|]. intros id m wk Hm. unfold exWalkReg in Hm. cbn [models] in Hm. apply lookup_singleton_Some in Hm as [_ <-]. intros [= <-] root s s' Hw.
  destruct (Stream.note_visit _ _ _ seeing_adds (RHash root) true s) as (s1 & Hv & Ha & Hin). cbv beta in Hw. unfold mbind, M_bind in Hw.
  rewrite Hv in Hw. injection Hw as <-. done.
Qed.

