(* ===== verification/Models.v ===== *)
(** * model/blob and model/tree: the models of files and of directory trees

    A blob is a stream with no structure; a tree is a map from path to an entry,
    the file's mode, time and content. Both are models of the port [Model].
    The theorems: what a tree is written from is what is read, its merge is the
    three-way merge of its entries, and the walk of either names every chunk of
    the object, which is what the walk of a repository asks of a model. *)

From S2P Require Import Prelude GoStd Wire Hash ChunkStore Prog Model ProllyNode Prolly ProllyDiff ProllyDraw ProllyFlush ProllyMerge ProllyCanon ProllyEditor ProllyWalk Object Namespace.
From S2P Require Import MapObject VcsInit VcsWalk.
From S2P Require Stream StreamWrite.

(** ** model/blob *)

Module BlobModel.

Definition ID : ModelID := 1.
Definition Format : Z := 1.

Definition Write `{Hasher} (src : source) (len : option Z) (c : StreamWrite.Config) : prog Model.Root :=
  ref ← StreamWrite.Write src len c;
  mret (mkRoot (Stream.Root ref) (Stream.Size ref) (Stream.Depth ref) Format).

Definition streamOf (root : Model.Root) : Stream.Ref := Stream.mkRef (RHash root) (RSize root) (RDepth root).

Definition Open (rd : creader) (root : Model.Root) : res Stream.Reader :=
  if negb (RFormat root =? Format) then Err ModelUnknown else Stream.Open rd (streamOf root).

Definition Walk : Walker := fun St root rd visit =>
  if negb (RFormat root =? Format) then fail ModelUnknown else Stream.Walk rd visit (streamOf root).

(** [io.Copy] into [io.Discard], whose buffer is 8 KiB; a read returns at least
    a byte or ends the stream. *)
Definition Validate (root : Model.Root) (rd : creader) : res unit :=
  r ← Open rd root;
  _ ← Stream.copyLoop rd (S (S (Z.to_nat (RSize root)))) (fun _ => 8192) [] r;
  Ok tt.

(** [changes.Next] *)
Definition next (c : list MChange) : res (option MChange) * list MChange :=
  match c with [] => (Ok None, []) | x :: c => (Ok (Some x), c) end.

(** A nil location is []. *)
Definition Diff (from to : Model.Root) (rd : creader) : res MDiffIter :=
  Ok (mkMDiffIter (list MChange) (if bool_decide (from = to) then [] else [mkMChange MModified []]) next).

Definition Merge (base ours theirs : Model.Root) : prog MergeResult :=
  if bool_decide (ours = theirs) || bool_decide (theirs = base) then mret (mkMergeResult ours [])
  else if bool_decide (ours = base) then mret (mkMergeResult theirs [])
  else mret (mkMergeResult ours [mkMConflict [] (str "both sides changed the file")]).

Definition model : Model := mkModel ID Format Validate Diff Merge (Some Walk) None.
End BlobModel.

(** ** model/tree *)

Module TreeModel.

Definition ID : ModelID := 2.
Definition Format : Z := 1.
Definition EntrySize : Z := 55.

(** A file of a tree; the time is an [int64]. *)
Record Entry := mkEntry { Mode : Z; ModTime : Z; Content : Model.Root }.

#[export] Instance Entry_eq_dec : EqDecision Entry.
Proof. solve_decision. Defined.

Definition Encode (e : Entry) : bytes :=
  encU32 (Mode e) ++ encU64 (u64 (ModTime e)) ++ encU64 (RSize (Content e)) ++ encU8 (RDepth (Content e)) ++
  encU16 (RFormat (Content e)) ++ hbytes (RHash (Content e)).

(** The [n] bytes at [off], little-endian. *)
Definition field (b : bytes) (off n : nat) : Z := le_dec (take n (drop off b)).

Definition DecodeEntry (b : bytes) : res Entry :=
  if negb (zlen b =? EntrySize) then Err ChunkCorrupt
  else
    let e := mkEntry (field b 0 4) (i64 (field b 4 8))
               (mkRoot (to_hash (drop 23 b)) (field b 12 8) (field b 20 1) (field b 21 2)) in
    if RFormat (Content e) =? 0 then Err ChunkCorrupt else Ok e.

(** [checked]: an entry and its path. *)
Definition checked (key rec : bytes) : res Entry :=
  match ValidPath key with
  | Err _ => Err ChunkCorrupt
  | Ok _ => DecodeEntry rec
  end.

Definition limited (c : Config) : Config := mkConfig (Nodes c) (InlineLimit c) (SConfig c) EntrySize.

Definition spec (c : Config) : Spec :=
  mkSpec (str "tree") Format (limited c) (fun key rec => _ ← checked key rec; Ok tt).

(** The loop of [Write], over the entries in the order the map yields them. *)
Fixpoint putAll (es : list (bytes * Entry)) (e : Prolly.Editor) : res Prolly.Editor :=
  match es with
  | [] => Ok e
  | (p, en) :: es =>
      _ ← ValidPath p;
      match Prolly.Put p (Encode en) e with
      | (Err x, _) => Err x
      | (Ok _, e) => putAll es e
      end
  end.

(** [Write] up to its flush. *)
Definition filled (c : Config) (es : list (bytes * Entry)) : prog Prolly.Editor :=
  m ← Prolly.Empty c;
  pLift (putAll es (Prolly.NewEditor m)).

Definition Write `{Hasher} (c : Config) (es : list (bytes * Entry)) : prog Model.Root :=
  e ← filled c es;
  me ← ProllyFlush.Flush e;
  mret (RootOf (spec c) me.1).

(** The loop of [Read]. *)
Fixpoint readAll (fuel : nat) (rd : creader) (m : Map) (it : Iter) (out : gmap bytes Entry) : res (gmap bytes Entry) :=
  match fuel with
  | O => Err (EMsg "no fuel")
  | S fuel =>
      match Prolly.Next rd m it with
      | Err e => Err e
      | Ok (None, _) => Ok out
      | Ok (Some (k, v), it) => e ← checked k v; readAll fuel rd m it (<[k := e]> out)
      end
  end.

Definition Read (rd : creader) (c : Config) (root : Model.Root) : res (gmap bytes Entry) :=
  m ← interp rd (MapObject.Open (spec c) root);
  it ← interp rd (IterRange m [] None);
  readAll (S (Z.to_nat (mcount m))) rd m it ∅.

Section Model.
Context `{Hasher} (c : Config).

Definition Validate (root : Model.Root) (rd : creader) : res unit := _ ← Read rd c root; Ok tt.

Definition Walk : Walker := fun St root rd visit =>
  MapObject.Walk (spec c) root rd visit (Some (fun key val =>
    e ← liftR (checked key val);
    Stream.Walk rd visit (BlobModel.streamOf (Content e)))).

Definition Diff (from to : Model.Root) (rd : creader) : res MDiffIter := MapObject.Diff (spec c) from to rd.

Definition Merge (base ours theirs : Model.Root) : prog MergeResult := MapObject.Merge (spec c) base ours theirs None.

Definition model : Model := mkModel ID Format Validate Diff Merge (Some Walk) None.
End Model.
End TreeModel.

(** ** Entries *)

Module Entries.
Import TreeModel.

(** The fields within their widths, and a content format. *)
Definition entry_ok (e : Entry) : Prop :=
  0 <= Mode e < two32 /\ - 2 ^ 63 <= ModTime e < 2 ^ 63 /\ 0 <= RSize (Content e) < two64 /\ 0 <= RDepth (Content e) < two8 /\
  0 < RFormat (Content e) < two16.

Lemma length_entry e : zlen (Encode e) = EntrySize.
Proof. unfold Encode. rewrite !length_app, length_encU32, !length_encU64, length_encU8, length_encU16, hash_length. done. Qed.

Lemma field_at pre x suf off n : length pre = off -> length x = n -> field (pre ++ x ++ suf) off n = le_dec x.
Proof. intros <- <-. unfold field. by rewrite drop_app_length, take_app_length. Qed.

#[local] Transparent encU8 encU16 encU32 encU64.

Lemma decode_encode_entry e : entry_ok e -> DecodeEntry (Encode e) = Ok e.
Proof.
  intros (H1 & H2 & H3 & H4 & H5). unfold DecodeEntry. rewrite length_entry, Z.eqb_refl. cbn [negb].
  pose proof (length_encU32 (Mode e)) as L1. pose proof (length_encU64 (u64 (ModTime e))) as L2. pose proof (length_encU64 (RSize (Content e))) as L3.
  pose proof (length_encU8 (RDepth (Content e))) as L4. pose proof (length_encU16 (RFormat (Content e))) as L5. pose proof (hash_length (RHash (Content e))) as L6.
  pose proof (u64_range (ModTime e)) as L7. unfold Encode, two8, two16, two32, two64 in *.
  set (a := encU32 _) in *. set (b := encU64 (u64 _)) in *. set (c := encU64 (RSize _)) in *. set (d := encU8 _) in *. set (f := encU16 _) in *. set (h := hbytes _) in *.
  assert (field (a ++ b ++ c ++ d ++ f ++ h) 0 4 = le_dec a) as -> by (by apply (field_at [] a)). rewrite (field_at a b (c ++ d ++ f ++ h) 4 8) by done.
  rewrite (app_assoc a b), (field_at (a ++ b) c (d ++ f ++ h) 12 8), (app_assoc (a ++ b) c), (field_at ((a ++ b) ++ c) d (f ++ h) 20 1),
    (app_assoc ((a ++ b) ++ c) d), (field_at (((a ++ b) ++ c) ++ d) f h 21 2), (app_assoc (((a ++ b) ++ c) ++ d) f) by (rewrite ?length_app; lia).
  rewrite (drop_app_length' ((((a ++ b) ++ c) ++ d) ++ f) h) by (rewrite !length_app; lia).
  subst a b c d f h. unfold encU8, encU16, encU32, encU64. rewrite !le_dec_enc by (simpl; lia). rewrite i64_u64 by lia.
  assert (le_dec [Zb (RDepth (Content e))] = RDepth (Content e)) as -> by (rewrite le_dec_cons, bZ_Zb_small by lia; cbn [le_dec]; lia).
  cbn [RFormat Content]. rewrite (proj2 (Z.eqb_neq _ _)) by lia. rewrite to_hash_hbytes. destruct e as [m t [rh rs rd rf]]. done.
Qed.

Lemma le_dec_take b off n : (off + n <= length b)%nat -> le_enc n (field b off n) = take n (drop off b).
Proof. intros Hl. unfold field. rewrite <-(le_enc_dec (take n (drop off b))) at 2. f_equal. rewrite length_take, length_drop. lia. Qed.

Lemma field_range b off n : (off + n <= length b)%nat -> 0 <= field b off n < 256 ^ Z.of_nat n.
Proof. intros Hl. unfold field. pose proof (le_dec_range (take n (drop off b))) as H. rewrite length_take, length_drop in H. by replace (n `min` (length b - off))%nat with n in H by lia. Qed.

Lemma decode_entry_inv b e : DecodeEntry b = Ok e -> entry_ok e /\ b = Encode e.
Proof.
  unfold DecodeEntry. destruct (Z.eqb_spec (zlen b) EntrySize) as [Hl|]; [|done]. cbn [negb Content RFormat]. unfold EntrySize in Hl.
  destruct (Z.eqb_spec (field b 21 2) 0) as [|Hf]; [done|]. intros [= <-].
  pose proof (field_range b 0 4 ltac:(lia)) as R1. pose proof (field_range b 4 8 ltac:(lia)) as R2. pose proof (field_range b 12 8 ltac:(lia)) as R3.
  pose proof (field_range b 20 1 ltac:(lia)) as R4. pose proof (field_range b 21 2 ltac:(lia)) as R5. simpl Z.pow in *.
  pose proof (i64_range (field b 4 8) ltac:(unfold two64; lia)) as R6. split.
  { unfold entry_ok, two8, two16, two32, two64. cbn [Mode ModTime Content RSize RDepth RFormat]. lia. }
  unfold Encode. cbn [Mode ModTime Content RSize RDepth RFormat RHash]. rewrite u64_i64 by (unfold two64; lia). unfold encU32, encU64, encU16, encU8.
  assert ([Zb (field b 20 1)] = le_enc 1 (field b 20 1)) as -> by done.
  rewrite !le_dec_take by lia. rewrite to_hash_exact by (rewrite length_drop; lia).
  rewrite <-(take_drop 4 b) at 1. f_equal. rewrite <-(take_drop 8 (drop 4 b)) at 1. rewrite drop_drop. f_equal.
  rewrite <-(take_drop 8 (drop (4 + 8) b)) at 1. rewrite drop_drop. f_equal. rewrite <-(take_drop 1 (drop (4 + 8 + 8) b)) at 1. rewrite drop_drop. f_equal.
  rewrite <-(take_drop 2 (drop (4 + 8 + 8 + 1) b)) at 1. by rewrite drop_drop.
Qed.

#[local] Opaque encU8 encU16 encU32 encU64.

Lemma checked_ok k e : path_ok k -> entry_ok e -> checked k (Encode e) = Ok e.
Proof. intros Hk%ValidPath_spec He. unfold checked. rewrite Hk. by apply decode_encode_entry. Qed.

Lemma checked_inv k b e : checked k b = Ok e -> path_ok k /\ entry_ok e /\ b = Encode e.
Proof.
  unfold checked. destruct (ValidPath k) as [[]|] eqn:E; [|done]. intros [H1 H2]%decode_entry_inv. split; [by apply ValidPath_spec|done].
Qed.
End Entries.

(** ** Trees *)

Module Trees.
Import TreeModel Entries.

(** Valid paths and entries. *)
Definition valid_tree (σ : gmap bytes Entry) : Prop := forall k e, σ !! k = Some e -> path_ok k /\ entry_ok e.

Definition records (σ : gmap bytes Entry) (k : bytes) : option bytes := Encode <$> σ !! k.

Section Reading.
Context (c : Config).

(** The chunks of the tree [σ] are under [root]. *)
Definition tree_in (rd : creader) (root : Model.Root) (σ : gmap bytes Entry) : Prop :=
  valid_tree σ /\ exists m xs, map_ok rd m xs /\ cfg m = limited c /\ streams_ok rd xs /\ (forall k, Prolly.Get rd m k = Ok (records σ k)) /\ root = RootOf (spec c) m.

(** The loop of [Read] over the records an iterator yields. *)
Lemma readAll_records (rd : creader) (m : Map) (σ : gmap bytes Entry) : forall fuel it l out, nextAll fuel rd m it = Ok l ->
  (forall k b, (k, b) ∈ l -> exists e, checked k b = Ok e /\ σ !! k = Some e) ->
  exists σ', readAll fuel rd m it out = Ok σ' /\ forall k, σ' !! k = if decide (k ∈ l.*1) then σ !! k else out !! k.
Proof.
  induction fuel as [|fuel IH]; intros it l out; cbn [nextAll readAll]; [done|]. destruct (Prolly.Next rd m it) as [[[[k v]|] it']|]; [|intros [= <-] _; by exists out|done].
  destruct (nextAll fuel rd m it') as [l'|] eqn:E; [|done]. intros [= <-] Hl. destruct (Hl k v ltac:(left)) as (e & -> & Hk). cbn [mbind res_bind].
  destruct (IH it' l' (<[k := e]> out) E) as (σ' & Hr & Hs); [intros k' b Hb; apply Hl; by right|]. exists σ'. split; [done|]. intros q. rewrite Hs. cbn [fmap list_fmap fst].
  destruct (decide (q ∈ l'.*1)) as [Hq|Hq]; [by rewrite decide_True by (by right)|]. destruct (decide (k = q)) as [->|Hne].
  - rewrite decide_True by left. by rewrite lookup_insert_eq.
  - rewrite decide_False by (rewrite elem_of_cons; intros [?|?]; congruence). by rewrite lookup_insert_ne.
Qed.

Lemma map_sorted rd m xs : map_ok rd m xs -> ksorted key xs.
Proof. intros (_ & n & _ & _ & Hok & <- & _). apply Hok. Qed.

(** Reading a tree gives its entries. *)
Lemma tree_Read_ok rd root σ : tree_in rd root σ -> Read rd c root = Ok σ.
Proof.
  intros (Hval & m & xs & Hm & Hcfg & Hst & Hget & ->). unfold Read.
  assert (interp rd (MapObject.Open (spec c) (RootOf (spec c) m)) = Ok (opened m)) as ->.
  { unfold MapObject.Open. rewrite interp_bind by done. cbn [interp pLift claims RFormat RDepth RootOf spec SpFormat]. unfold claims. cbn [RFormat RDepth RootOf spec SpFormat]. rewrite Z.eqb_refl. cbn [negb Z.eqb].
    rewrite interp_bind by apply Open_reads. cbn [RHash RSize RootOf spec SpConfig]. rewrite <-Hcfg, (Open_map_ok _ _ _ Hm). cbn [mcount opened]. by rewrite Z.eqb_refl. }
  cbn [mbind res_bind]. assert (map_ok rd (opened m) xs) as Hm' by done. pose proof (range_ok rd (opened m) xs [] None Hm') as Hr.
  rewrite filter_all in Hr by (apply Forall_forall; intros x _; unfold in_range, below; by destruct (key x)). unfold range in Hr.
  assert (exists l, res_map (item rd (opened m)) xs = Ok l /\ (forall k b, (k, b) ∈ l -> records σ k = Some b) /\ l.*1 = key <$> xs) as (l & El & Hl & Hkeys).
  { assert (forall e, e ∈ xs -> exists b, item rd (opened m) e = Ok (key e, b) /\ records σ (key e) = Some b) as Hitem.
    { intros e He. specialize (Hget (key e)). rewrite (Get_ok _ _ _ _ Hm), (klookup_sorted key xs e) in Hget by (try done; by eapply map_sorted).
      unfold item. change (materialize rd (opened m) (val e)) with (materialize rd m (val e)). destruct (materialize rd m (val e)) as [b|]; [|done]. injection Hget as Hget. by eauto. }
    clear -Hitem. induction xs as [|e xs IH]; [exists []; split_and!; [done|by intros ? ? ?%elem_of_nil|done]|].
    destruct IH as (l & E & Hl & Hk); [intros x Hx; apply Hitem; by right|]. destruct (Hitem e ltac:(left)) as (b & Eb & Hb). exists ((key e, b) :: l).
    cbn [res_map]. rewrite Eb, E. split_and!; [done| |by rewrite !fmap_cons, Hk]. intros k x [[= -> ->]|Hx]%elem_of_cons; [done|by apply Hl]. }
  rewrite El in Hr. destruct (interp rd (IterRange (opened m) [] None)) as [it|]; [|done]. cbn [mbind res_bind].
  destruct (readAll_records rd (opened m) σ _ it l ∅ Hr) as (σ' & -> & Hs).
  { intros k b Hb. specialize (Hl k b Hb). unfold records in Hl. destruct (σ !! k) as [e|] eqn:E; [|done]. injection Hl as <-. exists e. split; [|done]. by apply checked_ok; eapply Hval. }
  f_equal. apply map_eq. intros k. rewrite Hs. case_decide as Hk; [done|]. rewrite lookup_empty. symmetry. specialize (Hget k). rewrite (Get_ok _ _ _ _ Hm) in Hget.
  destruct (klookup key k xs) as [e|] eqn:E; [|unfold records in Hget; by destruct (σ !! k)]. apply klookup_elem in E as [E <-]. destruct Hk. rewrite Hkeys. by apply list_elem_of_fmap_2.
Qed.
End Reading.

(** ** Walking *)

Section Walking.
Context `{HH : Hasher} (c : Config) (rd : creader).

(** A file, and a tree with its files, is as it was for any reader that has the chunks [named]. *)
Definition blob_kept (root : Model.Root) (named : list hash) : Prop :=
  forall rd', agrees rd rd' named -> Stream.contents rd' (BlobModel.streamOf root) = Stream.contents rd (BlobModel.streamOf root).

Definition tree_kept (root : Model.Root) (named : list hash) : Prop :=
  forall rd', agrees rd rd' named -> forall σ, tree_in c rd root σ ->
    tree_in c rd' root σ /\ forall k e, σ !! k = Some e ->
      Stream.contents rd' (BlobModel.streamOf (Content e)) = Stream.contents rd (BlobModel.streamOf (Content e)).

(** What it is for an object of these models to be held by the chunks [named]. *)
Definition kept_object (id : ModelID) (root : Model.Root) (named : list hash) : Prop :=
  if id =? BlobModel.ID then blob_kept root named else tree_kept root named.

Lemma stream_walked ref s s' : Stream.Walk rd seeing ref s = (Ok tt, s') ->
  adds s s' /\ forall rd', agrees rd rd' (wst s') -> Stream.contents rd' ref = Stream.contents rd ref.
Proof.
  unfold Stream.Walk. destruct (_ || _); [done|]. intros Hw. destruct (Stream.walk_notes _ _ _ rd _ seeing_adds _ _ _ _ _ Hw) as [H1 H2]. split; [done|]. intros rd' Ha. by apply H2.
Qed.

Lemma tree_in_kept rd' m xs root σ : map_ok rd m xs -> map_ok rd' m xs ->
  (forall e ref, e ∈ xs -> val e = VStream ref -> Stream.contents rd' ref = Stream.contents rd ref) ->
  cfg m = limited c -> streams_ok rd xs -> (forall k, Prolly.Get rd m k = Ok (records σ k)) -> root = RootOf (spec c) m -> valid_tree σ -> tree_in c rd' root σ.
Proof.
  intros Hm Hm' Hc Hcfg Hst Hget Hroot Hval. split; [done|]. exists m, xs. split_and!; try done.
  - intros e ref He Ev. rewrite (Hc e ref He Ev). by apply (Hst e).
  - intros k. rewrite <-Hget, !(Get_ok _ _ _ _ Hm), (Get_ok _ _ _ _ Hm'). destruct (klookup key k xs) as [e|] eqn:E; [|done].
    apply klookup_elem in E as [E _]. rewrite (materialize_kept rd rd' m xs e Hst E); [done|]. intros ref. by apply Hc.
Qed.

Lemma tree_walked root s s' : Walk c wnames root rd seeing s = (Ok tt, s') -> adds s s' /\ tree_kept root (wst s').
Proof.
  unfold Walk, MapObject.Walk. intros (u & s1 & E1 & Hw)%M_bind_inv. unfold liftR in E1. injection E1 as Ec <-. cbn [default] in Hw. unfold id in Hw.
  apply (map_walked rd _ _ _ (fun k v s => exists e, checked k v = Ok e /\ forall rd', agrees rd rd' (wst s) -> Stream.contents rd' (BlobModel.streamOf (Content e)) = Stream.contents rd (BlobModel.streamOf (Content e))))
    in Hw as (Ha & Hk & Hq).
  - split; [done|]. intros rd' Hag σ (Hval & m & xs & Hm & Hcfg & Hst & Hget & ->). cbn [RHash RootOf] in *.
    destruct (Hk rd' Hag m xs Hm Hcfg eq_refl) as [Hm' Hc]. split; [by eapply tree_in_kept|]. intros k e He. specialize (Hget k). rewrite (Get_ok _ _ _ _ Hm) in Hget.
    unfold records in Hget. rewrite He in Hget. destruct (klookup key k xs) as [x|] eqn:Ex; [|done]. apply klookup_elem in Ex as [Ex <-].
    destruct (Hq m xs Hm Hcfg eq_refl x Ex) as (v & Ev & e' & He' & Hcont). rewrite Ev in Hget. injection Hget as ->.
    destruct (Hval _ _ He) as [Hp Hok]. rewrite checked_ok in He' by done. injection He' as <-. by apply Hcont.
  - intros k v s1 s2 (e & s3 & E3 & Hx)%M_bind_inv. unfold liftR in E3. injection E3 as E3 <-. apply stream_walked in Hx as [H1 H2]. by eauto.
  - intros k v s1 s2 [Hs _] (e & He & Hcont). exists e. split; [done|]. intros rd' Hag. apply Hcont. intros h Hh. by apply Hag, Hs.
Qed.

(** C11. The models name what their objects reach. In a repository opened with the
    blob and the tree model, a walk of an object that succeeds has named every
    chunk it needs: for any reader that has the chunks named, whatever else is
    gone, a blob is the same stream of bytes, and a tree has the same entries,
    each with the same content. This is what the walk of a repository asks of its models. *)
Theorem models_name_what_they_reach rg : NewRegistry [Some BlobModel.model; Some (TreeModel.model c)] = Ok rg -> walkers_keep rd rg kept_object.
Proof.
  intros (_ & _ & _ & Hm)%(NewRegistry_ok [BlobModel.model; TreeModel.model c]). split.
  - intros id root a b Hab. unfold kept_object. destruct (id =? BlobModel.ID); intros Hk rd' Ha; apply Hk; intros h Hh; by apply Ha, Hab.
  - intros id m wk Hid Hwk root s s' Hw. apply Hm in Hid as [Hin <-]. rewrite !elem_of_cons in Hin. destruct Hin as [-> |[-> |[]%elem_of_nil]]; injection Hwk as <-.
    + cbn [MID BlobModel.model kept_object]. unfold BlobModel.Walk in Hw. destruct (negb _); [done|]. apply stream_walked in Hw as [H1 H2]. by split.
    + by apply tree_walked.
Qed.
End Walking.

(** ** Merging *)

Section Merging.
Context `{HH : Hasher} (c : Config).

(** [root] is the root of a map that holds the tree [σ]. *)
Definition tree_at (rd : creader) (root : Model.Root) (σ : gmap bytes Entry) : Prop :=
  valid_tree σ /\ exists xs, object_at (spec c) rd root xs (records σ).

Lemma tree_at_in rd root σ : tree_at rd root σ -> tree_in c rd root σ.
Proof.
  intros (Hval & xs & m & Hh & ->). split; [done|]. exists m, xs. split_and!; [by eapply holding_map|apply Hh|apply Hh|apply Hh|done].
Qed.

(** The entry of a path in the merge, and whether the path conflicts. *)
Definition mergedEntry (b o t : option Entry) : option Entry := if decide (t = b) then o else if decide (o = b) then t else o.

Definition clashes (b o t : option Entry) : bool := negb (bool_decide (t = b)) && negb (bool_decide (o = b)) && negb (bool_decide (o = t)).

Definition mergedTree (σb σo σt : gmap bytes Entry) : gmap bytes Entry :=
  map_imap (fun k ot => mergedEntry (σb !! k) ot.1 ot.2) (base.merge (fun o t => Some (o, t)) σo σt).

Lemma mergedTree_at σb σo σt k : mergedTree σb σo σt !! k = mergedEntry (σb !! k) (σo !! k) (σt !! k).
Proof.
  unfold mergedTree. rewrite map_lookup_imap, lookup_merge. destruct (σo !! k) as [o|] eqn:Eo, (σt !! k) as [t|] eqn:Et; try done. cbn. unfold mergedEntry. by repeat case_decide.
Qed.

Lemma mergedTree_valid σb σo σt : valid_tree σo -> valid_tree σt -> valid_tree (mergedTree σb σo σt).
Proof. intros Ho Ht k e. rewrite mergedTree_at. unfold mergedEntry. repeat case_decide; [apply Ho|apply Ht|apply Ho]. Qed.

Lemma Encode_inj e e' : entry_ok e -> entry_ok e' -> Encode e = Encode e' -> e = e'.
Proof. intros H1 H2 E. apply decode_encode_entry in H1, H2. congruence. Qed.

(** With room for an entry in a node, every record is stored in one. *)
Lemma records_inline rd m xs σ k : EntrySize <= InlineLimit c -> holding (spec c) rd m xs (records σ) -> valueAt xs k = VInline <$> records σ k.
Proof.
  intros Hlim Hh. pose proof (holding_at (spec c) _ _ _ _ k Hh) as Hk. unfold valueAt. destruct (klookup key k xs) as [e|] eqn:E; [|by rewrite Hk].
  destruct Hk as (b & Hb & Hr). rewrite Hr. assert (zlen b = EntrySize) as Hlen.
  { unfold records in Hr. destruct (σ !! k) as [x|]; [|done]. injection Hr as <-. apply length_entry. }
  cbn. f_equal. apply klookup_elem in E as [E _]. pose proof Hh as [(_ & (_ & Hv & _) & _) Hcfg Hst _]. rewrite Forall_forall in Hv. destruct (Hv e E) as [_ [Hval _]].
  rewrite Hcfg in Hval. cbn [InlineLimit limited spec SpConfig] in Hval. destruct (val e) as [b'|ref] eqn:Ev; cbn [materialize] in Hb; [congruence|]. exfalso.
  destruct (Hst e ref E Ev) as (Hd & Hs & d & Hc). unfold readValue in Hb. rewrite (Stream.read_all_ok rd _ ref d) in Hb by done. destruct (_ <=? _); [|by destruct (bool_decide _)].
  injection Hb as ->. apply Stream.data_length in Hc. cbn in Hval. lia.
Qed.

Lemma changed_entries rd m m' x y σ τ k : EntrySize <= InlineLimit c -> holding (spec c) rd m x (records σ) -> holding (spec c) rd m' y (records τ) ->
  valid_tree σ -> valid_tree τ -> changed x y k <-> σ !! k <> τ !! k.
Proof.
  intros Hlim Hx Hy Vx Vy. unfold changed, differs, delta_at. cbn [fst snd]. fold (valueAt x k) (valueAt y k). rewrite (records_inline rd m x σ k), (records_inline rd m' y τ k) by done.
  unfold records. destruct (σ !! k) as [e|] eqn:E1, (τ !! k) as [e'|] eqn:E2; cbn; [|by split..]. destruct (Vx _ _ E1) as [_ O1]. destruct (Vy _ _ E2) as [_ O2]. split.
  - intros Hn [= ->]. done.
  - intros Hn E. apply Hn. f_equal. apply Encode_inj; [done|done|congruence].
Qed.

(** What [Disagreement] makes of the entries of a path. *)
Definition answerAt (σb σo σt : gmap bytes Entry) (k : bytes) : Decision :=
  let '(v, p, r) := Disagreement k (changeAt k (records σb k) (records σo k)) (changeAt k (records σb k) (records σt k)) in
  if bool_decide (r <> []) then mkDecision [] false [mkDConflict None r] else mkDecision v p [].

Lemma resolving_answers σb σo σt k v :
  steps (resolving None k (changeAt k (records σb k) (records σo k)) (changeAt k (records σb k) (records σt k))) v (answerAt σb σo σt k) v.
Proof.
  unfold resolving, answerAt. cbn [default]. unfold id. destruct (Disagreement _ _ _) as [[x p] r]. destruct (bool_decide _); apply steps_ret.
Qed.

Lemma answer_keeps σb σo σt k : DPut (answerAt σb σo σt k) = false.
Proof. unfold answerAt, Disagreement. repeat match goal with |- context [if ?b then _ else _] => destruct b end; done. Qed.

(** The changes a path is asked about, both sides having changed it: one conflict where they differ, none where they agree. *)
Lemma answer_conflicts σb σo σt k : valid_tree σo -> valid_tree σt -> σo !! k <> σb !! k -> σt !! k <> σb !! k ->
  exists reason, map (locate k) (DConflicts (answerAt σb σo σt k)) = if bool_decide (σo !! k = σt !! k) then [] else [mkMConflict k reason].
Proof.
  intros Vo Vt Ho Ht. unfold answerAt, Disagreement, changeAt, records. cbn [ProllyDiff.Kind ProllyDiff.To].
  destruct (σo !! k) as [o|] eqn:Eo, (σt !! k) as [t|] eqn:Et.
  - assert (bool_decide (Encode o = Encode t) = bool_decide (Some o = Some t)) as E.
    { apply bool_decide_ext. split; [|congruence]. intros E. f_equal. by apply Encode_inj; [eapply Vo|eapply Vt|]. }
    destruct (σb !! k) as [b|]; cbn [fmap option_fmap option_map default id]; unfold id;
      repeat (rewrite bool_decide_eq_false_2 by done || rewrite bool_decide_eq_true_2 by done); cbn [andb orb]; rewrite E; destruct (bool_decide (Some o = Some t)); repeat case_bool_decide; try done; by eexists.
  - destruct (σb !! k) as [b|]; [|done]. cbn; repeat case_bool_decide; try done; by eexists.
  - destruct (σb !! k) as [b|]; [|done]. cbn; repeat case_bool_decide; try done; by eexists.
  - destruct (σb !! k) as [b|]; [|done]. cbn; repeat case_bool_decide; try done; by exists [].
Qed.

(** A list of at most one conflict for each of some keys, in order. *)
Lemma located_sorted (f : bytes -> list MConflict) (clash : bytes -> Prop) ks : ksorted (fun k => k) ks ->
  (forall k, k ∈ ks -> (f k = [] /\ ~ clash k) \/ exists r, f k = [mkMConflict k r] /\ clash k) ->
  ksorted CLocation (concat (map f ks)) /\ forall p, p ∈ map CLocation (concat (map f ks)) <-> p ∈ ks /\ clash p.
Proof.
  induction ks as [|k ks IH]; [split; [constructor|set_solver]|]. intros [Hk Hs]%ksorted_cons Hf.
  destruct IH as [H1 H2]; [done|intros q Hq; apply Hf; by right|]. cbn [map concat]. rewrite Forall_forall in Hk. assert (k ∉ ks) as Hn by (intros Hin; apply Hk in Hin; by apply blt_irrefl in Hin).
  destruct (Hf k ltac:(left)) as [[-> Hc]|(r & -> & Hc)]; cbn [app map].
  - split; [done|]. intros p. rewrite H2, elem_of_cons. naive_solver.
  - split.
    + apply ksorted_cons. split; [|done]. apply Forall_forall. intros x Hx. cbn. apply Hk, H2. apply list_elem_of_fmap. by eauto.
    + intros p. rewrite !elem_of_cons, H2. naive_solver.
Qed.

(** A tree asks nothing more of a merge: it accepts the entries of its own. *)
Lemma tree_ready xb xo xt σb σo σt v : valid_tree σt -> forall k,
  ready (spec c) xb xo xt (records σb) (records σo) (records σt) v (resolving None) (answerAt σb σo σt) k.
Proof.
  intros Vt k Hk. case_bool_decide as Hck.
  - split; [intros v1 _; exists v1; apply resolving_answers|]. by rewrite answer_keeps.
  - unfold records. intros b Hkb. destruct (σt !! k) as [e|] eqn:E; [|done]. injection Hkb as <-. destruct (Vt _ _ E) as [Hp He]. split; [|by rewrite length_entry].
    cbn [spec SpCheck]. by rewrite checked_ok.
Qed.

Section Three.
Context (base ours theirs : Model.Root) (σb σo σt : gmap bytes Entry) (v : view).
Context (Hb : tree_at (vget v) base σb) (Ho : tree_at (vget v) ours σo) (Ht : tree_at (vget v) theirs σt) (Hlim : EntrySize <= InlineLimit c).

Definition clashAt (p : bytes) : Prop := clashes (σb !! p) (σo !! p) (σt !! p) = true.

Lemma tree_Merge_ok : (forall ed v1, steps (compared (spec c) base ours theirs (resolving None)) v (ed, []) v1 -> room v1 ed) ->
  exists r v', steps (Merge c base ours theirs) v r v' /\
    ksorted CLocation (MConflicts r) /\ (forall p, p ∈ map CLocation (MConflicts r) <-> clashAt p) /\
    if bool_decide (MConflicts r = []) then tree_at (vget v') (MRoot r) (mergedTree σb σo σt) else MRoot r = ours.
Proof.
  intros Hroom. destruct Hb as (Vb & xb & Ob). destruct Ho as (Vo & xo & Oo). destruct Ht as (Vt & xt & Ot).
  pose proof Ob as (mb & Hhb & _). pose proof Oo as (mo & Hho & _). pose proof Ot as (mt & Hht & _).
  assert (forall k, changed xb xo k <-> σo !! k <> σb !! k) as Co by (intros k; rewrite (changed_entries _ _ _ _ _ _ _ k Hlim Hhb Hho Vb Vo); naive_solver).
  assert (forall k, changed xb xt k <-> σt !! k <> σb !! k) as Ct by (intros k; rewrite (changed_entries _ _ _ _ _ _ _ k Hlim Hhb Hht Vb Vt); naive_solver).
  destruct (MergeWith_ok (spec c) base ours theirs xb xo xt (records σb) (records σo) (records σt) (resolving None) (answerAt σb σo σt) v Ob Oo Ot) as (r & v' & Hs & Hc & Hr); [|done|done|].
  { exact (tree_ready _ _ _ _ _ _ v Vt). }
  exists r, v'. split; [exact Hs|]. destruct (changedKeys_ok xb xt (holding_sorted _ _ _ _ _ Hhb) (holding_sorted _ _ _ _ _ Hht)) as (Hsort & Hin & _).
  destruct (located_sorted (conflictsAt xb xo (answerAt σb σo σt)) clashAt (changedKeys xb xt) Hsort) as [L1 L2].
  { clear Hr. intros k Hk%Hin%Ct. unfold conflictsAt, clashAt, clashes. rewrite (bool_decide_eq_false_2 (σt !! k = σb !! k)) by done. case_bool_decide as Hck.
    - apply Co in Hck. rewrite (bool_decide_eq_false_2 (σo !! k = σb !! k)) by done. destruct (answer_conflicts σb σo σt k Vo Vt Hck Hk) as (reason & ->).
      destruct (bool_decide (σo !! k = σt !! k)); [left; by split|right; by exists reason].
    - left. split; [done|]. assert (σo !! k = σb !! k) as -> by (destruct (decide (σo !! k = σb !! k)) as [|Hne]; [done|by apply Co in Hne]). by rewrite bool_decide_eq_true_2. }
  rewrite Hc. split; [exact L1|]. split.
  { intros p. rewrite L2. split; [by intros [_ ?]|]. intros Hp. split; [|done]. apply Hin, Ct. unfold clashAt, clashes in Hp. intros E. by rewrite bool_decide_eq_true_2 in Hp. }
  destruct (decide (allConflicts xb xo xt (answerAt σb σo σt) = [])) as [E|E].
  - rewrite bool_decide_eq_true_2 by done. rewrite bool_decide_eq_false_2 in Hr by (intros Hn; by apply Hn). destruct Hr as (xs & m & Hh & Hroot). split; [by apply mergedTree_valid|]. exists xs, m. split; [|done]. destruct Hh as [H1 H2 H3 H4]. split; [done|done|done|].
    intros k. rewrite H4. f_equal. unfold merged, records. rewrite mergedTree_at, answer_keeps. unfold mergedEntry.
    repeat case_bool_decide; repeat case_decide; rewrite ?Co, ?Ct in *; try done; try tauto; congruence.
  - rewrite bool_decide_eq_false_2 by done. by rewrite bool_decide_eq_true_2 in Hr.
Qed.
End Three.
End Merging.

(** ** Writing *)

Section Writing.
Context `{HH : Hasher} (c : Config).

(** The map as [Open] of the tree sees it: with its limit of a record. *)
Definition relimit (m : Map) : Map := mkMap (limited c) (mrule m) (root m) (mcount m) (height m) (top m) (flushed m) (base m) (Prolly.changed m).

Lemma relimit_holding rd m xs σ : canonical rd m xs -> cfg m = c -> streams_ok rd xs -> (forall k, Prolly.Get rd m k = Ok (records σ k)) ->
  holding (spec c) rd (relimit m) xs (records σ).
Proof.
  intros (Hrule & Hwf & Hrest) Hcfg Hst Hget. assert (canonical rd (relimit m) xs) as Hcan.
  { split; [|split; [by rewrite Hcfg in Hwf|done]]. rewrite Hcfg in Hrule. unfold rule in *. cbn [relimit cfg mrule limited InlineLimit MaxValue Nodes]. destruct (_ || _); [done|]. by destruct (MaxValue c <? 0). }
  split; [done|done|done|]. intros k. specialize (Hget k). rewrite (Get_ok _ _ xs _ (canonical_map_ok _ _ _ Hcan)). rewrite (Get_ok rd m xs k) in Hget by (by apply canonical_map_ok).
  destruct (klookup key k xs) as [e|] eqn:E; [|done]. destruct (val e) as [b|ref] eqn:Ev; cbn [materialize] in *; [done|]. apply klookup_elem in E as [E _].
  destruct (Hst e ref E Ev) as (Hd & Hs & d & Hc). unfold readValue in *. rewrite (Stream.read_all_ok rd _ ref d) in * by done.
  destruct (zlen d <=? u64 (maxValue (cfg m))); [|by destruct (bool_decide _)]. injection Hget as Hget. rewrite <-Hget.
  assert (zlen d = EntrySize) as Hlen by (unfold records in Hget; destruct (σ !! k); [injection Hget as ->; apply length_entry|done]).
  rewrite (proj2 (Z.leb_le _ _)); [done|]. rewrite Hlen. by vm_compute.
Qed.

(** The loop of [Write] over valid entries, no path twice. *)
Lemma putAll_ok m es : cfg m = c -> EntrySize <= maxValue c -> Forall (fun x => path_ok x.1) es -> NoDup es.*1 -> forall eds : gmap bytes (option bytes),
  exists e, putAll es (Prolly.mkEditor m eds) = Ok e /\ em e = m /\
    forall k, edits e !! k = match (list_to_map es : gmap bytes Entry) !! k with Some en => Some (Some (Encode en)) | None => eds !! k end.
Proof.
  intros Hcfg Hmax Hp Hn. induction es as [|[p en] es IH]; intros eds; cbn [putAll]; [by eexists|]. apply Forall_cons in Hp as [Hp1 Hp]. apply NoDup_cons in Hn as [Hn1 Hn].
  cbn [fst] in *. pose proof Hp1 as Hv%ValidPath_spec. rewrite Hv. cbn [mbind res_bind]. unfold Prolly.Put. cbn [em edits]. rewrite Hcfg, !(proj2 (Z.ltb_ge _ _)) by (rewrite ?length_entry; (done || by apply path_key)).
  destruct (IH Hp Hn (<[p := Some (Encode en)]> eds)) as (e & He & Hm & Hk). exists e. split_and!; [done|done|]. intros k. rewrite Hk. cbn [list_to_map foldr uncurry]. cbn.
  destruct (decide (p = k)) as [->|Hne]; [|by rewrite !lookup_insert_ne]. rewrite !lookup_insert_eq. by rewrite not_elem_of_list_to_map_1.
Qed.

Lemma filled_ok es σ v : is_ok (rule c) = true -> EntrySize <= maxValue c -> es ≡ₚ map_to_list σ -> valid_tree σ -> collision_free v [encode emptyNode] ->
  exists e v1, steps (filled c es) v e v1 /\ v ⊆ v1 /\ canonical (vget v1) (em e) [] /\ cfg (em e) = c /\ editor_ok e /\
    forall k, edits e !! k = (fun en => Some (Encode en)) <$> σ !! k.
Proof.
  intros [rl Hrl]%is_Ok_inv Hmax Hes Hval [_ Hcf]. set (m := mkMap c rl (Sum (encode emptyNode)) 0 0 (Some emptyNode) false zero_hash []).
  assert (NoDup es.*1) as Hn by (rewrite Hes; apply NoDup_fst_map_to_list).
  assert ((list_to_map es : gmap bytes Entry) = σ) as Hmap by (rewrite (list_to_map_proper es (map_to_list σ)) by done; apply list_to_map_to_list).
  assert (Forall (fun x => path_ok x.1) es) as Hp.
  { apply Forall_forall. intros [k e] Hx. rewrite Hes in Hx. apply elem_of_map_to_list in Hx. by eapply Hval. }
  destruct (putAll_ok m es eq_refl Hmax Hp Hn ∅) as (e & He & Hm & Hk). rewrite Hmap in Hk. exists e, (vput v (encode emptyNode)).
  assert (vput v (encode emptyNode) !! Sum (encode emptyNode) = Some (encode emptyNode)) as Hin.
  { unfold vput. destruct (v !! Sum (encode emptyNode)) as [b|] eqn:E; [|by rewrite lookup_insert_eq]. rewrite E. f_equal. symmetry. apply Hcf; [left|done]. }
  split_and!.
  - unfold filled, Prolly.Empty. rewrite Hrl. intros rt. rewrite !exec_bind, exec_put by (vm_compute; discriminate). cbn [exec mret prog_ret]. fold m. unfold Prolly.NewEditor. by rewrite He.
  - apply vput_grows.
  - rewrite Hm. apply canonical_empty; [done|]. unfold vget. by rewrite Hin.
  - by rewrite Hm.
  - intros k o. rewrite Hk, Hm. destruct (σ !! k) as [en|] eqn:E; [|by rewrite lookup_empty]. intros [= <-]. rewrite length_entry. split; [|done]. apply path_key, ValidPath_spec. by eapply Hval.
  - intros k. rewrite Hk, lookup_empty. by destruct (σ !! k).
Qed.

Lemma Write_ok es σ v : is_ok (rule c) = true -> EntrySize <= maxValue c <= 2 ^ 62 -> es ≡ₚ map_to_list σ -> valid_tree σ -> collision_free v [encode emptyNode] ->
  (forall e v1, steps (filled c es) v e v1 -> room v1 e) -> exists root v', steps (Write c es) v root v' /\ tree_at c (vget v') root σ.
Proof.
  intros Hrl [Hmax Hmax2] Hes Hval Hcf Hroom. destruct (filled_ok es σ v Hrl Hmax Hes Hval Hcf) as (e & v1 & Hf & Hv & Hcan & Hcfg & Hed & Hk).
  assert (holding (mkSpec [] 0 c (fun _ _ => Ok tt)) (vget v1) (em e) [] (fun _ => None)) as Hh.
  { split; [done|done|by intros x ref ?%elem_of_nil|]. intros k. by rewrite (Get_ok _ _ _ k (canonical_map_ok _ _ _ Hcan)). }
  destruct (Flush_holding _ v1 e [] _ Hh Hed Hmax2 (Hroom e v1 Hf)) as (m' & v' & xs & Hfl & _ & [H1 H2 H3 H4]).
  eexists _, v'. split; [eapply steps_bind; [exact Hf|]; eapply steps_bind; [exact Hfl|]; apply steps_ret|]. split; [done|]. exists xs, (relimit m'). split; [|done].
  apply relimit_holding; [done|done|done|]. intros k. rewrite H4, Hk. unfold records. by destruct (σ !! k).
Qed.
End Writing.

Section Stores.
Context `{HH : Hasher} {S : Type} `{!ChunkStore S} `{!ChunkStoreOk S} (c : Config).

(** C29. A tree written is the tree read: [Write] of entries under valid paths, taken
    in any order, succeeds on any store that keeps the chunk store's contract
    (provided no two chunks it stores and the chunks there share a name), leaves
    the store's root as it was, and [Read] of the root it returns gives exactly
    those entries; the result is the root of a tree, as a merge takes them. *)
Theorem tree_written_is_read (st : S) es σ :
  cs_ok st -> is_ok (rule c) = true -> EntrySize <= maxValue c <= 2 ^ 62 -> es ≡ₚ map_to_list σ -> valid_tree σ -> collision_free (cs_view st) [encode emptyNode] ->
  (forall e v, steps (filled c es) (cs_view st) e v -> room v e) ->
  exists root st', run (Write c es) st = (Ok root, st') /\ cs_ok st' /\ cs_rootof st' = cs_rootof st /\
    Read (cs_get st') c root = Ok σ /\ tree_at c (cs_get st') root σ.
Proof.
  intros Hst Hrl Hmax Hes Hval Hcf Hroom. destruct (Write_ok c es σ (cs_view st) Hrl Hmax Hes Hval Hcf Hroom) as (root & v' & Hs & Ht).
  destruct (run_view (Write c es) st Hst) as (st' & Hrun & Hst' & Hv & Hro). rewrite Hs in *. cbn in *. exists root, st'. rewrite get_view, Hv by done.
  split_and!; [done|done|done|by apply tree_Read_ok, tree_at_in|apply Ht..].
Qed.

(** C12. A merge of trees is the three-way merge of their entries. For three trees on
    any store that keeps the chunk store's contract, whose nodes have room for
    an entry, the tree model's [Merge] succeeds: its conflicts are at exactly
    the paths both sides changed to different entries, in path order, once each;
    with any the result is ours, and with none it is a tree with exactly the
    entries of the merge: a path one side changed is that side's, removals
    included, one both changed alike is kept once. *)
Theorem tree_merge_is_per_entry (st : S) base ours theirs σb σo σt :
  cs_ok st -> tree_at c (cs_get st) base σb -> tree_at c (cs_get st) ours σo -> tree_at c (cs_get st) theirs σt -> EntrySize <= InlineLimit c ->
  (forall ed v, steps (compared (spec c) base ours theirs (resolving None)) (cs_view st) (ed, []) v -> room v ed) ->
  exists r st', run (Merge c base ours theirs) st = (Ok r, st') /\ cs_ok st' /\ cs_rootof st' = cs_rootof st /\
    ksorted CLocation (MConflicts r) /\ (forall p, p ∈ map CLocation (MConflicts r) <-> clashAt σb σo σt p) /\
    if bool_decide (MConflicts r = []) then tree_at c (cs_get st') (MRoot r) (mergedTree σb σo σt) else MRoot r = ours.
Proof.
  intros Hst Hb Ho Ht Hlim Hroom. rewrite get_view in * by done. destruct (tree_Merge_ok c base ours theirs σb σo σt (cs_view st) Hb Ho Ht Hlim Hroom) as (r & v' & Hs & H1 & H2 & H3).
  destruct (run_view (Merge c base ours theirs) st Hst) as (st' & Hrun & Hst' & Hv & Hro). rewrite Hs in *. cbn in *. exists r, st'. rewrite get_view, Hv by done. by split_and!.
Qed.
End Stores.

(** ** Examples: a tree two sides change *)

Section Example.
#[local] Existing Instance toy_hasher.

Definition exFile (n : Z) : Entry := mkEntry 420 n (mkRoot (Sum (str "file")) 4 0 1).

Definition exBase : gmap bytes Entry := {[str "a" := exFile 1; str "b" := exFile 1]}.
Definition exOurs : gmap bytes Entry := {[str "a" := exFile 2; str "b" := exFile 1]}.
Definition exTheirs : gmap bytes Entry := {[str "a" := exFile 1; str "c" := exFile 3]}.

(** [room], decided for a map of one node. *)
Definition roomb (v : view) (e : Prolly.Editor) : bool :=
  let c := cfg (em e) in
  is_ok (Boundary.New (StreamWrite.Nodes (SConfig c))) && is_ok (Cdc.Validate (StreamWrite.CDC (SConfig c))) &&
  (mcount (em e) + Z.of_nat (size (edits e)) <=? 2 ^ 62) && (height (em e) =? 0)%nat &&
  match top (em e) with Some n => collision_freeb v (flushChunks e (entries n)) | None => false end.

Lemma roomb_true v e : roomb v e = true -> room v e.
Proof.
  unfold roomb. rewrite !andb_true_iff. intros [[[[H1 H2] H3%Z.leb_le] H4%Nat.eqb_eq] H5].
  destruct (top (em e)) as [n|] eqn:Et; [|done]. apply is_Ok_inv in H1. apply is_Ok_inv in H2 as [[] H2].
  split; [by split|]. split; [done|]. intros es Hes. rewrite (canonical_leaf _ _ _ _ Hes Et H4). by apply collision_freeb_true.
Qed.

Definition valid_treeb (σ : gmap bytes Entry) : bool := forallb (fun x => is_ok (checked x.1 (Encode x.2))) (map_to_list σ).

Lemma valid_treeb_true σ : valid_treeb σ = true -> (forall k e, σ !! k = Some e -> entry_ok e) -> valid_tree σ.
Proof.
  unfold valid_treeb. rewrite forallb_forall. intros Hf He k e Hk. split; [|by eapply He]. specialize (Hf (k, e)). rewrite <-list_elem_of_In, elem_of_map_to_list in Hf. specialize (Hf Hk).
  cbn [fst snd] in Hf. apply is_Ok_inv in Hf as [x Hx]. by apply checked_inv in Hx as [? _].
Qed.

Lemma exTree_valid σ : σ = exBase \/ σ = exOurs \/ σ = exTheirs -> valid_tree σ.
Proof.
  intros Hσ. apply valid_treeb_true.
  - destruct Hσ as [-> |[-> | ->]]; vm_compute; reflexivity.
  - assert (forall n, 0 <= n < 4 -> entry_ok (exFile n)) as Hn by (intros n H; unfold entry_ok, exFile, two8, two16, two32, two64; cbn; lia).
    intros k e Hk. assert (e = exFile 1 \/ e = exFile 2 \/ e = exFile 3) as [-> |[-> | ->]]; [|apply Hn; lia..].
    destruct Hσ as [-> |[-> | ->]]; unfold exBase, exOurs, exTheirs in Hk; repeat (apply lookup_insert_Some in Hk as [[_ <-]|[_ Hk]]; [by auto|]);
      apply lookup_singleton_Some in Hk as [_ <-]; auto.
Qed.

(** Three trees written one after another. *)
Definition exWrite (σ : gmap bytes Entry) (st : Memstore.Store) : res Model.Root * Memstore.Store := run (Write DefaultConfig (map_to_list σ)) st.
Definition rootIn (r : res Model.Root * Memstore.Store) : Model.Root := match r.1 with Ok x => x | Err _ => mkRoot zero_hash 0 0 0 end.

Definition exSt1 : res Model.Root * Memstore.Store := exWrite exBase Memstore.New.
Definition exSt2 : res Model.Root * Memstore.Store := exWrite exOurs exSt1.2.
Definition exSt3 : res Model.Root * Memstore.Store := exWrite exTheirs exSt2.2.

Definition writableb (σ : gmap bytes Entry) (st : Memstore.Store) : bool :=
  collision_freeb (cs_view st) [encode emptyNode] &&
  match exec (cs_view st) zero_hash (filled DefaultConfig (map_to_list σ)) with (Ok e, v, _) => roomb v e | _ => false end.

Lemma writableb_true σ st : writableb σ st = true -> collision_free (cs_view st) [encode emptyNode] /\
  forall e v, steps (filled DefaultConfig (map_to_list σ)) (cs_view st) e v -> room v e.
Proof.
  unfold writableb. rewrite andb_true_iff. intros [H1 H2]. split; [by apply collision_freeb_true|]. intros e v Hs. apply roomb_true. by rewrite (Hs zero_hash) in H2.
Qed.

Lemma exDefault : is_ok (rule DefaultConfig) = true /\ EntrySize <= maxValue DefaultConfig <= 2 ^ 62.
Proof. split; [vm_compute; reflexivity|]. vm_compute. split; discriminate. Qed.

Lemma exWrite_ok σ st : cs_ok st -> valid_tree σ -> writableb σ st = true ->
  cs_ok (exWrite σ st).2 /\ cs_view st ⊆ cs_view (exWrite σ st).2 /\ tree_at DefaultConfig (cs_get (exWrite σ st).2) (rootIn (exWrite σ st)) σ.
Proof.
  intros Hst Hval [Hcf Hroom]%writableb_true. destruct exDefault as [Hrl Hmax].
  destruct (Write_ok DefaultConfig (map_to_list σ) σ (cs_view st) Hrl Hmax (reflexivity _) Hval Hcf Hroom) as (root & v' & Hs & Ht).
  destruct (run_view (Write DefaultConfig (map_to_list σ)) st Hst) as (st' & Hrun & Hst' & Hv & _). rewrite Hs in Hrun, Hv. cbn [fst snd] in Hrun, Hv.
  pose proof (exec_grows (Write DefaultConfig (map_to_list σ)) (cs_view st) zero_hash) as Hg. rewrite Hs in Hg. cbn [fst snd] in Hg.
  unfold exWrite, rootIn. rewrite Hrun. cbn [fst snd]. rewrite get_view, Hv by done. done.
Qed.

Lemma tree_at_more rd rd' root σ : more rd rd' -> tree_at DefaultConfig rd root σ -> tree_at DefaultConfig rd' root σ.
Proof. intros Hm (Hv & xs & m & Hh & Hr). split; [done|]. exists xs, m. split; [|done]. by eapply holding_more. Qed.

Lemma exNew_ok : cs_ok Memstore.New.
Proof. exact Memstore.New_usable. Qed.

Lemma exSt1_ok : cs_ok exSt1.2 /\ cs_view Memstore.New ⊆ cs_view exSt1.2 /\ tree_at DefaultConfig (cs_get exSt1.2) (rootIn exSt1) exBase.
Proof. refine (exWrite_ok exBase Memstore.New exNew_ok (exTree_valid _ (or_introl eq_refl)) _). vm_compute. reflexivity. Qed.

Lemma exSt2_ok : cs_ok exSt2.2 /\ cs_view exSt1.2 ⊆ cs_view exSt2.2 /\ tree_at DefaultConfig (cs_get exSt2.2) (rootIn exSt2) exOurs.
Proof. refine (exWrite_ok exOurs exSt1.2 (proj1 exSt1_ok) (exTree_valid _ (or_intror (or_introl eq_refl))) _). vm_compute. reflexivity. Qed.

Lemma exSt3_ok : cs_ok exSt3.2 /\ cs_view exSt2.2 ⊆ cs_view exSt3.2 /\ tree_at DefaultConfig (cs_get exSt3.2) (rootIn exSt3) exTheirs.
Proof. refine (exWrite_ok exTheirs exSt2.2 (proj1 exSt2_ok) (exTree_valid _ (or_intror (or_intror eq_refl))) _). vm_compute. reflexivity. Qed.

(** The three trees on the last store. *)
Lemma exThree : cs_ok exSt3.2 /\ tree_at DefaultConfig (cs_get exSt3.2) (rootIn exSt1) exBase /\
  tree_at DefaultConfig (cs_get exSt3.2) (rootIn exSt2) exOurs /\ tree_at DefaultConfig (cs_get exSt3.2) (rootIn exSt3) exTheirs.
Proof.
  destruct exSt1_ok as (H1 & _ & T1), exSt2_ok as (H2 & V2 & T2), exSt3_ok as (H3 & V3 & T3). split; [done|]. rewrite get_view in * by done.
  split_and!; [..|exact T3].
  - eapply tree_at_more; [|exact T1]. apply more_view. by etrans.
  - eapply tree_at_more; [|exact T2]. by apply more_view.
Qed.

Lemma exThree_room ed v :
  steps (compared (spec DefaultConfig) (rootIn exSt1) (rootIn exSt2) (rootIn exSt3) (resolving None)) (cs_view exSt3.2) (ed, []) v -> room v ed.
Proof.
  intros Hs. apply roomb_true. specialize (Hs zero_hash).
  assert (match exec (cs_view exSt3.2) zero_hash (compared (spec DefaultConfig) (rootIn exSt1) (rootIn exSt2) (rootIn exSt3) (resolving None)) with
          | (Ok (ed, _), v, _) => roomb v ed | _ => false end = true) as E by (vm_compute; reflexivity).
  by rewrite Hs in E.
Qed.

Lemma tree_written_is_read_witness : exists root (st' : Memstore.Store),
  run (Write DefaultConfig (map_to_list exBase)) Memstore.New = (Ok root, st') /\ Read (cs_get st') DefaultConfig root = Ok exBase.
Proof.
  assert (writableb exBase Memstore.New = true) as Hw by (vm_compute; reflexivity). destruct (writableb_true _ _ Hw) as [Hcf Hroom]. destruct exDefault as [Hrl Hmax].
  destruct (tree_written_is_read DefaultConfig Memstore.New (map_to_list exBase) exBase exNew_ok Hrl Hmax (reflexivity _) (exTree_valid _ (or_introl eq_refl)) Hcf Hroom)
    as (root & st' & Hrun & _ & _ & Hread & _).
  exists root, st'. split; [exact Hrun|exact Hread].
Defined.

Lemma tree_merge_is_per_entry_witness : exists r (st' : Memstore.Store),
  run (Merge DefaultConfig (rootIn exSt1) (rootIn exSt2) (rootIn exSt3)) exSt3.2 = (Ok r, st') /\
  forall p, p ∈ map CLocation (MConflicts r) <-> clashAt exBase exOurs exTheirs p.
Proof.
  destruct exThree as (H0 & Hb & Ho & Ht).
  destruct (tree_merge_is_per_entry DefaultConfig exSt3.2 _ _ _ exBase exOurs exTheirs H0 Hb Ho Ht ltac:(vm_compute; discriminate) exThree_room)
    as (r & st' & Hrun & _ & _ & _ & Hp & _).
  exists r, st'. split; [exact Hrun|exact Hp].
Defined.

Lemma map_merge_is_per_key_witness : exists r (st' : Memstore.Store) xb xo xt,
  run (MergeWith (spec DefaultConfig) (rootIn exSt1) (rootIn exSt2) (rootIn exSt3) (resolving None)) exSt3.2 = (Ok r, st') /\
  merged_object (spec DefaultConfig) (rootIn exSt2) xb xo xt (records exOurs) (records exTheirs) (answerAt exBase exOurs exTheirs) (cs_get st') r.
Proof.
  destruct exThree as (H0 & (_ & xb & Hb) & (_ & xo & Ho) & (Vt & xt & Ht)).
  destruct (map_merge_is_per_key exSt3.2 (spec DefaultConfig) _ _ _ xb xo xt (records exBase) (records exOurs) (records exTheirs) (resolving None) (answerAt exBase exOurs exTheirs)
    H0 Hb Ho Ht (tree_ready DefaultConfig xb xo xt exBase exOurs exTheirs _ Vt) ltac:(vm_compute; discriminate) exThree_room) as (r & st' & Hrun & _ & _ & Hm).
  exists r, st', xb, xo, xt. split; [exact Hrun|exact Hm].
Defined.

Lemma models_name_what_they_reach_witness : exists rg,
  NewRegistry [Some BlobModel.model; Some (TreeModel.model DefaultConfig)] = Ok rg /\ walkers_keep (cs_get exSt3.2) rg (kept_object DefaultConfig (cs_get exSt3.2)).
Proof.
  eexists. split; [reflexivity|]. apply (models_name_what_they_reach DefaultConfig (cs_get exSt3.2)). reflexivity.
Defined.

(** The two sides' changes combine. *)
Example tree_merge_example : match run (Merge DefaultConfig (rootIn exSt1) (rootIn exSt2) (rootIn exSt3)) exSt3.2 with
  | (Ok r, st) => match Read (cs_get st) DefaultConfig (MRoot r) with
                  | Ok σ => bool_decide (σ = {[str "a" := exFile 2; str "c" := exFile 3]}) && bool_decide (map CLocation (MConflicts r) = [])
                  | Err _ => false
                  end
  | _ => false
  end = true.
Proof. vm_compute. reflexivity. Qed.
End Example.
End Trees.
